(* ===== verification/_CoqProject ===== *)
-Q . S2P
Prelude.v
GoStrings.v
Backoff.v
RouterTree.v
RouterSpec.v
RouterDispatch.v
RouterGroup.v
RouterServe.v
CacheMemory.v
CacheSpec.v
CacheLock.v
CacheStore.v
LoginThrottle.v
LoginAttempt.v
Heap.v
QueueMemory.v
QueueSpec.v
Batch.v
Cron.v
Schedule.v
SchedulerLock.v
Scheduler.v
IpClass.v
NetAddr.v
ClientIp.v
RateLimit.v
SqlGrammar.v
SqlSpec.v
SqlStatement.v
SqlQuery.v
SqlTerminal.v
SqlBuilder.v
SqlScope.v
SqlTerminalSpec.v
Migrator.v
MigratorSpec.v
QueuePayload.v
QueueWorker.v
QueueDatabase.v
Drain.v
DrainSpec.v
SessionGate.v
SessionGateSpec.v
SessionReads.v
SessionWrites.v
WebEncoding.v
Csrf.v
CsrfSpec.v
CsrfTokens.v
CsrfCache.v
Totp.v
Crypto.v
CryptoSpec.v
Jwt.v
JwtSpec.v
Webhook.v
Collect.v
ValidationRules.v
Validation.v
ValidationSpec.v
