(* ===== verification/Prelude.v ===== *)
(** * A verification library for the Velocity web framework (src/)

    Velocity is a full-stack Go framework: every subsystem is a package with a
    small state, a set of operations on it and contracts written in its
    comments.  This library models the packages that carry the framework's own
    logic, operation by operation, and proves those contracts.  Paths below are
    relative to src/.

    ** The program and how its parts interact

    A request enters the router (router/): ServeHTTP admits it (or refuses it
    once a shutdown began), builds the global middleware chain, the tree chooses a route, the route's groups contribute
    their middleware.  Middleware of the framework itself: rate limiting, which
    keys on the client's address (internal/clientip); the session middleware,
    which opens the authentication gate of the request and saves the session
    when the handler returns (auth/drivers/schemes); CSRF protection (csrf/).  A
    login passes the throttler (auth/throttle.go, auth_throttle.go), which
    counts in the cache (cache/).  Handlers validate input (validation/), query
    the database (orm/) and push jobs (queue/); workers pop them, and the
    scheduler (scheduler/) starts others by the clock, on one host at a time.
    Workers, scheduler and servers stop through internal/drain.

    ** Files

    Shared:
    - Prelude.v: results, tactics, the hint and rewrite databases, wrap-around
      at 64 and 32 bits, lemmas on lists, options and maps;
    - GoStrings.v, WebEncoding.v: what the code uses of strings, strconv,
      net/url and encoding/base64;  NetAddr.v: of package net;  Heap.v: of
      container/heap.

    Router:
    - RouterTree.v, RouterSpec.v: router/segment.go, tree.go.  Node, segment and
      route are the source's records; InsertWithName, Match, AllowedMethods,
      CompileStaticRoutes and BuildPath its functions.  RouterSpec.v has the
      abstract route map and the refinement;
    - RouterDispatch.v, RouterServe.v: velocity_router.go, admission.go,
      resource.go, url.go;
    - RouterGroup.v: pipeline/pipeline.go, router/group.go;
    - RateLimit.v: router/rate_limit.go;
    - IpClass.v: internal/ipclass;  ClientIp.v: internal/clientip,
      router/trustedproxy.go.

    Cache and login:
    - CacheMemory.v, CacheSpec.v: cache/drivers/memory.go, helpers.go;
    - CacheLock.v: memory_lock.go, lock_run.go;
    - CacheStore.v: the interface contract.CacheStore as a class with its laws,
      and the memory store as an instance;
    - LoginThrottle.v, LoginAttempt.v: auth/throttle.go, auth_throttle.go,
      auth/drivers/schemes/attempt.go, verified against that class.

    Authentication of a request:
    - SessionGate.v, SessionGateSpec.v, SessionReads.v, SessionWrites.v: gate.go,
      and of session.go and middleware.go the queue of writes and the commit;
    - Totp.v: auth/totp.go;
    - Jwt.v, JwtSpec.v: auth/jwt.go; the blacklist is a class with laws, the
      store in memory its instance;
    - Crypto.v, CryptoSpec.v: crypto/crypto.go, crypto/drivers/aes.go, and the AES
      driver as the encryptor QueuePayload.v seals with;
    - Csrf.v, CsrfSpec.v, CsrfTokens.v, CsrfCache.v: csrf/ and
      internal/buildonce; the token store is a class, with the laws of a store
      that serves every call from one shared record; the store in memory is its
      instance, the session-bag store, which reads snapshots, is outside.

    Jobs:
    - QueueMemory.v, QueueSpec.v: queue/memory.go, admit.go, job_wrapper.go;
      Backoff.v: backoff.go;  Batch.v: batch.go, batch_repository.go;
    - QueuePayload.v: payload.go, queue.go, signing.go, encryption.go;
    - QueueWorker.v: worker.go over the class of leasing drivers, instantiated
      by the memory driver there and by the database driver (database.go) in
      QueueDatabase.v;
    - Cron.v, Schedule.v, SchedulerLock.v, Scheduler.v: scheduler/expression.go,
      schedule.go, lock.go, job.go and scheduler.go;
    - Drain.v, DrainSpec.v: internal/drain, internal/goroutine.

    Database:
    - SqlGrammar.v, SqlSpec.v, SqlStatement.v: the grammars of orm/drivers and
      what the database reads in a statement;
    - SqlQuery.v, SqlBuilder.v: the chain methods of orm/query.go;
    - SqlTerminal.v, SqlTerminalSpec.v, SqlScope.v: the terminals, aggregates,
      increments and global scopes (query.go, aggregates.go, increment.go,
      scopes.go, relation.go);
    - Migrator.v, MigratorSpec.v: orm/migrate.

    Input and helpers:
    - Webhook.v: webhook/signer.go, verifier.go, drivers/nonce/memory.go;
    - Collect.v: collect/;
    - ValidationRules.v, Validation.v, ValidationSpec.v: validation/ and
      validation/rules.

    ** How code becomes definitions

    A struct is a Record, an enum or interface value an Inductive, a Go map a
    [gmap] (an association list where iteration order matters; then the order is
    an argument and the theorems hold for each).  A function that returns an
    error returns [result]; panics are values.  Clock readings, random bytes,
    map iteration orders, failures of statements and cancellations are
    arguments.  A method that runs under a mutex is one step; code that releases
    the lock or works with atomics is a state machine whose steps are its
    critical sections and atomic accesses, and a run is any interleaving.
    [int], [int64] and [time.Duration] are [Z] with [wrap64] where they can
    overflow, [int32] and atomic.Int32 with [wrap32].  Code outside the repository (regexp, JSON, HMAC, SHA, base32,
    the token bucket of golang.org/x/time, Unicode tables, encryptors) is a
    parameter (of the AES driver, the cipher and GCM; CBC chaining, padding and
    framing are modelled), with its documented behaviour as a hypothesis where a theorem
    needs it and a witness that instantiates it.  What encoding/json reads back is
    the canonical form of what it wrote, not the value itself; that a MAC or a
    ciphertext was not forged is assumed of the presented one only.

    ** What the theorems show

    - refinement: the routing tree is a finite map from patterns to routes and
      [Match] the most preferred covering route; a fluent schedule is the
      fields its calls set;
    - conservation and exclusion under interleaving: jobs in the memory and the
      database queue have one outcome, a batch finishes once, scheduled runs
      and lock holders exclude each other, a drain is idle exactly when
      drained, the session is saved once and whole, writes follow the save, a
      refresh token is spent once and not after a sign-out;
    - security: attempts within the throttle's cap, forwarded addresses, CSRF
      tokens, signed and sealed payloads, what an encryptor opens and what its
      refusals reveal, one-time passwords, internal addresses;
    - SQL: placeholders and arguments agree in every statement, scopes confine
      a query, the ledger of migrations replays to the schema;
    - bounds, termination and round trips: the cache's cap, BlockLock, Cron,
      BuildPath, masking, codes;
    - the validation engine accepts exactly what passed, in every order.

    ** Bounds and fuel

    Loops that are not structural carry fuel, proved enough where they are
    used: [itoa] by the binary logarithm of its argument, eviction by the
    store's size plus one, heap moves and drains by the heap's length,
    [makeRange] by its bounds, BlockLock by the timeout over the retry interval
    ([block_lock_terminates]), IPv6 parsing by its eight groups, Cron.Next by
    the code's own horizon of 4*365 days.  DrainSpec.v speaks of fewer than
    2^62 steps (the closed bit of the counter), JwtSpec.v of fewer than 2^63
    (the generation counter), Batch.v of fewer than 2^31 jobs (its counters); sequence numbers of the
    in-memory drivers and the generation of the CSRF cache are unbounded, and
    TOTP steps are kept at 64 bits.

    ** Not modelled

    HTTP parsing, cookies, files, sockets and their drivers (redis, SMTP, S3,
    gRPC, websockets); rendering (view, bond, markdown, mail); what rests on
    reflection over user structs (models, relations, binding, command flags);
    cryptographic primitives; schema building and the SQL of each dialect's
    introspection; logging, tracing and events; start-up and wiring.  Of
    validation, the rules that ask a database or parse a mail address, a URL, a
    date, an expression or a file.  Of the session scheme, the operations
    outside the middleware and the session stores. *)

From stdpp Require Export base tactics option list list_numbers numbers.
From stdpp Require Export fin_maps gmap sets strings sorting.
From Stdlib Require Export ZArith Lia.

Local Open Scope Z_scope.

Declare Scope go_scope.
Delimit Scope go_scope with go.

(** ** Errors and results

    A Go function that returns [(T, error)] is modelled by [result E T]; a
    component whose functions may also panic has an outcome type of its own
    ([InsertOutcome] of RouterTree.v). *)

Inductive result (E A : Type) : Type :=
  | Ok (a : A)
  | Err (e : E).
Arguments Ok {E A} a.
Arguments Err {E A} e.

Definition res_bind {E A B} (m : result E A) (f : A -> result E B) : result E B :=
  match m with Ok a => f a | Err e => Err e end.

Notation "x <-! m ;; k" := (res_bind m (fun x => k))
  (at level 100, m at next level, right associativity,
   format "x  <-!  m ;;  '/' k") : go_scope.

Lemma Ok_inj {E A} (a b : A) : @Ok E A a = Ok b -> a = b.
Proof. congruence. Qed.

Lemma res_bind_ok {E A B} (m : result E A) (f : A -> result E B) b :
  res_bind m f = Ok b -> exists a, m = Ok a /\ f a = Ok b.
Proof. destruct m as [a|e]; [by exists a|done]. Qed.

(** ** Machine integers

    Go's [int], [int64] and [time.Duration] are 64-bit two's complement on the
    platforms the framework supports; [wrap64] is the value kept by an
    arithmetic operation whose exact result is [z]. *)

Definition two63 : Z := 9223372036854775808.
Definition two64 : Z := 18446744073709551616.

Definition wrap64 (z : Z) : Z := (z + two63) `mod` two64 - two63.

Definition in_int64 (z : Z) : Prop := - two63 <= z < two63.

(** The same for [int32] and the atomic counters of that width. *)
Definition two31 : Z := 2147483648.
Definition two32 : Z := 4294967296.

Definition wrap32 (z : Z) : Z := (z + two31) `mod` two32 - two31.

(** ** Clock readings

    [time.Now()] is read by an operation at fixed places of its body.
    [clk i] is the value of the [i]-th reading, in nanoseconds; nothing is
    assumed about two readings unless a theorem says so. *)

Definition Clock : Type := nat -> Z.

Definition MICROSECOND : Z := 1000.
Definition MILLISECOND : Z := 1000000.
Definition SECOND : Z := 1000000000.
Definition MINUTE : Z := 60 * SECOND.
Definition HOUR : Z := 60 * MINUTE.

(** Arithmetic on values of a known width. *)
Ltac width := unfold in_int64, two63, two64 in *; lia.

(** [set_field eta f]: the update of the field [f] of a record, for [eta] the
    record rebuilt from its fields. *)
Ltac set_field eta f :=
  let e := eval cbv delta [eta] in eta in
  let u := eval pattern f in e in
  match u with
  | ?g _ => let b := eval cbv beta in (fun v r => g (fun _ => v) r) in exact b
  end.

Create HintDb go.
#[export] Hint Extern 1 (in_int64 _) => solve [width] : go.

Lemma wrap64_small z : in_int64 z -> wrap64 z = z.
Proof.
  unfold in_int64, wrap64, two63, two64. intros H.
  rewrite Z.mod_small; lia.
Qed.

Lemma wrap64_range z : in_int64 (wrap64 z).
Proof.
  unfold in_int64, wrap64, two63, two64.
  pose proof (Z.mod_pos_bound (z + 9223372036854775808) 18446744073709551616).
  lia.
Qed.

#[export] Hint Resolve wrap64_range : go.

Lemma wrap32_small z : - two31 <= z < two31 -> wrap32 z = z.
Proof. unfold wrap32, two31, two32. intros H. rewrite Z.mod_small; lia. Qed.

(** A power of two that divides the exact result divides the kept one. *)
Lemma wrap64_divide k z :
  0 <= k <= 63 -> (2 ^ k | z) -> (2 ^ k | wrap64 z).
Proof.
  intros Hk Hz. unfold wrap64.
  assert (H63 : (2 ^ k | two63)).
  { exists (2 ^ (63 - k)). rewrite <- Z.pow_add_r by lia.
    replace (63 - k + k) with 63 by lia. reflexivity. }
  assert (H64 : (2 ^ k | two64)).
  { exists (2 ^ (64 - k)). rewrite <- Z.pow_add_r by lia.
    replace (64 - k + k) with 64 by lia. reflexivity. }
  apply Z.divide_sub_r; [|exact H63].
  rewrite Z.mod_eq by (unfold two64; lia).
  apply Z.divide_sub_r; [by apply Z.divide_add_r|].
  by apply Z.divide_mul_l.
Qed.

(** ** Finite maps *)

Lemma elem_of_keys `{Countable K} {A} (m : gmap K A) (k : K) :
  k ∈ (map_to_list m).*1 <-> is_Some (m !! k).
Proof.
  rewrite list_elem_of_fmap. split.
  - intros ([k' x] & -> & Hx%elem_of_map_to_list). simpl. eauto.
  - intros [x Hx]. exists (k, x). split; [done|]. by apply elem_of_map_to_list.
Qed.

Lemma map_size_alter `{Countable K} {A} (f : A -> A) (m : gmap K A) (k : K) :
  size (alter f k m) = size m.
Proof. by rewrite <- !(size_dom (D := gset K)), dom_alter_L. Qed.

(** ** Lists of processes

    A list updated at one position, seen through a partial projection. *)

Section omap.
Context {A B : Type} (f : A -> option B).

Lemma length_omap_le (l : list A) : (List.length (omap f l) <= List.length l)%nat.
Proof. induction l as [|x l IH]; csimpl; [lia|]. destruct (f x); csimpl; lia. Qed.

Lemma omap_split (l : list A) i x :
  l !! i = Some x ->
  omap f l = omap f (take i l) ++ option_list (f x) ++ omap f (drop (S i) l).
Proof.
  intros Hi. rewrite <- (take_drop_middle l i x Hi) at 1. rewrite omap_app. f_equal. csimpl.
  by destruct (f x).
Qed.

Lemma omap_insert (l : list A) i x y :
  l !! i = Some x ->
  omap f (<[i := y]> l) = omap f (take i l) ++ option_list (f y) ++ omap f (drop (S i) l).
Proof.
  intros Hi. rewrite insert_take_drop by (by eapply lookup_lt_Some).
  rewrite omap_app. f_equal. csimpl. by destruct (f y).
Qed.

Lemma omap_insert_same (l : list A) i x y :
  l !! i = Some x -> f y = f x -> omap f (<[i := y]> l) = omap f l.
Proof. intros Hi Hf. by rewrite (omap_insert l i x y Hi), (omap_split l i x Hi), Hf. Qed.

Lemma omap_insert_new (l : list A) i x y z :
  l !! i = Some x -> f x = None -> f y = Some z -> omap f (<[i := y]> l) ≡ₚ z :: omap f l.
Proof.
  intros Hi Hx Hy. rewrite (omap_insert l i x y Hi), (omap_split l i x Hi), Hx, Hy. simpl.
  by rewrite Permutation_middle.
Qed.

Lemma length_omap_lt (l : list A) i x :
  l !! i = Some x -> f x = None -> (List.length (omap f l) < List.length l)%nat.
Proof.
  intros Hi Hx. rewrite (omap_split l i x Hi), Hx, !length_app. simpl.
  pose proof (lookup_lt_Some _ _ _ Hi). pose proof (length_omap_le (take i l)) as H1.
  pose proof (length_omap_le (drop (S i) l)) as H2. rewrite length_take in H1.
  rewrite length_drop in H2. lia.
Qed.

End omap.

(** ** Sums and concatenations *)

(** Sums over a list that is updated in place. *)
Lemma sum_list_with_lookup {A} (f : A -> nat) (l : list A) i x :
  l !! i = Some x -> (f x <= sum_list_with f l)%nat.
Proof.
  revert i; induction l as [|y l IH]; intros [|i] Hi; simplify_eq/=; [lia|].
  specialize (IH _ Hi). lia.
Qed.

Lemma sum_list_with_insert {A} (f : A -> nat) (l : list A) i x y :
  l !! i = Some x ->
  sum_list_with f (<[i := y]> l) = (sum_list_with f l - f x + f y)%nat.
Proof.
  revert i; induction l as [|z l IH]; intros [|i] Hi; simplify_eq/=; [lia|].
  rewrite (IH _ Hi). pose proof (sum_list_with_lookup f l i x Hi). lia.
Qed.

Lemma sum_pos {A} (f : A -> nat) l : (0 < sum_list_with f l)%nat -> exists x i, l !! i = Some x /\ (0 < f x)%nat.
Proof.
  induction l as [|y l IH]; cbn; [lia|]. intros H. destruct (f y) eqn:Hf.
  - destruct (IH H) as (x & i & Hi & Hx). by exists x, (S i).
  - exists y, 0%nat. split; [done|lia].
Qed.

Lemma sum_zero {A} (f : A -> nat) l i x : sum_list_with f l = 0%nat -> l !! i = Some x -> f x = 0%nat.
Proof. intros H Hi. pose proof (sum_list_with_lookup f l i x Hi). lia. Qed.

Lemma sum_list_with_le {A} (f g : A -> nat) l :
  (forall x, f x <= g x)%nat -> (sum_list_with f l <= sum_list_with g l)%nat.
Proof. intros H. induction l as [|x l IH]; cbn; [done|]. specialize (H x). lia. Qed.

(** When one element already has all there is of [g], it has all there is of
    a smaller measure. *)
Lemma sum_list_with_single {A} (f g : A -> nat) l i x :
  (forall y, f y <= g y)%nat -> (sum_list_with g l <= g x)%nat -> l !! i = Some x ->
  sum_list_with f l = f x.
Proof.
  intros Hle. revert i. induction l as [|y l IH]; intros [|i] Hg Hi; simplify_eq/=.
  - pose proof (sum_list_with_le f g l Hle). lia.
  - pose proof (sum_list_with_lookup g l i x Hi). rewrite (IH i) by (done || lia).
    specialize (Hle y). lia.
Qed.

(** [tally f] adds that the measure [f] of each element known to be in a list
    is bounded by its sum; [tally_step] computes the sum over an updated list. *)
Ltac tally f :=
  repeat match goal with
  | Hg : ?l !! ?i = Some ?g |- _ =>
      lazymatch goal with
      | _ : (f g <= sum_list_with f l)%nat |- _ => fail
      | _ => pose proof (sum_list_with_lookup f l i g Hg)
      end
  end;
  repeat match goal with
  | H : context [sum_list_with f (<[_ := _]> _)] |- _ => erewrite sum_list_with_insert in H by eassumption
  end.
Ltac tally_step :=
  repeat first [rewrite sum_list_with_app | erewrite sum_list_with_insert by eassumption].

(** Replacing one element of a list changes its share of a concatenation. *)
Lemma concat_insert {A B} (f : A -> list B) xs i x :
  xs !! i = Some x ->
  exists rest, concat (f <$> xs) ≡ₚ f x ++ rest /\ forall y, concat (f <$> <[i := y]> xs) ≡ₚ f y ++ rest.
Proof.
  revert i. induction xs as [|a xs IH]; intros [|i] Hx; simplify_eq/=.
  - by exists (concat (f <$> xs)).
  - destruct (IH i Hx) as (rest & H1 & H2). exists (f a ++ rest). split.
    + rewrite H1. solve_Permutation.
    + intros y. rewrite H2. solve_Permutation.
Qed.

Lemma concat_elem {A B} (f : A -> list B) xs k x b : xs !! k = Some x -> b ∈ f x -> b ∈ concat (f <$> xs).
Proof.
  intros Hx Hb. destruct (concat_insert f xs k x Hx) as (rest & Hp & _). rewrite Hp, elem_of_app. by left.
Qed.

Lemma concat_distinct {A B C} (f : A -> list B) (g : B -> C) xs k1 k2 x1 x2 b1 b2 :
  NoDup (g <$> concat (f <$> xs)) -> k1 <> k2 -> xs !! k1 = Some x1 -> xs !! k2 = Some x2 ->
  b1 ∈ f x1 -> b2 ∈ f x2 -> g b1 <> g b2.
Proof.
  revert k1 k2. induction xs as [|a xs IH]; intros k1 k2 Hnd Hne H1 H2 Hb1 Hb2; [done|].
  cbn in Hnd. rewrite fmap_app in Hnd. apply NoDup_app in Hnd as (_ & Hd & Hnd).
  destruct k1 as [|k1], k2 as [|k2]; simplify_eq/=.
  - intros He. apply (Hd (g b1)); [by apply list_elem_of_fmap_2|]. rewrite He.
    apply list_elem_of_fmap_2. by eapply concat_elem.
  - intros He. apply (Hd (g b2)); [by apply list_elem_of_fmap_2|]. rewrite <- He.
    apply list_elem_of_fmap_2. by eapply concat_elem.
  - apply (IH k1 k2); auto.
Qed.
