(* ===== verification/GoStrings.v ===== *)
(** * The part of Go's strings, strconv and net/url packages the code uses

    A Go [string] is a sequence of bytes: Stdlib's [string] over [ascii].
    Separators are single bytes in every call the modelled code makes, so
    [strings.Split], [strings.Index] and [strings.Join] take one byte.  White
    space is Go's [unicode.IsSpace], found by its UTF-8 encoding: a lead byte
    always starts a rune, so looking for the encodings at every byte position
    agrees with decoding the string rune by rune. *)

From S2P Require Import Prelude.
From Stdlib Require Import Ascii String.
Local Open Scope string_scope.
Local Open Scope list_scope.
Local Open Scope Z_scope.

#[global] Arguments String.append !s1 s2 : simpl nomatch.

Definition byte_val (c : ascii) : Z := Z.of_nat (nat_of_ascii c).

Definition slash : ascii := "/"%char.

(** ** Predicates and search *)

(** strings.HasPrefix *)
Fixpoint has_prefix (p s : string) : bool :=
  match p, s with
  | EmptyString, _ => true
  | String a p', String b s' => Ascii.eqb a b && has_prefix p' s'
  | String _ _, EmptyString => false
  end.

(** strings.HasSuffix of a one-byte suffix *)
Fixpoint has_suffix_byte (c : ascii) (s : string) : bool :=
  match s with
  | EmptyString => false
  | String a EmptyString => Ascii.eqb a c
  | String _ s' => has_suffix_byte c s'
  end.

(** strings.Index / strings.IndexByte *)
Fixpoint index_byte (c : ascii) (s : string) : option nat :=
  match s with
  | EmptyString => None
  | String a s' => if Ascii.eqb a c then Some O else S <$> index_byte c s'
  end.

(** strings.Contains of a one-byte substring *)
Fixpoint contains_byte (c : ascii) (s : string) : bool :=
  match s with
  | EmptyString => false
  | String a s' => Ascii.eqb a c || contains_byte c s'
  end.

(** s[n:] and s[:n] for n within the string *)
Fixpoint str_drop (n : nat) (s : string) : string :=
  match n, s with
  | O, _ => s
  | S n', String _ s' => str_drop n' s'
  | S _, EmptyString => EmptyString
  end.

Fixpoint str_take (n : nat) (s : string) : string :=
  match n, s with
  | O, _ => EmptyString
  | S n', String a s' => String a (str_take n' s')
  | S _, EmptyString => EmptyString
  end.

(** ** Trimming, splitting and joining *)

Fixpoint trim_left (c : ascii) (s : string) : string :=
  match s with
  | String a s' => if Ascii.eqb a c then trim_left c s' else s
  | EmptyString => EmptyString
  end.

Fixpoint trim_right (c : ascii) (s : string) : string :=
  match s with
  | EmptyString => EmptyString
  | String a s' =>
      match trim_right c s' with
      | EmptyString => if Ascii.eqb a c then EmptyString else String a EmptyString
      | r => String a r
      end
  end.

(** strings.Trim(s, c) *)
Definition trim (c : ascii) (s : string) : string := trim_right c (trim_left c s).

(** strings.Split(s, c): always at least one piece. *)
Fixpoint split_on (c : ascii) (s : string) : list string :=
  match s with
  | EmptyString => [EmptyString]
  | String a s' =>
      if Ascii.eqb a c then EmptyString :: split_on c s'
      else match split_on c s' with
           | p :: ps => String a p :: ps
           | [] => [String a EmptyString]
           end
  end.

(** strings.Join(l, sep) *)
Fixpoint join (sep : string) (l : list string) : string :=
  match l with
  | [] => EmptyString
  | [s] => s
  | s :: l' => s +:+ sep +:+ join sep l'
  end.

(** ** White space *)

(** The number of bytes of the white-space rune [s] starts with, 0 if it
    starts with none (unicode.IsSpace). *)
Definition space_len (s : string) : nat :=
  match s with
  | String a s1 =>
      let v := byte_val a in
      if ((9 <=? v) && (v <=? 13)) || (v =? 32) then 1%nat
      else match s1 with
      | String b s2 =>
          let w := byte_val b in
          if (v =? 0xC2) && ((w =? 0x85) || (w =? 0xA0)) then 2%nat
          else match s2 with
          | String c _ =>
              let x := byte_val c in
              if ((v =? 0xE1) && (w =? 0x9A) && (x =? 0x80))
                 || ((v =? 0xE2) && (w =? 0x80)
                     && (((0x80 <=? x) && (x <=? 0x8A)) || (x =? 0xA8)
                         || (x =? 0xA9) || (x =? 0xAF)))
                 || ((v =? 0xE2) && (w =? 0x81) && (x =? 0x9F))
                 || ((v =? 0xE3) && (w =? 0x80) && (x =? 0x80))
              then 3%nat else O
          | EmptyString => O
          end
      | EmptyString => O
      end
  | EmptyString => O
  end.

(** Drop the leading white space; [skip] bytes of a white-space rune are
    still to be dropped. *)
Fixpoint trim_left_space_from (skip : nat) (s : string) : string :=
  match skip, s with
  | _, EmptyString => EmptyString
  | S k, String _ s' => trim_left_space_from k s'
  | O, String _ s' =>
      match space_len s with
      | O => s
      | S k => trim_left_space_from k s'
      end
  end.

Fixpoint trim_right_space (s : string) : string :=
  match s with
  | EmptyString => EmptyString
  | String a s' =>
      match trim_left_space_from 0 s with
      | EmptyString => EmptyString
      | _ => String a (trim_right_space s')
      end
  end.

(** strings.TrimSpace *)
Definition trim_space (s : string) : string :=
  trim_right_space (trim_left_space_from 0 s).

(** strings.Fields: [cur] is the field being read, [None] between fields. *)
Fixpoint fields_from (skip : nat) (cur : option string) (s : string) : list string :=
  match skip, s with
  | _, EmptyString => match cur with Some w => [w] | None => [] end
  | S k, String _ s' => fields_from k cur s'
  | O, String a s' =>
      match space_len s with
      | S k => match cur with
               | Some w => w :: fields_from k None s'
               | None => fields_from k None s'
               end
      | O => fields_from 0 (Some (default EmptyString cur +:+ String a EmptyString)) s'
      end
  end.

Definition fields (s : string) : list string := fields_from 0 None s.

(** strings.ToLower on ASCII letters; the code only compares the result with
    an ASCII literal. *)
Definition lower_byte (c : ascii) : ascii :=
  let v := nat_of_ascii c in
  if ((65 <=? v) && (v <=? 90))%nat then ascii_of_nat (v + 32) else c.

Fixpoint lower_ascii (s : string) : string :=
  match s with
  | EmptyString => EmptyString
  | String a s' => String (lower_byte a) (lower_ascii s')
  end.

(** strings.ToLower and strings.ToUpper where the result is compared with, or
    searched for, ASCII text: besides the ASCII letters, the only runes mapped
    to ASCII are U+0130 and U+212A (lower) and U+0131 and U+017F (upper); every
    other rune stays outside ASCII and is left as it is. *)
Definition upper_byte (c : ascii) : ascii :=
  let v := nat_of_ascii c in
  if ((97 <=? v) && (v <=? 122))%nat then ascii_of_nat (v - 32) else c.

Fixpoint to_upper (s : string) : string :=
  match s with
  | String a (String b r as s') =>
      if (byte_val a =? 0xC4) && (byte_val b =? 0xB1) then String "I" (to_upper r)
      else if (byte_val a =? 0xC5) && (byte_val b =? 0xBF) then String "S" (to_upper r)
      else String (upper_byte a) (to_upper s')
  | String a EmptyString => String (upper_byte a) EmptyString
  | EmptyString => EmptyString
  end.

Fixpoint to_lower (s : string) : string :=
  match s with
  | String a (String b (String c r as s2) as s1) =>
      if (byte_val a =? 0xC4) && (byte_val b =? 0xB0) then String "i" (to_lower s2)
      else if (byte_val a =? 0xE2) && (byte_val b =? 0x84) && (byte_val c =? 0xAA)
      then String "k" (to_lower r)
      else String (lower_byte a) (to_lower s1)
  | String a (String b EmptyString as s1) =>
      if (byte_val a =? 0xC4) && (byte_val b =? 0xB0) then "i"
      else String (lower_byte a) (to_lower s1)
  | String a EmptyString => String (lower_byte a) EmptyString
  | EmptyString => EmptyString
  end.

(** strings.Contains. *)
Fixpoint contains_str (sub s : string) : bool :=
  has_prefix sub s
  || match s with EmptyString => false | String _ s' => contains_str sub s' end.

(** strings.ReplaceAll of a text that is not empty; [skip] bytes of an
    occurrence are still to be dropped. *)
Fixpoint replace_from (skip : nat) (old new s : string) : string :=
  match s with
  | EmptyString => EmptyString
  | String a s' =>
      match skip with
      | S k => replace_from k old new s'
      | O => if has_prefix old s
             then new +:+ replace_from (Nat.pred (String.length old)) old new s'
             else String a (replace_from 0 old new s')
      end
  end.

Definition ReplaceAll (s old new : string) : string := replace_from 0 old new s.

(** ** strconv.Atoi *)

Definition digit_val (c : ascii) : option Z :=
  let v := byte_val c in
  if (48 <=? v) && (v <=? 57) then Some (v - 48) else None.

Fixpoint digits_val (acc : Z) (s : string) : option Z :=
  match s with
  | EmptyString => Some acc
  | String c s' =>
      match digit_val c with
      | Some d => digits_val (10 * acc + d) s'
      | None => None
      end
  end.

(** An optional sign, at least one decimal digit, and a value of [int]'s
    range; anything else is an error ([None]). *)
Definition Atoi (s : string) : option Z :=
  let '(neg, body) :=
    match s with
    | String "-"%char s' => (true, s')
    | String "+"%char s' => (false, s')
    | _ => (false, s)
    end in
  match body with
  | EmptyString => None
  | _ => match digits_val 0 body with
         | None => None
         | Some v =>
             let v := if neg : bool then - v else v in
             if (- two63 <=? v) && (v <? two63) then Some v else None
         end
  end.

(** ** net/url: PathEscape and PathUnescape *)

Definition is_alnum (v : Z) : bool :=
  ((97 <=? v) && (v <=? 122)) || ((65 <=? v) && (v <=? 90)) || ((48 <=? v) && (v <=? 57)).

(** Bytes that stand for themselves in a path segment: the unreserved set of
    RFC 3986 and the reserved bytes [$ & + : = @]. *)
Definition path_safe (c : ascii) : bool :=
  let v := byte_val c in
  is_alnum v
  || (v =? 45) || (v =? 95) || (v =? 46) || (v =? 126)
  || (v =? 36) || (v =? 38) || (v =? 43) || (v =? 58) || (v =? 61) || (v =? 64).

Definition hex_digit (n : nat) : ascii :=
  if (n <? 10)%nat then ascii_of_nat (48 + n) else ascii_of_nat (55 + n).

Definition unhex (c : ascii) : option nat :=
  let v := nat_of_ascii c in
  if ((48 <=? v) && (v <=? 57))%nat then Some (v - 48)%nat
  else if ((97 <=? v) && (v <=? 102))%nat then Some (v - 87)%nat
  else if ((65 <=? v) && (v <=? 70))%nat then Some (v - 55)%nat
  else None.

Fixpoint PathEscape (s : string) : string :=
  match s with
  | EmptyString => EmptyString
  | String c s' =>
      if path_safe c then String c (PathEscape s')
      else let v := nat_of_ascii c in
           String "%" (String (hex_digit (v / 16)) (String (hex_digit (v mod 16))
             (PathEscape s')))
  end.

Fixpoint PathUnescape (s : string) : option string :=
  match s with
  | EmptyString => Some EmptyString
  | String "%"%char (String a (String b s')) =>
      match unhex a, unhex b with
      | Some h, Some l => String (ascii_of_nat (16 * h + l)) <$> PathUnescape s'
      | _, _ => None
      end
  | String "%"%char _ => None
  | String c s' => String c <$> PathUnescape s'
  end.

(** ** Lemmas *)

Lemma append_nil_r s : s +:+ EmptyString = s.
Proof. induction s as [|a s IH]; simpl; congruence. Qed.

Lemma append_assoc s t u : (s +:+ t) +:+ u = s +:+ t +:+ u.
Proof. induction s as [|a s IH]; simpl; congruence. Qed.

Lemma contains_byte_app c s t :
  contains_byte c (s +:+ t) = contains_byte c s || contains_byte c t.
Proof. induction s as [|a s IH]; simpl; [done|]. rewrite IH. by rewrite orb_assoc. Qed.

Lemma split_on_ne c s : split_on c s <> [].
Proof. destruct s; simpl; [done|]. repeat case_match; done. Qed.

Lemma join_cons sep s l :
  l <> [] -> join sep (s :: l) = s +:+ sep +:+ join sep l.
Proof. destruct l; done. Qed.

Lemma join_split_on c s : join (String c EmptyString) (split_on c s) = s.
Proof.
  induction s as [|a s IH]; simpl; [done|].
  destruct (Ascii.eqb_spec a c) as [->|Hne].
  - rewrite join_cons by apply split_on_ne. by rewrite IH.
  - destruct (split_on c s) as [|p ps] eqn:E; [by destruct (split_on_ne c s)|].
    destruct ps; simpl in *; by rewrite <- IH.
Qed.

Lemma split_on_free c s : Forall (fun p => contains_byte c p = false) (split_on c s).
Proof.
  induction s as [|a s IH]; simpl; [by repeat constructor|].
  destruct (Ascii.eqb a c) eqn:E; [by constructor|].
  destruct (split_on c s) as [|p ps]; [constructor; simpl; [by rewrite E|done]|].
  apply Forall_cons in IH as [Hp Hps]. constructor; simpl; [by rewrite E|done].
Qed.

Lemma split_on_no_sep c s : contains_byte c s = false -> split_on c s = [s].
Proof.
  induction s as [|a s IH]; simpl; [done|]. intros [-> Hs]%orb_false_iff.
  by rewrite IH.
Qed.

Lemma split_on_app_sep c s t :
  contains_byte c s = false ->
  split_on c (s +:+ String c t) = s :: split_on c t.
Proof.
  induction s as [|a s IH]; simpl.
  - by rewrite Ascii.eqb_refl.
  - intros [-> Hs]%orb_false_iff. by rewrite IH.
Qed.

Lemma split_on_join c l :
  l <> [] -> Forall (fun p => contains_byte c p = false) l ->
  split_on c (join (String c EmptyString) l) = l.
Proof.
  induction l as [|s [|s' l] IH]; intros Hne Hl; [done| |].
  - apply Forall_cons in Hl as [Hs _]. by apply split_on_no_sep.
  - apply Forall_cons in Hl as [Hs Hl].
    rewrite join_cons by done.
    change (String c EmptyString +:+ ?t) with (String c t).
    rewrite split_on_app_sep, IH by done. done.
Qed.

Lemma unhex_hex_digit n : (n < 16)%nat -> unhex (hex_digit n) = Some n.
Proof. intros H. do 16 (destruct n as [|n]; [reflexivity|]). lia. Qed.

Lemma hex_digit_not_pct n : (n < 16)%nat -> hex_digit n <> "%"%char.
Proof. intros H. do 16 (destruct n as [|n]; [discriminate|]). lia. Qed.

Lemma path_safe_not_pct c : path_safe c = true -> c <> "%"%char.
Proof. intros H ->. discriminate H. Qed.

Lemma PathUnescape_plain c s :
  c <> "%"%char -> PathUnescape (String c s) = String c <$> PathUnescape s.
Proof.
  intros Hc. destruct c as [[] [] [] [] [] [] [] []]; try reflexivity.
  by destruct Hc.
Qed.

(** Every byte string survives escaping and unescaping. *)
Lemma PathUnescape_PathEscape s : PathUnescape (PathEscape s) = Some s.
Proof.
  induction s as [|c s IH]; [done|]. cbn [PathEscape].
  destruct (path_safe c) eqn:E.
  - rewrite PathUnescape_plain by by apply path_safe_not_pct. by rewrite IH.
  - assert (Hv : (nat_of_ascii c < 256)%nat) by apply nat_ascii_bounded.
    cbn [PathUnescape].
    rewrite !unhex_hex_digit
      by (try apply Nat.Div0.div_lt_upper_bound; try apply Nat.mod_upper_bound; lia).
    rewrite IH, <- Nat.div_mod_eq, ascii_nat_embedding. done.
Qed.

Lemma str_drop_app s t : str_drop (String.length s) (s +:+ t) = t.
Proof. induction s; simpl; done. Qed.

Lemma str_take_app s t : str_take (String.length s) (s +:+ t) = s.
Proof. induction s; simpl; congruence. Qed.

Lemma length_append s t :
  String.length (s +:+ t) = (String.length s + String.length t)%nat.
Proof. induction s; simpl; congruence. Qed.

(** The non-empty pieces of a path. *)
Definition path_parts (path : string) : list string :=
  filter (fun p => p <> EmptyString) (split_on slash path).

Lemma path_parts_slash path : path_parts (String slash path) = path_parts path.
Proof. unfold path_parts. cbn [split_on]. by rewrite Ascii.eqb_refl. Qed.

Lemma path_parts_cons s path :
  contains_byte slash s = false -> s <> EmptyString ->
  path_parts (s +:+ String slash path) = s :: path_parts path.
Proof.
  intros Hs Hne. unfold path_parts. rewrite split_on_app_sep by done.
  by rewrite filter_cons_True.
Qed.

Lemma path_parts_single s :
  contains_byte slash s = false -> s <> EmptyString -> path_parts s = [s].
Proof.
  intros Hs Hne. unfold path_parts. rewrite split_on_no_sep by done.
  by rewrite filter_cons_True.
Qed.

Lemma path_parts_trim_left path : path_parts (trim_left slash path) = path_parts path.
Proof.
  induction path as [|a path IH]; [done|]. cbn [trim_left].
  destruct (Ascii.eqb_spec a slash) as [->|Hne]; [|done].
  by rewrite IH, path_parts_slash.
Qed.

Lemma split_on_trim_right path :
  exists k, split_on slash path = split_on slash (trim_right slash path) ++ replicate k EmptyString.
Proof.
  induction path as [|a path [k IH]]; [by exists O|].
  cbn [split_on trim_right]. rewrite IH.
  destruct (trim_right slash path) as [|b r] eqn:E.
  - destruct (Ascii.eqb_spec a slash) as [->|Hne].
    + exists (S k). done.
    + exists k. cbn [split_on]. apply Ascii.eqb_neq in Hne. by rewrite Hne.
  - exists k. generalize (String b r). intros u. cbn [split_on].
    destruct (Ascii.eqb a slash); [done|].
    destruct (split_on slash u) eqn:Eu; [by destruct (split_on_ne slash u)|done].
Qed.

Lemma path_parts_trim path : path_parts (trim slash path) = path_parts path.
Proof.
  unfold trim. rewrite <- (path_parts_trim_left path).
  generalize (trim_left slash path) as q. intros q. unfold path_parts.
  destruct (split_on_trim_right q) as [k ->]. rewrite filter_app.
  assert (Hk : filter (fun p => p <> EmptyString) (replicate k EmptyString) = []).
  { induction k as [|k IH]; [done|]. simpl. rewrite filter_cons_False; [done|naive_solver]. }
  by rewrite Hk, app_nil_r.
Qed.

Lemma trim_right_head a s : a <> slash -> exists r, trim_right slash (String a s) = String a r.
Proof.
  intros Hne. cbn [trim_right]. apply Ascii.eqb_neq in Hne.
  destruct (trim_right slash s); rewrite ?Hne; eauto.
Qed.

Lemma trim_head s :
  trim slash s = EmptyString \/ exists a r, trim slash s = String a r /\ a <> slash.
Proof.
  unfold trim. induction s as [|a s IH]; [by left|]. cbn [trim_left].
  destruct (Ascii.eqb_spec a slash) as [->|Hne]; [done|].
  right. destruct (trim_right_head a s Hne) as [r ->]. eauto.
Qed.

(** A path has no parts exactly when trimming leaves nothing of it. *)
Lemma trim_empty s : trim slash s = EmptyString <-> path_parts s = [].
Proof.
  rewrite <- path_parts_trim.
  destruct (trim_head s) as [->|(a & r & -> & Hne)]; [done|].
  split; [done|]. unfold path_parts. cbn [split_on]. apply Ascii.eqb_neq in Hne.
  rewrite Hne. destruct (split_on slash r) as [|p ps];
    rewrite filter_cons_True by done; done.
Qed.

Lemma append_sep_inj c s s' t t' :
  contains_byte c s = false -> contains_byte c s' = false ->
  s +:+ String c t = s' +:+ String c t' -> s = s' /\ t = t'.
Proof.
  intros Hs Hs' Heq. apply (f_equal (split_on c)) in Heq.
  rewrite !split_on_app_sep in Heq by done. injection Heq as -> Ht.
  split; [done|]. rewrite <- (join_split_on c t), <- (join_split_on c t'). by rewrite Ht.
Qed.

Lemma path_parts_join ss :
  Forall (fun v => v <> EmptyString /\ contains_byte slash v = false) ss ->
  path_parts (String slash (join (String slash EmptyString) ss)) = ss.
Proof.
  intros Hss. rewrite path_parts_slash.
  induction Hss as [|v [|v' ss] [Hne Hv] Hss IH]; [done|by apply path_parts_single|].
  rewrite join_cons by done. change (String slash EmptyString +:+ ?t) with (String slash t).
  by rewrite path_parts_cons, IH.
Qed.

Lemma hex_digit_not_slash n : (n < 16)%nat -> Ascii.eqb (hex_digit n) slash = false.
Proof. intros Hn. do 16 (destruct n as [|n]; [reflexivity|]). lia. Qed.

(** An escaped value is a part of a path: its slashes are escaped. *)
Lemma PathEscape_no_slash s : contains_byte slash (PathEscape s) = false.
Proof.
  induction s as [|c s IH]; [done|]. cbn [PathEscape].
  destruct (path_safe c) eqn:E; cbn [contains_byte].
  - rewrite IH, orb_false_r. apply Ascii.eqb_neq. intros ->. discriminate E.
  - assert (Hv : (nat_of_ascii c < 256)%nat) by apply nat_ascii_bounded.
    rewrite IH, !hex_digit_not_slash
      by (try apply Nat.Div0.div_lt_upper_bound; try apply Nat.mod_upper_bound; lia).
    done.
Qed.

Lemma PathEscape_nonempty s : s <> EmptyString -> PathEscape s <> EmptyString.
Proof. destruct s as [|c s]; [done|]. intros _. cbn [PathEscape]. by destruct (path_safe c). Qed.

(** ** Decimal printing: strconv.Itoa of a number that is not negative *)

(** Decimal notation of a number below [10 ^ fuel]. *)
Fixpoint itoa_onto (fuel : nat) (n : Z) (acc : string) : string :=
  match fuel with
  | O => acc
  | S fuel' =>
      let acc := String (ascii_of_nat (48 + Z.to_nat (n mod 10))) acc in
      if n <? 10 then acc else itoa_onto fuel' (n / 10) acc
  end.

(** A number has no more decimal than binary digits. *)
Definition itoa (n : Z) : string := itoa_onto (S (Z.to_nat (Z.log2 n))) n "".

Fixpoint all_bytes (p : ascii -> bool) (s : string) : bool :=
  match s with EmptyString => true | String a s' => p a && all_bytes p s' end.

Definition is_digit (a : ascii) : bool := (48 <=? byte_val a) && (byte_val a <=? 57).
Lemma all_bytes_app p s t : all_bytes p (s +:+ t) = all_bytes p s && all_bytes p t.
Proof. induction s as [|a s IH]; [done|]. simpl. rewrite IH. by rewrite andb_assoc. Qed.

Lemma all_bytes_impl (p q : ascii -> bool) s :
  (forall a, p a = true -> q a = true) -> all_bytes p s = true -> all_bytes q s = true.
Proof.
  intros Hpq. induction s as [|a s IH]; simpl; [done|]. intros [Ha Hs]%andb_true_iff.
  by rewrite (Hpq a Ha), IH.
Qed.

Lemma digit_byte d : 0 <= d < 10 -> byte_val (ascii_of_nat (48 + Z.to_nat d)) = 48 + d.
Proof.
  intros Hd. unfold byte_val. rewrite nat_ascii_embedding by lia. lia.
Qed.

Lemma itoa_onto_digits fuel n acc :
  0 <= n -> all_bytes is_digit acc = true -> all_bytes is_digit (itoa_onto fuel n acc) = true.
Proof.
  revert n acc. induction fuel as [|fuel IH]; intros n acc Hn Ha; [done|]. cbn [itoa_onto].
  pose proof (Z.mod_pos_bound n 10 ltac:(lia)) as Hm.
  assert (Hd : all_bytes is_digit (String (ascii_of_nat (48 + Z.to_nat (n mod 10))) acc) = true).
  { cbn [all_bytes]. rewrite Ha, andb_true_r. unfold is_digit. rewrite digit_byte by done.
    rewrite andb_true_iff, !Z.leb_le. lia. }
  case_match; [done|]. apply IH; [by apply Z.div_pos|done].
Qed.

Lemma itoa_onto_ne fuel n acc : (0 < fuel)%nat -> exists a s, itoa_onto fuel n acc = String a s.
Proof.
  revert n acc. induction fuel as [|fuel IH]; intros n acc Hf; [lia|]. cbn [itoa_onto].
  case_match; [by eauto|]. destruct fuel; [by eauto|]. apply IH. lia.
Qed.

Lemma digits_val_itoa fuel n acc :
  0 <= n < 10 ^ Z.of_nat fuel -> (0 < fuel)%nat ->
  digits_val 0 (itoa_onto fuel n acc) = digits_val n acc.
Proof.
  revert n acc. induction fuel as [|fuel IH]; intros n acc Hn Hf; [lia|]. cbn [itoa_onto].
  pose proof (Z.mod_pos_bound n 10 ltac:(lia)) as Hm.
  assert (Hstep : forall a, digits_val a (String (ascii_of_nat (48 + Z.to_nat (n mod 10))) acc)
                            = digits_val (10 * a + n mod 10) acc).
  { intros a. cbn [digits_val]. unfold digit_val. rewrite digit_byte by done.
    rewrite (proj2 (Z.leb_le 48 (48 + n mod 10))), (proj2 (Z.leb_le (48 + n mod 10) 57)) by lia.
    cbn [andb]. f_equal. lia. }
  destruct (Z.ltb_spec n 10).
  - rewrite Hstep. f_equal. rewrite Z.mod_small by lia. lia.
  - rewrite Nat2Z.inj_succ, Z.pow_succ_r in Hn by lia.
    assert (n / 10 < 10 ^ Z.of_nat fuel) by (apply Z.div_lt_upper_bound; lia).
    assert (1 <= n / 10) by (apply Z.div_le_lower_bound; lia).
    rewrite IH; [|lia|destruct fuel; [change (10 ^ Z.of_nat 0) with 1 in *; lia|lia]].
    rewrite Hstep. f_equal. pose proof (Z.div_mod n 10). lia.
Qed.

Lemma digits_val_itoa_all n : 0 <= n -> digits_val 0 (itoa n) = Some n.
Proof.
  intros Hn. unfold itoa. rewrite digits_val_itoa; [done| |lia].
  rewrite Nat2Z.inj_succ, Z2Nat.id by apply Z.log2_nonneg.
  split; [done|]. apply Z.lt_le_trans with (2 ^ Z.succ (Z.log2 n)).
  - destruct (Z.eq_dec n 0) as [->|]; [done|]. apply Z.log2_spec. lia.
  - apply Z.pow_le_mono_l. lia.
Qed.

Lemma itoa_digits n : 0 <= n -> all_bytes is_digit (itoa n) = true.
Proof. intros Hn. by apply itoa_onto_digits. Qed.

Lemma digits_head_not (a : ascii) : is_digit a = true -> a <> "-"%char /\ a <> "+"%char.
Proof. by intros Ha; split; intros ->. Qed.

Lemma itoa_cons n : exists a s, itoa n = String a s.
Proof. apply itoa_onto_ne. lia. Qed.

Lemma itoa_ne n : itoa n <> "".
Proof. by destruct (itoa_cons n) as (a & s & ->). Qed.

Lemma Atoi_itoa n : 0 <= n < two63 -> Atoi (itoa n) = Some n.
Proof.
  intros Hn. pose proof (digits_val_itoa_all n ltac:(lia)) as Hv.
  pose proof (itoa_digits n ltac:(lia)) as Hd.
  destruct (itoa n) as [|a s] eqn:E; [by apply itoa_ne in E|].
  simpl in Hd. apply andb_true_iff in Hd as [Ha _]. destruct (digits_head_not a Ha) as [H1 H2].
  unfold Atoi.
  replace (match String a s with
           | String "-" s' => (true, s') | String "+" s' => (false, s') | _ => (false, String a s)
           end) with (false, String a s).
  2: { destruct a as [[] [] [] [] [] [] [] []]; done || (exfalso; by first [apply H1|apply H2]). }
  rewrite Hv. rewrite (proj2 (Z.leb_le (- two63) n)), (proj2 (Z.ltb_lt n two63)) by lia. done.
Qed.

(** Digits hold none of the bytes a field is structured by. *)
Lemma digits_free c s :
  is_digit c = false -> all_bytes is_digit s = true -> contains_byte c s = false.
Proof.
  intros Hc. induction s as [|a s IH]; simpl; [done|]. intros [Ha Hs]%andb_true_iff.
  rewrite IH by done. destruct (Ascii.eqb_spec a c); [congruence|done].
Qed.

Lemma itoa_free c n : is_digit c = false -> 0 <= n -> contains_byte c (itoa n) = false.
Proof. intros Hc Hn. apply digits_free; [done|by apply itoa_digits]. Qed.

(** ** Plain text and trimming *)

Definition is_plain (a : ascii) : bool := (33 <=? byte_val a) && (byte_val a <? 128).

Lemma digit_plain a : is_digit a = true -> is_plain a = true.
Proof.
  unfold is_digit, is_plain. rewrite !andb_true_iff, !Z.leb_le, Z.ltb_lt. lia.
Qed.

Lemma contains_join c sep l :
  contains_byte c sep = false -> Forall (fun s => contains_byte c s = false) l ->
  contains_byte c (join sep l) = false.
Proof.
  intros Hsep. induction 1 as [|s l Hs Hl IH]; [done|]. destruct l as [|s' l]; [done|].
  rewrite join_cons by done. by rewrite !contains_byte_app, Hs, Hsep, IH.
Qed.

Lemma space_len_plain a s : is_plain a = true -> space_len (String a s) = O.
Proof.
  unfold is_plain. rewrite andb_true_iff, Z.leb_le, Z.ltb_lt. intros Ha.
  unfold space_len. rewrite (proj2 (Z.leb_gt (byte_val a) 13)), (proj2 (Z.eqb_neq (byte_val a) 32)) by lia.
  rewrite andb_false_r. cbn [orb]. destruct s as [|b s]; [done|].
  rewrite (proj2 (Z.eqb_neq (byte_val a) 0xC2)) by lia. cbn [andb]. destruct s as [|c s]; [done|].
  by rewrite (proj2 (Z.eqb_neq (byte_val a) 0xE1)), (proj2 (Z.eqb_neq (byte_val a) 0xE2)),
    (proj2 (Z.eqb_neq (byte_val a) 0xE3)) by lia.
Qed.

Lemma itoa_plain n : 0 <= n -> all_bytes is_plain (itoa n) = true.
Proof. intros Hn. eapply all_bytes_impl; [apply digit_plain|by apply itoa_digits]. Qed.

Lemma split_on_app c s t : split_on c (s +:+ String c t) = split_on c s ++ split_on c t.
Proof.
  induction s as [|a s IH]; cbn [split_on String.append].
  - by rewrite Ascii.eqb_refl.
  - destruct (Ascii.eqb a c); [by rewrite IH|]. rewrite IH.
    destruct (split_on c s) as [|p ps] eqn:E; [by destruct (split_on_ne c s)|done].
Qed.

Lemma space_len_app s t : (space_len s <> 0)%nat -> space_len (s +:+ t) = space_len s.
Proof.
  destruct s as [|a [|b [|c s]]]; [done| | |done]; cbn [String.append space_len].
  - by destruct (_ || _).
  - destruct (_ || _); [done|]. destruct (_ && _); done.
Qed.

Lemma space_len_le s : (space_len s <= String.length s)%nat.
Proof.
  destruct s as [|a [|b [|c s]]]; cbn [space_len String.length]; repeat case_match; lia.
Qed.

Lemma trim_left_app k x y :
  (k <= String.length x)%nat -> trim_left_space_from k x = "" ->
  trim_left_space_from k (x +:+ y) = trim_left_space_from 0 y.
Proof.
  revert k. induction x as [|a x IH]; intros k Hk H.
  { destruct k; [done|]. cbn in Hk. lia. }
  cbn [String.append]. destruct k as [|k].
  - change (String a (x +:+ y)) with (String a x +:+ y).
    pose proof (space_len_le (String a x)) as Hle. cbn [trim_left_space_from] in H.
    destruct (space_len (String a x)) as [|k] eqn:E; [done|].
    cbn [String.append trim_left_space_from]. change (String a (x +:+ y)) with (String a x +:+ y).
    rewrite space_len_app, E by (by rewrite E). apply IH; [cbn in Hle; lia|done].
  - cbn [trim_left_space_from] in *. apply IH; [cbn in Hk; lia|done].
Qed.

Lemma trim_left_head k s a t : trim_left_space_from k s = String a t -> space_len (String a t) = 0%nat.
Proof.
  revert k. induction s as [|b s IH]; intros k H; [by destruct k|]. destruct k as [|k]; [|by eapply IH].
  cbn [trim_left_space_from] in H. destruct (space_len (String b s)) as [|k] eqn:E; [|by eapply IH].
  by injection H as <- <-.
Qed.

(** A text and what trimming its end leaves of it. *)
Lemma trim_right_split s : exists y, s = trim_right_space s +:+ y /\ trim_left_space_from 0 y = "".
Proof.
  induction s as [|a s IH]; [by exists ""|]. cbn [trim_right_space].
  destruct (trim_left_space_from 0 (String a s)) eqn:E; [by exists (String a s)|].
  destruct IH as (y & Es & Hy). exists y. split; [|done]. cbn [String.append]. by rewrite <- Es.
Qed.

Lemma trim_right_idem s : trim_right_space (trim_right_space s) = trim_right_space s.
Proof.
  induction s as [|a s IH]; [done|]. cbn [trim_right_space].
  destruct (trim_left_space_from 0 (String a s)) eqn:E; [done|].
  cbn [trim_right_space]. rewrite IH.
  destruct (trim_left_space_from 0 (String a (trim_right_space s))) eqn:E'; [|done].
  destruct (trim_right_split s) as (y & Es & Hy).
  assert (H : trim_left_space_from 0 (String a (trim_right_space s) +:+ y) = trim_left_space_from 0 y)
    by (apply trim_left_app; [lia|done]).
  cbn [String.append] in H. rewrite <- Es, E, Hy in H. done.
Qed.

Lemma trim_space_idem s : trim_space (trim_space s) = trim_space s.
Proof.
  unfold trim_space. set (t := trim_left_space_from 0 s).
  enough (E : trim_left_space_from 0 (trim_right_space t) = trim_right_space t) by (rewrite E; apply trim_right_idem).
  destruct (trim_right_space t) as [|a r] eqn:Er; [done|]. cbn [trim_left_space_from].
  destruct (space_len (String a r)) as [|k] eqn:Ek; [done|]. exfalso.
  destruct (trim_right_split t) as (y & Et & _). rewrite Er in Et.
  assert (H0 : space_len (String a (r +:+ y)) = 0%nat) by (eapply (trim_left_head 0 s); exact Et).
  change (String a (r +:+ y)) with (String a r +:+ y) in H0. rewrite space_len_app in H0 by (by rewrite Ek). lia.
Qed.

Lemma trim_left_plain a s : is_plain a = true -> trim_left_space_from 0 (String a s) = String a s.
Proof. intros Ha. cbn [trim_left_space_from]. by rewrite space_len_plain. Qed.

Lemma trim_space_plain s : all_bytes is_plain s = true -> trim_space s = s.
Proof.
  intros H. unfold trim_space.
  assert (E : trim_left_space_from 0 s = s).
  { destruct s as [|a s]; [done|]. apply trim_left_plain. by apply andb_true_iff in H as [Ha _]. }
  rewrite E. clear E. induction s as [|a s IH]; [done|]. cbn [all_bytes] in H. apply andb_true_iff in H as [Ha Hs].
  cbn [trim_right_space]. rewrite trim_left_plain by done. by rewrite IH.
Qed.
