(* ===== verification/Backoff.v ===== *)
(** * Retry delays of the queue worker

    Models queue/backoff.go: the three constructors of [BackoffStrategy].  A
    [time.Duration] is an [int64] count of nanoseconds, so the doubling of
    [ExponentialBackoff] and the product of [LinearBackoff] are written with
    their wrap-around ([wrap64]).  The theorems say when the wrapped code
    computes the closed forms its comments promise, and exhibit caps for which
    it does not. *)

From S2P Require Import Prelude.
Local Open Scope Z_scope.

(** ** The strategies *)

(** The loop [for i := 1; i < attempt; i++] with [n] iterations left, and the
    final clamp after it. *)
Fixpoint exp_loop (n : nat) (delay max : Z) : Z :=
  match n with
  | O => if max <? delay then max else delay
  | S n' =>
      let delay := wrap64 (delay * 2) in
      if max <? delay then max else exp_loop n' delay max
  end.

Definition ExponentialBackoff (base max attempt : Z) : Z :=
  let attempt := if attempt <=? 0 then 1 else attempt in
  exp_loop (Z.to_nat (attempt - 1)) base max.

Definition LinearBackoff (step max attempt : Z) : Z :=
  let attempt := if attempt <=? 0 then 1 else attempt in
  let delay := wrap64 (step * attempt) in
  if max <? delay then max else delay.

Definition FixedBackoff (delay attempt : Z) : Z := delay.

(** ** The closed forms the comments state *)

Definition exponential_spec (base max attempt : Z) : Z :=
  Z.min (base * 2 ^ (Z.max attempt 1 - 1)) max.

Definition linear_spec (step max attempt : Z) : Z :=
  Z.min (step * Z.max attempt 1) max.

Lemma exp_loop_spec n delay max :
  0 <= delay < 2 ^ 62 -> 0 <= max < 2 ^ 62 ->
  exp_loop n delay max = Z.min (delay * 2 ^ Z.of_nat n) max.
Proof.
  revert delay. induction n as [|n IH]; intros delay Hd Hm; simpl exp_loop.
  - rewrite Z.pow_0_r. destruct (Z.ltb_spec max delay); lia.
  - rewrite wrap64_small by auto with go.
    rewrite Nat2Z.inj_succ, Z.pow_succ_r by lia.
    assert (1 <= 2 ^ Z.of_nat n) by (apply (Z.pow_le_mono_r 2 0); lia).
    destruct (Z.ltb_spec max (delay * 2)).
    + nia.
    + rewrite IH by lia. f_equal. ring.
Qed.

(** for every base and cap below 2^62 ns (146 years) and every attempt
    number, [ExponentialBackoff] returns exactly
    min(base * 2^(attempt-1), max), attempts below 1 counting as the first:
    the wrap-around of the repeated doubling is never observed. *)
Theorem exponential_backoff_closed_form base max attempt :
  0 <= base < 2 ^ 62 -> 0 <= max < 2 ^ 62 ->
  ExponentialBackoff base max attempt = exponential_spec base max attempt.
Proof.
  intros Hb Hm. unfold ExponentialBackoff, exponential_spec.
  replace (if attempt <=? 0 then 1 else attempt) with (Z.max attempt 1)
    by (destruct (Z.leb_spec attempt 0); lia).
  rewrite exp_loop_spec, Z2Nat.id by lia. reflexivity.
Qed.

Lemma exponential_backoff_closed_form_witness :
  ExponentialBackoff SECOND (30 * SECOND) 4 = exponential_spec SECOND (30 * SECOND) 4
  /\ ExponentialBackoff SECOND (30 * SECOND) 4 = 8 * SECOND
  /\ ExponentialBackoff SECOND (30 * SECOND) 4000 = 30 * SECOND.
Proof.
  split; [|split].
  - apply exponential_backoff_closed_form; unfold SECOND; lia.
  - reflexivity.
  - vm_compute. reflexivity.
Defined.

Lemma linear_backoff_closed_form step max attempt :
  in_int64 (step * Z.max attempt 1) ->
  LinearBackoff step max attempt = linear_spec step max attempt.
Proof.
  intros H. unfold LinearBackoff, linear_spec.
  replace (if attempt <=? 0 then 1 else attempt) with (Z.max attempt 1)
    by (destruct (Z.leb_spec attempt 0); lia).
  rewrite wrap64_small by done. destruct (Z.ltb_spec max (step * Z.max attempt 1)); lia.
Qed.

(** A strategy without a real cap does not grow for ever: with a base of one
    second and the largest duration as cap, the 35th attempt's delay is
    negative and the 56th's is 0, where the comment promises the cap. *)
Theorem uncapped_exponential_backoff_wraps :
  ExponentialBackoff SECOND (two63 - 1) 35 < 0
  /\ ExponentialBackoff SECOND (two63 - 1) 56 = 0
  /\ exponential_spec SECOND (two63 - 1) 56 = two63 - 1.
Proof. vm_compute. repeat split. Qed.
