(* ===== verification/RouterTree.v ===== *)
(** * The routing tree

    Models router/segment.go and router/tree.go: parsing of path patterns,
    the tree of segments, registration, matching with backtracking, the set
    of methods a path allows, the table of static routes, and URL building.

    [regexp] is a parameter ([RegexEngine]): every theorem holds for every
    regular-expression engine.  A handler is an element of an arbitrary type
    [Hd].  Go's nil maps read like empty ones, so a nil [handlers] or
    [staticChildren] is the empty map.  The tree is a value: a child reached
    through [getOrCreateChild] and then changed through the returned pointer
    is [alter_child].

    The specification is in terms of key paths: [get] is the route registered
    under a list of keys, [matches] says which key paths cover a request path
    and what they capture, and [better] is the order of preference. *)

From S2P Require Import Prelude GoStrings.
From Stdlib Require Import Ascii String.
Local Open Scope string_scope.
Local Open Scope list_scope.

(** What the router uses of package regexp. *)
Class RegexEngine := {
  Regexp : Type;
  re_compile : string -> option Regexp;
  re_match : Regexp -> string -> bool
}.

(** ** Segments (segment.go) *)

Inductive SegmentType := SegmentStatic | SegmentParam | SegmentRegex | SegmentWildcard.

#[export] Instance SegmentType_eq_dec : EqDecision SegmentType.
Proof. solve_decision. Defined.

Record Segment `{RegexEngine} := mkSegment {
  Type_ : SegmentType;
  Value : string;
  Pattern : option Regexp;
  RawPattern : string
}.
Arguments mkSegment {_} _ _ _ _.

Section segment.
Context `{RE : RegexEngine}.

(** Segment.Match *)
Definition Segment_Match (s : Segment) (value : string) : bool :=
  match Type_ s with
  | SegmentStatic => bool_decide (Value s = value)
  | SegmentParam => true
  | SegmentRegex =>
      match Pattern s with
      | None => false
      | Some re => re_match re value
      end
  | SegmentWildcard => true
  end.

Definition static_segment (v : string) : Segment := mkSegment SegmentStatic v None "".
Definition param_segment (v : string) : Segment := mkSegment SegmentParam v None "".
Definition wildcard_segment (v : string) : Segment := mkSegment SegmentWildcard v None "".

(** parseSegment; the error is the pattern that does not compile. *)
Definition parseSegment (part : string) : result string Segment :=
  if negb (has_prefix "{" part) || negb (has_suffix_byte "}" part) then
    Ok (static_segment part)
  else
    let inner := str_take (String.length part - 2) (str_drop 1 part) in
    match index_byte ":" inner with
    | None => Ok (param_segment inner)
    | Some i =>
        let name := str_take i inner in
        let pattern := str_drop (S i) inner in
        if String.eqb pattern ".*" then Ok (wildcard_segment name)
        else match re_compile ("^" +:+ pattern +:+ "$") with
             | None => Err pattern
             | Some re => Ok (mkSegment SegmentRegex name (Some re) pattern)
             end
    end.

(** The loop of ParseSegments: empty parts are skipped, the first error
    ends it. *)
Fixpoint parse_parts (parts : list string) : result string (list Segment) :=
  match parts with
  | [] => Ok []
  | part :: rest =>
      if String.eqb part "" then parse_parts rest
      else match parseSegment part with
           | Err e => Err e
           | Ok seg => match parse_parts rest with
                       | Err e => Err e
                       | Ok segs => Ok (seg :: segs)
                       end
           end
  end.

Definition ParseSegments (path : string) : result string (list Segment) :=
  let path := trim slash path in
  if String.eqb path "" then Ok []
  else parse_parts (split_on slash path).

(** The loop of BuildPath; the error is the missing parameter's name. *)
Fixpoint build_segments (segs : list Segment) (params : gmap string string)
    : result string string :=
  match segs with
  | [] => Ok ""
  | seg :: rest =>
      let piece :=
        match Type_ seg with
        | SegmentStatic => Ok (Value seg)
        | SegmentParam | SegmentRegex =>
            match params !! Value seg with
            | None => Err (Value seg)
            | Some v => Ok (PathEscape v)
            end
        | SegmentWildcard =>
            match params !! Value seg with
            | None => Err (Value seg)
            | Some v => Ok v
            end
        end in
      match piece with
      | Err e => Err e
      | Ok p => match build_segments rest params with
                | Err e => Err e
                | Ok r => Ok ("/" +:+ p +:+ r)
                end
      end
  end.

Definition BuildPath (segs : list Segment) (params : gmap string string) : result string string :=
  match segs with [] => Ok "/" | _ => build_segments segs params end.

(** isCapture: the segments a request path captures a value for. *)
Definition is_capture (seg : Segment) : bool :=
  match Type_ seg with SegmentStatic => false | _ => true end.

(** buildParams: names and values are paired in order; a later segment of the
    same name overwrites an earlier one, and values run out silently. *)
Fixpoint build_params_from (params : gmap string string) (segs : list Segment)
    (values : list string) : gmap string string :=
  match segs with
  | [] => params
  | seg :: rest =>
      if is_capture seg then
        match values with
        | v :: vs => build_params_from (<[Value seg := v]> params) rest vs
        | [] => build_params_from params rest []
        end
      else build_params_from params rest values
  end.

Definition buildParams (segs : list Segment) (values : list string) : gmap string string :=
  build_params_from ∅ segs values.

End segment.

(** ** The tree (tree.go) *)

Record MatchResult `{RegexEngine} {Hd : Type} := mkMatchResult {
  Handler : Hd;
  Params : option (gmap string string);
  Name : string;
  Path : string;
  segments : list Segment;
  matchedValues : list string;
  treeMatched : bool
}.
Arguments MatchResult {_} Hd.
Arguments mkMatchResult {_ Hd} _ _ _ _ _ _ _.

Local Unset Elimination Schemes.
Inductive Node `{RegexEngine} {Hd : Type} := mkNode {
  segment : Segment;
  staticChildren : list (string * Node);
  regexChildren : list Node;
  paramChild : option Node;
  wildcardChild : option Node;
  handlers : gmap string (MatchResult Hd);
  isLeaf : bool
}.
Local Set Elimination Schemes.
Arguments Node {_} Hd.
Arguments mkNode {_ Hd} _ _ _ _ _ _ _.

Record Tree `{RegexEngine} {Hd : Type} := mkTree {
  root : Node Hd;
  namedRoutes : gmap string (MatchResult Hd)
}.
Arguments Tree {_} Hd.
Arguments mkTree {_ Hd} _ _.

Section tree.
Context `{RE : RegexEngine} {Hd : Type}.
Implicit Types (n c : Node Hd) (r : MatchResult Hd) (t : Tree Hd).
Implicit Types (method part name : string) (parts vals : list string).

Definition new_node (seg : Segment) : Node Hd := mkNode seg [] [] None None ∅ false.

Definition NewTree : Tree Hd := mkTree (new_node (static_segment "")) ∅.

(** ** Registration *)

(** Change the child stored under [k], creating it as [d] when absent. *)
Fixpoint alter_assoc (k : string) (f : Node Hd -> Node Hd) (d : Node Hd)
    (l : list (string * Node Hd)) : list (string * Node Hd) :=
  match l with
  | [] => [(k, f d)]
  | (k', c) :: l' => if String.eqb k k' then (k', f c) :: l' else (k', c) :: alter_assoc k f d l'
  end.

(** Change the first regex child with the raw pattern [raw], appending [d]
    when there is none. *)
Fixpoint alter_regex (raw : string) (f : Node Hd -> Node Hd) (d : Node Hd)
    (l : list (Node Hd)) : list (Node Hd) :=
  match l with
  | [] => [f d]
  | c :: l' => if String.eqb (RawPattern (segment c)) raw then f c :: l'
               else c :: alter_regex raw f d l'
  end.

(** [getOrCreateChild] followed by the change [f] made through the pointer it
    returns. *)
Definition alter_child (n : Node Hd) (seg : Segment) (f : Node Hd -> Node Hd) : Node Hd :=
  let '(mkNode sg st rx pa wi hs lf) := n in
  match Type_ seg with
  | SegmentStatic =>
      mkNode sg (alter_assoc (Value seg) f (new_node seg) st) rx pa wi hs lf
  | SegmentRegex =>
      mkNode sg st (alter_regex (RawPattern seg) f (new_node seg) rx) pa wi hs lf
  | SegmentParam => mkNode sg st rx (Some (f (default (new_node seg) pa))) wi hs lf
  | SegmentWildcard => mkNode sg st rx pa (Some (f (default (new_node seg) wi))) hs lf
  end.

(** [node.handlers[method] = result; node.isLeaf = true] *)
Definition set_handler (method : string) (r : MatchResult Hd) (n : Node Hd) : Node Hd :=
  let '(mkNode sg st rx pa wi hs lf) := n in
  mkNode sg st rx pa wi (<[method := r]> hs) true.

Fixpoint insert_at (segs : list Segment) (f : Node Hd -> Node Hd) (n : Node Hd) : Node Hd :=
  match segs with
  | [] => f n
  | seg :: rest => alter_child n seg (insert_at rest f)
  end.

Inductive InsertOutcome :=
  | Inserted                       (** returned nil *)
  | InvalidPattern (pat : string)  (** returned the parse error *)
  | NamePanic (name : string).     (** panicked: the name is taken *)

Definition registered (handler : Hd) (name path : string) (segs : list Segment) : MatchResult Hd :=
  mkMatchResult handler None name path segs [] false.

(** The handler is stored before the name is checked, so a duplicate name
    panics with the route already in the tree. *)
Definition InsertWithName (t : Tree Hd) (method path : string) (handler : Hd) (name : string)
    : Tree Hd * InsertOutcome :=
  match ParseSegments path with
  | Err e => (t, InvalidPattern e)
  | Ok segs =>
      let r := registered handler name path segs in
      let root' := insert_at segs (set_handler method r) (root t) in
      if String.eqb name "" then (mkTree root' (namedRoutes t), Inserted)
      else match namedRoutes t !! name with
           | Some _ => (mkTree root' (namedRoutes t), NamePanic name)
           | None => (mkTree root' (<[name := r]> (namedRoutes t)), Inserted)
           end
  end.

Definition Insert (t : Tree Hd) (method path : string) (handler : Hd) : Tree Hd * InsertOutcome :=
  InsertWithName t method path handler "".

(** ** Matching *)

Definition unescapeCapture (part : string) : string := default part (PathUnescape part).

Definition buildMatchResult (r : MatchResult Hd) (vals : list string) : MatchResult Hd :=
  mkMatchResult (Handler r) None (Name r) (Path r) (segments r) vals true.

Definition paramMap (r : MatchResult Hd) : gmap string string :=
  buildParams (segments r) (matchedValues r).

(** The scan of appendPathParts: [rest] is [path[i:]]. *)
Fixpoint scan_parts (path : string) (i start : nat) (rest : string) : list string :=
  match rest with
  | EmptyString => if (start <? String.length path)%nat then [str_drop start path] else []
  | String a rest' =>
      if Ascii.eqb a slash then
        (if (start <? i)%nat then [str_take (i - start) (str_drop start path)] else [])
        ++ scan_parts path (S i) (S i) rest'
      else scan_parts path (S i) start rest'
  end.

Definition appendPathParts (parts : list string) (path : string) : list string :=
  parts ++ scan_parts path 0 0 path.

Definition matchLeaf n method vals : option (MatchResult Hd) :=
  match handlers n !! method with
  | Some r => Some (buildMatchResult r vals)
  | None =>
      match wildcardChild n with
      | Some w => match handlers w !! method with
                  | Some r => Some (buildMatchResult r (vals ++ [""]))
                  | None => None
                  end
      | None => None
      end
  end.

Fixpoint assoc (k : string) (l : list (string * Node Hd)) : option (Node Hd) :=
  match l with
  | [] => None
  | (k', c) :: l' => if String.eqb k k' then Some c else assoc k l'
  end.

(** The recursive call of [match] on the remaining parts is an argument of
    the four branches. *)
Definition matchStatic (rec : Node Hd -> list string -> option (MatchResult Hd)) n part vals :=
  match assoc part (staticChildren n) with
  | None => None
  | Some c => rec c vals
  end.

Fixpoint matchRegex (rec : Node Hd -> list string -> option (MatchResult Hd))
    (cs : list (Node Hd)) part vals : option (MatchResult Hd) :=
  match cs with
  | [] => None
  | c :: cs' =>
      if Segment_Match (segment c) part then
        match rec c (vals ++ [unescapeCapture part]) with
        | Some r => Some r
        | None => matchRegex rec cs' part vals
        end
      else matchRegex rec cs' part vals
  end.

Definition matchParam (rec : Node Hd -> list string -> option (MatchResult Hd)) n part vals :=
  match paramChild n with
  | None => None
  | Some c => rec c (vals ++ [unescapeCapture part])
  end.

Definition matchWildcard n parts method vals : option (MatchResult Hd) :=
  match wildcardChild n with
  | None => None
  | Some w =>
      match handlers w !! method with
      | None => None
      | Some r => Some (buildMatchResult r (vals ++ [unescapeCapture (join "/" parts)]))
      end
  end.

Definition or_else {A} (a b : option A) : option A :=
  match a with Some x => Some x | None => b end.

(** Node.match *)
Fixpoint node_match n parts method vals {struct parts} : option (MatchResult Hd) :=
  match parts with
  | [] => matchLeaf n method vals
  | part :: remaining =>
      let rec := fun c vs => node_match c remaining method vs in
      or_else (matchStatic rec n part vals)
        (or_else (matchRegex rec (regexChildren n) part vals)
          (or_else (matchParam rec n part vals)
            (matchWildcard n parts method vals)))
  end.

Definition matchLazy t method path : option (MatchResult Hd) :=
  let path := trim slash path in
  if String.eqb path "" then
    match handlers (root t) !! method with
    | Some r => Some (buildMatchResult r [])
    | None => None
    end
  else node_match (root t) (appendPathParts [] path) method [].

(** Tree.Match: [matchLazy] with the exported Params field filled in. *)
Definition Match t method path : option (MatchResult Hd) :=
  match matchLazy t method path with
  | None => None
  | Some r => Some (mkMatchResult (Handler r) (Some (paramMap r)) (Name r) (Path r)
                      (segments r) (matchedValues r) (treeMatched r))
  end.

(** ** Allowed methods *)

(** The loop over the handler map; the result is sorted afterwards, so the
    order of iteration does not matter. *)
Definition append_missing (methods : list string) (method : string) : list string :=
  if bool_decide (method ∈ methods) then methods else methods ++ [method].

Definition appendHandlerMethods n (methods : list string) : list string :=
  foldl append_missing methods (map_to_list (handlers n)).*1.

Definition wildcardMethods n (methods : list string) : list string :=
  match wildcardChild n with
  | Some w => appendHandlerMethods w methods
  | None => methods
  end.

Fixpoint appendAllowedMethods n parts (methods : list string) {struct parts} : list string :=
  match parts with
  | [] => wildcardMethods n (appendHandlerMethods n methods)
  | part :: remaining =>
      let ms := match assoc part (staticChildren n) with
                | Some c => appendAllowedMethods c remaining methods
                | None => methods
                end in
      let ms := foldl (fun ms c => if Segment_Match (segment c) part
                                   then appendAllowedMethods c remaining ms else ms)
                      ms (regexChildren n) in
      let ms := match paramChild n with
                | Some c => appendAllowedMethods c remaining ms
                | None => ms
                end in
      wildcardMethods n ms
  end.

Definition string_le (a b : string) : Prop := String.leb a b = true.

#[export] Instance string_le_dec : RelDecision string_le.
Proof. intros a b. unfold string_le. apply _. Defined.

Definition AllowedMethods t path : list string :=
  let path := trim slash path in
  let methods :=
    if String.eqb path "" then appendHandlerMethods (root t) []
    else appendAllowedMethods (root t) (appendPathParts [] path) [] in
  merge_sort string_le methods.

(** ** The static route table *)

(** The assignments [compiled[key] = result] collectStaticRoutes makes. *)
Definition handler_entries (n : Node Hd) (path : string) : list (string * MatchResult Hd) :=
  (fun '(m, r) => (m +:+ " " +:+ path, r)) <$> map_to_list (handlers n).

Fixpoint collectStaticRoutes (n : Node Hd) (prefix : string) : list (string * MatchResult Hd) :=
  let '(mkNode _ st _ _ _ _ _) := n in
  (fix go (l : list (string * Node Hd)) : list (string * MatchResult Hd) :=
     match l with
     | [] => []
     | (value, child) :: l' =>
         let path := prefix +:+ value in
         (if isLeaf child then handler_entries child path else [])
         ++ collectStaticRoutes child (path +:+ "/")
         ++ go l'
     end) st.

Definition assign_all (m : gmap string (MatchResult Hd)) (l : list (string * MatchResult Hd)) :=
  foldl (fun m '(k, r) => <[k := r]> m) m l.

Definition CompileStaticRoutes t : gmap string (MatchResult Hd) :=
  let compiled := assign_all ∅ (handler_entries (root t) "/") in
  assign_all compiled (collectStaticRoutes (root t) "/").

End tree.
