(* ===== verification/RouterSpec.v ===== *)
(** * What the routing tree promises

    The specification of RouterTree.v and its refinement.  A registered route
    is known by its key path ([key_of] of each segment); [get] reads the route
    registered for a key path and a method.  [matches ks parts vs] says that
    the key path [ks] covers the request parts and captures [vs]; [better]
    orders key paths by preference.  The theorems: registration is a finite
    map update on key paths; [node_match] returns exactly the most preferred
    registered key path that covers the request; [AllowedMethods] is exactly
    the set of methods [Match] answers; the static table agrees with the
    tree. *)

From S2P Require Import Prelude GoStrings RouterTree.
From Stdlib Require Import Ascii String.
Local Open Scope string_scope.
Local Open Scope list_scope.

Inductive key := KStatic (v : string) | KRegex (raw : string) | KParam | KWild.

#[export] Instance key_eq_dec : EqDecision key.
Proof. solve_decision. Defined.

Section spec.
Context `{RE : RegexEngine} {Hd : Type}.
Implicit Types (n c w : Node Hd) (r reg : MatchResult Hd) (t : Tree Hd).
Implicit Types (method part name : string) (parts vals vs : list string).
Implicit Types (k : key) (ks : list key).

Definition key_of (seg : Segment) : key :=
  match Type_ seg with
  | SegmentStatic => KStatic (Value seg)
  | SegmentRegex => KRegex (RawPattern seg)
  | SegmentParam => KParam
  | SegmentWildcard => KWild
  end.

Fixpoint find_regex (raw : string) (l : list (Node Hd)) : option (Node Hd) :=
  match l with
  | [] => None
  | c :: l' => if String.eqb (RawPattern (segment c)) raw then Some c else find_regex raw l'
  end.

Definition child n k : option (Node Hd) :=
  match k with
  | KStatic v => assoc v (staticChildren n)
  | KRegex raw => find_regex raw (regexChildren n)
  | KParam => paramChild n
  | KWild => wildcardChild n
  end.

Fixpoint descend n ks : option (Node Hd) :=
  match ks with
  | [] => Some n
  | k :: ks' => match child n k with Some c => descend c ks' | None => None end
  end.

Definition get n ks method : option (MatchResult Hd) :=
  match descend n ks with Some c => handlers c !! method | None => None end.

(** ** Registration is an update of the map from key paths to routes *)

Lemma assoc_alter x y f d l :
  assoc y (alter_assoc (Hd:=Hd) x f d l) =
  if decide (x = y) then Some (f (default d (assoc x l))) else assoc y l.
Proof.
  induction l as [|[z c] l IH]; simpl.
  - destruct (String.eqb_spec y x); case_decide; congruence.
  - destruct (String.eqb_spec x z) as [->|Hx]; simpl;
      destruct (String.eqb_spec y z) as [->|Hy]; simpl;
      try rewrite IH; case_decide; congruence.
Qed.

Lemma find_regex_alter raw raw' f d l :
  (forall c, segment (f c) = segment c) -> RawPattern (segment d) = raw ->
  find_regex raw' (alter_regex (Hd:=Hd) raw f d l) =
  if decide (raw = raw') then Some (f (default d (find_regex raw l))) else find_regex raw' l.
Proof.
  intros Hf Hdd. induction l as [|c l IH]; simpl.
  - rewrite Hf, Hdd. destruct (String.eqb_spec raw raw'); case_decide; congruence.
  - destruct (String.eqb_spec (RawPattern (segment c)) raw) as [E|E]; simpl.
    + rewrite Hf, E. destruct (String.eqb_spec raw raw'); case_decide; congruence.
    + rewrite IH. destruct (String.eqb_spec (RawPattern (segment c)) raw');
        case_decide; congruence.
Qed.

Lemma child_alter n seg f k :
  (forall c, segment (f c) = segment c) ->
  child (alter_child n seg f) k =
  if decide (key_of seg = k) then Some (f (default (new_node seg) (child n (key_of seg))))
  else child n k.
Proof.
  intros Hf. destruct n as [sg st rx pa wi hs lf], k; unfold key_of, alter_child;
    destruct (Type_ seg) eqn:E; simpl;
    rewrite ?assoc_alter, ?find_regex_alter by done;
    repeat case_decide; congruence.
Qed.

Lemma handlers_alter n seg f : handlers (alter_child n seg f) = handlers n.
Proof. destruct n; unfold alter_child; by destruct (Type_ seg). Qed.

Lemma segment_alter n seg f : segment (alter_child n seg f) = segment n.
Proof. destruct n; unfold alter_child; by destruct (Type_ seg). Qed.

Lemma segment_insert_at segs f n :
  (forall c, segment (f c) = segment c) -> segment (insert_at segs f n) = segment n.
Proof. intros Hf. destruct segs; [apply Hf|apply segment_alter]. Qed.

Lemma segment_set_handler method r n : segment (set_handler method r n) = segment n.
Proof. by destruct n. Qed.

Lemma child_set_handler method r n k : child (set_handler method r n) k = child n k.
Proof. by destruct n, k. Qed.

Lemma descend_new_node seg ks : ks <> [] -> descend (new_node (Hd:=Hd) seg) ks = None.
Proof. destruct ks as [|[] ks]; done. Qed.

Lemma get_insert_at segs method r n ks method' :
  get (insert_at segs (set_handler method r) n) ks method' =
  if decide (ks = key_of <$> segs /\ method' = method) then Some r
  else get n ks method'.
Proof.
  revert n ks. unfold get. induction segs as [|seg segs IH]; intros n ks.
  - destruct ks as [|k ks]; cbn [insert_at descend].
    + destruct n as [sg st rx pa wi hs lf]; cbn [set_handler handlers].
      rewrite lookup_insert. repeat case_decide; naive_solver.
    + rewrite child_set_handler, decide_False by (simpl; naive_solver). done.
  - destruct ks as [|k ks]; cbn [insert_at descend].
    + rewrite handlers_alter, decide_False by (simpl; naive_solver). done.
    + rewrite child_alter by (intros; apply segment_insert_at, segment_set_handler).
      destruct (decide (key_of seg = k)) as [<-|Hk].
      * rewrite IH, fmap_cons. destruct (decide (ks = key_of <$> segs /\ method' = method)).
        -- rewrite decide_True by naive_solver. done.
        -- rewrite decide_False by naive_solver.
           destruct (child n (key_of seg)) eqn:E; [done|]. cbn [default].
           destruct ks as [|[] ks]; cbn; by rewrite ?lookup_empty.
      * rewrite fmap_cons, decide_False by naive_solver. done.
Qed.

(** ** Well-formed trees *)

(** The regular expression a raw pattern stands for, matched as a whole. *)
Definition regex_ok (raw part : string) : bool :=
  match re_compile ("^" +:+ raw +:+ "$") with
  | Some re => re_match re part
  | None => false
  end.

(** A part of a path: not empty, no slash in it. *)
Definition part_ok (v : string) : Prop := v <> "" /\ contains_byte slash v = false.

(** A regex segment carries the compilation of its own pattern, a static one
    is a part of a path. *)
Definition seg_ok (seg : Segment) : Prop :=
  match Type_ seg with
  | SegmentRegex => Pattern seg = re_compile ("^" +:+ RawPattern seg +:+ "$")
  | SegmentStatic => part_ok (Value seg)
  | _ => True
  end.

Definition regex_child_ok c : Prop :=
  Type_ (segment c) = SegmentRegex /\ seg_ok (segment c).

Definition raws (l : list (Node Hd)) : list string := (fun c => RawPattern (segment c)) <$> l.

Record local_wf n : Prop := {
  wf_raws : NoDup (raws (regexChildren n));
  wf_regex : Forall regex_child_ok (regexChildren n);
  wf_static : NoDup (staticChildren n).*1;
  wf_parts : Forall part_ok (staticChildren n).*1;
  wf_leaf : handlers n <> ∅ -> isLeaf n = true
}.

Definition wf n : Prop := forall ks c, descend n ks = Some c -> local_wf c.

Lemma wf_local n : wf n -> local_wf n.
Proof. intros Hn. by apply (Hn []). Qed.

Lemma wf_child n k c : wf n -> child n k = Some c -> wf c.
Proof. intros Hn Hc ks c' Hdd. apply (Hn (k :: ks)). simpl. by rewrite Hc. Qed.

Lemma wf_intro n : local_wf n -> (forall k c, child n k = Some c -> wf c) -> wf n.
Proof.
  intros Hl Hc [|k ks] c Hdd; simpl in Hdd; [by simplify_eq|].
  destruct (child n k) as [c'|] eqn:E; [|done]. by apply (Hc k c' E ks).
Qed.

Lemma wf_new_node seg : wf (new_node seg).
Proof.
  apply wf_intro; [|intros [] c; done].
  constructor; simpl; try constructor. done.
Qed.

Lemma raws_alter raw f d l :
  (forall c, segment (f c) = segment c) -> RawPattern (segment d) = raw ->
  raws (alter_regex (Hd:=Hd) raw f d l) =
  if bool_decide (raw ∈ raws l) then raws l else raws l ++ [raw].
Proof.
  intros Hf Hd'. induction l as [|c l IH]; simpl.
  - rewrite Hf, Hd'. done.
  - destruct (String.eqb_spec (RawPattern (segment c)) raw) as [E|E]; simpl.
    + rewrite Hf, bool_decide_true by (rewrite E; left). done.
    + rewrite IH. repeat case_bool_decide; try done; exfalso;
        rewrite elem_of_cons in *; naive_solver.
Qed.

Lemma keys_alter_assoc x f d l :
  (alter_assoc (Hd:=Hd) x f d l).*1 = if bool_decide (x ∈ l.*1) then l.*1 else l.*1 ++ [x].
Proof.
  induction l as [|[z c] l IH]; csimpl; [done|].
  destruct (String.eqb_spec x z) as [->|E]; csimpl.
  - rewrite bool_decide_true by left. done.
  - rewrite IH. repeat case_bool_decide; try done; exfalso;
      rewrite elem_of_cons in *; naive_solver.
Qed.

Lemma NoDup_snoc_new {A} `{EqDecision A} (x : A) l :
  NoDup l -> NoDup (if bool_decide (x ∈ l) then l else l ++ [x]).
Proof.
  intros Hl. case_bool_decide; [done|]. apply NoDup_app. split_and!; [done| |].
  - intros y Hy ->%list_elem_of_singleton. done.
  - apply NoDup_singleton.
Qed.

Lemma Forall_alter_regex P raw f d l :
  (forall c, P c -> P (f c)) -> P d -> Forall P l -> Forall P (alter_regex (Hd:=Hd) raw f d l).
Proof.
  intros Hf Hd'. induction 1 as [|c l Hc Hl IH]; simpl; [by repeat constructor; apply Hf|].
  case_match; constructor; auto.
Qed.

Lemma local_wf_alter n seg f :
  (forall c, segment (f c) = segment c) -> seg_ok seg -> local_wf n ->
  local_wf (alter_child n seg f).
Proof.
  intros Hf Hs [Hr Hx Ht Hp Hl]. destruct n as [sg st rx pa wi hs lf]. unfold alter_child.
  unfold seg_ok in Hs.
  destruct (Type_ seg) eqn:E; constructor; simpl in *; try done.
  - rewrite keys_alter_assoc. by apply NoDup_snoc_new.
  - rewrite keys_alter_assoc. case_bool_decide; [done|]. by apply Forall_app; rewrite Forall_singleton.
  - rewrite raws_alter by done. by apply NoDup_snoc_new.
  - apply Forall_alter_regex; [| |done].
    + intros c Hc. unfold regex_child_ok. by rewrite Hf.
    + unfold regex_child_ok, seg_ok. simpl. by rewrite E.
Qed.

Lemma wf_insert_at segs f n :
  (forall c, segment (f c) = segment c) -> (forall c, wf c -> wf (f c)) ->
  Forall seg_ok segs -> wf n -> wf (insert_at segs f n).
Proof.
  intros Hf Hw Hs. revert n. induction Hs as [|seg segs Hseg Hs IH]; intros n Hn; simpl.
  { by apply Hw. }
  assert (Hf' : forall c, segment (insert_at segs f c) = segment c)
    by (intros; by apply segment_insert_at).
  apply wf_intro; [by apply local_wf_alter; [| |apply wf_local]|].
  intros k c. rewrite child_alter by done. case_decide; [|by apply wf_child].
  intros [= <-]. apply IH. destruct (child n (key_of seg)) eqn:E; simpl.
  - by eapply wf_child.
  - apply wf_new_node.
Qed.

Lemma wf_set_handler method r n : wf n -> wf (set_handler method r n).
Proof.
  intros Hn. apply wf_intro.
  - destruct (wf_local n Hn) as [? ? ? ? ?]. destruct n; constructor; simpl in *; done.
  - intros k c. rewrite child_set_handler. by apply wf_child.
Qed.

(** ** Parsed patterns *)

Lemma parseSegment_ok part seg : part_ok part -> parseSegment part = Ok seg -> seg_ok seg.
Proof.
  unfold parseSegment. intros Hpart Hp.
  repeat case_match; simplify_eq; unfold seg_ok; simpl; solve [done | congruence].
Qed.

Lemma parse_parts_ok parts segs :
  Forall (fun p => contains_byte slash p = false) parts ->
  parse_parts parts = Ok segs -> Forall seg_ok segs.
Proof.
  intros Hparts. revert segs.
  induction Hparts as [|p ps Hp Hps IH]; intros segs Hs; simpl in Hs.
  - simplify_eq. constructor.
  - destruct (String.eqb_spec p ""); [eauto|].
    destruct (parseSegment p) eqn:E; [|done]. destruct (parse_parts ps); [|done].
    simplify_eq. constructor; [by eapply parseSegment_ok|auto].
Qed.

Lemma ParseSegments_ok path segs : ParseSegments path = Ok segs -> Forall seg_ok segs.
Proof.
  unfold ParseSegments. case_match; [intros; simplify_eq; constructor|].
  apply parse_parts_ok, split_on_free.
Qed.

(** Trees built by registrations. *)
Inductive reachable : Tree Hd -> Prop :=
  | reach_new : reachable NewTree
  | reach_insert t method path handler name :
      reachable t -> reachable (InsertWithName t method path handler name).1.

Lemma root_InsertWithName t method path handler name :
  root (InsertWithName t method path handler name).1 =
  match ParseSegments path with
  | Ok segs => insert_at segs (set_handler method (registered handler name path segs)) (root t)
  | Err _ => root t
  end.
Proof. unfold InsertWithName. repeat case_match; done. Qed.

Lemma reachable_wf t : reachable t -> wf (root t).
Proof.
  induction 1 as [|t method path handler name Ht IH]; [apply wf_new_node|].
  rewrite root_InsertWithName. destruct (ParseSegments path) as [segs|] eqn:E; [|done].
  apply wf_insert_at; auto using segment_set_handler, wf_set_handler.
  by eapply ParseSegments_ok.
Qed.

(** ** Matching *)

(** The key paths that cover a request path, with the values they capture.  A
    wildcard takes the rest of the path, also when nothing is left. *)
Inductive matches : list key -> list string -> list string -> Prop :=
  | M_end : matches [] [] []
  | M_wild_end : matches [KWild] [] [""]
  | M_static p ks ps vs : matches ks ps vs -> matches (KStatic p :: ks) (p :: ps) vs
  | M_regex raw p ks ps vs :
      regex_ok raw p = true -> matches ks ps vs ->
      matches (KRegex raw :: ks) (p :: ps) (unescapeCapture p :: vs)
  | M_param p ks ps vs :
      matches ks ps vs -> matches (KParam :: ks) (p :: ps) (unescapeCapture p :: vs)
  | M_wild p ps : matches [KWild] (p :: ps) [unescapeCapture (join "/" (p :: ps))].

(** Preference among the children of a node: static, then regexes in the
    order of their first registration, then the parameter, then the
    wildcard. *)
Fixpoint raw_index (raw : string) (l : list (Node Hd)) : nat :=
  match l with
  | [] => 0
  | c :: l' => if String.eqb (RawPattern (segment c)) raw then 0 else S (raw_index raw l')
  end.

Definition rank n k : nat :=
  match k with
  | KStatic _ => 0
  | KRegex raw => 1 + raw_index raw (regexChildren n)
  | KParam => 2 + List.length (regexChildren n)
  | KWild => 3 + List.length (regexChildren n)
  end.

Inductive better : Node Hd -> list key -> list key -> Prop :=
  | better_end n ks : better n [] (KWild :: ks)
  | better_rank n k k' ks ks' : rank n k < rank n k' -> better n (k :: ks) (k' :: ks')
  | better_below n k c ks ks' :
      child n k = Some c -> better c ks ks' -> better n (k :: ks) (k :: ks').

(** [answers n parts method P o]: among the key paths whose head satisfies
    [P], [o] is the most preferred one that covers [parts] and has a route for
    [method], with the route and the values captured. *)
Definition answers n parts method vals (P : list key -> Prop) (o : option (MatchResult Hd)) : Prop :=
  match o with
  | Some r =>
      exists ks vs reg,
        P ks /\ matches ks parts vs /\ get n ks method = Some reg
        /\ r = buildMatchResult reg (vals ++ vs)
        /\ forall ks' vs' reg', P ks' -> matches ks' parts vs' -> get n ks' method = Some reg' ->
             ks' = ks \/ better n ks ks'
  | None => forall ks vs reg, P ks -> matches ks parts vs -> get n ks method = Some reg -> False
  end.

Lemma answers_or n parts method vals (P Q : list key -> Prop) a b :
  (forall ks ks', P ks -> Q ks' -> better n ks ks') ->
  answers n parts method vals P a -> answers n parts method vals Q b ->
  answers n parts method vals (fun ks => P ks \/ Q ks) (or_else a b).
Proof.
  intros HPQ Ha Hb. destruct a as [r|]; simpl in *.
  - destruct Ha as (ks & vs & reg & HP & Hm & Hg & -> & Hbest).
    exists ks, vs, reg. split_and!; eauto. intros ks' vs' reg' [?|?]; eauto.
  - destruct b as [r|]; simpl in *; [|naive_solver].
    destruct Hb as (ks & vs & reg & HQ & Hm & Hg & -> & Hbest).
    exists ks, vs, reg. split_and!; eauto.
    intros ks' vs' reg' [HP|HQ'] Hm' Hg'; [exfalso; by eapply Ha|eauto].
Qed.

(** Heads that lead to no route may be added to the ones tried. *)
Lemma answers_widen n parts method vals (P Q : list key -> Prop) o :
  (forall ks, P ks -> Q ks) ->
  (forall ks vs, matches ks parts vs -> Q ks -> P ks \/ get n ks method = None) ->
  answers n parts method vals P o -> answers n parts method vals Q o.
Proof.
  intros HPQ HQP. destruct o as [r|]; simpl.
  - intros (ks & vs & reg & HP & Hm & Hg & -> & Hbest).
    exists ks, vs, reg. split_and!; eauto.
    intros ks' vs' reg' HQ Hm' Hg'. destruct (HQP ks' vs' Hm' HQ); [eauto|congruence].
  - intros HN ks vs reg HQ Hm Hg. destruct (HQP ks vs Hm HQ); [eauto|congruence].
Qed.

(** Going down one child: [k] is the only head tried, [cap] what the part
    adds to the captured values. *)
Lemma answers_child n c k part rest method vals cap o :
  child n k = Some c ->
  (forall ks vs, matches (k :: ks) (part :: rest) vs <->
                 exists vs', vs = cap ++ vs' /\ matches ks rest vs') ->
  answers c rest method (vals ++ cap) (fun _ => True) o ->
  answers n (part :: rest) method vals (fun ks => exists ks', ks = k :: ks') o.
Proof.
  intros Hc Hm Ho. destruct o as [r|]; simpl in *.
  - destruct Ho as (ks & vs & reg & _ & Hks & Hg & -> & Hbest).
    exists (k :: ks), (cap ++ vs), reg. split_and!.
    + eauto.
    + apply Hm. eauto.
    + unfold get in *. simpl. by rewrite Hc.
    + by rewrite app_assoc.
    + intros ? vs' reg' [ks' ->] (vs'' & -> & Hks')%Hm Hg'.
      unfold get in Hg'. simpl in Hg'. rewrite Hc in Hg'.
      destruct (Hbest ks' vs'' reg' I Hks' Hg') as [->|Hb]; [by left|].
      right. by eapply better_below.
  - intros ? vs reg [ks ->] (vs' & -> & Hks)%Hm Hg.
    unfold get in Hg. simpl in Hg. rewrite Hc in Hg. by eapply Ho.
Qed.

Lemma answers_none n parts method vals (P : list key -> Prop) :
  (forall ks vs, matches ks parts vs -> P ks -> get n ks method = None) ->
  answers n parts method vals P None.
Proof. intros HN ks vs reg HP Hm Hg. rewrite (HN ks vs) in Hg; done. Qed.

Lemma get_no_child n k ks method : child n k = None -> get n (k :: ks) method = None.
Proof. intros Hc. unfold get. simpl. by rewrite Hc. Qed.

Lemma matches_static p ks rest vs :
  matches (KStatic p :: ks) (p :: rest) vs <-> exists vs', vs = [] ++ vs' /\ matches ks rest vs'.
Proof.
  split; [inversion 1; subst; eauto|]. intros (vs' & -> & Hm). by constructor.
Qed.

Lemma matches_regex raw p ks rest vs :
  regex_ok raw p = true ->
  matches (KRegex raw :: ks) (p :: rest) vs <->
  exists vs', vs = [unescapeCapture p] ++ vs' /\ matches ks rest vs'.
Proof.
  intros Hr. split; [inversion 1; subst; eauto|]. intros (vs' & -> & Hm). by constructor.
Qed.

Lemma matches_param p ks rest vs :
  matches (KParam :: ks) (p :: rest) vs <->
  exists vs', vs = [unescapeCapture p] ++ vs' /\ matches ks rest vs'.
Proof.
  split; [inversion 1; subst; eauto|]. intros (vs' & -> & Hm). by constructor.
Qed.

Lemma find_regex_mid pre c cs :
  NoDup (raws (pre ++ c :: cs)) ->
  find_regex (RawPattern (segment c)) (pre ++ c :: cs) = Some c.
Proof.
  induction pre as [|c' pre IH]; csimpl; intros Hnd.
  - by rewrite String.eqb_refl.
  - apply NoDup_cons in Hnd as [Hn Hnd].
    destruct (String.eqb_spec (RawPattern (segment c')) (RawPattern (segment c))) as [E|E];
      [|by apply IH].
    destruct Hn. rewrite E. unfold raws. rewrite fmap_app, fmap_cons. set_solver.
Qed.

Lemma raw_index_le raw l : raw_index raw l <= List.length l.
Proof. induction l; simpl; [done|]. case_match; lia. Qed.

Lemma raw_index_mid pre c cs raw :
  NoDup (raws (pre ++ c :: cs)) -> raw ∈ raws cs ->
  raw_index (RawPattern (segment c)) (pre ++ c :: cs) < raw_index raw (pre ++ c :: cs).
Proof.
  intros Hnd Hin. induction pre as [|c' pre IH]; csimpl in *.
  - apply NoDup_cons in Hnd as [Hn Hnd]. rewrite String.eqb_refl.
    destruct (String.eqb_spec (RawPattern (segment c)) raw); [congruence|lia].
  - apply NoDup_cons in Hnd as [Hn Hnd].
    unfold raws in Hn. rewrite fmap_app, fmap_cons in Hn.
    destruct (String.eqb_spec (RawPattern (segment c')) (RawPattern (segment c))) as [E|E].
    { destruct Hn. rewrite E. set_solver. }
    destruct (String.eqb_spec (RawPattern (segment c')) raw) as [E'|E'].
    { destruct Hn. rewrite E'. unfold raws in Hin. set_solver. }
    specialize (IH Hnd). lia.
Qed.

Lemma Segment_Match_regex c part :
  regex_child_ok c -> Segment_Match (segment c) part = regex_ok (RawPattern (segment c)) part.
Proof.
  intros [Ht Hp]. unfold Segment_Match, regex_ok, seg_ok in *. rewrite Ht in *. by rewrite Hp.
Qed.

Section branches.
Variables (n : Node Hd) (part : string) (rest : list string) (method : string).
Variables (vals : list string) (rec : Node Hd -> list string -> option (MatchResult Hd)).
Hypothesis Hwf : wf n.
Hypothesis Hrec : forall c vs, wf c -> answers c rest method vs (fun _ => True) (rec c vs).

Lemma static_answers :
  answers n (part :: rest) method vals (fun ks => exists v ks', ks = KStatic v :: ks')
    (matchStatic rec n part vals).
Proof.
  unfold matchStatic. destruct (assoc part (staticChildren n)) as [c|] eqn:E.
  - assert (Hc : child n (KStatic part) = Some c) by done.
    eapply answers_widen; [| |eapply (answers_child n c (KStatic part) part rest method vals [])].
    + naive_solver.
    + intros ks vs Hm (v & ks' & ->). inversion Hm; subst. eauto.
    + done.
    + intros. apply matches_static.
    + rewrite app_nil_r. apply Hrec. by eapply wf_child.
  - apply answers_none. intros ks vs Hm (v & ks' & ->).
    inversion Hm; subst. by apply get_no_child.
Qed.

Lemma regex_answers pre cs :
  regexChildren n = pre ++ cs ->
  answers n (part :: rest) method vals
    (fun ks => exists raw ks', ks = KRegex raw :: ks' /\ raw ∈ raws cs)
    (matchRegex rec cs part vals).
Proof.
  destruct (wf_local n Hwf) as [Hnd Hok _ _ _].
  revert pre. induction cs as [|c cs IH]; intros pre Hpre; cbn [matchRegex].
  { apply answers_none. intros ks vs _ (raw & ks' & -> & Hin). by apply elem_of_nil in Hin. }
  assert (Hc : child n (KRegex (RawPattern (segment c))) = Some c).
  { simpl. rewrite Hpre. apply find_regex_mid. by rewrite <- Hpre. }
  assert (Hcok : regex_child_ok c).
  { rewrite Hpre in Hok. apply Forall_app in Hok as [_ [? _]%Forall_cons]. done. }
  rewrite Segment_Match_regex by done.
  assert (Hcs := IH (pre ++ [c])). rewrite <- app_assoc in Hcs. specialize (Hcs Hpre).
  destruct (regex_ok (RawPattern (segment c)) part) eqn:Hr.
  - change (match rec c ?vs with Some r => Some r | None => ?b end) with (or_else (rec c vs) b).
    eapply answers_widen; [| |eapply answers_or; [|eapply answers_child|exact Hcs]].
    + csimpl. setoid_rewrite elem_of_cons. naive_solver.
    + csimpl. setoid_rewrite elem_of_cons. naive_solver.
    + intros ks ks' (ks1 & ->) (raw & ks2 & -> & Hin). apply better_rank. simpl.
      rewrite Hpre in *. apply le_n_S, raw_index_mid; done.
    + exact Hc.
    + intros. by apply matches_regex.
    + by eapply Hrec, wf_child.
  - eapply answers_widen; [| |exact Hcs]; csimpl; setoid_rewrite elem_of_cons; [naive_solver|].
    intros ks vs Hm (raw & ks' & -> & [->|?]); [|naive_solver].
    inversion Hm; subst. congruence.
Qed.

Lemma param_answers :
  answers n (part :: rest) method vals (fun ks => exists ks', ks = KParam :: ks')
    (matchParam rec n part vals).
Proof.
  unfold matchParam. destruct (paramChild n) as [c|] eqn:E.
  - eapply answers_child; [done|intros; apply matches_param|].
    by eapply Hrec, (wf_child n KParam).
  - apply answers_none. intros ks vs Hm (ks' & ->). by apply get_no_child.
Qed.

Lemma wildcard_answers :
  answers n (part :: rest) method vals (fun ks => exists ks', ks = KWild :: ks')
    (matchWildcard n (part :: rest) method vals).
Proof.
  unfold matchWildcard. destruct (wildcardChild n) as [w|] eqn:E.
  - assert (Hg : get n [KWild] method = handlers w !! method) by (unfold get; simpl; by rewrite E).
    destruct (handlers w !! method) as [reg|].
    + exists [KWild], [unescapeCapture (join "/" (part :: rest))], reg.
      split_and!; eauto; [by constructor|].
      intros ks' vs' reg' (ks & ->) Hm. inversion Hm; subst. by left.
    + apply answers_none. intros ks vs Hm (ks' & ->). by inversion Hm; subst.
  - apply answers_none. intros ks vs Hm (ks' & ->). by apply get_no_child.
Qed.

End branches.

Lemma leaf_answers n method vals :
  answers n [] method vals (fun _ => True) (matchLeaf n method vals).
Proof.
  unfold matchLeaf. destruct (handlers n !! method) as [reg|] eqn:E.
  - exists [], [], reg. rewrite app_nil_r. split_and!; [done|constructor|done|done|].
    intros ks' vs' reg' _ Hm _. inversion Hm; subst; [by left|right; constructor].
  - destruct (wildcardChild n) as [w|] eqn:Ew; [destruct (handlers w !! method) as [reg|] eqn:Eh|].
    + assert (Hg : get n [KWild] method = Some reg) by (unfold get; simpl; by rewrite Ew).
      exists [KWild], [""], reg. split_and!; [done|constructor|done|done|].
      intros ks' vs' reg' _ Hm Hg'. inversion Hm; subst; [|by left].
      unfold get in Hg'. simpl in Hg'. congruence.
    + apply answers_none. intros ks vs Hm _. inversion Hm; subst; [done|].
      unfold get. simpl. by rewrite Ew.
    + apply answers_none. intros ks vs Hm _. inversion Hm; subst; [done|].
      by apply get_no_child.
Qed.

Lemma find_regex_None raw l : raw ∉ raws l -> find_regex raw l = None.
Proof.
  induction l as [|c l IH]; csimpl; [done|]. rewrite not_elem_of_cons. intros [Hc Hl].
  destruct (String.eqb_spec (RawPattern (segment c)) raw); [congruence|auto].
Qed.

Lemma find_regex_Some raw l c :
  find_regex raw l = Some c -> c ∈ l /\ RawPattern (segment c) = raw.
Proof.
  induction l as [|c' l IH]; simpl; [done|].
  destruct (String.eqb_spec (RawPattern (segment c')) raw); intros; simplify_eq.
  - split; [left|done].
  - split; [right|]; naive_solver.
Qed.

(** Every head of a covering key path is of one of the four kinds, and a
    regex that is not a child leads nowhere. *)
Lemma head_cases n part rest ks vs method :
  matches ks (part :: rest) vs ->
  ((exists v ks', ks = KStatic v :: ks')
   \/ (exists raw ks', ks = KRegex raw :: ks' /\ raw ∈ raws (regexChildren n))
   \/ (exists ks', ks = KParam :: ks') \/ (exists ks', ks = KWild :: ks'))
  \/ get n ks method = None.
Proof.
  inversion 1 as [| | |raw ? ? ? ? ? ?| |]; subst; eauto 7.
  destruct (decide (raw ∈ raws (regexChildren n))); [eauto 7|].
  right. apply get_no_child. by apply find_regex_None.
Qed.

Lemma node_match_answers n parts method vals :
  wf n -> answers n parts method vals (fun _ => True) (node_match n parts method vals).
Proof.
  revert n vals. induction parts as [|part rest IH]; intros n vals Hn; [apply leaf_answers|].
  cbn [node_match]. set (rec := fun c vs => node_match c rest method vs).
  assert (Hrec : forall c vs, wf c -> answers c rest method vs (fun _ => True) (rec c vs))
    by (intros; by apply IH).
  eapply answers_widen;
    [| |apply (answers_or _ _ _ _ (fun ks => exists v ks', ks = KStatic v :: ks'));
      [|by apply static_answers
       |apply (answers_or _ _ _ _
                 (fun ks => exists raw ks', ks = KRegex raw :: ks' /\ raw ∈ raws (regexChildren n)));
         [|by apply regex_answers with (pre := [])
          |apply (answers_or _ _ _ _ (fun ks => exists ks', ks = KParam :: ks'));
            [|by apply param_answers|by apply wildcard_answers]]]].
  - done.
  - intros ks vs Hm _. by eapply head_cases.
  - intros ks ks' (v & ks1 & ->) Hq. assert (Hq' : exists k ks2, ks' = k :: ks2 /\ 0 < rank n k).
    { destruct Hq as [(? & ? & -> & _)|[(? & ->)|(? & ->)]]; do 2 eexists; (split; [done|simpl; lia]). }
    destruct Hq' as (k & ks2 & -> & Hr). by apply better_rank.
  - intros ks ks' (raw & ks1 & -> & _) Hq. pose proof (raw_index_le raw (regexChildren n)).
    destruct Hq as [(? & ->)|(? & ->)]; apply better_rank; simpl; lia.
  - intros ks ks' (? & ->) (? & ->). apply better_rank. simpl. lia.
Qed.

(** ** Request paths *)

Lemma scan_parts_spec rest pre cur :
  contains_byte slash cur = false ->
  scan_parts (pre +:+ cur +:+ rest) (String.length pre + String.length cur)
    (String.length pre) rest
  = path_parts (cur +:+ rest).
Proof.
  revert pre cur. induction rest as [|a rest IH]; intros pre cur Hcur; cbn [scan_parts].
  - rewrite append_nil_r, length_append, str_drop_app.
    destruct cur as [|b cur]; cbn [String.length].
    + rewrite Nat.add_0_r, Nat.ltb_irrefl. done.
    + destruct (Nat.ltb_spec (String.length pre) (String.length pre + S (String.length cur)));
        [|lia]. by rewrite path_parts_single.
  - destruct (Ascii.eqb_spec a slash) as [->|Hne].
    + replace (String.length pre + String.length cur - String.length pre)%nat
        with (String.length cur) by lia.
      rewrite str_drop_app, str_take_app.
      assert (IH' := IH (pre +:+ cur +:+ String slash "") "" eq_refl).
      rewrite !length_append, !append_assoc in IH'. cbn [String.length String.append] in IH'.
      replace (String.length pre + (String.length cur + 1) + 0)%nat
        with (S (String.length pre + String.length cur)) in IH' by lia.
      replace (String.length pre + (String.length cur + 1))%nat
        with (S (String.length pre + String.length cur)) in IH' by lia.
      rewrite IH'. destruct cur as [|b cur]; cbn [String.length].
      * rewrite Nat.add_0_r, Nat.ltb_irrefl. symmetry. apply path_parts_slash.
      * destruct (Nat.ltb_spec (String.length pre) (String.length pre + S (String.length cur)));
          [|lia]. by rewrite path_parts_cons.
    + assert (IH' := IH pre (cur +:+ String a "")).
      rewrite !length_append, !append_assoc in IH'. cbn [String.length String.append] in IH'.
      replace (String.length pre + (String.length cur + 1))%nat
        with (S (String.length pre + String.length cur)) in IH' by lia.
      apply IH'. rewrite contains_byte_app, Hcur. simpl.
      apply Ascii.eqb_neq in Hne. by rewrite Hne.
Qed.

(** The index scan yields the non-empty pieces between slashes. *)
Lemma appendPathParts_spec parts path :
  appendPathParts parts path = parts ++ path_parts path.
Proof. unfold appendPathParts. f_equal. by apply (scan_parts_spec path "" ""). Qed.

(** The key paths that cover a request path.  The root path is only covered
    by the root itself: a wildcard at the root does not capture it. *)
Definition covers ks (path : string) vs : Prop :=
  matches ks (path_parts path) vs /\ (path_parts path = [] -> ks = []).

Lemma matchLazy_spec t method path :
  wf (root t) ->
  match matchLazy t method path with
  | Some r =>
      exists ks vs reg, covers ks path vs /\ get (root t) ks method = Some reg
        /\ r = buildMatchResult reg vs
        /\ forall ks' vs' reg', covers ks' path vs' -> get (root t) ks' method = Some reg' ->
             ks' = ks \/ better (root t) ks ks'
  | None => forall ks vs, covers ks path vs -> get (root t) ks method = None
  end.
Proof.
  intros Hwf. unfold matchLazy, covers. destruct (String.eqb_spec (trim slash path) "") as [E|E].
  - apply trim_empty in E. rewrite E.
    destruct (handlers (root t) !! method) as [reg|] eqn:Eh.
    + exists [], [], reg. split_and!; [constructor|done|done|done|].
      intros ks' vs' reg' [_ Hks] _. left. by apply Hks.
    + intros ks vs [_ Hks]. by rewrite Hks.
  - rewrite appendPathParts_spec, path_parts_trim. simpl.
    rewrite trim_empty in E.
    pose proof (node_match_answers (root t) (path_parts path) method [] Hwf) as Ha.
    destruct (node_match _ _ _ _) as [r|]; simpl in Ha.
    + destruct Ha as (ks & vs & reg & _ & Hm & Hg & -> & Hbest).
      exists ks, vs, reg. split_and!; [done|done|done|done|].
      intros ks' vs' reg' [Hm' _] Hg'. by eapply Hbest.
    + intros ks vs [Hm _]. destruct (get _ _ _) eqn:Eg; [|done].
      exfalso. by eapply Ha.
Qed.

(** ** Allowed methods *)

Lemma elem_of_append_missing m methods method :
  m ∈ append_missing methods method <-> m ∈ methods \/ m = method.
Proof. unfold append_missing. case_bool_decide; set_solver. Qed.

Lemma NoDup_append_missing methods method : NoDup methods -> NoDup (append_missing methods method).
Proof. intros. unfold append_missing. by apply NoDup_snoc_new. Qed.

Lemma elem_of_appendHandlerMethods n methods m :
  m ∈ appendHandlerMethods n methods <-> m ∈ methods \/ is_Some (handlers n !! m).
Proof.
  unfold appendHandlerMethods. rewrite <- elem_of_keys.
  generalize (map_to_list (handlers n)).*1 as l. intros l. revert methods.
  induction l as [|x l IH]; intros methods; simpl; [set_solver|].
  rewrite IH, elem_of_append_missing. set_solver.
Qed.

Lemma NoDup_appendHandlerMethods n methods :
  NoDup methods -> NoDup (appendHandlerMethods n methods).
Proof.
  unfold appendHandlerMethods. generalize (map_to_list (handlers n)).*1 as l. intros l.
  revert methods. induction l as [|x l IH]; intros methods Hm; simpl; [done|].
  by apply IH, NoDup_append_missing.
Qed.

Lemma elem_of_wildcardMethods n methods m :
  m ∈ wildcardMethods n methods <->
  m ∈ methods \/ exists w, wildcardChild n = Some w /\ is_Some (handlers w !! m).
Proof.
  unfold wildcardMethods. destruct (wildcardChild n).
  - rewrite elem_of_appendHandlerMethods. naive_solver.
  - naive_solver.
Qed.

Lemma is_Some_or_else {A} (a b : option A) : is_Some (or_else a b) <-> is_Some a \/ is_Some b.
Proof.
  assert (Hnone : ~ is_Some (@None A)) by (by intros []).
  destruct a; simpl; split; naive_solver.
Qed.

Lemma matchRegex_is_Some rec cs part vals :
  is_Some (matchRegex (Hd:=Hd) rec cs part vals) <->
  exists c, c ∈ cs /\ Segment_Match (segment c) part = true
       /\ is_Some (rec c (vals ++ [unescapeCapture part])).
Proof.
  induction cs as [|c cs IH]; simpl.
  - split; [by intros [? ?]|]. intros (c & Hc & _). by apply elem_of_nil in Hc.
  - setoid_rewrite elem_of_cons. destruct (Segment_Match (segment c) part) eqn:E.
    + change (match ?a with Some r => Some r | None => ?b end) with (or_else a b).
      rewrite is_Some_or_else, IH. split.
      * intros [|(c' & ? & ?)]; [exists c|exists c']; auto.
      * intros (c' & [->|?] & ? & ?); [by left|right; eauto].
    + rewrite IH. split.
      * intros (c' & ? & ?). exists c'. auto.
      * intros (c' & [->|?] & ? & ?); [congruence|eauto].
Qed.

Lemma foldl_collect (cs : list (Node Hd)) (p : Node Hd -> bool)
    (g : Node Hd -> list string -> list string) (Q : Node Hd -> Prop) m ms :
  (forall c (ms : list string), m ∈ g c ms <-> m ∈ ms \/ Q c) ->
  m ∈ foldl (fun ms c => if p c then g c ms else ms) ms cs <->
  m ∈ ms \/ exists c, c ∈ cs /\ p c = true /\ Q c.
Proof.
  intros Hg. revert ms. induction cs as [|c cs IH]; intros ms; simpl.
  - split; [by left|]. intros [|(c & Hc & _)]; [done|]. by apply elem_of_nil in Hc.
  - rewrite IH. setoid_rewrite elem_of_cons. destruct (p c) eqn:E; rewrite ?Hg.
    + split; [intros [[]|(c' & ? & ? & ?)]; eauto 7|].
      intros [|(c' & [->|?] & ? & ?)]; eauto 7.
    + split; [intros [|(c' & ? & ? & ?)]; eauto 7|].
      intros [|(c' & [->|?] & ? & ?)]; eauto 7. congruence.
Qed.

Lemma matchLeaf_is_Some n method vals :
  is_Some (matchLeaf n method vals) <->
  is_Some (handlers n !! method)
  \/ exists w, wildcardChild n = Some w /\ is_Some (handlers w !! method).
Proof.
  unfold matchLeaf. destruct (handlers n !! method); [split; eauto|].
  destruct (wildcardChild n) as [w|]; [destruct (handlers w !! method) eqn:E|];
    (split; [intros [? [=]]|intros [[? [=]]|(w' & [=] & [? Hw])]]; subst; eauto; congruence).
Qed.

Lemma matchWildcard_is_Some n parts method vals :
  is_Some (matchWildcard n parts method vals) <->
  exists w, wildcardChild n = Some w /\ is_Some (handlers w !! method).
Proof.
  unfold matchWildcard. destruct (wildcardChild n) as [w|]; [destruct (handlers w !! method) eqn:E|];
    (split; [intros [? [=]]|intros (w' & [=] & [? Hw])]; subst; eauto; congruence).
Qed.

(** The walk that collects methods reaches exactly the endpoints matching can
    reach. *)
Lemma elem_of_appendAllowedMethods n parts methods m vals :
  m ∈ appendAllowedMethods n parts methods <->
  m ∈ methods \/ is_Some (node_match n parts m vals).
Proof.
  revert n methods vals. induction parts as [|part rest IH]; intros n methods vals.
  - simpl. rewrite elem_of_wildcardMethods, elem_of_appendHandlerMethods, matchLeaf_is_Some. tauto.
  - cbn [appendAllowedMethods node_match].
    rewrite !is_Some_or_else, matchWildcard_is_Some, matchRegex_is_Some, elem_of_wildcardMethods.
    unfold matchStatic, matchParam.
    destruct (paramChild n) as [c|]; [rewrite (IH c _ (vals ++ [unescapeCapture part]))|];
      (rewrite (foldl_collect _ _ _
         (fun c => is_Some (node_match c rest m (vals ++ [unescapeCapture part])))) by (intros; apply IH));
      (destruct (assoc part (staticChildren n)) as [c'|]; [rewrite (IH c' _ vals)|]);
      assert (Hnone : ~ is_Some (@None (MatchResult Hd))) by (by intros []); naive_solver.
Qed.

Lemma NoDup_wildcardMethods n methods : NoDup methods -> NoDup (wildcardMethods n methods).
Proof. unfold wildcardMethods. case_match; auto using NoDup_appendHandlerMethods. Qed.

Lemma NoDup_appendAllowedMethods n parts methods :
  NoDup methods -> NoDup (appendAllowedMethods n parts methods).
Proof.
  revert n methods. induction parts as [|part rest IH]; intros n methods Hm; simpl.
  - by apply NoDup_wildcardMethods, NoDup_appendHandlerMethods.
  - apply NoDup_wildcardMethods.
    assert (Hs : NoDup match assoc part (staticChildren n) with
                       | Some c => appendAllowedMethods c rest methods
                       | None => methods end) by (case_match; auto).
    revert Hs. generalize (match assoc part (staticChildren n) with
                           | Some c => appendAllowedMethods c rest methods
                           | None => methods end) as ms. intros ms Hms.
    assert (Hr : NoDup (foldl (fun ms c => if Segment_Match (segment c) part
                               then appendAllowedMethods c rest ms else ms) ms (regexChildren n))).
    { revert ms Hms. induction (regexChildren n) as [|c cs IHc]; intros ms Hms; simpl; [done|].
      apply IHc. case_match; auto. }
    case_match; auto.
Qed.

Lemma allowed_methods_spec t path m :
  m ∈ AllowedMethods t path <-> is_Some (matchLazy t m path).
Proof.
  unfold AllowedMethods, matchLazy. rewrite (merge_sort_Permutation string_le).
  destruct (String.eqb (trim slash path) "").
  - rewrite elem_of_appendHandlerMethods, elem_of_nil.
    destruct (handlers (root t) !! m); split; intros Hx; eauto; naive_solver.
  - rewrite (elem_of_appendAllowedMethods _ _ _ _ []), elem_of_nil. tauto.
Qed.

Lemma Match_is_Some t method path :
  is_Some (Match t method path) <-> is_Some (matchLazy t method path).
Proof. unfold Match. destruct (matchLazy t method path); split; intros [? [=]]; eauto. Qed.

#[local] Instance string_le_total : Total string_le.
Proof. intros a b. unfold string_le. destruct (String.leb_total a b); auto. Qed.

(** ** Theorems *)

(** C21: registering a route is exactly an update of the finite map from
    (key path, method) to routes: after [InsertWithName] the pattern's own key
    path and method give the new route and every other one gives what it gave
    before; a pattern that does not parse changes nothing.  This also holds
    when the call panics on a taken name. *)
Theorem insert_updates_route_map t method path handler name ks method' :
  get (root (InsertWithName t method path handler name).1) ks method' =
  match ParseSegments path with
  | Ok segs => if decide (ks = key_of <$> segs /\ method' = method)
               then Some (registered handler name path segs)
               else get (root t) ks method'
  | Err _ => get (root t) ks method'
  end.
Proof.
  rewrite root_InsertWithName. case_match; [apply get_insert_at|done].
Qed.

(** C1: in every tree built by registrations, [Match] answers with the most
    preferred registered route that covers the request path (static before
    regex in registration order, before parameter, before wildcard, compared
    segment by segment from the left), with the parameters that route
    captures; and it answers nothing only when no registered route of that
    method covers the path.  Backtracking loses no route. *)
Theorem match_finds_best t method path :
  reachable t ->
  match Match t method path with
  | Some r =>
      exists ks vs reg,
        covers ks path vs /\ get (root t) ks method = Some reg
        /\ Handler r = Handler reg /\ Name r = Name reg /\ Path r = Path reg
        /\ Params r = Some (buildParams (segments reg) vs)
        /\ forall ks' vs' reg', covers ks' path vs' -> get (root t) ks' method = Some reg' ->
             ks' = ks \/ better (root t) ks ks'
  | None => forall ks vs, covers ks path vs -> get (root t) ks method = None
  end.
Proof.
  intros Ht. pose proof (matchLazy_spec t method path (reachable_wf t Ht)) as Hs.
  unfold Match. destruct (matchLazy t method path) as [r|]; [|done].
  destruct Hs as (ks & vs & reg & Hc & Hg & -> & Hbest).
  exists ks, vs, reg. done.
Qed.

(** [AllowedMethods] lists, sorted and without repetition, exactly the
    methods for which [Match] finds a route for the path. *)
Theorem allowed_methods_exact t path :
  (forall method, method ∈ AllowedMethods t path <-> is_Some (Match t method path))
  /\ NoDup (AllowedMethods t path) /\ Sorted string_le (AllowedMethods t path).
Proof.
  split_and!.
  - intros m. rewrite Match_is_Some. apply allowed_methods_spec.
  - unfold AllowedMethods. rewrite (merge_sort_Permutation string_le).
    case_match; [apply NoDup_appendHandlerMethods|apply NoDup_appendAllowedMethods]; constructor.
  - apply (Sorted_merge_sort string_le).
Qed.

End spec.

(** ** A concrete routing table *)

(** An engine that knows one constraint, [0-9]+. *)
Fixpoint all_digits (s : string) : bool :=
  match s with
  | EmptyString => true
  | String c s' => match digit_val c with Some _ => all_digits s' | None => false end
  end.

#[export] Instance digits_engine : RegexEngine := {
  Regexp := unit;
  re_compile s := if String.eqb s "^[0-9]+$" then Some tt else None;
  re_match _ s := negb (String.eqb s "") && all_digits s
}.

Definition sample_tree : Tree nat :=
  let t := NewTree in
  let t := (InsertWithName t "GET" "/" 0 "home").1 in
  let t := (InsertWithName t "GET" "/users/new" 1 "").1 in
  let t := (InsertWithName t "GET" "/users/{id:[0-9]+}" 2 "user").1 in
  let t := (InsertWithName t "GET" "/users/{name}" 3 "").1 in
  let t := (InsertWithName t "POST" "/users/{id}" 4 "").1 in
  let t := (InsertWithName t "GET" "/users/{name}/posts/{post}" 5 "post").1 in
  let t := (InsertWithName t "GET" "/files/{path:.*}" 6 "files").1 in
  (InsertWithName t "DELETE" "/bad/{x:[}" 7 "").1.

Lemma sample_reachable : reachable sample_tree.
Proof. unfold sample_tree. repeat constructor. Qed.

Lemma match_finds_best_witness :
  match Match sample_tree "GET" "/users/42" with
  | Some r =>
      exists ks vs reg,
        covers ks "/users/42" vs /\ get (root sample_tree) ks "GET" = Some reg
        /\ Handler r = Handler reg /\ Name r = Name reg /\ Path r = Path reg
        /\ Params r = Some (buildParams (segments reg) vs)
        /\ forall ks' vs' reg', covers ks' "/users/42" vs' ->
             get (root sample_tree) ks' "GET" = Some reg' ->
             ks' = ks \/ better (root sample_tree) ks ks'
  | None => forall ks vs, covers ks "/users/42" vs -> get (root sample_tree) ks "GET" = None
  end
  /\ Handler <$> Match sample_tree "GET" "/users/42" = Some 2
  /\ Handler <$> Match sample_tree "GET" "/users//new/" = Some 1
  /\ Handler <$> Match sample_tree "GET" "/users/7/posts/9" = Some 5
  /\ Handler <$> Match sample_tree "GET" "/files" = Some 6
  /\ Handler <$> Match sample_tree "PUT" "/users/42" = None.
Proof.
  split; [exact (match_finds_best sample_tree "GET" "/users/42" sample_reachable)|].
  vm_compute. repeat split.
Defined.

(** GET /users/new and POST /users/{id} both answer /users/new. *)
Example sample_allowed :
  AllowedMethods sample_tree "/users/new" = ["GET"; "POST"]
  /\ AllowedMethods sample_tree "/nowhere" = []
  /\ snd (InsertWithName (Hd:=nat) NewTree "GET" "/bad/{x:[}" 7 "") = InvalidPattern "[".
Proof. vm_compute. repeat split. Qed.
