(* ===== verification/RouterDispatch.v ===== *)
(** * Dispatching a request

    Models the part of router/velocity_router.go that decides which route a
    request gets: the table of static routes built when the router commits
    ([CompileStaticRoutes] of RouterTree.v), [matchRoute] with its fast path,
    and the error of a request no route matches.  The path
    is [URL.EscapedPath()], a parameter of each operation. *)

From Stdlib Require Import Ascii String.
From S2P Require Import Prelude GoStrings RouterTree RouterSpec.
Local Open Scope string_scope.
Local Open Scope list_scope.

(** What a request reads of VelocityRouterV2 to be routed: the tree and the
    compiled table (an atomic pointer, nil until commit). *)
Record Routing `{RegexEngine} {Hd : Type} := mkRouting {
  tree : Tree Hd;
  compiledRoutes : option (gmap string (MatchResult Hd))
}.
Arguments Routing {_} Hd.
Arguments mkRouting {_ Hd} _ _.

(** The error of an unmatched request: the status and the Allow header. *)
Inductive HTTPError := NotFound | MethodNotAllowed (allow : string).

Section dispatch.
Context `{RE : RegexEngine} {Hd : Type}.
Implicit Types (n c : Node Hd) (r : MatchResult Hd) (t : Tree Hd) (rt : Routing Hd).
Implicit Types (method path : string).

Definition matchRoute rt method path : option (MatchResult Hd) :=
  let fast :=
    match compiledRoutes rt with
    | Some compiled =>
        or_else (compiled !! (method +:+ " " +:+ path)) (compiled !! ("ANY " +:+ path))
    | None => None
    end in
  or_else fast
    (or_else (matchLazy (tree rt) method path) (matchLazy (tree rt) "ANY" path)).

(** A router whose static table is compiled. *)
Definition compile t : Routing Hd := mkRouting t (Some (CompileStaticRoutes t)).

Definition unmatchedHTTPError (allowed : list string) : HTTPError :=
  match allowed with
  | [] => NotFound
  | _ => MethodNotAllowed (join ", " allowed)
  end.

Definition unmatchedError rt method path : HTTPError :=
  let allowed := AllowedMethods (tree rt) path in
  let allowed := if bool_decide (method ∈ allowed) || bool_decide ("ANY" ∈ allowed)
                 then [] else allowed in
  unmatchedHTTPError allowed.

(** ** The static table *)

Lemma Node_static_ind (P : Node Hd -> Prop) :
  (forall n, Forall (fun vc => P vc.2) (staticChildren n) -> P n) -> forall n, P n.
Proof.
  intros IH. fix rec 1. intros [sg st rx pa wi hs lf]. apply IH. simpl.
  induction st as [|[v c] st IHst]; constructor; [apply rec|exact IHst].
Qed.

Definition static_entries (prefix : string) (vc : string * Node Hd) : list (string * MatchResult Hd) :=
  (if isLeaf vc.2 then handler_entries vc.2 (prefix +:+ vc.1) else [])
  ++ collectStaticRoutes vc.2 (prefix +:+ vc.1 +:+ "/").

Lemma collect_unfold n prefix :
  collectStaticRoutes n prefix = staticChildren n ≫= static_entries prefix.
Proof.
  destruct n as [sg st rx pa wi hs lf]. simpl. induction st as [|[v c] st IH]; [done|].
  simpl. rewrite IH. unfold static_entries at 2. simpl. by rewrite <- app_assoc, append_assoc.
Qed.

Lemma assoc_elem_of v l c :
  NoDup l.*1 -> assoc (Hd:=Hd) v l = Some c <-> (v, c) ∈ l.
Proof.
  induction l as [|[v' c'] l IH]; csimpl; intros Hnd.
  - split; [done|]. intros Hx. by apply elem_of_nil in Hx.
  - apply NoDup_cons in Hnd as [Hn Hnd]. rewrite elem_of_cons.
    destruct (String.eqb_spec v v') as [->|Hne].
    + split; [intros [= ->]; by left|]. intros [[= ->]|Hin]; [done|].
      destruct Hn. by apply (list_elem_of_fmap_2 fst) in Hin.
    + rewrite IH by done. split; [by right|]. intros [[= -> ->]|?]; done.
Qed.

Lemma elem_of_handler_entries n path k r :
  (k, r) ∈ handler_entries n path <->
  exists m, handlers n !! m = Some r /\ k = m +:+ " " +:+ path.
Proof.
  unfold handler_entries. rewrite list_elem_of_fmap. split.
  - intros ([m r'] & [= -> ->] & Hin%elem_of_map_to_list). eauto.
  - intros (m & Hm & ->). exists (m, r). split; [done|]. by apply elem_of_map_to_list.
Qed.

Lemma leaf_handlers n m r : local_wf n -> handlers n !! m = Some r -> isLeaf n = true.
Proof. intros Hn Hm. apply (wf_leaf n Hn). intros He. by rewrite He, lookup_empty in Hm. Qed.

(** The table holds the routes under all-static key paths of at least one
    part, under the key built from the method and the path. *)
Lemma elem_of_collect n prefix k r :
  wf n ->
  (k, r) ∈ collectStaticRoutes n prefix <->
  exists ss m, ss <> [] /\ Forall part_ok ss /\ get n (KStatic <$> ss) m = Some r
          /\ k = m +:+ " " +:+ prefix +:+ join "/" ss.
Proof.
  revert prefix. induction n as [n IH] using Node_static_ind. intros prefix Hwf.
  destruct (wf_local n Hwf) as [_ _ Hnd Hparts _].
  rewrite collect_unfold, list_elem_of_bind. split.
  - intros ([v c] & Hk & Hvc). apply list_elem_of_In in Hvc as Hin.
    assert (Hc : child n (KStatic v) = Some c) by (simpl; by apply assoc_elem_of).
    assert (Hcw : wf c) by by eapply wf_child.
    assert (Hv : part_ok v).
    { rewrite Forall_forall in Hparts. apply Hparts. by apply (list_elem_of_fmap_2 fst) in Hvc. }
    unfold static_entries in Hk. simpl in Hk. apply elem_of_app in Hk as [Hk|Hk].
    + destruct (isLeaf c); [|by apply elem_of_nil in Hk].
      apply elem_of_handler_entries in Hk as (m & Hm & ->).
      exists [v], m. split_and!; [done|by constructor| |done].
      unfold get. simpl. simpl in Hc. by rewrite Hc.
    + rewrite Forall_forall in IH. apply (IH (v, c) Hvc) in Hk; [|done].
      destruct Hk as (ss & m & Hne & Hss & Hg & ->).
      exists (v :: ss), m. split_and!; [done|by constructor| |].
      * unfold get in *. simpl. simpl in Hc. by rewrite Hc.
      * rewrite join_cons by done. by rewrite !append_assoc.
  - intros (ss & m & Hne & Hss & Hg & ->). destruct ss as [|v ss]; [done|].
    unfold get in Hg. cbn in Hg. destruct (assoc v (staticChildren n)) as [c|] eqn:Hc; [|done].
    assert (Hvc : (v, c) ∈ staticChildren n) by by apply assoc_elem_of.
    assert (Hcw : wf c) by by eapply (wf_child n (KStatic v)).
    exists (v, c). split; [|done]. unfold static_entries. simpl. apply elem_of_app.
    destruct ss as [|v' ss].
    + left. rewrite (leaf_handlers c m r) by (done || by apply wf_local).
      apply elem_of_handler_entries. by exists m.
    + right. rewrite Forall_forall in IH. apply (IH (v, c) Hvc); [done|].
      apply Forall_cons in Hss as [_ Hss].
      exists (v' :: ss), m. split_and!; [done|done|done|].
      rewrite (join_cons _ v) by done. by rewrite !append_assoc.
Qed.

Lemma lookup_assign_all (m : gmap string (MatchResult Hd)) l k r :
  (forall r1 r2, (k, r1) ∈ l -> (k, r2) ∈ l -> r1 = r2) ->
  assign_all m l !! k = Some r <-> (k, r) ∈ l \/ (m !! k = Some r /\ k ∉ l.*1).
Proof.
  revert m. induction l as [|[k' r'] l IH]; intros m Hf; csimpl.
  - split; [right; split; [done|apply not_elem_of_nil]|].
    intros [Hx|[? _]]; [by apply elem_of_nil in Hx|done].
  - unfold assign_all in *. simpl. rewrite IH by (intros; eapply Hf; by right).
    rewrite elem_of_cons, not_elem_of_cons, lookup_insert.
    destruct (decide (k' = k)) as [->|Hne].
    + split; [intros [?|[[= ->] _]]; eauto|]. intros [[[= <-]|?]|[_ [? _]]]; [|by left|done].
      destruct (decide (k ∈ l.*1)) as [Hin|]; [|by right].
      apply list_elem_of_fmap in Hin as ([k1 r1] & [= ->] & Hin). left.
      rewrite (Hf r r1); [done|by left|by right].
    + split; [intros [?|[? ?]]; eauto|]. intros [[[= ->]|?]|[? [? ?]]]; [done|by left|by right].
Qed.

Lemma part_ok_join ss :
  Forall part_ok ss -> path_parts ("/" +:+ join "/" ss) = ss.
Proof. apply path_parts_join. Qed.

(** The methods registered in a tree are HTTP tokens: no space in them. *)
Definition methods_ok t : Prop :=
  forall ks m r, get (root t) ks m = Some r -> contains_byte " " m = false.

Lemma methods_ok_new : methods_ok NewTree.
Proof. intros [|[] ks] m r; cbn; by rewrite ?lookup_empty. Qed.

Lemma methods_ok_insert t method path handler name :
  contains_byte " " method = false -> methods_ok t ->
  methods_ok (InsertWithName t method path handler name).1.
Proof.
  intros Hm Ht ks m r. rewrite root_InsertWithName. case_match; [|apply Ht].
  rewrite get_insert_at. case_decide; [naive_solver|apply Ht].
Qed.

Lemma compiled_entries t :
  CompileStaticRoutes t
  = assign_all ∅ (handler_entries (root t) "/" ++ collectStaticRoutes (root t) "/").
Proof. unfold CompileStaticRoutes, assign_all. by rewrite foldl_app. Qed.

Lemma elem_of_compiled_entries t k r :
  wf (root t) ->
  (k, r) ∈ handler_entries (root t) "/" ++ collectStaticRoutes (root t) "/" <->
  exists ss m, Forall part_ok ss /\ get (root t) (KStatic <$> ss) m = Some r
          /\ k = m +:+ " " +:+ "/" +:+ join "/" ss.
Proof.
  intros Hwf. rewrite elem_of_app, elem_of_handler_entries, elem_of_collect by done. split.
  - intros [(m & Hm & ->)|(ss & m & _ & Hss & Hg & ->)]; [exists [], m|exists ss, m]; done.
  - intros ([|v ss] & m & Hss & Hg & ->); [left; exists m; done|right].
    exists (v :: ss), m. done.
Qed.

Lemma compiled_spec t m path r :
  wf (root t) -> methods_ok t -> contains_byte " " m = false ->
  CompileStaticRoutes t !! (m +:+ " " +:+ path) = Some r <->
  exists ss, Forall part_ok ss /\ path = "/" +:+ join "/" ss
        /\ get (root t) (KStatic <$> ss) m = Some r.
Proof.
  intros Hwf Hok Hm.
  assert (Hkey : forall ss m' r', get (root t) (KStatic <$> ss) m' = Some r' ->
    m +:+ " " +:+ path = m' +:+ " " +:+ "/" +:+ join "/" ss -> m = m' /\ path = "/" +:+ join "/" ss).
  { intros ss m' r' Hg. apply append_sep_inj; [done|by eapply Hok]. }
  rewrite compiled_entries, lookup_assign_all, elem_of_compiled_entries by
    (done || (intros r1 r2; rewrite !elem_of_compiled_entries by done;
      intros (ss1 & m1 & Hs1 & Hg1 & Hk1) (ss2 & m2 & Hs2 & Hg2 & Hk2);
      destruct (Hkey _ _ _ Hg1 Hk1) as [<- Hp1], (Hkey _ _ _ Hg2 Hk2) as [<- Hp2];
      rewrite Hp1 in Hp2; apply (f_equal path_parts) in Hp2;
      rewrite !part_ok_join in Hp2 by done; congruence)).
  split.
  - intros [(ss & m' & Hss & Hg & Hk)|[Hk _]]; [|by rewrite lookup_empty in Hk].
    destruct (Hkey _ _ _ Hg Hk) as [-> ->]. eauto.
  - intros (ss & Hss & -> & Hg). left. eauto.
Qed.

(** No key path that covers the parts of an all-static one is preferred to
    it. *)
Lemma static_best n ks ss vs : matches ks ss vs -> ~ better n ks (KStatic <$> ss).
Proof.
  intros Hm. revert n. induction Hm; intros n Hb; csimpl in *; inversion Hb; subst;
    simpl in *; try lia; by eapply IHHm.
Qed.

Lemma static_matches ss : matches (KStatic <$> ss) ss [].
Proof. induction ss; csimpl; by constructor. Qed.

Lemma static_match t ss m r :
  wf (root t) -> Forall part_ok ss -> get (root t) (KStatic <$> ss) m = Some r ->
  matchLazy t m ("/" +:+ join "/" ss) = Some (buildMatchResult r []).
Proof.
  intros Hwf Hss Hg. pose proof (matchLazy_spec t m ("/" +:+ join "/" ss) Hwf) as Hspec.
  assert (Hcov : covers (KStatic <$> ss) ("/" +:+ join "/" ss) []).
  { unfold covers. rewrite part_ok_join by done. split; [apply static_matches|by intros ->]. }
  destruct (matchLazy t m _) as [r'|]; [|by rewrite (Hspec _ _ Hcov) in Hg].
  destruct Hspec as (ks & vs & reg & [Hm _] & Hg' & -> & Hbest).
  rewrite part_ok_join in Hm by done.
  destruct (Hbest _ _ _ Hcov Hg) as [<-|Hb]; [|by eapply static_best in Hb].
  assert (vs = []) as ->.
  { clear -Hm. revert vs Hm. induction ss; csimpl; intros vs Hm; inversion Hm; subst; auto. }
  congruence.
Qed.

(** ** URL building *)

(** A value can be put where a segment captures it back: not empty, and for a
    regex segment its escaped form satisfies the constraint. *)
Definition value_fits (seg : Segment) (v : string) : Prop :=
  v <> "" /\ match Type_ seg with
            | SegmentRegex => regex_ok (RawPattern seg) (PathEscape v) = true
            | _ => True
            end.

(** The values of the capturing segments, in order. *)
Definition captured (segs : list Segment) (params : gmap string string) : list string :=
  omap (fun seg => if is_capture seg then params !! Value seg else None) segs.

Definition fits (params : gmap string string) (seg : Segment) : Prop :=
  Type_ seg <> SegmentWildcard /\
  (is_capture seg = true -> exists v, params !! Value seg = Some v /\ value_fits seg v).

Lemma unescape_escape v : unescapeCapture (PathEscape v) = v.
Proof. unfold unescapeCapture. by rewrite PathUnescape_PathEscape. Qed.

Lemma build_segments_covers segs params :
  Forall seg_ok segs -> Forall (fits params) segs ->
  exists ps, build_segments segs params = Ok (match ps with [] => "" | _ => "/" +:+ join "/" ps end)
        /\ Forall part_ok ps /\ length ps = length segs
        /\ matches (key_of <$> segs) ps (captured segs params).
Proof.
  induction segs as [|seg segs IH]; intros Hok Hfit.
  { exists []. split_and!; [done|constructor|done|constructor]. }
  apply Forall_cons in Hok as [Hs Hok], Hfit as [[Hw Hv] Hfit].
  destruct (IH Hok Hfit) as (ps & Hb & Hps & Hlen & Hm).
  assert (Hstep : forall p vs, part_ok p ->
    (match Type_ seg with
     | SegmentStatic => Ok (Value seg)
     | SegmentParam | SegmentRegex =>
         match params !! Value seg with None => Err (Value seg) | Some v => Ok (PathEscape v) end
     | SegmentWildcard =>
         match params !! Value seg with None => Err (Value seg) | Some v => Ok v end
     end) = Ok p ->
    matches (key_of seg :: (key_of <$> segs)) (p :: ps) vs ->
    vs = captured (seg :: segs) params ->
    exists ps', build_segments (seg :: segs) params
           = Ok (match ps' with [] => "" | _ => "/" +:+ join "/" ps' end)
          /\ Forall part_ok ps' /\ length ps' = length (seg :: segs)
          /\ matches (key_of <$> seg :: segs) ps' (captured (seg :: segs) params)).
  { intros p vs Hp Hpiece Hpm ->. exists (p :: ps). cbn [build_segments]. rewrite Hpiece, Hb.
    split_and!; [|by constructor|simpl; lia|done].
    f_equal. f_equal. destruct ps; [by rewrite append_nil_r|by rewrite (join_cons _ p)]. }
  unfold captured in *. csimpl in *. unfold key_of, seg_ok, is_capture in *.
  destruct (Type_ seg) eqn:E; [| | |done].
  - apply (Hstep (Value seg) (captured segs params)); [done|done|by constructor|done].
  - destruct Hv as (v & Hp & Hne & _); [done|]. rewrite Hp in *.
    apply (Hstep (PathEscape v) (v :: captured segs params)); [|done| |done].
    + split; [by apply PathEscape_nonempty|apply PathEscape_no_slash].
    + rewrite <- (unescape_escape v) at 2. by constructor.
  - destruct Hv as (v & Hp & Hne & Hr); [done|]. rewrite Hp in *. rewrite E in Hr.
    apply (Hstep (PathEscape v) (v :: captured segs params)); [|done| |done].
    + split; [by apply PathEscape_nonempty|apply PathEscape_no_slash].
    + rewrite <- (unescape_escape v) at 2. by constructor.
Qed.

Lemma build_params_lookup segs params acc x :
  Forall (fits params) segs ->
  build_params_from acc segs (captured segs params) !! x =
  if decide (Exists (fun seg => is_capture seg = true /\ Value seg = x) segs)
  then params !! x else acc !! x.
Proof.
  revert acc. induction segs as [|seg segs IH]; intros acc Hfit.
  { rewrite decide_False by (by intros Hx%Exists_nil). done. }
  apply Forall_cons in Hfit as [[_ Hv] Hfit]. unfold captured. csimpl.
  destruct (is_capture seg) eqn:E.
  - destruct Hv as (v & Hp & _); [done|]. rewrite Hp, IH, lookup_insert by done.
    destruct (decide (Value seg = x)) as [<-|Hne].
    + rewrite (decide_True (P := Exists _ (seg :: segs))) by (by left).
      case_decide; congruence.
    + destruct (decide (Exists _ segs)) as [Hex|Hex].
      * by rewrite decide_True by (by right).
      * rewrite decide_False; [done|]. intros [[_ ?]|?]%Exists_cons; done.
  - rewrite IH by done. destruct (decide (Exists _ segs)) as [Hex|Hex].
    + by rewrite decide_True by (by right).
    + rewrite decide_False; [done|]. intros [[? _]|?]%Exists_cons; [congruence|done].
Qed.

(** ** Theorems *)

(** the table compiled at commit holds, under "METHOD /path", exactly the
    routes registered with only static segments, and for each of them the
    backtracking search of the tree returns the same route with nothing
    captured: the fast path for the request's own method is an optimisation
    only. *)
Theorem static_table_exact t method path r :
  reachable t -> methods_ok t -> contains_byte " " method = false ->
  (CompileStaticRoutes t !! (method +:+ " " +:+ path) = Some r <->
   exists ss, Forall part_ok ss /\ path = "/" +:+ join "/" ss
         /\ get (root t) (KStatic <$> ss) method = Some r)
  /\ (CompileStaticRoutes t !! (method +:+ " " +:+ path) = Some r ->
      matchLazy t method path = Some (buildMatchResult r [])).
Proof.
  intros Ht Hok Hm. pose proof (reachable_wf t Ht) as Hwf.
  pose proof (compiled_spec t method path r Hwf Hok Hm) as Hspec.
  split; [done|]. intros (ss & Hss & -> & Hg)%Hspec. by apply static_match.
Qed.

(** The guard that turns a 405 into a 404 never fires for a request that
    reached the refusal as it was matched. *)
Lemma unmatched_guard rt method path :
  matchRoute rt method path = None ->
  unmatchedError rt method path = unmatchedHTTPError (AllowedMethods (tree rt) path).
Proof.
  intros Hnone. unfold matchRoute in Hnone.
  assert (Hm : matchLazy (tree rt) method path = None /\ matchLazy (tree rt) "ANY" path = None).
  { destruct (match compiledRoutes rt with Some _ => _ | None => _ end); [done|]. simpl in Hnone.
    destruct (matchLazy (tree rt) method path); [done|]. done. }
  destruct Hm as [Hm Ha].
  assert (Hnot : forall m, matchLazy (tree rt) m path = None -> m ∉ AllowedMethods (tree rt) path).
  { intros m Hx [r Hr]%allowed_methods_spec. congruence. }
  unfold unmatchedError. by rewrite !bool_decide_false by auto.
Qed.

(** C23: a request no route matches is refused either with 404, and then no
    method at all has a route that matches the path, or with 405 and an Allow
    header that lists, in order and without repetition, exactly the methods
    that have one; that list is not empty and the request's method is not in
    it. *)
Theorem unmatched_404_or_405 rt method path :
  matchRoute rt method path = None ->
  (unmatchedError rt method path = NotFound /\ forall m, Match (tree rt) m path = None)
  \/ (exists allowed,
        unmatchedError rt method path = MethodNotAllowed (join ", " allowed)
        /\ allowed <> [] /\ method ∉ allowed
        /\ (forall m, m ∈ allowed <-> is_Some (Match (tree rt) m path))
        /\ NoDup allowed /\ Sorted string_le allowed).
Proof.
  intros Hnone. rewrite (unmatched_guard rt method path Hnone).
  destruct (allowed_methods_exact (tree rt) path) as (Hex & Hnd & Hsort).
  assert (Hm : method ∉ AllowedMethods (tree rt) path).
  { intros [r Hr]%allowed_methods_spec. unfold matchRoute in Hnone.
    destruct (match compiledRoutes rt with Some _ => _ | None => _ end); [done|]. by rewrite Hr in Hnone. }
  destruct (AllowedMethods (tree rt) path) as [|m ms] eqn:E.
  - left. split; [done|]. intros m. apply eq_None_not_Some. rewrite <- Hex. apply not_elem_of_nil.
  - right. exists (m :: ms). by split_and!.
Qed.

(** Two results name the same registered route. *)
Definition same_route (a b : option (MatchResult Hd)) : Prop :=
  (fun r => (Handler r, Name r, Path r)) <$> a = (fun r => (Handler r, Name r, Path r)) <$> b.

(** the answer of a committed router names the same route as the search
    of the tree alone, whenever no static route for every method ("ANY") is
    registered on the path or the request's own method has no route there. *)
Theorem fast_path_agrees rt method path :
  reachable (tree rt) -> methods_ok (tree rt) -> contains_byte " " method = false ->
  matchLazy (tree rt) method path = None
    \/ CompileStaticRoutes (tree rt) !! ("ANY" +:+ " " +:+ path) = None ->
  same_route (matchRoute (compile (tree rt)) method path)
             (matchRoute (mkRouting (tree rt) None) method path).
Proof.
  intros Ht Hok Hm Hcase. pose proof (reachable_wf _ Ht) as Hwf. unfold same_route, matchRoute.
  cbn [compile compiledRoutes tree].
  destruct (CompileStaticRoutes (tree rt) !! (method +:+ " " +:+ path)) as [r|] eqn:E.
  - apply compiled_spec in E as (ss & Hss & -> & Hg); [|done..].
    by rewrite (static_match _ _ _ _ Hwf Hss Hg).
  - cbn [or_else]. destruct Hcase as [Hnone|Hany].
    2: { change ("ANY " +:+ path) with ("ANY" +:+ " " +:+ path). by rewrite Hany. }
    rewrite Hnone. cbn [or_else].
    destruct (CompileStaticRoutes (tree rt) !! ("ANY " +:+ path)) as [r|] eqn:Ea; [|done].
    change ("ANY " +:+ path) with ("ANY" +:+ " " +:+ path) in Ea.
    apply compiled_spec in Ea as (ss & Hss & -> & Hg); [|done..].
    by rewrite (static_match _ _ _ _ Hwf Hss Hg).
Qed.

(** A route of a tree was parsed from its pattern. *)
Lemma registered_segments t ks method reg :
  reachable t -> get (root t) ks method = Some reg ->
  Forall seg_ok (segments reg) /\ key_of <$> segments reg = ks.
Proof.
  intros Ht. revert ks method reg. induction Ht as [|t m path h name Ht IH]; intros ks method reg.
  - unfold get. destruct ks as [|[] ks]; done.
  - rewrite root_InsertWithName. destruct (ParseSegments path) as [segs|] eqn:Ep; [|apply IH].
    rewrite get_insert_at. case_decide as Hk; [|apply IH]. intros [= <-]. destruct Hk as [-> ->].
    split; [by eapply ParseSegments_ok|done].
Qed.

(** C22: a URL built from a registered route dispatches back: for a route other
    than the root that has no wildcard, and a non-empty value for each of its
    parameters whose escaped form satisfies the parameter's expression where it
    has one ([fits]), [BuildPath] succeeds, and in any tree built by
    registrations that holds the route [Match] on its result returns that route with every parameter at its original
    value, whatever bytes the values hold, unless a route preferred to it also
    covers the URL.  The empty value and the wildcard are outside:
    [built_empty_value_misses], [built_wildcard_differs]. *)
Theorem build_path_round_trip t method ks params reg :
  reachable t -> get (root t) ks method = Some reg ->
  segments reg <> [] -> Forall (fits params) (segments reg) ->
  exists url r,
    BuildPath (segments reg) params = Ok url /\ Match t method url = Some r
    /\ ((Handler r = Handler reg
         /\ exists ps, Params r = Some ps
              /\ forall seg, seg ∈ segments reg -> is_capture seg = true ->
                    ps !! Value seg = params !! Value seg)
        \/ exists ks' vs, covers ks' url vs /\ is_Some (get (root t) ks' method) /\ better (root t) ks' ks).
Proof.
  intros Ht Hg Hne Hfit. destruct (registered_segments t ks method reg Ht Hg) as [Hok <-].
  remember (segments reg) as segs eqn:Hseg. symmetry in Hseg.
  destruct (build_segments_covers segs params Hok Hfit) as (ps & Hb & Hps & Hlen & Hm).
  destruct ps as [|p ps]; [by destruct segs|].
  set (url := "/" +:+ join "/" (p :: ps)) in *.
  assert (Hcov : covers (key_of <$> segs) url (captured segs params)).
  { unfold covers. subst url. by rewrite part_ok_join. }
  pose proof (matchLazy_spec t method url (reachable_wf t Ht)) as Hspec.
  destruct (matchLazy t method url) as [r|] eqn:E; [|by rewrite (Hspec _ _ Hcov) in Hg].
  destruct Hspec as (ks & vs & reg' & Hcov' & Hg' & -> & Hbest).
  exists url. eexists. split_and!.
  { by destruct segs. }
  { unfold Match. by rewrite E. }
  destruct (Hbest _ _ _ Hcov Hg) as [<-|Hbet]; [left|right; by eauto 6].
  assert (reg' = reg) as -> by congruence. split; [done|]. eexists. split; [done|].
  intros seg Hin Hcap. simpl. unfold paramMap. simpl. rewrite Hseg.
  assert (vs = captured segs params) as ->.
  { destruct Hcov as [H1 _], Hcov' as [H2 _].
    clear -H1 H2. revert vs H2.
    induction H1; intros vs' H2; inversion H2; subst; f_equal; auto. }
  unfold buildParams. rewrite build_params_lookup by done.
  rewrite decide_True; [done|]. apply Exists_exists. eauto.
Qed.

End dispatch.

(** ** Witnesses on the sample table *)

Lemma sample_methods_ok : methods_ok sample_tree.
Proof.
  unfold sample_tree. repeat (apply methods_ok_insert; [reflexivity|]). apply methods_ok_new.
Qed.

Lemma static_table_exact_witness :
  matchLazy sample_tree "GET" "/users/new"
    = Some (buildMatchResult (registered 1 "" "/users/new"
              [static_segment "users"; static_segment "new"]) [])
  /\ CompileStaticRoutes sample_tree !! ("GET" +:+ " " +:+ "/users/42") = None.
Proof.
  split; [|vm_compute; reflexivity].
  apply (static_table_exact sample_tree "GET" "/users/new");
    [exact sample_reachable|exact sample_methods_ok|reflexivity|vm_compute; reflexivity].
Defined.

Definition sample_router : Routing nat := compile sample_tree.

Lemma unmatched_404_or_405_witness :
  unmatchedError sample_router "PUT" "/users/new" = MethodNotAllowed "GET, POST"
  /\ exists allowed, unmatchedError sample_router "PUT" "/users/new" = MethodNotAllowed (join ", " allowed)
       /\ forall m, m ∈ allowed <-> is_Some (Match (tree sample_router) m "/users/new").
Proof.
  split; [vm_compute; reflexivity|].
  destruct (unmatched_404_or_405 sample_router "PUT" "/users/new") as [[H _]|(allowed & H1 & _ & _ & H2 & _)];
    [vm_compute; reflexivity|vm_compute in H; discriminate|exists allowed; split; [exact H1|exact H2]].
Defined.

Lemma fast_path_agrees_witness :
  same_route
    (matchRoute (compile sample_tree) "GET" "/users/new")
    (matchRoute (mkRouting sample_tree None) "GET" "/users/new").
Proof.
  apply (fast_path_agrees (mkRouting sample_tree None) "GET" "/users/new");
    [exact sample_reachable|exact sample_methods_ok|reflexivity|].
  right. vm_compute. reflexivity.
Defined.

Definition post_segments : list Segment :=
  [static_segment "users"; param_segment "name"; static_segment "posts"; param_segment "post"].
Definition post_params : gmap string string := {["name" := "a/b c"; "post" := "100%"]}.
Definition post_route : MatchResult nat :=
  registered 5 "post" "/users/{name}/posts/{post}" post_segments.

Lemma build_path_round_trip_witness :
  (exists url r,
    BuildPath (segments post_route) post_params = Ok url /\ Match sample_tree "GET" url = Some r
    /\ ((Handler r = Handler post_route
         /\ exists ps, Params r = Some ps
              /\ forall seg, seg ∈ segments post_route -> is_capture seg = true ->
                    ps !! Value seg = post_params !! Value seg)
        \/ exists ks' vs, covers ks' url vs /\ is_Some (get (root sample_tree) ks' "GET")
                     /\ better (root sample_tree) ks' (key_of <$> post_segments)))
  /\ BuildPath post_segments post_params = Ok "/users/a%2Fb%20c/posts/100%25".
Proof.
  split; [|vm_compute; reflexivity].
  apply (build_path_round_trip sample_tree "GET" (key_of <$> post_segments) post_params post_route).
  - exact sample_reachable.
  - vm_compute. reflexivity.
  - discriminate.
  - repeat constructor; try discriminate; intros _.
    + exists "a/b c". repeat split; discriminate.
    + exists "100%". repeat split; discriminate.
Defined.

(** An empty value builds a URL of fewer segments, which the route does not
    cover; a wildcard's value is neither escaped nor kept as it is. *)
Lemma built_empty_value_misses :
  BuildPath [static_segment "users"; param_segment "name"] {["name" := ""]} = Ok "/users/"
  /\ Match sample_tree "GET" "/users/" = None.
Proof. by vm_compute. Qed.

Lemma built_wildcard_differs :
  BuildPath [static_segment "files"; mkSegment SegmentWildcard "path" None ""] {["path" := "a//b"]} = Ok "/files/a//b"
  /\ (r ← Match sample_tree "GET" "/files/a//b"; ps ← Params r; ps !! "path") = Some "a/b".
Proof. by vm_compute. Qed.

(** A route registered for every method on a static path hides, once the
    table is compiled, the parameter route the request's own method has there:
    the search of the tree gives route 1, the committed router route 2, and a
    trailing slash brings route 1 back. *)
Definition any_tree : Tree nat :=
  let t := (InsertWithName NewTree "GET" "/users/{id}" 1 "").1 in
  (InsertWithName t "ANY" "/users/new" 2 "").1.

(** The fast path is not only an optimisation: for a router with
    GET /users/{id} and a static route for every method on /users/new, a GET of
    /users/new is answered by the parameter route until the table is compiled
    and by the static one afterwards, while /users/new/ is still answered by
    the parameter route. *)
Theorem any_static_route_shadows :
  Handler <$> matchRoute (mkRouting any_tree None) "GET" "/users/new" = Some 1
  /\ Handler <$> matchRoute (compile any_tree) "GET" "/users/new" = Some 2
  /\ Handler <$> matchRoute (compile any_tree) "GET" "/users/new/" = Some 1.
Proof. vm_compute. repeat split. Qed.
