(* ===== verification/RouterGroup.v ===== *)
(** * Route groups and middleware chains

    Models pipeline/pipeline.go and router/group.go: the onion of stages a
    pipeline builds, the middleware chain of a route, and the walk that
    registers the routes of a tree of groups.

    A handler is a function [Ctx -> R]: [R] is whatever running it yields, so
    effects are part of [R].  A group's [parent] pointer is the list of its
    ancestors, nearest first, handed down by the walk. *)

From Stdlib Require Import Ascii String.
From S2P Require Import Prelude GoStrings RouterTree RouterSpec.
Local Open Scope string_scope.
Local Open Scope list_scope.

(** ** pipeline *)

Section pipeline.
Context {T R : Type}.

(** pipeline.Stage: [Handle(passable, next)]. *)
Definition Stage : Type := T -> (T -> R) -> R.

Record Pipeline := mkPipeline { passable : option T; pipes : list Stage }.

Definition New : Pipeline := mkPipeline None [].
Definition Send (p : Pipeline) (x : T) : Pipeline := mkPipeline (Some x) (pipes p).
Definition Through (p : Pipeline) (stages : list Stage) : Pipeline := mkPipeline (passable p) stages.
Definition Add (p : Pipeline) (stages : list Stage) : Pipeline :=
  mkPipeline (passable p) (pipes p ++ stages).

(** The loop of Build runs from the last stage to the first: [rest] are the
    stages not wrapped yet, last one first. *)
Fixpoint build_loop (rest : list Stage) (h : T -> R) : T -> R :=
  match rest with
  | [] => h
  | current :: rest' => build_loop rest' (fun x => current x h)
  end.

Definition Build (p : Pipeline) (destination : T -> R) : T -> R :=
  build_loop (reverse (pipes p)) destination.

(** Then and ThenReturn; [zero] is Go's zero passable when Send was not
    called, [nil_error] the result of the no-op destination. *)
Definition Then (p : Pipeline) (zero : T) (destination : T -> R) : R :=
  Build p destination (default zero (passable p)).

Definition ThenReturn (p : Pipeline) (zero : T) (nil_error : R) : R :=
  Then p zero (fun _ => nil_error).

Lemma build_loop_app l1 l2 h : build_loop (l1 ++ l2) h = build_loop l2 (build_loop l1 h).
Proof. revert h. induction l1; intros h; simpl; auto. Qed.

(** The first stage is the outermost one: it receives the passable first and
    decides whether the rest runs at all. *)
Lemma Build_cons s l x d po :
  Build (mkPipeline po (s :: l)) d x = s x (Build (mkPipeline po l) d).
Proof. unfold Build. simpl. by rewrite reverse_cons, build_loop_app. Qed.

End pipeline.
Arguments Stage : clear implicits.
Arguments Pipeline : clear implicits.

(** ** Groups *)

Section groups.
Context `{RE : RegexEngine} {Ctx R : Type}.

Definition HandlerFunc : Type := Ctx -> R.
Definition MiddlewareFunc : Type := HandlerFunc -> HandlerFunc.

Record RouteDefinition := mkRoute {
  r_Method : string;
  r_Path : string;
  r_Handler : HandlerFunc;
  r_Middlewares : list MiddlewareFunc;
  r_Name : string
}.

Local Unset Elimination Schemes.
Inductive GroupDefinition := mkGroup {
  g_prefix : string;
  g_middlewares : list MiddlewareFunc;
  g_routes : list RouteDefinition;
  g_children : list GroupDefinition
}.
Local Set Elimination Schemes.

Definition NewGroupDefinition (prefix : string) : GroupDefinition := mkGroup prefix [] [] [].

Definition AddRoute (g : GroupDefinition) (method path : string) (handler : HandlerFunc)
    : GroupDefinition :=
  let '(mkGroup p ms rs cs) := g in
  mkGroup p ms (rs ++ [mkRoute method path handler [] ""]) cs.

Definition AddChild (g : GroupDefinition) (prefix : string) : GroupDefinition :=
  let '(mkGroup p ms rs cs) := g in mkGroup p ms rs (cs ++ [NewGroupDefinition prefix]).

Definition Use (g : GroupDefinition) (middlewares : list MiddlewareFunc) : GroupDefinition :=
  let '(mkGroup p ms rs cs) := g in mkGroup p (ms ++ middlewares) rs cs.

(** Each middleware becomes a stage that wraps the next handler. *)
Definition middleware_stage (mw : MiddlewareFunc) : Stage Ctx R :=
  fun c next => mw (fun ctx => next ctx) c.

Definition applyMiddlewareChain (handler : HandlerFunc) (middlewares : list MiddlewareFunc)
    : HandlerFunc :=
  match middlewares with
  | [] => handler
  | _ => Build (Through New (middleware_stage <$> middlewares)) (fun ctx => handler ctx)
  end.

(** FullPrefix and collectInheritedMiddlewares over the ancestors, nearest
    first. *)
Fixpoint FullPrefix (ancestors : list GroupDefinition) (prefix : string) : string :=
  match ancestors with
  | [] => prefix
  | parent :: rest =>
      let parentPrefix := FullPrefix rest (g_prefix parent) in
      if String.eqb parentPrefix "" then prefix
      else if String.eqb prefix "" then parentPrefix
      else parentPrefix +:+ prefix
  end.

Fixpoint collectInheritedMiddlewares (ancestors : list GroupDefinition) : list MiddlewareFunc :=
  match ancestors with
  | [] => []
  | parent :: rest => collectInheritedMiddlewares rest ++ g_middlewares parent
  end.

(** One insertion: the tree after it and, when the walk must stop, why. *)
Definition commit_route (tree : Tree HandlerFunc) (method path : string) (h : HandlerFunc)
    (name : string) : Tree HandlerFunc * option InsertOutcome :=
  let '(tree', o) := InsertWithName tree method path h name in
  (tree', match o with Inserted => None | stop => Some stop end).

(** The loop over a group's own routes. *)
Fixpoint commit_routes (tree : Tree HandlerFunc) (fullPrefix : string)
    (mws : list MiddlewareFunc) (routes : list RouteDefinition)
    : Tree HandlerFunc * option InsertOutcome :=
  match routes with
  | [] => (tree, None)
  | r :: rest =>
      let finalHandler := applyMiddlewareChain (r_Handler r) (mws ++ r_Middlewares r) in
      match commit_route tree (r_Method r) (fullPrefix +:+ r_Path r) finalHandler (r_Name r) with
      | (tree', Some stop) => (tree', Some stop)
      | (tree', None) => commit_routes tree' fullPrefix mws rest
      end
  end.

Fixpoint CommitToTree (ancestors : list GroupDefinition) (g : GroupDefinition)
    (tree : Tree HandlerFunc) (globalMiddlewares : list MiddlewareFunc)
    : Tree HandlerFunc * option InsertOutcome :=
  let '(mkGroup prefix mws routes children) := g in
  let chain := globalMiddlewares ++ collectInheritedMiddlewares ancestors ++ mws in
  match commit_routes tree (FullPrefix ancestors prefix) chain routes with
  | (tree', Some stop) => (tree', Some stop)
  | (tree', None) =>
      (fix go (t : Tree HandlerFunc) (cs : list GroupDefinition) :=
         match cs with
         | [] => (t, None)
         | c :: cs' =>
             match CommitToTree (g :: ancestors) c t globalMiddlewares with
             | (t', Some stop) => (t', Some stop)
             | (t', None) => go t' cs'
             end
         end) tree' children
  end.

(** ** The routes of a group tree, in the order the walk registers them *)

Definition route : Type := string * string * HandlerFunc * string.

Definition own_routes (prefix : string) (mws : list MiddlewareFunc) (rs : list RouteDefinition)
    : list route :=
  (fun r => (r_Method r, prefix +:+ r_Path r,
             foldr (fun mw h => mw h) (r_Handler r) (mws ++ r_Middlewares r), r_Name r)) <$> rs.

Fixpoint all_routes (prefix : string) (mws : list MiddlewareFunc) (g : GroupDefinition) : list route :=
  let '(mkGroup p ms rs cs) := g in
  own_routes (prefix +:+ p) (mws ++ ms) rs ++ (cs ≫= all_routes (prefix +:+ p) (mws ++ ms)).

(** Insert routes one after the other, stopping at the first that is not
    accepted. *)
Fixpoint insert_until (t : Tree HandlerFunc) (l : list route)
    : Tree HandlerFunc * option InsertOutcome :=
  match l with
  | [] => (t, None)
  | (m, p, h, n) :: l' =>
      match commit_route t m p h n with
      | (t', Some stop) => (t', Some stop)
      | (t', None) => insert_until t' l'
      end
  end.

Lemma insert_until_app t l1 l2 :
  insert_until t (l1 ++ l2) =
  match insert_until t l1 with
  | (t', Some stop) => (t', Some stop)
  | (t', None) => insert_until t' l2
  end.
Proof.
  revert t. induction l1 as [|[[[m p] h] n] l1 IH]; intros t; simpl; [done|].
  destruct (commit_route t m p h n) as [t' [stop|]]; [done|apply IH].
Qed.

Lemma chain_foldr h mws : applyMiddlewareChain h mws = foldr (fun mw h => mw h) h mws.
Proof.
  assert (Hb : forall l, Build (mkPipeline None (middleware_stage <$> l)) h
                         = foldr (fun mw h => mw h) h l).
  { induction l as [|mw l IH]; [done|]. unfold Build in *. cbn [pipes] in *.
    rewrite fmap_cons, reverse_cons, build_loop_app, IH. reflexivity. }
  destruct mws as [|mw mws]; [done|]. apply (Hb (mw :: mws)).
Qed.

(** The full prefix of the group the walk is inside of. *)
Definition outer_prefix (ancestors : list GroupDefinition) : string :=
  match ancestors with
  | [] => ""
  | parent :: rest => FullPrefix rest (g_prefix parent)
  end.

Lemma FullPrefix_outer ancestors p : FullPrefix ancestors p = outer_prefix ancestors +:+ p.
Proof.
  destruct ancestors as [|parent rest]; [done|]. simpl.
  destruct (String.eqb_spec (FullPrefix rest (g_prefix parent)) "") as [->|]; [done|].
  destruct (String.eqb_spec p "") as [->|]; [by rewrite append_nil_r|done].
Qed.

Lemma commit_routes_until t prefix mws rs :
  commit_routes t prefix mws rs = insert_until t (own_routes prefix mws rs).
Proof.
  revert t. induction rs as [|r rs IH]; intros t; csimpl; [done|].
  rewrite chain_foldr. destruct (commit_route _ _ _ _ _) as [t' [stop|]]; [done|apply IH].
Qed.

Lemma GroupDefinition_ind (P : GroupDefinition -> Prop) :
  (forall g, Forall P (g_children g) -> P g) -> forall g, P g.
Proof.
  intros IH. fix rec 1. intros [p ms rs cs]. apply IH. simpl.
  induction cs as [|c cs IHcs]; constructor; [apply rec|exact IHcs].
Qed.

Lemma commit_until ancestors g t globals :
  CommitToTree ancestors g t globals
  = insert_until t (all_routes (outer_prefix ancestors)
                      (globals ++ collectInheritedMiddlewares ancestors) g).
Proof.
  revert ancestors t. induction g as [[p ms rs cs] IH] using GroupDefinition_ind.
  intros ancestors t. cbn [CommitToTree all_routes g_children] in *.
  rewrite commit_routes_until, FullPrefix_outer, insert_until_app, app_assoc.
  destruct (insert_until t _) as [t' [stop|]]; [done|].
  set (g := mkGroup p ms rs cs).
  assert (Hrec : forall c t, c ∈ cs -> CommitToTree (g :: ancestors) c t globals
    = insert_until t (all_routes (outer_prefix ancestors +:+ p)
                        ((globals ++ collectInheritedMiddlewares ancestors) ++ ms) c)).
  { rewrite Forall_forall in IH. intros c t0 Hc. rewrite IH by done. simpl.
    by rewrite FullPrefix_outer, !app_assoc. }
  clearbody g. clear IH. revert t'. induction cs as [|c cs IHcs]; intros t'; [done|].
  rewrite Hrec by left. simpl. rewrite insert_until_app.
  destruct (insert_until t' _) as [t'' [stop|]]; [done|].
  apply IHcs. intros c' t0 Hc'. apply Hrec. by right.
Qed.

(** committing a tree of groups registers exactly the routes of the tree
    in document order, each under the concatenation of all prefixes on the way
    to it and behind the middleware of the router, then of every enclosing
    group from the outside in, then its own, the first being the outermost;
    it stops at the first route the tree refuses, and nothing after that route
    is registered. *)
Theorem commit_registers_in_order ancestors g t globals :
  CommitToTree ancestors g t globals
  = insert_until t (all_routes (outer_prefix ancestors)
                      (globals ++ collectInheritedMiddlewares ancestors) g).
Proof. apply commit_until. Qed.

End groups.
Arguments HandlerFunc : clear implicits.
Arguments MiddlewareFunc : clear implicits.
Arguments RouteDefinition : clear implicits.
Arguments GroupDefinition : clear implicits.
