(* ===== verification/RouterServe.v ===== *)
(** * Registration, commit and the choice of a handler

    Models the rest of router/velocity_router.go's route handling, with
    router/resource.go and router/url.go: registering routes, groups,
    middleware and resources, [commitOnce], the resets, and how ServeHTTP
    admits a request (router/admission.go) and chooses between a static file, a
    route and the 404 or 405.  Whether the router's request run admits a request
    is an input of ServeHTTP; Drain.v models the run.

    [R] is what running a handler yields.  A group router's pointer is the
    list of child indices that leads to its group.  A controller is what
    reflection sees of it: its methods by name, [None] for a method of another
    signature.  The closures commitOnce stores read the router's tree when
    they run, so a stored handler takes the tree as an argument.  The file
    system and its probe are parameters ([serve_static], [probe]). *)

From Stdlib Require Import Ascii String.
From S2P Require Import Prelude GoStrings RouterTree RouterSpec RouterDispatch RouterGroup.
Local Open Scope string_scope.
Local Open Scope list_scope.

(** ** Resources *)

Record ResourceConfig := mkResourceConfig {
  Action : string; HasParam : bool; HttpMethod : string; PathSuffix : string
}.

Definition DefaultResourceConfig : list ResourceConfig :=
  [ mkResourceConfig "Index" false "GET" "";
    mkResourceConfig "Create" false "GET" "/create";
    mkResourceConfig "Store" false "POST" "";
    mkResourceConfig "Show" true "GET" "/{id}";
    mkResourceConfig "Edit" true "GET" "/{id}/edit";
    mkResourceConfig "Update" true "PUT" "/{id}";
    mkResourceConfig "Update" true "PATCH" "/{id}";
    mkResourceConfig "Destroy" true "DELETE" "/{id}" ].

Definition all_actions : gmap string bool :=
  {["index" := true; "create" := true; "store" := true; "show" := true;
    "edit" := true; "update" := true; "destroy" := true]}.

Section serve.
Context `{RE : RegexEngine} {Ctx R : Type}.
Context (request_method escaped_path : Ctx -> string) (http_error : HTTPError -> R).
Context (serve_static : Ctx -> R).
Notation Handler := (HandlerFunc Ctx R).
Notation Middleware := (MiddlewareFunc Ctx R).
Notation Group := (GroupDefinition Ctx R).

(** What reflection sees of a controller. *)
Definition Controller : Type := gmap string (option Handler).

Record resourceWrapperV2 := mkResource {
  res_path : string;
  controller : Controller;
  res_methods : gmap string bool;
  registered_ : bool
}.

Definition Only (rr : resourceWrapperV2) (methods : list string) : resourceWrapperV2 :=
  mkResource (res_path rr) (controller rr)
    (foldl (fun m k => <[k := true]> m) ((fun _ => false) <$> res_methods rr) methods)
    (registered_ rr).

Definition Except (rr : resourceWrapperV2) (methods : list string) : resourceWrapperV2 :=
  mkResource (res_path rr) (controller rr)
    (foldl (fun m k => <[k := false]> m) (res_methods rr) methods) (registered_ rr).

(** One configured action: the tree is left alone when the action is off, the
    controller lacks it, or the pattern does not parse. *)
Definition register_action (tree : Tree Handler) (basePath : string) (c : Controller)
    (methods : gmap string bool) (mws : list Middleware) (config : ResourceConfig) : Tree Handler :=
  if default false (methods !! lower_ascii (Action config)) then
    match c !! Action config with
    | Some (Some handler) =>
        (Insert tree (HttpMethod config) (basePath +:+ PathSuffix config)
           (applyMiddlewareChain handler mws)).1
    | _ => tree
    end
  else tree.

Definition registerResourceRoutes (tree : Tree Handler) (basePath : string) (c : Controller)
    (methods : gmap string bool) (mws : list Middleware) : Tree Handler :=
  foldl (fun t config => register_action t basePath c methods mws config) tree DefaultResourceConfig.

Definition registerWithMiddlewares (tree : Tree Handler) (rr : resourceWrapperV2)
    (mws : list Middleware) : Tree Handler * resourceWrapperV2 :=
  if registered_ rr then (tree, rr)
  else (registerResourceRoutes tree (res_path rr) (controller rr) (res_methods rr) mws,
        mkResource (res_path rr) (controller rr) (res_methods rr) true).

(** The loop of commitOnce over the resources. *)
Fixpoint register_resources (tree : Tree Handler) (l : list resourceWrapperV2)
    (mws : list Middleware) : Tree Handler * list resourceWrapperV2 :=
  match l with
  | [] => (tree, [])
  | rr :: l' =>
      let '(tree, rr) := registerWithMiddlewares tree rr mws in
      let '(tree, rest) := register_resources tree l' mws in
      (tree, rr :: rest)
  end.

(** ** The router *)

Record VelocityRouterV2 := mkVelocityRouter {
  routing : Routing Handler;
  prefix : string;
  middlewares : list Middleware;
  routes_by_name : gmap string (MatchResult Handler);
  staticEnabled : bool;
  staticFallbackOnly : bool;
  rootGroup : Group;
  resources : list resourceWrapperV2;
  committed : bool;
  frozen : bool;
  unmatchedHandler : option (Tree Handler -> Handler);
  staticHandler : option Handler
}.
Implicit Types (r : VelocityRouterV2).

Definition NewV2 : VelocityRouterV2 :=
  mkVelocityRouter (mkRouting NewTree None) "" [] ∅ false false
    (NewGroupDefinition "") [] false false None None.

Definition with_root r (g : Group) : VelocityRouterV2 :=
  mkVelocityRouter (routing r) (prefix r) (middlewares r) (routes_by_name r) (staticEnabled r)
    (staticFallbackOnly r) g (resources r) (committed r) (frozen r) (unmatchedHandler r)
    (staticHandler r).

Definition with_middlewares r (l : list Middleware) : VelocityRouterV2 :=
  mkVelocityRouter (routing r) (prefix r) l (routes_by_name r) (staticEnabled r)
    (staticFallbackOnly r) (rootGroup r) (resources r) (committed r) (frozen r)
    (unmatchedHandler r) (staticHandler r).

Definition with_resources r (l : list resourceWrapperV2) : VelocityRouterV2 :=
  mkVelocityRouter (routing r) (prefix r) (middlewares r) (routes_by_name r) (staticEnabled r)
    (staticFallbackOnly r) (rootGroup r) l (committed r) (frozen r)
    (unmatchedHandler r) (staticHandler r).

Definition with_static r (enabled fallback : bool) : VelocityRouterV2 :=
  mkVelocityRouter (routing r) (prefix r) (middlewares r) (routes_by_name r) enabled
    fallback (rootGroup r) (resources r) (committed r) (frozen r)
    (unmatchedHandler r) (staticHandler r).

(** ** Registration *)

(** Change the group a pointer names. *)
Fixpoint update_group (ptr : list nat) (f : Group -> Group) (g : Group) : Group :=
  match ptr with
  | [] => f g
  | i :: ptr' =>
      let '(mkGroup p ms rs cs) := g in mkGroup p ms rs (alter (update_group ptr' f) i cs)
  end.

(** Its full prefix: the prefixes on the way to it. *)
Fixpoint ancestors_of (ptr : list nat) (ancestors : list Group) (g : Group)
    : option (list Group * Group) :=
  match ptr with
  | [] => Some (ancestors, g)
  | i :: ptr' =>
      match g_children g !! i with
      | Some c => ancestors_of ptr' (g :: ancestors) c
      | None => None
      end
  end.

Definition group_prefix (ptr : list nat) (root : Group) : string :=
  match ancestors_of ptr [] root with
  | Some (ancestors, g) => FullPrefix ancestors (g_prefix g)
  | None => ""
  end.

Definition buildPath r (path : string) : string :=
  if String.eqb (prefix r) "" then path else prefix r +:+ path.

Definition addRoute r (method path : string) (handler : Handler) : VelocityRouterV2 :=
  with_root r (AddRoute (rootGroup r) method (buildPath r path) handler).

(** Match registers one route per method; without methods it does nothing. *)
Definition MatchMethods r (methods : list string) (path : string) (handler : Handler)
    : VelocityRouterV2 :=
  foldl (fun r m => addRoute r m path handler) r methods.

(** Group returns the pointer of the child it appended. *)
Definition Group_ r (pre : string) : VelocityRouterV2 * list nat :=
  (with_root r (AddChild (rootGroup r) pre), [List.length (g_children (rootGroup r))]).

Definition router_Use r (l : list Middleware) : VelocityRouterV2 :=
  with_middlewares r (middlewares r ++ l).

Definition UseFirst r (l : list Middleware) : VelocityRouterV2 :=
  with_middlewares r (l ++ middlewares r).

Definition Prefix_ r (pre : string) : VelocityRouterV2 :=
  mkVelocityRouter (routing r) pre (middlewares r) (routes_by_name r) (staticEnabled r)
    (staticFallbackOnly r) (rootGroup r) (resources r) (committed r) (frozen r)
    (unmatchedHandler r) (staticHandler r).

Definition Resource_ r (path : string) (c : Controller) : VelocityRouterV2 :=
  with_resources r (resources r ++ [mkResource path c all_actions false]).

Definition Static_ r : VelocityRouterV2 := with_static r true (staticFallbackOnly r).
Definition StaticFallback r : VelocityRouterV2 := with_static r true true.

Definition group_addRoute r (ptr : list nat) (method path : string) (handler : Handler)
    : VelocityRouterV2 :=
  with_root r (update_group ptr (fun g => AddRoute g method path handler) (rootGroup r)).

Definition group_Group r (ptr : list nat) (pre : string) : VelocityRouterV2 * list nat :=
  (with_root r (update_group ptr (fun g => AddChild g pre) (rootGroup r)),
   ptr ++ [match ancestors_of ptr [] (rootGroup r) with
           | Some (_, g) => List.length (g_children g)
           | None => 0%nat
           end]).

Definition group_Use r (ptr : list nat) (l : list Middleware) : VelocityRouterV2 :=
  with_root r (update_group ptr (fun g => Use g l) (rootGroup r)).

Definition group_Resource r (ptr : list nat) (path : string) (c : Controller) : VelocityRouterV2 :=
  with_resources r
    (resources r ++ [mkResource (group_prefix ptr (rootGroup r) +:+ path) c all_actions false]).

(** RouteConfig's Name and Use on route [i] of a group. *)
Definition config_route r (ptr : list nat) (i : nat)
    (f : RouteDefinition Ctx R -> RouteDefinition Ctx R) : VelocityRouterV2 :=
  with_root r (update_group ptr
    (fun g => let '(mkGroup p ms rs cs) := g in mkGroup p ms (alter f i rs) cs) (rootGroup r)).

Definition route_Name r ptr i (name : string) : VelocityRouterV2 :=
  config_route r ptr i (fun d => mkRoute (r_Method d) (r_Path d) (r_Handler d) (r_Middlewares d) name).

Definition route_Use r ptr i (l : list Middleware) : VelocityRouterV2 :=
  config_route r ptr i
    (fun d => mkRoute (r_Method d) (r_Path d) (r_Handler d) (r_Middlewares d ++ l) (r_Name d)).

(** ** Commit and reset *)

Definition unmatched_terminal (t : Tree Handler) : Handler :=
  fun c => http_error (unmatchedError (mkRouting t None) (request_method c) (escaped_path c)).

(** commitOnce.  A route name already taken panics out of it, before the flags
    are set but with the tree changed; the error of an invalid pattern is
    discarded. *)
Definition commitOnce r : VelocityRouterV2 * option string :=
  if committed r then (r, None)
  else
    let '(t, stop) := CommitToTree [] (rootGroup r) (tree (routing r)) (middlewares r) in
    match stop with
    | Some (NamePanic name) =>
        (mkVelocityRouter (mkRouting t (compiledRoutes (routing r))) (prefix r) (middlewares r)
           (routes_by_name r) (staticEnabled r) (staticFallbackOnly r) (rootGroup r) (resources r)
           (committed r) (frozen r) (unmatchedHandler r) (staticHandler r), Some name)
    | _ =>
        let '(t, res) := register_resources t (resources r) (middlewares r) in
        (mkVelocityRouter (compile t) (prefix r) (middlewares r) (namedRoutes t) (staticEnabled r)
           (staticFallbackOnly r) (rootGroup r) res true true
           (Some (fun t => applyMiddlewareChain (unmatched_terminal t) (middlewares r)))
           (Some (applyMiddlewareChain serve_static (middlewares r))), None)
    end.

Definition ClearCompiledRoutes r : VelocityRouterV2 :=
  mkVelocityRouter (mkRouting (tree (routing r)) None) (prefix r) (middlewares r)
    (routes_by_name r) (staticEnabled r) (staticFallbackOnly r) (rootGroup r) (resources r)
    (committed r) (frozen r) (unmatchedHandler r) (staticHandler r).

Definition ClearRoutes r : VelocityRouterV2 :=
  mkVelocityRouter (mkRouting NewTree None) (prefix r) (middlewares r) ∅ (staticEnabled r)
    (staticFallbackOnly r) (NewGroupDefinition "") [] false false None None.

(** ** Serving *)

(** What ServeHTTP runs for an admitted request. *)
Inductive Choice := ChooseStatic | ChooseRoute (m : MatchResult Handler) | ChooseUnmatched.

Definition choose r (probe : bool) (method path : string) : Choice :=
  if staticEnabled r && negb (staticFallbackOnly r) && probe then ChooseStatic
  else match matchRoute (routing r) method path with
       | Some m => ChooseRoute m
       | None => if staticEnabled r && staticFallbackOnly r && probe then ChooseStatic
                 else ChooseUnmatched
       end.

Definition run_choice r (ch : Choice) (c : Ctx) : R :=
  match ch with
  | ChooseRoute m => RouterTree.Handler m c
  | ChooseStatic => match staticHandler r with Some h => h c | None => serve_static c end
  | ChooseUnmatched =>
      match unmatchedHandler r with
      | Some h => h (tree (routing r)) c
      | None => unmatched_terminal (tree (routing r)) c
      end
  end.

(** The error a request is refused with once the router's stop began; the
    error boundary renders it, and never reports it. *)
Record shutdownRefusal := mkRefusal {
  Status : Z; Message : string; Headers : list (string * string); ShouldReport : bool
}.

Definition serverShutdownError : shutdownRefusal :=
  mkRefusal 503 "Service Unavailable" [("Retry-After", "1"); ("Connection", "close")] false.

(** What comes of a request: the refusal, which runs nothing of the
    application; the panic of a commit with a repeated route name; or what the
    chosen handler yields. *)
Inductive Served :=
  | Refused (e : shutdownRefusal)
  | Panicked (name : string)
  | Answered (x : R).

(** [admitted] is what r.requests.Admit() returned. *)
Definition ServeHTTP r (admitted probe : bool) (c : Ctx) : VelocityRouterV2 * Served :=
  if negb admitted then (r, Refused serverShutdownError)
  else
    match commitOnce r with
    | (r', Some name) => (r', Panicked name)
    | (r', None) => (r', Answered (run_choice r' (choose r' probe (request_method c) (escaped_path c)) c))
    end.

(** RouteURL: None when the router is not frozen or has no such name. *)
Definition RouteURL r (name : string) (params : gmap string string) : option (result string string) :=
  if frozen r then
    match routes_by_name r !! name with
    | Some m => Some (BuildPath (segments m) params)
    | None => None
    end
  else None.

(** ** A router before its first request *)

(** The routers a program can build before it serves. *)
Inductive configured : VelocityRouterV2 -> Prop :=
  | configured_new : configured NewV2
  | configured_route r m p h : configured r -> configured (addRoute r m p h)
  | configured_group r p : configured r -> configured (Group_ r p).1
  | configured_use r l : configured r -> configured (router_Use r l)
  | configured_first r l : configured r -> configured (UseFirst r l)
  | configured_prefix r p : configured r -> configured (Prefix_ r p)
  | configured_resource r p c : configured r -> configured (Resource_ r p c)
  | configured_static r : configured r -> configured (Static_ r)
  | configured_fallback r : configured r -> configured (StaticFallback r)
  | configured_group_route r g m p h : configured r -> configured (group_addRoute r g m p h)
  | configured_group_group r g p : configured r -> configured (group_Group r g p).1
  | configured_group_use r g l : configured r -> configured (group_Use r g l)
  | configured_group_resource r g p c : configured r -> configured (group_Resource r g p c)
  | configured_config r g i f : configured r -> configured (config_route r g i f)
  | configured_only r i l : configured r ->
      configured (with_resources r (alter (fun rr => Only rr l) i (resources r)))
  | configured_except r i l : configured r ->
      configured (with_resources r (alter (fun rr => Except rr l) i (resources r))).

Lemma configured_fresh r :
  configured r -> tree (routing r) = NewTree /\ committed r = false.
Proof. induction 1; simpl; tauto. Qed.

(** A handler behind a chain of middleware, the first outermost. *)
Definition behind (mws : list Middleware) (h : Handler) : Prop :=
  exists inner, h = foldr (fun mw h => mw h) inner mws.

Definition all_behind (mws : list Middleware) (t : Tree Handler) : Prop :=
  reachable t /\ forall ks m x, get (root t) ks m = Some x -> behind mws (RouterTree.Handler x).

Lemma behind_chain mws h : behind mws (applyMiddlewareChain h mws).
Proof. exists h. apply chain_foldr. Qed.

Lemma behind_app mws l h : behind mws (foldr (fun mw h => mw h) h (mws ++ l)).
Proof. rewrite foldr_app. by eexists. Qed.

Lemma all_behind_new mws : all_behind mws NewTree.
Proof.
  split; [constructor|]. intros ks m r Hg. exfalso. revert Hg.
  destruct ks as [|[] ks]; cbn; by rewrite ?lookup_empty.
Qed.

Lemma all_behind_insert mws t m p h n :
  behind mws h -> all_behind mws t -> all_behind mws (InsertWithName t m p h n).1.
Proof.
  intros Hh [Hr Hb]. split; [by constructor|]. intros ks m' r.
  rewrite root_InsertWithName. case_match; [|apply Hb].
  rewrite get_insert_at. case_decide; [intros [= <-]; done|apply Hb].
Qed.

Lemma all_behind_until mws t l :
  Forall (fun '(_, _, h, _) => behind mws h) l -> all_behind mws t ->
  all_behind mws (insert_until t l).1.
Proof.
  intros Hl. revert t. induction Hl as [|[[[m p] h] n] l Hh Hl IH]; intros t Ht; simpl; [done|].
  pose proof (all_behind_insert mws t m p h n Hh Ht) as Ht'. unfold commit_route.
  destruct (InsertWithName t m p h n) as [t' []]; simpl in *; auto.
Qed.

Lemma own_routes_behind mws pre l rs :
  Forall (fun '(_, _, h, _) => behind mws h) (own_routes (Ctx:=Ctx) (R:=R) pre (mws ++ l) rs).
Proof.
  apply Forall_fmap, Forall_forall. intros d _. simpl. rewrite <- app_assoc. apply behind_app.
Qed.

Lemma all_routes_behind mws pre l g :
  Forall (fun '(_, _, h, _) => behind mws h) (all_routes (Ctx:=Ctx) (R:=R) pre (mws ++ l) g).
Proof.
  revert pre l. induction g as [[p ms rs cs] IH] using GroupDefinition_ind. intros pre l.
  cbn [all_routes g_children] in *. rewrite <- app_assoc. apply Forall_app.
  split; [apply own_routes_behind|].
  apply Forall_bind. eapply Forall_impl; [exact IH|]. intros c Hc. apply Hc.
Qed.

Lemma all_behind_resource mws t base c methods :
  all_behind mws t -> all_behind mws (registerResourceRoutes t base c methods mws).
Proof.
  unfold registerResourceRoutes. generalize DefaultResourceConfig. intros l. revert t.
  induction l as [|config l IH]; intros t Ht; simpl; [done|]. apply IH.
  unfold register_action. repeat case_match; try done.
  apply all_behind_insert; [apply behind_chain|done].
Qed.

Lemma all_behind_resources mws t l :
  all_behind mws t -> all_behind mws (register_resources t l mws).1.
Proof.
  revert t. induction l as [|rr l IH]; intros t Ht; simpl; [done|].
  unfold registerWithMiddlewares.
  destruct (registered_ rr); [specialize (IH t Ht)|
    specialize (IH _ (all_behind_resource mws t (res_path rr) (controller rr) (res_methods rr) Ht))];
    by destruct (register_resources _ l mws).
Qed.

(** Every result of a lookup is a registered route. *)
Lemma assign_all_elem (m : gmap string (MatchResult Handler)) l k x :
  assign_all m l !! k = Some x -> m !! k = Some x \/ (k, x) ∈ l.
Proof.
  revert m. induction l as [|[k' r'] l IH]; intros m; [by left|].
  intros H. apply IH in H as [H|H]; [|right; by right].
  rewrite lookup_insert in H. case_decide; [|by left].
  right. simplify_eq. left.
Qed.

Lemma matchLazy_behind mws t m p x :
  all_behind mws t -> matchLazy t m p = Some x -> behind mws (RouterTree.Handler x).
Proof.
  intros [Hr Hb] E. pose proof (matchLazy_spec t m p (reachable_wf t Hr)) as Hs.
  rewrite E in Hs. destruct Hs as (ks & vs & reg & _ & Hg & -> & _). exact (Hb _ _ _ Hg).
Qed.

Lemma matchRoute_behind mws t m p x :
  all_behind mws t -> matchRoute (compile t) m p = Some x -> behind mws (RouterTree.Handler x).
Proof.
  intros Ht. unfold matchRoute. cbn [compile compiledRoutes tree].
  assert (Hc : forall k x, CompileStaticRoutes t !! k = Some x -> behind mws (RouterTree.Handler x)).
  { intros k r'. rewrite compiled_entries. intros [Hk|Hk]%assign_all_elem; [by rewrite lookup_empty in Hk|].
    apply elem_of_compiled_entries in Hk as (ss & m' & _ & Hg & _); [|by apply reachable_wf, Ht].
    exact (proj2 Ht _ _ _ Hg). }
  destruct (CompileStaticRoutes t !! (m +:+ " " +:+ p)) eqn:E1; cbn [or_else].
  { intros [= <-]. by eapply Hc. }
  destruct (CompileStaticRoutes t !! ("ANY " +:+ p)) eqn:E2; cbn [or_else].
  { intros [= <-]. by eapply Hc. }
  destruct (matchLazy t m p) eqn:E3; cbn [or_else].
  { intros [= <-]. by eapply matchLazy_behind. }
  intros E4. by eapply matchLazy_behind.
Qed.

(** What a committed router runs is behind the chain. *)
Lemma choice_behind r r' probe c :
  configured r -> commitOnce r = (r', None) ->
  committed r' = true /\
  exists inner : Handler,
    run_choice r' (choose r' probe (request_method c) (escaped_path c)) c
    = foldr (fun mw h => mw h) inner (middlewares r) c.
Proof.
  intros [Ht Hc]%configured_fresh. unfold commitOnce at 1. rewrite Hc, Ht.
  rewrite commit_until. cbn [outer_prefix collectInheritedMiddlewares].
  pose proof (all_behind_until (middlewares r) NewTree _
    (all_routes_behind (middlewares r) "" [] (rootGroup r)) (all_behind_new _)) as Hb.
  destruct (insert_until NewTree _) as [t stop]. simpl in Hb.
  pose proof (all_behind_resources (middlewares r) t (resources r) Hb) as Hb'.
  destruct (register_resources t (resources r) (middlewares r)) as [t' res]. simpl in Hb'.
  intros Hr'.
  assert (r' = mkVelocityRouter (compile t') (prefix r) (middlewares r) (namedRoutes t')
    (staticEnabled r) (staticFallbackOnly r) (rootGroup r) res true true
    (Some (fun t => applyMiddlewareChain (unmatched_terminal t) (middlewares r)))
    (Some (applyMiddlewareChain serve_static (middlewares r)))) as ->
    by (destruct stop as [[]|]; congruence).
  clear Hr'. split; [done|]. unfold choose. cbn [staticEnabled staticFallbackOnly routing].
  destruct (_ && probe).
  { exists serve_static. unfold run_choice. cbn [staticHandler]. by rewrite chain_foldr. }
  destruct (matchRoute _ _ _) as [m|] eqn:E.
  - apply (matchRoute_behind (middlewares r)) in E as [inner Hi]; [|done].
    exists inner. cbn [run_choice]. by rewrite Hi.
  - destruct (_ && probe); [exists serve_static|exists (unmatched_terminal t')];
      unfold run_choice; cbn [staticHandler unmatchedHandler routing compile tree];
      by rewrite chain_foldr.
Qed.

(** C17: for a router built by registrations whose commit succeeds, at its first
    request and at every later one: a request the router admits is answered, be
    it by a static file, a route of any group, a resource action or the 404/405
    of an unmatched request, behind the whole global middleware chain, in
    registration order; a request it does not admit, because its Shutdown
    began, runs no middleware and no handler, changes nothing and gets the 503
    with Retry-After. *)
Theorem global_middleware_guards_admitted_requests r r' probe c :
  configured r -> commitOnce r = (r', None) ->
  forall x, x = r \/ x = r' ->
  (exists inner : Handler,
     ServeHTTP x true probe c = (r', Answered (foldr (fun mw h => mw h) inner (middlewares r) c)))
  /\ ServeHTTP x false probe c =
       (x, Refused (mkRefusal 503 "Service Unavailable" [("Retry-After", "1"); ("Connection", "close")] false)).
Proof.
  intros Hr Hcommit x Hx. destruct (choice_behind r r' probe c Hr Hcommit) as (Hc' & inner & Hrun).
  split; [|done]. exists inner. unfold ServeHTTP. cbn [negb].
  assert (E : commitOnce x = (r', None)) by (destruct Hx as [->| ->]; [done|unfold commitOnce; by rewrite Hc']).
  by rewrite E, Hrun.
Qed.

(** Commit is idempotent, and clearing the compiled table is final: the next
    request does not compile it again. *)
Lemma cleared_table_stays_cleared r :
  committed r = true -> commitOnce (ClearCompiledRoutes r) = (ClearCompiledRoutes r, None).
Proof. intros Hc. unfold commitOnce. simpl. by rewrite Hc. Qed.

End serve.

(** ** A concrete router

    Contexts are (method, path) pairs and a handler's result is the trace of
    what ran: middleware push their name, a refusal is its status. *)

Definition trace_ctx : Type := string * string.
Definition trace_error (e : HTTPError) : list string :=
  match e with NotFound => ["404"] | MethodNotAllowed _ => ["405"] end.
Definition tag (s : string) : MiddlewareFunc trace_ctx (list string) := fun next c => s :: next c.
Definition deny (s : string) : MiddlewareFunc trace_ctx (list string) := fun next c => [s].
Definition run (s : string) : HandlerFunc trace_ctx (list string) := fun c => [s].

Definition trace_serve (r : VelocityRouterV2) (method path : string) : Served :=
  (ServeHTTP fst snd trace_error (run "file") r true false (method, path)).2.

(** A router with a denying group: "/admin" refuses everything, and holds the
    route "/x" and the resource "/users" with an index action. *)
Definition admin_router : VelocityRouterV2 :=
  let r := router_Use NewV2 [tag "global"] in
  let '(r, g) := Group_ r "/admin" in
  let r := group_Use r g [deny "denied"] in
  let r := group_addRoute r g "GET" "/x" (run "x") in
  group_Resource r g "/users" {["Index" := Some (run "index")]}.

Lemma global_middleware_guards_admitted_requests_witness :
  exists inner, ServeHTTP fst snd trace_error (run "file") admin_router true false ("GET", "/nowhere")
    = ((commitOnce fst snd trace_error (run "file") admin_router).1,
       Answered (foldr (fun mw h => mw h) inner (middlewares admin_router) ("GET", "/nowhere"))).
Proof.
  apply (global_middleware_guards_admitted_requests fst snd trace_error (run "file") admin_router
           (commitOnce fst snd trace_error (run "file") admin_router).1).
  - unfold admin_router, Group_. repeat constructor.
  - reflexivity.
  - left. reflexivity.
Defined.

(** A resource registered through a group does not run behind the group's
    middleware: in a group whose middleware refuses everything, a plain route
    is refused and the resource's action is served. *)
Theorem group_resource_skips_group_middleware :
  trace_serve admin_router "GET" "/admin/x" = Answered ["global"; "denied"]
  /\ trace_serve admin_router "GET" "/admin/users" = Answered ["global"; "index"].
Proof. vm_compute. split; reflexivity. Qed.

(** The error of an invalid pattern is dropped at commit: the routes and
    groups registered after it are not in the tree, the router still commits
    and serves, and a request for one of them is answered 404. *)
Theorem invalid_pattern_silently_drops_later_routes :
  let r := addRoute NewV2 "GET" "/a" (run "a") in
  let r := addRoute r "GET" "/b/{id:(}" (run "b") in
  let r := addRoute r "GET" "/c" (run "c") in
  (commitOnce fst snd trace_error (run "file") r).2 = None
  /\ trace_serve r "GET" "/a" = Answered ["a"]
  /\ trace_serve r "GET" "/c" = Answered ["404"].
Proof. vm_compute. repeat split. Qed.
