(* ===== verification/CacheMemory.v ===== *)
(** * The in-memory cache store

    Models cache/drivers/memory.go and the helpers of cache/drivers/helpers.go:
    a bounded map with deadlines, sampled least-recently-used eviction, atomic
    add, replace, compare-and-swap, counters and string sets.

    Every operation runs under the store's mutex, so an operation is one step.
    It may read the clock several times: [now e i] is its [i]-th reading.
    Eviction round [i] made for the [n]-th entry an operation stores reads the
    clock at [evict_now e n i] and iterates over the map in the order
    [order e n i], any permutation of the entries, as Go randomises the
    iteration order of maps.  All are fields of the environment [e] the
    operation runs in.  Reads only stamp the item they hit, atomically, so they
    are modelled as steps too.

    [float64] conversion and equality, equality of opaque values and the
    length of a serialized value are parameters ([GoValues]). *)

From Stdlib Require Import Ascii String.
From S2P Require Import Prelude GoStrings.
Local Open Scope string_scope.
Local Open Scope list_scope.
Local Open Scope Z_scope.

(** ** Values *)

(** The dynamic types the drivers tell apart. *)
Inductive Value :=
  | VInt64 (n : Z) | VInt (n : Z) | VInt32 (n : Z) | VFloat64 (bits : Z)
  | VString (s : string) | VSet (members : gset string) | VOther (id : Z).

(** What the drivers use of the runtime: [int64(f)], equality of floats and of
    opaque values, and the length MarshalValue yields ([None]: an error). *)
Class GoValues := {
  float_trunc : Z -> Z;
  float_eq : Z -> Z -> bool;
  other_eq : Z -> Z -> bool;
  marshal_len : Value -> option Z
}.

Section values.
Context `{GV : GoValues}.

(** reflect.DeepEqual *)
Definition DeepEqual (a b : Value) : bool :=
  match a, b with
  | VInt64 n, VInt64 m | VInt n, VInt m | VInt32 n, VInt32 m => n =? m
  | VFloat64 f, VFloat64 g => float_eq f g
  | VString s, VString t => String.eqb s t
  | VSet s, VSet t => bool_decide (s = t)
  | VOther i, VOther j => other_eq i j
  | _, _ => false
  end.

(** The type switch of IncrementCtx. *)
Definition increment_base (v : Value) : option Z :=
  match v with
  | VInt64 n | VInt n => Some n
  | VFloat64 f => Some (float_trunc f)
  | _ => None
  end.

End values.

(** ** The store *)

Record cacheItem := mkItem {
  value : Value;
  expiration : option Z;
  lastAccess : Z
}.

Record MemoryStore := mkStore {
  items : gmap string cacheItem;
  prefix : string;
  accessSeq : Z;
  maxEntries : Z;
  maxValueBytes : Z
}.

(** The environment of one operation. *)
Record Env := mkEnv {
  now : Clock;
  evict_now : nat -> Clock;
  order : nat -> nat -> list (string * cacheItem) -> list (string * cacheItem);
  order_values : list (string * Value) -> list (string * Value);
  order_perm : forall n i l, order n i l ≡ₚ l;
  order_values_perm : forall l, order_values l ≡ₚ l
}.

Arguments now _ _%_nat_scope.
Arguments evict_now _ _%_nat_scope _%_nat_scope.

Inductive CacheError := ErrMarshal | ErrValueTooLarge | ErrNotNumeric.

Definition DefaultMaxEntries : Z := 1000000.
Definition evictionSampleSize : nat := 16.

(** MemoryOption values. *)
Definition WithMaxEntries (n : Z) (s : MemoryStore) : MemoryStore :=
  mkStore (items s) (prefix s) (accessSeq s)
    (if 0 <? n then n else if n <? 0 then 0 else DefaultMaxEntries) (maxValueBytes s).

Definition WithMaxValueBytes (n : Z) (s : MemoryStore) : MemoryStore :=
  mkStore (items s) (prefix s) (accessSeq s) (maxEntries s) (if 0 <? n then n else 0).

Definition NewMemoryStore (prefix : string) (opts : list (MemoryStore -> MemoryStore)) : MemoryStore :=
  foldl (fun s opt => opt s) (mkStore ∅ prefix 0 DefaultMaxEntries 0) opts.

(** helpers.go *)
Definition PrefixKey (prefix key : string) : string :=
  if String.eqb prefix "" then key else prefix +:+ ":" +:+ key.

Definition with_items (s : MemoryStore) (m : gmap string cacheItem) : MemoryStore :=
  mkStore m (prefix s) (accessSeq s) (maxEntries s) (maxValueBytes s).

Definition prefixedKey (s : MemoryStore) (key : string) : string := PrefixKey (prefix s) key.

(** [t.After(exp)], the test of GetCtx, of the sweep and of eviction, and
    [t.Before(exp)], the test of everything else. *)
Definition past (t : Z) (exp : option Z) : bool :=
  match exp with None => false | Some d => d <? t end.

Definition alive (t : Z) (exp : option Z) : bool :=
  match exp with None => true | Some d => t <? d end.

Definition expirationFor (t ttl : Z) : option Z := if ttl <=? 0 then None else Some (t + ttl).

(** touch: the next stamp of the access sequence, on a bounded store only. *)
Definition next_seq (s : MemoryStore) : Z := (accessSeq s + 1) mod two64.

Definition touch (s : MemoryStore) (it : cacheItem) : MemoryStore * cacheItem :=
  if 0 <? maxEntries s then
    (mkStore (items s) (prefix s) (next_seq s) (maxEntries s) (maxValueBytes s),
     mkItem (value it) (expiration it) (next_seq s))
  else (s, it).

(** Touch an item and put it (back) under its key. *)
Definition touch_at (s : MemoryStore) (key : string) (it : cacheItem) : MemoryStore :=
  let '(s', it') := touch s it in with_items s' (<[key := it']> (items s')).

(** The sampling loop: [left] entries may still be examined. *)
Fixpoint sample (left : nat) (t : Z) (victim : option (string * Z))
    (l : list (string * cacheItem)) : option string :=
  match left, l with
  | O, _ | _, [] => fst <$> victim
  | S left', (key, it) :: l' =>
      if past t (expiration it) then Some key
      else
        let victim := match victim with
                      | Some (vk, vs) => if lastAccess it <? vs then Some (key, lastAccess it)
                                         else Some (vk, vs)
                      | None => Some (key, lastAccess it)
                      end in
        sample left' t victim l'
  end.

Definition evictSampledLocked (e : Env) (n i : nat) (s : MemoryStore) : MemoryStore * bool :=
  match sample evictionSampleSize (evict_now e n i) None (order e n i (map_to_list (items s))) with
  | Some key => (with_items s (delete key (items s)), true)
  | None => (s, false)
  end.

(** The loop [for len(s.items) >= s.maxEntries]; each round removes an entry,
    so the size of the map bounds the rounds. *)
Fixpoint evict_loop (fuel : nat) (e : Env) (n i : nat) (s : MemoryStore) : MemoryStore :=
  match fuel with
  | O => s
  | S fuel' =>
      if Z.of_nat (size (items s)) <? maxEntries s then s
      else match evictSampledLocked e n i s with
           | (s', true) => evict_loop fuel' e n (S i) s'
           | (s', false) => s'
           end
  end.

(** setLocked, for the [n]-th entry the operation stores. *)
Definition setLocked (e : Env) (n : nat) (s : MemoryStore) (key : string)
    (v : Value) (exp : option Z) : MemoryStore :=
  match items s !! key with
  | Some it => touch_at s key (mkItem v exp (lastAccess it))
  | None =>
      let s := if 0 <? maxEntries s then evict_loop (S (size (items s))) e n O s else s in
      touch_at s key (mkItem v exp 0)
  end.

Arguments setLocked _ _%_nat_scope.

Definition removeLocked (s : MemoryStore) (key : string) : MemoryStore :=
  with_items s (delete key (items s)).

Section operations.
Context `{GV : GoValues}.

Definition checkValueSize (s : MemoryStore) (v : Value) : option CacheError :=
  if maxValueBytes s <=? 0 then None
  else match marshal_len v with
       | None => Some ErrMarshal
       | Some n => if maxValueBytes s <? n then Some ErrValueTooLarge else None
       end.

(** The sweep of cleanupExpired. *)
Definition sweepExpired (e : Env) (s : MemoryStore) : MemoryStore :=
  with_items s (filter (fun '(_, it) => past (now e 0) (expiration it) = false) (items s)).

Definition GetCtx (e : Env) (s : MemoryStore) (key : string) : MemoryStore * option Value :=
  match items s !! prefixedKey s key with
  | None => (s, None)
  | Some it =>
      if past (now e 0) (expiration it) then (s, None)
      else (touch_at s (prefixedKey s key) it, Some (value it))
  end.

Definition GetStringCtx (e : Env) (s : MemoryStore) (key : string) : MemoryStore * option string :=
  let '(s', v) := GetCtx e s key in
  (s', match v with Some (VString str) => Some str | _ => None end).

Definition HasCtx (e : Env) (s : MemoryStore) (key : string) : MemoryStore * bool :=
  let '(s', v) := GetCtx e s key in (s', bool_decide (is_Some v)).

Definition PutCtx (e : Env) (s : MemoryStore) (key : string) (v : Value) (ttl : Z)
    : MemoryStore * option CacheError :=
  match checkValueSize s v with
  | Some err => (s, Some err)
  | None => (setLocked e 0 s (prefixedKey s key) v
               (expirationFor (now e 0) ttl), None)
  end.

Definition ForeverCtx (e : Env) (s : MemoryStore) (key : string) (v : Value)
    : MemoryStore * option CacheError :=
  match checkValueSize s v with
  | Some err => (s, Some err)
  | None => (setLocked e 0 s (prefixedKey s key) v None, None)
  end.

(** The live entry under a key, read at [t]. *)
Definition live_entry (s : MemoryStore) (t : Z) (key : string) : option cacheItem :=
  match items s !! key with
  | Some it => if alive t (expiration it) then Some it else None
  | None => None
  end.

Definition AddCtx (e : Env) (s : MemoryStore) (key : string) (v : Value) (ttl : Z)
    : MemoryStore * result CacheError bool :=
  match checkValueSize s v with
  | Some err => (s, Err err)
  | None =>
      match live_entry s (now e 0) (prefixedKey s key) with
      | Some _ => (s, Ok false)
      | None => (setLocked e 0 s (prefixedKey s key) v
                   (expirationFor (now e 1) ttl), Ok true)
      end
  end.

Definition ReplaceCtx (e : Env) (s : MemoryStore) (key : string) (v : Value) (ttl : Z)
    : MemoryStore * result CacheError bool :=
  match checkValueSize s v with
  | Some err => (s, Err err)
  | None =>
      match live_entry s (now e 0) (prefixedKey s key) with
      | None => (s, Ok false)
      | Some _ => (setLocked e 0 s (prefixedKey s key) v
                     (expirationFor (now e 1) ttl), Ok true)
      end
  end.

Definition CompareAndSwapCtx (e : Env) (s : MemoryStore) (key : string) (expected v : Value)
    (ttl : Z) : MemoryStore * result CacheError bool :=
  match checkValueSize s v with
  | Some err => (s, Err err)
  | None =>
      match live_entry s (now e 0) (prefixedKey s key) with
      | None => (s, Ok false)
      | Some it =>
          if DeepEqual (value it) expected then
            (setLocked e 0 s (prefixedKey s key) v
               (expirationFor (now e 1) ttl), Ok true)
          else (s, Ok false)
      end
  end.

Definition CompareAndDeleteCtx (e : Env) (s : MemoryStore) (key : string) (expected : Value)
    : MemoryStore * bool :=
  match live_entry s (now e 0) (prefixedKey s key) with
  | None => (s, false)
  | Some it =>
      if DeepEqual (value it) expected then (removeLocked s (prefixedKey s key), true)
      else (s, false)
  end.

Definition ForgetCtx (s : MemoryStore) (key : string) : MemoryStore :=
  match items s !! prefixedKey s key with
  | Some _ => removeLocked s (prefixedKey s key)
  | None => s
  end.

Definition FlushCtx (s : MemoryStore) : MemoryStore := with_items s ∅.

Definition IncrementCtx (e : Env) (s : MemoryStore) (key : string) (delta : Z)
    : MemoryStore * result CacheError Z :=
  let live := live_entry s (now e 0) (prefixedKey s key) in
  match match live with Some it => increment_base (value it) | None => Some 0 end with
  | None => (s, Err ErrNotNumeric)
  | Some current =>
      let newValue := wrap64 (current + delta) in
      (setLocked e 0 s (prefixedKey s key) (VInt64 newValue)
         (match live with Some it => expiration it | None => None end), Ok newValue)
  end.

Definition DecrementCtx (e : Env) (s : MemoryStore) (key : string) (delta : Z)
    : MemoryStore * result CacheError Z :=
  IncrementCtx e s key (wrap64 (- delta)).

(** ManyCtx reads the clock once. *)
Fixpoint many_loop (t : Z) (s : MemoryStore) (keys : list string) (acc : gmap string Value)
    : MemoryStore * gmap string Value :=
  match keys with
  | [] => (s, acc)
  | key :: keys' =>
      match live_entry s t (prefixedKey s key) with
      | Some it => many_loop t (touch_at s (prefixedKey s key) it) keys' (<[key := value it]> acc)
      | None => many_loop t s keys' acc
      end
  end.

Definition ManyCtx (e : Env) (s : MemoryStore) (keys : list string)
    : MemoryStore * gmap string Value :=
  many_loop (now e 0) s keys ∅.

(** PutManyCtx: sizes are checked before anything is stored, and every entry
    has its own clock reading. *)
Fixpoint first_error (s : MemoryStore) (l : list (string * Value)) : option CacheError :=
  match l with
  | [] => None
  | (_, v) :: l' => match checkValueSize s v with Some err => Some err | None => first_error s l' end
  end.

Fixpoint put_loop (e : Env) (n : nat) (s : MemoryStore) (ttl : Z) (l : list (string * Value))
    : MemoryStore :=
  match l with
  | [] => s
  | (key, v) :: l' =>
      put_loop e (S n) (setLocked e n s (prefixedKey s key) v (expirationFor (now e n) ttl)) ttl l'
  end.

Definition PutManyCtx (e : Env) (s : MemoryStore) (kvs : gmap string Value) (ttl : Z)
    : MemoryStore * option CacheError :=
  let l := order_values e (map_to_list kvs) in
  match first_error s l with
  | Some err => (s, Some err)
  | None => (put_loop e O s ttl l, None)
  end.
(** ** Sets *)

Definition liveSetLocked (s : MemoryStore) (t : Z) (key : string) : option (gset string) :=
  match live_entry s t key with
  | Some it => match value it with VSet set => Some set | _ => None end
  | None => None
  end.

(** The expiry is extend-only on a live set. *)
Definition extended (current exp : option Z) : option Z :=
  match current, exp with
  | None, _ => None
  | Some c, Some x => if x <? c then current else exp
  | Some _, None => None
  end.

Definition SetAddCtx (e : Env) (s : MemoryStore) (key : string) (ttl : Z) (members : list string)
    : MemoryStore :=
  match members with
  | [] => s
  | _ =>
      let k := prefixedKey s key in
      let exp := expirationFor (now e 0) ttl in
      match liveSetLocked s (now e 1) k with
      | None => setLocked e 0 s k (VSet (list_to_set members)) exp
      | Some set =>
          let current := match items s !! k with Some it => expiration it | None => None end in
          setLocked e 0 s k (VSet (set ∪ list_to_set members)) (extended current exp)
      end
  end.

Definition SetRemoveCtx (e : Env) (s : MemoryStore) (key : string) (members : list string)
    : MemoryStore :=
  match members with
  | [] => s
  | _ =>
      let k := prefixedKey s key in
      match liveSetLocked s (now e 0) k with
      | None => s
      | Some set =>
          let next := set ∖ list_to_set members in
          if bool_decide (next = ∅) then with_items s (delete k (items s))
          else with_items s
                 (alter (fun it => mkItem (VSet next) (expiration it) (lastAccess it)) k (items s))
      end
  end.

(** The order of the members is unspecified: the set of them. *)
Definition SetMembersCtx (e : Env) (s : MemoryStore) (key : string) : gset string :=
  default ∅ (liveSetLocked s (now e 0) (prefixedKey s key)).

(** ** Remember (helpers.go) *)

(** The callback runs between the read and the write, outside the mutex: [mid]
    is what the store becomes while it runs.  [None] is an error of the
    callback; nothing is written then. *)
Definition RememberFromE (eg ep : Env) (s : MemoryStore) (key : string) (ttl : Z)
    (mid : MemoryStore -> MemoryStore) (callback : option Value)
    : MemoryStore * result (option CacheError) Value :=
  match GetCtx eg s key with
  | (s, Some v) => (s, Ok v)
  | (s, None) =>
      let s := mid s in
      match callback with
      | None => (s, Err None)
      | Some v =>
          match PutCtx ep s key v ttl with
          | (s, None) => (s, Ok v)
          | (s, Some err) => (s, Err (Some err))
          end
      end
  end.

Definition RememberFrom (eg ep : Env) (s : MemoryStore) (key : string) (ttl : Z)
    (mid : MemoryStore -> MemoryStore) (callback : Value)
    : MemoryStore * result (option CacheError) Value :=
  RememberFromE eg ep s key ttl mid (Some callback).

Definition RememberForeverFromE (eg ep : Env) (s : MemoryStore) (key : string)
    (mid : MemoryStore -> MemoryStore) (callback : option Value)
    : MemoryStore * result (option CacheError) Value :=
  match GetCtx eg s key with
  | (s, Some v) => (s, Ok v)
  | (s, None) =>
      let s := mid s in
      match callback with
      | None => (s, Err None)
      | Some v =>
          match ForeverCtx ep s key v with
          | (s, None) => (s, Ok v)
          | (s, Some err) => (s, Err (Some err))
          end
      end
  end.

End operations.
