(* ===== verification/CacheSpec.v ===== *)
(** * What the in-memory cache promises

    Theorems about CacheMemory.v.  Every operation is a sequence of four
    primitive changes ([micro]): storing an entry, stamping one that was hit,
    dropping entries, and replacing a value in place.  The invariants are
    proved for the primitive changes and carried to every history of
    operations. *)

From Stdlib Require Import Ascii String.
From S2P Require Import Prelude GoStrings CacheMemory.
Local Open Scope string_scope.
Local Open Scope list_scope.
Local Open Scope Z_scope.

(** ** Eviction *)

Lemma sample_elem left t victim l k :
  sample left t victim l = Some k -> k ∈ l.*1 \/ fst <$> victim = Some k.
Proof.
  revert left victim. induction l as [|[k' it] l IH]; intros [|left] victim; csimpl; auto.
  destruct (past t (expiration it)).
  { intros [= ->]. left. left. }
  intros [Hk|Hk]%IH; [left; by right|].
  destruct victim as [[vk vs]|]; [case_match|]; csimpl in *; simplify_eq; auto; left; left.
Qed.

Lemma sample_some left t victim l :
  (is_Some victim \/ (0 < left)%nat /\ l <> []) -> is_Some (sample left t victim l).
Proof.
  revert left victim. induction l as [|[k' it] l IH]; intros [|left] victim; csimpl.
  - intros [[? ->]|[? ?]]; [by eexists|lia].
  - intros [[? ->]|[? ?]]; [by eexists|done].
  - intros [[? ->]|[? ?]]; [by eexists|lia].
  - intros _. destruct (past _ _); [by eexists|]. apply IH. left.
    repeat case_match; by eexists.
Qed.

Lemma order_keys e n i (m : gmap string cacheItem) k :
  k ∈ (order e n i (map_to_list m)).*1 <-> is_Some (m !! k).
Proof. rewrite (order_perm e n i (map_to_list m)). apply elem_of_keys. Qed.

Lemma evict_spec e n i s :
  items s <> ∅ ->
  exists k it, items s !! k = Some it
    /\ evictSampledLocked e n i s = (with_items s (delete k (items s)), true).
Proof.
  intros Hne. unfold evictSampledLocked.
  destruct (sample_some evictionSampleSize (evict_now e n i) None
              (order e n i (map_to_list (items s)))) as [k Hk].
  { right. split; [unfold evictionSampleSize; lia|]. intros Hnil.
    apply Hne, map_to_list_empty_iff, Permutation_nil_r.
    rewrite <- (order_perm e n i), Hnil. done. }
  rewrite Hk. apply sample_elem in Hk as [Hk|Hk]; [|done].
  apply order_keys in Hk as [it Hit]. eauto.
Qed.

Lemma size_delete_some (m : gmap string cacheItem) k it :
  m !! k = Some it -> (size (delete k m) = size m - 1)%nat.
Proof. intros H. rewrite map_size_delete, H. simpl. lia. Qed.

Lemma evict_loop_config fuel e n i s :
  let s' := evict_loop fuel e n i s in
  prefix s' = prefix s /\ accessSeq s' = accessSeq s /\ maxEntries s' = maxEntries s
  /\ maxValueBytes s' = maxValueBytes s /\ items s' ⊆ items s.
Proof.
  simpl. revert i s. induction fuel as [|fuel IH]; intros i s; [done|]. simpl.
  destruct (_ <? _); [done|]. unfold evictSampledLocked.
  destruct (sample _ _ _ _) as [k|]; [|done].
  destruct (IH (S i) (with_items s (delete k (items s)))) as (-> & -> & -> & -> & Hsub).
  split_and!; try done. etrans; [exact Hsub|]. apply delete_subseteq.
Qed.

Lemma evict_loop_room fuel e n i s :
  0 < maxEntries s -> (size (items s) < fuel)%nat ->
  Z.of_nat (size (items (evict_loop fuel e n i s))) < maxEntries s.
Proof.
  revert i s. induction fuel as [|fuel IH]; intros i s Hm Hf; [lia|]. simpl.
  destruct (Z.ltb_spec (Z.of_nat (size (items s))) (maxEntries s)); [done|].
  destruct (evict_spec e n i s) as (k & it & Hk & ->).
  { intros He. rewrite He, map_size_empty in *. lia. }
  pose proof (map_size_ne_0_lookup_2 (items s) k ltac:(by eexists)) as Hs.
  apply (IH (S i) (with_items s (delete k (items s)))); [done|].
  simpl. rewrite (size_delete_some _ _ _ Hk). lia.
Qed.

Lemma evict_loop_idle fuel e n i s :
  Z.of_nat (size (items s)) < maxEntries s -> evict_loop fuel e n i s = s.
Proof. intros H. destruct fuel; simpl; [done|]. by rewrite (proj2 (Z.ltb_lt _ _) H). Qed.

(** ** Storing an entry *)

Lemma touch_at_items s key it :
  items (touch_at s key it)
  = <[key := mkItem (value it) (expiration it)
               (if 0 <? maxEntries s then next_seq s else lastAccess it)]> (items s).
Proof.
  unfold touch_at, touch. destruct it as [v x la]. by destruct (0 <? maxEntries s).
Qed.

Lemma touch_at_config s key it :
  prefix (touch_at s key it) = prefix s /\ maxEntries (touch_at s key it) = maxEntries s
  /\ maxValueBytes (touch_at s key it) = maxValueBytes s.
Proof. unfold touch_at, touch. by destruct (0 <? maxEntries s). Qed.

(** The store an insertion of a new key starts from. *)
Definition after_eviction (e : Env) (n : nat) (s : MemoryStore) : MemoryStore :=
  if 0 <? maxEntries s then evict_loop (S (size (items s))) e n O s else s.

Lemma after_eviction_config e n s :
  prefix (after_eviction e n s) = prefix s /\ accessSeq (after_eviction e n s) = accessSeq s
  /\ maxEntries (after_eviction e n s) = maxEntries s
  /\ maxValueBytes (after_eviction e n s) = maxValueBytes s
  /\ items (after_eviction e n s) ⊆ items s.
Proof.
  unfold after_eviction. destruct (0 <? maxEntries s); [apply evict_loop_config|done].
Qed.

Lemma after_eviction_idle e n s :
  maxEntries s <= 0 \/ Z.of_nat (size (items s)) < maxEntries s -> after_eviction e n s = s.
Proof.
  unfold after_eviction. intros [H|H].
  - by rewrite (proj2 (Z.ltb_ge _ _) H).
  - case_match; [by apply evict_loop_idle|done].
Qed.

Lemma setLocked_unfold e n s key v x :
  setLocked e n s key v x =
  match items s !! key with
  | Some it => touch_at s key (mkItem v x (lastAccess it))
  | None => touch_at (after_eviction e n s) key (mkItem v x 0)
  end.
Proof. unfold setLocked, after_eviction. by destruct (items s !! key). Qed.

Lemma setLocked_config e n s key v x :
  prefix (setLocked e n s key v x) = prefix s
  /\ maxEntries (setLocked e n s key v x) = maxEntries s
  /\ maxValueBytes (setLocked e n s key v x) = maxValueBytes s.
Proof.
  rewrite setLocked_unfold. destruct (items s !! key); [apply touch_at_config|].
  destruct (touch_at_config (after_eviction e n s) key (mkItem v x 0)) as (-> & -> & ->).
  by destruct (after_eviction_config e n s) as (-> & _ & -> & -> & _).
Qed.

Lemma setLocked_same e n s key v x :
  exists la, items (setLocked e n s key v x) !! key = Some (mkItem v x la).
Proof.
  rewrite setLocked_unfold. destruct (items s !! key);
    rewrite touch_at_items, lookup_insert_eq; by eexists.
Qed.

Lemma setLocked_other e n s key v x k :
  k <> key ->
  items (setLocked e n s key v x) !! k = items s !! k
  \/ items (setLocked e n s key v x) !! k = None /\ items s !! key = None
     /\ 0 < maxEntries s <= Z.of_nat (size (items s)).
Proof.
  intros Hne. rewrite setLocked_unfold. destruct (items s !! key) eqn:E;
    rewrite touch_at_items, lookup_insert_ne by done; [by left|].
  destruct (decide (maxEntries s <= 0 \/ Z.of_nat (size (items s)) < maxEntries s)) as [Hr|Hr].
  { left. by rewrite after_eviction_idle. }
  destruct (after_eviction_config e n s) as (_ & _ & _ & _ & Hsub).
  destruct (items (after_eviction e n s) !! k) eqn:Ek.
  - left. symmetry. by eapply lookup_weaken.
  - right. split_and!; [done|done|lia|lia].
Qed.

Lemma setLocked_size e n s key v x :
  0 < maxEntries s -> Z.of_nat (size (items s)) <= maxEntries s ->
  Z.of_nat (size (items (setLocked e n s key v x))) <= maxEntries s.
Proof.
  intros Hm Hs. rewrite setLocked_unfold. destruct (items s !! key) as [it|] eqn:E;
    rewrite touch_at_items.
  - by rewrite map_size_insert, E.
  - pose proof (evict_loop_room (S (size (items s))) e n 0 s Hm ltac:(lia)) as Hr.
    unfold after_eviction. rewrite (proj2 (Z.ltb_lt _ _) Hm), map_size_insert.
    generalize dependent (evict_loop (S (size (items s))) e n 0 s). intros s' Hr.
    destruct (items s' !! key); unfold id; lia.
Qed.

(** ** Histories *)

Inductive op :=
  | OGet (k : string) | OPut (k : string) (v : Value) (ttl : Z) | OForever (k : string) (v : Value)
  | OAdd (k : string) (v : Value) (ttl : Z) | OReplace (k : string) (v : Value) (ttl : Z)
  | OSwap (k : string) (x v : Value) (ttl : Z) | OSwapDelete (k : string) (x : Value)
  | OForget (k : string) | OFlush | OIncr (k : string) (d : Z) | ODecr (k : string) (d : Z)
  | OMany (ks : list string) | OPutMany (kvs : gmap string Value) (ttl : Z)
  | OSetAdd (k : string) (ttl : Z) (ms : list string) | OSetRemove (k : string) (ms : list string)
  | OSweep.

(** At most this many entries are stamped. *)
Definition cost (o : op) : nat :=
  match o with
  | OMany ks => List.length ks
  | OPutMany kvs _ => size kvs
  | _ => 1
  end.

Section histories.
Context `{GV : GoValues}.

Definition step (e : Env) (s : MemoryStore) (o : op) : MemoryStore :=
  match o with
  | OGet k => (GetCtx e s k).1
  | OPut k v ttl => (PutCtx e s k v ttl).1
  | OForever k v => (ForeverCtx e s k v).1
  | OAdd k v ttl => (AddCtx e s k v ttl).1
  | OReplace k v ttl => (ReplaceCtx e s k v ttl).1
  | OSwap k x v ttl => (CompareAndSwapCtx e s k x v ttl).1
  | OSwapDelete k x => (CompareAndDeleteCtx e s k x).1
  | OForget k => ForgetCtx s k
  | OFlush => FlushCtx s
  | OIncr k d => (IncrementCtx e s k d).1
  | ODecr k d => (DecrementCtx e s k d).1
  | OMany ks => (ManyCtx e s ks).1
  | OPutMany kvs ttl => (PutManyCtx e s kvs ttl).1
  | OSetAdd k ttl ms => SetAddCtx e s k ttl ms
  | OSetRemove k ms => SetRemoveCtx e s k ms
  | OSweep => sweepExpired e s
  end.

Definition exec (s : MemoryStore) (h : list (Env * op)) : MemoryStore :=
  foldl (fun s '(e, o) => step e s o) s h.

Definition total_cost (h : list (Env * op)) : Z := foldr (fun eo z => Z.of_nat (cost eo.2) + z) 0 h.

(** The primitive changes. *)
Inductive micro (s : MemoryStore) : MemoryStore -> Prop :=
  | micro_set e n key v x : micro s (setLocked e n s key v x)
  | micro_touch key it : items s !! key = Some it -> micro s (touch_at s key it)
  | micro_drop m : m ⊆ items s -> micro s (with_items s m)
  | micro_value key v :
      micro s (with_items s (alter (fun it => mkItem v (expiration it) (lastAccess it)) key (items s))).

(** At most [n] primitive changes. *)
Inductive micros : nat -> MemoryStore -> MemoryStore -> Prop :=
  | micros_done n s : micros n s s
  | micros_step n s s' s'' : micro s s' -> micros n s' s'' -> micros (S n) s s''.

Lemma micros_one s s' : micro s s' -> micros 1 s s'.
Proof. intros H. econstructor; [done|constructor]. Qed.

Lemma micros_add n m s s' s'' : micros n s s' -> micros m s' s'' -> micros (n + m) s s''.
Proof.
  induction 1 as [n s|n s s1 s2 H1 H2 IH]; intros H; simpl; [|econstructor; eauto].
  clear -H. revert n. induction H; intros k; [constructor|].
  rewrite Nat.add_succ_r. econstructor; eauto.
Qed.

Lemma live_entry_some s t k it : live_entry s t k = Some it -> items s !! k = Some it.
Proof. unfold live_entry. repeat case_match; naive_solver. Qed.

Lemma many_loop_micros t s ks acc : micros (List.length ks) s (many_loop t s ks acc).1.
Proof.
  revert s acc. induction ks as [|k ks IH]; intros s acc; simpl; [constructor|].
  destruct (live_entry s t (prefixedKey s k)) as [it|] eqn:E.
  - econstructor; [apply micro_touch; by eapply live_entry_some|apply IH].
  - apply (micros_add 1 _ s s); [constructor|apply IH].
Qed.

Lemma put_loop_micros e n s ttl l : micros (List.length l) s (put_loop e n s ttl l).
Proof.
  revert n s. induction l as [|[k v] l IH]; intros n s; simpl; [constructor|].
  econstructor; [apply micro_set|apply IH].
Qed.

Lemma step_micros e s o : micros (cost o) s (step e s o).
Proof.
  destruct o; cbn [step cost];
    try (unfold PutCtx, ForeverCtx, AddCtx, ReplaceCtx, CompareAndSwapCtx, IncrementCtx,
         DecrementCtx, IncrementCtx, SetAddCtx;
         repeat case_match; first [constructor|apply micros_one, micro_set]).
  - unfold GetCtx. repeat case_match; simpl; try constructor. by apply micros_one, micro_touch.
  - unfold CompareAndDeleteCtx. repeat case_match; simpl; try constructor.
    apply micros_one, micro_drop, delete_subseteq.
  - unfold ForgetCtx. case_match; [|constructor]. apply micros_one, micro_drop, delete_subseteq.
  - apply micros_one, micro_drop, map_empty_subseteq.
  - apply many_loop_micros.
  - unfold PutManyCtx. case_match; simpl; [constructor|].
    rewrite <- length_map_to_list, <- (Permutation_length (order_values_perm e (map_to_list kvs))).
    apply put_loop_micros.
  - unfold SetRemoveCtx. repeat case_match; try constructor; apply micros_one.
    + apply micro_drop, delete_subseteq.
    + apply micro_value.
  - apply micros_one, micro_drop, map_filter_subseteq.
Qed.

(** ** The cap *)

Definition bounded (s : MemoryStore) : Prop :=
  0 < maxEntries s -> Z.of_nat (size (items s)) <= maxEntries s.

Lemma micro_bounded s s' : micro s s' -> bounded s -> maxEntries s' = maxEntries s /\ bounded s'.
Proof.
  unfold bounded. intros [e n key v x|key it Hit|m Hm|key v] Hb.
  - destruct (setLocked_config e n s key v x) as (_ & -> & _). split; [done|]. intros H.
    apply setLocked_size; auto.
  - destruct (touch_at_config s key it) as (_ & -> & _). split; [done|]. intros H.
    rewrite touch_at_items, map_size_insert, Hit. by apply Hb.
  - split; [done|]. simpl. intros H. apply map_subseteq_size in Hm. specialize (Hb H). lia.
  - split; [done|]. simpl. intros H. by rewrite map_size_alter; auto.
Qed.

Lemma micros_bounded n s s' : micros n s s' -> bounded s -> maxEntries s' = maxEntries s /\ bounded s'.
Proof.
  induction 1 as [|n s s1 s2 H1 H2 IH]; intros Hb; [done|].
  destruct (micro_bounded _ _ H1 Hb) as [<- Hb1]. by apply IH.
Qed.

Lemma exec_bounded s h : bounded s -> maxEntries (exec s h) = maxEntries s /\ bounded (exec s h).
Proof.
  unfold exec. revert s. induction h as [|[e o] h IH]; intros s Hb; simpl; [done|].
  destruct (micros_bounded _ _ _ (step_micros e s o) Hb) as [<- Hb1]. by apply IH.
Qed.

(** ** Access stamps *)

(** Stamps are distinct and not ahead of the sequence: two entries are never
    equally recent. *)
Definition stamps_ok (s : MemoryStore) : Prop :=
  (forall k it, items s !! k = Some it -> 0 <= lastAccess it <= accessSeq s)
  /\ (forall k1 k2 it1 it2, items s !! k1 = Some it1 -> items s !! k2 = Some it2 ->
        lastAccess it1 = lastAccess it2 -> k1 = k2).

Lemma next_seq_small s : 0 <= accessSeq s -> accessSeq s + 1 < two64 -> next_seq s = accessSeq s + 1.
Proof. intros. unfold next_seq. rewrite Z.mod_small; lia. Qed.

Lemma stamps_touch s key it :
  0 < maxEntries s -> 0 <= accessSeq s -> accessSeq s + 1 < two64 -> stamps_ok s ->
  stamps_ok (touch_at s key it) /\ accessSeq (touch_at s key it) = accessSeq s + 1.
Proof.
  intros Hm H0 H1 [Hle Hinj].
  assert (Hseq : accessSeq (touch_at s key it) = accessSeq s + 1).
  { unfold touch_at, touch. rewrite (proj2 (Z.ltb_lt _ _) Hm). simpl. by apply next_seq_small. }
  split; [|done]. unfold stamps_ok. rewrite Hseq, touch_at_items, (proj2 (Z.ltb_lt _ _) Hm).
  rewrite next_seq_small by done. split.
  - intros k it'. rewrite lookup_insert. case_decide; [intros [= <-]; simpl; lia|].
    intros Hk%Hle. lia.
  - intros k1 k2 it1 it2. rewrite !lookup_insert. repeat case_decide; subst; try done.
    + intros [= <-] Hk%Hle Heq. simpl in Heq. lia.
    + intros Hk%Hle [= <-] Heq. simpl in Heq. lia.
    + apply Hinj.
Qed.

Lemma stamps_drop s m : m ⊆ items s -> stamps_ok s -> stamps_ok (with_items s m).
Proof.
  intros Hm [Hle Hinj]. split; simpl.
  - intros k it Hk. eapply Hle, lookup_weaken; done.
  - intros k1 k2 it1 it2 H1 H2. eapply Hinj; by eapply lookup_weaken.
Qed.

Lemma stamps_weaken s s' :
  items s' ⊆ items s -> accessSeq s' = accessSeq s -> stamps_ok s -> stamps_ok s'.
Proof.
  intros Hm Hs Hok. destruct (stamps_drop s (items s') Hm Hok) as [Hle Hinj].
  split; [|exact Hinj]. rewrite Hs. exact Hle.
Qed.

Lemma micro_stamps s s' :
  micro s s' -> 0 < maxEntries s -> 0 <= accessSeq s -> accessSeq s + 1 < two64 -> stamps_ok s ->
  stamps_ok s' /\ accessSeq s <= accessSeq s' <= accessSeq s + 1.
Proof.
  intros [e n key v x|key it Hit|m Hm|key v] Hmax H0 H1 Hok.
  - rewrite setLocked_unfold. destruct (items s !! key).
    + edestruct (stamps_touch s key) as [Ha ->]; [done..|]. split; [exact Ha|lia].
    + destruct (after_eviction_config e n s) as (_ & Hseq & Hme & _ & Hsub).
      edestruct (stamps_touch (after_eviction e n s) key) as [Ha ->]; [lia..| |].
      * by eapply stamps_weaken.
      * split; [exact Ha|lia].
  - edestruct (stamps_touch s key it) as [Ha ->]; [done..|]. split; [exact Ha|lia].
  - split; [by apply stamps_drop|simpl; lia].
  - split; [|simpl; lia]. destruct Hok as [Hle Hinj].
    assert (Hl : forall k it, items (with_items s (alter (fun it => mkItem v (expiration it)
              (lastAccess it)) key (items s))) !! k = Some it ->
              exists it', items s !! k = Some it' /\ lastAccess it' = lastAccess it).
    { intros k it. simpl. rewrite lookup_alter. case_decide; [|by eauto].
      subst. destruct (items s !! k) as [it'|]; [|done]. simpl. intros [= <-]. eauto. }
    split.
    + intros k it (it' & Hk & <-)%Hl. by eapply Hle.
    + intros k1 k2 it1 it2 (i1 & Hk1 & <-)%Hl (i2 & Hk2 & <-)%Hl. by eapply Hinj.
Qed.

Lemma micros_stamps n s s' :
  micros n s s' -> 0 < maxEntries s -> bounded s -> 0 <= accessSeq s ->
  accessSeq s + Z.of_nat n < two64 -> stamps_ok s ->
  stamps_ok s' /\ accessSeq s <= accessSeq s' <= accessSeq s + Z.of_nat n.
Proof.
  induction 1 as [n s|n s s1 s2 H1 H2 IH]; intros Hm Hb H0 Hn Hok; [split; [done|lia]|].
  destruct (micro_bounded _ _ H1 Hb) as [Hm1 Hb1].
  destruct (micro_stamps _ _ H1) as [Hok1 Hs1]; [lia..|done|].
  destruct IH as [Hok2 Hs2]; [lia|done|lia|lia|done|]. split; [done|lia].
Qed.

Lemma exec_stamps s h :
  0 < maxEntries s -> bounded s -> 0 <= accessSeq s ->
  accessSeq s + total_cost h < two64 -> stamps_ok s -> stamps_ok (exec s h).
Proof.
  unfold exec. revert s. induction h as [|[e o] h IH]; intros s Hm Hb H0 Hc Hok; [done|].
  cbn [foldl total_cost foldr snd] in *. fold (total_cost h) in Hc.
  assert (0 <= total_cost h) by (clear; unfold total_cost; induction h; simpl; lia).
  destruct (micros_bounded _ _ _ (step_micros e s o) Hb) as [Hm1 Hb1].
  destruct (micros_stamps _ _ _ (step_micros e s o)) as [Hok1 Hs1]; [lia|done|lia|lia|done|].
  apply IH; [lia|done|lia|lia|done].
Qed.

(** Sampling the whole map finds the least recent entry. *)
Lemma sample_least left t victim l k :
  (List.length l <= left)%nat -> Forall (fun p => past t (expiration p.2) = false) l ->
  sample left t victim l = Some k ->
  exists z, (victim = Some (k, z) \/ exists it, (k, it) ∈ l /\ lastAccess it = z)
    /\ (forall p, p ∈ l -> z <= lastAccess p.2)
    /\ (forall vk vz, victim = Some (vk, vz) -> z <= vz).
Proof.
  revert left victim. induction l as [|[k' it] l IH]; intros left victim Hlen Hp Hs.
  - destruct left, victim as [[vk vz]|]; csimpl in *; simplify_eq; exists vz; split_and!;
      [by left|by intros ? ?%elem_of_nil|by intros ?? [= -> ->]; lia
      |by left|by intros ? ?%elem_of_nil|by intros ?? [= -> ->]; lia].
  - destruct left as [|left]; csimpl in *; [lia|]. apply Forall_cons in Hp as [Hpast Hp].
    simpl in Hpast. rewrite Hpast in Hs. apply IH in Hs as (z & Hz & Hall & Hv); [|lia|done].
    exists z. split_and!.
    + destruct Hz as [Hz|(it' & Hin & <-)]; [|right; exists it'; split; [by right|done]].
      destruct victim as [[vk vs]|]; [destruct (lastAccess it <? vs)|]; simplify_eq;
        first [by left|right; exists it; split; [by left|done]].
    + intros p [->|Hin]%elem_of_cons; [|by apply Hall]. simpl.
      destruct victim as [[vk vs]|]; [destruct (Z.ltb_spec (lastAccess it) vs)|];
        [by eapply Hv|etrans; [by eapply Hv|lia]|by eapply Hv].
    + intros vk vz ->. destruct (Z.ltb_spec (lastAccess it) vz);
        [etrans; [by eapply Hv|lia]|by eapply Hv].
Qed.

Lemma new_store_facts pre n b :
  let s := NewMemoryStore pre [WithMaxEntries n; WithMaxValueBytes b] in
  0 <= n ->
  maxEntries s = (if 0 <? n then n else DefaultMaxEntries) /\ 0 < maxEntries s
  /\ bounded s /\ stamps_ok s /\ accessSeq s = 0.
Proof.
  simpl. intros Hn.
  assert (Hm : (if 0 <? n then n else if n <? 0 then 0 else DefaultMaxEntries)
               = (if 0 <? n then n else DefaultMaxEntries)).
  { destruct (Z.ltb_spec 0 n); [done|]. by rewrite (proj2 (Z.ltb_ge _ _) Hn). }
  rewrite Hm. split_and!; try done.
  - unfold DefaultMaxEntries. destruct (Z.ltb_spec 0 n); lia.
  - unfold bounded. simpl. rewrite map_size_empty. lia.
Qed.

(** ** Keys *)

Lemma PrefixKey_inj pre k1 k2 : PrefixKey pre k1 = PrefixKey pre k2 -> k1 = k2.
Proof.
  unfold PrefixKey. destruct (String.eqb pre ""); [done|].
  by intros ?%(inj (String.append pre))%(inj (String.append ":")).
Qed.

(** What GetCtx returns is a function of the entry and the first reading. *)
Lemma GetCtx_result e s key :
  (GetCtx e s key).2 =
  match items s !! prefixedKey s key with
  | Some it => if past (now e 0) (expiration it) then None else Some (value it)
  | None => None
  end.
Proof. unfold GetCtx. repeat case_match; done. Qed.

Lemma prefixedKey_set e n s key v x k :
  prefixedKey (setLocked e n s key v x) k = prefixedKey s k.
Proof. unfold prefixedKey. by destruct (setLocked_config e n s key v x) as (-> & _). Qed.

(** An entry as a client sees it: its value and its deadline. *)
Definition entry (s : MemoryStore) (key : string) : option (Value * option Z) :=
  (fun it => (value it, expiration it)) <$> items s !! prefixedKey s key.

Lemma entry_set e n s key v x :
  entry (setLocked e n s (prefixedKey s key) v x) key = Some (v, x).
Proof.
  unfold entry. rewrite prefixedKey_set.
  destruct (setLocked_same e n s (prefixedKey s key) v x) as [la ->]. done.
Qed.

Lemma live_entry_entry s t key :
  match live_entry s t (prefixedKey s key) with
  | Some it => entry s key = Some (value it, expiration it) /\ alive t (expiration it) = true
  | None => forall v x, entry s key = Some (v, x) -> alive t x = false
  end.
Proof.
  unfold live_entry, entry. destruct (items s !! prefixedKey s key) as [it|]; [|done].
  simpl. destruct (alive t (expiration it)) eqn:E; [done|]. by intros v x [= <- <-].
Qed.

(** ** Theorems *)

(** C16: a store built with a cap of [n] entries ([0] picks the default cap)
    never holds more, whatever history of operations it goes through, whatever
    the clock shows and in whatever order Go iterates over the map. *)
Theorem store_never_exceeds_cap pre n b h :
  0 <= n ->
  Z.of_nat (size (items (exec (NewMemoryStore pre [WithMaxEntries n; WithMaxValueBytes b]) h)))
  <= (if 0 <? n then n else DefaultMaxEntries).
Proof.
  intros Hn. destruct (new_store_facts pre n b Hn) as (Hm & Hpos & Hb & _).
  destruct (exec_bounded _ h Hb) as [Hm' Hb']. rewrite <- Hm, <- Hm'. apply Hb'. by rewrite Hm'.
Qed.

(** in a store that holds at most as many entries as one eviction samples,
    none of them expired, eviction is exact LRU: whatever order the map is
    iterated in, it removes the one entry whose last access is older than that
    of every other entry.  (The access sequence is a 64-bit counter: the
    history makes fewer than 2^64 accesses.) *)
Theorem small_store_evicts_least_recent pre n b h e m i :
  let s := exec (NewMemoryStore pre [WithMaxEntries n; WithMaxValueBytes b]) h in
  0 <= n -> total_cost h < two64 -> items s <> ∅ -> (size (items s) <= evictionSampleSize)%nat ->
  (forall k it, items s !! k = Some it -> past (evict_now e m i) (expiration it) = false) ->
  exists k it, items s !! k = Some it
    /\ evictSampledLocked e m i s = (with_items s (delete k (items s)), true)
    /\ forall k' it', items s !! k' = Some it' -> k' <> k -> lastAccess it < lastAccess it'.
Proof.
  intros s Hn Hc Hne Hsize Hp. destruct (new_store_facts pre n b Hn) as (_ & Hpos & Hb & Hst & Hseq).
  assert (Hok : stamps_ok s) by (apply exec_stamps; [done|done|lia|lia|done]).
  set (l := order e m i (map_to_list (items s))).
  assert (Hl : forall k it, (k, it) ∈ l <-> items s !! k = Some it).
  { intros k it. subst l. rewrite (order_perm e m i). apply elem_of_map_to_list. }
  destruct (evict_spec e m i s Hne) as (k & it & Hk & Hev).
  exists k, it. split_and!; [done|done|]. unfold evictSampledLocked in Hev. fold l in Hev.
  destruct (sample _ _ _ l) as [k0|] eqn:Es; [|done]. injection Hev as Hdel.
  assert (k0 = k) as ->.
  { destruct (decide (k0 = k)) as [|Hne']; [done|]. exfalso.
    assert (delete k0 (items s) !! k = None) as Hx by (rewrite Hdel; apply lookup_delete_eq).
    rewrite lookup_delete_ne in Hx by done. congruence. }
  apply sample_least in Es as (z & [?|(it0 & Hin & <-)] & Hall & _); [done| | |].
  - assert (it0 = it) as -> by (apply Hl in Hin; congruence).
    intros k' it' Hk' Hne'. pose proof (Hall (k', it') (proj2 (Hl _ _) Hk')) as Hle. simpl in Hle.
    destruct (Z.eq_dec (lastAccess it) (lastAccess it')) as [Heq|]; [|lia].
    destruct Hne'. symmetry. by eapply (proj2 Hok).
  - subst l. rewrite (Permutation_length (order_perm e m i _)), length_map_to_list. done.
  - apply Forall_forall. intros [k' it'] Hin. by eapply Hp, Hl.
Qed.

(** a value that was stored is read back until its deadline and never
    after it (a ttl of 0 or less never expires), and every other key still
    reads as before the write unless the store was full and had to evict for a
    new key. *)
Theorem put_then_get e e' s key v ttl s' :
  PutCtx e s key v ttl = (s', None) ->
  (GetCtx e' s' key).2 = (if past (now e' 0) (expirationFor (now e 0) ttl) then None else Some v)
  /\ forall k, k <> key ->
       (GetCtx e' s' k).2 = (GetCtx e' s k).2
       \/ (GetCtx e' s' k).2 = None /\ entry s key = None
          /\ 0 < maxEntries s <= Z.of_nat (size (items s)).
Proof.
  unfold PutCtx. destruct (checkValueSize s v); [done|]. intros [= <-]. split.
  - rewrite GetCtx_result, prefixedKey_set.
    by destruct (setLocked_same e 0 s (prefixedKey s key) v (expirationFor (now e 0) ttl)) as [la ->].
  - intros k Hk. rewrite !GetCtx_result, prefixedKey_set.
    destruct (setLocked_other e 0 s (prefixedKey s key) v (expirationFor (now e 0) ttl) (prefixedKey s k))
      as [->|(-> & Hn & Hfull)]; [by intros ?%PrefixKey_inj|by left|].
    right. unfold entry. rewrite Hn. done.
Qed.

(** A sequence of AddCtx calls on one key, as the mutex orders concurrent
    callers, with what each returned. *)
Fixpoint run_adds (s : MemoryStore) (key : string) (l : list (Env * Value * Z))
    : MemoryStore * list (result CacheError bool) :=
  match l with
  | [] => (s, [])
  | (e, v, ttl) :: l' =>
      let '(s, r) := AddCtx e s key v ttl in
      let '(s, rs) := run_adds s key l' in (s, r :: rs)
  end.

Lemma adds_lose s key v x l :
  entry s key = Some (v, x) -> Forall (fun a => alive (now a.1.1 0) x = true) l ->
  Forall (fun a => checkValueSize s a.1.2 = None) l ->
  run_adds s key l = (s, replicate (List.length l) (Ok false)).
Proof.
  intros Hs. induction l as [|[[e v'] ttl] l IH]; intros Ha Hc; [done|].
  apply Forall_cons in Ha as [Ha1 Ha], Hc as [Hc1 Hc]. simpl in *. unfold AddCtx. rewrite Hc1.
  pose proof (live_entry_entry s (now e 0) key) as Hl. destruct (live_entry _ _ _).
  - by rewrite IH.
  - apply Hl in Hs. congruence.
Qed.

(** of any number of concurrent adds of one key, whatever order the mutex
    runs them in, exactly one succeeds, the first to run, as long as they run
    before the deadline it sets; its value and deadline stay in place. *)
Theorem exactly_one_add_wins s key e v ttl l :
  checkValueSize s v = None -> Forall (fun a => checkValueSize s a.1.2 = None) l ->
  (forall v' x, entry s key = Some (v', x) -> alive (now e 0) x = false) ->
  Forall (fun a => alive (now a.1.1 0) (expirationFor (now e 1) ttl) = true) l ->
  exists s', run_adds s key ((e, v, ttl) :: l) = (s', Ok true :: replicate (List.length l) (Ok false))
    /\ entry s' key = Some (v, expirationFor (now e 1) ttl).
Proof.
  intros Hc Hcl Hdead Hl. cbn [run_adds]. unfold AddCtx. rewrite Hc.
  pose proof (live_entry_entry s (now e 0) key) as Hle. destruct (live_entry _ _ _) as [it|].
  { destruct Hle as [He Hal]. apply Hdead in He. congruence. }
  set (s1 := setLocked e 0 s (prefixedKey s key) v (expirationFor (now e 1) ttl)).
  assert (He : entry s1 key = Some (v, expirationFor (now e 1) ttl)) by apply entry_set.
  exists s1. rewrite (adds_lose s1 key _ _ l He Hl); [done|].
  eapply Forall_impl; [exact Hcl|]. intros a. unfold checkValueSize. subst s1.
  by destruct (setLocked_config e 0 s (prefixedKey s key) v (expirationFor (now e 1) ttl)) as (_ & _ & ->).
Qed.

(** A sequence of IncrementCtx calls on one key. *)
Fixpoint run_increments (s : MemoryStore) (key : string) (l : list (Env * Z)) : MemoryStore :=
  match l with
  | [] => s
  | (e, d) :: l' => run_increments (IncrementCtx e s key d).1 key l'
  end.

Lemma increment_live e s key n x d :
  entry s key = Some (VInt64 n, x) -> alive (now e 0) x = true ->
  (IncrementCtx e s key d).2 = Ok (wrap64 (n + d))
  /\ entry (IncrementCtx e s key d).1 key = Some (VInt64 (wrap64 (n + d)), x).
Proof.
  intros He Ha. unfold IncrementCtx.
  pose proof (live_entry_entry s (now e 0) key) as Hl. destruct (live_entry _ _ _) as [it|].
  - destruct Hl as [Hl _]. rewrite He in Hl. injection Hl as <- ->. simpl. split; [done|].
    apply entry_set.
  - apply Hl in He. congruence.
Qed.

Lemma wrap64_add a b : wrap64 (wrap64 a + b) = wrap64 (a + b).
Proof.
  unfold wrap64. f_equal.
  replace ((a + two63) mod two64 - two63 + b + two63) with ((a + two63) mod two64 + b) by lia.
  rewrite Zplus_mod_idemp_l. f_equal. lia.
Qed.

(** concurrent increments of a live counter lose no update: after any
    sequence of them the counter holds the start value plus the sum of all
    increments, in 64-bit arithmetic, and its deadline has not moved. *)
Theorem increments_accumulate s key n x l :
  entry s key = Some (VInt64 n, x) -> in_int64 n ->
  Forall (fun a => alive (now a.1 0) x = true) l ->
  entry (run_increments s key l) key
  = Some (VInt64 (wrap64 (n + foldr (fun a z => a.2 + z) 0 l)), x).
Proof.
  intros He Hn Ha. rewrite <- (wrap64_small n Hn) in He. revert s n He Hn.
  induction Ha as [|[e d] l Ha1 Ha IH]; intros s n He Hn; simpl in *.
  - by rewrite Z.add_0_r.
  - rewrite Z.add_assoc. destruct (increment_live e s key _ x d He Ha1) as [_ Hi].
    rewrite wrap64_add in Hi. rewrite <- (wrap64_add (n + d)). apply IH; [|apply wrap64_range].
    rewrite Hi. do 3 f_equal. by rewrite (wrap64_small (wrap64 (n + d))) by auto with go.
Qed.

(** adding members to a set yields the union with what the set held while
    live, and never shortens its life: the deadline becomes the later of the
    old one and now + ttl, and a set without a deadline stays without one. *)
Theorem set_add_extends e s key ttl ms set x :
  ms <> [] -> entry s key = Some (VSet set, x) -> alive (now e 1) x = true ->
  entry (SetAddCtx e s key ttl ms) key
  = Some (VSet (set ∪ list_to_set ms),
          match x, expirationFor (now e 0) ttl with
          | Some c, Some d => Some (Z.max c d)
          | _, _ => None
          end).
Proof.
  intros Hms He Ha. unfold SetAddCtx. destruct ms as [|m ms]; [done|].
  unfold liveSetLocked. pose proof (live_entry_entry s (now e 1) key) as Hl.
  destruct (live_entry _ _ _) as [it|] eqn:E; [|apply Hl in He; congruence].
  destruct Hl as [Hl _]. rewrite He in Hl. injection Hl as <- ->.
  rewrite (live_entry_some _ _ _ _ E), entry_set. do 2 f_equal. unfold extended.
  destruct (expiration it) as [c|], (expirationFor (now e 0) ttl) as [d|]; try done.
  destruct (Z.ltb_spec d c); f_equal; lia.
Qed.

End histories.

(** ** Concrete stores *)

#[export] Instance plain_values : GoValues := {
  float_trunc z := z; float_eq := Z.eqb; other_eq := Z.eqb; marshal_len _ := Some 1
}.

Definition env_at (t : Z) : Env :=
  mkEnv (fun _ => t) (fun _ _ => t) (fun _ _ l => l) (fun l => l)
    (fun _ _ _ => reflexivity _) (fun _ => reflexivity _).

Definition small_history : list (Env * op) :=
  [(env_at 1, OPut "a" (VInt64 1) 0); (env_at 2, OPut "b" (VInt64 2) 0);
   (env_at 3, OGet "a"); (env_at 4, OPut "c" (VInt64 3) 0)].

Lemma store_never_exceeds_cap_witness :
  Z.of_nat (size (items (exec (NewMemoryStore "" [WithMaxEntries 2; WithMaxValueBytes 0]) small_history)))
  <= 2.
Proof. apply (store_never_exceeds_cap "" 2 0 small_history). lia. Defined.

Lemma small_store_evicts_least_recent_witness :
  let s := exec (NewMemoryStore "" [WithMaxEntries 2; WithMaxValueBytes 0]) small_history in
  (exists k it, items s !! k = Some it
    /\ evictSampledLocked (env_at 5) 0 0 s = (with_items s (delete k (items s)), true)
    /\ forall k' it', items s !! k' = Some it' -> k' <> k -> lastAccess it < lastAccess it')
  /\ items (evictSampledLocked (env_at 5) 0 0 s).1 !! "a" = None.
Proof.
  split; [|vm_compute; reflexivity].
  apply (small_store_evicts_least_recent "" 2 0 small_history).
  - lia.
  - reflexivity.
  - discriminate.
  - vm_compute. lia.
  - intros k it Hk. apply elem_of_map_to_list in Hk. vm_compute in Hk.
    repeat (apply elem_of_cons in Hk as [Hk|Hk]; [by injection Hk as -> ->|]).
    by apply elem_of_nil in Hk.
Defined.

Definition abc_store : MemoryStore :=
  exec (NewMemoryStore "app" []) [(env_at 1, OPut "a" (VInt64 1) 10); (env_at 1, OPut "b" (VInt64 7) 0)].

Lemma put_then_get_witness :
  (GetCtx (env_at 15) (PutCtx (env_at 9) abc_store "a" (VString "x") 10).1 "a").2 = Some (VString "x").
Proof.
  apply (put_then_get (env_at 9) (env_at 15) abc_store "a" (VString "x") 10). reflexivity.
Defined.

Lemma exactly_one_add_wins_witness :
  exists s', run_adds abc_store "lock" [(env_at 5, VInt 1, 10); (env_at 6, VInt 2, 10); (env_at 7, VInt 3, 10)]
    = (s', [Ok true; Ok false; Ok false]) /\ entry s' "lock" = Some (VInt 1, Some 15).
Proof.
  apply (exactly_one_add_wins abc_store "lock" (env_at 5) (VInt 1) 10
           [(env_at 6, VInt 2, 10); (env_at 7, VInt 3, 10)]).
  - reflexivity.
  - repeat constructor.
  - intros v x H. vm_compute in H. discriminate.
  - repeat constructor.
Defined.

Lemma increments_accumulate_witness :
  entry (run_increments abc_store "a" [(env_at 2, 5); (env_at 3, -2)]) "a"
  = Some (VInt64 4, Some 11).
Proof.
  apply (increments_accumulate abc_store "a" 1 (Some 11) [(env_at 2, 5); (env_at 3, -2)]).
  - reflexivity.
  - width.
  - repeat constructor.
Defined.

Lemma set_add_extends_witness :
  entry (SetAddCtx (env_at 2) (SetAddCtx (env_at 1) abc_store "s" 100 ["x"; "y"]) "s" 5 ["z"]) "s"
  = Some (VSet {["x"; "y"; "z"]}, Some 101).
Proof.
  rewrite (set_add_extends (env_at 2) (SetAddCtx (env_at 1) abc_store "s" 100 ["x"; "y"]) "s" 5 ["z"]
             {["x"; "y"]} (Some 101)).
  - vm_compute. reflexivity.
  - discriminate.
  - vm_compute. reflexivity.
  - reflexivity.
Defined.

(** The two notions of "expired" disagree at the deadline itself: at that
    very instant GetCtx still returns the value, ManyCtx misses it, and AddCtx
    counts it as absent and overwrites it. *)
Theorem deadline_instant_is_ambiguous :
  let s := (PutCtx (env_at 0) (NewMemoryStore "" []) "k" (VInt64 1) 10).1 in
  (GetCtx (env_at 10) s "k").2 = Some (VInt64 1)
  /\ (ManyCtx (env_at 10) s ["k"]).2 = ∅
  /\ (AddCtx (env_at 10) s "k" (VInt64 2) 10).2 = Ok true.
Proof. vm_compute. repeat split. Qed.
