(* ===== verification/CacheLock.v ===== *)
(** * Cache locks

    Models cache/drivers/memory_lock.go and cache/drivers/lock_run.go: the
    in-memory lock store, the lock objects over it, and the two ways to run a
    callback under a lock.  A context is what the code asks of it, whether it
    is cancelled at the moment it is asked ([true]).  RunLock and BlockLock are
    written against [lockRunner], as in the source, and MemoryLock is an
    instance of it. *)

From Stdlib Require Import Ascii String.
From S2P Require Import Prelude GoStrings CacheMemory.
Local Open Scope string_scope.
Local Open Scope list_scope.
Local Open Scope Z_scope.

(** ** The lock store *)

Record memoryLockEntry := mkLockEntry { le_owner : string; expiresAt : option Z }.

Notation memoryLockStore := (gmap string memoryLockEntry).
Definition newMemoryLockStore : memoryLockStore := ∅.

(** acquire reads the clock at [clk 0] for an entry with a deadline and at
    [clk 1] for the new one. *)
Definition acquire (clk : Clock) (s : memoryLockStore) (key owner : string) (ttl : Z)
    : memoryLockStore * bool :=
  let taken := match s !! key with
               | Some en => negb (past (clk 0%nat) (expiresAt en))
               | None => false
               end in
  if taken then (s, false)
  else (<[key := mkLockEntry owner (if 0 <? ttl then Some (clk 1%nat + ttl) else None)]>
          (delete key s), true).

Definition release (s : memoryLockStore) (key owner : string) : memoryLockStore * bool :=
  match s !! key with
  | None => (s, false)
  | Some en => if String.eqb (le_owner en) owner then (delete key s, true) else (s, false)
  end.

Definition forceRelease (s : memoryLockStore) (key : string) : memoryLockStore := delete key s.

(** ** Locks *)

Record MemoryLock := mkLock { l_key : string; l_owner : string; l_ttl : Z }.

Inductive LockError := ErrInvalidLockTTL | ErrLockNotAcquired | ErrLockTimeout | ErrContext.

Definition Lock (pre key uuid : string) (ttl : Z) : MemoryLock :=
  mkLock (PrefixKey pre ("lock:" +:+ key)) uuid ttl.

Definition RestoreLock (pre key owner : string) : MemoryLock :=
  mkLock (PrefixKey pre ("lock:" +:+ key)) owner 0.

Definition GetWithErr (clk : Clock) (cancelled : bool) (s : memoryLockStore) (l : MemoryLock)
    : memoryLockStore * result LockError bool :=
  if cancelled then (s, Ok false)
  else if l_ttl l <=? 0 then (s, Err ErrInvalidLockTTL)
  else let '(s', b) := acquire clk s (l_key l) (l_owner l) (l_ttl l) in (s', Ok b).

Definition Get (clk : Clock) (cancelled : bool) (s : memoryLockStore) (l : MemoryLock)
    : memoryLockStore * bool :=
  match GetWithErr clk cancelled s l with
  | (s', Ok b) => (s', b)
  | (s', Err _) => (s', false)
  end.

Definition Release (cancelled : bool) (s : memoryLockStore) (l : MemoryLock)
    : memoryLockStore * bool :=
  if cancelled then (s, false) else release s (l_key l) (l_owner l).

Definition ForceRelease (cancelled : bool) (s : memoryLockStore) (l : MemoryLock)
    : memoryLockStore * option LockError :=
  if cancelled then (s, Some ErrContext) else (forceRelease s (l_key l), None).

(** ** Running under a lock *)

(** The lock surface RunLock and BlockLock need, over a world [W] that holds
    the lock store and whatever the callback changes. *)
Class lockRunner (W : Type) := {
  lr_get : Clock -> bool -> W -> W * bool;
  lr_release : bool -> W -> W * bool
}.

Section run.
Context {W : Type} `{LR : lockRunner W}.

(** [before] and [after] say whether the context is cancelled when the lock is
    taken and when it is released. *)
Definition RunLock (clk : Clock) (before after : bool) (callback : W -> W) (w : W)
    : W * option LockError :=
  match lr_get clk before w with
  | (w, false) => (w, Some ErrLockNotAcquired)
  | (w, true) => ((lr_release after (callback w)).1, None)
  end.

(** The retry loop.  Attempt [i]: [ctx_err i] is the check before it, [clk i]
    the readings of the attempt, [timer i] the reading of the timeout check
    after it, [ctx_done i] whether the context ends during the pause, [others i]
    what the rest of the program does to the world during the pause. *)
Record Schedule := mkSchedule {
  ctx_err : nat -> bool;
  attempt_clk : nat -> Clock;
  timer : nat -> Z;
  ctx_done : nat -> bool;
  others : nat -> W -> W;
  at_release : bool
}.

Definition lockBlockRetryInterval : Z := 100 * MILLISECOND.

Fixpoint blockLoop (fuel : nat) (sc : Schedule) (deadline : Z) (callback : W -> W) (i : nat) (w : W)
    : option (W * option LockError) :=
  match fuel with
  | O => None
  | S fuel' =>
      if ctx_err sc i then Some (w, Some ErrContext)
      else match lr_get (attempt_clk sc i) (ctx_err sc i) w with
           | (w, true) => Some ((lr_release (at_release sc) (callback w)).1, None)
           | (w, false) =>
               if deadline <? timer sc i then Some (w, Some ErrLockTimeout)
               else if ctx_done sc i then Some (w, Some ErrContext)
               else blockLoop fuel' sc deadline callback (S i) (others sc i w)
           end
  end.

Definition BlockLock (fuel : nat) (sc : Schedule) (start timeout : Z) (callback : W -> W) (w : W)
    : option (W * option LockError) :=
  blockLoop fuel sc (start + timeout) callback 0 w.

Lemma blockLoop_total fuel sc deadline callback i w :
  (forall j, timer sc j + lockBlockRetryInterval <= timer sc (S j)) ->
  (deadline - timer sc i < Z.of_nat fuel * lockBlockRetryInterval - lockBlockRetryInterval) ->
  (0 < fuel)%nat ->
  is_Some (blockLoop fuel sc deadline callback i w).
Proof.
  intros Hstep. revert i w. induction fuel as [|fuel IH]; intros i w Hd Hf; [lia|]. simpl.
  destruct (ctx_err sc i); [by eexists|]. destruct (lr_get _ _ w) as [w' []]; [by eexists|].
  destruct (Z.ltb_spec deadline (timer sc i)); [by eexists|].
  destruct (ctx_done sc i); [by eexists|]. specialize (Hstep i).
  unfold lockBlockRetryInterval, MILLISECOND in *. apply IH; [lia|].
  destruct fuel; [lia|lia].
Qed.

(** C24: BlockLock always returns: when every pause lasts at least the retry
    interval it makes at most timeout / 100ms + 2 attempts, whatever the lock
    and the rest of the program do. *)
Theorem block_lock_terminates sc start timeout callback w :
  0 <= timeout -> start <= timer sc 0 ->
  (forall j, timer sc j + lockBlockRetryInterval <= timer sc (S j)) ->
  is_Some (BlockLock (Z.to_nat (timeout / lockBlockRetryInterval) + 2) sc start timeout callback w).
Proof.
  intros Ht H0 Hstep. apply blockLoop_total; [done| |lia].
  pose proof (Z.mod_pos_bound timeout lockBlockRetryInterval ltac:(done)) as Hb.
  pose proof (Z.div_mod timeout lockBlockRetryInterval ltac:(done)) as He.
  pose proof (Z.div_pos timeout lockBlockRetryInterval Ht ltac:(done)) as Hp.
  rewrite Nat2Z.inj_add, Z2Nat.id by done.
  unfold lockBlockRetryInterval, MILLISECOND in *. lia.
Qed.

End run.
Arguments Schedule : clear implicits.

(** A MemoryLock over a world that contains its lock store. *)
#[export] Instance memory_lock_runner {W} (l : MemoryLock)
    (store : W -> memoryLockStore) (set_store : memoryLockStore -> W -> W) : lockRunner W := {
  lr_get clk cancelled w := let '(s, b) := Get clk cancelled (store w) l in (set_store s w, b);
  lr_release cancelled w := let '(s, b) := Release cancelled (store w) l in (set_store s w, b)
}.

(** ** Mutual exclusion *)

(** What other lock users do: try to take a lock, or release one they own. *)
Inductive lock_op :=
  | LAcquire (clk : Clock) (key owner : string) (ttl : Z)
  | LRelease (key owner : string).

Definition lock_step (s : memoryLockStore) (o : lock_op) : memoryLockStore * bool :=
  match o with
  | LAcquire clk key owner ttl => acquire clk s key owner ttl
  | LRelease key owner => release s key owner
  end.

Fixpoint lock_run (s : memoryLockStore) (l : list lock_op) : memoryLockStore * list bool :=
  match l with
  | [] => (s, [])
  | o :: l' =>
      let '(s, b) := lock_step s o in
      let '(s, bs) := lock_run s l' in (s, b :: bs)
  end.

(** The operation is not the owner's own release, and runs while the hold
    lasts. *)
Definition contender (key owner : string) (deadline : option Z) (o : lock_op) : Prop :=
  match o with
  | LAcquire clk _ _ _ => past (clk 0%nat) deadline = false
  | LRelease _ owner' => owner' <> owner
  end.

(** Did the operation obtain or drop the lock of [key]? *)
Definition touched (key : string) (ob : lock_op * bool) : bool :=
  match ob with
  | (LAcquire _ k _ _, b) | (LRelease k _, b) => b && String.eqb k key
  end.

Lemma insert_delete_other (s : memoryLockStore) k key en :
  k <> key -> <[k := en]> (delete k s) !! key = s !! key.
Proof. intros. by rewrite lookup_insert_ne, lookup_delete_ne. Qed.

Lemma contender_step s key owner deadline o :
  s !! key = Some (mkLockEntry owner deadline) -> contender key owner deadline o ->
  (lock_step s o).1 !! key = s !! key /\ touched key (o, (lock_step s o).2) = false.
Proof.
  intros Hs Hc. destruct o as [clk k ow ttl|k ow]; simpl in *.
  - unfold acquire. destruct (String.eqb_spec k key) as [->|Hne].
    + rewrite Hs. cbn [expiresAt]. by rewrite Hc.
    + destruct (match s !! k with Some _ => _ | None => _ end); simpl; [done|].
      rewrite insert_delete_other by done. done.
  - unfold release. destruct (String.eqb_spec k key) as [->|Hne].
    + rewrite Hs. cbn [le_owner]. destruct (String.eqb_spec owner ow); [congruence|done].
    + destruct (s !! k) as [en|]; [|done]. destruct (String.eqb _ _); [|done].
      simpl. by rewrite lookup_delete_ne.
Qed.

(** C20: a lock taken with a positive ttl is held by nobody else until its
    deadline: through any interleaving of attempts to take it and of releases
    by other owners, every one of them fails on that key, and at the end the
    holder can still release it. *)
Theorem lock_mutual_exclusion clk s key owner ttl s' l :
  acquire clk s key owner ttl = (s', true) -> 0 < ttl ->
  Forall (contender key owner (Some (clk 1%nat + ttl))) l ->
  Forall (fun ob => touched key ob = false) (zip l (lock_run s' l).2)
  /\ release (lock_run s' l).1 key owner = (delete key (lock_run s' l).1, true).
Proof.
  intros Ha Ht Hl.
  assert (Hs : s' !! key = Some (mkLockEntry owner (Some (clk 1%nat + ttl)))).
  { unfold acquire in Ha. destruct (match s !! key with Some _ => _ | None => _ end); [done|].
    injection Ha as <-. rewrite lookup_insert_eq, (proj2 (Z.ltb_lt _ _) Ht). done. }
  clear Ha. revert s' Hs. induction Hl as [|o l Ho Hl IH]; intros s' Hs; simpl.
  - split; [constructor|]. unfold release. rewrite Hs. cbn [le_owner]. by rewrite String.eqb_refl.
  - destruct (contender_step s' key owner _ o Hs Ho) as [Hk Ht'].
    destruct (lock_step s' o) as [s1 b]. cbn [fst snd] in *. rewrite Hs in Hk.
    destruct (IH s1 Hk) as [IH1 IH2]. destruct (lock_run s1 l) as [s2 bs]. simpl in *.
    split; [by constructor|done].
Qed.

Lemma lock_mutual_exclusion_witness :
  (lock_run (acquire (fun _ => 0) ∅ "k" "me" 10).1
     [LAcquire (fun _ => 5) "k" "you" 10; LRelease "k" "you"]).2 = [false; false]
  /\ Forall (fun ob => touched "k" ob = false)
       (zip [LAcquire (fun _ => 5) "k" "you" 10; LRelease "k" "you"]
          (lock_run (acquire (fun _ => 0) ∅ "k" "me" 10).1
             [LAcquire (fun _ => 5) "k" "you" 10; LRelease "k" "you"]).2).
Proof.
  split; [vm_compute; reflexivity|].
  apply (lock_mutual_exclusion (fun _ => 0) ∅ "k" "me" 10 (acquire (fun _ => 0) ∅ "k" "me" 10).1);
    [reflexivity|lia|].
  repeat constructor. discriminate.
Defined.

Definition sample_schedule : Schedule memoryLockStore :=
  mkSchedule (fun _ => false) (fun _ _ => 0) (fun i => Z.of_nat i * lockBlockRetryInterval)
    (fun _ => false) (fun _ w => w) false.

Lemma block_lock_terminates_witness :
  is_Some (@BlockLock _ (memory_lock_runner (mkLock "k" "you" 10) id (fun s _ => s)) 7
             sample_schedule 0 (5 * lockBlockRetryInterval) id
             (acquire (fun _ => 0) ∅ "k" "me" 10).1).
Proof.
  apply (@block_lock_terminates _ (memory_lock_runner (mkLock "k" "you" 10) id (fun s _ => s))
           sample_schedule 0 (5 * lockBlockRetryInterval)).
  - unfold lockBlockRetryInterval, MILLISECOND. lia.
  - simpl. lia.
  - intros j. cbn [sample_schedule timer]. unfold lockBlockRetryInterval, MILLISECOND. lia.
Defined.

(** RunLock does not always release: when the context is cancelled while
    the callback runs, the release is refused, RunLock still reports success,
    and the lock stays taken until it expires. *)
Theorem run_lock_leaks_on_cancel :
  let l := mkLock "k" "me" (30 * SECOND) in
  let run after := @RunLock _ (memory_lock_runner l id (fun s _ => s)) (fun _ => 0)
                     false after id newMemoryLockStore in
  (run false).1 !! "k" = None
  /\ (run true).2 = None
  /\ (run true).1 !! "k" = Some (mkLockEntry "me" (Some (30 * SECOND))).
Proof. vm_compute. repeat split. Qed.
