(* ===== verification/CacheStore.v ===== *)
(** * The cache contract its clients rely on

    contract.CacheStore, as far as the login throttler uses it: the operations
    as a type class, their promises about one key as a second class, and the
    proof that the in-memory store of CacheMemory.v keeps them.  Clients are
    verified against the classes only.

    An operation runs in an environment of type [E]; [cs_within e lo hi] says
    that every clock reading it makes lies between [lo] and [hi].  Nothing is
    promised about keys an operation does not name: a bounded store may evict
    them. *)

From Stdlib Require Import Ascii String.
From S2P Require Import Prelude GoStrings CacheMemory CacheSpec.
Local Open Scope string_scope.
Local Open Scope Z_scope.

Class CacheStore (St E : Type) := {
  cs_get : E -> St -> string -> St * option Value;
  cs_put : E -> St -> string -> Value -> Z -> St * option CacheError;
  cs_add : E -> St -> string -> Value -> Z -> St * result CacheError bool;
  cs_incr : E -> St -> string -> Z -> St * result CacheError Z;
  cs_forget : E -> St -> string -> St
}.

(** Not yet at its deadline at [hi]; past it at [lo]. *)
Definition lives (hi : Z) (x : option Z) : Prop :=
  match x with None => True | Some d => hi < d end.
Definition died (lo : Z) (x : option Z) : Prop :=
  match x with None => False | Some d => d < lo end.

(** No live entry under the key at any instant from [lo] on. *)
Definition vacant (lo : Z) (en : option (Value * option Z)) : Prop :=
  match en with None => True | Some (_, x) => died lo x end.

Class CacheLaws (St E : Type) `{CS : CacheStore St E} := {
  cs_entry : St -> string -> option (Value * option Z);
  cs_within : E -> Z -> Z -> Prop;
  (** The store takes 64-bit counters whatever its size limits. *)
  cs_counters : St -> Prop;
  law_get_live e s k v x lo hi :
    cs_within e lo hi -> cs_entry s k = Some (v, x) -> lives hi x ->
    (cs_get e s k).2 = Some v
    /\ cs_entry (cs_get e s k).1 k = Some (v, x) /\ (cs_counters s -> cs_counters (cs_get e s k).1);
  law_get_vacant e s k lo hi :
    cs_within e lo hi -> vacant lo (cs_entry s k) -> (cs_get e s k).2 = None;
  law_add_live e s k v x n ttl lo hi :
    cs_within e lo hi -> cs_counters s -> cs_entry s k = Some (v, x) -> lives hi x ->
    (cs_add e s k (VInt64 n) ttl).2 = Ok false
    /\ cs_entry (cs_add e s k (VInt64 n) ttl).1 k = Some (v, x)
    /\ cs_counters (cs_add e s k (VInt64 n) ttl).1;
  law_add_vacant e s k n ttl lo hi :
    cs_within e lo hi -> cs_counters s -> vacant lo (cs_entry s k) -> 0 < ttl ->
    (cs_add e s k (VInt64 n) ttl).2 = Ok true
    /\ (exists d, cs_entry (cs_add e s k (VInt64 n) ttl).1 k = Some (VInt64 n, Some d)
                  /\ lo + ttl <= d <= hi + ttl)
    /\ cs_counters (cs_add e s k (VInt64 n) ttl).1;
  law_incr_live e s k n x d lo hi :
    cs_within e lo hi -> cs_counters s -> cs_entry s k = Some (VInt64 n, x) -> lives hi x ->
    (cs_incr e s k d).2 = Ok (wrap64 (n + d))
    /\ cs_entry (cs_incr e s k d).1 k = Some (VInt64 (wrap64 (n + d)), x)
    /\ cs_counters (cs_incr e s k d).1;
  law_forget e s k :
    cs_entry (cs_forget e s k) k = None /\ (cs_counters s -> cs_counters (cs_forget e s k))
}.

(** ** The in-memory store keeps the contract *)

Section memory.
Context `{GV : GoValues}.

#[export] Instance memory_cache : CacheStore MemoryStore Env := {
  cs_get := GetCtx;
  cs_put := PutCtx;
  cs_add := AddCtx;
  cs_incr := IncrementCtx;
  cs_forget _ := ForgetCtx
}.

Definition memory_counters (s : MemoryStore) : Prop := forall n, checkValueSize s (VInt64 n) = None.

Lemma memory_counters_same s s' :
  maxValueBytes s' = maxValueBytes s -> memory_counters s -> memory_counters s'.
Proof. unfold memory_counters, checkValueSize. by intros ->. Qed.

Lemma memory_counters_set e n s key v x :
  memory_counters s -> memory_counters (setLocked e n s key v x).
Proof. apply memory_counters_same. by destruct (setLocked_config e n s key v x) as (_ & _ & ->). Qed.

Lemma memory_counters_touch s key it :
  memory_counters s -> memory_counters (touch_at s key it).
Proof. apply memory_counters_same. by destruct (touch_at_config s key it) as (_ & _ & ->). Qed.

Definition memory_within (e : Env) (lo hi : Z) : Prop := forall i, lo <= now e i <= hi.

Lemma lives_alive e lo hi x i : memory_within e lo hi -> lives hi x -> alive (now e i) x = true.
Proof.
  intros Hw Hl. specialize (Hw i). destruct x as [d|]; [|done]. simpl in *. apply Z.ltb_lt. lia.
Qed.

Lemma lives_not_past e lo hi x i : memory_within e lo hi -> lives hi x -> past (now e i) x = false.
Proof.
  intros Hw Hl. specialize (Hw i). destruct x as [d|]; [|done]. simpl in *. apply Z.ltb_ge. lia.
Qed.

Lemma vacant_dead e lo hi s k i :
  memory_within e lo hi -> vacant lo (entry s k) ->
  live_entry s (now e i) (prefixedKey s k) = None.
Proof.
  intros Hw Hv. unfold live_entry. unfold entry in Hv. specialize (Hw i).
  destruct (items s !! prefixedKey s k) as [it|]; [|done]. simpl in Hv.
  destruct (expiration it) as [d|]; [|done]. simpl in *. by rewrite (proj2 (Z.ltb_ge _ _)) by lia.
Qed.

Lemma live_item s k v x t :
  entry s k = Some (v, x) -> alive t x = true ->
  exists it, live_entry s t (prefixedKey s k) = Some it /\ value it = v /\ expiration it = x.
Proof.
  unfold entry, live_entry. destruct (items s !! prefixedKey s k) as [it|]; [|done].
  simpl. intros [= <- <-] ->. eauto.
Qed.

#[export] Program Instance memory_cache_laws : CacheLaws MemoryStore Env := {
  cs_entry := entry;
  cs_within := memory_within;
  cs_counters := memory_counters
}.
Next Obligation.
  intros e s k v x lo hi Hw He Hl. simpl. unfold GetCtx. unfold entry in He |- *.
  destruct (items s !! prefixedKey s k) as [it|] eqn:Ei; [|done]. simpl in He. injection He as <- <-.
  rewrite (lives_not_past e lo hi _ 0 Hw Hl). simpl. split; [done|].
  unfold prefixedKey. destruct (touch_at_config s (PrefixKey (prefix s) k) it) as (-> & _ & _).
  rewrite touch_at_items, lookup_insert_eq. split; [done|]. apply memory_counters_touch.
Qed.
Next Obligation.
  intros e s k lo hi Hw Hv. simpl. rewrite GetCtx_result. unfold entry in Hv.
  destruct (items s !! prefixedKey s k) as [it|]; [|done]. simpl in Hv. specialize (Hw 0%nat).
  destruct (expiration it) as [d|]; [|done]. simpl in *. by rewrite (proj2 (Z.ltb_lt _ _)) by lia.
Qed.
Next Obligation.
  intros e s k v x n ttl lo hi Hw Hc He Hl. simpl. unfold AddCtx. rewrite Hc.
  destruct (live_item s k v x (now e 0) He (lives_alive e lo hi x 0 Hw Hl)) as (it & -> & _). done.
Qed.
Next Obligation.
  intros e s k n ttl lo hi Hw Hc Hv Ht. simpl. unfold AddCtx. rewrite Hc.
  rewrite (vacant_dead e lo hi s k 0 Hw Hv). simpl. split_and!; [done| |by apply memory_counters_set].
  exists (now e 1 + ttl). rewrite entry_set. unfold expirationFor.
  rewrite (proj2 (Z.leb_gt _ _) Ht). specialize (Hw 1%nat). split; [done|lia].
Qed.
Next Obligation.
  intros e s k n x d lo hi Hw Hc He Hl. simpl.
  destruct (increment_live e s k n x d He (lives_alive e lo hi x 0 Hw Hl)) as [-> ->].
  split_and!; [done..|]. unfold IncrementCtx. case_match; [|done]. by apply memory_counters_set.
Qed.
Next Obligation.
  intros e s k. simpl. unfold ForgetCtx, entry, prefixedKey.
  destruct (items s !! PrefixKey (prefix s) k) eqn:Ei; simpl; [rewrite lookup_delete_eq|rewrite Ei]; done.
Qed.

End memory.
