(* ===== verification/LoginThrottle.v ===== *)
(** * Login throttling

    Models auth/throttle.go (the progressive delay, the per-process admission
    slots, the throttle keys), auth_throttle.go (the throttler that counts in
    a cache store) and auth/drivers/schemes/attempt.go (the credential-check
    phase of a login attempt).

    The cache throttler is verified against the contract of CacheStore.v.  An
    attempt counts itself with an add and, when that fails, an increment: two
    separate store operations, so concurrent attempts interleave between them.
    SHA-256, Unicode normalisation (golang.org/x/text) and case mapping, the
    user store and the hasher are parameters. *)

From Stdlib Require Import Ascii String.
From S2P Require Import Prelude GoStrings CacheMemory CacheSpec CacheStore.
Local Open Scope string_scope.
Local Open Scope list_scope.
Local Open Scope Z_scope.

(** ** The progressive delay *)

Definition DefaultIdentifierDelay : Z := SECOND.
Definition DefaultIdentifierDelayMax : Z := 30 * SECOND.

Definition ProgressiveDelay (excess base ceiling : Z) : Z :=
  if (excess <? 1) || (base <=? 0) then 0
  else
    let ceiling := if ceiling <=? 0 then DefaultIdentifierDelayMax else ceiling in
    if ceiling <=? base then ceiling
    else
      let shift := excess - 1 in
      if 40 <? shift then ceiling
      else
        let d := wrap64 (Z.shiftl base shift) in
        if (d <=? 0) || (ceiling <? d) then ceiling else d.

(** ** LocalLoginAdmitter *)

Definition localAdmitterSweepAt : nat := 1024.

(** The slot map; [now] is the one clock reading. *)
Definition Admit (slots : gmap string Z) (now : Z) (key : string) (hold : Z)
    : gmap string Z * bool :=
  if hold <=? 0 then (slots, true)
  else
    let slots := if (localAdmitterSweepAt <=? size slots)%nat
                 then filter (fun kv => now < kv.2) slots else slots in
    if match slots !! key with Some until => now <? until | None => false end then (slots, false)
    else (<[key := now + hold]> slots, true).

Definition Release (slots : gmap string Z) (key : string) : gmap string Z := delete key slots.

(** ** Throttle keys *)

Definition ThrottleKeyPairPrefix : string := "login:".
Definition ThrottleKeyIdentifierPrefix : string := "login:id:".
Definition ThrottleKeyIPPrefix : string := "login:ip:".
Definition maxIdentifierBytes : nat := 254.
Definition throttleKeySep : string := String (ascii_of_nat 31) "".

(** hex.EncodeToString *)
Definition hex_lower (n : nat) : ascii :=
  if (n <? 10)%nat then ascii_of_nat (48 + n) else ascii_of_nat (87 + n).

Fixpoint EncodeToString (bytes : list ascii) : string :=
  match bytes with
  | [] => ""
  | b :: rest =>
      String (hex_lower (nat_of_ascii b / 16)) (String (hex_lower (nat_of_ascii b mod 16))
        (EncodeToString rest))
  end.

(** A credential field: a string or something else. *)
Inductive Credential := CString (s : string) | COther.

(** What key derivation uses of other packages. *)
Class KeyDeps := {
  sha256 : string -> list ascii;
  nfkc : string -> string;
  to_lower : string -> string
}.

Section keys.
Context `{KD : KeyDeps}.

Fixpoint first_identifier (fields : list string) (credentials : gmap string Credential) : string :=
  match fields with
  | [] => ""
  | field :: rest =>
      match credentials !! field with
      | Some (CString s) =>
          let s := trim_space s in
          if String.eqb s "" then first_identifier rest credentials
          else str_take maxIdentifierBytes (to_lower (nfkc s))
      | _ => first_identifier rest credentials
      end
  end.

Definition normaliseIdentifier (credentials : gmap string Credential) : string :=
  first_identifier ["email"; "username"; "name"; "login"] credentials.

Definition digest (s : string) : string := EncodeToString (take 8 (sha256 s)).

Definition pairThrottleKey (ident ip : string) : string :=
  ThrottleKeyPairPrefix +:+ digest (ident +:+ throttleKeySep +:+ ip).

Definition ThrottleKey (credentials : gmap string Credential) (ip : string) : string :=
  pairThrottleKey (normaliseIdentifier credentials) ip.

Definition ThrottleKeys (credentials : gmap string Credential) (ip : string) : list string :=
  let ident := normaliseIdentifier credentials in
  [pairThrottleKey ident ip]
  ++ (if String.eqb ident "" then [] else [ThrottleKeyIdentifierPrefix +:+ digest ident])
  ++ (if String.eqb ip "" then [] else [ThrottleKeyIPPrefix +:+ digest ip]).

End keys.

(** ** The throttler over a cache store *)

Record cacheLoginThrottler := mkThrottler {
  maxAttempts : Z;
  identifierMaxAttempts : Z;
  ipMaxAttempts : Z;
  decay : Z;
  delayBase : Z;
  delayMax : Z
}.

Definition newCacheLoginThrottler (m i ip d : Z) : cacheLoginThrottler :=
  mkThrottler (if m <=? 0 then 5 else m) (if i <=? 0 then 20 else i) (if ip <=? 0 then 50 else ip)
    (if d <=? 0 then 60 * SECOND else d) DefaultIdentifierDelay DefaultIdentifierDelayMax.

Definition withDelay (t : cacheLoginThrottler) (base ceiling : Z) : cacheLoginThrottler :=
  let base := if base <? 0 then 0 else base in
  let ceiling := if ceiling <=? 0 then DefaultIdentifierDelayMax else ceiling in
  let ceiling := if ceiling <? base then base else ceiling in
  mkThrottler (maxAttempts t) (identifierMaxAttempts t) (ipMaxAttempts t) (decay t) base ceiling.

Definition limitFor (t : cacheLoginThrottler) (key : string) : Z :=
  if has_prefix ThrottleKeyIdentifierPrefix key then identifierMaxAttempts t
  else if has_prefix ThrottleKeyIPPrefix key then ipMaxAttempts t
  else maxAttempts t.

Definition loginThrottleTrialSuffix : string := ":trial".
Definition cacheKey (key : string) : string := "velocity:auth:login:" +:+ key.

Definition delayFor (t : cacheLoginThrottler) (excess : Z) : Z :=
  if delayBase t <=? 0 then 0 else ProgressiveDelay excess (delayBase t) (delayMax t).

(** strconv.ParseInt(n, 10, 64) with its error dropped: a value out of range
    is clamped, a malformed one is 0. *)
Definition parse_int (s : string) : Z :=
  let '(neg, body) := match s with
                      | String "-"%char s' => (true, s')
                      | String "+"%char s' => (false, s')
                      | _ => (false, s)
                      end in
  match body with
  | EmptyString => 0
  | _ => match digits_val 0 body with
         | None => 0
         | Some v => let v := if neg : bool then - v else v in
                     Z.max (- two63) (Z.min (two63 - 1) v)
         end
  end.

Definition numericCacheValue `{GoValues} (v : Value) : Z :=
  match v with
  | VInt64 n | VInt n | VInt32 n => n
  | VFloat64 f => float_trunc f
  | VString s => parse_int s
  | _ => 0
  end.

Section throttler.
Context `{GV : GoValues} {St E : Type} `{CS : CacheStore St E}.

Definition Allow (t : cacheLoginThrottler) (e : E) (s : St) (key : string) : St * bool :=
  match cs_get e s (cacheKey key) with
  | (s, None) => (s, true)
  | (s, Some count) => (s, numericCacheValue count <? limitFor t key)
  end.

(** countAttempt, its three store operations in the environments [e1], [e2]
    and [e3]. *)
Definition countAttempt (t : cacheLoginThrottler) (e1 e2 e3 : E) (s : St) (key : string)
    : St * result CacheError Z :=
  match cs_add e1 s (cacheKey key) (VInt64 1) (decay t) with
  | (s, Ok true) => (s, Ok 1)
  | (s, _) =>
      match cs_incr e2 s (cacheKey key) 1 with
      | (s, Err err) => (s, Err err)
      | (s, Ok count) =>
          if count =? 1 then ((cs_put e3 s (cacheKey key) (VInt64 1) (decay t)).1, Ok count)
          else (s, Ok count)
      end
  end.

(** What Reserve answers for a count, or for a store error (fails open). *)
Definition reserve_answer (t : cacheLoginThrottler) (key : string) (r : result CacheError Z)
    : bool * Z :=
  match r with
  | Err _ => (true, 0)
  | Ok count => if count <=? limitFor t key then (true, 0)
                else (false, delayFor t (count - limitFor t key))
  end.

Definition Reserve (t : cacheLoginThrottler) (e1 e2 e3 : E) (s : St) (key : string)
    : St * (bool * Z) :=
  let '(s, r) := countAttempt t e1 e2 e3 s key in (s, reserve_answer t key r).

Definition Delay (t : cacheLoginThrottler) (e : E) (s : St) (key : string) : St * Z :=
  if delayBase t <=? 0 then (s, 0)
  else match cs_get e s (cacheKey key) with
       | (s, None) => (s, 0)
       | (s, Some count) => (s, delayFor t (numericCacheValue count - limitFor t key))
       end.

Definition AdmitTrial (e : E) (s : St) (key : string) (hold : Z) : St * bool :=
  if hold <=? 0 then (s, true)
  else match cs_add e s (cacheKey key +:+ loginThrottleTrialSuffix) (VInt64 1) hold with
       | (s, Err _) => (s, true)
       | (s, Ok added) => (s, added)
       end.

Definition RecordFailure (t : cacheLoginThrottler) (e1 e2 e3 : E) (s : St) (key : string) : St :=
  (countAttempt t e1 e2 e3 s key).1.

Definition RecordSuccess (e1 e2 : E) (s : St) (key : string) : St :=
  cs_forget e2 (cs_forget e1 s (cacheKey key)) (cacheKey key +:+ loginThrottleTrialSuffix).

(** ** Concurrent attempts

    A thread runs countAttempt one store operation at a time. *)

Inductive thread := TStart | TIncr | TPut (count : Z) | TDone (r : result CacheError Z).

Definition thread_step (t : cacheLoginThrottler) (e : E) (s : St) (key : string) (th : thread)
    : St * thread :=
  match th with
  | TStart => match cs_add e s (cacheKey key) (VInt64 1) (decay t) with
              | (s, Ok true) => (s, TDone (Ok 1))
              | (s, _) => (s, TIncr)
              end
  | TIncr => match cs_incr e s (cacheKey key) 1 with
             | (s, Err err) => (s, TDone (Err err))
             | (s, Ok count) => (s, if count =? 1 then TPut count else TDone (Ok count))
             end
  | TPut count => ((cs_put e s (cacheKey key) (VInt64 1) (decay t)).1, TDone (Ok count))
  | TDone r => (s, TDone r)
  end.

(** Three steps of a thread that is alone are countAttempt. *)
Lemma thread_is_countAttempt t e1 e2 e3 s key :
  let '(s1, th1) := thread_step t e1 s key TStart in
  let '(s2, th2) := thread_step t e2 s1 key th1 in
  let '(s3, th3) := thread_step t e3 s2 key th2 in
  countAttempt t e1 e2 e3 s key = match th3 with TDone r => (s3, r) | _ => (s3, Ok 0) end.
Proof.
  simpl. unfold countAttempt. destruct (cs_add _ _ _ _ _) as [s1 [[]|]]; simpl; try done;
    destruct (cs_incr _ _ _ _) as [s2 [c|]]; try done; by destruct (c =? 1).
Qed.

(** A schedule names the thread that runs next and its environment. *)
Fixpoint run_threads (t : cacheLoginThrottler) (key : string) (schedule : list (nat * E))
    (s : St) (ths : list thread) : St * list thread :=
  match schedule with
  | [] => (s, ths)
  | (i, e) :: rest =>
      match ths !! i with
      | None => run_threads t key rest s ths
      | Some th =>
          let '(s', th') := thread_step t e s key th in
          run_threads t key rest s' (<[i := th']> ths)
      end
  end.

(** Is the attempt done and let through? *)
Definition let_through (t : cacheLoginThrottler) (key : string) (th : thread) : bool :=
  match th with TDone r => (reserve_answer t key r).1 | _ => false end.

(** The counts of the threads that are done. *)
Definition counts (ths : list thread) : list Z :=
  omap (fun th => match th with TDone (Ok c) => Some c | _ => None end) ths.

End throttler.

(** ** Counting under any interleaving *)

Section counting.
Context {St E : Type} `{CL : CacheLaws St E}.
Implicit Types (t : cacheLoginThrottler) (s : St) (e : E) (ths : list thread).

Definition undone (th : thread) : Prop := th = TStart \/ th = TIncr.

(** Nothing counted yet. *)
Definition fresh lo key s ths : Prop :=
  Forall (eq TStart) ths /\ vacant lo (cs_entry s (cacheKey key)) /\ cs_counters s.

(** The window's counter is live and equals the number of threads counted,
    which hold the counts 1, 2, ... in some order. *)
Definition counting hi key s ths : Prop :=
  exists x, lives hi x /\ cs_counters s
    /\ cs_entry s (cacheKey key) = Some (VInt64 (Z.of_nat (List.length (counts ths))), x)
    /\ (0 < List.length (counts ths))%nat
    /\ counts ths ≡ₚ seqZ 1 (Z.of_nat (List.length (counts ths)))
    /\ Forall (fun th => undone th \/ exists c, th = TDone (Ok c)) ths.

Lemma counts_insert_undone ths i th th' :
  ths !! i = Some th -> undone th -> undone th' -> counts (<[i := th']> ths) = counts ths.
Proof. intros Hi [->| ->] [->| ->]; by eapply omap_insert_same. Qed.

Lemma counts_insert_done ths i th c :
  ths !! i = Some th -> undone th -> counts (<[i := TDone (Ok c)]> ths) ≡ₚ c :: counts ths.
Proof. intros Hi [->| ->]; by eapply omap_insert_new. Qed.

Lemma counts_start ths : Forall (eq TStart) ths -> counts ths = [].
Proof. induction 1 as [|th ths <- _ IH]; [done|]. exact IH. Qed.

Lemma length_counts ths i th :
  ths !! i = Some th -> undone th -> (List.length (counts ths) < List.length ths)%nat.
Proof. intros Hi [->| ->]; by eapply length_omap_lt. Qed.

Lemma seqZ_snoc (m : nat) : seqZ 1 (Z.of_nat m) ++ [Z.of_nat m + 1] = seqZ 1 (Z.of_nat (S m)).
Proof. rewrite seqZ_S. f_equal. by rewrite Z.add_comm. Qed.

(** One more thread gets the next count. *)
Lemma counting_insert hi key s s' ths i th x :
  ths !! i = Some th -> undone th -> counts ths ≡ₚ seqZ 1 (Z.of_nat (List.length (counts ths))) ->
  Forall (fun th => undone th \/ exists c, th = TDone (Ok c)) ths ->
  lives hi x -> cs_counters s' ->
  cs_entry s' (cacheKey key) = Some (VInt64 (Z.of_nat (List.length (counts ths)) + 1), x) ->
  counting hi key s' (<[i := TDone (Ok (Z.of_nat (List.length (counts ths)) + 1))]> ths).
Proof.
  intros Hi Hu Hp Hf Hl Hc He. set (n := List.length (counts ths)) in *.
  pose proof (counts_insert_done ths i th (Z.of_nat n + 1) Hi Hu) as Hins.
  assert (Hlen : List.length (counts (<[i := TDone (Ok (Z.of_nat n + 1))]> ths)) = S n).
  { rewrite Hins. done. }
  exists x. rewrite Hlen. split_and!; [done|done| |lia| |].
  - rewrite He. do 3 f_equal. lia.
  - rewrite Hins, <- seqZ_snoc, Hp. subst n. rewrite <- Hp. apply Permutation_cons_append.
  - apply Forall_insert; [done|]. eauto.
Qed.

Lemma thread_counting t key lo hi e s ths i th :
  cs_within e lo hi -> Z.of_nat (List.length ths) < two63 -> counting hi key s ths ->
  ths !! i = Some th ->
  counting hi key (thread_step t e s key th).1 (<[i := (thread_step t e s key th).2]> ths).
Proof.
  intros Hw Hn (x & Hl & Hc & He & Hpos & Hp & Hf) Hi.
  pose proof (Forall_lookup_1 _ _ _ _ Hf Hi) as [[->| ->]|[c ->]]; cbn [thread_step].
  - destruct (law_add_live e s (cacheKey key) _ x 1 (decay t) lo hi Hw Hc He Hl) as (Hr & He' & Hc').
    destruct (cs_add e s (cacheKey key) (VInt64 1) (decay t)) as [s1 r]. simpl in *. subst r. simpl.
    exists x. rewrite (counts_insert_undone ths i TStart TIncr Hi) by (by left + by right).
    split_and!; try done. apply Forall_insert; [done|]. left. by right.
  - destruct (law_incr_live e s (cacheKey key) _ x 1 lo hi Hw Hc He Hl) as (Hr & He' & Hc').
    pose proof (length_counts ths i TIncr Hi ltac:(by right)) as Hlt.
    assert (Hwrap : wrap64 (Z.of_nat (List.length (counts ths)) + 1)
                    = Z.of_nat (List.length (counts ths)) + 1).
    { apply wrap64_small. auto with go. }
    rewrite Hwrap in *. destruct (cs_incr e s (cacheKey key) 1) as [s1 r]. simpl in *. subst r.
    destruct (Z.eqb_spec (Z.of_nat (List.length (counts ths)) + 1) 1); [lia|].
    eapply (counting_insert hi key s s1 ths i TIncr x); eauto. by right.
  - simpl. rewrite (list_insert_id ths i) by done. exists x. done.
Qed.

Lemma thread_fresh t key lo hi e s ths i th :
  cs_within e lo hi -> 0 < decay t -> hi < lo + decay t -> fresh lo key s ths -> ths !! i = Some th ->
  counting hi key (thread_step t e s key th).1 (<[i := (thread_step t e s key th).2]> ths).
Proof.
  intros Hw Hd Hhi (Hst & Hv & Hc) Hi.
  pose proof (Forall_lookup_1 _ _ _ _ Hst Hi) as <-. cbn [thread_step].
  destruct (law_add_vacant e s (cacheKey key) 1 (decay t) lo hi Hw Hc Hv Hd) as (Hr & (d & He & Hdl) & Hc').
  destruct (cs_add e s (cacheKey key) (VInt64 1) (decay t)) as [s1 r]. simpl in *. subst r. simpl.
  pose proof (counts_start ths Hst) as H0.
  pose proof (counting_insert hi key s s1 ths i TStart (Some d)) as Hins.
  rewrite H0 in Hins. simpl in Hins. apply Hins; try done.
  - by left.
  - eapply Forall_impl; [exact Hst|]. intros th <-. left. by left.
  - simpl. lia.
Qed.

Lemma run_threads_counting t key lo hi schedule s ths :
  Forall (fun ie => cs_within ie.2 lo hi) schedule -> Z.of_nat (List.length ths) < two63 ->
  0 < decay t -> hi < lo + decay t ->
  fresh lo key s ths \/ counting hi key s ths ->
  let '(s', ths') := run_threads t key schedule s ths in
  fresh lo key s' ths' \/ counting hi key s' ths'.
Proof.
  intros Hsch Hn Hd Hhi. revert s ths Hn.
  induction Hsch as [|[i e] rest Hw Hsch IH]; intros s ths Hn Hinv; simpl; [done|].
  destruct (ths !! i) as [th|] eqn:Hi; [|by apply IH].
  assert (Hc : counting hi key (thread_step t e s key th).1
                 (<[i := (thread_step t e s key th).2]> ths)).
  { destruct Hinv; [by eapply thread_fresh|by eapply thread_counting]. }
  destruct (thread_step t e s key th) as [s1 th1]. apply IH; [|by right].
  by rewrite length_insert.
Qed.

Lemma let_through_counts t key ths :
  Forall (fun th => undone th \/ exists c, th = TDone (Ok c)) ths ->
  List.length (filter (fun th => let_through t key th = true) ths)
  = List.length (filter (fun c => c <= limitFor t key) (counts ths)).
Proof.
  induction 1 as [|th ths Hth _ IH]; [done|]. unfold counts in *. simpl.
  destruct Hth as [[->| ->]|[c ->]]; csimpl; rewrite ?filter_cons; simpl; try done.
  destruct (Z.leb_spec c (limitFor t key)); simpl.
  - rewrite (decide_True (P := c <= _)) by done. simpl. by f_equal.
  - rewrite (decide_False (P := c <= _)) by lia. done.
Qed.

Lemma small_counts (n limit : Z) :
  (List.length (filter (fun c => (c <= limit)%Z) (seqZ 1 n)) <= Z.to_nat limit)%nat.
Proof.
  rewrite <- (length_seqZ 1 limit). apply submseteq_length, NoDup_submseteq.
  - apply NoDup_filter, NoDup_seqZ.
  - intros c [Hc Hin]%list_elem_of_filter. apply elem_of_seqZ in Hin. apply elem_of_seqZ. lia.
Qed.

(** C5: however many login attempts run at once, however their store
    operations interleave, within one decay window the attempts on a key are
    counted 1, 2, 3, ... with no count lost or given twice, so at most as many
    of them as the key's cap are let through. *)
Theorem concurrent_attempts_within_cap t key lo hi s n schedule :
  cs_counters s -> vacant lo (cs_entry s (cacheKey key)) ->
  0 < decay t -> hi < lo + decay t -> Z.of_nat n < two63 ->
  Forall (fun ie => cs_within ie.2 lo hi) schedule ->
  let ths := (run_threads t key schedule s (replicate n TStart)).2 in
  counts ths ≡ₚ seqZ 1 (Z.of_nat (List.length (counts ths)))
  /\ (List.length (filter (fun th => let_through t key th = true) ths) <= Z.to_nat (limitFor t key))%nat.
Proof.
  intros Hc Hv Hd Hhi Hn Hsch ths.
  assert (Hf : fresh lo key s (replicate n TStart)).
  { split_and!; [|done|done]. by apply Forall_replicate. }
  pose proof (run_threads_counting t key lo hi schedule s (replicate n TStart) Hsch
    ltac:(by rewrite length_replicate) Hd Hhi (or_introl Hf)) as Hinv.
  subst ths. destruct (run_threads _ _ _ _ _) as [s' ths]. simpl.
  destruct Hinv as [(Hst & _)|(x & _ & _ & _ & _ & Hp & Hall)].
  - rewrite (counts_start ths Hst). split; [done|].
    rewrite let_through_counts; [by rewrite (counts_start ths Hst); simpl; lia|].
    eapply Forall_impl; [exact Hst|]. intros th <-. left. by left.
  - split; [done|]. rewrite let_through_counts by done. rewrite Hp. apply small_counts.
Qed.

End counting.

(** ** The delay in closed form *)

(** for a base of whole seconds (any multiple of 512 ns) and a ceiling of
    at most 2^36 ns (68 s; the defaults are 1 s and 30 s), the 64-bit shift
    with its overflow check computes exactly min(base * 2^(excess-1), ceiling)
    for every excess. *)
Theorem progressive_delay_closed_form excess base ceiling :
  1 <= excess -> 0 < base -> (512 | base) -> base < ceiling <= 2 ^ 36 ->
  ProgressiveDelay excess base ceiling = Z.min (base * 2 ^ (excess - 1)) ceiling.
Proof.
  intros He Hb [q ->] Hc. unfold ProgressiveDelay.
  rewrite (proj2 (Z.ltb_ge excess 1)), (proj2 (Z.leb_gt _ _) Hb) by lia. simpl orb. cbv zeta.
  rewrite (proj2 (Z.leb_gt ceiling 0)), (proj2 (Z.leb_gt ceiling (q * 512))) by lia.
  destruct (Z.ltb_spec 40 (excess - 1)) as [Hs|Hs].
  - rewrite Z.min_r; [done|]. pose proof (Z.pow_le_mono_r 2 41 (excess - 1)). nia.
  - rewrite Z.shiftl_mul_pow2 by lia.
    assert (Hpow : 0 < 2 ^ (excess - 1)) by (apply Z.pow_pos_nonneg; lia).
    destruct (Z.ltb_spec (q * 512 * 2 ^ (excess - 1)) two63) as [Hlt|Hge].
    + rewrite wrap64_small by (unfold in_int64, two63 in *; nia).
      rewrite (proj2 (Z.leb_gt _ 0)) by nia. simpl orb.
      destruct (Z.ltb_spec ceiling (q * 512 * 2 ^ (excess - 1))); lia.
    + rewrite Z.min_r by width.
      assert (H28 : 28 <= excess - 1).
      { destruct (Z.le_gt_cases 28 (excess - 1)); [done|]. exfalso.
        pose proof (Z.pow_le_mono_r 2 (excess - 1) 27). unfold two63 in *. nia. }
      assert (Hdiv : (2 ^ 37 | wrap64 (q * 512 * 2 ^ (excess - 1)))).
      { apply wrap64_divide; [lia|]. exists (q * 2 ^ (excess - 1 - 28)).
        replace (excess - 1) with (28 + (excess - 1 - 28)) at 1 by lia.
        rewrite Z.pow_add_r by lia. lia. }
      destruct Hdiv as [r Hr]. rewrite Hr.
      destruct (Z.leb_spec (r * 2 ^ 37) 0); [done|]. simpl orb.
      rewrite (proj2 (Z.ltb_lt _ _)); [done|]. nia.
Qed.

Lemma progressive_delay_closed_form_witness :
  ProgressiveDelay 4 SECOND (30 * SECOND) = 8 * SECOND
  /\ ProgressiveDelay 9 SECOND (30 * SECOND) = Z.min (SECOND * 2 ^ 8) (30 * SECOND).
Proof.
  split; [vm_compute; reflexivity|].
  apply (progressive_delay_closed_form 9 SECOND (30 * SECOND)).
  - lia.
  - reflexivity.
  - exists 1953125. reflexivity.
  - unfold SECOND. lia.
Defined.

(** Outside that range the overflow check is not enough: with a base of
    2^34 + 1 ns (17 s) the 31st attempt past the cap, which should wait the
    ceiling of 30 s, waits 1.07 s: the product wraps to a small positive
    value. *)
Theorem progressive_delay_wraps :
  let base := 2 ^ 34 + 1 in
  Z.min (base * 2 ^ 30) (30 * SECOND) = 30 * SECOND
  /\ ProgressiveDelay 31 base (30 * SECOND) = 1073741824.
Proof. vm_compute. split; reflexivity. Qed.

(** ** Admission slots *)

(** A sequence of Admit calls: (clock reading, key, hold). *)
Fixpoint run_admits (slots : gmap string Z) (l : list (Z * string * Z))
    : gmap string Z * list bool :=
  match l with
  | [] => (slots, [])
  | (now, key, hold) :: l' =>
      let '(slots, b) := Admit slots now key hold in
      let '(slots, bs) := run_admits slots l' in (slots, b :: bs)
  end.

Lemma admit_keeps slots now key hold k until :
  slots !! k = Some until -> now < until -> (key = k -> 0 < hold) ->
  (Admit slots now key hold).1 !! k = Some until
  /\ (key = k -> (Admit slots now key hold).2 = false).
Proof.
  intros Hk Hnow Hhold. unfold Admit. destruct (Z.leb_spec hold 0) as [Hh|Hh].
  { split; [done|]. intros ->. specialize (Hhold eq_refl). lia. }
  assert (Hk' : (if (localAdmitterSweepAt <=? size slots)%nat
                 then filter (fun kv => now < kv.2) slots else slots) !! k = Some until).
  { destruct (_ <=? _)%nat; [|done]. by apply map_lookup_filter_Some. }
  revert Hk'. generalize (if (localAdmitterSweepAt <=? size slots)%nat
                 then filter (fun kv => now < kv.2) slots else slots). intros slots' Hk'.
  destruct (decide (key = k)) as [->|Hne].
  - rewrite Hk', (proj2 (Z.ltb_lt _ _) Hnow). done.
  - destruct (match slots' !! key with Some _ => _ | None => _ end); simpl; [done|].
    by rewrite lookup_insert_ne.
Qed.

(** an admission slot admits one trial per hold: once a trial for a key is
    admitted, every other attempt on the key is refused until the hold ends,
    through any interleaving with attempts on other keys, however many, and
    the sweep they cause. *)
Theorem one_admitted_trial_per_hold slots now key hold slots' l :
  Admit slots now key hold = (slots', true) -> 0 < hold ->
  Forall (fun a : Z * string * Z => a.1.1 < now + hold /\ (a.1.2 = key -> 0 < a.2)) l ->
  Forall (fun ab => ab.1.1.2 = key -> ab.2 = false) (zip l (run_admits slots' l).2).
Proof.
  intros Ha Hh Hl.
  assert (Hs : slots' !! key = Some (now + hold)).
  { unfold Admit in Ha. rewrite (proj2 (Z.leb_gt _ _) Hh) in Ha.
    destruct (match _ !! key with Some _ => _ | None => _ end); [done|].
    injection Ha as <-. apply lookup_insert_eq. }
  clear Ha. revert slots' Hs. induction Hl as [|[[n k] h] l [Hn Hkh] Hl IH]; intros slots' Hs; simpl.
  - constructor.
  - simpl in Hn, Hkh. destruct (admit_keeps slots' n k h key _ Hs Hn Hkh) as [Hs1 Hb].
    destruct (Admit slots' n k h) as [s1 b]. simpl in *. specialize (IH s1 Hs1).
    destruct (run_admits s1 l). simpl in *. by constructor.
Qed.

Lemma one_admitted_trial_per_hold_witness :
  Forall (fun ab => ab.1.1.2 = "a" -> ab.2 = false)
    (zip [(5, "a", 10); (6, "b", 10); (9, "a", 3)]
       (run_admits (Admit ∅ 0 "a" 10).1 [(5, "a", 10); (6, "b", 10); (9, "a", 3)]).2).
Proof.
  apply (one_admitted_trial_per_hold ∅ 0 "a" 10 (Admit ∅ 0 "a" 10).1).
  - reflexivity.
  - lia.
  - repeat constructor; simpl; lia.
Defined.

(** ** Keys and their limits *)

Lemma length_EncodeToString l : String.length (EncodeToString l) = (2 * List.length l)%nat.
Proof. induction l as [|b l IH]; [done|]. simpl. rewrite IH. lia. Qed.

Lemma hex_lower_not_i n : (n < 16)%nat -> Ascii.eqb "i" (hex_lower n) = false.
Proof. intros Hn. do 16 (destruct n as [|n]; [reflexivity|]). lia. Qed.

(** A hex digest never continues a key into another dimension's prefix. *)
Lemma pair_key_prefix l p :
  has_prefix ("login:i" +:+ p) ("login:" +:+ EncodeToString l) = false.
Proof.
  destruct l as [|b l]; [done|]. cbn -[hex_lower Nat.div Nat.modulo Ascii.eqb andb].
  rewrite !Ascii.eqb_refl, hex_lower_not_i; [done|].
  pose proof (nat_ascii_bounded b). apply Nat.Div0.div_lt_upper_bound. lia.
Qed.

Lemma has_prefix_app p s : has_prefix p (p +:+ s) = true.
Proof. induction p as [|a p IH]; [done|]. simpl. by rewrite Ascii.eqb_refl. Qed.

(** every attempt has a key for the (identifier, IP) pair and one for each
    known half of it; they are 22 and 25 bytes long when SHA-256 yields its 32
    bytes, and the throttler reads each one's own dimension back from it: the
    pair key gets the pair cap, whatever its digest, and so on. *)
Theorem throttle_keys_select_their_cap `{KeyDeps} t credentials ip key :
  (forall s, List.length (sha256 s) = 32%nat) -> key ∈ ThrottleKeys credentials ip ->
  (key = ThrottleKey credentials ip /\ String.length key = 22%nat /\ limitFor t key = maxAttempts t)
  \/ (normaliseIdentifier credentials <> "" /\ String.length key = 25%nat
      /\ limitFor t key = identifierMaxAttempts t)
  \/ (ip <> "" /\ String.length key = 25%nat /\ limitFor t key = ipMaxAttempts t).
Proof.
  intros Hsha. assert (Hd : forall s, String.length (digest s) = 16%nat).
  { intros s. unfold digest. rewrite length_EncodeToString, length_take, Hsha. done. }
  unfold ThrottleKeys. rewrite !elem_of_app, list_elem_of_singleton.
  unfold limitFor. intros [->|[Hk|Hk]].
  - left. split; [done|]. unfold pairThrottleKey, digest. split.
    { fold (digest (normaliseIdentifier credentials +:+ throttleKeySep +:+ ip)). simpl. by rewrite Hd. }
    change ThrottleKeyIdentifierPrefix with ("login:i" +:+ "d:").
    change ThrottleKeyIPPrefix with ("login:i" +:+ "p:").
    unfold ThrottleKeyPairPrefix. by rewrite !pair_key_prefix.
  - right. left. destruct (String.eqb_spec (normaliseIdentifier credentials) "");
      [by apply elem_of_nil in Hk|].
    apply list_elem_of_singleton in Hk as ->. rewrite has_prefix_app. simpl. by rewrite Hd.
  - right. right. destruct (String.eqb_spec ip ""); [by apply elem_of_nil in Hk|].
    apply list_elem_of_singleton in Hk as ->. split; [done|]. split; [simpl; by rewrite Hd|].
    rewrite has_prefix_app. done.
Qed.

#[export] Instance sample_deps : KeyDeps := {
  sha256 s := replicate 32 (ascii_of_nat (String.length s)); nfkc s := s; to_lower := lower_ascii
}.

Definition sample_throttler : cacheLoginThrottler := newCacheLoginThrottler 2 0 0 0.
Definition sample_credentials : gmap string Credential := {["email" := CString " Ann@example.com "]}.

Lemma throttle_keys_select_their_cap_witness :
  let key := ThrottleKey sample_credentials "203.0.113.9" in
  (key = ThrottleKey sample_credentials "203.0.113.9" /\ String.length key = 22%nat
     /\ limitFor sample_throttler key = maxAttempts sample_throttler)
  \/ (normaliseIdentifier sample_credentials <> "" /\ String.length key = 25%nat
      /\ limitFor sample_throttler key = identifierMaxAttempts sample_throttler)
  \/ ("203.0.113.9" <> "" /\ String.length key = 25%nat
      /\ limitFor sample_throttler key = ipMaxAttempts sample_throttler).
Proof.
  apply (throttle_keys_select_their_cap sample_throttler sample_credentials "203.0.113.9").
  - intros s. reflexivity.
  - left.
Defined.

(** Five attempts at once on an empty memory store, two of them let through. *)
Definition racing : list (nat * Env) :=
  (fun i => (i, env_at 100)) <$> [0; 1; 2; 3; 1; 4; 2; 4; 3]%nat.

Lemma concurrent_attempts_within_cap_witness :
  let ths := (run_threads sample_throttler "login:k" racing (NewMemoryStore "" []) (replicate 5 TStart)).2 in
  (counts ths ≡ₚ seqZ 1 (Z.of_nat (List.length (counts ths)))
   /\ (List.length (filter (fun th => let_through sample_throttler "login:k" th = true) ths)
       <= Z.to_nat (limitFor sample_throttler "login:k"))%nat)
  /\ counts ths = [1; 2; 3; 5; 4].
Proof.
  split; [|vm_compute; reflexivity].
  apply (concurrent_attempts_within_cap sample_throttler "login:k" 100 100 (NewMemoryStore "" []) 5 racing).
  - intros n. reflexivity.
  - exact I.
  - reflexivity.
  - reflexivity.
  - reflexivity.
  - repeat constructor; simpl; lia.
Defined.
