(* ===== verification/LoginAttempt.v ===== *)
(** * The credential-check phase of a login

    Models attemptCredentials and recordAttemptSuccess of
    auth/drivers/schemes/attempt.go with AdmitIdentifierTrial and
    IdentifierDelay of auth/throttle.go.

    The throttler is the interface contract.LoginThrottler with its optional
    capabilities: a record of operations over a world [W], an absent capability
    being [None].  The answers of the user store (the user found, whether the
    password is valid), the credentials' password and the challenge are data of
    the request.  The result says what is returned, whether the credential
    check ran, and the floor the response time is padded to. *)

From Stdlib Require Import Ascii String.
From S2P Require Import Prelude GoStrings CacheMemory CacheSpec CacheStore LoginThrottle.
Local Open Scope string_scope.
Local Open Scope list_scope.
Local Open Scope Z_scope.

Record LoginThrottler (W : Type) := mkLoginThrottler {
  lt_allow : string -> W -> W * bool;
  lt_failure : string -> W -> W;
  lt_success : string -> W -> W;
  lt_reserve : option (string -> W -> W * (bool * Z));
  lt_delay : option (string -> W -> W * Z);
  lt_admit : option (string -> Z -> W -> W * bool)
}.
Arguments mkLoginThrottler {W}.
Arguments lt_allow {W}. Arguments lt_failure {W}. Arguments lt_success {W}.
Arguments lt_reserve {W}. Arguments lt_delay {W}. Arguments lt_admit {W}.

Inductive AttemptError := ErrLoginThrottled | ErrLoginChallengeRequired | ErrInvalidCredentials.

(** What the request brings: the user its credentials name, whether a password
    string is present, whether it is the user's, and the challenge ([None]:
    none configured). *)
Record Request (U : Type) := mkRequest {
  keys : list string;
  found : option U;
  password_typed : bool;
  password_valid : bool;
  challenge : option bool
}.
Arguments mkRequest {U}.
Arguments keys {U}. Arguments found {U}. Arguments password_typed {U}.
Arguments password_valid {U}. Arguments challenge {U}.

Record Attempt (U : Type) := mkAttempt {
  outcome : option AttemptError + U;   (** [inl None]: refused without an error *)
  checked : bool;
  floor : Z
}.
Arguments mkAttempt {U}. Arguments outcome {U}. Arguments checked {U}. Arguments floor {U}.

Section attempt.
Context {W U : Type}.
(** The per-process admission slots are part of the world. *)
Context (local_admit : string -> Z -> W -> W * bool).
Implicit Types (th : LoginThrottler W) (w : W) (r : Request U).

Definition AdmitIdentifierTrial th (key : string) (hold : Z) w : W * bool :=
  if hold <=? 0 then (w, true)
  else match lt_admit th with
       | Some admit_slot => admit_slot key hold w
       | None => local_admit key hold w
       end.

Definition IdentifierDelay th (key : string) w : W * Z :=
  match lt_delay th with
  | Some d => let '(w, delay) := d key w in (w, if delay <? 0 then 0 else delay)
  | None => (w, DefaultIdentifierDelay)
  end.

(** The denials so far: hard, and the over-cap identifier key with its delay. *)
Record Denials := mkDenials { hard : bool; identifier : option (string * Z) }.

(** The loop over the keys: every dimension is consulted. *)
Fixpoint consult th (ks : list string) (d : Denials) w : W * Denials :=
  match ks with
  | [] => (w, d)
  | key :: ks' =>
      let '(w, (within, delay)) := match lt_reserve th with
                                   | Some reserve => reserve key w
                                   | None => let '(w, b) := lt_allow th key w in (w, (b, 0))
                                   end in
      let d := if within then d
               else if has_prefix ThrottleKeyIdentifierPrefix key
                    then mkDenials (hard d) (Some (key, delay))
                    else mkDenials true (identifier d) in
      consult th ks' d w
  end.

Definition recordFailure th (ks : list string) w : W :=
  match lt_reserve th with
  | Some _ => w
  | None => foldl (fun w key => lt_failure th key w) w ks
  end.

(** The timeboxed check and the three failure branches after it. *)
Definition check_credentials th r (overcap : bool) (fl : Z) w : W * Attempt U :=
  match found r with
  | None => (recordFailure th (keys r) w,
             mkAttempt (inl (if overcap then Some ErrLoginThrottled else None)) true fl)
  | Some user =>
      if negb (password_typed r) then
        (recordFailure th (keys r) w,
         mkAttempt (inl (Some (if overcap then ErrLoginThrottled else ErrInvalidCredentials))) true fl)
      else if negb (password_valid r) then
        (recordFailure th (keys r) w,
         mkAttempt (inl (if overcap then Some ErrLoginThrottled else None)) true fl)
      else (w, mkAttempt (inr user) true fl)
  end.

Definition attemptCredentials th r (attemptFloor : Z) w : W * Attempt U :=
  let '(w, d) := consult th (keys r) (mkDenials false None) w in
  if hard d then (w, mkAttempt (inl (Some ErrLoginThrottled)) false attemptFloor)
  else
    let fl := if attemptFloor <? 0 then 0 else attemptFloor in
    match identifier d with
    | Some (key, reserved_delay) =>
        if bool_decide (challenge r = Some true) then check_credentials th r true fl w
        else
          let '(w, delay) := match lt_reserve th with
                             | Some _ => (w, reserved_delay)
                             | None => IdentifierDelay th key w
                             end in
          let delay := if delay <? 0 then 0 else delay in
          let '(w, admitted) := AdmitIdentifierTrial th key delay w in
          if admitted then check_credentials th r true (fl + delay) w
          else (w, mkAttempt (inl (Some (match challenge r with
                                         | Some _ => ErrLoginChallengeRequired
                                         | None => ErrLoginThrottled
                                         end))) false attemptFloor)
    | None => check_credentials th r false fl w
    end.

Definition recordAttemptSuccess (local_release : string -> W -> W) th (ks : list string) w : W :=
  foldl (fun w key =>
           let w := lt_success th key w in
           if has_prefix ThrottleKeyIdentifierPrefix key then local_release key w else w) w ks.

(** ** What an attempt guarantees *)

Lemma check_floor th r overcap fl w : floor (check_credentials th r overcap fl w).2 = fl.
Proof. unfold check_credentials. repeat case_match; done. Qed.

Lemma check_checked th r overcap fl w : checked (check_credentials th r overcap fl w).2 = true.
Proof. unfold check_credentials. repeat case_match; done. Qed.

Lemma check_outcome th r overcap fl w user :
  outcome (check_credentials th r overcap fl w).2 = inr user <->
  found r = Some user /\ password_typed r = true /\ password_valid r = true.
Proof.
  unfold check_credentials.
  destruct (found r), (password_typed r), (password_valid r); simpl; naive_solver.
Qed.

(** no timing oracle: whether the account exists, whether a password was
    sent and whether it is right change neither the time the response is
    padded to nor whether the credential check runs, for any throttler, any
    state of its counters and slots, and whatever delay an over-cap account is
    charged. *)
Theorem floor_independent_of_credentials th r r' attemptFloor w :
  keys r = keys r' -> challenge r = challenge r' ->
  floor (attemptCredentials th r attemptFloor w).2 = floor (attemptCredentials th r' attemptFloor w).2
  /\ checked (attemptCredentials th r attemptFloor w).2
     = checked (attemptCredentials th r' attemptFloor w).2.
Proof.
  intros Hk Hc. unfold attemptCredentials. rewrite Hk, Hc.
  destruct (consult th (keys r') _ w) as [w1 [h i]]. cbn [hard identifier].
  destruct h; [done|]. destruct i as [[key d]|].
  - case_bool_decide; [by rewrite !check_floor, !check_checked|].
    destruct (match lt_reserve th with Some _ => _ | None => _ end) as [w2 dl]. cbv zeta.
    destruct (AdmitIdentifierTrial _ _ _ _) as [w3 []]; [|done].
    by rewrite !check_floor, !check_checked.
  - by rewrite !check_floor, !check_checked.
Qed.

(** The trial slot of an over-cap identifier is claimed. *)
Definition slot_claimed th (key : string) (reserved_delay : Z) w : bool :=
  let '(w, delay) := match lt_reserve th with
                     | Some _ => (w, reserved_delay)
                     | None => IdentifierDelay th key w
                     end in
  (AdmitIdentifierTrial th key (Z.max 0 delay) w).2.

(** What the throttler answers for each key of an attempt, asked in order. *)
Fixpoint verdicts th (ks : list string) w : W * list (string * (bool * Z)) :=
  match ks with
  | [] => (w, [])
  | key :: ks' =>
      let '(w, v) := match lt_reserve th with
                     | Some reserve => reserve key w
                     | None => let '(w, b) := lt_allow th key w in (w, (b, 0))
                     end in
      let '(w, l) := verdicts th ks' w in (w, (key, v) :: l)
  end.

(** A pair or IP key over its cap, and an identifier over its cap with its
    delay. *)
Definition hard_denial (kv : string * (bool * Z)) : bool :=
  negb kv.2.1 && negb (has_prefix ThrottleKeyIdentifierPrefix kv.1).
Definition identifier_denial (kv : string * (bool * Z)) : option (string * Z) :=
  if negb kv.2.1 && has_prefix ThrottleKeyIdentifierPrefix kv.1 then Some (kv.1, kv.2.2) else None.

Lemma consult_verdicts th ks d w :
  consult th ks d w
  = ((verdicts th ks w).1,
     mkDenials (hard d || existsb hard_denial (verdicts th ks w).2)
       (match last (omap identifier_denial (verdicts th ks w).2) with
        | Some i => Some i
        | None => identifier d
        end)).
Proof.
  revert d w. induction ks as [|key ks IH]; intros [h i] w; cbn [consult verdicts].
  { cbn. by rewrite orb_false_r. }
  destruct (match lt_reserve th with Some _ => _ | None => _ end) as [w1 [within delay]].
  rewrite IH. destruct (verdicts th ks w1) as [w2 l]. cbn [fst snd existsb].
  change (omap identifier_denial ((key, (within, delay)) :: l))
    with (match identifier_denial (key, (within, delay)) with
          | Some x => x :: omap identifier_denial l
          | None => omap identifier_denial l
          end).
  unfold hard_denial at 2, identifier_denial at 2. cbn [fst snd].
  destruct within, (has_prefix ThrottleKeyIdentifierPrefix key); cbn [negb andb orb hard identifier];
    rewrite ?last_cons, ?orb_true_r; by destruct (last (omap identifier_denial l)).
Qed.

Lemma verdicts_keys th ks w : (verdicts th ks w).2.*1 = ks.
Proof.
  revert w. induction ks as [|key ks IH]; intros w; cbn [verdicts]; [done|].
  destruct (match lt_reserve th with Some _ => _ | None => _ end) as [w1 v].
  specialize (IH w1). destruct (verdicts th ks w1) as [w2 l]. csimpl in *. by rewrite IH.
Qed.

(** C19: the account holder is never locked out by guesses against the account:
    a login succeeds exactly when the credentials are valid and reach the
    check, and they reach it exactly when the throttler answers that no pair or
    IP key is over its cap and, for an identifier over its cap, however far,
    the request passed the challenge or claimed the identifier's trial slot. *)
Theorem over_cap_account_is_not_locked_out th r attemptFloor w user :
  let answers := (verdicts th (keys r) w).2 in
  (outcome (attemptCredentials th r attemptFloor w).2 = inr user <->
   found r = Some user /\ password_typed r = true /\ password_valid r = true
   /\ checked (attemptCredentials th r attemptFloor w).2 = true)
  /\ (checked (attemptCredentials th r attemptFloor w).2 = true <->
      existsb hard_denial answers = false
      /\ match last (omap identifier_denial answers) with
         | None => True
         | Some (key, delay) =>
             challenge r = Some true \/ slot_claimed th key delay (verdicts th (keys r) w).1 = true
         end).
Proof.
  intros answers. subst answers. unfold attemptCredentials. rewrite consult_verdicts.
  cbn [hard identifier orb].
  destruct (existsb _ _); [simpl; naive_solver|]. destruct (last _) as [[key d]|].
  - unfold slot_claimed.
    case_bool_decide; [rewrite check_outcome, check_checked; naive_solver|].
    destruct (match lt_reserve th with Some _ => _ | None => _ end) as [w2 dl]. cbv zeta.
    replace (if dl <? 0 then 0 else dl) with (Z.max 0 dl) by (destruct (Z.ltb_spec dl 0); lia).
    destruct (AdmitIdentifierTrial _ _ _ _) as [w3 []]; simpl.
    + rewrite check_outcome, check_checked. naive_solver.
    + naive_solver.
  - rewrite check_outcome, check_checked. naive_solver.
Qed.

(** an attempt whose pair or IP key is over its cap is refused before the
    credential check, with the same error and the same floor for every such
    attempt, and every key of the attempt was still consulted. *)
Theorem hard_cap_denies_before_check th r attemptFloor w key delay :
  (key, (false, delay)) ∈ (verdicts th (keys r) w).2 ->
  has_prefix ThrottleKeyIdentifierPrefix key = false ->
  attemptCredentials th r attemptFloor w
  = ((verdicts th (keys r) w).1, mkAttempt (inl (Some ErrLoginThrottled)) false attemptFloor)
  /\ (verdicts th (keys r) w).2.*1 = keys r.
Proof.
  intros Hin Hk. split; [|apply verdicts_keys].
  assert (He : existsb hard_denial (verdicts th (keys r) w).2 = true).
  { apply existsb_exists. exists (key, (false, delay)). split; [by apply list_elem_of_In|].
    unfold hard_denial. cbn [fst snd]. by rewrite Hk. }
  unfold attemptCredentials. rewrite consult_verdicts, He. reflexivity.
Qed.

End attempt.

(** ** The built-in throttler as an instance

    The world is the store and the number of store operations so far; the
    environment of each operation is an argument. *)

Section builtin.
Context `{GV : GoValues} {St E : Type} `{CS : CacheStore St E} (env : nat -> E).

Record World := mkWorld { store : St; ops : nat; local_slots : gmap string Z }.

Definition cache_throttler (t : cacheLoginThrottler) : LoginThrottler World :=
  mkLoginThrottler
    (fun key w => let '(s, b) := Allow t (env (ops w)) (store w) key in
                  (mkWorld s (ops w + 1) (local_slots w), b))
    (fun key w => mkWorld (RecordFailure t (env (ops w)) (env (ops w + 1)) (env (ops w + 2)) (store w) key)
                    (ops w + 3) (local_slots w))
    (fun key w => mkWorld (RecordSuccess (env (ops w)) (env (ops w + 1)) (store w) key)
                    (ops w + 2) (local_slots w))
    (Some (fun key w =>
       let '(s, a) := Reserve t (env (ops w)) (env (ops w + 1)) (env (ops w + 2)) (store w) key in
       (mkWorld s (ops w + 3) (local_slots w), a)))
    (Some (fun key w => let '(s, d) := Delay t (env (ops w)) (store w) key in
                        (mkWorld s (ops w + 1) (local_slots w), d)))
    (Some (fun key hold w => let '(s, b) := AdmitTrial (env (ops w)) (store w) key hold in
                             (mkWorld s (ops w + 1) (local_slots w), b))).

Definition world_admit (now : Z) (key : string) (hold : Z) (w : World) : World * bool :=
  let '(slots, b) := Admit (local_slots w) now key hold in (mkWorld (store w) (ops w) slots, b).

End builtin.

(** ** A concrete account

    A memory store shared by all attempts, a throttler with a cap of 2 attempts
    per pair and 1 per identifier, all store operations within one window. *)

Definition strict : cacheLoginThrottler :=
  withDelay (mkThrottler 2 1 50 (60 * SECOND) 0 0) SECOND (30 * SECOND).

Definition at_instant (t : Z) : nat -> Env := fun _ => env_at t.
Definition start_world : World (St := MemoryStore) := mkWorld (NewMemoryStore "" []) 0 ∅.

Definition login (t : Z) (who : string) (valid : bool) (w : World) : World * Attempt unit :=
  attemptCredentials (world_admit t) (cache_throttler (at_instant t) strict)
    (mkRequest ["login:" +:+ who; "login:id:ann"] (Some tt) true valid None) 0 w.

Fixpoint logins (l : list (Z * string * bool)) (w : World) : World :=
  match l with
  | [] => w
  | (t, who, valid) :: l' => logins l' (login t who valid w).1
  end.

Lemma floor_independent_of_credentials_witness :
  floor (login 5 "p" true start_world).2 = floor (login 5 "p" false start_world).2
  /\ checked (login 5 "p" true start_world).2 = checked (login 5 "p" false start_world).2.
Proof.
  apply (floor_independent_of_credentials (world_admit 5) (cache_throttler (at_instant 5) strict)
    (mkRequest ["login:p"; "login:id:ann"] (Some tt) true true None)
    (mkRequest ["login:p"; "login:id:ann"] (Some tt) true false None) 0 start_world); reflexivity.
Defined.

(** Two wrong guesses from elsewhere put the identifier over its cap; the
    owner's login still succeeds, one second late. *)
Lemma over_cap_account_is_not_locked_out_witness :
  let w := logins [(0, "x", false)] start_world in
  let r := mkRequest ["login:home"; "login:id:ann"] (Some tt) true true None in
  outcome (attemptCredentials (world_admit 5) (cache_throttler (at_instant 5) strict) r 0 w).2 = inr tt
  /\ floor (attemptCredentials (world_admit 5) (cache_throttler (at_instant 5) strict) r 0 w).2 = SECOND.
Proof.
  intros w r. split; [|vm_compute; reflexivity].
  apply (over_cap_account_is_not_locked_out (world_admit 5) (cache_throttler (at_instant 5) strict) r 0 w tt).
  repeat split; vm_compute; reflexivity.
Defined.

Lemma hard_cap_denies_before_check_witness :
  let w := logins [(0, "x", false); (1, "x", false)] start_world in
  let r := mkRequest ["login:x"; "login:id:ann"] (Some tt) true true None in
  attemptCredentials (world_admit 5) (cache_throttler (at_instant 5) strict) r 7 w
  = ((verdicts (cache_throttler (at_instant 5) strict) (keys r) w).1,
     mkAttempt (inl (Some ErrLoginThrottled)) false 7).
Proof.
  apply (hard_cap_denies_before_check (world_admit 5) (cache_throttler (at_instant 5) strict)
    (mkRequest ["login:x"; "login:id:ann"] (Some tt) true true None) 7
    (logins [(0, "x", false); (1, "x", false)] start_world) "login:x" SECOND).
  - vm_compute. left.
  - reflexivity.
Defined.

(** Attempts that are refused the trial slot still drive the delay up with
    the built-in throttler: they were counted when they were reserved.  After
    one trial was admitted for one second, ten refused attempts raise the next
    trial's delay from 2 to 30 seconds, although none of them reached the
    credential check. *)
Theorem refused_trials_ratchet_the_delay :
  let before := logins [(0, "x", false); (0, "x", false)] start_world in
  let after := (fun i => (SECOND / 2, String (ascii_of_nat (97 + i)) "", false)) <$> seq 0 10 in
  (fun a => checked (login (SECOND / 2) a.1.2 false before).2) <$> after = replicate 10 false
  /\ floor (login (2 * SECOND) "home" true before).2 = 2 * SECOND
  /\ floor (login (2 * SECOND) "home" true (logins after before)).2 = 30 * SECOND.
Proof. split_and!; vm_compute; reflexivity. Qed.
