(* ===== verification/Heap.v ===== *)
(** * container/heap

    The binary heap of Go's standard library over a slice, as
    queue/memory.go's delayedHeap instantiates it: [key] is the field the
    elements are ordered by, and the [index] field the code maintains is the
    position itself.  [heap_Push] and [heap_Pop] keep the heap order, keep the
    multiset of elements, and Pop removes a least one. *)

From S2P Require Import Prelude.
Local Open Scope Z_scope.

Section heap.
Context {A : Type} (key : A -> Z).
Implicit Types (l : list A) (i j n : nat).

Definition Less l i j : bool :=
  match l !! i, l !! j with Some x, Some y => key x <? key y | _, _ => false end.

Definition Swap l i j : list A :=
  match l !! i, l !! j with Some x, Some y => <[i := y]> (<[j := x]> l) | _, _ => l end.

(** The loop of heap.up; at most [j] rounds. *)
Fixpoint up (fuel : nat) l j : list A :=
  match fuel with
  | O => l
  | S fuel' =>
      let i := Nat.div (j - 1) 2 in
      if Nat.eqb i j || negb (Less l j i) then l else up fuel' (Swap l i j) i
  end.

(** The loop of heap.down on the first [n] elements; at most [n] rounds. *)
Fixpoint down (fuel : nat) l i n : list A :=
  match fuel with
  | O => l
  | S fuel' =>
      let j1 := (2 * i + 1)%nat in
      if Nat.leb n j1 then l
      else
        let j := if (Nat.ltb (j1 + 1) n) && Less l (j1 + 1) j1 then (j1 + 1)%nat else j1 in
        if negb (Less l j i) then l else down fuel' (Swap l i j) j n
  end.

Definition heap_Push l (x : A) : list A :=
  let l := l ++ [x] in up (List.length l) l (List.length l - 1).

Definition heap_Pop l : option (A * list A) :=
  let n := (List.length l - 1)%nat in
  let l := down (List.length l) (Swap l 0 n) 0 n in
  match l !! n with
  | Some x => Some (x, take n l)
  | None => None
  end.

(** ** Order *)

Definition keyAt l i : Z := match l !! i with Some x => key x | None => 0 end.
Definition parent i : nat := Nat.div (i - 1) 2.

(** The first [n] elements are in heap order. *)
Definition heap_ok l n : Prop :=
  forall i, (0 < i < n)%nat -> keyAt l (parent i) <= keyAt l i.

Lemma parent_lt i : (0 < i)%nat -> (parent i < i)%nat.
Proof. intros. unfold parent. apply Nat.Div0.div_lt_upper_bound. lia. Qed.

Lemma parent_children c i : (0 < c)%nat -> parent c = i -> c = (2 * i + 1)%nat \/ c = (2 * i + 2)%nat.
Proof.
  unfold parent. intros Hc <-. pose proof (Nat.div_mod (c - 1) 2 ltac:(lia)).
  pose proof (Nat.mod_upper_bound (c - 1) 2 ltac:(lia)). lia.
Qed.

Lemma parent_left i : parent (2 * i + 1) = i.
Proof. unfold parent. replace (2 * i + 1 - 1)%nat with (i * 2)%nat by lia. apply Nat.div_mul. lia. Qed.

Lemma parent_right i : parent (2 * i + 2) = i.
Proof.
  unfold parent. replace (2 * i + 2 - 1)%nat with (1 + i * 2)%nat by lia.
  rewrite Nat.div_add by lia. done.
Qed.

Lemma Less_keyAt l i j :
  (i < List.length l)%nat -> (j < List.length l)%nat -> Less l i j = (keyAt l i <? keyAt l j).
Proof.
  intros Hi Hj. unfold Less, keyAt.
  apply lookup_lt_is_Some in Hi as [x ->], Hj as [y ->]. done.
Qed.

Lemma Swap_keyAt l i j m :
  (i < List.length l)%nat -> (j < List.length l)%nat ->
  keyAt (Swap l i j) m = if decide (m = i) then keyAt l j else
                         if decide (m = j) then keyAt l i else keyAt l m.
Proof.
  intros Hi Hj. unfold Swap, keyAt.
  destruct (lookup_lt_is_Some_2 l i Hi) as [x Hx]. destruct (lookup_lt_is_Some_2 l j Hj) as [y Hy].
  rewrite Hx, Hy. destruct (decide (m = i)) as [->|Hmi].
  - by rewrite list_lookup_insert_eq by (by rewrite length_insert).
  - rewrite list_lookup_insert_ne by done. destruct (decide (m = j)) as [->|Hmj].
    + by rewrite list_lookup_insert_eq.
    + by rewrite list_lookup_insert_ne.
Qed.

Lemma length_Swap l i j : List.length (Swap l i j) = List.length l.
Proof. unfold Swap. repeat case_match; by rewrite ?length_insert. Qed.

Lemma Swap_perm l i j : Swap l i j ≡ₚ l.
Proof.
  unfold Swap. destruct (l !! i) as [x|] eqn:Hx; [|done]. destruct (l !! j) as [y|] eqn:Hy; [|done].
  by apply Permutation_insert_swap.
Qed.

Lemma up_perm fuel l j : up fuel l j ≡ₚ l.
Proof.
  revert l j. induction fuel as [|fuel IH]; intros l j; simpl; [done|].
  destruct (_ || _); [done|]. by rewrite IH, Swap_perm.
Qed.

Lemma down_perm fuel l i n : down fuel l i n ≡ₚ l.
Proof.
  revert l i. induction fuel as [|fuel IH]; intros l i; cbn [down]; [done|].
  destruct (Nat.leb _ _); [done|]. destruct (negb _); [done|]. by rewrite IH, Swap_perm.
Qed.

(** In heap order except that [j] may be smaller than its parent. *)
Definition heap_but l n j : Prop :=
  (forall i, (0 < i < n)%nat -> i <> j -> keyAt l (parent i) <= keyAt l i)
  /\ (forall c, (0 < c < n)%nat -> parent c = j -> (0 < j)%nat -> keyAt l (parent j) <= keyAt l c).

Lemma up_ok fuel l n j :
  (j < n)%nat -> n = List.length l -> (j < fuel)%nat -> heap_but l n j -> heap_ok (up fuel l j) n.
Proof.
  revert l j. induction fuel as [|fuel IH]; intros l j Hj Hn Hf [H1 H2]; [lia|].
  cbn [up]. fold (parent j). destruct (Nat.eqb_spec (parent j) j) as [He|Hne]; cbn [orb].
  { assert (j = O) as -> by (pose proof (parent_lt j); lia). intros i Hi. apply H1; lia. }
  assert (Hj0 : (0 < j)%nat) by (destruct j; [done|lia]). pose proof (parent_lt j Hj0) as Hp.
  rewrite Less_keyAt by lia. destruct (Z.ltb_spec (keyAt l j) (keyAt l (parent j))) as [Hlt|Hge]; cbn [negb].
  2: { intros i Hi. destruct (decide (i = j)) as [->|]; [done|]. by apply H1. }
  apply IH; [lia|by rewrite length_Swap|lia|]. set (p := parent j) in *. split.
  - intros i Hi Hip. rewrite !Swap_keyAt by lia. rewrite (decide_False (P := i = p)) by done.
    destruct (decide (parent i = p)) as [Hpi|Hpi].
    + destruct (decide (i = j)) as [->|Hij]; [lia|]. specialize (H1 i Hi Hij). rewrite Hpi in H1. lia.
    + destruct (decide (i = j)) as [->|Hij]; [done|].
      destruct (decide (parent i = j)) as [Hpj|Hpj].
      * pose proof (H2 i Hi Hpj Hj0). subst p. lia.
      * by apply H1.
  - intros c Hc Hcp Hp0. pose proof (parent_lt p Hp0) as Hpp.
    rewrite !Swap_keyAt by lia. rewrite (decide_False (P := parent p = p)) by lia.
    rewrite (decide_False (P := parent p = j)) by lia.
    assert (Hroot : keyAt l (parent p) <= keyAt l p) by (apply H1; lia).
    rewrite (decide_False (P := c = p)) by (pose proof (parent_lt c); lia).
    destruct (decide (c = j)) as [->|Hcj]; [done|].
    specialize (H1 c Hc Hcj). rewrite Hcp in H1. lia.
Qed.

(** In heap order except that [i] may be larger than its children. *)
Definition heap_above l n i : Prop :=
  (forall c, (0 < c < n)%nat -> parent c <> i -> keyAt l (parent c) <= keyAt l c)
  /\ (forall c, (0 < c < n)%nat -> parent c = i -> (0 < i)%nat -> keyAt l (parent i) <= keyAt l c).

(** The smaller child of [i]. *)
Lemma smaller_child l n i :
  (n <= List.length l)%nat -> (2 * i + 1 < n)%nat ->
  let j := if (Nat.ltb (2 * i + 1 + 1) n) && Less l (2 * i + 1 + 1) (2 * i + 1)
           then (2 * i + 1 + 1)%nat else (2 * i + 1)%nat in
  (j < n)%nat /\ (i < j)%nat /\ parent j = i
  /\ forall c, (0 < c < n)%nat -> parent c = i -> keyAt l j <= keyAt l c.
Proof.
  intros Hn Hi. cbv zeta. replace (2 * i + 1 + 1)%nat with (2 * i + 2)%nat by lia.
  destruct (Nat.ltb_spec (2 * i + 2) n) as [H2|H2]; cbn [andb].
  - rewrite Less_keyAt by lia.
    destruct (Z.ltb_spec (keyAt l (2 * i + 2)) (keyAt l (2 * i + 1))) as [Hlt|Hge].
    + cbv iota. split_and!; [lia|lia|apply parent_right|]. intros c Hc Hpc. apply parent_children in Hpc as [->| ->]; lia.
    + cbv iota. split_and!; [lia|lia|apply parent_left|]. intros c Hc Hpc. apply parent_children in Hpc as [->| ->]; lia.
  - cbv iota. split_and!; [lia|lia|apply parent_left|]. intros c Hc Hpc. apply parent_children in Hpc as [->| ->]; lia.
Qed.

Lemma down_ok fuel l n i :
  (n <= List.length l)%nat -> (n < fuel + i)%nat -> heap_above l n i ->
  heap_ok (down fuel l i n) n.
Proof.
  revert l i. induction fuel as [|fuel IH]; intros l i Hn Hf [H1 H2].
  { intros c Hc. apply H1; [done|]. pose proof (parent_lt c). lia. }
  cbn [down]. destruct (Nat.leb_spec n (2 * i + 1)) as [Hleaf|Hin].
  { intros c Hc. apply H1; [done|]. intros Hpc. apply parent_children in Hpc; lia. }
  destruct (smaller_child l n i Hn Hin) as (Hjn & Hij & Hpj & Hmin).
  set (j := if _ && _ then _ else _) in *. clearbody j.
  rewrite Less_keyAt by lia. destruct (Z.ltb_spec (keyAt l j) (keyAt l i)) as [Hlt|Hge]; cbn [negb].
  2: { intros c Hc. destruct (decide (parent c = i)) as [Hpc|]; [|by apply H1].
       specialize (Hmin c Hc Hpc). rewrite Hpc. lia. }
  apply IH; [by rewrite length_Swap|lia|]. split.
  - intros c Hc Hcj. rewrite !Swap_keyAt by lia. rewrite (decide_False (P := parent c = j)) by done.
    destruct (decide (parent c = i)) as [Hpc|Hpc].
    + rewrite (decide_False (P := c = i)) by (pose proof (parent_lt c); lia).
      destruct (decide (c = j)) as [->|]; [lia|]. by apply Hmin.
    + destruct (decide (c = i)) as [->|Hci].
      * apply (H2 j); [lia|done|lia].
      * rewrite (decide_False (P := c = j)) by (intros ->; congruence). by apply H1.
  - intros c Hc Hcj Hj0. rewrite Hpj, !Swap_keyAt by lia. rewrite (decide_True (P := i = i)) by done.
    pose proof (parent_lt c ltac:(lia)).
    rewrite (decide_False (P := c = i)), (decide_False (P := c = j)) by lia.
    rewrite <- Hcj. apply H1; [lia|]. rewrite Hcj. lia.
Qed.

Lemma heap_root l n i : heap_ok l n -> (i < n)%nat -> keyAt l 0 <= keyAt l i.
Proof.
  intros Hok. induction i as [i IH] using lt_wf_ind. intros Hi.
  destruct (decide (i = O)) as [->|Hne]; [done|]. pose proof (parent_lt i ltac:(lia)).
  etrans; [apply (IH (parent i)); lia|]. apply Hok. lia.
Qed.

Lemma keyAt_app_l l l' i : (i < List.length l)%nat -> keyAt (l ++ l') i = keyAt l i.
Proof. intros H. unfold keyAt. by rewrite lookup_app_l. Qed.

(** ** The operations *)

Definition is_heap l : Prop := heap_ok l (List.length l).

Lemma heap_Push_spec l x : is_heap l -> is_heap (heap_Push l x) /\ heap_Push l x ≡ₚ x :: l.
Proof.
  intros Hok. unfold heap_Push. split.
  - unfold is_heap. rewrite (Permutation_length (up_perm _ _ _)), length_app. simpl.
    apply up_ok; [lia|by rewrite length_app|lia|]. split.
    + intros i Hi Hne. pose proof (parent_lt i ltac:(lia)).
      rewrite !keyAt_app_l by lia. apply Hok. lia.
    + intros c Hc Hpc. pose proof (parent_lt c ltac:(lia)). lia.
  - rewrite up_perm. symmetry. apply Permutation_cons_append.
Qed.

Lemma keyAt_take l n i : (i < n)%nat -> keyAt (take n l) i = keyAt l i.
Proof. intros H. unfold keyAt. by rewrite lookup_take_lt. Qed.

(** [down] does not touch what is beyond its bound. *)
Lemma down_beyond fuel l i n m :
  (n <= List.length l)%nat -> (i < n)%nat -> (n <= m)%nat -> down fuel l i n !! m = l !! m.
Proof.
  revert l i. induction fuel as [|fuel IH]; intros l i Hl Hi Hm; cbn [down]; [done|].
  destruct (Nat.leb_spec n (2 * i + 1)) as [Hle|Hgt]; [done|].
  destruct (smaller_child l n i Hl Hgt) as (Hjn & Hij & _ & _).
  set (j := if _ && _ then _ else _) in *. clearbody j. destruct (negb _); [done|].
  rewrite IH by (rewrite ?length_Swap; lia). unfold Swap.
  destruct (l !! i), (l !! j); try done. by rewrite !list_lookup_insert_ne by lia.
Qed.

Lemma heap_Pop_spec l :
  is_heap l -> l <> [] ->
  exists x l', heap_Pop l = Some (x, l') /\ l ≡ₚ x :: l' /\ is_heap l'
          /\ l !! O = Some x /\ forall y, y ∈ l -> key x <= key y.
Proof.
  intros Hok Hne. unfold heap_Pop. set (n := (List.length l - 1)%nat).
  assert (Hlen : List.length l = S n) by (destruct l; [done|simpl in *; lia]).
  destruct (lookup_lt_is_Some_2 l 0 ltac:(lia)) as [x Hx].
  set (l1 := down (List.length l) (Swap l 0 n) 0 n).
  assert (Hl1n : l1 !! n = Some x).
  { subst l1. destruct (decide (n = O)) as [->|Hn0].
    - rewrite Hlen. cbn [down]. destruct (Nat.leb_spec 0 (2 * 0 + 1)); [|lia].
      unfold Swap. rewrite Hx. by rewrite list_lookup_insert_eq by (rewrite length_insert; lia).
    - rewrite down_beyond by (rewrite ?length_Swap; lia). unfold Swap. rewrite Hx.
      destruct (lookup_lt_is_Some_2 l n ltac:(lia)) as [y ->].
      rewrite list_lookup_insert_ne, list_lookup_insert_eq by (done || lia). done. }
  assert (Hperm : l1 ≡ₚ l) by (subst l1; by rewrite down_perm, Swap_perm).
  assert (Hl1len : List.length l1 = S n) by (by rewrite Hperm).
  exists x, (take n l1). rewrite Hl1n. split_and!; [done| | |done|].
  - rewrite <- Hperm, <- (take_drop n l1) at 1.
    rewrite (drop_S l1 x n Hl1n), (drop_ge l1 (S n)) by lia.
    rewrite Permutation_app_comm. done.
  - unfold is_heap. rewrite length_take, Hl1len, Nat.min_l by lia.
    intros i Hi. pose proof (parent_lt i ltac:(lia)). rewrite !keyAt_take by lia.
    subst l1. apply down_ok; [rewrite length_Swap; lia|lia| |done]. split.
    + intros c Hc Hpc. rewrite !Swap_keyAt by lia. pose proof (parent_lt c ltac:(lia)).
      repeat (rewrite decide_False by lia). apply Hok. lia.
    + intros c Hc Hpc H0. lia.
  - intros y [i Hi]%list_elem_of_lookup_1. pose proof (lookup_lt_Some _ _ _ Hi).
    pose proof (heap_root l (List.length l) i Hok ltac:(lia)) as Hr.
    unfold keyAt in Hr. rewrite Hx, Hi in Hr. done.
Qed.

Lemma heap_nil : is_heap [].
Proof. intros i Hi. simpl in Hi. lia. Qed.

End heap.
Arguments heap_Push {A} key l x : simpl never.
Arguments heap_Pop {A} key l : simpl never.
