(* ===== verification/QueueMemory.v ===== *)
(** * The in-memory queue driver

    Models queue/memory.go, with admitJob of queue/admit.go and the wrappers
    of queue/job_wrapper.go: ready queues, per-queue heaps of delayed jobs,
    reservations, the failed collection and the dedupe keys.

    Each function takes the driver's lock once, so each is one step; the
    quarantine of a job that cannot be rebuilt is a second section and a
    separate step.  A wrapper pointer is always in one collection only, so a
    wrapper is a value.  [cancelled] says whether the context is cancelled
    when the operation asks; [now] is the clock reading it makes.  Jobs, their
    JSON and the registry that rebuilds them are parameters ([Jobs]); events
    and the Failed hook run outside the lock and do not change the state. *)

From Stdlib Require Import Ascii String.
From S2P Require Import Prelude GoStrings Heap.
Local Open Scope string_scope.
Local Open Scope list_scope.
Local Open Scope Z_scope.

(** What the driver asks of a job: its OnQueue name ("" when it has none), its
    JSON ([None]: Marshal failed), and rebuilding it from JSON. *)
Class Jobs := {
  Job : Type;
  Data : Type;
  OnQueue : Job -> string;
  marshal : Job -> option Data;
  hydrate : Data -> option Job
}.

Inductive QueueError :=
  | ErrNilJob | ErrMarshalJob | ErrContextDone | ErrLeaseLost | ErrPoisonJob
  | ErrBackend.                       (** an error of a remote store *)

Record ReservationToken := mkToken { t_ID : Z; t_Attempts : Z; t_ReservedBy : string }.
Definition IsZero (t : ReservationToken) : bool := t_ID t =? 0.

Definition dedupeKeyRetention : Z := 7 * 24 * HOUR.

(** The queue a job goes to: the caller's name, else the job's, else the default. *)
Definition queue_of (onQueue : string) (queueName : option string) : string :=
  let own := if String.eqb onQueue "" then "default" else onQueue in
  match queueName with
  | Some name => if String.eqb name "" then own else name
  | None => own
  end.

Section driver.
Context `{JB : Jobs}.

Record jobWrapper := mkWrapper {
  w_Job : option Job;
  w_Data : Data;
  w_Queue : string;
  w_Attempts : Z;
  w_DedupeKey : string
}.

Record delayedJob := mkDelayed { d_wrapper : jobWrapper; runAt : Z }.
Record failedJob := mkFailed { f_wrapper : jobWrapper; f_job : option Job; f_error : string; failedAt : Z }.
Record memReservation := mkReservation { r_wrapper : jobWrapper; r_queue : string }.

Record MemoryDriver := mkDriver {
  queues : gmap string (list jobWrapper);
  delayed : gmap string (list delayedJob);
  failed : gmap string (list failedJob);
  dedupeKeys : gmap string Z;
  reservations : gmap Z memReservation;
  nextReservationID : Z
}.
Implicit Types (m : MemoryDriver) (w : jobWrapper).

Definition NewMemoryDriver : MemoryDriver := mkDriver ∅ ∅ ∅ ∅ ∅ 0.

Definition with_queues m q := mkDriver q (delayed m) (failed m) (dedupeKeys m) (reservations m) (nextReservationID m).
Definition with_delayed m d := mkDriver (queues m) d (failed m) (dedupeKeys m) (reservations m) (nextReservationID m).
Definition with_failed m f := mkDriver (queues m) (delayed m) f (dedupeKeys m) (reservations m) (nextReservationID m).
Definition with_keys m k := mkDriver (queues m) (delayed m) (failed m) k (reservations m) (nextReservationID m).
Definition with_reservations m r := mkDriver (queues m) (delayed m) (failed m) (dedupeKeys m) r (nextReservationID m).

(** ** Admission *)

(** [None] is a nil job. *)
Definition admitJob (job : option Job) (queueName : option string) : result QueueError (Job * string) :=
  match job with
  | None => Err ErrNilJob
  | Some j => Ok (j, queue_of (OnQueue j) queueName)
  end.

Definition createJobWrapper (job : Job) (queueName : string) : result QueueError jobWrapper :=
  match marshal job with
  | None => Err ErrMarshalJob
  | Some data => Ok (mkWrapper (Some job) data queueName 0 "")
  end.

Definition getJobFromWrapper w : option Job :=
  match w_Job w with Some j => Some j | None => hydrate (w_Data w) end.

(** Admission and wrapping, before the lock. *)
Definition admit_wrapper (cancelled : bool) (job : option Job) (queueName : option string)
    : result QueueError (string * jobWrapper) :=
  if cancelled then Err ErrContextDone
  else match admitJob job queueName with
       | Err e => Err e
       | Ok (j, name) => match createJobWrapper j name with
                         | Err e => Err e
                         | Ok w => Ok (name, w)
                         end
       end.

(** ** Pushing *)

Definition push_back (q : gmap string (list jobWrapper)) (name : string) w :=
  <[name := default [] (q !! name) ++ [w]]> q.

Definition push_delayed (d : gmap string (list delayedJob)) (name : string) (j : delayedJob) :=
  <[name := heap_Push runAt (default [] (d !! name)) j]> d.

Definition PushCtx m (cancelled : bool) (job : option Job) (queueName : option string)
    : MemoryDriver * option QueueError :=
  match admit_wrapper cancelled job queueName with
  | Err e => (m, Some e)
  | Ok (name, w) => (with_queues m (push_back (queues m) name w), None)
  end.

Definition PushDelayedCtx m (cancelled : bool) (job : option Job) (delay now : Z)
    (queueName : option string) : MemoryDriver * option QueueError :=
  match admit_wrapper cancelled job queueName with
  | Err e => (m, Some e)
  | Ok (name, w) => (with_delayed m (push_delayed (delayed m) name (mkDelayed w (now + delay))), None)
  end.

Definition PushIfNotExistsCtx m (cancelled : bool) (job : option Job) (dedupeKey : string) (now : Z)
    (queueName : option string) : MemoryDriver * option QueueError :=
  if String.eqb dedupeKey "" then PushCtx m cancelled job queueName
  else match admit_wrapper cancelled job queueName with
       | Err e => (m, Some e)
       | Ok (name, w) =>
           let w := mkWrapper (w_Job w) (w_Data w) (w_Queue w) (w_Attempts w) dedupeKey in
           match dedupeKeys m !! dedupeKey with
           | Some _ => (m, None)
           | None => (with_keys (with_queues m (push_back (queues m) name w))
                        (<[dedupeKey := now]> (dedupeKeys m)), None)
           end
       end.

(** ** Popping *)

Definition popWrapper m (queueName : string) : MemoryDriver * option jobWrapper :=
  match queues m !! queueName with
  | Some (w :: q) => (with_queues m (<[queueName := q]> (queues m)), Some w)
  | _ => (m, None)
  end.

(** reserveNext: the attempts are counted on the wrapper before it is leased. *)
Definition reserveNext m (queueName : string)
    : MemoryDriver * option (jobWrapper * ReservationToken) :=
  match queues m !! queueName with
  | Some (w :: q) =>
      let w := mkWrapper (w_Job w) (w_Data w) (w_Queue w) (wrap64 (w_Attempts w + 1)) (w_DedupeKey w) in
      let id := wrap64 (nextReservationID m + 1) in
      (mkDriver (<[queueName := q]> (queues m)) (delayed m) (failed m) (dedupeKeys m)
         (<[id := mkReservation w queueName]> (reservations m)) id,
       Some (w, mkToken id (w_Attempts w) ""))
  | _ => (m, None)
  end.

Definition add_failed (f : gmap string (list failedJob)) (name : string) (j : failedJob) :=
  <[name := default [] (f !! name) ++ [j]]> f.

(** quarantine: [token] zero for a pop without a reservation. *)
Definition quarantine m (queueName : string) (token : ReservationToken) w (cause : string) (now : Z)
    : MemoryDriver * QueueError :=
  let record m := with_failed m (add_failed (failed m) queueName (mkFailed w None cause now)) in
  if IsZero token then (record m, ErrPoisonJob)
  else match reservations m !! t_ID token with
       | None => (m, ErrLeaseLost)
       | Some _ => (record (with_reservations m (delete (t_ID token) (reservations m))), ErrPoisonJob)
       end.

(** PopCtx and PopCtxReserved.  The job is rebuilt between the two sections:
    [mid] is what the driver becomes meanwhile. *)
Definition PopCtx m (cancelled : bool) (queueName : string) (mid : MemoryDriver -> MemoryDriver)
    (cause : string) (now : Z) : MemoryDriver * result QueueError (option Job) :=
  if cancelled then (m, Err ErrContextDone)
  else match popWrapper m queueName with
       | (m, None) => (m, Ok None)
       | (m, Some w) =>
           match getJobFromWrapper w with
           | Some j => (m, Ok (Some j))
           | None => let '(m, e) := quarantine (mid m) queueName (mkToken 0 0 "") w cause now in (m, Err e)
           end
       end.

Definition PopCtxReserved m (cancelled : bool) (queueName : string)
    (mid : MemoryDriver -> MemoryDriver) (cause : string) (now : Z)
    : MemoryDriver * result QueueError (option (Job * ReservationToken)) :=
  if cancelled then (m, Err ErrContextDone)
  else match reserveNext m queueName with
       | (m, None) => (m, Ok None)
       | (m, Some (w, token)) =>
           match getJobFromWrapper w with
           | Some j => (m, Ok (Some (j, token)))
           | None => let '(m, e) := quarantine (mid m) queueName token w cause now in (m, Err e)
           end
       end.

(** ** Settling a reservation *)

Definition AckCtx m (token : ReservationToken) (cancelled : bool) : MemoryDriver * option QueueError :=
  if IsZero token then (m, None)
  else if cancelled then (m, Some ErrContextDone)
  else match reservations m !! t_ID token with
       | None => (m, Some ErrLeaseLost)
       | Some _ => (with_reservations m (delete (t_ID token) (reservations m)), None)
       end.

Definition ReleaseCtx m (token : ReservationToken) (cancelled : bool) (delay now : Z)
    : MemoryDriver * option QueueError :=
  if IsZero token then (m, None)
  else if cancelled then (m, Some ErrContextDone)
  else
    let delay := if delay <? 0 then 0 else delay in
    match reservations m !! t_ID token with
    | None => (m, Some ErrLeaseLost)
    | Some r =>
        (with_delayed (with_reservations m (delete (t_ID token) (reservations m)))
           (push_delayed (delayed m) (r_queue r) (mkDelayed (r_wrapper r) (now + delay))), None)
    end.

Definition FailedCtx m (job : Job) (err queueName : string) (now : Z)
    : MemoryDriver * option QueueError :=
  match createJobWrapper job queueName with
  | Err e => (m, Some e)
  | Ok w => (with_failed m (add_failed (failed m) queueName (mkFailed w (Some job) err now)), None)
  end.

Definition FailReservedCtx m (token : ReservationToken) (cancelled : bool) (job : Job)
    (err queueName : string) (now : Z) : MemoryDriver * option QueueError :=
  if IsZero token then FailedCtx m job err queueName now
  else if cancelled then (m, Some ErrContextDone)
  else match reservations m !! t_ID token with
       | None => (m, Some ErrLeaseLost)
       | Some r =>
           (with_failed (with_reservations m (delete (t_ID token) (reservations m)))
              (add_failed (failed m) queueName (mkFailed (r_wrapper r) (Some job) err now)), None)
       end.

(** ** Inspection and clearing *)

Definition Size m (queueName : string) : Z := Z.of_nat (List.length (default [] (queues m !! queueName))).

Definition GetFailed m (queueName : string) : list failedJob := default [] (failed m !! queueName).

(** Delete the dedupe keys of a list of wrappers. *)
Definition drop_keys (ks : gmap string Z) (ws : list jobWrapper) : gmap string Z :=
  foldl (fun ks w => if String.eqb (w_DedupeKey w) "" then ks else delete (w_DedupeKey w) ks) ks ws.

Definition reserved_from m (queueName : string) : list jobWrapper :=
  r_wrapper <$> (map_to_list (filter (fun ir => r_queue ir.2 = queueName) (reservations m))).*2.

Definition Clear m (queueName : string) : MemoryDriver :=
  let ks := drop_keys (dedupeKeys m) (default [] (queues m !! queueName)) in
  let ks := drop_keys ks (d_wrapper <$> default [] (delayed m !! queueName)) in
  let ks := drop_keys ks (reserved_from m queueName) in
  mkDriver (delete queueName (queues m)) (delete queueName (delayed m)) (failed m) ks
    (filter (fun ir => r_queue ir.2 <> queueName) (reservations m)) (nextReservationID m).

(** ** The background loop *)

(** Every wrapper that is queued, delayed or reserved. *)
Definition live_wrappers m : list jobWrapper :=
  (map_to_list (queues m) ≫= snd)
  ++ (d_wrapper <$> (map_to_list (delayed m) ≫= snd))
  ++ (r_wrapper <$> (map_to_list (reservations m)).*2).

Definition key_of w : option string := if String.eqb (w_DedupeKey w) "" then None else Some (w_DedupeKey w).

Definition liveDedupeKeysLocked m : gset string := list_to_set (omap key_of (live_wrappers m)).

Definition sweepStaleDedupeKeys m (now : Z) : MemoryDriver :=
  with_keys m (filter (fun ki => ki.1 ∈ liveDedupeKeysLocked m \/ now - ki.2 < dedupeKeyRetention)
                 (dedupeKeys m)).

(** The inner loop of moveReadyJobs; each round pops the heap once, so the
    heap's length bounds the rounds.  Returns what was moved and what is
    left. *)
Fixpoint drain (fuel : nat) (now : Z) (h : list delayedJob) : list jobWrapper * list delayedJob :=
  match fuel, h with
  | S fuel', top :: _ =>
      if now <? runAt top then ([], h)
      else match heap_Pop runAt h with
           | Some (j, h') => let '(moved, rest) := drain fuel' now h' in (d_wrapper j :: moved, rest)
           | None => ([], h)
           end
  | _, _ => ([], h)
  end.

(** One queue of the outer loop. *)
Definition move_queue (now : Z) m (queueName : string) : MemoryDriver :=
  match delayed m !! queueName with
  | None => m
  | Some h =>
      let '(moved, rest) := drain (List.length h) now h in
      let q := foldl (fun q w => push_back q queueName w) (queues m) moved in
      with_delayed (with_queues m q)
        (match rest with
         | [] => delete queueName (delayed m)
         | _ => <[queueName := rest]> (delayed m)
         end)
  end.

(** [names] is the order the heaps are visited in. *)
Definition moveReadyJobs m (now : Z) (names : list string) : MemoryDriver :=
  foldl (move_queue now) m names.

End driver.
Arguments jobWrapper : clear implicits.
Arguments jobWrapper {JB}.
Arguments MemoryDriver : clear implicits.
Arguments MemoryDriver {JB}.
