(* ===== verification/QueueSpec.v ===== *)
(** * What the in-memory queue promises

    Theorems about QueueMemory.v over histories of driver operations: no job
    is lost or duplicated, at most one live job per dedupe key, reservations
    are fenced, and delayed jobs become ready on time and in order. *)

From Stdlib Require Import Ascii String.
From stdpp Require Import list_tactics.
From S2P Require Import Prelude GoStrings Heap QueueMemory.
Local Open Scope string_scope.
Local Open Scope list_scope.
Local Open Scope Z_scope.

(** ** Maps of lists *)

Section flat.
Context {K A : Type} `{Countable K}.
Implicit Types (m : gmap K (list A)) (f : gmap K A).

Definition flat m : list A := map_to_list m ≫= snd.
Definition vals f : list A := (map_to_list f).*2.

Lemma flat_insert m k l : flat (<[k := l]> m) ≡ₚ l ++ flat (delete k m).
Proof.
  unfold flat. rewrite <- insert_delete_eq, map_to_list_insert by apply lookup_delete_eq. done.
Qed.

Lemma flat_split m k : flat m ≡ₚ default [] (m !! k) ++ flat (delete k m).
Proof.
  destruct (m !! k) as [l|] eqn:E; simpl.
  - rewrite <- (insert_id m k l E) at 1. apply flat_insert.
  - by rewrite delete_id.
Qed.

Lemma vals_insert f k x : vals (<[k := x]> f) ≡ₚ x :: vals (delete k f).
Proof.
  unfold vals. rewrite <- insert_delete_eq, map_to_list_insert by apply lookup_delete_eq. done.
Qed.

Lemma vals_split f k x : f !! k = Some x -> vals f ≡ₚ x :: vals (delete k f).
Proof. intros Hk. rewrite <- (insert_id f k x Hk) at 1. apply vals_insert. Qed.

Lemma map_to_list_filter_perm (P : K * A -> Prop) `{!forall x, Decision (P x)} f :
  map_to_list (filter P f) ≡ₚ filter P (map_to_list f).
Proof.
  rewrite map_filter_alt. apply map_to_list_to_map.
  apply (sublist_NoDup _ ((map_to_list f).*1)); [apply NoDup_fst_map_to_list|].
  apply fmap_sublist, sublist_filter.
Qed.

Lemma vals_filter_split (P : K * A -> Prop) `{!forall x, Decision (P x)} f :
  vals f ≡ₚ vals (filter P f) ++ vals (filter (fun x => ~ P x) f).
Proof.
  unfold vals. rewrite !map_to_list_filter_perm, <- fmap_app. by rewrite filter_app_complement.
Qed.

End flat.

Section spec.
Context `{JB : Jobs}.
Implicit Types (m : MemoryDriver) (w : jobWrapper).

(** A wrapper without its attempts counter, which reserving changes. *)
Definition strip w : jobWrapper := mkWrapper (w_Job w) (w_Data w) (w_Queue w) 0 (w_DedupeKey w).

Definition live m : list jobWrapper := strip <$> live_wrappers m.

(** ** Histories *)

Inductive qop :=
  | QPush (c : bool) (j : option Job) (q : option string)
  | QPushDelayed (c : bool) (j : option Job) (delay now : Z) (q : option string)
  | QPushUnique (c : bool) (j : option Job) (key : string) (now : Z) (q : option string)
  | QPop (q : string)
  | QReserve (q : string)
  | QQuarantine (q : string) (t : ReservationToken) (w : jobWrapper) (cause : string) (now : Z)
  | QAck (t : ReservationToken) (c : bool)
  | QRelease (t : ReservationToken) (c : bool) (delay now : Z)
  | QFail (t : ReservationToken) (c : bool) (j : Job) (err q : string) (now : Z)
  | QFailed (j : Job) (err q : string) (now : Z)
  | QClear (q : string)
  | QMove (now : Z) (names : list string)
  | QSweep (now : Z).

(** The reserved wrapper a settled token takes out of the driver. *)
Definition settled m (t : ReservationToken) (c : bool) : list jobWrapper :=
  if IsZero t || c then []
  else match reservations m !! t_ID t with Some r => [r_wrapper r] | None => [] end.

(** A step: the state after it, the wrappers that came in and those that left
    the set of live jobs. *)
Definition qstep m (o : qop) : MemoryDriver * list jobWrapper * list jobWrapper :=
  match o with
  | QPush c j q =>
      let r := PushCtx m c j q in
      (r.1, match admit_wrapper c j q with Ok (_, w) => [w] | Err _ => [] end, [])
  | QPushDelayed c j delay now q =>
      let r := PushDelayedCtx m c j delay now q in
      (r.1, match admit_wrapper c j q with Ok (_, w) => [w] | Err _ => [] end, [])
  | QPushUnique c j key now q =>
      let r := PushIfNotExistsCtx m c j key now q in
      (r.1,
       match admit_wrapper c j q with
       | Ok (_, w) => if bool_decide (key <> "" /\ is_Some (dedupeKeys m !! key)) then []
                      else [mkWrapper (w_Job w) (w_Data w) (w_Queue w) (w_Attempts w) key]
       | Err _ => []
       end, [])
  | QPop q => let r := popWrapper m q in (r.1, [], option_list r.2)
  | QReserve q => let r := reserveNext m q in (r.1, [], [])
  | QQuarantine q t w cause now => let r := quarantine m q t w cause now in (r.1, [], settled m t false)
  | QAck t c => let r := AckCtx m t c in (r.1, [], settled m t c)
  | QRelease t c delay now => let r := ReleaseCtx m t c delay now in (r.1, [], [])
  | QFail t c j err q now => let r := FailReservedCtx m t c j err q now in (r.1, [], settled m t c)
  | QFailed j err q now => ((FailedCtx m j err q now).1, [], [])
  | QClear q =>
      (Clear m q, [],
       default [] (queues m !! q) ++ (d_wrapper <$> default [] (delayed m !! q)) ++ reserved_from m q)
  | QMove now names => (moveReadyJobs m now names, [], [])
  | QSweep now => (sweepStaleDedupeKeys m now, [], [])
  end.

(** A history: the final state, everything that came in, everything that
    left. *)
Fixpoint qrun m (h : list qop) : MemoryDriver * list jobWrapper * list jobWrapper :=
  match h with
  | [] => (m, [], [])
  | o :: h' =>
      let '(m, came, gone) := qstep m o in
      let '(m, came', gone') := qrun m h' in
      (m, came ++ came', gone ++ gone')
  end.

(** ** Live jobs, collection by collection *)

Lemma live_alt m :
  live_wrappers m = flat (queues m) ++ (d_wrapper <$> flat (delayed m))
                    ++ (r_wrapper <$> vals (reservations m)).
Proof. done. Qed.

Lemma flat_push_back q name w : flat (push_back q name w) ≡ₚ w :: flat q.
Proof.
  unfold push_back. rewrite flat_insert, (flat_split q name).
  rewrite <- app_assoc. simpl. by rewrite Permutation_middle.
Qed.

Lemma flat_push_delayed d name j :
  (forall k h, d !! k = Some h -> is_heap runAt h) -> flat (push_delayed d name j) ≡ₚ j :: flat d.
Proof.
  intros Hh. unfold push_delayed. rewrite flat_insert, (flat_split d name).
  assert (Hd : is_heap runAt (default [] (d !! name))).
  { destruct (d !! name) eqn:E; [by eapply Hh|apply heap_nil]. }
  destruct (heap_Push_spec runAt _ j Hd) as [_ ->]. done.
Qed.

(** ** Invariant *)

Record driver_ok m : Prop := {
  ok_heaps : forall k h, delayed m !! k = Some h -> is_heap runAt h;
  ok_ids : forall id r, reservations m !! id = Some r -> 0 < id <= nextReservationID m;
  ok_next : 0 <= nextReservationID m
}.

Lemma driver_ok_new : driver_ok NewMemoryDriver.
Proof. split; simpl; [intros ??; by rewrite lookup_empty|intros ??; by rewrite lookup_empty|lia]. Qed.

Lemma drain_spec fuel now h :
  (List.length h <= fuel)%nat -> is_heap runAt h ->
  exists js, (drain fuel now h).1 = d_wrapper <$> js
    /\ h ≡ₚ js ++ (drain fuel now h).2 /\ is_heap runAt (drain fuel now h).2
    /\ Forall (fun j => runAt j <= now) js
    /\ Forall (fun j => now < runAt j) (drain fuel now h).2
    /\ StronglySorted (fun a b => runAt a <= runAt b) js.
Proof.
  revert h. induction fuel as [|fuel IH]; intros h Hlen Hh.
  { destruct h; [|simpl in Hlen; lia]. exists []. split_and!; done || constructor. }
  destruct h as [|top h0] eqn:Eh; [exists []; split_and!; done || constructor|].
  rewrite <- Eh in *. assert (Hne : h <> []) by (by rewrite Eh).
  destruct (heap_Pop_spec runAt h Hh Hne) as (x & h' & Hpop & Hperm & Hh' & Hx & Hmin).
  assert (x = top) as -> by (rewrite Eh in Hx; simpl in Hx; congruence).
  assert (Hlen' : (List.length h' <= fuel)%nat) by (apply Permutation_length in Hperm; simpl in *; lia).
  destruct (IH h' Hlen' Hh') as (js & H1 & H2 & H3 & H4 & H5 & H6).
  rewrite Eh. cbn [drain]. rewrite <- Eh. rewrite Hpop.
  destruct (Z.ltb_spec now (runAt top)) as [Hlt|Hge].
  - exists []. simpl. split_and!; [done|done|done|constructor| |constructor].
    apply Forall_forall. intros y Hy. specialize (Hmin y Hy). lia.
  - destruct (drain fuel now h') as [moved rest]. simpl in *. exists (top :: js).
    split_and!; [by rewrite H1|by rewrite Hperm, H2|done|by constructor|done|].
    constructor; [done|]. apply Forall_forall. intros y Hy. apply Hmin.
    rewrite Hperm, H2. right. apply elem_of_app. by left.
Qed.

Lemma push_all q name ws :
  foldl (fun q w => push_back q name w) q ws
  = match ws with [] => q | _ => <[name := default [] (q !! name) ++ ws]> q end.
Proof.
  revert q. induction ws as [|w ws IH] using rev_ind; intros q; [done|].
  rewrite foldl_app, IH. simpl. destruct ws as [|w0 ws]; [done|]. simpl.
  unfold push_back. rewrite lookup_insert_eq. simpl. rewrite insert_insert_eq. by rewrite <- app_assoc.
Qed.

Lemma flat_push_all q name ws : flat (foldl (fun q w => push_back q name w) q ws) ≡ₚ ws ++ flat q.
Proof.
  revert q. induction ws as [|w ws IH]; intros q; simpl; [done|].
  rewrite IH, flat_push_back. by rewrite Permutation_middle.
Qed.

Lemma flat_set_rest (d : gmap string (list delayedJob)) name rest :
  flat (match rest with [] => delete name d | _ => <[name := rest]> d end) ≡ₚ rest ++ flat (delete name d).
Proof. destruct rest; [done|]. apply flat_insert. Qed.

Lemma move_queue_live now m name :
  driver_ok m -> live_wrappers (move_queue now m name) ≡ₚ live_wrappers m.
Proof.
  intros [Hh _ _]. unfold move_queue. destruct (delayed m !! name) as [h|] eqn:E; [|done].
  destruct (drain_spec (List.length h) now h ltac:(lia) (Hh _ _ E)) as (js & H1 & H2 & _).
  destruct (drain (List.length h) now h) as [moved rest]. simpl in H1, H2.
  rewrite !live_alt. cbn [queues delayed reservations with_delayed with_queues].
  rewrite flat_push_all, flat_set_rest, (flat_split (delayed m) name), E. simpl.
  rewrite H2, H1, !fmap_app. solve_Permutation.
Qed.

Lemma moveReadyJobs_live now names m :
  driver_ok m ->
  live_wrappers (moveReadyJobs m now names) ≡ₚ live_wrappers m /\ driver_ok (moveReadyJobs m now names)
  /\ nextReservationID (moveReadyJobs m now names) = nextReservationID m
  /\ dedupeKeys (moveReadyJobs m now names) = dedupeKeys m.
Proof.
  unfold moveReadyJobs. revert m. induction names as [|name names IH]; intros m Hok; simpl; [done|].
  assert (Hok' : driver_ok (move_queue now m name)
    /\ nextReservationID (move_queue now m name) = nextReservationID m
    /\ dedupeKeys (move_queue now m name) = dedupeKeys m).
  { unfold move_queue. destruct (delayed m !! name) as [h|] eqn:E; [|done].
    destruct Hok as [Hh Hid Hn].
    destruct (drain_spec (List.length h) now h ltac:(lia) (Hh _ _ E)) as (js & _ & _ & H3 & _).
    destruct (drain (List.length h) now h) as [moved rest]. split; [|done]. split; [|exact Hid|done].
    intros k h'. cbn [delayed with_delayed with_queues]. simpl in H3. destruct rest as [|r rest].
    - rewrite lookup_delete. case_decide; [done|]. apply Hh.
    - rewrite lookup_insert. case_decide; [by intros [= <-]|]. apply Hh. }
  destruct Hok' as (Hok' & Hn & Hk). destruct (IH _ Hok') as (H1 & H2 & H3 & H4).
  split_and!; [by rewrite H1, move_queue_live|done|congruence|congruence].
Qed.

Lemma live_push m name w :
  live_wrappers (with_queues m (push_back (queues m) name w)) ≡ₚ live_wrappers m ++ [w].
Proof. rewrite !live_alt. cbn [queues delayed reservations with_queues]. rewrite flat_push_back. solve_Permutation. Qed.

Lemma live_delay m name j :
  driver_ok m ->
  live_wrappers (with_delayed m (push_delayed (delayed m) name j)) ≡ₚ live_wrappers m ++ [d_wrapper j].
Proof.
  intros [Hh _ _]. rewrite !live_alt. cbn [queues delayed reservations with_delayed].
  rewrite (flat_push_delayed _ _ _ Hh). csimpl. solve_Permutation.
Qed.

Lemma driver_ok_delay m name j :
  driver_ok m -> driver_ok (with_delayed m (push_delayed (delayed m) name j)).
Proof.
  intros [Hh Hid Hn]. split; [|done..]. intros k h. cbn [delayed with_delayed]. unfold push_delayed.
  rewrite lookup_insert. case_decide; [intros [= <-]|apply Hh].
  apply heap_Push_spec. destruct (delayed m !! name) eqn:E; [by eapply Hh|apply heap_nil].
Qed.

Lemma live_unreserve m id r :
  reservations m !! id = Some r ->
  live_wrappers (with_reservations m (delete id (reservations m))) ++ [r_wrapper r] ≡ₚ live_wrappers m.
Proof.
  intros E. rewrite !live_alt. cbn [queues delayed reservations with_reservations].
  rewrite (vals_split (reservations m) id r E). csimpl. solve_Permutation.
Qed.

Lemma driver_ok_unreserve m id :
  driver_ok m -> driver_ok (with_reservations m (delete id (reservations m))).
Proof.
  intros [Hh Hid Hn]. split; [done| |done]. intros i r. cbn [reservations with_reservations].
  rewrite lookup_delete. case_decide; [done|]. apply Hid.
Qed.

Lemma live_pop m q w ws :
  queues m !! q = Some (w :: ws) ->
  live_wrappers (with_queues m (<[q := ws]> (queues m))) ++ [w] ≡ₚ live_wrappers m.
Proof.
  intros E. rewrite !live_alt. cbn [queues delayed reservations with_queues].
  rewrite flat_insert, (flat_split (queues m) q), E. simpl. solve_Permutation.
Qed.

Lemma live_clear m q :
  live_wrappers (Clear m q)
  ++ (default [] (queues m !! q) ++ (d_wrapper <$> default [] (delayed m !! q)) ++ reserved_from m q)
  ≡ₚ live_wrappers m.
Proof.
  rewrite !live_alt. cbn [queues delayed reservations Clear]. unfold reserved_from.
  rewrite (flat_split (queues m) q), (flat_split (delayed m) q).
  rewrite (vals_filter_split (fun ir => r_queue ir.2 = q) (reservations m)).
  unfold vals. rewrite !fmap_app. solve_Permutation.
Qed.

Lemma live_reserve m q w ws id :
  queues m !! q = Some (w :: ws) -> reservations m !! id = None ->
  forall w', strip w' = strip w ->
  strip <$> live_wrappers (mkDriver (<[q := ws]> (queues m)) (delayed m) (failed m) (dedupeKeys m)
              (<[id := mkReservation w' q]> (reservations m)) id) ≡ₚ strip <$> live_wrappers m.
Proof.
  intros E Hid w' Hw. rewrite <- (live_pop m q w ws E). rewrite !live_alt.
  cbn [queues delayed reservations with_queues]. rewrite vals_insert, delete_id by done. csimpl.
  rewrite !fmap_app. csimpl. rewrite Hw. solve_Permutation.
Qed.

(** ** One step *)

Lemma settled_cases m t c :
  IsZero t || c = true /\ settled m t c = []
  \/ IsZero t = false /\ c = false
     /\ (reservations m !! t_ID t = None /\ settled m t c = []
         \/ exists r, reservations m !! t_ID t = Some r /\ settled m t c = [r_wrapper r]).
Proof.
  unfold settled. destruct (IsZero t), c; simpl; auto.
  right. split_and!; [done|done|]. destruct (reservations m !! t_ID t); eauto.
Qed.

Lemma qstep_ok m o :
  driver_ok m -> nextReservationID m + 1 < two63 ->
  driver_ok (qstep m o).1.1 /\ nextReservationID (qstep m o).1.1 <= nextReservationID m + 1.
Proof.
  intros Hok Hn. pose proof Hok as [Hh Hid H0]. destruct o; cbn [qstep fst].
  - unfold PushCtx. repeat case_match; simpl; (split; [by split|lia]).
  - unfold PushDelayedCtx. repeat case_match; simpl; (split; [|lia]); try done.
    by apply driver_ok_delay.
  - unfold PushIfNotExistsCtx, PushCtx. repeat case_match; simpl; (split; [by split|lia]).
  - unfold popWrapper. repeat case_match; simpl; (split; [by split|lia]).
  - unfold reserveNext. repeat case_match; simpl; try (split; [done|lia]).
    rewrite wrap64_small by auto with go.
    split; [|lia]. split; simpl; [done| |lia]. intros i r. rewrite lookup_insert.
    case_decide; [intros [= <-]; lia|]. intros Hi%Hid. lia.
  - unfold quarantine. repeat case_match; simpl; (split; [|lia]); try done.
    by apply (driver_ok_unreserve m (t_ID t)) in Hok as [? ? ?].
  - unfold AckCtx. repeat case_match; simpl; (split; [|lia]); try done. by apply driver_ok_unreserve.
  - unfold ReleaseCtx. repeat case_match; simpl; (split; [|lia]); try done;
      by apply (driver_ok_delay (with_reservations m _)), driver_ok_unreserve.
  - unfold FailReservedCtx, FailedCtx. repeat case_match; simpl; (split; [|lia]); try done.
    by apply (driver_ok_unreserve m (t_ID t)) in Hok as [? ? ?].
  - unfold FailedCtx. repeat case_match; simpl; (split; [|lia]); done.
  - split; [|simpl; lia]. split; cbn [delayed reservations nextReservationID Clear].
    + intros k h. rewrite lookup_delete. case_decide; [done|]. apply Hh.
    + intros i r [Hi _]%map_lookup_filter_Some. by apply Hid in Hi.
    + done.
  - destruct (moveReadyJobs_live now names m Hok) as (_ & ? & -> & _). split; [done|lia].
  - split; [by split|simpl; lia].
Qed.

Lemma qstep_live m o :
  driver_ok m -> nextReservationID m + 1 < two63 ->
  live (qstep m o).1.1 ++ (strip <$> (qstep m o).2) ≡ₚ live m ++ (strip <$> (qstep m o).1.2).
Proof.
  intros Hok Hn. pose proof Hok as [_ Hid H0]. unfold live.
  assert (Hlift : forall m' came gone, live_wrappers m' ++ gone ≡ₚ live_wrappers m ++ came ->
    (strip <$> live_wrappers m') ++ (strip <$> gone) ≡ₚ (strip <$> live_wrappers m) ++ (strip <$> came)).
  { intros m' came gone Hp. by rewrite <- !fmap_app, Hp. }
  destruct o; cbn [qstep fst snd].
  - unfold PushCtx. apply Hlift. destruct (admit_wrapper c j q) as [[name w]|]; simpl; [|done].
    rewrite app_nil_r. apply live_push.
  - unfold PushDelayedCtx. apply Hlift. destruct (admit_wrapper c j q) as [[name w]|]; simpl; [|done].
    rewrite app_nil_r. by rewrite live_delay.
  - unfold PushIfNotExistsCtx, PushCtx. apply Hlift. destruct (String.eqb_spec key "") as [->|Hne].
    + destruct (admit_wrapper c j q) as [[name w]|] eqn:E; cbn [fst]; [|done]. rewrite app_nil_r.
      rewrite bool_decide_false by (by intros [? _]). rewrite live_push.
      assert (Hw : w_DedupeKey w = "").
      { unfold admit_wrapper, createJobWrapper in E. repeat case_match; by simplify_eq. }
      destruct w as [wj wd wq wa wk]. simpl in *. by subst.
    + destruct (admit_wrapper c j q) as [[name w]|]; cbn [fst]; [|done].
      destruct (dedupeKeys m !! key) eqn:Ek; cbn [fst].
      * by rewrite bool_decide_true.
      * rewrite bool_decide_false by (by intros [_ [? ?]]). rewrite app_nil_r. apply live_push.
  - unfold popWrapper. apply Hlift. destruct (queues m !! q) as [[|w ws]|] eqn:E; simpl; try done.
    rewrite live_pop by done. by rewrite app_nil_r.
  - unfold reserveNext. destruct (queues m !! q) as [[|w ws]|] eqn:E; simpl; try done.
    rewrite !app_nil_r. apply (live_reserve m q w ws); [done| |done].
    rewrite wrap64_small by auto with go.
    destruct (reservations m !! (nextReservationID m + 1)) eqn:Er; [|done]. apply Hid in Er. lia.
  - unfold quarantine. destruct (settled_cases m t false) as [[Hz ->]|(Hz & _ & [[Hr ->]|(r & Hr & ->)])].
    + rewrite orb_false_r in Hz. rewrite Hz. done.
    + by rewrite Hz, Hr.
    + rewrite Hz, Hr. apply Hlift. simpl. rewrite app_nil_r. by apply (live_unreserve m).
  - unfold AckCtx. destruct (settled_cases m t c) as [[Hz ->]|(Hz & -> & [[Hr ->]|(r & Hr & ->)])].
    + destruct (IsZero t), c; done.
    + by rewrite Hz, Hr.
    + rewrite Hz, Hr. apply Hlift. simpl. rewrite app_nil_r. by apply live_unreserve.
  - unfold ReleaseCtx. destruct (IsZero t); [done|]. destruct c; [done|].
    destruct (reservations m !! t_ID t) as [r|] eqn:Hr; cbn [fst]; [|done]. apply Hlift.
    rewrite !app_nil_r, <- (live_unreserve m (t_ID t) r Hr).
    apply (live_delay (with_reservations m (delete (t_ID t) (reservations m)))).
    by apply driver_ok_unreserve.
  - unfold FailReservedCtx. destruct (settled_cases m t c) as [[Hz ->]|(Hz & -> & [[Hr ->]|(r & Hr & ->)])].
    + destruct (IsZero t), c; try done; unfold FailedCtx; by destruct (createJobWrapper j q).
    + by rewrite Hz, Hr.
    + rewrite Hz, Hr. apply Hlift. simpl. rewrite app_nil_r. by apply (live_unreserve m).
  - unfold FailedCtx. by destruct (createJobWrapper j q).
  - apply Hlift. rewrite live_clear. by rewrite app_nil_r.
  - apply Hlift. rewrite !app_nil_r. by apply moveReadyJobs_live.
  - done.
Qed.

(** C6: no job is lost and none is delivered twice: through any history of
    pushes, pops, reservations, releases, failures, clears, sweeps and
    promotions of delayed jobs, the jobs that came in are exactly the jobs
    still queued, delayed or reserved together with those that were popped,
    acknowledged, failed or cleared. *)
Theorem jobs_are_conserved h :
  Z.of_nat (List.length h) < two63 - 1 ->
  let '(m, came, gone) := qrun NewMemoryDriver h in
  strip <$> came ≡ₚ live m ++ (strip <$> gone).
Proof.
  intros Hlen.
  assert (Hgen : forall m, driver_ok m -> nextReservationID m + Z.of_nat (List.length h) < two63 - 1 ->
    let '(m', came, gone) := qrun m h in live m ++ (strip <$> came) ≡ₚ live m' ++ (strip <$> gone)).
  { clear Hlen. induction h as [|o h IH]; intros m Hok Hn; cbn [qrun]; [done|].
    cbn [List.length] in Hn. rewrite Nat2Z.inj_succ in Hn.
    destruct (qstep_ok m o Hok ltac:(lia)) as [Hok' Hn'].
    pose proof (qstep_live m o Hok ltac:(lia)) as Hl.
    destruct (qstep m o) as [[m1 came] gone]. cbn [fst snd] in *.
    specialize (IH m1 Hok' ltac:(lia)). destruct (qrun m1 h) as [[m2 came'] gone'].
    rewrite !fmap_app, app_assoc, <- Hl, <- !app_assoc.
    rewrite (Permutation_app_comm (strip <$> gone)), app_assoc, IH. solve_Permutation. }
  specialize (Hgen NewMemoryDriver driver_ok_new ltac:(simpl; lia)).
  destruct (qrun NewMemoryDriver h) as [[m came] gone]. done.
Qed.

(** ** Dedupe keys *)

Definition live_keys m : list string := omap key_of (live_wrappers m).

Lemma key_of_strip (ws : list jobWrapper) : omap key_of (strip <$> ws) = omap key_of ws.
Proof. induction ws as [|w ws IH]; csimpl; [done|]. by rewrite IH. Qed.

Lemma omap_perm (l1 l2 : list jobWrapper) : l1 ≡ₚ l2 -> omap key_of l1 ≡ₚ omap key_of l2.
Proof.
  induction 1; csimpl; repeat case_match; try done.
  - by constructor.
  - constructor.
  - by etrans.
Qed.

Lemma qstep_keys m o :
  driver_ok m -> nextReservationID m + 1 < two63 ->
  live_keys (qstep m o).1.1 ++ omap key_of (qstep m o).2
  ≡ₚ live_keys m ++ omap key_of (qstep m o).1.2.
Proof.
  intros Hok Hn. pose proof (qstep_live m o Hok Hn) as Hl. apply omap_perm in Hl. unfold live in Hl.
  by rewrite !omap_app, !key_of_strip in Hl.
Qed.

(** Distinct live keys, all of them recorded. *)
Definition unique_keys m : Prop :=
  NoDup (live_keys m) /\ forall k, k ∈ live_keys m -> is_Some (dedupeKeys m !! k).

Lemma admit_no_key c j q name w : admit_wrapper c j q = Ok (name, w) -> w_DedupeKey w = "".
Proof. unfold admit_wrapper, createJobWrapper. intros. repeat case_match; by simplify_eq. Qed.

Lemma key_of_some w k : key_of w = Some k <-> w_DedupeKey w = k /\ k <> "".
Proof. unfold key_of. destruct (String.eqb_spec (w_DedupeKey w) ""); naive_solver. Qed.

Lemma lookup_drop_keys ks ws k :
  k ∉ omap key_of ws -> drop_keys ks ws !! k = ks !! k.
Proof.
  revert ks. unfold drop_keys. induction ws as [|w ws IH]; intros ks Hk; simpl; [done|].
  assert (Hk' : k ∉ omap key_of ws).
  { intros Hin. apply Hk. csimpl. destruct (key_of w); [by right|done]. }
  rewrite IH by done. destruct (String.eqb_spec (w_DedupeKey w) "") as [|Hne]; [done|].
  apply lookup_delete_ne. intros <-. apply Hk. csimpl.
  assert (key_of w = Some (w_DedupeKey w)) as -> by (by apply key_of_some). left.
Qed.

(** The keys that come in are new. *)
Lemma came_keys m o :
  driver_ok m ->
  (omap key_of (qstep m o).1.2 = [] /\ (forall k, k ∈ live_keys (qstep m o).1.1 ->
       k ∉ omap key_of (qstep m o).2 -> dedupeKeys (qstep m o).1.1 !! k = dedupeKeys m !! k))
  \/ exists k, omap key_of (qstep m o).1.2 = [k] /\ dedupeKeys m !! k = None
       /\ exists now, dedupeKeys (qstep m o).1.1 = <[k := now]> (dedupeKeys m).
Proof.
  intros Hok. destruct o; cbn [qstep fst snd].
  - left. unfold PushCtx. destruct (admit_wrapper c j q) as [[name w]|] eqn:E; [|done].
    split; [|done]. csimpl. unfold key_of. by rewrite (admit_no_key _ _ _ _ _ E).
  - left. unfold PushDelayedCtx. destruct (admit_wrapper c j q) as [[name w]|] eqn:E; [|done].
    split; [|done]. csimpl. unfold key_of. by rewrite (admit_no_key _ _ _ _ _ E).
  - unfold PushIfNotExistsCtx, PushCtx. destruct (String.eqb_spec key "") as [->|Hne].
    + left. destruct (admit_wrapper c j q) as [[name w]|] eqn:E; [|done]. split; [|done].
      by rewrite bool_decide_false by (by intros [? _]).
    + destruct (admit_wrapper c j q) as [[name w]|]; [|by left].
      destruct (dedupeKeys m !! key) eqn:Ek.
      * left. by rewrite bool_decide_true by (split; [done|by eexists]).
      * right. exists key. rewrite bool_decide_false by (by intros [_ [? ?]]).
        split_and!; [|done|by eexists]. csimpl. unfold key_of. simpl.
        by destruct (String.eqb_spec key "").
  - left. unfold popWrapper. split; [done|]. repeat case_match; done.
  - left. unfold reserveNext. split; [done|]. repeat case_match; done.
  - left. unfold quarantine. split; [done|]. repeat case_match; done.
  - left. unfold AckCtx. split; [done|]. repeat case_match; done.
  - left. unfold ReleaseCtx. split; [done|]. repeat case_match; done.
  - left. unfold FailReservedCtx, FailedCtx. split; [done|]. repeat case_match; done.
  - left. unfold FailedCtx. split; [done|]. repeat case_match; done.
  - left. split; [done|]. intros k _ Hk. rewrite !omap_app in Hk. cbn [dedupeKeys Clear].
    rewrite !lookup_drop_keys; [done|..]; intros Hin; apply Hk; rewrite !elem_of_app; auto.
  - left. split; [done|]. intros k Hk _. destruct (moveReadyJobs_live now names m Hok) as (_ & _ & _ & ->). done.
  - left. split; [done|]. intros k Hk _. cbn [dedupeKeys sweepStaleDedupeKeys with_keys].
    destruct (dedupeKeys m !! k) as [v|] eqn:E.
    + apply map_lookup_filter_Some. split; [done|]. left. unfold liveDedupeKeysLocked.
      apply elem_of_list_to_set. exact Hk.
    + apply map_lookup_filter_None. by left.
Qed.

Lemma qstep_unique m o :
  driver_ok m -> nextReservationID m + 1 < two63 -> unique_keys m -> unique_keys (qstep m o).1.1.
Proof.
  intros Hok Hn [Hnd Hin]. pose proof (qstep_keys m o Hok Hn) as Hk.
  destruct (came_keys m o Hok) as [[Hc Hd]|(k & Hc & Hnone & now & Hd)]; rewrite Hc in Hk.
  - rewrite app_nil_r in Hk. rewrite <- Hk in Hnd. apply NoDup_app in Hnd as (Hnd1 & Hdis & _).
    split; [done|]. intros k Hk'. rewrite Hd; [|done|by apply Hdis].
    apply Hin. rewrite <- Hk. apply elem_of_app. by left.
  - assert (Hnk : k ∉ live_keys m) by (intros [? ?]%Hin; congruence).
    assert (Hnd' : NoDup (live_keys m ++ [k])).
    { apply NoDup_app. split_and!; [done| |apply NoDup_singleton].
      intros x Hx Hxk%list_elem_of_singleton. by subst. }
    rewrite <- Hk in Hnd'. apply NoDup_app in Hnd' as (Hnd1 & _ & _). split; [done|].
    intros k' Hk'. rewrite Hd, lookup_insert. case_decide; [by eexists|].
    apply Hin. assert (Hx : k' ∈ live_keys m ++ [k]) by (rewrite <- Hk; apply elem_of_app; by left).
    apply elem_of_app in Hx as [?|Hx%list_elem_of_singleton]; by subst.
Qed.

Lemma qrun_ok m h :
  driver_ok m -> unique_keys m -> nextReservationID m + Z.of_nat (List.length h) < two63 - 1 ->
  driver_ok (qrun m h).1.1 /\ unique_keys (qrun m h).1.1
  /\ nextReservationID (qrun m h).1.1 <= nextReservationID m + Z.of_nat (List.length h).
Proof.
  revert m. induction h as [|o h IH]; intros m Hok Hu Hn; cbn [qrun].
  { simpl. split_and!; [done|done|lia]. }
  cbn [List.length] in *. rewrite Nat2Z.inj_succ in *.
  destruct (qstep_ok m o Hok ltac:(lia)) as [Hok' Hn'].
  pose proof (qstep_unique m o Hok ltac:(lia) Hu) as Hu'.
  destruct (qstep m o) as [[m1 came] gone]. cbn [fst snd] in *.
  destruct (IH m1 Hok' Hu' ltac:(lia)) as (? & ? & ?). destruct (qrun m1 h) as [[m2 came'] gone'].
  simpl in *. split_and!; [done|done|lia].
Qed.

Lemma unique_keys_new : unique_keys NewMemoryDriver.
Proof. split; [constructor|]. intros k Hk. by apply elem_of_nil in Hk. Qed.

Lemma qrun_new h :
  Z.of_nat (List.length h) < two63 - 1 ->
  driver_ok (qrun NewMemoryDriver h).1.1 /\ unique_keys (qrun NewMemoryDriver h).1.1
  /\ nextReservationID (qrun NewMemoryDriver h).1.1 <= Z.of_nat (List.length h).
Proof.
  intros Hn. destruct (qrun_ok NewMemoryDriver h driver_ok_new unique_keys_new) as (? & ? & ?);
    [simpl; lia|]. simpl in *. done.
Qed.

(** at most one live job per dedupe key: after any history of operations,
    sweeps and clears included, no two jobs that are queued, delayed or
    reserved carry the same dedupe key, and pushing a key whose job is still
    live changes nothing and reports success. *)
Theorem dedupe_keys_are_unique h :
  Z.of_nat (List.length h) < two63 - 1 ->
  let m := (qrun NewMemoryDriver h).1.1 in
  NoDup (live_keys m)
  /\ forall k job now q, k ∈ live_keys m -> is_Some (marshal job) ->
       PushIfNotExistsCtx m false (Some job) k now q = (m, None).
Proof.
  intros Hn m. destruct (qrun_new h Hn) as (_ & [Hnd Hin] & _). split; [done|].
  intros k job now q Hk [data Hd]. subst m. unfold PushIfNotExistsCtx.
  assert (k <> "").
  { apply list_elem_of_omap in Hk as (w & _ & [_ ?]%key_of_some). done. }
  destruct (String.eqb_spec k ""); [done|]. apply Hin in Hk as [t Ht]. unfold admit_wrapper, createJobWrapper.
  destruct (admitJob (Some job) q) as [[j name]|] eqn:E; simpl in E.
  - assert (j = job) as -> by (repeat case_match; by simplify_eq). by rewrite Hd, Ht.
  - repeat case_match; done.
Qed.

(** ** Delayed jobs *)

Definition ready m (q : string) : list jobWrapper := default [] (queues m !! q).
Definition pending m (q : string) : list delayedJob := default [] (delayed m !! q).

Lemma move_queue_other now m name q :
  name <> q -> queues (move_queue now m name) !! q = queues m !! q
           /\ delayed (move_queue now m name) !! q = delayed m !! q.
Proof.
  intros Hne. unfold move_queue. destruct (delayed m !! name) as [h|]; [|done].
  destruct (drain _ _ _) as [moved rest]. cbn [queues delayed with_delayed with_queues].
  rewrite push_all. split.
  - destruct moved; [done|]. by rewrite lookup_insert_ne.
  - destruct rest; [by rewrite lookup_delete_ne|by rewrite lookup_insert_ne].
Qed.

Lemma moves_other now names m q :
  q ∉ names -> queues (moveReadyJobs m now names) !! q = queues m !! q
            /\ delayed (moveReadyJobs m now names) !! q = delayed m !! q.
Proof.
  unfold moveReadyJobs. revert m. induction names as [|name names IH]; intros m Hq; simpl; [done|].
  apply not_elem_of_cons in Hq as [Hne Hq]. destruct (IH (move_queue now m name) Hq) as [-> ->].
  by apply move_queue_other.
Qed.

Lemma move_queue_same now m q :
  driver_ok m ->
  exists js, ready (move_queue now m q) q = ready m q ++ (d_wrapper <$> js)
    /\ pending m q ≡ₚ js ++ pending (move_queue now m q) q
    /\ Forall (fun j => runAt j <= now) js
    /\ Forall (fun j => now < runAt j) (pending (move_queue now m q) q)
    /\ StronglySorted (fun a b => runAt a <= runAt b) js.
Proof.
  intros [Hh _ _]. unfold ready, pending, move_queue. destruct (delayed m !! q) as [h|] eqn:E.
  - destruct (drain_spec (List.length h) now h ltac:(lia) (Hh _ _ E)) as (js & H1 & H2 & _ & H4 & H5 & H6).
    destruct (drain (List.length h) now h) as [moved rest]. simpl in H1, H2, H5. exists js. subst moved.
    cbn [queues delayed with_delayed with_queues]. rewrite push_all.
    assert (Hrest : default [] (match rest with [] => delete q (delayed m)
                                | _ => <[q := rest]> (delayed m) end !! q) = rest).
    { destruct rest; [by rewrite lookup_delete_eq|by rewrite lookup_insert_eq]. }
    rewrite Hrest. split_and!; try done.
    destruct js as [|j js]; csimpl; [by rewrite app_nil_r|by rewrite lookup_insert_eq].
  - exists []. rewrite E. simpl. rewrite app_nil_r. split_and!; done || constructor.
Qed.

(** the background tick promotes exactly the jobs that are due: after it,
    every delayed job with a run time up to the clock reading is at the end of
    its ready queue, earliest first, behind the jobs already there, and every
    job with a later run time is still waiting, whatever the order the queues
    are visited in. *)
Theorem due_jobs_become_ready_in_order h now names q :
  Z.of_nat (List.length h) < two63 - 1 ->
  let m := (qrun NewMemoryDriver h).1.1 in
  let m' := moveReadyJobs m now names in
  names ≡ₚ (map_to_list (delayed m)).*1 ->
  exists js, ready m' q = ready m q ++ (d_wrapper <$> js)
    /\ pending m q ≡ₚ js ++ pending m' q
    /\ Forall (fun j => runAt j <= now) js
    /\ Forall (fun j => now < runAt j) (pending m' q)
    /\ StronglySorted (fun a b => runAt a <= runAt b) js.
Proof.
  intros Hn m m' Hnames. destruct (qrun_new h Hn) as (Hok & _ & _). fold m in Hok.
  assert (Hnd : NoDup names) by (rewrite Hnames; apply NoDup_fst_map_to_list).
  destruct (decide (q ∈ names)) as [Hq|Hq].
  - apply list_elem_of_split in Hq as (l1 & l2 & ->). subst m'.
    apply NoDup_app in Hnd as (_ & Hdis & [Hq2 _]%NoDup_cons).
    assert (Hq1 : q ∉ l1) by (intros Hx; apply (Hdis q Hx); left).
    unfold moveReadyJobs. rewrite foldl_app. cbn [foldl].
    fold (moveReadyJobs m now l1). set (m1 := moveReadyJobs m now l1).
    fold (moveReadyJobs (move_queue now m1 q) now l2).
    destruct (moveReadyJobs_live now l1 m Hok) as (_ & Hok1 & _).
    destruct (moves_other now l1 m q Hq1) as [Hm1 Hm1'].
    destruct (moves_other now l2 (move_queue now m1 q) q Hq2) as [Hm2 Hm2'].
    destruct (move_queue_same now m1 q Hok1) as (js & H1 & H2 & H3 & H4 & H5).
    exists js. unfold ready, pending in *. rewrite Hm2, Hm2', <- Hm1, <- Hm1'. fold m1. done.
  - destruct (moves_other now names m q Hq) as [H1 H2]. unfold ready, pending. subst m'. rewrite H1, H2.
    assert (Hnone : delayed m !! q = None).
    { apply eq_None_not_Some. intros Hs. apply Hq. rewrite Hnames. by apply elem_of_keys. }
    exists []. rewrite Hnone. simpl. rewrite app_nil_r. split_and!; done || constructor.
Qed.

(** ** Reservations *)

(** a reservation is a lease that is settled once: reserving hands out a
    token no live lease has, counts the attempt on the job, and exactly one of
    acknowledge, release and fail on the token succeeds; every later one, and
    every one after the queue was cleared, reports the lease lost and changes
    nothing. *)
Theorem reservation_settles_once h q m1 w token :
  Z.of_nat (List.length h) < two63 - 1 ->
  let m := (qrun NewMemoryDriver h).1.1 in
  reserveNext m q = (m1, Some (w, token)) ->
  IsZero token = false /\ reservations m !! t_ID token = None
  /\ (exists w0 rest, queues m !! q = Some (w0 :: rest) /\ strip w = strip w0
        /\ t_Attempts token = wrap64 (w_Attempts w0 + 1))
  /\ (AckCtx m1 token false).2 = None
  /\ (forall m2, m2 = (AckCtx m1 token false).1 \/ m2 = Clear m1 q
        \/ (exists delay now, m2 = (ReleaseCtx m1 token false delay now).1)
        \/ (exists j err now, m2 = (FailReservedCtx m1 token false j err q now).1) ->
      AckCtx m2 token false = (m2, Some ErrLeaseLost)
      /\ (forall delay now, ReleaseCtx m2 token false delay now = (m2, Some ErrLeaseLost))
      /\ forall j err now, FailReservedCtx m2 token false j err q now = (m2, Some ErrLeaseLost)).
Proof.
  intros Hn m Hr. destruct (qrun_new h Hn) as ([_ Hid H0] & _ & Hmax). fold m in Hid, H0, Hmax.
  unfold reserveNext in Hr. destruct (queues m !! q) as [[|w0 rest]|] eqn:E; [done| |done].
  injection Hr as <- <- <-. rewrite wrap64_small by auto with go.
  set (id := nextReservationID m + 1).
  assert (Hz : (id =? 0) = false) by (apply Z.eqb_neq; lia).
  split_and!.
  - done.
  - cbn [t_ID]. destruct (reservations m !! id) eqn:Er; [|done]. apply Hid in Er. lia.
  - exists w0, rest. done.
  - unfold AckCtx, IsZero. cbn [t_ID reservations]. by rewrite Hz, lookup_insert_eq.
  - intros m2 Hm2.
    assert (Hgone : reservations m2 !! id = None).
    { unfold AckCtx, ReleaseCtx, FailReservedCtx, IsZero in Hm2. cbn [t_ID reservations] in Hm2.
      rewrite Hz, lookup_insert_eq in Hm2.
      destruct Hm2 as [->|[->|[(? & ? & ->)|(? & ? & ? & ->)]]];
        cbn [fst Clear reservations with_reservations with_delayed with_failed];
        try apply lookup_delete_eq.
      apply map_lookup_filter_None. right. intros r. rewrite lookup_insert_eq. intros [= <-]. simpl. tauto. }
    unfold AckCtx, ReleaseCtx, FailReservedCtx, IsZero. cbn [t_ID]. rewrite Hz, Hgone. done.
Qed.

End spec.

(** ** A concrete driver *)

#[export] Instance number_jobs : Jobs := {
  Job := nat; Data := nat; OnQueue _ := ""; marshal j := Some j; hydrate d := Some d
}.

Definition sample_history : list qop :=
  [ QPush false (Some 1%nat) None; QPushUnique false (Some 2%nat) "batch-7" 10 None;
    QPushDelayed false (Some 3%nat) 50 10 None; QPushDelayed false (Some 4%nat) 20 10 None;
    QReserve "default"; QRelease (mkToken 1 1 "") false 5 40; QMove 45 ["default"];
    QReserve "default"; QSweep (10 + dedupeKeyRetention) ].

Lemma jobs_are_conserved_witness :
  let '(m, came, gone) := qrun NewMemoryDriver sample_history in
  strip <$> came ≡ₚ live m ++ (strip <$> gone).
Proof. apply (jobs_are_conserved sample_history). reflexivity. Defined.

Lemma dedupe_keys_are_unique_witness :
  let m := (qrun NewMemoryDriver sample_history).1.1 in
  PushIfNotExistsCtx m false (Some 9%nat) "batch-7" 99 None = (m, None).
Proof.
  apply (dedupe_keys_are_unique sample_history).
  - reflexivity.
  - vm_compute. repeat constructor.
  - by exists 9%nat.
Defined.

Lemma due_jobs_become_ready_in_order_witness :
  let m := (qrun NewMemoryDriver (take 6 sample_history)).1.1 in
  let m' := moveReadyJobs m 45 ["default"] in
  (exists js, ready m' "default" = ready m "default" ++ (d_wrapper <$> js)
    /\ pending m "default" ≡ₚ js ++ pending m' "default"
    /\ Forall (fun j => runAt j <= 45) js
    /\ Forall (fun j => 45 < runAt j) (pending m' "default")
    /\ StronglySorted (fun a b => runAt a <= runAt b) js)
  /\ @w_Job number_jobs <$> ready m' "default" = [Some 2%nat; Some 4%nat; Some 1%nat].
Proof.
  split; [|vm_compute; reflexivity].
  apply (due_jobs_become_ready_in_order (take 6 sample_history) 45 ["default"] "default"); reflexivity.
Defined.

Lemma reservation_settles_once_witness :
  let m := (qrun NewMemoryDriver (take 7 sample_history)).1.1 in
  let token := mkToken 2 1 "" in
  IsZero token = false /\ reservations m !! t_ID token = None.
Proof.
  destruct (reservation_settles_once (take 7 sample_history) "default"
    (reserveNext (qrun NewMemoryDriver (take 7 sample_history)).1.1 "default").1
    (@mkWrapper number_jobs (Some 2%nat) 2%nat "default" 1 "batch-7") (mkToken 2 1 "")) as (H1 & H2 & _).
  - reflexivity.
  - vm_compute. reflexivity.
  - split; [exact H1|exact H2].
Defined.
