(* ===== verification/Batch.v ===== *)
(** * Job batches

    Models the accounting of queue/batch.go with the in-memory repository of
    queue/batch_repository.go: the counters of a batch, the settlement of one
    job's outcome, cancellation, and the callbacks and events a batch fires.

    Workers record the outcomes of the jobs of a batch concurrently, and a
    failed dispatch releases the slots of the jobs it did not push.  Each of
    them is a thread whose steps are the critical section of settleSlot and the
    single atomic accesses around it; a schedule is any interleaving.  The
    in-memory repository hands out the batch itself, so mirroring a readback
    (copyCountersFrom) is the identity.  Starting a closure, starting the push of
    a named callback and emitting an event are effects, recorded in order; what
    they run is outside the model.  The repository's own operations on its map
    of batches, pruning and the callbacks still to dispatch included, follow. *)

From Stdlib Require Import Ascii String.
From S2P Require Import Prelude.
Local Open Scope string_scope.
Local Open Scope list_scope.
Local Open Scope Z_scope.

(** ** Data *)

Inductive CallbackKind := CallbackThen | CallbackCatch | CallbackFinally.

(** A zero [finishedAt] is the zero time.  The total is an int; the three
    counters are atomic.Int32, so what is stored in or added to one wraps
    around at 32 bits. *)
Record Batch := mkBatch {
  totalJobs : Z;
  pendingJobs : Z;
  completedJobs : Z;
  failedJobs : Z;
  allowFailures : bool;
  b_cancelled : bool;
  finished : bool;
  finishedAt : Z;
  lastError : string;
  thenName : string;
  catchName : string;
  finallyName : string;
  thenDispatched : bool;
  catchDispatched : bool;
  finallyDispatched : bool
}.

Definition eta_batch (b : Batch) : Batch :=
  mkBatch (totalJobs b) (pendingJobs b) (completedJobs b) (failedJobs b) (allowFailures b) (b_cancelled b)
    (finished b) (finishedAt b) (lastError b) (thenName b) (catchName b) (finallyName b)
    (thenDispatched b) (catchDispatched b) (finallyDispatched b).

Definition set_pending : Z -> Batch -> Batch := ltac:(set_field eta_batch pendingJobs).
Definition set_completed : Z -> Batch -> Batch := ltac:(set_field eta_batch completedJobs).
Definition set_failed : Z -> Batch -> Batch := ltac:(set_field eta_batch failedJobs).
Definition set_cancelled : bool -> Batch -> Batch := ltac:(set_field eta_batch b_cancelled).
Definition set_finished : bool -> Batch -> Batch := ltac:(set_field eta_batch finished).
Definition set_finishedAt : Z -> Batch -> Batch := ltac:(set_field eta_batch finishedAt).
Definition set_lastError : string -> Batch -> Batch := ltac:(set_field eta_batch lastError).
Definition set_thenDispatched : bool -> Batch -> Batch := ltac:(set_field eta_batch thenDispatched).
Definition set_catchDispatched : bool -> Batch -> Batch := ltac:(set_field eta_batch catchDispatched).
Definition set_finallyDispatched : bool -> Batch -> Batch := ltac:(set_field eta_batch finallyDispatched).

(** The closures of the dispatching process: whether each is set, and the
    guards that fire them once. *)
Record callbackEntry := mkEntry {
  thenFn : bool;
  catchFn : bool;
  finallyFn : bool;
  catchOnce : bool;
  finishedFired : bool
}.

Inductive Effect :=
  | BatchJobCompleted (completed total : Z)
  | BatchJobFailed (failed total : Z)
  | BatchCancelled (failed : Z)
  | BatchCompleted (total completed failed : Z) (hasFailures : bool)
  | RunThen
  | RunCatch (err : string)
  | RunFinally
  | PushCallback (kind : CallbackKind) (name err : string).

Record World := mkWorld { batch : Batch; entry : callbackEntry; out : list Effect }.

Definition with_batch (b : Batch) (w : World) : World := mkWorld b (entry w) (out w).
Definition with_entry (e : callbackEntry) (w : World) : World := mkWorld (batch w) e (out w).
Definition emit (l : list Effect) (w : World) : World := mkWorld (batch w) (entry w) (out w ++ l).

Definition HasFailures (b : Batch) : bool := 0 <? failedJobs b.

(** ** Settling a slot *)

Definition add_outcome (completed failed : Z) (errText : option string) (b : Batch) : Batch :=
  let b := set_pending (wrap32 (pendingJobs b - 1)) b in
  let b := set_completed (wrap32 (completedJobs b + completed)) b in
  let b := set_failed (wrap32 (failedJobs b + failed)) b in
  match errText with Some e => set_lastError e b | None => b end.

Definition settleSlot (completed failed : Z) (errText : option string) (now : Z) (b : Batch) : Batch * bool :=
  if pendingJobs b <=? 0 then (b, false)
  else
    let b := add_outcome completed failed errText b in
    if (pendingJobs b =? 0) && negb (finished b)
    then (set_finishedAt now (set_finished true b), true)
    else (b, false).

(** ** The in-memory repository *)

(** The batches by id, with the registry of closures (globalCallbacks).  A
    context that has ended makes every operation return its error and change
    nothing. *)
Record inMemoryBatchRepository := mkRepo {
  batches : gmap string Batch;
  callbacks : gmap string callbackEntry
}.

Definition with_batches (m : gmap string Batch) (r : inMemoryBatchRepository) : inMemoryBatchRepository :=
  mkRepo m (callbacks r).

Definition register (id : string) (e : callbackEntry) (r : inMemoryBatchRepository) : inMemoryBatchRepository :=
  mkRepo (batches r) (<[id := e]> (callbacks r)).

Definition remove (id : string) (r : inMemoryBatchRepository) : inMemoryBatchRepository :=
  mkRepo (batches r) (delete id (callbacks r)).

Section Repository.

(** The error of the caller's context, when it has ended. *)
Context (ctxErr : option string).

Definition guarded {A} (x : A) : A + string := match ctxErr with Some e => inr e | None => inl x end.

Definition Find (id : string) (r : inMemoryBatchRepository) : option Batch + string := guarded (batches r !! id).

Definition Save (id : string) (b : Batch) (r : inMemoryBatchRepository) : inMemoryBatchRepository + string :=
  guarded (with_batches (<[id := b]> (batches r)) r).

Definition settle (id : string) (completed failed : Z) (errText : option string) (now : Z)
    (r : inMemoryBatchRepository) : (inMemoryBatchRepository * option Batch * bool) + string :=
  guarded match batches r !! id with
          | None => (r, None, false)
          | Some b =>
              let '(b, fin) := settleSlot completed failed errText now b in
              (with_batches (<[id := b]> (batches r)) r, Some b, fin)
          end.

Definition IncrementSuccess (id : string) := settle id 1 0 None.
Definition IncrementFailure (id : string) (jobErr : option string) := settle id 0 1 jobErr.
Definition DecrementPending (id : string) := settle id 0 0 None.

Definition Cancel (id : string) (r : inMemoryBatchRepository) :
    (inMemoryBatchRepository * option Batch) + string :=
  guarded match batches r !! id with
          | None => (r, None)
          | Some b =>
              let b := set_cancelled true b in (with_batches (<[id := b]> (batches r)) r, Some b)
          end.

Definition Delete (id : string) (r : inMemoryBatchRepository) : inMemoryBatchRepository + string :=
  guarded (with_batches (delete id (batches r)) r).

(** A finished batch is stale once its time of finishing is known and before
    the cutoff. *)
Definition stale (cutoff : Z) (b : Batch) : bool :=
  finished b && negb (finishedAt b =? 0) && (finishedAt b <? cutoff).

Definition PruneStale (now olderThan : Z) (r : inMemoryBatchRepository) : (inMemoryBatchRepository * nat) + string :=
  let gone := filter (fun kv => stale (now - olderThan) kv.2 = true) (batches r) in
  guarded (mkRepo (batches r ∖ gone) (filter (fun kv => gone !! kv.1 = None) (callbacks r)), size gone).

Definition mark (kind : CallbackKind) : Batch -> Batch :=
  match kind with
  | CallbackThen => set_thenDispatched true
  | CallbackCatch => set_catchDispatched true
  | CallbackFinally => set_finallyDispatched true
  end.

Definition MarkCallbackDispatched (id : string) (kind : CallbackKind) (r : inMemoryBatchRepository) :
    inMemoryBatchRepository + string :=
  guarded (with_batches (alter (mark kind) id (batches r)) r).

Record UndispatchedCallback := mkUndispatched {
  u_BatchID : string; u_Kind : CallbackKind; u_Name : string; u_ErrMsg : string
}.

Definition undispatched_catch (id : string) (b : Batch) : list UndispatchedCallback :=
  if negb (String.eqb (catchName b) "") && negb (catchDispatched b) && (0 <? failedJobs b)
  then [mkUndispatched id CallbackCatch (catchName b) (lastError b)] else [].

Definition undispatched_then (id : string) (b : Batch) : list UndispatchedCallback :=
  if negb (String.eqb (thenName b) "") && negb (thenDispatched b) && negb (0 <? failedJobs b)
  then [mkUndispatched id CallbackThen (thenName b) ""] else [].

Definition undispatched_finally (id : string) (b : Batch) : list UndispatchedCallback :=
  if negb (String.eqb (finallyName b) "") && negb (finallyDispatched b)
  then [mkUndispatched id CallbackFinally (finallyName b) (lastError b)] else [].

(** The callbacks of one batch, appended to [acc] until [limit] of them are
    collected. *)
Definition collect (limit : Z) (acc : list UndispatchedCallback) (kv : string * Batch) : list UndispatchedCallback :=
  let '(id, b) := kv in
  let full (l : list UndispatchedCallback) := limit <=? Z.of_nat (List.length l) in
  if full acc then acc
  else
    let acc := acc ++ undispatched_catch id b in
    if full acc || negb (finished b) then acc
    else
      let acc := acc ++ undispatched_then id b in
      if full acc then acc else acc ++ undispatched_finally id b.

(** [order] is the order the map was visited in. *)
Definition FindUndispatchedCallbacks (order : list (string * Batch)) (limit : Z) :
    list UndispatchedCallback + string :=
  guarded (fold_left (collect (if limit <=? 0 then 100 else limit)) order []).

End Repository.

(** ** The threads *)

(** The outcome of a job the worker records; [Drain n] is a dispatch that
    failed with [n] jobs not pushed. *)
Inductive Outcome :=
  | Success
  | Failure (err : string)
  | Skip
  | Drain (n : nat).

(** What a thread does next; [fin] says that it finished the batch. *)
Inductive Thread :=
  | TSettle (o : Outcome)
  | TDrain (n : nat) (anyFinished : bool)
  | TCompletedEvent (fin : bool)
  | TFailedEvent (err : string) (fin : bool)
  | TCatch (err : string) (fin : bool)
  | TNamedCatch (err : string) (fin : bool)
  | TCancel (fin : bool)
  | TCancelEvent (fin : bool)
  | TFireFinished
  | TRunThen
  | TRunFinally
  | TNamedThen
  | TNamedFinally
  | TCompleted
  | TDone.

(** fireTerminalCallbacks, when the thread finished the batch. *)
Definition then_terminal (fin : bool) : Thread := if fin then TFireFinished else TDone.

Definition dispatch_named (kind : CallbackKind) (name err : string) : list Effect :=
  if String.eqb name "" then [] else [PushCallback kind name err].

(** The Catch closure, once per batch. *)
Definition fireCatch (err : string) (w : World) : World :=
  let e := entry w in
  if catchOnce e then w
  else emit (if catchFn e then [RunCatch err] else [])
         (with_entry (mkEntry (thenFn e) (catchFn e) (finallyFn e) true (finishedFired e)) w).

(** The compare-and-swap of CancelCtx, and its event. *)
Definition swap_cancelled (w : World) : World * bool :=
  if b_cancelled (batch w) then (w, false) else (with_batch (set_cancelled true (batch w)) w, true).
Definition emit_cancelled (w : World) : World := emit [BatchCancelled (failedJobs (batch w))] w.

(** The compare-and-swap of fireFinished, and its two closures. *)
Definition claim_finished (w : World) : World * bool :=
  let e := entry w in
  if finishedFired e then (w, false)
  else (with_entry (mkEntry (thenFn e) (catchFn e) (finallyFn e) (catchOnce e) true) w, true).
Definition run_then (w : World) : World :=
  emit (if negb (HasFailures (batch w)) && thenFn (entry w) then [RunThen] else []) w.
Definition run_finally (w : World) : World := emit (if finallyFn (entry w) then [RunFinally] else []) w.

(** The named callbacks and the event of fireTerminalCallbacks. *)
Definition push_then (w : World) : World :=
  emit (if HasFailures (batch w) then [] else dispatch_named CallbackThen (thenName (batch w)) "") w.
Definition push_finally (w : World) : World :=
  emit (dispatch_named CallbackFinally (finallyName (batch w)) (lastError (batch w))) w.
Definition emit_completed (w : World) : World :=
  let b := batch w in
  emit [BatchCompleted (totalJobs b) (completedJobs b) (failedJobs b) (HasFailures b)] w.

(** The events of recordSuccess and recordFailure, and the named Catch. *)
Definition emit_job_completed (w : World) : World :=
  emit [BatchJobCompleted (completedJobs (batch w)) (totalJobs (batch w))] w.
Definition emit_job_failed (w : World) : World :=
  emit [BatchJobFailed (failedJobs (batch w)) (totalJobs (batch w))] w.
Definition push_catch (err : string) (w : World) : World :=
  emit (dispatch_named CallbackCatch (catchName (batch w)) err) w.

(** The settlement each kind of record starts with. *)
Definition recordSuccess (now : Z) (w : World) : World * Thread :=
  let '(b, fin) := settleSlot 1 0 None now (batch w) in (with_batch b w, TCompletedEvent fin).
Definition recordFailure (err : string) (now : Z) (w : World) : World * Thread :=
  let '(b, fin) := settleSlot 0 1 (Some err) now (batch w) in (with_batch b w, TFailedEvent err fin).
Definition recordSkip (now : Z) (w : World) : World * Thread :=
  let '(b, fin) := settleSlot 0 0 None now (batch w) in (with_batch b w, then_terminal fin).

(** One round of the loop that releases the slots a failed dispatch did not
    push; after the last one the batch is cancelled. *)
Definition drain_step (n : nat) (anyFinished : bool) (now : Z) (w : World) : World * Thread :=
  match n with
  | S n =>
      let '(b, fin) := settleSlot 0 0 None now (batch w) in (with_batch b w, TDrain n (anyFinished || fin))
  | O => (w, TCancel anyFinished)
  end.

(** The next step of a thread. *)
Definition step (now : Z) (w : World) (t : Thread) : World * Thread :=
  let b := batch w in
  match t with
  | TSettle Success => recordSuccess now w
  | TSettle (Failure err) => recordFailure err now w
  | TSettle Skip => recordSkip now w
  | TSettle (Drain n) => (w, TDrain n false)
  | TDrain n any => drain_step n any now w
  | TCompletedEvent fin => (emit_job_completed w, then_terminal fin)
  | TFailedEvent err fin => (emit_job_failed w, TCatch err fin)
  | TCatch err fin => (fireCatch err w, TNamedCatch err fin)
  | TNamedCatch err fin => (push_catch err w, if allowFailures b then then_terminal fin else TCancel fin)
  | TCancel fin => let '(w, swapped) := swap_cancelled w in (w, if swapped then TCancelEvent fin else then_terminal fin)
  | TCancelEvent fin => (emit_cancelled w, then_terminal fin)
  | TFireFinished => let '(w, claimed) := claim_finished w in (w, if claimed then TRunThen else TNamedThen)
  | TRunThen => (run_then w, TRunFinally)
  | TRunFinally => (run_finally w, TNamedThen)
  | TNamedThen => (push_then w, TNamedFinally)
  | TNamedFinally => (push_finally w, TCompleted)
  | TCompleted => (emit_completed w, TDone)
  | TDone => (w, TDone)
  end.

(** ** Schedules *)

Record System := mkSystem { world : World; threads : list Thread }.

(** One step of the [i]-th thread. *)
Definition sys_step (s : System) (it : nat * Z) : System :=
  match threads s !! it.1 with
  | Some t => let '(w, t') := step it.2 (world s) t in mkSystem w (<[it.1 := t']> (threads s))
  | None => s
  end.

Definition run_schedule (sched : list (nat * Z)) (s : System) : System := fold_left sys_step sched s.

(** A batch Dispatch has just saved, of [n] jobs: the total is len(pb.jobs),
    the pending counter int32(len(pb.jobs)). *)
Definition newBatch (n : Z) (allow : bool) (thenN catchN finallyN : string) : Batch :=
  mkBatch n (wrap32 n) 0 0 allow false false 0 "" thenN catchN finallyN false false false.

Definition newEntry (t c f : bool) : callbackEntry := mkEntry t c f false false.

Definition start (b : Batch) (e : callbackEntry) (os : list Outcome) : System :=
  mkSystem (mkWorld b e []) (TSettle <$> os).

(** ** The terminal effects *)

Definition is_terminal (x : Effect) : bool :=
  match x with
  | RunThen | RunFinally | PushCallback (CallbackThen | CallbackFinally) _ _ | BatchCompleted _ _ _ _ => true
  | _ => false
  end.

Definition terminal (l : list Effect) : list Effect := List.filter is_terminal l.

Definition closure_then (b : Batch) (e : callbackEntry) : list Effect :=
  if negb (HasFailures b) && thenFn e then [RunThen] else [].
Definition closure_finally (e : callbackEntry) : list Effect := if finallyFn e then [RunFinally] else [].
Definition named_then (b : Batch) : list Effect :=
  if HasFailures b then [] else dispatch_named CallbackThen (thenName b) "".
Definition named_finally (b : Batch) : list Effect :=
  dispatch_named CallbackFinally (finallyName b) (lastError b).
Definition completed_event (b : Batch) : list Effect :=
  [BatchCompleted (totalJobs b) (completedJobs b) (failedJobs b) (HasFailures b)].

(** What a finished batch must have fired, in order: Then only without
    failures, Finally and BatchCompleted always. *)
Definition owed (b : Batch) (e : callbackEntry) : list Effect :=
  closure_then b e ++ closure_finally e ++ named_then b ++ named_finally b ++ completed_event b.

(** The thread that finished the batch and has not yet reported it. *)
Definition owner (t : Thread) : bool :=
  match t with
  | TSettle _ | TDone => false
  | TDrain _ f | TCompletedEvent f | TFailedEvent _ f | TCatch _ f | TNamedCatch _ f | TCancel f
  | TCancelEvent f => f
  | _ => true
  end.

(** It has not yet claimed the closures. *)
Definition unclaimed (t : Thread) : bool :=
  match t with TRunThen | TRunFinally | TNamedThen | TNamedFinally | TCompleted => false | _ => true end.

(** What it still has to fire. *)
Definition todo (b : Batch) (e : callbackEntry) (t : Thread) : list Effect :=
  match t with
  | TRunFinally => closure_finally e ++ named_then b ++ named_finally b ++ completed_event b
  | TNamedThen => named_then b ++ named_finally b ++ completed_event b
  | TNamedFinally => named_finally b ++ completed_event b
  | TCompleted => completed_event b
  | TDone => []
  | _ => owed b e
  end.

(** ** One step *)

Ltac unfold_step H :=
  cbn [step] in H;
  unfold fireCatch, swap_cancelled, emit_cancelled, claim_finished, run_then, run_finally, push_then, push_finally,
    emit_completed, emit_job_completed, emit_job_failed, push_catch, recordSuccess, recordFailure, recordSkip, drain_step in H.

(** The parts of the state the terminal effects are computed from. *)
Definition frozen (w : World) :=
  (totalJobs (batch w), pendingJobs (batch w), completedJobs (batch w), failedJobs (batch w),
   lastError (batch w), thenName (batch w), finallyName (batch w), finished (batch w),
   thenFn (entry w), finallyFn (entry w)).

Lemma owed_frozen w w' : frozen w = frozen w' -> owed (batch w) (entry w) = owed (batch w') (entry w').
Proof.
  unfold frozen. intros [= E1 E2 E3 E4 E5 E6 E7 E8 E9 E10].
  unfold owed, closure_then, closure_finally, named_then, named_finally, completed_event, HasFailures.
  by rewrite E1, E3, E4, E5, E6, E7, E9, E10.
Qed.

Lemma todo_frozen w w' t : frozen w = frozen w' -> todo (batch w) (entry w) t = todo (batch w') (entry w') t.
Proof.
  intros E. pose proof (owed_frozen w w' E) as Ho. revert E. unfold frozen. intros [= E1 E2 E3 E4 E5 E6 E7 E8 E9 E10].
  destruct t; cbn [todo]; try exact Ho; try done;
    unfold closure_finally, named_then, named_finally, completed_event, HasFailures;
    by rewrite ?E1, ?E3, ?E4, ?E5, ?E6, ?E7, ?E9, ?E10.
Qed.

Lemma terminal_app l l' : terminal (l ++ l') = terminal l ++ terminal l'.
Proof. apply List.filter_app. Qed.

Lemma terminal_named k name err :
  k <> CallbackCatch -> terminal (dispatch_named k name err) = dispatch_named k name err.
Proof. intros Hk. unfold dispatch_named. destruct (String.eqb name ""); [done|]. by destruct k. Qed.

Lemma terminal_catch name err : terminal (dispatch_named CallbackCatch name err) = [].
Proof. unfold dispatch_named. by destruct (String.eqb name ""). Qed.

Lemma terminal_closure_then b e :
  terminal (if negb (HasFailures b) && thenFn e then [RunThen] else []) = closure_then b e.
Proof. unfold closure_then. by destruct (negb (HasFailures b) && thenFn e). Qed.

Lemma terminal_closure_finally e : terminal (if finallyFn e then [RunFinally] else []) = closure_finally e.
Proof. unfold closure_finally. by destruct (finallyFn e). Qed.

Lemma terminal_named_then b :
  terminal (if HasFailures b then [] else dispatch_named CallbackThen (thenName b) "") = named_then b.
Proof. unfold named_then. destruct (HasFailures b); [done|]. by apply terminal_named. Qed.

Lemma settled_full b c f err now : pendingJobs b <= 0 -> settleSlot c f err now b = (b, false).
Proof. intros H. unfold settleSlot. by destruct (Z.leb_spec (pendingJobs b) 0); [|lia]. Qed.

(** After the batch is finished a thread without the duty changes nothing the
    terminal effects depend on. *)
Lemma step_other now w t w' t' :
  pendingJobs (batch w) <= 0 -> owner t = false -> step now w t = (w', t') ->
  frozen w' = frozen w /\ owner t' = false /\ terminal (out w') = terminal (out w)
  /\ finishedFired (entry w') = finishedFired (entry w).
Proof.
  intros Hp Ho H. destruct t as [o|n any|fin|err fin|err fin|err fin|fin|fin| | | | | | |]; cbn [owner] in Ho;
    try done; subst; unfold_step H.
  - destruct o as [|err| |n]; try rewrite settled_full in H by done; injection H as <- <-; by destruct w.
  - destruct n as [|n]; [by injection H as <- <-|]. rewrite settled_full in H by done.
    injection H as <- <-. by destruct w.
  - injection H as <- <-. cbn. by rewrite terminal_app, app_nil_r.
  - injection H as <- <-. cbn. by rewrite terminal_app, app_nil_r.
  - destruct (catchOnce (entry w)); injection H as <- <-; [done|]. cbn. rewrite terminal_app.
    destruct (catchFn (entry w)); by rewrite app_nil_r.
  - injection H as <- <-. cbn. rewrite terminal_app, terminal_catch, app_nil_r.
    by destruct (allowFailures (batch w)).
  - destruct (b_cancelled (batch w)); by injection H as <- <-.
  - injection H as <- <-. cbn. by rewrite terminal_app, app_nil_r.
  - by injection H as <- <-.
Qed.

(** The thread with the duty fires what it owes. *)
Lemma step_owner now w t w' t' :
  pendingJobs (batch w) <= 0 -> owner t = true -> (unclaimed t = true -> finishedFired (entry w) = false) ->
  step now w t = (w', t') ->
  frozen w' = frozen w
  /\ terminal (out w') ++ todo (batch w') (entry w') t' = terminal (out w) ++ todo (batch w) (entry w) t
  /\ (owner t' = true \/ t' = TDone)
  /\ (unclaimed t' = true -> owner t' = true -> finishedFired (entry w') = false).
Proof.
  intros Hp Ho Hf H. destruct t as [o|n any|fin|err fin|err fin|err fin|fin|fin| | | | | | |]; cbn [owner] in Ho;
    try done; subst; cbn [unclaimed] in *; unfold_step H.
  - destruct n as [|n]; [injection H as <- <-; by auto|]. rewrite settled_full in H by done.
    injection H as <- <-. destruct w. by auto.
  - injection H as <- <-. cbn. rewrite terminal_app, app_nil_r. by auto.
  - injection H as <- <-. cbn. rewrite terminal_app, app_nil_r. by auto.
  - destruct (catchOnce (entry w)); injection H as <- <-; [by auto|]. cbn. rewrite terminal_app.
    destruct (catchFn (entry w)); rewrite app_nil_r; by auto.
  - injection H as <- <-. cbn. rewrite terminal_app, terminal_catch, app_nil_r.
    destruct (allowFailures (batch w)); by auto.
  - destruct (b_cancelled (batch w)); injection H as <- <-; by auto.
  - injection H as <- <-. cbn. rewrite terminal_app, app_nil_r. by auto.
  - rewrite (Hf eq_refl) in H. injection H as <- <-. by auto.
  - injection H as <- <-. cbn. rewrite terminal_app, terminal_closure_then, <- app_assoc. by auto.
  - injection H as <- <-. cbn. rewrite terminal_app, terminal_closure_finally, <- app_assoc. by auto.
  - injection H as <- <-. cbn. rewrite terminal_app, terminal_named_then, <- app_assoc. by auto.
  - injection H as <- <-. cbn. rewrite terminal_app, terminal_named, <- app_assoc by done. by auto.
  - injection H as <- <-. cbn. rewrite terminal_app, app_nil_r. by auto.
Qed.

Definition counts_ok (b : Batch) : Prop :=
  0 <= pendingJobs b /\ 0 <= completedJobs b /\ 0 <= failedJobs b
  /\ completedJobs b + failedJobs b + pendingJobs b <= totalJobs b < two31.

(** Within the counters' width an outcome is counted exactly. *)
Lemma settled_open b c f err now b' fin :
  counts_ok b -> 0 <= c -> 0 <= f -> c + f <= 1 -> 0 < pendingJobs b -> finished b = false -> settleSlot c f err now b = (b', fin) ->
  pendingJobs b' = pendingJobs b - 1 /\ completedJobs b' = completedJobs b + c
  /\ failedJobs b' = failedJobs b + f /\ totalJobs b' = totalJobs b
  /\ finished b' = fin /\ fin = (pendingJobs b' =? 0).
Proof.
  intros (Hc0 & Hc1 & Hc2 & Hc3) Hc Hf0 Hcf Hp Hf. unfold settleSlot. destruct (Z.leb_spec (pendingJobs b) 0); [lia|].
  assert (Ha : pendingJobs (add_outcome c f err b) = pendingJobs b - 1
    /\ completedJobs (add_outcome c f err b) = completedJobs b + c
    /\ failedJobs (add_outcome c f err b) = failedJobs b + f
    /\ totalJobs (add_outcome c f err b) = totalJobs b /\ finished (add_outcome c f err b) = false)
    by (unfold add_outcome; destruct err; cbn;
        rewrite !wrap32_small by (unfold two31 in *; lia); done).
  destruct Ha as (Ea & Ec & Ef & Et & Eg). rewrite Eg, andb_true_r.
  destruct (pendingJobs (add_outcome c f err b) =? 0) eqn:E; intros [= <- <-]; cbn; by rewrite ?E.
Qed.

(** Slots a thread has still to settle. *)
Definition remaining (t : Thread) : nat :=
  match t with
  | TSettle (Drain n) => n
  | TSettle _ => 1
  | TDrain n _ => n
  | _ => 0
  end.

Lemma remaining_terminal fin : remaining (then_terminal fin) = 0%nat.
Proof. by destruct fin. Qed.

Definition open_world (w : World) : Prop :=
  0 < pendingJobs (batch w) /\ finished (batch w) = false /\ finishedFired (entry w) = false.

(** Before the batch is finished: a thread either leaves it open or finishes
    it and takes the duty. *)
Lemma step_open now w t w' t' :
  open_world w -> counts_ok (batch w) -> owner t = false -> step now w t = (w', t') ->
  counts_ok (batch w') /\ totalJobs (batch w') = totalJobs (batch w)
  /\ terminal (out w') = terminal (out w) /\ finishedFired (entry w') = false
  /\ pendingJobs (batch w') + Z.of_nat (remaining t) = pendingJobs (batch w) + Z.of_nat (remaining t')
  /\ (open_world w' /\ owner t' = false
      \/ pendingJobs (batch w') = 0 /\ finished (batch w') = true /\ owner t' = true /\ unclaimed t' = true).
Proof.
  intros (Hp & Hfin & Hff) Hc Ho H. unfold counts_ok, open_world in *.
  destruct t as [o|n any|fin|err fin|err fin|err fin|fin|fin| | | | | | |]; cbn [owner] in Ho; try done; subst;
    unfold_step H.
  - destruct o as [|err| |n]; cbn [remaining];
      try (destruct (settleSlot _ _ _ now (batch w)) as [b' fin] eqn:E;
           apply settled_open in E as (E1 & E2 & E3 & E4 & E5 & E6); [|done|lia|lia|lia|done|done];
           injection H as <- <-; cbn; rewrite ?remaining_terminal, ?E1, ?E2, ?E3, ?E4, ?E5;
           repeat split; try lia; try done;
           destruct fin; cbn; [right|left]; repeat split; lia || done).
    injection H as <- <-. cbn. repeat split; try lia; try done. by left.
  - destruct n as [|n].
    + injection H as <- <-. cbn. repeat split; try lia; try done. by left.
    + destruct (settleSlot _ _ _ now (batch w)) as [b' fin] eqn:E.
      apply settled_open in E as (E1 & E2 & E3 & E4 & E5 & E6); [|done|lia|lia|lia|done|done].
      injection H as <- <-. cbn [batch entry out with_batch remaining orb owner unclaimed].
      rewrite ?E1, ?E2, ?E3, ?E4, ?E5. repeat split; try lia; try done.
      destruct fin; [right|left]; repeat split; lia || done.
  - injection H as <- <-. cbn. rewrite terminal_app, app_nil_r. repeat split; try lia; try done. by left.
  - injection H as <- <-. cbn. rewrite terminal_app, app_nil_r. repeat split; try lia; try done. by left.
  - destruct (catchOnce (entry w)); injection H as <- <-; cbn.
    + repeat split; try lia; try done. by left.
    + rewrite terminal_app. destruct (catchFn (entry w)); rewrite app_nil_r; repeat split; try lia; try done; by left.
  - injection H as <- <-. cbn. rewrite terminal_app, terminal_catch, app_nil_r.
    destruct (allowFailures (batch w)); repeat split; try lia; try done; by left.
  - destruct (b_cancelled (batch w)); injection H as <- <-; cbn; repeat split; try lia; try done; by left.
  - injection H as <- <-. cbn. rewrite terminal_app, app_nil_r. repeat split; try lia; try done. by left.
  - injection H as <- <-. repeat split; try lia; try done. by left.
Qed.

(** ** All schedules *)

Definition total_remaining (ts : list Thread) : nat := list_sum (remaining <$> ts).

Lemma total_remaining_insert ts i t t' :
  ts !! i = Some t ->
  (total_remaining (<[i := t']> ts) + remaining t = total_remaining ts + remaining t')%nat.
Proof.
  unfold total_remaining. revert i. induction ts as [|x ts IH]; intros [|i] H; simplify_eq/=; [lia|].
  specialize (IH i H). lia.
Qed.

Definition no_owner (ts : list Thread) : Prop := forall i t, ts !! i = Some t -> owner t = false.

(** The one thread that has the duty. *)
Definition reporting (w : World) (ts : list Thread) : Prop :=
  exists i t, ts !! i = Some t /\ owner t = true
    /\ (forall j t', ts !! j = Some t' -> owner t' = true -> j = i)
    /\ (unclaimed t = true -> finishedFired (entry w) = false)
    /\ terminal (out w) ++ todo (batch w) (entry w) t = owed (batch w) (entry w).

Definition closed_world (w : World) : Prop := pendingJobs (batch w) = 0 /\ finished (batch w) = true.

Definition phase_ok (w : World) (ts : list Thread) : Prop :=
  (open_world w /\ no_owner ts /\ terminal (out w) = [])
  \/ (closed_world w /\ (reporting w ts \/ (no_owner ts /\ terminal (out w) = owed (batch w) (entry w)))).

Record system_ok (n : Z) (s : System) : Prop := {
  so_counts : counts_ok (batch (world s));
  so_total : totalJobs (batch (world s)) = n;
  so_phase : phase_ok (world s) (threads s)
}.

Lemma no_owner_insert ts i t : no_owner ts -> owner t = false -> no_owner (<[i := t]> ts).
Proof.
  intros Hn Ht j t' H. destruct (decide (i = j)) as [<-|Hne].
  - apply list_lookup_insert_Some in H as [(_ & <- & _)|(? & _)]; done.
  - rewrite list_lookup_insert_ne in H by done. by apply (Hn j).
Qed.

Lemma frozen_counts w w' : frozen w' = frozen w -> counts_ok (batch w) ->
  counts_ok (batch w') /\ totalJobs (batch w') = totalJobs (batch w) /\ (closed_world w -> closed_world w').
Proof.
  unfold frozen, counts_ok, closed_world. intros [= E1 E2 E3 E4 E5 E6 E7 E8 E9 E10].
  by rewrite E1, E2, E3, E4, E8.
Qed.

(** The only thread with the duty, after a step of another one. *)
Lemma reporting_other w ts i t now w' t' :
  closed_world w -> reporting w ts -> ts !! i = Some t -> owner t = false -> step now w t = (w', t') ->
  reporting w' (<[i := t']> ts).
Proof.
  intros [Hp _] (j & tj & Hj & Ho & Hu & Hf & Ht) Hi Hown Hs.
  destruct (step_other now w t w' t') as (Efr & Ho' & Eout & Eff); [lia|done|done|].
  assert (Hij : i <> j) by (intros ->; congruence).
  exists j, tj. rewrite list_lookup_insert_ne by done. split; [done|]. split; [done|]. split.
  - intros k tk Hk Hok. destruct (decide (i = k)) as [<-|Hne].
    + apply list_lookup_insert_Some in Hk as [(_ & <- & _)|(? & _)]; congruence.
    + rewrite list_lookup_insert_ne in Hk by done. by apply (Hu k tk).
  - rewrite Eff, Eout, (todo_frozen w' w) by done. split; [done|]. by rewrite (owed_frozen w' w).
Qed.

(** The thread with the duty itself. *)
Lemma reporting_owner w ts i t now w' t' :
  closed_world w -> reporting w ts -> ts !! i = Some t -> owner t = true -> step now w t = (w', t') ->
  frozen w' = frozen w
  /\ (reporting w' (<[i := t']> ts)
      \/ (no_owner (<[i := t']> ts) /\ terminal (out w') = owed (batch w') (entry w'))).
Proof.
  intros [Hp _] (j & tj & Hj & Ho & Hu & Hf & Ht) Hi Hown Hs.
  assert (j = i) as -> by (symmetry; by eapply Hu). rewrite Hi in Hj. injection Hj as <-.
  destruct (step_owner now w t w' t') as (Efr & Eout & Hnext & Hf'); [lia|done|done|done|].
  split; [done|]. assert (Hlen : (i < List.length ts)%nat) by (by eapply lookup_lt_Some).
  assert (Hothers : forall k tk, <[i := t']> ts !! k = Some tk -> owner tk = true -> k = i).
  { intros k tk Hk Hok. destruct (decide (i = k)) as [->|Hne]; [done|].
    rewrite list_lookup_insert_ne in Hk by done. by apply (Hu k tk). }
  destruct Hnext as [Hown'| ->].
  - left. exists i, t'. rewrite list_lookup_insert_eq by done. split; [done|]. split; [done|].
    split; [done|]. split; [auto|]. by rewrite Eout, Ht, (owed_frozen w w').
  - right. cbn [todo] in Eout. rewrite app_nil_r, Ht in Eout. split; [|by rewrite Eout, (owed_frozen w w')].
    intros k tk Hk. destruct (owner tk) eqn:E; [|done]. pose proof (Hothers k tk Hk E) as ->.
    rewrite list_lookup_insert_eq in Hk by done. by injection Hk as <-.
Qed.

Lemma system_ok_step n s it : system_ok n s -> system_ok n (sys_step s it).
Proof.
  intros [Hc Ht Hph]. unfold sys_step. destruct (threads s !! it.1) as [t|] eqn:Ei; [|done].
  destruct (step it.2 (world s) t) as [w' t'] eqn:Es. destruct Hph as [(Hopen & Hno & Hout)|[Hcl Hph]].
  - destruct (step_open it.2 (world s) t w' t') as (Hc' & Ht' & Eout & Eff & _ & Hnext); [done|done|by eapply Hno|done|].
    split; simpl; [done|by rewrite Ht'|]. destruct Hnext as [[Hopen' Ho']|(Hp' & Hf' & Ho' & Hun')].
    + left. split; [done|]. split; [by apply no_owner_insert|by rewrite Eout].
    + right. split; [done|]. left. exists it.1, t'.
      rewrite list_lookup_insert_eq by (by eapply lookup_lt_Some). repeat split; [done| |done|].
      * intros k tk Hk Hok. destruct (decide (it.1 = k)) as [->|Hne]; [done|].
        rewrite list_lookup_insert_ne in Hk by done. by rewrite (Hno k tk) in Hok.
      * rewrite Eout, Hout. by destruct t'.
  - destruct (owner t) eqn:Eo.
    + destruct Hph as [Hrep|[Hno _]]; [|by rewrite (Hno it.1 t) in Eo].
      destruct (reporting_owner (world s) (threads s) it.1 t it.2 w' t' Hcl Hrep Ei Eo Es) as [Efr Hnext].
      destruct (frozen_counts (world s) w' Efr Hc) as (Hc' & Ht' & Hcl'). split; simpl; [done|by rewrite Ht'|].
      right. auto.
    + destruct (step_other it.2 (world s) t w' t') as (Efr & Ho' & Eout & Eff); [destruct Hcl; lia|done|done|].
      destruct (frozen_counts (world s) w' Efr Hc) as (Hc' & Ht' & Hcl'). split; simpl; [done|by rewrite Ht'|].
      right. split; [auto|]. destruct Hph as [Hrep|[Hno Hout]].
      * left. by eapply reporting_other.
      * right. split; [by apply no_owner_insert|]. by rewrite Eout, Hout, (owed_frozen w' (world s)).
Qed.

Lemma system_ok_run n sched s : system_ok n s -> system_ok n (run_schedule sched s).
Proof.
  revert s. induction sched as [|it sched IH]; intros s Hs; [done|]. apply IH. by apply system_ok_step.
Qed.

(** Open slots are slots some thread will still settle. *)
Definition covered (s : System) : Prop :=
  pendingJobs (batch (world s)) <= Z.of_nat (total_remaining (threads s)).

Lemma covered_step n s it : system_ok n s -> covered s -> covered (sys_step s it).
Proof.
  intros [Hc Ht Hph] Hcov. unfold covered, sys_step in *.
  destruct (threads s !! it.1) as [t|] eqn:Ei; [|done].
  destruct (step it.2 (world s) t) as [w' t'] eqn:Es. simpl.
  pose proof (total_remaining_insert (threads s) it.1 t t' Ei) as Hr.
  destruct Hph as [(Hopen & Hno & _)|[[Hp Hf] Hph]].
  - destruct (step_open it.2 (world s) t w' t') as (_ & _ & _ & _ & Hrem & _); [done|done|by eapply Hno|done|]. lia.
  - assert (Efr : frozen w' = frozen (world s)).
    { destruct (owner t) eqn:Eo.
      - destruct Hph as [Hrep|[Hno _]]; [|by rewrite (Hno it.1 t) in Eo].
        by eapply (reporting_owner (world s) (threads s) it.1 t).
      - eapply step_other; [|done|exact Es]. lia. }
    unfold frozen in Efr. injection Efr as _ E2 _. rewrite E2. lia.
Qed.

Lemma covered_run n sched s : system_ok n s -> covered s -> covered (run_schedule sched s).
Proof.
  revert s. induction sched as [|it sched IH]; intros s Hs Hc; [done|].
  apply IH; [by apply system_ok_step|by eapply covered_step].
Qed.

(** *** Every thread ends *)

Definition cost (t : Thread) : nat :=
  match t with
  | TDone => 0 | TCompleted => 1 | TNamedFinally => 2 | TNamedThen => 3 | TRunFinally => 4 | TRunThen => 5
  | TFireFinished => 6 | TCancelEvent _ => 7 | TCompletedEvent _ => 7 | TCancel _ => 8 | TNamedCatch _ _ => 9
  | TCatch _ _ => 10 | TFailedEvent _ _ => 11 | TDrain n _ => 9 + n
  | TSettle Success => 8 | TSettle (Failure _) => 12 | TSettle Skip => 7 | TSettle (Drain n) => 10 + n
  end.

Lemma step_cost now w t : (cost (step now w t).2 <= Nat.pred (cost t))%nat.
Proof.
  assert (Hterm : forall fin, (cost (then_terminal fin) <= 6)%nat) by (intros []; simpl; lia).
  destruct t as [[| | |]|[|n] any|fin|err fin|err fin|err fin|fin|fin| | | | | | |]; cbn [step]; unfold recordSuccess, recordFailure, recordSkip, drain_step;
    repeat case_match; cbn [snd cost]; try lia;
    match goal with |- (cost (then_terminal ?f) <= _)%nat => specialize (Hterm f); lia end.
Qed.

Definition scheduled (i : nat) (sched : list (nat * Z)) : nat :=
  List.length (List.filter (fun it => Nat.eqb it.1 i) sched).

Lemma run_cost sched s i t t' :
  threads s !! i = Some t -> threads (run_schedule sched s) !! i = Some t' ->
  (cost t' <= cost t - scheduled i sched)%nat.
Proof.
  revert s t. induction sched as [|it sched IH]; intros s t H H'.
  { simpl in H'. rewrite H in H'. injection H' as ->. unfold scheduled. simpl. lia. }
  cbn [run_schedule fold_left] in H'. fold (run_schedule sched (sys_step s it)) in H'.
  unfold scheduled. simpl. fold (scheduled i sched).
  destruct (Nat.eqb_spec it.1 i) as [<-|Hne].
  - assert (Hs : threads (sys_step s it) !! it.1 = Some (step it.2 (world s) t).2).
    { unfold sys_step. rewrite H. destruct (step it.2 (world s) t). simpl.
      rewrite list_lookup_insert_eq; [done|]. by eapply lookup_lt_Some. }
    specialize (IH _ _ Hs H'). pose proof (step_cost it.2 (world s) t). simpl. unfold scheduled in *. lia.
  - apply (IH (sys_step s it)); [|done]. unfold sys_step. destruct (threads s !! it.1); [|done].
    destruct (step it.2 (world s) t0). simpl. by rewrite list_lookup_insert_ne.
Qed.

Lemma run_length sched s : List.length (threads (run_schedule sched s)) = List.length (threads s).
Proof.
  revert s. induction sched as [|it sched IH]; intros s; [done|]. cbn [run_schedule fold_left].
  fold (run_schedule sched (sys_step s it)). rewrite IH. unfold sys_step.
  destruct (threads s !! it.1); [|done]. destruct (step it.2 (world s) t). simpl. apply length_insert.
Qed.

Lemma cost_zero t : cost t = 0%nat -> t = TDone.
Proof. destruct t as [[| | |]| | | | | | | | | | | | | |]; simpl; done || lia. Qed.

(** *** The result *)

(** The slots a thread settles. *)
Definition slots (os : list Outcome) : nat := total_remaining (TSettle <$> os).

Lemma started_ok n allow tn cn fn t c f os :
  0 < n < two31 -> system_ok n (start (newBatch n allow tn cn fn) (newEntry t c f) os).
Proof.
  intros Hn. assert (Hw : wrap32 n = n) by (apply wrap32_small; unfold two31 in *; lia).
  split; cbn [batch world start newBatch totalJobs]; [unfold counts_ok; cbn; rewrite Hw; lia|done|]. left.
  split; [unfold open_world; cbn; rewrite Hw; by destruct Hn|]. split; [|done].
  intros i x Hx. cbn in Hx. rewrite list_lookup_fmap in Hx. destruct (os !! i); simplify_eq/=. done.
Qed.

Lemma fair_run_done b e os sched :
  (forall i o, os !! i = Some o -> (cost (TSettle o) <= scheduled i sched)%nat) ->
  Forall (fun t => t = TDone) (threads (run_schedule sched (start b e os))).
Proof.
  intros Hfair. apply Forall_lookup. intros i x Hx. assert (Hlt := lookup_lt_Some _ _ _ Hx).
  rewrite run_length in Hlt. cbn in Hlt. rewrite length_fmap in Hlt.
  apply lookup_lt_is_Some in Hlt as [o Ho]. apply cost_zero. specialize (Hfair i o Ho).
  assert (cost x <= cost (TSettle o) - scheduled i sched)%nat; [|lia].
  apply (run_cost sched (start b e os)); [|done]. cbn. by rewrite list_lookup_fmap, Ho.
Qed.

Lemma done_remaining ts : Forall (fun t => t = TDone) ts -> total_remaining ts = 0%nat.
Proof. unfold total_remaining. induction 1 as [|x l ->]; done. Qed.

(** C9: For a batch of fewer than 2^31 jobs (its counters are 32-bit), however
    the recorded outcomes interleave, its counters never exceed its jobs, no terminal callback fires before every slot is settled,
    and what has fired is always a prefix of what a finished batch owes.  When
    at least as many outcomes are recorded as the batch has jobs (jobs may be
    delivered twice) and every thread is scheduled often enough, the batch finishes and fires exactly what
    it owes: Then exactly once if and only if no job failed, Finally and
    BatchCompleted exactly once, with the final counters. *)
Theorem batch_finishes_exactly_once n allow tn cn fn t c f os sched :
  0 < n < two31 ->
  let s := run_schedule sched (start (newBatch n allow tn cn fn) (newEntry t c f) os) in
  let b := batch (world s) in
  (0 <= completedJobs b /\ 0 <= failedJobs b /\ completedJobs b + failedJobs b <= n
   /\ (finished b = false -> terminal (out (world s)) = [])
   /\ terminal (out (world s)) `prefix_of` owed b (entry (world s)))
  /\ (n <= Z.of_nat (slots os) ->
      (forall i o, os !! i = Some o -> (cost (TSettle o) <= scheduled i sched)%nat) ->
      finished b = true /\ terminal (out (world s)) = owed b (entry (world s))
      /\ Forall (fun t => t = TDone) (threads s)).
Proof.
  intros Hn s b. pose proof (system_ok_run n sched _ (started_ok n allow tn cn fn t c f os Hn)) as [Hc Ht Hph].
  fold s in Hc, Ht, Hph. fold b in Hc, Ht. unfold counts_ok in Hc. split.
  - repeat split; try lia.
    + intros Hf. destruct Hph as [(_ & _ & ->)|[[_ Hf'] _]]; [done|]. subst b. congruence.
    + destruct Hph as [(_ & _ & ->)|[_ [(i & x & _ & _ & _ & _ & E)|[_ ->]]]]; [apply prefix_nil| |done].
      exists (todo b (entry (world s)) x). exact (eq_sym E).
  - intros Hslots Hfair.
    pose proof (fair_run_done (newBatch n allow tn cn fn) (newEntry t c f) os sched Hfair) as Hdone. fold s in Hdone.
    assert (Hcov : covered s).
    { apply (covered_run n); [by apply started_ok|].
      unfold covered. cbn. rewrite wrap32_small by (unfold two31 in *; lia). exact Hslots. }
    unfold covered in Hcov. rewrite (done_remaining _ Hdone) in Hcov.
    destruct Hph as [((Hp & _) & _)|[[_ Hf] Hph]]; [simpl in *; lia|].
    split; [done|]. split; [|done].
    destruct Hph as [(i & x & Hx & Hown & _)|[_ ->]]; [|done].
    rewrite Forall_lookup in Hdone. by rewrite (Hdone i x Hx) in Hown.
Qed.

(** Two jobs, the first failing and delivered twice, run round robin. *)
Lemma batch_finishes_exactly_once_witness :
  let os := [Failure "x"; Success; Failure "x"] in
  let sched := List.concat (List.repeat [(2%nat, 5); (0%nat, 6); (1%nat, 7)] 12) in
  let s := run_schedule sched (start (newBatch 2 true "t" "c" "f") (newEntry true true true) os) in
  terminal (out (world s)) =
    [RunFinally; PushCallback CallbackFinally "f" "x"; BatchCompleted 2 0 2 true].
Proof.
  intros os sched s.
  destruct (batch_finishes_exactly_once 2 true "t" "c" "f" true true true os sched (conj eq_refl eq_refl)) as [_ H].
  destruct H as (_ & H & _); [vm_compute; discriminate| |refine (eq_trans H _); vm_compute; reflexivity].
  intros [|[|[|i]]] o Ho; [| | |discriminate Ho]; injection Ho as <-; vm_compute; lia.
Defined.

(** Past the width of the counters the statement fails: a batch of 2^32 + 1 jobs
    finishes with the first outcome, and a batch of 2^31 jobs never takes one. *)
Lemma wide_batch_finishes_early :
  let s := run_schedule (List.map (fun i => (i, 1)) (List.repeat 0%nat 8))
             (start (newBatch (two32 + 1) true "" "" "") (newEntry true false false) [Success]) in
  finished (batch (world s)) = true
  /\ terminal (out (world s)) = [RunThen; BatchCompleted (two32 + 1) 1 0 false].
Proof. by vm_compute. Qed.

Lemma wide_batch_never_finishes allow tn cn fn c f errText now :
  settleSlot c f errText now (newBatch two31 allow tn cn fn) = (newBatch two31 allow tn cn fn, false).
Proof. reflexivity. Qed.

(** A failure recorded for a batch that is already finished (a job delivered
    again after it succeeded) changes no counter, and still runs Catch and
    cancels the batch after Then has run. *)
Lemma late_failure_fires_catch_after_then :
  let s := run_schedule (List.map (fun i => (i, 1)) (List.repeat 0%nat 8 ++ List.repeat 1%nat 12))
             (start (newBatch 1 false "" "" "") (newEntry true true false) [Success; Failure "x"]) in
  out (world s) =
    [BatchJobCompleted 1 1; RunThen; BatchCompleted 1 1 0 false; BatchJobFailed 0 1; RunCatch "x"; BatchCancelled 0]
  /\ b_cancelled (batch (world s)) = true.
Proof. by vm_compute. Qed.

(** ** Retried callbacks *)

(** What the reaper must still enqueue for a batch. *)
Definition undispatched (kv : string * Batch) : list UndispatchedCallback :=
  undispatched_catch kv.1 kv.2
  ++ (if finished kv.2 then undispatched_then kv.1 kv.2 ++ undispatched_finally kv.1 kv.2 else []).

Definition effective_limit (limit : Z) : Z := if limit <=? 0 then 100 else limit.

Lemma undispatched_short kv :
  (List.length (undispatched_catch kv.1 kv.2) <= 1 /\ List.length (undispatched_then kv.1 kv.2) <= 1
   /\ List.length (undispatched_finally kv.1 kv.2) <= 1)%nat.
Proof.
  unfold undispatched_catch, undispatched_then, undispatched_finally.
  repeat case_match; simpl; lia.
Qed.

(** One batch adds a prefix of its callbacks, all of them unless the limit is
    reached. *)
Lemma collect_spec limit acc kv :
  exists l, collect limit acc kv = acc ++ l /\ l `prefix_of` undispatched kv
    /\ (Z.of_nat (List.length acc) <= limit -> Z.of_nat (List.length (acc ++ l)) <= limit)
    /\ (l = undispatched kv \/ limit <= Z.of_nat (List.length (acc ++ l))).
Proof.
  destruct (undispatched_short kv) as (Hc & Ht & Hf). destruct kv as [id b]. cbn [fst snd] in *.
  unfold collect, undispatched. cbn [fst snd].
  set (lc := undispatched_catch id b) in *. set (lt := undispatched_then id b) in *.
  set (lf := undispatched_finally id b) in *.
  destruct (Z.leb_spec limit (Z.of_nat (List.length acc))) as [H0|H0].
  { exists []. rewrite app_nil_r. repeat split; [apply prefix_nil|done|by right]. }
  destruct (Z.leb_spec limit (Z.of_nat (List.length (acc ++ lc)))) as [H1|H1]; cbn [orb].
  { exists lc. repeat split; [by apply prefix_app_r| |by right]. rewrite length_app. lia. }
  destruct (finished b); cbn [negb]; cycle 1.
  { exists lc. rewrite !app_nil_r. repeat split; [done|lia|by left]. }
  destruct (Z.leb_spec limit (Z.of_nat (List.length ((acc ++ lc) ++ lt)))) as [H2|H2].
  - exists (lc ++ lt). rewrite !app_assoc. repeat split; [by apply prefix_app_r| |by right].
    rewrite (length_app _ lt). lia.
  - exists (lc ++ lt ++ lf). rewrite !app_assoc. repeat split; [done| |by left]. rewrite (length_app _ lf). lia.
Qed.

(** The retry of undispatched callbacks returns at most its limit, only
    callbacks that are owed and not marked dispatched, each batch's in the
    order Catch, Then, Finally, and all of them when they fit the limit. *)
Lemma undispatched_callbacks_found order limit :
  exists l, FindUndispatchedCallbacks None order limit = inl l
    /\ Z.of_nat (List.length l) <= effective_limit limit
    /\ l `sublist_of` List.concat (List.map undispatched order)
    /\ (Z.of_nat (List.length (List.concat (List.map undispatched order))) < effective_limit limit ->
        l = List.concat (List.map undispatched order)).
Proof.
  unfold FindUndispatchedCallbacks, guarded, effective_limit. set (lim := if limit <=? 0 then 100 else limit).
  assert (Hlim : 0 < lim) by (unfold lim; destruct (Z.leb_spec limit 0); lia).
  eexists. split; [reflexivity|].
  enough (H : forall acc, Z.of_nat (List.length acc) <= lim ->
    exists l, fold_left (collect lim) order acc = acc ++ l /\ Z.of_nat (List.length (acc ++ l)) <= lim
      /\ l `sublist_of` List.concat (List.map undispatched order)
      /\ (Z.of_nat (List.length (acc ++ List.concat (List.map undispatched order))) < lim ->
          l = List.concat (List.map undispatched order))).
  { destruct (H []) as (l & E & Hl); [simpl; lia|]. rewrite E. exact Hl. }
  induction order as [|kv order IH]; intros acc Hacc.
  { exists []. by rewrite app_nil_r. }
  destruct (collect_spec lim acc kv) as (l & E & Hpre & Hle & Hall). cbn [fold_left List.map List.concat]. rewrite E.
  destruct (IH (acc ++ l)) as (l' & E' & Hle' & Hsub & Hall'); [auto|].
  exists (l ++ l'). rewrite app_assoc. split; [done|]. split; [done|]. split.
  - destruct Hpre as [k ->]. rewrite <- app_assoc. apply sublist_app; [done|]. by apply sublist_inserts_l.
  - intros Hfit. rewrite !length_app in Hfit. destruct Hpre as [k Hk]. rewrite Hk, length_app in Hfit.
    destruct Hall as [->|Hfull]; [|rewrite length_app in Hfull; lia].
    f_equal. apply Hall'. rewrite !length_app. lia.
Qed.

(** Pruning removes exactly the batches that finished before the cutoff. *)
Lemma prune_removes_only_finished now olderThan r r' k :
  PruneStale None now olderThan r = inl (r', k) ->
  forall id, batches r' !! id =
    match batches r !! id with
    | Some b => if stale (now - olderThan) b then None else Some b
    | None => None
    end.
Proof.
  unfold PruneStale, guarded. intros [= <- _] id. cbn [batches].
  destruct (batches r !! id) as [b|] eqn:E.
  - destruct (stale (now - olderThan) b) eqn:Es.
    + apply lookup_difference_None. right. exists b. by apply map_lookup_filter_Some.
    + apply lookup_difference_Some. split; [done|]. apply map_lookup_filter_None. right.
      intros b' E' H. simpl in H. congruence.
  - apply lookup_difference_None. by left.
Qed.
