(* ===== verification/Cron.v ===== *)
(** * Cron expressions

    Models scheduler/expression.go: parsing of the five fields, the test
    whether an expression is due at a wall-clock minute, and the search for
    the next due minute.

    A [time.Time] is an instant in nanoseconds together with its location; the
    location enters through [civil], the wall-clock fields of a minute, so the
    theorems about [Next] hold for every time zone and every DST rule.
    [utc_civil] is the proleptic Gregorian calendar in UTC.  Go's [int] is 64
    bits: the counter of [makeRange] is written with its wrap-around. *)

From Stdlib Require Import Ascii String.
From S2P Require Import Prelude GoStrings.
Local Open Scope string_scope.
Local Open Scope list_scope.
Local Open Scope Z_scope.

(** ** Parsing *)

Record Expression := mkExpression {
  minute : list Z; hour : list Z; dayOfMonth : list Z; month : list Z; dayOfWeek : list Z;
  raw : string
}.

Inductive CronError := FieldCount (n : nat) | BadNumber | ErrInvalidCronStep | BadRange | OutOfBounds.

(** The loop of makeRange.  With a positive step it takes one round per value
    and at most two more when the counter wraps. *)
Fixpoint range_loop (fuel : nat) (i max step : Z) : list Z :=
  match fuel with
  | O => []
  | S fuel' => if max <? i then [] else i :: range_loop fuel' (wrap64 (i + step)) max step
  end.

Definition makeRange (min max step : Z) : list Z :=
  range_loop (Z.to_nat (max - min) + 4) min max step.

Fixpoint parse_list (parts : list string) (min max : Z) : result CronError (list Z) :=
  match parts with
  | [] => Ok []
  | part :: rest =>
      match Atoi part with
      | None => Err BadNumber
      | Some val =>
          if (val <? min) || (max <? val) then Err OutOfBounds
          else match parse_list rest min max with Ok vs => Ok (val :: vs) | Err e => Err e end
      end
  end.

Definition parseField (field : string) (min max : Z) : result CronError (list Z) :=
  if String.eqb field "*" then Ok (makeRange min max 1)
  else if has_prefix "*/" field then
    match Atoi (str_drop 2 field) with
    | None => Err BadNumber
    | Some step => if step <=? 0 then Err ErrInvalidCronStep else Ok (makeRange min max step)
    end
  else if contains_byte "-" field then
    match split_on "-" field with
    | [a; b] =>
        match Atoi a with
        | None => Err BadNumber
        | Some start =>
            match Atoi b with
            | None => Err BadNumber
            | Some stop => if (start <? min) || (max <? stop) || (stop <? start) then Err BadRange
                           else Ok (makeRange start stop 1)
            end
        end
    | _ => Err BadRange
    end
  else if contains_byte "," field then parse_list (split_on "," field) min max
  else match Atoi field with
       | None => Err BadNumber
       | Some val => if (val <? min) || (max <? val) then Err OutOfBounds else Ok [val]
       end.

Definition expand_alias (expr : string) : string :=
  if String.eqb expr "@yearly" || String.eqb expr "@annually" then "0 0 1 1 *"
  else if String.eqb expr "@monthly" then "0 0 1 * *"
  else if String.eqb expr "@weekly" then "0 0 * * 0"
  else if String.eqb expr "@daily" || String.eqb expr "@midnight" then "0 0 * * *"
  else if String.eqb expr "@hourly" then "0 * * * *"
  else expr.

Local Open Scope go_scope.

Definition ParseExpression (expr : string) : result CronError Expression :=
  let expr := expand_alias expr in
  match fields expr with
  | [f0; f1; f2; f3; f4] =>
      mi <-! parseField f0 0 59 ;;
      h <-! parseField f1 0 23 ;;
      dom <-! parseField f2 1 31 ;;
      mo <-! parseField f3 1 12 ;;
      dow <-! parseField f4 0 6 ;;
      Ok (mkExpression mi h dom mo dow expr)
  | l => Err (FieldCount (List.length l))
  end.

(** ** Matching *)

(** The wall-clock fields IsDue reads. *)
Record Civil := mkCivil { Minute : Z; Hour : Z; Day : Z; Month : Z; Weekday : Z }.

Definition contains (slice : list Z) (v : Z) : bool := existsb (fun x => x =? v) slice.

Definition IsDue (e : Expression) (t : Civil) : bool :=
  if negb (contains (minute e) (Minute t)) then false
  else if negb (contains (hour e) (Hour t)) then false
  else if negb (contains (month e) (Month t)) then false
  else
    let dayOfMonthMatch := Nat.eqb (List.length (dayOfMonth e)) 0 || contains (dayOfMonth e) (Day t) in
    let dayOfWeekMatch := Nat.eqb (List.length (dayOfWeek e)) 0 || contains (dayOfWeek e) (Weekday t) in
    match fields (raw e) with
    | _ :: _ :: f2 :: _ :: f4 :: _ =>
        if String.eqb f2 "*" && String.eqb f4 "*" then dayOfMonthMatch && dayOfWeekMatch
        else if negb (String.eqb f2 "*") && negb (String.eqb f4 "*")
             then dayOfMonthMatch || dayOfWeekMatch
        else dayOfMonthMatch && dayOfWeekMatch
    | _ => dayOfMonthMatch && dayOfWeekMatch
    end.

(** ** Searching *)

Definition maxIterations : nat := Z.to_nat (4 * 365 * 24 * 60).

(** The loop over the minutes from [next] on; [n] iterations left. *)
Fixpoint next_loop (civil : Z -> Civil) (e : Expression) (n : nat) (next : Z) : option Z :=
  match n with
  | O => None
  | S n' => if IsDue e (civil next) then Some next else next_loop civil e n' (next + 1)
  end.

(** [from] in nanoseconds; the result is a minute, [None] the zero time. *)
Definition Next (civil : Z -> Civil) (e : Expression) (from : Z) : option Z :=
  next_loop civil e maxIterations (from / MINUTE + 1).

(** ** The calendar *)

(** Day and month of a day counted from 1970-01-01, and its weekday. *)
Definition civil_of_days (z : Z) : Z * Z * Z :=
  let z := z + 719468 in
  let era := z / 146097 in
  let doe := z - era * 146097 in
  let yoe := (doe - doe / 1460 + doe / 36524 - doe / 146096) / 365 in
  let doy := doe - (365 * yoe + yoe / 4 - yoe / 100) in
  let mp := (5 * doy + 2) / 153 in
  let d := doy - (153 * mp + 2) / 5 + 1 in
  let m := if mp <? 10 then mp + 3 else mp - 9 in
  (yoe + era * 400 + (if m <=? 2 then 1 else 0), m, d).

Definition utc_civil (minutes : Z) : Civil :=
  let days := minutes / 1440 in
  let '(_, m, d) := civil_of_days days in
  mkCivil (minutes mod 60) (minutes / 60 mod 24) d m ((days + 4) mod 7).

(** ** What a field means

    The abstract syntax of a field, how it is written, and which values it
    selects between [min] and [max]. *)

Inductive Field := FStar | FStep (n : Z) | FRange (a b : Z) | FList (l : list Z).

#[export] Instance Field_eq_dec : EqDecision Field.
Proof. solve_decision. Defined.

(** How a field is written. *)
Definition print_field (f : Field) : string :=
  match f with
  | FStar => "*"
  | FStep n => "*/" +:+ itoa n
  | FRange a b => itoa a +:+ "-" +:+ itoa b
  | FList l => join "," (itoa <$> l)
  end.

Definition field_ok (min max : Z) (f : Field) : Prop :=
  match f with
  | FStar => True
  | FStep n => 0 < n < two63
  | FRange a b => min <= a /\ a <= b /\ b <= max
  | FList l => l <> [] /\ Forall (fun v => min <= v <= max) l
  end.

Definition selects (min : Z) (f : Field) (v : Z) : Prop :=
  match f with
  | FStar => True
  | FStep n => (v - min) mod n = 0
  | FRange a b => a <= v <= b
  | FList l => v ∈ l
  end.

Lemma contains_spec l v : contains l v = true <-> v ∈ l.
Proof.
  unfold contains. rewrite existsb_exists. setoid_rewrite <- list_elem_of_In. split.
  - intros (x & Hx & ->%Z.eqb_eq). done.
  - intros Hv. exists v. by rewrite Z.eqb_refl.
Qed.

(** Without wrap-around the loop lists the arithmetic progression. *)
Lemma range_loop_spec fuel i max step v :
  0 < step -> 0 <= i -> max + step < two63 -> max - i < Z.of_nat fuel ->
  v ∈ range_loop fuel i max step <-> i <= v <= max /\ (v - i) mod step = 0.
Proof.
  intros Hstep Hi Hmax. revert i Hi. induction fuel as [|fuel IH]; intros i Hi Hf; cbn [range_loop].
  { split; [intros Hx; by apply elem_of_nil in Hx|lia]. }
  destruct (Z.ltb_spec max i) as [Hlt|Hge].
  { split; [intros Hx; by apply elem_of_nil in Hx|lia]. }
  rewrite wrap64_small by auto with go.
  rewrite elem_of_cons, IH by lia. split.
  - intros [->|[Hv Hm]]; [rewrite Z.sub_diag; split; [lia|done]|]. split; [lia|].
    replace (v - i) with (v - (i + step) + 1 * step) by lia. by rewrite Z.mod_add by lia.
  - intros [Hv Hm]. destruct (Z.eq_dec v i) as [->|Hne]; [by left|right].
    assert (step <= v - i).
    { apply Z.mod_divide in Hm as [k Hk]; [|lia]. rewrite Hk. assert (0 < k) by nia. nia. }
    split; [lia|]. replace (v - (i + step)) with (v - i + (-1) * step) by lia.
    by rewrite Z.mod_add by lia.
Qed.

(** A huge step: the progression has its first element only, and what a
    wrapped counter adds is negative. *)
Lemma range_huge fuel i max step v :
  0 <= i <= 1 -> i <= max < 100 -> 100 <= step < two63 -> 0 <= v ->
  v ∈ range_loop (S (S (S (S fuel)))) i max step -> v = i.
Proof.
  intros Hi Hm Hs Hv. cbn [range_loop]. rewrite (proj2 (Z.ltb_ge max i)) by lia.
  rewrite elem_of_cons. intros [->|Hin]; [done|]. exfalso.
  destruct (Z.ltb_spec max (wrap64 (i + step))) as [|Hw]; [by apply elem_of_nil in Hin|].
  assert (Hover : i = 1 /\ step = two63 - 1).
  { destruct (Z.lt_ge_cases (i + step) two63); [|width].
    rewrite wrap64_small in Hw by auto with go. lia. }
  destruct Hover as [-> ->].
  change (wrap64 (1 + (two63 - 1))) with (- two63) in Hin.
  change (wrap64 (- two63 + (two63 - 1))) with (-1) in Hin.
  change (wrap64 (-1 + (two63 - 1))) with (two63 - 2) in Hin.
  rewrite (proj2 (Z.ltb_ge max (-1))) in Hin by lia.
  apply elem_of_cons in Hin as [->|Hin]; [unfold two63 in *; lia|].
  apply elem_of_cons in Hin as [->|Hin]; [lia|].
  rewrite (proj2 (Z.ltb_lt max (two63 - 2))) in Hin by width.
  by apply elem_of_nil in Hin.
Qed.

Lemma makeRange_spec min max step v :
  0 <= min <= 1 -> min <= max < 100 -> 0 < step < two63 -> 0 <= v ->
  v ∈ makeRange min max step <-> min <= v <= max /\ (v - min) mod step = 0.
Proof.
  intros Hmin Hmax Hs Hv. unfold makeRange. destruct (Z.lt_ge_cases step 100).
  - apply range_loop_spec; width.
  - split.
    + replace (Z.to_nat (max - min) + 4)%nat with (S (S (S (S (Z.to_nat (max - min)))))) by lia.
      intros ->%range_huge; [|lia..]. rewrite Z.sub_diag. split; [lia|done].
    + intros [Hv1 Hv2]. rewrite Z.mod_small in Hv2 by lia. assert (v = min) as -> by lia.
      rewrite Nat.add_comm. cbn [range_loop Nat.add]. rewrite (proj2 (Z.ltb_ge max min)) by lia. left.
Qed.

Lemma makeRange_one a b v : 0 <= a -> a <= b < 100 -> v ∈ makeRange a b 1 <-> a <= v <= b.
Proof.
  intros Ha Hb. unfold makeRange. rewrite range_loop_spec by width.
  rewrite Z.mod_1_r. tauto.
Qed.

Lemma parse_list_spec parts min max vs v :
  parse_list parts min max = Ok vs ->
  v ∈ vs <-> exists s, s ∈ parts /\ Atoi s = Some v /\ min <= v <= max.
Proof.
  revert vs. induction parts as [|part parts IH]; simpl; intros vs Hp.
  { injection Hp as <-. split; [intros Hx; by apply elem_of_nil in Hx|].
    intros (s & Hs & _). by apply elem_of_nil in Hs. }
  destruct (Atoi part) as [val|] eqn:Ea; [|done].
  destruct (Z.ltb_spec val min), (Z.ltb_spec max val); try done. simpl in Hp.
  destruct (parse_list parts min max) as [vs'|]; [|done]. injection Hp as <-.
  rewrite elem_of_cons, IH by done. split.
  - intros [->|(s & Hs & Hx)]; [exists part; split; [left|done]|exists s; split; [by right|done]].
  - intros (s & [->|Hs]%elem_of_cons & Hx & Hb); [left; congruence|right; eauto].
Qed.

(** ** Reading a written field back *)

Lemma parse_list_itoa l min max :
  0 <= min -> max < 100 -> Forall (fun v => min <= v <= max) l ->
  parse_list (itoa <$> l) min max = Ok l.
Proof.
  intros Hmin Hmax. induction 1 as [|v l Hv Hl IH]; csimpl; [done|].
  rewrite Atoi_itoa by width.
  rewrite (proj2 (Z.ltb_ge v min)), (proj2 (Z.ltb_ge max v)) by lia. cbn [orb]. by rewrite IH.
Qed.

Lemma digit_start_not_star s t :
  all_bytes is_digit s = true -> s <> "" ->
  String.eqb (s +:+ t) "*" = false /\ has_prefix "*/" (s +:+ t) = false.
Proof.
  destruct s as [|a s]; [done|]. intros [Ha _]%andb_true_iff _.
  assert (Hs : Ascii.eqb "*" a = false) by (destruct (Ascii.eqb_spec "*" a); [by subst a|done]).
  change (String a s +:+ t) with (String a (s +:+ t)).
  split; [|cbn [has_prefix]; by rewrite Hs].
  cbn [String.eqb]. rewrite Ascii.eqb_sym, Hs. done.
Qed.



Lemma joined_digits_start l :
  l <> [] -> Forall (fun v => 0 <= v) l ->
  String.eqb (join "," (itoa <$> l)) "*" = false
  /\ has_prefix "*/" (join "," (itoa <$> l)) = false
  /\ contains_byte "-" (join "," (itoa <$> l)) = false.
Proof.
  intros Hne Hl. split_and!.
  1,2: destruct l as [|v l]; [done|]; apply Forall_cons in Hl as [Hv _];
    destruct l as [|v' l]; csimpl;
    [rewrite <- (append_nil_r (itoa v))|]; by apply digit_start_not_star;
    [apply itoa_digits|apply itoa_ne].
  apply contains_join; [done|]. apply Forall_fmap. eapply Forall_impl; [exact Hl|].
  intros v Hv. by apply itoa_free.
Qed.

Lemma parse_print_field f min max :
  0 <= min <= 1 -> min <= max < 100 -> field_ok min max f ->
  exists vs, parseField (print_field f) min max = Ok vs
    /\ forall v, min <= v <= max -> contains vs v = true <-> selects min f v.
Proof.
  intros Hmin Hmax Hok.
  assert (Hcon : forall vs P, (forall v, min <= v <= max -> v ∈ vs <-> P v) ->
    forall v, min <= v <= max -> contains vs v = true <-> P v).
  { intros vs P H v Hv. rewrite contains_spec. by apply H. }
  destruct f as [|n|a b|l]; simpl in Hok; cbn [print_field].
  - eexists. split; [reflexivity|]. apply Hcon. intros v Hv. rewrite makeRange_one by lia.
    simpl. lia.
  - assert (Hp : parseField ("*/" +:+ itoa n) min max = Ok (makeRange min max n)).
    { unfold parseField. simpl String.eqb. cbn [has_prefix String.append Ascii.eqb]. simpl.
      rewrite Atoi_itoa by lia. by rewrite (proj2 (Z.leb_gt n 0)) by lia. }
    eexists. split; [exact Hp|]. apply Hcon. intros v Hv.
    rewrite makeRange_spec by lia. simpl. tauto.
  - assert (Ha := itoa_digits a ltac:(lia)). assert (Hb := itoa_digits b ltac:(lia)).
    destruct (digit_start_not_star (itoa a) ("-" +:+ itoa b) Ha (itoa_ne a)) as [H1 H2].
    eexists. split.
    { unfold parseField. rewrite H1, H2, !contains_byte_app. rewrite (itoa_free "-" a) by (done || lia).
      change (contains_byte "-" "-") with true. cbn [orb].
      change ("-" +:+ itoa b) with (String "-" (itoa b)).
      rewrite split_on_app_sep, !split_on_no_sep by (apply itoa_free; done || lia). cbn [app].
      rewrite !Atoi_itoa by width.
      rewrite (proj2 (Z.ltb_ge a min)), (proj2 (Z.ltb_ge max b)), (proj2 (Z.ltb_ge b a)) by lia.
      reflexivity. }
    apply Hcon. intros v Hv. rewrite makeRange_one by lia. done.
  - destruct Hok as [Hne Hl].
    assert (Hl0 : Forall (fun v => 0 <= v) l) by (eapply Forall_impl; [exact Hl|]; simpl; lia).
    destruct (joined_digits_start l Hne Hl0) as (H1 & H2 & H3).
    exists l. split; [|by apply Hcon]. unfold parseField. rewrite H1, H2, H3.
    destruct (contains_byte "," (join "," (itoa <$> l))) eqn:Ec.
    + rewrite split_on_join; [apply parse_list_itoa; [lia|lia|done]|by destruct l|].
      apply Forall_fmap. eapply Forall_impl; [exact Hl0|]. intros v Hv. by apply itoa_free.
    + destruct l as [|v [|v' l]]; [done| |].
      * csimpl. apply Forall_cons in Hl as [Hv _]. rewrite Atoi_itoa by width.
        by rewrite (proj2 (Z.ltb_ge v min)), (proj2 (Z.ltb_ge max v)) by lia.
      * csimpl in Ec. rewrite !contains_byte_app in Ec. simpl in Ec.
        by rewrite orb_true_r in Ec.
Qed.

(** ** Whole expressions *)

Lemma fields_from_word s cur t :
  all_bytes is_plain s = true -> s <> "" ->
  fields_from 0 cur (s +:+ t) = fields_from 0 (Some (default "" cur +:+ s)) t.
Proof.
  revert cur. induction s as [|a s IH]; intros cur Hs Hne; [done|].
  apply andb_true_iff in Hs as [Ha Hs]. change (String a s +:+ t) with (String a (s +:+ t)).
  cbn [fields_from]. rewrite space_len_plain by done. destruct s as [|b s]; [done|].
  rewrite IH by done. simpl default. by rewrite append_assoc.
Qed.

Lemma fields_join l :
  Forall (fun s => all_bytes is_plain s = true /\ s <> "") l -> fields (join " " l) = l.
Proof.
  unfold fields. induction 1 as [|s l [Hp Hne] Hl IH]; [done|]. destruct l as [|s' l].
  - simpl join. rewrite <- (append_nil_r s) at 1. rewrite fields_from_word by done. done.
  - rewrite join_cons by done. rewrite fields_from_word by done.
    change (" " +:+ join " " (s' :: l)) with (String " " (join " " (s' :: l))).
    cbn [fields_from]. change (space_len (String " " (join " " (s' :: l)))) with 1%nat. cbv iota beta.
    by rewrite IH.
Qed.

Lemma plain_join sep l :
  all_bytes is_plain sep = true -> Forall (fun s => all_bytes is_plain s = true) l ->
  all_bytes is_plain (join sep l) = true.
Proof.
  intros Hsep. induction 1 as [|s l Hs Hl IH]; [done|]. destruct l as [|s' l]; [done|].
  rewrite join_cons by done. by rewrite !all_bytes_app, Hs, Hsep, IH.
Qed.

Lemma print_field_plain f min max :
  0 <= min -> field_ok min max f -> all_bytes is_plain (print_field f) = true /\ print_field f <> "".
Proof.
  intros Hmin. destruct f as [|n|a b|l]; cbn [field_ok print_field].
  - done.
  - intros Hn. rewrite all_bytes_app, itoa_plain by lia. done.
  - intros Hab. rewrite !all_bytes_app, !itoa_plain by lia. split; [done|].
    destruct (itoa_cons a) as (c & s & E). by rewrite E.
  - intros [Hne Hl]. split.
    + apply plain_join; [done|]. apply Forall_fmap. eapply Forall_impl; [exact Hl|].
      intros v Hv. apply itoa_plain. simpl in Hv. lia.
    + destruct l as [|v l]; [done|]. destruct (itoa_cons v) as (c & s & E).
      destruct l; csimpl; [apply itoa_ne|]. by rewrite E.
Qed.

(** A written field is the bare star only for [FStar]. *)
Lemma print_field_star f min max :
  0 <= min -> field_ok min max f -> String.eqb (print_field f) "*" = bool_decide (f = FStar).
Proof.
  intros Hmin. destruct f as [|n|a b|l]; cbn [field_ok print_field]; intros Hok.
  - done.
  - rewrite bool_decide_false by done. done.
  - rewrite bool_decide_false by done. apply digit_start_not_star; [apply itoa_digits; lia|apply itoa_ne].
  - rewrite bool_decide_false by done. destruct Hok as [Hne Hl].
    apply joined_digits_start; [done|]. eapply Forall_impl; [exact Hl|]. simpl. lia.
Qed.

Lemma expand_plain expr : has_prefix "@" expr = false -> expand_alias expr = expr.
Proof.
  intros Hp. unfold expand_alias.
  repeat match goal with |- context [String.eqb expr ?s] =>
    destruct (String.eqb_spec expr s) as [->|_]; [by simpl in Hp|] end. done.
Qed.

(** The day rule: with both day fields restricted either one selects the day,
    otherwise both must (a star selects every day). *)
Definition day_selected (dom dow : Field) (t : Civil) : Prop :=
  if bool_decide (dom = FStar) || bool_decide (dow = FStar)
  then selects 1 dom (Day t) /\ selects 0 dow (Weekday t)
  else selects 1 dom (Day t) \/ selects 0 dow (Weekday t).

(** A reading of a wall clock. *)
Definition civil_ok (t : Civil) : Prop :=
  0 <= Minute t <= 59 /\ 0 <= Hour t <= 23 /\ 1 <= Day t <= 31 /\ 1 <= Month t <= 12
  /\ 0 <= Weekday t <= 6.

Definition print_expression (mi h dom mo dow : Field) : string :=
  join " " (print_field <$> [mi; h; dom; mo; dow]).

Lemma print_field_no_at f min max :
  0 <= min -> field_ok min max f -> exists a s, print_field f = String a s /\ Ascii.eqb "@" a = false.
Proof.
  intros Hmin Hok. destruct (print_field_plain f min max Hmin Hok) as [_ Hne].
  destruct (print_field f) as [|a s] eqn:E; [done|]. exists a, s. split; [done|].
  destruct (Ascii.eqb_spec "@" a) as [<-|]; [exfalso|done].
  destruct f as [|n|x y|l]; cbn [print_field field_ok] in *; try done.
  - pose proof (itoa_digits x ltac:(lia)) as Hd.
    destruct (itoa_cons x) as (c & s' & Ec).
    rewrite Ec in *. simpl in E, Hd. injection E as -> _. done.
  - destruct Hok as [_ Hl]. destruct l as [|v l]; [done|]. apply Forall_cons in Hl as [Hv _].
    pose proof (itoa_digits v ltac:(lia)) as Hd.
    destruct (itoa_cons v) as (c & s' & Ec).
    rewrite fmap_cons in E. destruct l; csimpl in E; rewrite Ec in *; simpl in E, Hd;
      injection E as -> _; done.
Qed.

Lemma selects_some f min max :
  min <= max -> field_ok min max f -> exists v, min <= v <= max /\ selects min f v.
Proof.
  intros Hm. destruct f as [|n|a b|l]; cbn [field_ok selects]; intros Hok.
  - exists min. lia.
  - exists min. split; [lia|]. by rewrite Z.sub_diag.
  - exists a. lia.
  - destruct Hok as [Hne Hl]. destruct l as [|v l]; [done|]. apply Forall_cons in Hl as [Hv _].
    exists v. split; [done|left].
Qed.

Lemma contains_nonempty vs v : contains vs v = true -> Nat.eqb (List.length vs) 0 = false.
Proof. by destruct vs. Qed.

(** A text that writes a field: it is one word, not an alias, the bare star
    only for [FStar], and parses to the values the field selects. *)
Record denotes (min max : Z) (s : string) (f : Field) : Prop := {
  dn_plain : all_bytes is_plain s = true /\ s <> "";
  dn_no_at : has_prefix "@" s = false;
  dn_star : String.eqb s "*" = bool_decide (f = FStar);
  dn_parse : exists vs, parseField s min max = Ok vs
    /\ forall v, min <= v <= max -> contains vs v = true <-> selects min f v;
  dn_some : exists v, min <= v <= max /\ selects min f v
}.

Lemma print_field_denotes f min max :
  0 <= min <= 1 -> min <= max < 100 -> field_ok min max f -> denotes min max (print_field f) f.
Proof.
  intros Hmin Hmax Hok. split.
  - eapply print_field_plain; [|exact Hok]. lia.
  - destruct (print_field_no_at f min max) as (a & s & -> & Ha); [lia|done|]. cbn [has_prefix]. by rewrite Ha.
  - eapply print_field_star; [|exact Hok]. lia.
  - by apply parse_print_field.
  - eapply selects_some; [|exact Hok]. lia.
Qed.

(** When the fields select a minute. *)
Definition fields_due (mi h dom mo dow : Field) (t : Civil) : Prop :=
  selects 0 mi (Minute t) /\ selects 0 h (Hour t) /\ selects 1 mo (Month t) /\ day_selected dom dow t.

Lemma denoted_expression_due s1 s2 s3 s4 s5 mi h dom mo dow t :
  denotes 0 59 s1 mi -> denotes 0 23 s2 h -> denotes 1 31 s3 dom -> denotes 1 12 s4 mo -> denotes 0 6 s5 dow ->
  civil_ok t ->
  exists e, ParseExpression (join " " [s1; s2; s3; s4; s5]) = Ok e
    /\ (IsDue e t = true <-> fields_due mi h dom mo dow t).
Proof.
  intros [L1 A1 _ (v1 & P1 & S1) _] [L2 _ _ (v2 & P2 & S2) _] [L3 _ T3 (v3 & P3 & S3) (x3 & X3 & Y3)]
    [L4 _ _ (v4 & P4 & S4) _] [L5 _ T5 (v5 & P5 & S5) (x5 & X5 & Y5)] (C1 & C2 & C3 & C4 & C5).
  set (expr := join " " [s1; s2; s3; s4; s5]).
  assert (Hf : fields expr = [s1; s2; s3; s4; s5]) by (apply fields_join; repeat constructor; tauto).
  assert (Ha : expand_alias expr = expr).
  { apply expand_plain. subst expr. destruct s1 as [|a s1]; [by destruct L1|]. exact A1. }
  exists (mkExpression v1 v2 v3 v4 v5 expr). split.
  { unfold ParseExpression. rewrite Ha, Hf, P1, P2, P3, P4, P5. reflexivity. }
  unfold IsDue, fields_due. cbn [minute hour dayOfMonth month dayOfWeek raw]. rewrite Hf.
  rewrite (contains_nonempty v3 x3) by (by apply S3). rewrite (contains_nonempty v5 x5) by (by apply S5).
  rewrite T3, T5. cbn [orb]. rewrite <- (S1 _ C1), <- (S2 _ C2), <- (S4 _ C4). unfold day_selected.
  destruct (bool_decide (dom = FStar)), (bool_decide (dow = FStar)); cbn [orb];
    rewrite <- (S3 _ C3), <- (S5 _ C5);
  destruct (contains v1 (Minute t)), (contains v2 (Hour t)), (contains v4 (Month t)),
    (contains v3 (Day t)), (contains v5 (Weekday t)); simpl; intuition congruence.
Qed.

(** C18: an expression means what it says: any five well-formed fields (stars,
    steps, ranges, lists) written out in cron notation are accepted, and the
    parsed expression is due at a wall-clock minute exactly when every field
    selects its component, the two day fields being alternatives when both are
    restricted. *)
Theorem written_expression_is_due_as_written mi h dom mo dow t :
  field_ok 0 59 mi -> field_ok 0 23 h -> field_ok 1 31 dom -> field_ok 1 12 mo -> field_ok 0 6 dow ->
  civil_ok t ->
  exists e, ParseExpression (print_expression mi h dom mo dow) = Ok e
    /\ (IsDue e t = true <-> fields_due mi h dom mo dow t).
Proof.
  intros H1 H2 H3 H4 H5 Ht. unfold print_expression. cbn [fmap list_fmap].
  apply denoted_expression_due; [apply print_field_denotes; [lia..|done]..|done].
Qed.

(** ** The next due minute *)

Lemma next_loop_spec civil e n next :
  match next_loop civil e n next with
  | Some t => next <= t < next + Z.of_nat n /\ IsDue e (civil t) = true
              /\ forall t', next <= t' < t -> IsDue e (civil t') = false
  | None => forall t', next <= t' < next + Z.of_nat n -> IsDue e (civil t') = false
  end.
Proof.
  revert next. induction n as [|n IH]; intros next; cbn [next_loop]; [intros; lia|].
  destruct (IsDue e (civil next)) eqn:E; [split_and!; [lia|lia|done|intros; lia]|].
  specialize (IH (next + 1)). destruct (next_loop civil e n (next + 1)) as [t|].
  - destruct IH as (Ht & Hd & Hb). split_and!; [lia|lia|done|].
    intros t' Ht'. destruct (Z.eq_dec t' next) as [->|]; [done|]. apply Hb. lia.
  - intros t' Ht'. destruct (Z.eq_dec t' next) as [->|]; [done|]. apply IH. lia.
Qed.

(** The minutes Next looks at: those after [from], up to 4 * 365 days on. *)
Definition in_horizon (from t : Z) : Prop := from < t * MINUTE /\ t <= from / MINUTE + 4 * 365 * 24 * 60.

(** C25: Next returns [t], in any time zone, exactly when [t] is the first due
    minute after [from] and lies within the 4 * 365 days the search covers, and
    the zero time exactly when no minute of them is due; it always returns. *)
Theorem next_is_first_due civil e from :
  (forall t, Next civil e from = Some t <->
     in_horizon from t /\ IsDue e (civil t) = true
     /\ forall t', from < t' * MINUTE -> t' < t -> IsDue e (civil t') = false)
  /\ (Next civil e from = None <-> forall t, in_horizon from t -> IsDue e (civil t) = false).
Proof.
  pose proof (next_loop_spec civil e maxIterations (from / MINUTE + 1)) as H.
  assert (Hm : forall t, from < t * MINUTE <-> from / MINUTE + 1 <= t).
  { intros t. pose proof (Z.div_mod from MINUTE ltac:(done)).
    pose proof (Z.mod_pos_bound from MINUTE ltac:(done)). unfold MINUTE, SECOND in *. lia. }
  assert (Hmax : Z.of_nat maxIterations = 4 * 365 * 24 * 60) by (apply Z2Nat.id; lia).
  unfold in_horizon, Next. setoid_rewrite Hm. clear Hm. revert H Hmax. generalize maxIterations. intros n H Hmax.
  destruct (next_loop civil e n (from / MINUTE + 1)) as [t0|].
  - destruct H as (Ht & Hd & Hb). split.
    + intros t. split; [intros [= <-]; split_and!; [lia|lia|done|intros; apply Hb; lia]|].
      intros ([Ht1 Ht2] & Hd' & Hb'). f_equal. destruct (Z.lt_trichotomy t t0) as [Hlt|[->|Hlt]]; [|done|].
      * rewrite Hb in Hd' by lia. done.
      * rewrite Hb' in Hd by lia. done.
    + split; [done|]. intros Hno. rewrite Hno in Hd by lia. done.
  - split; [|split; [intros _ t Ht; apply H; lia|done]].
    intros t. split; [done|]. intros ([Ht1 Ht2] & Hd & _). rewrite H in Hd by lia. done.
Qed.

(** ** Leap days *)

Definition leap_expression : Expression :=
  mkExpression [0] [0] [29] [2] (makeRange 0 6 1) "0 0 29 2 *".

(** The day of 2024-02-29, in days and minutes since 1970. *)
Definition leap_2024 : Z := 19782.

Lemma leap_days_between :
  forallb (fun i => let '(_, m, d) := civil_of_days (leap_2024 + 1 + Z.of_nat i) in
                    negb ((m =? 2) && (d =? 29))) (seq 0 1460) = true.
Proof. vm_compute. reflexivity. Qed.

Lemma leap_due minutes :
  IsDue leap_expression (utc_civil minutes) = true ->
  minutes mod 60 = 0 /\ minutes / 60 mod 24 = 0
  /\ let '(_, m, d) := civil_of_days (minutes / 1440) in m = 2 /\ d = 29.
Proof.
  unfold IsDue, utc_civil. destruct (civil_of_days (minutes / 1440)) as [[y m] d].
  cbn [Minute Hour Day Month Weekday minute hour dayOfMonth month dayOfWeek raw leap_expression].
  unfold contains at 1 2 3. cbn [existsb]. rewrite !orb_false_r.
  destruct (Z.eqb_spec 0 (minutes mod 60)); cbn [negb]; [|done].
  destruct (Z.eqb_spec 0 (minutes / 60 mod 24)); cbn [negb]; [|done].
  destruct (Z.eqb_spec 2 m); cbn [negb]; [|done].
  change (fields "0 0 29 2 *") with ["0"; "0"; "29"; "2"; "*"]. cbv beta iota.
  change (String.eqb "29" "*") with false. cbn [andb negb orb List.length Nat.eqb].
  change (String.eqb "*" "*") with true. cbn [andb negb]. intros Hd. apply andb_true_iff in Hd as [Hd _].
  apply contains_spec, list_elem_of_singleton in Hd. done.
Qed.

(** The horizon of 4 * 365 days is one day short of a leap cycle: from the
    start of 2024-02-29, an expression that is due every leap day has no next
    time, although it is due on 2028-02-29. *)
Theorem next_misses_leap_day :
  ParseExpression "0 0 29 2 *" = Ok leap_expression
  /\ Next utc_civil leap_expression (leap_2024 * 1440 * MINUTE) = None
  /\ IsDue leap_expression (utc_civil ((leap_2024 + 1461) * 1440)) = true.
Proof.
  split; [vm_compute; reflexivity|]. split; [|vm_compute; reflexivity].
  assert (Hfrom : leap_2024 * 1440 * MINUTE / MINUTE = leap_2024 * 1440)
    by (apply Z.div_mul; discriminate).
  unfold Next. rewrite Hfrom. clear Hfrom.
  assert (Hmax : Z.of_nat maxIterations = 1460 * 1440) by (apply Z2Nat.id; lia).
  revert Hmax. generalize maxIterations. intros n Hmax.
  pose proof (next_loop_spec utc_civil leap_expression n (leap_2024 * 1440 + 1)) as H.
  destruct (next_loop _ _ _ _) as [t|]; [exfalso|reflexivity].
  destruct H as (Ht & (H1 & H2 & H3)%leap_due & _). rewrite Hmax in Ht.
  pose proof (Z.div_mod t 60 ltac:(lia)). pose proof (Z.div_mod (t / 60) 24 ltac:(lia)).
  assert (Hq : t / 1440 = t / 60 / 24) by (rewrite Z.div_div by lia; done).
  set (i := Z.to_nat (t / 1440 - (leap_2024 + 1))).
  assert (Hi : (i < 1460)%nat /\ t / 1440 = leap_2024 + 1 + Z.of_nat i).
  { subst i. unfold leap_2024 in *. lia. }
  pose proof (proj1 (forallb_forall _ _) leap_days_between i) as Hb. cbv beta in Hb.
  destruct Hi as [Hi Hi']. rewrite <- Hi' in Hb.
  specialize (Hb ltac:(apply in_seq; lia)).
  destruct (civil_of_days (t / 1440)) as [[y m] d]. destruct H3 as [-> ->]. done.
Qed.

Lemma written_expression_is_due_as_written_witness :
  (exists e, ParseExpression "0,30 9-17 1 */3 1-5" = Ok e
    /\ (IsDue e (mkCivil 30 9 4 7 4) = true <->
        selects 0 (FList [0; 30]) 30 /\ selects 0 (FRange 9 17) 9 /\ selects 1 (FStep 3) 7
        /\ day_selected (FList [1]) (FRange 1 5) (mkCivil 30 9 4 7 4))).
Proof.
  apply (written_expression_is_due_as_written (FList [0; 30]) (FRange 9 17) (FList [1]) (FStep 3)
           (FRange 1 5) (mkCivil 30 9 4 7 4)).
  - split; [discriminate|]. repeat constructor; lia.
  - simpl. lia.
  - split; [discriminate|]. repeat constructor; lia.
  - simpl. width.
  - simpl. lia.
  - unfold civil_ok. simpl. lia.
Defined.
