(* ===== verification/Schedule.v ===== *)
(** * Schedules

    Models scheduler/schedule.go: the fluent builder of a schedule, which keeps
    the five fields of a cron expression as text, and its test whether it is
    due.  The theorem says what a chain of builder calls means, by way of the
    abstract fields of Cron.v: every method is covered, with numbers in range
    and times of day written HH:MM; what an argument out of range does is shown
    at the end. *)

From Stdlib Require Import Ascii String.
From S2P Require Import Prelude GoStrings Cron.
Local Open Scope string_scope.
Local Open Scope list_scope.
Local Open Scope Z_scope.

(** ** The builder *)

Inductive ScheduleError := ErrInvalidDayOfMonth (day : Z) | InvalidCronExpression (expression : string).

Record Schedule := mkSchedule {
  expression : string;
  s_minute : string;
  s_hour : string;
  s_dayOfMonth : string;
  s_month : string;
  s_dayOfWeek : string;
  validationErr : list ScheduleError
}.

Definition eta_schedule (s : Schedule) : Schedule :=
  mkSchedule (expression s) (s_minute s) (s_hour s) (s_dayOfMonth s) (s_month s) (s_dayOfWeek s) (validationErr s).

Definition set_expression : string -> Schedule -> Schedule := ltac:(set_field eta_schedule expression).
Definition set_minute : string -> Schedule -> Schedule := ltac:(set_field eta_schedule s_minute).
Definition set_hour : string -> Schedule -> Schedule := ltac:(set_field eta_schedule s_hour).
Definition set_dayOfMonth : string -> Schedule -> Schedule := ltac:(set_field eta_schedule s_dayOfMonth).
Definition set_month : string -> Schedule -> Schedule := ltac:(set_field eta_schedule s_month).
Definition set_dayOfWeek : string -> Schedule -> Schedule := ltac:(set_field eta_schedule s_dayOfWeek).
Definition add_error (e : ScheduleError) (s : Schedule) : Schedule :=
  mkSchedule (expression s) (s_minute s) (s_hour s) (s_dayOfMonth s) (s_month s) (s_dayOfWeek s)
    (validationErr s ++ [e]).

Definition NewSchedule : Schedule := mkSchedule "" "*" "*" "*" "*" "*" [].

Definition field_texts (s : Schedule) : list string :=
  [s_minute s; s_hour s; s_dayOfMonth s; s_month s; s_dayOfWeek s].

Definition buildExpression (s : Schedule) : Schedule := set_expression (join " " (field_texts s)) s.

(** strconv.Itoa *)
Definition Itoa (n : Z) : string := if n <? 0 then "-" +:+ itoa (- n) else itoa n.

Definition EveryMinute (s : Schedule) : Schedule := buildExpression (set_minute "*" s).
Definition EveryFiveMinutes (s : Schedule) : Schedule := buildExpression (set_minute "*/5" s).
Definition EveryTenMinutes (s : Schedule) : Schedule := buildExpression (set_minute "*/10" s).
Definition EveryFifteenMinutes (s : Schedule) : Schedule := buildExpression (set_minute "*/15" s).
Definition EveryThirtyMinutes (s : Schedule) : Schedule := buildExpression (set_minute "*/30" s).
Definition Hourly (s : Schedule) : Schedule := buildExpression (set_minute "0" s).
Definition HourlyAt (minute : Z) (s : Schedule) : Schedule := buildExpression (set_minute (Itoa minute) s).
Definition Daily (s : Schedule) : Schedule := buildExpression (set_hour "0" (set_minute "0" s)).

(** A time of day in two parts; another text is ignored. *)
Definition set_time (time : string) (s : Schedule) : Schedule :=
  match split_on ":" time with
  | [h; m] => set_minute m (set_hour h s)
  | _ => s
  end.

Definition DailyAt (time : string) (s : Schedule) : Schedule := buildExpression (set_time time s).
Definition At (time : string) (s : Schedule) : Schedule := DailyAt time s.
Definition Weekly (s : Schedule) : Schedule :=
  buildExpression (set_dayOfWeek "0" (set_hour "0" (set_minute "0" s))).
Definition Monthly (s : Schedule) : Schedule :=
  buildExpression (set_dayOfMonth "1" (set_hour "0" (set_minute "0" s))).
Definition MonthlyOn (day : Z) (time : string) (s : Schedule) : Schedule :=
  buildExpression (set_time time (set_dayOfMonth (Itoa day) s)).
Definition Yearly (s : Schedule) : Schedule :=
  buildExpression (set_month "1" (set_dayOfMonth "1" (set_hour "0" (set_minute "0" s)))).

Definition Cron (expr : string) (s : Schedule) : Schedule :=
  let s := set_expression expr s in
  let s := match fields expr with
           | f0 :: f1 :: f2 :: f3 :: f4 :: _ =>
               set_dayOfWeek f4 (set_month f3 (set_dayOfMonth f2 (set_hour f1 (set_minute f0 s))))
           | _ => s
           end in
  match ParseExpression expr with
  | Ok _ => s
  | Err _ => add_error (InvalidCronExpression expr) s
  end.

Definition Days (days : list Z) (s : Schedule) : Schedule :=
  match days with
  | [] => s
  | _ =>
      match List.find (fun d => (d <? 1) || (31 <? d)) days with
      | Some d => add_error (ErrInvalidDayOfMonth d) s
      | None => buildExpression (set_dayOfMonth (join "," (Itoa <$> days)) s)
      end
  end.

Definition ValidationError (s : Schedule) : list ScheduleError := validationErr s.

Definition Weekdays (s : Schedule) : Schedule := buildExpression (set_dayOfWeek "1-5" s).
Definition Weekends (s : Schedule) : Schedule := buildExpression (set_dayOfWeek "0,6" s).
Definition Sundays (s : Schedule) : Schedule := buildExpression (set_dayOfWeek "0" s).
Definition Mondays (s : Schedule) : Schedule := buildExpression (set_dayOfWeek "1" s).
Definition Tuesdays (s : Schedule) : Schedule := buildExpression (set_dayOfWeek "2" s).
Definition Wednesdays (s : Schedule) : Schedule := buildExpression (set_dayOfWeek "3" s).
Definition Thursdays (s : Schedule) : Schedule := buildExpression (set_dayOfWeek "4" s).
Definition Fridays (s : Schedule) : Schedule := buildExpression (set_dayOfWeek "5" s).
Definition Saturdays (s : Schedule) : Schedule := buildExpression (set_dayOfWeek "6" s).

Definition GetExpression (s : Schedule) : string :=
  expression (if String.eqb (expression s) "" then buildExpression s else s).

(** The test; building an empty expression on the way is not visible. *)
Definition schedule_IsDue (s : Schedule) (t : Civil) : bool :=
  match validationErr s with
  | _ :: _ => false
  | [] =>
      match ParseExpression (GetExpression s) with
      | Err _ => false
      | Ok e => IsDue e t
      end
  end.

Definition NextRun (civil : Z -> Civil) (s : Schedule) (from : Z) : option Z :=
  match ParseExpression (GetExpression s) with
  | Err _ => None
  | Ok e => Next civil e from
  end.

(** ** What a chain of calls means *)

Record Fields := mkFields { f_minute : Field; f_hour : Field; f_dom : Field; f_month : Field; f_dow : Field }.

Definition every_minute : Fields := mkFields FStar FStar FStar FStar FStar.

(** What a schedule stands for: the fields its calls set, and the meaning of an
    alias given to Cron, which holds until a later call rebuilds the expression
    from the fields. *)
Record Plan := mkPlan { p_fields : Fields; p_alias : option Fields }.

Definition new_plan : Plan := mkPlan every_minute None.

(** The aliases and what they stand for. *)
Definition alias_table : list (string * Fields) :=
  let midnight dom mo dow := mkFields (FList [0]) (FList [0]) dom mo dow in
  [("@yearly", midnight (FList [1]) (FList [1]) FStar); ("@annually", midnight (FList [1]) (FList [1]) FStar);
   ("@monthly", midnight (FList [1]) FStar FStar); ("@weekly", midnight FStar FStar (FList [0]));
   ("@daily", midnight FStar FStar FStar); ("@midnight", midnight FStar FStar FStar);
   ("@hourly", mkFields (FList [0]) FStar FStar FStar FStar)].

(** A call with its arguments as numbers. *)
Inductive Call :=
  | CEvery (step : Z)                       (** EveryMinute, EveryFiveMinutes, ... *)
  | CHourly | CDaily
  | CHourlyAt (minute : Z)
  | CDailyAt (h m : Z)
  | CAt (h m : Z)
  | CWeekly | CMonthly | CYearly
  | CMonthlyOn (day h m : Z)
  | CDays (days : list Z)
  | CWeekdays | CWeekends
  | CWeekday (d : Z)                        (** Sundays, ..., Saturdays *)
  | CCron (mi h dom mo dow : Field)
  | CAlias (a : string) (f : Fields).       (** Cron with the alias of these fields *)

(** A time of day as HH:MM. *)
Definition pad2 (n : Z) : string := if n <? 10 then "0" +:+ itoa n else itoa n.
Definition clock_time (h m : Z) : string := pad2 h +:+ ":" +:+ pad2 m.

Definition every (step : Z) : Schedule -> Schedule :=
  if step =? 1 then EveryMinute else if step =? 5 then EveryFiveMinutes else if step =? 10 then EveryTenMinutes
  else if step =? 15 then EveryFifteenMinutes else EveryThirtyMinutes.

Definition on_weekday (d : Z) : Schedule -> Schedule :=
  if d =? 0 then Sundays else if d =? 1 then Mondays else if d =? 2 then Tuesdays else if d =? 3 then Wednesdays
  else if d =? 4 then Thursdays else if d =? 5 then Fridays else Saturdays.

Definition call (c : Call) : Schedule -> Schedule :=
  match c with
  | CEvery step => every step
  | CHourly => Hourly
  | CDaily => Daily
  | CHourlyAt m => HourlyAt m
  | CDailyAt h m => DailyAt (clock_time h m)
  | CAt h m => At (clock_time h m)
  | CWeekly => Weekly
  | CMonthly => Monthly
  | CYearly => Yearly
  | CMonthlyOn d h m => MonthlyOn d (clock_time h m)
  | CDays days => Days days
  | CWeekdays => Weekdays
  | CWeekends => Weekends
  | CWeekday d => on_weekday d
  | CCron mi h dom mo dow => Cron (print_expression mi h dom mo dow)
  | CAlias a _ => Cron a
  end.

Definition call_ok (c : Call) : Prop :=
  match c with
  | CEvery step => step ∈ [1; 5; 10; 15; 30]
  | CHourlyAt m => 0 <= m <= 59
  | CDailyAt h m | CAt h m => 0 <= h <= 23 /\ 0 <= m <= 59
  | CMonthlyOn d h m => 1 <= d <= 31 /\ 0 <= h <= 23 /\ 0 <= m <= 59
  | CDays days => Forall (fun d => 1 <= d <= 31) days
  | CWeekday d => 0 <= d <= 6
  | CCron mi h dom mo dow =>
      field_ok 0 59 mi /\ field_ok 0 23 h /\ field_ok 1 31 dom /\ field_ok 1 12 mo /\ field_ok 0 6 dow
  | CAlias a f => (a, f) ∈ alias_table
  | _ => True
  end.

(** Its effect on the abstract fields. *)
Definition set_fields (c : Call) (f : Fields) : Fields :=
  let '(mkFields mi h dom mo dow) := f in
  match c with
  | CEvery step => mkFields (if step =? 1 then FStar else FStep step) h dom mo dow
  | CHourly => mkFields (FList [0]) h dom mo dow
  | CDaily => mkFields (FList [0]) (FList [0]) dom mo dow
  | CHourlyAt m => mkFields (FList [m]) h dom mo dow
  | CDailyAt h m | CAt h m => mkFields (FList [m]) (FList [h]) dom mo dow
  | CWeekly => mkFields (FList [0]) (FList [0]) dom mo (FList [0])
  | CMonthly => mkFields (FList [0]) (FList [0]) (FList [1]) mo dow
  | CYearly => mkFields (FList [0]) (FList [0]) (FList [1]) (FList [1]) dow
  | CMonthlyOn d h m => mkFields (FList [m]) (FList [h]) (FList [d]) mo dow
  | CDays [] | CAlias _ _ => f
  | CDays days => mkFields mi h (FList days) mo dow
  | CWeekdays => mkFields mi h dom mo (FRange 1 5)
  | CWeekends => mkFields mi h dom mo (FList [0; 6])
  | CWeekday d => mkFields mi h dom mo (FList [d])
  | CCron mi h dom mo dow => mkFields mi h dom mo dow
  end.

Definition meaning (c : Call) (p : Plan) : Plan :=
  mkPlan (set_fields c (p_fields p))
    match c with CAlias _ f => Some f | CDays [] => p_alias p | _ => None end.

Definition due_by (f : Fields) (t : Civil) : Prop :=
  fields_due (f_minute f) (f_hour f) (f_dom f) (f_month f) (f_dow f) t.

(** An alias that no later call replaced decides, else the fields. *)
Definition plan_due (p : Plan) : Civil -> Prop := due_by (default (p_fields p) (p_alias p)).

Definition chain (calls : list Call) (s : Schedule) : Schedule := fold_left (fun s c => call c s) calls s.
Definition chain_meaning (calls : list Call) (p : Plan) : Plan := fold_left (fun p c => meaning c p) calls p.

(** ** The texts stand for the fields *)

(** The texts alone, whatever the expression is. *)
Record texts_ok (s : Schedule) (f : Fields) : Prop := {
  rp_valid : validationErr s = [];
  rp_minute : denotes 0 59 (s_minute s) (f_minute f);
  rp_hour : denotes 0 23 (s_hour s) (f_hour f);
  rp_dom : denotes 1 31 (s_dayOfMonth s) (f_dom f);
  rp_month : denotes 1 12 (s_month s) (f_month f);
  rp_dow : denotes 0 6 (s_dayOfWeek s) (f_dow f)
}.

Definition expr_ok (s : Schedule) (alias : option Fields) : Prop :=
  match alias with
  | None => GetExpression s = join " " (field_texts s)
  | Some f => (GetExpression s, f) ∈ alias_table
  end.

Definition represents (s : Schedule) (p : Plan) : Prop := texts_ok s (p_fields p) /\ expr_ok s (p_alias p).

(** An alias is one word, parsed as the fields it stands for, written out. *)
Record alias_ok (a : string) (f : Fields) : Prop := {
  al_word : fields a = [a];
  al_parse : ParseExpression a
    = ParseExpression (print_expression (f_minute f) (f_hour f) (f_dom f) (f_month f) (f_dow f));
  al_minute : field_ok 0 59 (f_minute f);
  al_hour : field_ok 0 23 (f_hour f);
  al_dom : field_ok 1 31 (f_dom f);
  al_month : field_ok 1 12 (f_month f);
  al_dow : field_ok 0 6 (f_dow f)
}.

Lemma zero_ok max : 0 <= max -> field_ok 0 max (FList [0]).
Proof. intros H. split; [done|]. apply Forall_singleton. lia. Qed.

Lemma one_ok max : 1 <= max -> field_ok 1 max (FList [1]).
Proof. intros H. split; [done|]. apply Forall_singleton. lia. Qed.

Lemma alias_table_ok : Forall (fun af => alias_ok af.1 af.2) alias_table.
Proof.
  repeat (apply Forall_cons; split; [split; [vm_compute; reflexivity|vm_compute; reflexivity|..];
    first [exact I|apply zero_ok; lia|apply one_ok; lia]|]). by apply Forall_nil.
Qed.

Lemma alias_parses a f t :
  (a, f) ∈ alias_table -> civil_ok t -> exists e, ParseExpression a = Ok e /\ (IsDue e t = true <-> due_by f t).
Proof.
  intros Ha Ht. pose proof alias_table_ok as H. rewrite Forall_forall in H.
  destruct (H _ Ha) as [_ E F1 F2 F3 F4 F5]. cbn [fst snd] in *. rewrite E. unfold due_by.
  apply denoted_expression_due; [apply print_field_denotes; [lia..|done]..|done].
Qed.

Lemma represented_is_due s p t : represents s p -> civil_ok t -> schedule_IsDue s t = true <-> plan_due p t.
Proof.
  intros [[Hv H1 H2 H3 H4 H5] He] Ht. unfold schedule_IsDue, plan_due. rewrite Hv.
  destruct (p_alias p) as [f|]; cbn [expr_ok default] in *.
  - destruct (alias_parses _ f t He Ht) as (e & E & Hdue). by rewrite E.
  - rewrite He. destruct (denoted_expression_due _ _ _ _ _ _ _ _ _ _ t H1 H2 H3 H4 H5 Ht) as (e & E & Hdue).
    unfold field_texts. by rewrite E.
Qed.

(** Rebuilding the expression from texts that stand for fields. *)
Lemma build_represents s f :
  validationErr s = [] -> denotes 0 59 (s_minute s) (f_minute f) -> denotes 0 23 (s_hour s) (f_hour f) ->
  denotes 1 31 (s_dayOfMonth s) (f_dom f) -> denotes 1 12 (s_month s) (f_month f) ->
  denotes 0 6 (s_dayOfWeek s) (f_dow f) -> represents (buildExpression s) (mkPlan f None).
Proof.
  intros Hv H1 H2 H3 H4 H5. split; [by split|]. cbn [p_alias expr_ok]. unfold GetExpression, buildExpression, set_expression, field_texts.
  cbn [expression s_minute s_hour s_dayOfMonth s_month s_dayOfWeek join].
  destruct (dn_plain _ _ _ _ H1) as [_ Hne]. by destruct (s_minute s) as [|c r].
Qed.

Lemma literal_denotes min max s f :
  0 <= min <= 1 -> min <= max < 100 -> field_ok min max f -> s = print_field f -> denotes min max s f.
Proof. intros Hmin Hmax Hok ->. by apply print_field_denotes. Qed.

Lemma Itoa_pos n : 0 <= n -> Itoa n = itoa n.
Proof. intros H. unfold Itoa. by rewrite (proj2 (Z.ltb_ge n 0)) by lia. Qed.

Lemma number_denotes min max n :
  0 <= min <= 1 -> min <= n <= max -> max < 100 -> denotes min max (Itoa n) (FList [n]).
Proof.
  intros Hmin Hn Hmax. apply literal_denotes; [lia|lia| |by rewrite Itoa_pos by lia].
  split; [done|]. apply Forall_singleton. lia.
Qed.

Lemma numbers_denote min max l :
  0 <= min <= 1 -> min <= max < 100 -> l <> [] -> Forall (fun n => min <= n <= max) l ->
  denotes min max (join "," (Itoa <$> l)) (FList l).
Proof.
  intros Hmin Hmax Hne Hl. apply literal_denotes; [done|done|done|]. cbn [print_field]. f_equal.
  apply list_fmap_ext. intros i n Hi. rewrite Itoa_pos; [done|].
  rewrite Forall_lookup in Hl. specialize (Hl i n Hi). cbn in Hl. lia.
Qed.

(** Two digits are read as the number they write. *)
Lemma pad2_facts max n :
  max ∈ [23; 59] -> 0 <= n <= max ->
  all_bytes is_plain (pad2 n) = true /\ pad2 n <> "" /\ has_prefix "@" (pad2 n) = false
  /\ String.eqb (pad2 n) "*" = false /\ parseField (pad2 n) 0 max = Ok [n].
Proof.
  intros Hmax Hn.
  assert (H : forallb (fun max => forallb (fun n =>
    all_bytes is_plain (pad2 n) && negb (String.eqb (pad2 n) "") && negb (has_prefix "@" (pad2 n))
    && negb (String.eqb (pad2 n) "*") && match parseField (pad2 n) 0 max with Ok l => bool_decide (l = [n]) | Err _ => false end)
    (seqZ 0 (max + 1))) [23; 59] = true) by (vm_compute; reflexivity).
  rewrite List.forallb_forall in H. specialize (H max ltac:(by apply list_elem_of_In)).
  rewrite List.forallb_forall in H. specialize (H n ltac:(apply list_elem_of_In, elem_of_seqZ; lia)).
  rewrite !andb_true_iff, !negb_true_iff in H. destruct H as ((((H1 & H2) & H3) & H4) & H5).
  apply String.eqb_neq in H2. destruct (parseField _ _ _) as [l|]; [|done].
  apply bool_decide_eq_true in H5 as ->. done.
Qed.

Lemma pad2_denotes max n : max ∈ [23; 59] -> 0 <= n <= max -> denotes 0 max (pad2 n) (FList [n]).
Proof.
  intros Hmax Hn. destruct (pad2_facts max n Hmax Hn) as (H1 & H2 & H3 & H4 & H5).
  split; [done|done|by rewrite H4, bool_decide_false| |].
  - exists [n]. split; [done|]. intros v _. rewrite contains_spec. done.
  - exists n. split; [done|left].
Qed.

Lemma set_clock_time h m s :
  0 <= h <= 23 -> 0 <= m <= 59 -> set_time (clock_time h m) s = set_minute (pad2 m) (set_hour (pad2 h) s).
Proof.
  intros Hh Hm. unfold set_time, clock_time. cbn [String.append].
  assert (Hfree : forall n, 0 <= n -> contains_byte ":" (pad2 n) = false).
  { intros n Hn. unfold pad2. destruct (n <? 10); [|by apply itoa_free]. rewrite contains_byte_app.
    by rewrite itoa_free. }
  rewrite split_on_app_sep, split_on_no_sep by (apply Hfree; lia). done.
Qed.

(** ** Chains of calls *)

Lemma daily_at_represents h m s f :
  0 <= h <= 23 /\ 0 <= m <= 59 -> validationErr s = [] -> denotes 1 31 (s_dayOfMonth s) (f_dom f) ->
  denotes 1 12 (s_month s) (f_month f) -> denotes 0 6 (s_dayOfWeek s) (f_dow f) ->
  represents (DailyAt (clock_time h m) s) (mkPlan (mkFields (FList [m]) (FList [h]) (f_dom f) (f_month f) (f_dow f)) None).
Proof.
  intros [Hh Hm] Hv H3 H4 H5. unfold DailyAt. rewrite set_clock_time by lia.
  apply build_represents; try done; (apply pad2_denotes; [apply list_elem_of_In; cbn; tauto|lia]).
Qed.

(** Solves [denotes] of a literal. *)
Ltac literal := apply literal_denotes; [lia|lia|cbn; try (split; [done|]); repeat constructor; lia|reflexivity].

(** Reduces a call to texts that stand for fields. *)
Ltac rebuilt := apply build_represents; cbn; try done; try literal.

Lemma every_represents step s p : step ∈ [1; 5; 10; 15; 30] -> represents s p -> represents (every step s) (meaning (CEvery step) p).
Proof.
  intros Hs [[Hv H1 H2 H3 H4 H5] _]. destruct p as [[] al]. cbn in *.
  repeat (apply elem_of_cons in Hs as [->|Hs]; [rebuilt|]). by apply elem_of_nil in Hs.
Qed.

Lemma weekday_represents d s p : 0 <= d <= 6 -> represents s p -> represents (on_weekday d s) (meaning (CWeekday d) p).
Proof.
  intros Hd [[Hv H1 H2 H3 H4 H5] _]. destruct p as [[] al]. cbn in *.
  assert (Hc : d = 0 \/ d = 1 \/ d = 2 \/ d = 3 \/ d = 4 \/ d = 5 \/ d = 6) by lia.
  destruct Hc as [-> |[-> |[-> |[-> |[-> |[-> | ->]]]]]]; rebuilt.
Qed.

Lemma days_represents days s p :
  Forall (fun d => 1 <= d <= 31) days -> represents s p -> represents (Days days s) (meaning (CDays days) p).
Proof.
  intros Hd [[Hv H1 H2 H3 H4 H5] He]. destruct p as [[] al], days as [|d days]; [by split|].
  cbn [p_fields p_alias f_minute f_hour f_dom f_month f_dow] in *.
  unfold Days. destruct (List.find _ (d :: days)) as [x|] eqn:E.
  - apply find_some in E as [Hx%list_elem_of_In E]. rewrite Forall_forall in Hd. specialize (Hd x Hx).
    apply orb_true_iff in E as [E%Z.ltb_lt|E%Z.ltb_lt]; lia.
  - apply build_represents; try done. by apply numbers_denote.
Qed.

(** An alias keeps the texts and replaces the expression. *)
Lemma alias_represents a g s p :
  (a, g) ∈ alias_table -> represents s p -> represents (Cron a s) (meaning (CAlias a g) p).
Proof.
  intros Ha [[Hv H1 H2 H3 H4 H5] _]. pose proof alias_table_ok as Hok. rewrite Forall_forall in Hok.
  destruct (Hok _ Ha) as [Hf _ _ _ _ _ _]. cbn [fst] in Hf.
  destruct (alias_parses a g (mkCivil 0 0 1 1 0) Ha) as (e & E & _); [unfold civil_ok; cbn; lia|].
  unfold Cron. rewrite Hf, E. split; [by destruct p as [[] al]|].
  cbn [meaning p_alias expr_ok]. unfold GetExpression. cbn [expression set_expression].
  destruct (String.eqb_spec a "") as [->|_]; [done|exact Ha].
Qed.

Lemma cron_represents mi h dom mo dow s p :
  call_ok (CCron mi h dom mo dow) -> represents s p ->
  represents (call (CCron mi h dom mo dow) s) (meaning (CCron mi h dom mo dow) p).
Proof.
  intros (F1 & F2 & F3 & F4 & F5) [[Hv _ _ _ _ _] _]. destruct p as [[] al]. cbn [call meaning set_fields p_fields].
  set (t0 := mkCivil 0 0 1 1 0).
  assert (D1 : denotes 0 59 (print_field mi) mi) by (apply print_field_denotes; [lia..|done]).
  assert (D2 : denotes 0 23 (print_field h) h) by (apply print_field_denotes; [lia..|done]).
  assert (D3 : denotes 1 31 (print_field dom) dom) by (apply print_field_denotes; [lia..|done]).
  assert (D4 : denotes 1 12 (print_field mo) mo) by (apply print_field_denotes; [lia..|done]).
  assert (D5 : denotes 0 6 (print_field dow) dow) by (apply print_field_denotes; [lia..|done]).
  destruct (denoted_expression_due _ _ _ _ _ _ _ _ _ _ t0 D1 D2 D3 D4 D5) as (e & E & _);
    [unfold civil_ok; cbn; lia|].
  assert (Hf : fields (print_expression mi h dom mo dow) = print_field <$> [mi; h; dom; mo; dow]).
  { apply fields_join. cbn [fmap list_fmap]. repeat (apply Forall_cons; split; [by eapply dn_plain|]). by apply Forall_nil. }
  unfold Cron. rewrite Hf. unfold print_expression in *. cbn [fmap list_fmap] in *. rewrite E.
  split; [by split|]. cbn [p_alias expr_ok]. unfold GetExpression. cbn [expression set_expression set_dayOfWeek set_month set_dayOfMonth set_hour set_minute].
  destruct (dn_plain _ _ _ _ D1) as [_ Hne]. by destruct (print_field mi).
Qed.

Lemma call_represents c s p : call_ok c -> represents s p -> represents (call c s) (meaning c p).
Proof.
  intros Hc Hr. destruct c as [step| | |m|h m|h m| | | |d h m|days| | |d|mi h dom mo dow|a g];
    [by apply every_represents|..|by apply days_represents| | |by apply weekday_represents|by apply cron_represents
    |by apply alias_represents];
    destruct Hr as [[Hv H1 H2 H3 H4 H5] _], p as [[mi' h' dom' mo' dow'] al]; unfold meaning; cbn [call set_fields call_ok p_fields] in *.
  - rebuilt.
  - rebuilt.
  - apply build_represents; try done. apply number_denotes; lia.
  - by apply (daily_at_represents h m s (mkFields mi' h' dom' mo' dow')).
  - by apply (daily_at_represents h m s (mkFields mi' h' dom' mo' dow')).
  - rebuilt.
  - rebuilt.
  - rebuilt.
  - unfold MonthlyOn. rewrite set_clock_time by lia. destruct Hc as (Hd & Hh & Hm).
    apply build_represents; try done; [(apply pad2_denotes; [apply list_elem_of_In; cbn; tauto|lia])..|apply number_denotes; lia].
  - rebuilt.
  - rebuilt.
Qed.

Lemma chain_represents calls s p :
  Forall call_ok calls -> represents s p -> represents (chain calls s) (chain_meaning calls p).
Proof.
  intros Hc. revert s p. induction Hc as [|c calls Hc _ IH]; intros s p Hr; [done|]. apply IH. by apply call_represents.
Qed.

Lemma new_represents : represents NewSchedule new_plan.
Proof. split; [split; [done|literal..]|reflexivity]. Qed.

(** C27: A schedule means what its chain of calls says.  Any chain of the
    builder's methods, with minutes, hours and days of the month in range,
    times of day written HH:MM, and Cron given five well-formed fields or an
    alias, makes a schedule that is due at a wall-clock minute exactly when the
    minute is selected by the fields the calls set, the last call of each field
    deciding, or by the alias where no call after it rebuilt the expression;
    the two day fields are alternatives when both are restricted. *)
Theorem fluent_schedule_is_due_as_specified calls t :
  Forall call_ok calls -> civil_ok t ->
  schedule_IsDue (chain calls NewSchedule) t = true <-> plan_due (chain_meaning calls new_plan) t.
Proof.
  intros Hc Ht. apply represented_is_due; [|done]. by apply chain_represents; [|apply new_represents].
Qed.

(** Hourly, then every weekday at 09:05. *)
Lemma fluent_schedule_is_due_as_specified_witness :
  schedule_IsDue (chain [CHourly; CDailyAt 9 5; CWeekdays] NewSchedule) (mkCivil 5 9 14 3 4) = true.
Proof.
  apply (fluent_schedule_is_due_as_specified [CHourly; CDailyAt 9 5; CWeekdays] (mkCivil 5 9 14 3 4)).
  - apply Forall_cons. split; [exact I|]. repeat (apply Forall_cons; split; [cbn; lia|]). by apply Forall_nil.
  - unfold civil_ok. cbn. lia.
  - vm_compute. split; [by left|]. split; [by left|]. split; [done|]. split; [done|]. split; discriminate.
Defined.

(** ** What the builder accepts *)

(** An alias leaves the fields as they were, so a constraint chained after it
    replaces it: the schedule runs every minute of the day. *)
Lemma alias_is_lost_by_a_constraint :
  GetExpression (Weekdays (Cron "@daily" NewSchedule)) = "* * * * 1-5"
  /\ ValidationError (Weekdays (Cron "@daily" NewSchedule)) = [].
Proof. by vm_compute. Qed.

(** A day constraint widens a monthly schedule: the first of the month is a
    Saturday, and the tenth a Monday. *)
Lemma monthly_on_weekdays_is_either :
  schedule_IsDue (Weekdays (Monthly NewSchedule)) (mkCivil 0 0 1 6 6) = true
  /\ schedule_IsDue (Weekdays (Monthly NewSchedule)) (mkCivil 0 0 10 6 1) = true.
Proof. by vm_compute. Qed.

(** Out of range times are never due and not reported. *)
Lemma invalid_times_are_silent t :
  schedule_IsDue (DailyAt "25:00" NewSchedule) t = false /\ ValidationError (DailyAt "25:00" NewSchedule) = []
  /\ schedule_IsDue (HourlyAt 75 NewSchedule) t = false /\ ValidationError (HourlyAt 75 NewSchedule) = [].
Proof. by vm_compute. Qed.
