(* ===== verification/SchedulerLock.v ===== *)
(** * The scheduler's lock

    Models InMemoryLocker of scheduler/lock.go, the lock behind OnOneServer
    and WithoutOverlapping.  A lock object is its name and its fencing token;
    its [released] flag is kept in the state, by token.  The clock is read
    before the mutex is taken, so [now] may be older than the state it is
    compared with. *)

From Stdlib Require Import Ascii String.
From S2P Require Import Prelude.
Local Open Scope string_scope.
Local Open Scope list_scope.
Local Open Scope Z_scope.

Record inMemoryLock := mkMemLock { lk_token : Z; lk_expires : Z }.

Record InMemoryLocker := mkLocker {
  lr_token : Z;                       (** uint64 *)
  lr_locks : gmap string inMemoryLock;
  lr_released : gset Z
}.

Definition NewInMemoryLocker : InMemoryLocker := mkLocker 0 ∅ ∅.

(** [None] is ErrLockHeld. *)
Definition Acquire (l : InMemoryLocker) (now : Z) (name : string) (ttl : Z)
    : InMemoryLocker * option Z :=
  if match lr_locks l !! name with Some ex => now <? lk_expires ex | None => false end
  then (l, None)
  else let tok := (lr_token l + 1) mod two64 in
       (mkLocker tok (<[name := mkMemLock tok (now + ttl)]> (lr_locks l)) (lr_released l), Some tok).

Definition Release (l : InMemoryLocker) (name : string) (tok : Z) : InMemoryLocker :=
  if bool_decide (tok ∈ lr_released l) then l
  else mkLocker (lr_token l)
         (match lr_locks l !! name with
          | Some ex => if lk_token ex =? tok then delete name (lr_locks l) else lr_locks l
          | None => lr_locks l
          end) ({[tok]} ∪ lr_released l).

(** ** Histories *)

Inductive locker_op := LkAcquire (now : Z) (name : string) (ttl : Z) | LkRelease (name : string) (tok : Z).

(** A step and the token it issued. *)
Definition locker_step (l : InMemoryLocker) (o : locker_op) : InMemoryLocker * option Z :=
  match o with
  | LkAcquire now name ttl => Acquire l now name ttl
  | LkRelease name tok => (Release l name tok, None)
  end.

Fixpoint locker_run (l : InMemoryLocker) (h : list locker_op) : InMemoryLocker * list (option Z) :=
  match h with
  | [] => (l, [])
  | o :: h' =>
      let '(l, t) := locker_step l o in
      let '(l, ts) := locker_run l h' in (l, t :: ts)
  end.

Lemma Acquire_token l now name ttl :
  0 <= lr_token l -> lr_token l + 1 < two64 ->
  (Acquire l now name ttl = (l, None)
   \/ exists l', Acquire l now name ttl = (l', Some (lr_token l + 1)) /\ lr_token l' = lr_token l + 1).
Proof.
  intros H0 H1. unfold Acquire. case_match; [by left|right]. rewrite Z.mod_small by lia. eauto.
Qed.

Lemma locker_tokens_above l h :
  0 <= lr_token l -> lr_token l + Z.of_nat (List.length h) < two64 ->
  StronglySorted Z.lt (omap id (locker_run l h).2)
  /\ Forall (fun t => lr_token l < t) (omap id (locker_run l h).2).
Proof.
  revert l. induction h as [|o h IH]; intros l H0 Hn; cbn [locker_run List.length] in *.
  { split; constructor. }
  rewrite Nat2Z.inj_succ in Hn. destruct o as [now name ttl|name tok]; cbn [locker_step].
  - destruct (Acquire_token l now name ttl H0 ltac:(lia)) as [->|(l' & -> & Hl')].
    + specialize (IH l H0 ltac:(lia)). by destruct (locker_run l h).
    + specialize (IH l' ltac:(lia) ltac:(lia)). destruct (locker_run l' h) as [l2 ts].
      rewrite Hl' in IH. csimpl in *. destruct IH as [Hs Hf]. split.
      * by constructor.
      * constructor; [lia|]. eapply Forall_impl; [exact Hf|]. simpl. lia.
  - assert (Ht : lr_token (Release l name tok) = lr_token l) by (unfold Release; by case_match).
    specialize (IH (Release l name tok)). rewrite Ht in IH. specialize (IH H0 ltac:(lia)).
    by destruct (locker_run (Release l name tok) h).
Qed.

(** fencing tokens are strictly increasing: over any history of fewer than
    2^64 operations of a locker, on any names and in any order, every
    successful acquisition gets a larger token than all earlier ones. *)
Theorem fencing_tokens_strictly_increase h :
  Z.of_nat (List.length h) < two64 ->
  StronglySorted Z.lt (omap id (locker_run NewInMemoryLocker h).2).
Proof. intros Hn. apply locker_tokens_above; simpl; lia. Qed.

(** Everything others may do while a hold lasts: acquire any lock, release any
    lock but this one, twice or late. *)
Definition other_op (tok expires : Z) (o : locker_op) : Prop :=
  match o with
  | LkAcquire now _ _ => now < expires
  | LkRelease _ tok' => tok' <> tok
  end.

Lemma other_op_keeps l name tok expires o :
  lr_locks l !! name = Some (mkMemLock tok expires) -> other_op tok expires o ->
  lr_locks (locker_step l o).1 !! name = Some (mkMemLock tok expires)
  /\ (forall now ttl, o = LkAcquire now name ttl -> (locker_step l o).2 = None).
Proof.
  intros Hl Ho. destruct o as [now nm ttl|nm tok']; simpl in *.
  - unfold Acquire. destruct (decide (nm = name)) as [->|Hne].
    + rewrite Hl. cbn [lk_expires]. by rewrite (proj2 (Z.ltb_lt _ _) Ho).
    + split; [|naive_solver]. case_match; simpl; [done|]. by rewrite lookup_insert_ne.
  - split; [|done]. unfold Release. case_bool_decide; [done|]. cbn [lr_locks].
    destruct (decide (nm = name)) as [->|Hne].
    + rewrite Hl. cbn [lk_token]. by rewrite (proj2 (Z.eqb_neq _ _)) by done.
    + case_match; [|done]. case_match; [|done]. by rewrite lookup_delete_ne.
Qed.

(** a held lock excludes everyone until it expires: through any
    interleaving of acquisitions that read a clock before the deadline and of
    releases of other locks, among them late and repeated releases by former
    holders of the same name, every attempt to take the name fails and the
    holder still holds it. *)
Theorem scheduler_lock_excludes l now name ttl l' tok h :
  Acquire l now name ttl = (l', Some tok) -> Forall (other_op tok (now + ttl)) h ->
  Forall (fun oo => forall now' ttl', oo.1 = LkAcquire now' name ttl' -> oo.2 = None)
    (zip h (locker_run l' h).2)
  /\ lr_locks (locker_run l' h).1 !! name = Some (mkMemLock tok (now + ttl)).
Proof.
  intros Ha Hh.
  assert (Hl : lr_locks l' !! name = Some (mkMemLock tok (now + ttl))).
  { unfold Acquire in Ha. case_match; [done|]. injection Ha as <- <-. apply lookup_insert_eq. }
  clear Ha. revert l' Hl. induction Hh as [|o h Ho Hh IH]; intros l' Hl; cbn [locker_run].
  { split; [constructor|done]. }
  destruct (other_op_keeps l' name tok (now + ttl) o Hl Ho) as [Hl1 Hn1].
  destruct (locker_step l' o) as [l1 t1]. cbn [fst snd] in *. destruct (IH l1 Hl1) as [H1 H2].
  destruct (locker_run l1 h) as [l2 ts]. simpl in *. split; [by constructor|done].
Qed.

Definition locker_history : list locker_op :=
  [LkAcquire 0 "job" 10; LkAcquire 5 "job" 10; LkAcquire 12 "job" 10; LkRelease "job" 1;
   LkAcquire 13 "job" 10; LkAcquire 14 "other" 10].

Lemma fencing_tokens_strictly_increase_witness :
  StronglySorted Z.lt (omap id (locker_run NewInMemoryLocker locker_history).2)
  /\ (locker_run NewInMemoryLocker locker_history).2 = [Some 1; None; Some 2; None; None; Some 3].
Proof.
  split; [|vm_compute; reflexivity].
  apply (fencing_tokens_strictly_increase locker_history). reflexivity.
Defined.

Lemma scheduler_lock_excludes_witness :
  lr_locks (locker_run (Acquire NewInMemoryLocker 0 "job" 10).1
    [LkAcquire 5 "job" 10; LkRelease "job" 7]).1 !! "job" = Some (mkMemLock 1 10).
Proof.
  apply (scheduler_lock_excludes NewInMemoryLocker 0 "job" 10
           (Acquire NewInMemoryLocker 0 "job" 10).1 1 [LkAcquire 5 "job" 10; LkRelease "job" 7]).
  - reflexivity.
  - repeat constructor; simpl; lia.
Defined.
