(* ===== verification/Scheduler.v ===== *)
(** * Running scheduled jobs

    Models the tick of scheduler/scheduler.go with the job side of job.go: which
    jobs of a host are due and allowed to run, the suppression of a wall-clock
    minute that repeats, maintenance mode, and the contest for the OnOneServer
    and WithoutOverlapping locks.

    Several hosts share one Locker, the one of SchedulerLock.v.  A host's tick
    looks at its jobs one after the other; each access to the Locker is one
    step, and the steps of the hosts and of the runs they start interleave in
    any order.  The When and Skip callbacks are functions of the instant they
    are called at ([None] for a panic).  What a run executes is outside the
    model: it starts and it finishes. *)

From Stdlib Require Import Ascii String.
From S2P Require Import Prelude GoStrings Cron Schedule SchedulerLock.
Local Open Scope string_scope.
Local Open Scope list_scope.
Local Open Scope Z_scope.

(** ** Jobs *)

Record Job := mkJob {
  j_name : string;
  j_schedule : Schedule;
  withoutOverlapping : bool;
  onOneServer : bool;
  evenInMaintenanceMode : bool;
  withoutOverlappingTTL : Z;
  running : bool;
  lastFiredWallMinute : string;
  when : option (Z -> option bool);
  skip : option (Z -> option bool);
  between : string * string;
  unlessBetween : string * string;
  environments : list string
}.

Definition eta_job (j : Job) : Job :=
  mkJob (j_name j) (j_schedule j) (withoutOverlapping j) (onOneServer j) (evenInMaintenanceMode j)
    (withoutOverlappingTTL j) (running j) (lastFiredWallMinute j) (when j) (skip j) (between j)
    (unlessBetween j) (environments j).
Definition set_running : bool -> Job -> Job := ltac:(set_field eta_job running).
Definition set_lastFired : string -> Job -> Job := ltac:(set_field eta_job lastFiredWallMinute).

(** The clock of a tick: the instant and its wall-clock reading. *)
Record Now := mkNow { instant : Z; year : Z; civil : Civil }.

Definition pad4 (n : Z) : string :=
  if n <? 10 then "000" +:+ itoa n else if n <? 100 then "00" +:+ itoa n
  else if n <? 1000 then "0" +:+ itoa n else itoa n.

(** Format 2006-01-02T15:04 *)
Definition wallMinuteKey (t : Now) : string :=
  let c := civil t in
  pad4 (year t) +:+ "-" +:+ pad2 (Month c) +:+ "-" +:+ pad2 (Day c) +:+ "T" +:+ clock_time (Hour c) (Minute c).

Definition alreadyFiredAt (j : Job) (t : Now) : bool :=
  negb (String.eqb (lastFiredWallMinute j) "") && String.eqb (lastFiredWallMinute j) (wallMinuteKey t).

Definition markFired (t : Now) (j : Job) : Job := set_lastFired (wallMinuteKey t) j.

Definition withinDailyRange (now start stop : string) : bool :=
  if String.leb start stop then String.leb start now && String.leb now stop
  else String.leb start now || String.leb now stop.

(** A condition that panics does not let the job run. *)
Definition callCondition (cond : Z -> option bool) (t : Z) : bool * bool :=
  match cond t with Some b => (b, true) | None => (false, false) end.

(** [nowStr] is the wall clock HH:MM that ShouldRun reads. *)
Definition ShouldRun (env : string) (t : Z) (nowStr : string) (j : Job) : bool :=
  if withoutOverlapping j && running j then false
  else if match when j with
          | Some c => let '(due, ok) := callCondition c t in negb ok || negb due
          | None => false
          end then false
  else if match skip j with
          | Some c => let '(skipped, ok) := callCondition c t in negb ok || skipped
          | None => false
          end then false
  else if negb (String.eqb (between j).1 "") && negb (String.eqb (between j).2 "")
          && negb (withinDailyRange nowStr (between j).1 (between j).2) then false
  else if negb (String.eqb (unlessBetween j).1 "") && negb (String.eqb (unlessBetween j).2 "")
          && withinDailyRange nowStr (unlessBetween j).1 (unlessBetween j).2 then false
  else match environments j with
       | [] => true
       | envs => existsb (String.eqb env) envs
       end.

Definition overlapLockKey (j : Job) : string := "velocity/scheduler/overlap:" +:+ j_name j.
Definition oneServerLockKey (j : Job) (t : Now) : string :=
  "velocity/scheduler/oneserver:" +:+ j_name j +:+ ":" +:+ wallMinuteKey t.

Definition effectiveOverlapTTL (schedulerDefault : Z) (j : Job) : Z :=
  if 0 <? withoutOverlappingTTL j then withoutOverlappingTTL j
  else if 0 <? schedulerDefault then schedulerDefault
  else 24 * HOUR.

(** ** Hosts *)

(** A lock held: its key, its token, when it was acquired and for how long. *)
Record Hold := mkHold { h_key : string; h_token : Z; h_at : Z; h_ttl : Z }.

(** Where the tick of a host is; [i] is the job it looks at. *)
Inductive Tick :=
  | Idle
  | Looking (now : Now) (i : nat)
  | OneServer (now : Now) (i : nat)
  | Overlap (now : Now) (i : nat) (one : option Hold)
  | GivingBack (now : Now) (i : nat) (one : Hold).

Record Host := mkHost {
  jobs : list Job;
  maintenanceMode : bool;
  h_env : string;
  oneServerTTL : Z;
  overlapTTL : Z;
  h_tick : Tick
}.

Definition with_tick (t : Tick) (h : Host) : Host :=
  mkHost (jobs h) (maintenanceMode h) (h_env h) (oneServerTTL h) (overlapTTL h) t.
Definition with_job (i : nat) (j : Job) (h : Host) : Host :=
  mkHost (<[i := j]> (jobs h)) (maintenanceMode h) (h_env h) (oneServerTTL h) (overlapTTL h) (h_tick h).

(** [Cleared]: the running flag of the job is down, the overlap lock not yet released. *)
Inductive RunState := Dispatched | Running | Cleared | Finished.

(** A dispatched run. *)
Record Run := mkRun {
  r_host : nat;
  r_job : nat;
  r_name : string;
  r_minute : string;
  r_one : option Hold;
  r_overlap : option Hold;
  r_state : RunState
}.

Record System := mkSystem { locker : InMemoryLocker; hosts : list Host; runs : list Run }.

(** The decision on one job, up to the contest for its locks. *)
Definition look (now : Now) (nowStr : string) (i : nat) (h : Host) : Host :=
  match jobs h !! i with
  | None => with_tick Idle h
  | Some j =>
      if negb (schedule_IsDue (j_schedule j) (civil now) && ShouldRun (h_env h) (instant now) nowStr j)
      then with_tick (Looking now (S i)) h
      else if alreadyFiredAt j now then with_tick (Looking now (S i)) h
      else
        let h := with_job i (markFired now j) h in
        if maintenanceMode h && negb (evenInMaintenanceMode j) then with_tick (Looking now (S i)) h
        else with_tick (OneServer now i) h
  end.

Definition acquire (l : InMemoryLocker) (rd : Z) (key : string) (ttl : Z) : InMemoryLocker * option Hold :=
  match Acquire l rd key ttl with
  | (l, Some tok) => (l, Some (mkHold key tok rd ttl))
  | (l, None) => (l, None)
  end.

Definition dispatch (hi : nat) (now : Now) (i : nat) (j : Job) (one overlap : option Hold) : Run :=
  mkRun hi i (j_name j) (wallMinuteKey now) one overlap Dispatched.

(** One step of the tick of host [hi]; [rd] is the clock the Locker reads. *)
Definition step_host (hi : nat) (rd : Z) (nowStr : string) (h : Host) (l : InMemoryLocker) :
    Host * InMemoryLocker * list Run :=
  match h_tick h with
  | Idle => (h, l, [])
  | Looking now i => (look now nowStr i h, l, [])
  | OneServer now i =>
      match jobs h !! i with
      | None => (with_tick Idle h, l, [])
      | Some j =>
          if onOneServer j then
            match acquire l rd (oneServerLockKey j now) (oneServerTTL h) with
            | (l, None) => (with_tick (Looking now (S i)) h, l, [])
            | (l, one) => (with_tick (Overlap now i one) h, l, [])
            end
          else (with_tick (Overlap now i None) h, l, [])
      end
  | Overlap now i one =>
      match jobs h !! i with
      | None => (with_tick Idle h, l, [])
      | Some j =>
          let next := with_tick (Looking now (S i)) h in
          if withoutOverlapping j then
            match acquire l rd (overlapLockKey j) (effectiveOverlapTTL (overlapTTL h) j) with
            | (l, None) =>
                (match one with Some k => with_tick (GivingBack now i k) h | None => next end, l, [])
            | (l, overlap) => (next, l, [dispatch hi now i j one overlap])
            end
          else (next, l, [dispatch hi now i j one None])
      end
  | GivingBack now i one =>
      (with_tick (Looking now (S i)) h, Release l (h_key one) (h_token one), [])
  end.

(** ** The system *)

Inductive Action :=
  | ABegin (hi : nat) (now : Now)          (** a tick starts, when the last one is over *)
  | AStep (hi : nat) (rd : Z) (nowStr : string)
  | AStart (k : nat)                        (** the goroutine of a run starts it *)
  | AClear (k : nat)                        (** its work is over: clearRunningFlag *)
  | ARelease (k : nat).                     (** the release callback *)

Definition release_overlap (l : InMemoryLocker) (r : Run) : InMemoryLocker :=
  match r_overlap r with Some h => Release l (h_key h) (h_token h) | None => l end.

Definition with_state (st : RunState) (r : Run) : Run :=
  mkRun (r_host r) (r_job r) (r_name r) (r_minute r) (r_one r) (r_overlap r) st.

(** The release frees the overlap lock; the OnOneServer lock is left to expire. *)
Definition finished (r : Run) : Run :=
  mkRun (r_host r) (r_job r) (r_name r) (r_minute r) (r_one r) None Finished.

Definition update_job (hi i : nat) (f : Job -> Job) (hs : list Host) : list Host :=
  alter (fun h => mkHost (alter f i (jobs h)) (maintenanceMode h) (h_env h) (oneServerTTL h) (overlapTTL h) (h_tick h)) hi hs.

Definition job_running (hi i : nat) (hs : list Host) : bool :=
  match hs !! hi with
  | Some h => match jobs h !! i with Some j => withoutOverlapping j && running j | None => false end
  | None => false
  end.

Definition step (s : System) (a : Action) : System :=
  match a with
  | ABegin hi now =>
      match hosts s !! hi with
      | Some h => match h_tick h with
                  | Idle => mkSystem (locker s) (<[hi := with_tick (Looking now 0) h]> (hosts s)) (runs s)
                  | _ => s
                  end
      | None => s
      end
  | AStep hi rd nowStr =>
      match hosts s !! hi with
      | Some h =>
          let '(h, l, rs) := step_host hi rd nowStr h (locker s) in
          mkSystem l (<[hi := h]> (hosts s)) (runs s ++ rs)
      | None => s
      end
  | AStart k =>
      match runs s !! k with
      | Some r =>
          match r_state r with
          | Dispatched =>
              if job_running (r_host r) (r_job r) (hosts s)
              then mkSystem (locker s) (hosts s) (<[k := with_state Cleared r]> (runs s))
              else mkSystem (locker s) (update_job (r_host r) (r_job r) (set_running true) (hosts s))
                     (<[k := with_state Running r]> (runs s))
          | _ => s
          end
      | None => s
      end
  | AClear k =>
      match runs s !! k with
      | Some r =>
          match r_state r with
          | Running =>
              mkSystem (locker s) (update_job (r_host r) (r_job r) (set_running false) (hosts s))
                (<[k := with_state Cleared r]> (runs s))
          | _ => s
          end
      | None => s
      end
  | ARelease k =>
      match runs s !! k with
      | Some r =>
          match r_state r with
          | Cleared => mkSystem (release_overlap (locker s) r) (hosts s) (<[k := finished r]> (runs s))
          | _ => s
          end
      | None => s
      end
  end.

Definition run (s : System) (acts : list Action) : System := fold_left step acts s.

(** Hosts that have not ticked yet. *)
Definition start (hs : list Host) : System := mkSystem NewInMemoryLocker (with_tick Idle <$> hs) [].

(** ** The locks the hosts and the runs hold *)

Definition tick_holds (t : Tick) : list Hold :=
  match t with
  | Overlap _ _ (Some h) | GivingBack _ _ h => [h]
  | _ => []
  end.
Definition host_holds (h : Host) : list Hold := tick_holds (h_tick h).
Definition run_holds (r : Run) : list Hold := option_list (r_one r) ++ option_list (r_overlap r).
Definition holds (s : System) : list Hold :=
  concat (host_holds <$> hosts s) ++ concat (run_holds <$> runs s).

(** Two holds of one name are a TTL apart. *)
Definition apart (h h' : Hold) : Prop := h_at h + h_ttl h <= h_at h' \/ h_at h' + h_ttl h' <= h_at h.

(** What the holds [H] tell of the locker [l] when the clock has reached [c]. *)
Record contested (c : Z) (l : InMemoryLocker) (H : list Hold) : Prop := mkContested {
  ct_token : 0 <= lr_token l;
  ct_issued : forall h, h ∈ H -> h_token h <= lr_token l;
  ct_distinct : NoDup (h_token <$> H);
  ct_kept : forall h, h ∈ H ->
    h_at h + h_ttl h <= c \/ lr_locks l !! h_key h = Some (mkMemLock (h_token h) (h_at h + h_ttl h));
  ct_apart : forall h h', h ∈ H -> h' ∈ H -> h_token h <> h_token h' -> h_key h = h_key h' -> apart h h'
}.

(** The effect of a step of the system on the locker and the holds. *)
Inductive contest (rd : Z) : InMemoryLocker -> list Hold -> InMemoryLocker -> list Hold -> Prop :=
  | contest_keep l H H' : H' ⊆+ H -> contest rd l H l H'
  | contest_take l H H' key ttl l' h :
      acquire l rd key ttl = (l', Some h) -> H' ≡ₚ h :: H -> contest rd l H l' H'
  | contest_free l H H' h :
      H ≡ₚ h :: H' -> contest rd l H (Release l (h_key h) (h_token h)) H'.

Lemma contested_sub c c' l H H' : c <= c' -> H' ⊆+ H -> contested c l H -> contested c' l H'.
Proof.
  intros Hc Hs [? ? Hd Hk ?].
  assert (Hin : forall h, h ∈ H' -> h ∈ H) by (intros; by eapply elem_of_submseteq).
  split; eauto.
  - destruct (submseteq_Permutation _ _ Hs) as [k Hp]. rewrite Hp, fmap_app in Hd. by apply NoDup_app in Hd as [? _].
  - intros h Hh. destruct (Hk h (Hin h Hh)); [left; lia|by right].
Qed.

Lemma contested_take c rd l H key ttl l' h :
  c <= rd -> lr_token l + 1 < two64 -> acquire l rd key ttl = (l', Some h) ->
  contested c l H -> contested rd l' (h :: H).
Proof.
  unfold acquire, Acquire. intros Hc Ht Ha [H0 Hi Hd Hk Hap].
  destruct (match lr_locks l !! key with Some ex => rd <? lk_expires ex | None => false end) eqn:Hfree; [done|].
  rewrite Z.mod_small in Ha by lia. injection Ha as <- <-.
  assert (Hold : forall h', h' ∈ H -> h_key h' = key -> h_at h' + h_ttl h' <= rd).
  { intros h' Hh' Hkey. destruct (Hk h' Hh') as [?|Hl]; [lia|]. rewrite Hkey in Hl. rewrite Hl in Hfree.
    apply Z.ltb_ge in Hfree. done. }
  split; cbn [lr_token lr_locks].
  - lia.
  - intros h [->|Hh]%elem_of_cons; [simpl; lia|]. specialize (Hi h Hh). lia.
  - csimpl. constructor; [|done]. intros (h' & Heq & Hh')%list_elem_of_fmap.
    specialize (Hi h' Hh'). simpl in Heq. lia.
  - intros h [->|Hh]%elem_of_cons; [right; apply lookup_insert_eq|].
    destruct (decide (h_key h = key)) as [Hkey|Hne].
    + left. by apply Hold.
    + rewrite lookup_insert_ne by done. destruct (Hk h Hh); [left; lia|by right].
  - intros h h' [->|Hh]%elem_of_cons [->|Hh']%elem_of_cons Hne Hkey; unfold apart; cbn [h_at h_ttl h_key] in *.
    + done.
    + right. by apply Hold.
    + left. by apply Hold.
    + by apply Hap.
Qed.

Lemma contested_free c l H h :
  contested c l (h :: H) -> contested c (Release l (h_key h) (h_token h)) H.
Proof.
  intros Hc. pose proof (contested_sub c c l _ H (Z.le_refl c) (submseteq_cons h H H (reflexivity H)) Hc) as [H0 Hi Hd Hk Hap].
  destruct Hc as [_ _ Hall _ _]. csimpl in Hall. apply NoDup_cons in Hall as [Hnew _].
  unfold Release. case_bool_decide; [by split|]. split; cbn [lr_token lr_locks]; try done.
  intros h' Hh'. destruct (Hk h' Hh') as [?|Hl]; [by left|]. right.
  destruct (decide (h_key h = h_key h')) as [Heq|Hne].
  - rewrite Heq, Hl. cbn [lk_token]. destruct (h_token h' =? h_token h) eqn:E; [|done].
    apply Z.eqb_eq in E. destruct Hnew. rewrite <- E. by apply list_elem_of_fmap_2.
  - case_match; [|done]. case_match; [|done]. by rewrite lookup_delete_ne.
Qed.

Lemma contest_token rd l H l' H' :
  0 <= lr_token l -> lr_token l + 1 < two64 -> contest rd l H l' H' -> lr_token l' <= lr_token l + 1.
Proof.
  intros H0 H1 Hc. revert H0 H1. destruct Hc as [l ? ? _|l ? ? key ttl ? h Ha _|l ? ? ? _]; intros H0 H1; [lia| |].
  - unfold acquire in Ha. destruct (Acquire_token l rd key ttl H0 H1) as [Hn|(l1 & Hl & Hl1)].
    + by rewrite Hn in Ha.
    + rewrite Hl in Ha. injection Ha as <- <-. lia.
  - unfold Release. case_match; simpl; lia.
Qed.

Lemma contest_ok c rd l H l' H' :
  c <= rd -> lr_token l + 1 < two64 -> contest rd l H l' H' -> contested c l H -> contested rd l' H'.
Proof.
  intros Hc Ht Hs Hok. revert Ht Hok. destruct Hs as [l H H' Hs|l H H' key ttl l' h Ha Hp|l H H' h Hp]; intros Ht Hok.
  - by eapply contested_sub.
  - eapply (contested_sub rd); [done|by rewrite Hp|]. by eapply contested_take.
  - eapply (contested_free rd), (contested_sub c); [done| |done]. by rewrite Hp.
Qed.

Lemma contest_perm rd l H1 H2 l' H1' H2' :
  H1 ≡ₚ H2 -> H1' ≡ₚ H2' -> contest rd l H1 l' H1' -> contest rd l H2 l' H2'.
Proof.
  intros HP HP' Hc. revert HP HP'.
  destruct Hc as [l H H' Hs|l H H' key ttl l' h Ha Hp|l H H' h Hp]; intros HP HP'.
  - apply contest_keep. by rewrite <- HP, <- HP'.
  - eapply contest_take; [done|]. by rewrite <- HP, <- HP'.
  - apply contest_free. by rewrite <- HP, <- HP'.
Qed.

Lemma acquire_none l rd key ttl l' : acquire l rd key ttl = (l', None) -> l' = l.
Proof.
  unfold acquire, Acquire. intros H.
  by destruct (match lr_locks l !! key with Some ex => rd <? lk_expires ex | None => false end); simplify_eq.
Qed.

Lemma look_holds now nowStr i h : host_holds (look now nowStr i h) = [].
Proof. unfold look. repeat case_match; done. Qed.

Lemma step_host_contest hi rd nowStr h l h' l' rs rest :
  step_host hi rd nowStr h l = (h', l', rs) ->
  contest rd l (host_holds h ++ rest) l' (host_holds h' ++ concat (run_holds <$> rs) ++ rest).
Proof.
  unfold step_host. destruct (h_tick h) as [|now i|now i|now i one|now i one] eqn:Ht;
    unfold host_holds at 1; rewrite Ht; cbn [tick_holds app].
  - intros [= <- <- <-]. apply contest_keep. unfold host_holds. by rewrite Ht.
  - intros [= <- <- <-]. apply contest_keep. by rewrite look_holds.
  - destruct (jobs h !! i) as [j|]; [|intros [= <- <- <-]; by apply contest_keep].
    destruct (onOneServer j); [|intros [= <- <- <-]; by apply contest_keep].
    destruct (acquire _ _ _ _) as [l1 [k|]] eqn:Ha; intros [= <- <- <-].
    + by eapply contest_take.
    + apply acquire_none in Ha as ->. by apply contest_keep.
  - replace (match one with Some h0 => [h0] | None => [] end) with (option_list one) by by destruct one.
    destruct (jobs h !! i) as [j|]; [|intros [= <- <- <-]; apply contest_keep; by apply submseteq_inserts_l].
    destruct (withoutOverlapping j); [|intros [= <- <- <-]; apply contest_keep; by destruct one].
    destruct (acquire _ _ _ _) as [l1 [k|]] eqn:Ha; intros [= <- <- <-].
    + eapply contest_take; [done|]. cbn. unfold run_holds, dispatch. cbn. solve_Permutation.
    + apply acquire_none in Ha as ->. apply contest_keep. by destruct one.
  - intros [= <- <- <-]. by apply contest_free.
Qed.

Lemma update_job_holds hi i f hs : host_holds <$> update_job hi i f hs = host_holds <$> hs.
Proof.
  unfold update_job. apply list_eq. intros k.
  rewrite !list_lookup_fmap. destruct (decide (hi = k)) as [->|Hne].
  - rewrite list_lookup_alter_eq. by destruct (hs !! k).
  - by rewrite list_lookup_alter_ne.
Qed.

(** The clock after an action: the last reading of the Locker. *)
Definition clock (c : Z) (a : Action) : Z := match a with AStep _ rd _ => rd | _ => c end.

Lemma release_contest c l r rest :
  contest c l (run_holds r ++ rest) (release_overlap l r) (run_holds (finished r) ++ rest).
Proof.
  unfold release_overlap, run_holds, finished; cbn. destruct (r_overlap r) as [h|]; cbn.
  - apply contest_free. solve_Permutation.
  - by apply contest_keep.
Qed.

Lemma step_contest c s a :
  contest (clock c a) (locker s) (holds s) (locker (step s a)) (holds (step s a)).
Proof.
  assert (Hid : forall rd, contest rd (locker s) (holds s) (locker s) (holds s)) by (intros; by apply contest_keep).
  destruct a as [hi now|hi rd nowStr|k|k|k]; cbn [step clock].
  - destruct (hosts s !! hi) as [h|] eqn:Hh; [|done]. destruct (h_tick h) eqn:Ht; try done.
    apply contest_keep. unfold holds; cbn [hosts runs].
    destruct (concat_insert host_holds _ _ _ Hh) as (rest & H1 & H2).
    rewrite H2, H1. unfold host_holds. by rewrite Ht.
  - destruct (hosts s !! hi) as [h|] eqn:Hh; [|done].
    destruct (step_host hi rd nowStr h (locker s)) as [[h' l'] rs] eqn:Hs. cbn [locker].
    destruct (concat_insert host_holds _ _ _ Hh) as (rest & H1 & H2).
    eapply contest_perm; [| |exact (step_host_contest _ _ _ _ _ _ _ _ (rest ++ concat (run_holds <$> runs s)) Hs)];
      unfold holds; cbn [hosts runs].
    + rewrite H1. solve_Permutation.
    + rewrite H2, fmap_app, concat_app. solve_Permutation.
  - destruct (runs s !! k) as [r|] eqn:Hr; [|done]. destruct (r_state r) eqn:Hst; try done.
    destruct (concat_insert run_holds _ _ _ Hr) as (rest & H1 & H2).
    case_match; apply contest_keep; unfold holds; cbn [hosts runs]; by rewrite ?update_job_holds, H1, H2.
  - destruct (runs s !! k) as [r|] eqn:Hr; [|done]. destruct (r_state r) eqn:Hst; try done.
    destruct (concat_insert run_holds _ _ _ Hr) as (rest & H1 & H2).
    apply contest_keep; unfold holds; cbn [hosts runs]; by rewrite update_job_holds, H1, H2.
  - destruct (runs s !! k) as [r|] eqn:Hr; [|done]. destruct (r_state r) eqn:Hst; try done.
    destruct (concat_insert run_holds _ _ _ Hr) as (rest & H1 & H2). cbn [locker].
    eapply contest_perm; [| |exact (release_contest c (locker s) r (rest ++ concat (host_holds <$> hosts s)))];
      unfold holds; cbn [hosts runs]; [rewrite H1|rewrite H2]; solve_Permutation.
Qed.

(** Readings of the Locker's clock never go back. *)
Fixpoint readings_ordered (c : Z) (acts : list Action) : Prop :=
  match acts with
  | [] => True
  | a :: acts => c <= clock c a /\ readings_ordered (clock c a) acts
  end.

Lemma run_contested c s acts :
  readings_ordered c acts -> lr_token (locker s) + Z.of_nat (List.length acts) < two64 ->
  contested c (locker s) (holds s) ->
  exists c', contested c' (locker (run s acts)) (holds (run s acts)).
Proof.
  revert c s. induction acts as [|a acts IH]; intros c s Hr Hn Hc; [by exists c|].
  destruct Hr as [Hle Hr]. cbn [List.length] in Hn.
  assert (Hroom : lr_token (locker s) + 1 < two64) by lia.
  pose proof (step_contest c s a) as Hs. pose proof (contest_token _ _ _ _ _ (ct_token _ _ _ Hc) Hroom Hs).
  apply (IH (clock c a) (step s a) Hr); [lia|]. eapply contest_ok; [exact Hle|exact Hroom|exact Hs|exact Hc].
Qed.

(** ** Every run holds the locks its job asks for *)

Definition static (j : Job) : Job := set_running false (set_lastFired "" j).
Definition host_static (h : Host) : list Job * Z * Z := (static <$> jobs h, oneServerTTL h, overlapTTL h).

Definition one_ok (j : Job) (minute : string) (ttl : Z) (one : option Hold) : Prop :=
  if onOneServer j
  then exists h, one = Some h /\ h_ttl h = ttl
         /\ h_key h = "velocity/scheduler/oneserver:" +:+ j_name j +:+ ":" +:+ minute
  else one = None.

Definition overlap_ok (j : Job) (ttl : Z) (overlap : option Hold) : Prop :=
  if withoutOverlapping j
  then exists h, overlap = Some h /\ h_ttl h = effectiveOverlapTTL ttl j /\ h_key h = overlapLockKey j
  else overlap = None.

Definition host_ok (h : Host) : Prop :=
  match h_tick h with
  | Overlap now i one => forall j, jobs h !! i = Some j -> one_ok j (wallMinuteKey now) (oneServerTTL h) one
  | _ => True
  end.

(** [hs] are the hosts as they were started. *)
Definition run_of (hs : list Host) (r : Run) (h : Host) (j : Job) : Prop :=
  hs !! r_host r = Some h /\ jobs h !! r_job r = Some j.

Record run_lawful (hs : list Host) (r : Run) (h : Host) (j : Job) : Prop := mkLawful {
  rl_of : run_of hs r h j;
  rl_one : one_ok j (r_minute r) (oneServerTTL h) (r_one r);
  rl_overlap : r_state r <> Finished -> overlap_ok j (overlapTTL h) (r_overlap r)
}.

Record lawful (hs : list Host) (s : System) : Prop := mkLawfulSystem {
  lw_static : host_static <$> hosts s = host_static <$> hs;
  lw_hosts : Forall host_ok (hosts s);
  lw_runs : Forall (fun r => exists h j, run_lawful hs r h j) (runs s)
}.

Lemma static_insert i j j' (js : list Job) :
  js !! i = Some j -> static j' = static j -> static <$> <[i := j']> js = static <$> js.
Proof. intros Hj He. rewrite list_fmap_insert, He. apply list_insert_id. by rewrite list_lookup_fmap, Hj. Qed.

Lemma look_static now nowStr i h : host_static (look now nowStr i h) = host_static h.
Proof.
  unfold look. destruct (jobs h !! i) as [j|] eqn:Hj; [|done]. repeat case_match; try done;
    unfold host_static, with_tick, with_job; cbn; by erewrite static_insert.
Qed.

Lemma look_ok now nowStr i h : host_ok (look now nowStr i h).
Proof. unfold look. repeat case_match; done. Qed.

Lemma static_job {js js0 : list Job} {i j} :
  static <$> js = static <$> js0 -> js !! i = Some j -> exists j0, js0 !! i = Some j0 /\ static j = static j0.
Proof.
  intros He Hj. assert (Hl : (static <$> js0) !! i = Some (static j)) by (rewrite <- He, list_lookup_fmap, Hj; done).
  rewrite list_lookup_fmap in Hl. destruct (js0 !! i) as [j0|]; [|done]. exists j0. split; [done|]. symmetry. exact (Some_inj _ _ Hl).
Qed.

Lemma one_ok_static j j0 m t one : static j = static j0 -> one_ok j m t one -> one_ok j0 m t one.
Proof. intros He. change (one_ok (static j) m t one -> one_ok (static j0) m t one). by rewrite He. Qed.
Lemma overlap_ok_static j j0 t o : static j = static j0 -> overlap_ok j t o -> overlap_ok j0 t o.
Proof. intros He. change (overlap_ok (static j) t o -> overlap_ok (static j0) t o). by rewrite He. Qed.

Lemma acquire_some l rd key ttl l' h :
  acquire l rd key ttl = (l', Some h) -> h_key h = key /\ h_ttl h = ttl.
Proof. unfold acquire. destruct (Acquire l rd key ttl) as [l1 [t|]]; intros; simplify_eq. done. Qed.

(** What a step of a tick dispatches. *)
Lemma step_host_lawful hi rd nowStr h l h' l' rs :
  step_host hi rd nowStr h l = (h', l', rs) -> host_ok h ->
  host_static h' = host_static h /\ host_ok h' /\
  Forall (fun r => r_host r = hi /\ exists j, jobs h !! r_job r = Some j
    /\ one_ok j (r_minute r) (oneServerTTL h) (r_one r) /\ overlap_ok j (overlapTTL h) (r_overlap r)) rs.
Proof.
  unfold step_host. intros Hs Hok. destruct (h_tick h) as [|now i|now i|now i one|now i one] eqn:Ht.
  - by injection Hs as <- <- <-.
  - injection Hs as <- <- <-. split_and!; [apply look_static|apply look_ok|done].
  - destruct (jobs h !! i) as [j|] eqn:Hj; [|by injection Hs as <- <- <-].
    destruct (onOneServer j) eqn:Ho.
    + destruct (acquire _ _ _ _) as [l1 [k|]] eqn:Ha; injection Hs as <- <- <-; [|done].
      split_and!; [done| |done]. intros j' Hj'. cbn [jobs with_tick] in Hj'. simplify_eq.
      apply acquire_some in Ha as [Hk Hl]. unfold one_ok. rewrite Ho. eauto.
    + injection Hs as <- <- <-. split_and!; [done| |done]. intros j' Hj'. cbn [jobs with_tick] in Hj'. simplify_eq.
      unfold one_ok. by rewrite Ho.
  - unfold host_ok in Hok. rewrite Ht in Hok.
    destruct (jobs h !! i) as [j|] eqn:Hj; [|by injection Hs as <- <- <-]. specialize (Hok j eq_refl).
    destruct (withoutOverlapping j) eqn:Ho.
    + destruct (acquire _ _ _ _) as [l1 [k|]] eqn:Ha; injection Hs as <- <- <-; [|by destruct one].
      split_and!; [done..|]. constructor; [|done]. split; [done|]. exists j. split_and!; [done..|].
      apply acquire_some in Ha as [Hk Hl]. unfold overlap_ok. rewrite Ho. eauto.
    + injection Hs as <- <- <-. split_and!; [done..|]. constructor; [|done]. split; [done|].
      exists j. split_and!; [done..|]. unfold overlap_ok. by rewrite Ho.
  - by injection Hs as <- <- <-.
Qed.

Lemma hosts_static {hs : list Host} {s hi h} :
  host_static <$> hosts s = host_static <$> hs -> hosts s !! hi = Some h ->
  exists h0, hs !! hi = Some h0 /\ host_static h = host_static h0.
Proof.
  intros He Hh. assert (Hl : (host_static <$> hs) !! hi = Some (host_static h))
    by (rewrite <- He, list_lookup_fmap, Hh; done).
  rewrite list_lookup_fmap in Hl. destruct (hs !! hi) as [h0|]; [|done].
  exists h0. split; [done|]. symmetry. exact (Some_inj _ _ Hl).
Qed.

Lemma hosts_insert hs s hi h h' :
  lawful hs s -> hosts s !! hi = Some h -> host_static h' = host_static h -> host_ok h' ->
  host_static <$> <[hi := h']> (hosts s) = host_static <$> hs /\ Forall host_ok (<[hi := h']> (hosts s)).
Proof.
  intros [Hst Hok _] Hh He Hh'. split; [|by apply Forall_insert].
  rewrite list_fmap_insert, He, <- Hst. apply list_insert_id. by rewrite list_lookup_fmap, Hh.
Qed.

Lemma dispatched_lawful hs h h0 r :
  hs !! r_host r = Some h0 -> host_static h = host_static h0 ->
  (exists j, jobs h !! r_job r = Some j
    /\ one_ok j (r_minute r) (oneServerTTL h) (r_one r) /\ overlap_ok j (overlapTTL h) (r_overlap r)) ->
  exists h j, run_lawful hs r h j.
Proof.
  intros Hh He (j & Hj & Hone & Hov). unfold host_static in He.
  apply pair_equal_spec in He as [He Ho]. apply pair_equal_spec in He as [Hjs Ht].
  destruct (static_job Hjs Hj) as (j0 & Hj0 & Hs). exists h0, j0. split.
  - done.
  - rewrite <- Ht. by eapply one_ok_static.
  - intros _. rewrite <- Ho. by eapply overlap_ok_static.
Qed.

Lemma update_job_lawful hi i b (hs : list Host) :
  host_static <$> update_job hi i (set_running b) hs = host_static <$> hs
  /\ (Forall host_ok hs -> Forall host_ok (update_job hi i (set_running b) hs)).
Proof.
  unfold update_job. set (f := fun h => mkHost _ _ _ _ _ _).
  assert (Hf : forall h, host_static (f h) = host_static h).
  { intros h. unfold host_static, f. cbn. do 2 f_equal. apply list_eq. intros k. rewrite !list_lookup_fmap.
    destruct (decide (i = k)) as [->|Hne]; [|by rewrite list_lookup_alter_ne].
    rewrite list_lookup_alter_eq. by destruct (jobs h !! k). }
  split.
  - apply list_eq. intros k. rewrite !list_lookup_fmap. destruct (decide (hi = k)) as [->|Hne].
    + rewrite list_lookup_alter_eq. destruct (hs !! k); [|done]. cbn [fmap option_fmap option_map]. by rewrite Hf.
    + by rewrite list_lookup_alter_ne.
  - intros Hok. apply Forall_alter; [done|]. intros h Hh Hhk. unfold host_ok, f in *; cbn [h_tick jobs oneServerTTL].
    destruct (h_tick h) as [| | |now k one|]; try done. intros j Hj.
    destruct (decide (i = k)) as [->|Hne]; [|apply Hhk; by rewrite list_lookup_alter_ne in Hj].
    rewrite list_lookup_alter_eq in Hj. destruct (jobs h !! k) as [j0|]; [|done]. apply Some_inj in Hj as <-.
    by apply (one_ok_static j0); [|apply Hhk].
Qed.

Lemma run_update_lawful hs (rs : list Run) k r r' :
  rs !! k = Some r -> Forall (fun r => exists h j, run_lawful hs r h j) rs ->
  r' = finished r \/ (exists st, r' = with_state st r /\ r_state r <> Finished) ->
  Forall (fun r => exists h j, run_lawful hs r h j) (<[k := r']> rs).
Proof.
  intros Hr Hall Hr'. apply Forall_insert; [done|]. rewrite Forall_lookup in Hall.
  destruct (Hall k r Hr) as (h & j & [Hof Hone Hov]).
  destruct Hr' as [->|(st & -> & Hd)]; exists h, j; split; try done. intros _. by apply Hov.
Qed.

Lemma step_lawful hs s a : lawful hs s -> lawful hs (step s a).
Proof.
  intros Hl. destruct a as [hi now|hi rd nowStr|k|k|k]; cbn [step].
  - destruct (hosts s !! hi) as [h|] eqn:Hh; [|done]. destruct (h_tick h); try done.
    edestruct (hosts_insert hs s hi h (with_tick (Looking now 0) h)); try done. by split; [..|apply Hl].
  - destruct (hosts s !! hi) as [h|] eqn:Hh; [|done].
    destruct (step_host hi rd nowStr h (locker s)) as [[h' l'] rs] eqn:Hs.
    assert (Hok : host_ok h) by exact (Forall_lookup_1 _ _ _ _ (lw_hosts _ _ Hl) Hh).
    destruct (step_host_lawful _ _ _ _ _ _ _ _ Hs Hok) as (Hst & Hok' & Hrs).
    edestruct (hosts_insert hs s hi h h'); try done. split; [done..|]. cbn [runs].
    apply Forall_app. split; [apply Hl|]. eapply Forall_impl; [exact Hrs|]. intros r [Hr Hj].
    destruct (hosts_static (lw_static _ _ Hl) Hh) as (h0 & Hh0 & He).
    eapply dispatched_lawful; [by rewrite Hr|exact He|exact Hj].
  - destruct (runs s !! k) as [r|] eqn:Hr; [|done]. destruct (r_state r) eqn:Hst; try done.
    destruct (update_job_lawful (r_host r) (r_job r) true (hosts s)) as [Hu1 Hu2]. destruct Hl as [H1 H2 H3].
    case_match; split; cbn [hosts runs]; rewrite ?Hu1; auto; (eapply run_update_lawful; [done..|right]);
      eexists; by rewrite Hst.
  - destruct (runs s !! k) as [r|] eqn:Hr; [|done]. destruct (r_state r) eqn:Hst; try done.
    destruct (update_job_lawful (r_host r) (r_job r) false (hosts s)) as [Hu1 Hu2]. destruct Hl as [H1 H2 H3].
    split; cbn [hosts runs]; rewrite ?Hu1; auto; (eapply run_update_lawful; [done..|right]);
      eexists; by rewrite Hst.
  - destruct (runs s !! k) as [r|] eqn:Hr; [|done]. destruct (r_state r) eqn:Hst; try done.
    destruct Hl as [H1 H2 H3]. split; cbn [hosts runs]; auto; (eapply run_update_lawful; [done..|by left]).
Qed.

Lemma run_is_lawful hs acts : lawful hs (run (start hs) acts).
Proof.
  assert (H0 : lawful hs (start hs)).
  { split; cbn; [|apply Forall_fmap, Forall_true; done|done]. apply list_eq. intros k.
    rewrite !list_lookup_fmap. by destruct (hs !! k). }
  revert H0. generalize (start hs). induction acts as [|a acts IH]; intros s Hs; [done|]. by apply IH, step_lawful.
Qed.

Lemma start_holds hs : holds (start hs) = [].
Proof. unfold holds, start; cbn [hosts runs]. induction hs as [|h hs IH]; [done|exact IH]. Qed.

Lemma runs_apart hs acts c k1 k2 r1 r2 h1 h2 :
  readings_ordered c acts -> Z.of_nat (List.length acts) < two64 -> k1 <> k2 ->
  runs (run (start hs) acts) !! k1 = Some r1 -> runs (run (start hs) acts) !! k2 = Some r2 ->
  h1 ∈ run_holds r1 -> h2 ∈ run_holds r2 -> h_key h1 = h_key h2 -> apart h1 h2.
Proof.
  intros Hr Hn Hne H1 H2 Hh1 Hh2 Hk.
  destruct (run_contested c (start hs) acts Hr) as [c' Hc].
  { exact Hn. }
  { rewrite start_holds. split; cbn; try done; try constructor; set_solver. }
  apply (ct_apart _ _ _ Hc); [apply elem_of_app; right; by eapply concat_elem, Hh1
                             |apply elem_of_app; right; by eapply concat_elem, Hh2| |done].
  pose proof (ct_distinct _ _ _ Hc) as Hd. unfold holds in Hd. rewrite fmap_app in Hd.
  apply NoDup_app in Hd as (_ & _ & Hd). by eapply (concat_distinct run_holds h_token _ k1 k2).
Qed.

(** C10: hosts that share one InMemoryLocker do not double a run.  Take any hosts, ticking
    and running their jobs in any interleaving of fewer than 2^64 steps, where
    the Locker reads a clock that does not go back, and two different runs of
    jobs of one name.  If both jobs are OnOneServer and were dispatched for
    the same minute, each run holds the lock of that minute and the two were
    acquired at least the TTL of the first apart; if both jobs are
    WithoutOverlapping and neither run is over, the same holds of their
    overlap locks. *)
Theorem runs_are_exclusive hs acts c k1 k2 r1 r2 h1 h2 j1 j2 :
  readings_ordered c acts -> Z.of_nat (List.length acts) < two64 -> k1 <> k2 ->
  runs (run (start hs) acts) !! k1 = Some r1 -> run_of hs r1 h1 j1 ->
  runs (run (start hs) acts) !! k2 = Some r2 -> run_of hs r2 h2 j2 ->
  j_name j1 = j_name j2 ->
  (onOneServer j1 = true -> onOneServer j2 = true -> r_minute r1 = r_minute r2 ->
   exists g1 g2, r_one r1 = Some g1 /\ r_one r2 = Some g2 /\ apart g1 g2
     /\ h_ttl g1 = oneServerTTL h1 /\ h_ttl g2 = oneServerTTL h2)
  /\ (withoutOverlapping j1 = true -> withoutOverlapping j2 = true ->
      r_state r1 <> Finished -> r_state r2 <> Finished ->
      exists g1 g2, r_overlap r1 = Some g1 /\ r_overlap r2 = Some g2 /\ apart g1 g2
        /\ h_ttl g1 = effectiveOverlapTTL (overlapTTL h1) j1 /\ h_ttl g2 = effectiveOverlapTTL (overlapTTL h2) j2).
Proof.
  intros Hr Hn Hne Hr1 [Hh1 Hj1] Hr2 [Hh2 Hj2] Hname.
  pose proof (lw_runs _ _ (run_is_lawful hs acts)) as Hall. rewrite Forall_lookup in Hall.
  destruct (Hall _ _ Hr1) as (h1' & j1' & [[Hh1' Hj1'] Ho1 Hv1]).
  destruct (Hall _ _ Hr2) as (h2' & j2' & [[Hh2' Hj2'] Ho2 Hv2]).
  rewrite Hh1 in Hh1'. apply Some_inj in Hh1' as <-. rewrite Hj1 in Hj1'. apply Some_inj in Hj1' as <-.
  rewrite Hh2 in Hh2'. apply Some_inj in Hh2' as <-. rewrite Hj2 in Hj2'. apply Some_inj in Hj2' as <-.
  unfold one_ok in Ho1, Ho2. unfold overlap_ok in Hv1, Hv2. split.
  - intros E1 E2 Hm. rewrite E1 in Ho1. rewrite E2 in Ho2.
    destruct Ho1 as (g1 & Hg1 & Ht1 & Hk1), Ho2 as (g2 & Hg2 & Ht2 & Hk2). exists g1, g2. split_and!; try done.
    eapply (runs_apart hs acts c k1 k2); eauto; [unfold run_holds; rewrite ?Hg1, ?Hg2; left..|].
    by rewrite Hk1, Hk2, Hname, Hm.
  - intros E1 E2 Hs1 Hs2. specialize (Hv1 Hs1). specialize (Hv2 Hs2). rewrite E1 in Hv1. rewrite E2 in Hv2.
    destruct Hv1 as (g1 & Hg1 & Ht1 & Hk1), Hv2 as (g2 & Hg2 & Ht2 & Hk2). exists g1, g2. split_and!; try done.
    eapply (runs_apart hs acts c k1 k2); eauto;
      [unfold run_holds; rewrite ?Hg1, ?Hg2; apply elem_of_app; right; left..|].
    by rewrite Hk1, Hk2; unfold overlapLockKey; rewrite Hname.
Qed.

(** ** Examples *)

Definition plain_job (one overlap : bool) (s : Schedule) : Job :=
  mkJob "report" s overlap one false 50 false "" None None ("", "") ("", "") [].
Definition plain_host (j : Job) : Host := mkHost [j] false "production" 60 0 Idle.

(** 1 November 2026, a Sunday, at [h]:[m]. *)
Definition at_time (t h m : Z) : Now := mkNow t 2026 (mkCivil m h 1 11 0).
(** A tick of host [hi] over its only job. *)
Definition tick_of (hi : nat) (rd : Z) (now : Now) : list Action :=
  [ABegin hi now; AStep hi rd ""; AStep hi rd ""; AStep hi rd ""; AStep hi rd ""; AStep hi rd ""].

(** Three hosts contest a minute: the first wins, the second loses, and the
    tick of the third stalls past both TTLs and runs the job again. *)
Definition contest_job : Job := plain_job true true NewSchedule.
Definition contest_hosts : list Host := [plain_host contest_job; plain_host contest_job; plain_host contest_job].
Definition contest_acts : list Action :=
  let now := at_time 0 9 30 in
  tick_of 0 0 now ++ [AStart 0; ABegin 2 now; AStep 2 5 ""] ++ tick_of 1 6 now ++ tick_of 2 70 now.

Definition minute_lock (tok t : Z) : Hold := mkHold "velocity/scheduler/oneserver:report:2026-11-01T09:30" tok t 60.
Definition overlap_lock (tok t : Z) : Hold := mkHold "velocity/scheduler/overlap:report" tok t 50.
Definition contest_run (hi : nat) (tok t : Z) (st : RunState) : Run :=
  mkRun hi 0 "report" "2026-11-01T09:30" (Some (minute_lock tok t)) (Some (overlap_lock (tok + 1) t)) st.

Example contest_outcome :
  runs (run (start contest_hosts) contest_acts) = [contest_run 0 1 0 Running; contest_run 2 3 70 Dispatched].
Proof. vm_compute. reflexivity. Qed.

Lemma runs_are_exclusive_witness :
  runs (run (start contest_hosts) contest_acts) = [contest_run 0 1 0 Running; contest_run 2 3 70 Dispatched]
  /\ (exists g1 g2, Some (minute_lock 1 0) = Some g1 /\ Some (minute_lock 3 70) = Some g2 /\ apart g1 g2)
  /\ (exists g1 g2, Some (overlap_lock 2 0) = Some g1 /\ Some (overlap_lock 4 70) = Some g2 /\ apart g1 g2).
Proof.
  split; [exact contest_outcome|].
  destruct (runs_are_exclusive contest_hosts contest_acts 0 0 1
    (contest_run 0 1 0 Running) (contest_run 2 3 70 Dispatched) (plain_host contest_job) (plain_host contest_job)
    contest_job contest_job) as [H1 H2].
  - cbn. lia.
  - reflexivity.
  - discriminate.
  - rewrite contest_outcome. reflexivity.
  - split; reflexivity.
  - rewrite contest_outcome. reflexivity.
  - split; reflexivity.
  - reflexivity.
  - split.
    + destruct H1 as (g1 & g2 & E1 & E2 & Ha & _); [reflexivity..|]. by exists g1, g2.
    + destruct H2 as (g1 & g2 & E1 & E2 & Ha & _); [reflexivity..|discriminate|discriminate|]. by exists g1, g2.
Defined.

(** The repeated hour at the end of daylight saving: only the last minute that
    fired is remembered, so a job due twice within the hour fires again in
    the repeated one. *)
Lemma repeated_hour_fires_twice :
  let h := plain_host (plain_job false false (EveryFiveMinutes NewSchedule)) in
  let acts := tick_of 0 0 (at_time 0 1 0) ++ tick_of 0 300 (at_time 300 1 5) ++ tick_of 0 3600 (at_time 3600 1 0) in
  r_minute <$> runs (run (start [h]) acts) = ["2026-11-01T01:00"; "2026-11-01T01:05"; "2026-11-01T01:00"].
Proof. vm_compute. reflexivity. Qed.
