(* ===== verification/IpClass.v ===== *)
(** * Internal addresses

    Models internal/ipclass: the one list of address ranges the framework
    refuses to reach for a caller-supplied destination, with the IPv4
    addresses carried inside IPv6 addresses.  A [net.IP] is its bytes, 4 or 16
    of them; the predicates of package net it uses are modelled first. *)

From S2P Require Import Prelude.
Local Open Scope list_scope.
Local Open Scope Z_scope.

Notation IP := (list Z).

(** ** net.IP *)

Definition byte_at (ip : IP) (i : nat) : Z := default 0 (ip !! i).

Definition allZero (b : list Z) : bool := forallb (fun c => c =? 0) b.

(** To4: the 4-byte form of an IPv4 or IPv4-mapped address. *)
Definition To4 (ip : IP) : option IP :=
  if Nat.eqb (List.length ip) 4 then Some ip
  else if Nat.eqb (List.length ip) 16 && allZero (take 10 ip)
          && (byte_at ip 10 =? 255) && (byte_at ip 11 =? 255)
  then Some (drop 12 ip) else None.

Definition same_bytes (a b : list Z) : bool := bool_decide (a = b).

(** Equal on two addresses that are not IPv4 in disguise, and on two IPv4
    addresses. *)
Definition Equal (a b : IP) : bool :=
  match To4 a, To4 b with
  | Some x, Some y => same_bytes x y
  | None, None => same_bytes a b
  | _, _ => false
  end.

Definition IPv6loopback : IP := [0;0;0;0;0;0;0;0;0;0;0;0;0;0;0;1].
Definition IPv6unspecified : IP := [0;0;0;0;0;0;0;0;0;0;0;0;0;0;0;0].

Definition IsLoopback (ip : IP) : bool :=
  match To4 ip with Some v4 => byte_at v4 0 =? 127 | None => Equal ip IPv6loopback end.

Definition IsUnspecified (ip : IP) : bool := Equal ip [0;0;0;0] || Equal ip IPv6unspecified.

Definition IsLinkLocalUnicast (ip : IP) : bool :=
  match To4 ip with
  | Some v4 => (byte_at v4 0 =? 169) && (byte_at v4 1 =? 254)
  | None => (Nat.eqb (List.length ip) 16) && (byte_at ip 0 =? 0xfe)
            && (Z.land (byte_at ip 1) 0xc0 =? 0x80)
  end.

Definition IsMulticast (ip : IP) : bool :=
  match To4 ip with
  | Some v4 => Z.land (byte_at v4 0) 0xf0 =? 0xe0
  | None => (Nat.eqb (List.length ip) 16) && (byte_at ip 0 =? 0xff)
  end.

Definition IsPrivate (ip : IP) : bool :=
  match To4 ip with
  | Some v4 => (byte_at v4 0 =? 10)
               || ((byte_at v4 0 =? 172) && (Z.land (byte_at v4 1) 0xf0 =? 16))
               || ((byte_at v4 0 =? 192) && (byte_at v4 1 =? 168))
  | None => (Nat.eqb (List.length ip) 16) && (Z.land (byte_at ip 0) 0xfe =? 0xfc)
  end.

(** ** The ranges *)

Definition metadataV4 : IP := [169; 254; 169; 254].
Definition metadataV6 : IP := [0xfd;0x00;0x0e;0xc2;0;0;0;0;0;0;0;0;0;0;0x02;0x54].

(** Contains of the four fixed networks. *)
Definition thisNet_Contains (v4 : IP) : bool := byte_at v4 0 =? 0.
Definition cgnatNet_Contains (v4 : IP) : bool :=
  (byte_at v4 0 =? 100) && (Z.land (byte_at v4 1) 0xc0 =? 64).
Definition teredoNet_Contains (ip : IP) : bool :=
  Nat.eqb (List.length ip) 16 && same_bytes (take 4 ip) [0x20; 0x01; 0; 0].
Definition nat64LocalNet_Contains (ip : IP) : bool :=
  Nat.eqb (List.length ip) 16 && same_bytes (take 6 ip) [0; 0x64; 0xff; 0x9b; 0; 0x01].

(** isInternalAddr: the address as written. *)
Definition isInternalAddr (ip : IP) : bool :=
  if IsLoopback ip || IsUnspecified ip || IsLinkLocalUnicast ip || IsMulticast ip || IsPrivate ip
  then true
  else match To4 ip with
       | Some v4 => thisNet_Contains v4 || cgnatNet_Contains v4
       | None => teredoNet_Contains ip || nat64LocalNet_Contains ip || Equal ip metadataV6
       end.

Definition isMetadataAddr (ip : IP) : bool :=
  match To4 ip with Some v4 => Equal v4 metadataV4 | None => Equal ip metadataV6 end.

(** The IPv4 addresses an IPv6 address carries. *)
Definition embeddedIPv4 (ip : IP) : list IP :=
  if negb (Nat.eqb (List.length ip) 16) || bool_decide (is_Some (To4 ip)) then []
  else
    (if (byte_at ip 0 =? 0x20) && (byte_at ip 1 =? 0x02) then [take 4 (drop 2 ip)]
     else if (allZero (take 8 ip) && (byte_at ip 8 =? 0xff) && (byte_at ip 9 =? 0xff)
              && (byte_at ip 10 =? 0) && (byte_at ip 11 =? 0))
             || ((byte_at ip 0 =? 0) && (byte_at ip 1 =? 0x64) && (byte_at ip 2 =? 0xff)
                 && (byte_at ip 3 =? 0x9b) && allZero (take 8 (drop 4 ip)))
             || allZero (take 12 ip)
     then [drop 12 ip] else [])
    ++ (if (Z.ldiff (byte_at ip 8) 2 =? 0) && (byte_at ip 9 =? 0) && (byte_at ip 10 =? 0x5e)
           && (byte_at ip 11 =? 0xfe)
        then [drop 12 ip] else []).

Definition IsPrivateOrInternal (ip : IP) : bool :=
  if isInternalAddr ip then true else existsb isInternalAddr (embeddedIPv4 ip).

Definition IsMetadataIP (ip : IP) : bool :=
  if isMetadataAddr ip then true else existsb isMetadataAddr (embeddedIPv4 ip).

(** ** The forms that carry an IPv4 address *)

Definition zeros (n : nat) : list Z := replicate n 0.

Definition mapped (a : IP) : IP := zeros 10 ++ [255; 255] ++ a.
Definition compatible (a : IP) : IP := zeros 12 ++ a.
Definition translated (a : IP) : IP := zeros 8 ++ [255; 255; 0; 0] ++ a.
Definition nat64 (a : IP) : IP := [0; 0x64; 0xff; 0x9b] ++ zeros 8 ++ a.
(** 6to4 with any subnet and an interface identifier that is not ISATAP's. *)
Definition sixtofour (a rest : IP) : IP := [0x20; 0x02] ++ a ++ rest.
(** ISATAP under a prefix of 8 bytes. *)
Definition isatap (pre : IP) (u : Z) (a : IP) : IP := pre ++ [u; 0; 0x5e; 0xfe] ++ a.

Definition quad (a : IP) : Prop := List.length a = 4%nat /\ Forall (fun b => 0 <= b < 256) a.

Lemma quad_bytes a : quad a -> exists w x y z, a = [w; x; y; z].
Proof. intros [Hl _]. destruct a as [|w [|x [|y [|z [|]]]]]; try discriminate. eauto. Qed.

Lemma internal_plain w x y z : IsPrivateOrInternal [w; x; y; z] = isInternalAddr [w; x; y; z].
Proof. unfold IsPrivateOrInternal. by destruct (isInternalAddr _). Qed.

(** The verdict of an address whose own prefix is public is the verdict of
    what it carries. *)
Lemma internal_by_carried ip a :
  isInternalAddr ip = false -> embeddedIPv4 ip = [a] -> IsPrivateOrInternal ip = isInternalAddr a.
Proof. intros H1 H2. unfold IsPrivateOrInternal. rewrite H1, H2. simpl. by rewrite orb_false_r. Qed.

Lemma mapped_verdict w x y z :
  IsPrivateOrInternal (mapped [w; x; y; z]) = isInternalAddr [w; x; y; z].
Proof. unfold IsPrivateOrInternal. simpl. by destruct (isInternalAddr _). Qed.

(** Byte lists that differ at the head are not equal. *)
Ltac differ :=
  repeat match goal with
  | |- context [same_bytes ?a ?b] =>
      let H := fresh in
      assert (H : same_bytes a b = false) by (apply bool_decide_false; discriminate);
      rewrite H; clear H
  end.

Lemma sixtofour_verdict w x y z rest :
  List.length rest = 10%nat ->
  (nth 3 rest 0 =? 0) && (nth 4 rest 0 =? 0x5e) && (nth 5 rest 0 =? 0xfe) = false ->
  IsPrivateOrInternal (sixtofour [w; x; y; z] rest) = isInternalAddr [w; x; y; z].
Proof.
  intros Hl Hi. destruct rest as [|b0 [|b1 [|b2 [|b3 [|b4 [|b5 [|b6 [|b7 [|b8 [|b9 [|]]]]]]]]]]];
    try discriminate.
  apply internal_by_carried.
  - unfold isInternalAddr, IsLoopback, IsUnspecified, IsLinkLocalUnicast, IsMulticast, IsPrivate,
      teredoNet_Contains, nat64LocalNet_Contains, Equal. simpl. differ. reflexivity.
  - unfold embeddedIPv4, sixtofour, byte_at. simpl in *. destruct (b3 =? 0), (b4 =? 94), (b5 =? 254);
      try discriminate; by rewrite ?andb_false_r.
Qed.

Lemma nat64_verdict w x y z :
  IsPrivateOrInternal (nat64 [w; x; y; z]) = isInternalAddr [w; x; y; z].
Proof.
  apply internal_by_carried; [|reflexivity].
  unfold isInternalAddr, IsLoopback, IsUnspecified, IsLinkLocalUnicast, IsMulticast, IsPrivate,
    teredoNet_Contains, nat64LocalNet_Contains, Equal. simpl. differ. reflexivity.
Qed.

Lemma translated_verdict w x y z :
  IsPrivateOrInternal (translated [w; x; y; z]) = isInternalAddr [w; x; y; z].
Proof.
  apply internal_by_carried; [|reflexivity].
  unfold isInternalAddr, IsLoopback, IsUnspecified, IsLinkLocalUnicast, IsMulticast, IsPrivate,
    teredoNet_Contains, nat64LocalNet_Contains, Equal. simpl. differ. reflexivity.
Qed.

Lemma zero_net_internal x y z : isInternalAddr [0; x; y; z] = true.
Proof. unfold isInternalAddr. destruct (_ || _); reflexivity. Qed.

(** ::/96 holds ::1 and ::, whose IPv4 counterparts are in 0.0.0.0/8. *)
Lemma compatible_verdict w x y z :
  IsPrivateOrInternal (compatible [w; x; y; z]) = isInternalAddr [w; x; y; z].
Proof.
  destruct (Z.eq_dec w 0) as [->|Hw].
  - rewrite zero_net_internal. unfold IsPrivateOrInternal. destruct (isInternalAddr _); [done|].
    change (embeddedIPv4 (compatible [0; x; y; z])) with [[0; x; y; z]]. simpl existsb.
    by rewrite zero_net_internal.
  - apply internal_by_carried; [|reflexivity].
    assert (HT : To4 (compatible [w; x; y; z]) = None) by reflexivity.
    assert (Hd : forall u v p, same_bytes (compatible [w; x; y; z]) (zeros 12 ++ [0; u; v; p]) = false).
    { intros u v p. apply bool_decide_false. by intros [= ]. }
    assert (Hm : same_bytes (compatible [w; x; y; z]) metadataV6 = false) by by apply bool_decide_false.
    unfold isInternalAddr, IsLoopback, IsUnspecified, IsLinkLocalUnicast, IsMulticast, IsPrivate, Equal.
    rewrite HT. change (To4 IPv6loopback) with (@None IP). change (To4 IPv6unspecified) with (@None IP).
    change IPv6loopback with (zeros 12 ++ [0; 0; 0; 1]).
    change IPv6unspecified with (zeros 12 ++ [0; 0; 0; 0]). rewrite !Hd.
    change (To4 metadataV6) with (@None IP). rewrite Hm. reflexivity.
Qed.

(** an IPv4 destination cannot be disguised: an address that carries it in
    any of the known IPv6 forms (IPv4-mapped, IPv4-compatible,
    IPv4-translated, NAT64, 6to4 with any subnet and interface) is classified
    exactly as the IPv4 address is, so an internal one is never public and a
    public one stays reachable; and an ISATAP address under a public prefix is
    internal whenever the address it carries is. *)
Theorem embedded_ipv4_judged_as_itself a :
  quad a ->
  IsPrivateOrInternal (mapped a) = IsPrivateOrInternal a
  /\ IsPrivateOrInternal (compatible a) = IsPrivateOrInternal a
  /\ IsPrivateOrInternal (translated a) = IsPrivateOrInternal a
  /\ IsPrivateOrInternal (nat64 a) = IsPrivateOrInternal a
  /\ (forall rest, List.length rest = 10%nat ->
        (nth 3 rest 0 =? 0) && (nth 4 rest 0 =? 0x5e) && (nth 5 rest 0 =? 0xfe) = false ->
        IsPrivateOrInternal (sixtofour a rest) = IsPrivateOrInternal a)
  /\ (forall pre u, List.length pre = 8%nat -> u = 0 \/ u = 2 ->
        IsPrivateOrInternal a = true -> IsPrivateOrInternal (isatap pre u a) = true).
Proof.
  intros (w & x & y & z & ->)%quad_bytes. rewrite internal_plain.
  split_and!; [apply mapped_verdict|apply compatible_verdict|apply translated_verdict
              |apply nat64_verdict|intros; by apply sixtofour_verdict|].
  intros pre u Hl Hu Hint.
  destruct pre as [|b0 [|b1 [|b2 [|b3 [|b4 [|b5 [|b6 [|b7 [|]]]]]]]]]; try discriminate. unfold IsPrivateOrInternal. destruct (isInternalAddr (isatap _ _ _)); [done|].
  apply existsb_exists. exists [w; x; y; z]. split; [|done]. apply list_elem_of_In.
  unfold embeddedIPv4, isatap.
  assert (H4 : forall l, To4 ([b0; b1; b2; b3; b4; b5; b6; b7] ++ [u; 0; 94; 254] ++ [w; x; y; z]) = Some l -> False).
  { intros l. unfold To4. simpl. rewrite !andb_false_r. discriminate. }
  rewrite bool_decide_false by (intros [l Hx]; by apply H4 in Hx). simpl negb. cbn [orb].
  apply elem_of_app. right.
  destruct Hu as [->| ->]; simpl; left.
Qed.

Lemma embedded_ipv4_judged_as_itself_witness :
  IsPrivateOrInternal (nat64 [127; 0; 0; 1]) = IsPrivateOrInternal [127; 0; 0; 1]
  /\ IsPrivateOrInternal [127; 0; 0; 1] = true
  /\ IsPrivateOrInternal (nat64 [93; 184; 216; 34]) = false.
Proof.
  split; [|split; vm_compute; reflexivity].
  apply (embedded_ipv4_judged_as_itself [127; 0; 0; 1]).
  split; [reflexivity|]. repeat constructor; lia.
Defined.
