(* ===== verification/NetAddr.v ===== *)
(** * Network addresses of package net

    What internal/clientip uses of Go's net package: the textual forms of IPv4
    and IPv6 addresses (ParseIP), networks and masks (ParseCIDR, CIDRMask,
    IPNet.Contains) and host:port pairs (SplitHostPort).  The lemmas at the end
    characterise the parsing of dotted quads and the block of a network. *)

From Stdlib Require Import Ascii String.
From S2P Require Import Prelude GoStrings IpClass.
Local Open Scope string_scope.
Local Open Scope list_scope.
Local Open Scope Z_scope.

(** ** Addresses *)

(** A decimal field of a dotted quad: no leading zero, at most 255. *)
Definition parse_octet (s : string) : option Z :=
  match s with
  | EmptyString => None
  | String a r =>
      match digits_val 0 s with
      | Some v => if (Ascii.eqb a "0" && negb (String.eqb r "")) || (255 <? v) then None else Some v
      | None => None
      end
  end.

Definition parse_ipv4 (s : string) : option IP :=
  match split_on "." s with
  | [p; q; r; t] =>
      match parse_octet p, parse_octet q, parse_octet r, parse_octet t with
      | Some w, Some x, Some y, Some z => Some [w; x; y; z]
      | _, _, _, _ => None
      end
  | _ => None
  end.

(** The leading hexadecimal digits of a text: their number, their value and
    what follows. *)
Fixpoint hex_group (n : nat) (acc : Z) (s : string) : nat * Z * string :=
  match s with
  | EmptyString => (n, acc, s)
  | String c r =>
      match unhex c with
      | Some d => hex_group (S n) (16 * acc + Z.of_nat d) r
      | None => (n, acc, s)
      end
  end.

(** The groups of an IPv6 address: [bytes] are the bytes read, [ell] the place
    of the ellipsis among them.  At most eight groups are read. *)
Fixpoint parse_groups (fuel : nat) (bytes : IP) (ell : option nat) (s : string) : option (IP * option nat * string) :=
  match fuel with
  | O => Some (bytes, ell, s)
  | S fuel =>
      let '(n, acc, rest) := hex_group 0 0 s in
      if Nat.eqb n 0 || (4 <? Z.of_nat n) then None
      else if has_prefix "." rest then
        if (match ell with None => negb (Nat.eqb (List.length bytes) 12) | Some _ => false end)
           || (12 <? Z.of_nat (List.length bytes))
        then None
        else match parse_ipv4 s with
             | Some quad => Some (bytes ++ quad, ell, "")
             | None => None
             end
      else
        let bytes := bytes ++ [acc `div` 256; acc `mod` 256] in
        match rest with
        | EmptyString => Some (bytes, ell, "")
        | String ":" EmptyString => None
        | String ":" (String ":" rest') =>
            match ell, rest' with
            | Some _, _ => None
            | None, EmptyString => Some (bytes, Some (List.length bytes), "")
            | None, _ => parse_groups fuel bytes (Some (List.length bytes)) rest'
            end
        | String ":" rest' => parse_groups fuel bytes ell rest'
        | _ => None
        end
  end.

(** The ellipsis stands for at least one group of zeros. *)
Definition expand_ellipsis (bytes : IP) (ell : option nat) : option IP :=
  match ell with
  | None => if Nat.eqb (List.length bytes) 16 then Some bytes else None
  | Some k =>
      if (16 <=? Z.of_nat (List.length bytes)) then None
      else Some (take k bytes ++ replicate (16 - List.length bytes) 0 ++ drop k bytes)
  end.

Definition parse_ipv6 (s : string) : option IP :=
  let '(ell, s) := match s with String ":" (String ":" r) => (Some 0%nat, r) | _ => (None, s) end in
  match ell, s with
  | Some _, EmptyString => Some IPv6unspecified
  | _, _ =>
      match parse_groups 8 [] ell s with
      | Some (bytes, ell, EmptyString) => expand_ellipsis bytes ell
      | _ => None
      end
  end.

(** The first of ['.'], [':'] and ['%'] decides the form. *)
Fixpoint first_mark (s : string) : option ascii :=
  match s with
  | EmptyString => None
  | String c r => if Ascii.eqb c "." || Ascii.eqb c ":" || Ascii.eqb c "%" then Some c else first_mark r
  end.

(** An address without a zone: 4 bytes for a dotted quad, 16 for the colon
    form.  (A zone makes ParseIP and ParseCIDR fail.) *)
Definition parse_addr (s : string) : option IP :=
  match first_mark s with
  | Some "."%char => parse_ipv4 s
  | Some ":"%char => if contains_byte "%" s then None else parse_ipv6 s
  | _ => None
  end.

Definition as16 (ip : IP) : IP := if Nat.eqb (List.length ip) 4 then mapped ip else ip.

(** net.ParseIP: always the 16-byte form. *)
Definition ParseIP (s : string) : option IP := as16 <$> parse_addr s.

(** ** Networks *)

Record IPNet := mkIPNet { n_IP : IP; n_Mask : list Z }.

Definition networkNumberAndMask (n : IPNet) : option (IP * list Z) :=
  match (match To4 (n_IP n) with
         | Some ip => Some ip
         | None => if Nat.eqb (List.length (n_IP n)) 16 then Some (n_IP n) else None
         end) with
  | None => None
  | Some ip =>
      match List.length (n_Mask n) with
      | 4%nat => if Nat.eqb (List.length ip) 4 then Some (ip, n_Mask n) else None
      | 16%nat => Some (ip, if Nat.eqb (List.length ip) 4 then drop 12 (n_Mask n) else n_Mask n)
      | _ => None
      end
  end.

(** IPNet.Contains. *)
Definition Contains (n : IPNet) (ip : IP) : bool :=
  let ip := default ip (To4 ip) in
  match networkNumberAndMask n with
  | None => Nat.eqb (List.length ip) 0
  | Some (nn, m) =>
      Nat.eqb (List.length ip) (List.length nn)
      && forallb (fun i => Z.land (byte_at nn i) (byte_at m i) =? Z.land (byte_at ip i) (byte_at m i))
           (List.seq 0 (List.length ip))
  end.

(** net.CIDRMask(ones, 8 * l). *)
Fixpoint CIDRMask (ones : Z) (l : nat) : list Z :=
  match l with
  | O => []
  | S l =>
      if 8 <=? ones then 255 :: CIDRMask (ones - 8) l
      else (255 - Z.shiftr 255 ones) :: CIDRMask 0 l
  end.

(** IP.Mask for an address and a mask of one length, or a 4-byte mask of an
    IPv4-mapped address. *)
Definition Mask (ip : IP) (mask : list Z) : IP :=
  let ip := if Nat.eqb (List.length mask) 4 then default ip (To4 ip) else ip in
  zip_with Z.land ip mask.

(** net.ParseCIDR, its network. *)
Definition ParseCIDR (s : string) : option IPNet :=
  match index_byte "/" s with
  | None => None
  | Some i =>
      match parse_addr (str_take i s), str_drop (S i) s with
      | Some addr, (String _ _ as ones) =>
          match digits_val 0 ones with
          | Some n =>
              if (8 * Z.of_nat (List.length addr) <? n) then None
              else
                let m := CIDRMask n (List.length addr) in
                Some (mkIPNet (Mask (as16 addr) m) m)
          | None => None
          end
      | _, _ => None
      end
  end.

(** ** host:port *)

Fixpoint last_index_byte (c : ascii) (s : string) : option nat :=
  match s with
  | EmptyString => None
  | String a r =>
      match last_index_byte c r with
      | Some i => Some (S i)
      | None => if Ascii.eqb a c then Some O else None
      end
  end.

(** net.SplitHostPort, its host; [None] is its error. *)
Definition SplitHostPort (hp : string) : option string :=
  match last_index_byte ":" hp with
  | None => None
  | Some i =>
      if has_prefix "[" hp then
        match index_byte "]" hp with
        | None => None
        | Some e =>
            if negb (Nat.eqb (S e) i) then None
            else if contains_byte "[" (str_drop 1 hp) || contains_byte "]" (str_drop (S e) hp) then None
            else Some (str_drop 1 (str_take e hp))
        end
      else
        let host := str_take i hp in
        if contains_byte ":" host || contains_byte "[" hp || contains_byte "]" hp then None
        else Some host
  end.

(** ** Examples of the forms *)

Example parse_forms :
  ParseIP "192.0.2.7" = Some (mapped [192; 0; 2; 7])
  /\ ParseIP "192.0.2.07" = None /\ ParseIP "192.0.2" = None /\ ParseIP "192.0.2.256" = None
  /\ ParseIP "2001:db8::1" = Some [0x20; 1; 0x0d; 0xb8; 0; 0; 0; 0; 0; 0; 0; 0; 0; 0; 0; 1]
  /\ ParseIP "::" = Some IPv6unspecified /\ ParseIP "::1" = Some IPv6loopback
  /\ ParseIP "::ffff:192.0.2.7" = Some (mapped [192; 0; 2; 7])
  /\ ParseIP "1:2:3:4:5:6:7::" = Some [0; 1; 0; 2; 0; 3; 0; 4; 0; 5; 0; 6; 0; 7; 0; 0]
  /\ ParseIP "1:2:3:4:5:6:7:8::" = None /\ ParseIP "1::2::3" = None /\ ParseIP "fe80::1%eth0" = None
  /\ ParseIP "" = None /\ ParseIP ":" = None /\ ParseIP "12345::" = None.
Proof. vm_compute. repeat split. Qed.

Example split_forms :
  SplitHostPort "1.2.3.4:80" = Some "1.2.3.4" /\ SplitHostPort "[::1]:80" = Some "::1"
  /\ SplitHostPort "[::1]" = None /\ SplitHostPort "::1" = None /\ SplitHostPort "1.2.3.4" = None.
Proof. vm_compute. repeat split. Qed.

(** ** Dotted quads *)

Definition print_quad (a : IP) : string := join "." (itoa <$> a).

Lemma parse_octet_itoa v : 0 <= v < 256 -> parse_octet (itoa v) = Some v.
Proof.
  intros Hv. assert (H : forallb (fun v => bool_decide (parse_octet (itoa v) = Some v)) (seqZ 0 256) = true)
    by (vm_compute; reflexivity).
  rewrite List.forallb_forall in H. specialize (H v). rewrite bool_decide_eq_true in H. apply H.
  apply list_elem_of_In, elem_of_seqZ. lia.
Qed.

Lemma first_mark_digits s t : all_bytes is_digit s = true -> first_mark (s +:+ t) = first_mark t.
Proof.
  induction s as [|a s IH]; [done|]. cbn [all_bytes]. intros [Ha Hs]%andb_true_iff.
  cbn [String.append first_mark]. rewrite IH by done.
  destruct (Ascii.eqb_spec a "."), (Ascii.eqb_spec a ":"), (Ascii.eqb_spec a "%"); subst; done.
Qed.

Lemma parse_print_quad a : quad a -> parse_addr (print_quad a) = Some a.
Proof.
  intros [Hl Hb]. destruct a as [|w [|x [|y [|z [|]]]]]; try done. unfold print_quad.
  repeat (apply Forall_cons in Hb as [? Hb]).
  unfold parse_addr. csimpl. cbn [join]. rewrite first_mark_digits by (apply itoa_digits; lia). cbn.
  change (parse_ipv4 (join "." [itoa w; itoa x; itoa y; itoa z]) = Some [w; x; y; z]).
  unfold parse_ipv4. rewrite split_on_join; [|done|].
  - by rewrite !parse_octet_itoa by lia.
  - repeat (apply Forall_cons; split; [by apply itoa_free; [|lia]|]). by apply Forall_nil.
Qed.

(** ** The block of a network *)

(** Bytes as a number, the first one most significant. *)
Definition bytes_num (l : list Z) : Z := fold_left (fun acc b => 256 * acc + b) l 0.

Lemma bytes_num_cons x l : bytes_num (x :: l) = x * 256 ^ Z.of_nat (List.length l) + bytes_num l.
Proof.
  unfold bytes_num. cbn [fold_left]. replace (256 * 0 + x) with x by lia.
  enough (H : forall acc, fold_left (fun acc b => 256 * acc + b) l acc
    = acc * 256 ^ Z.of_nat (List.length l) + fold_left (fun acc b => 256 * acc + b) l 0) by apply H.
  induction l as [|y l IH]; intros acc; cbn [fold_left List.length]; [lia|].
  rewrite IH, (IH (256 * 0 + y)). rewrite Nat2Z.inj_succ, Z.pow_succ_r by lia. lia.
Qed.

Definition is_bytes (l : list Z) : Prop := Forall (fun b => 0 <= b < 256) l.

Lemma bytes_num_range l : is_bytes l -> 0 <= bytes_num l < 256 ^ Z.of_nat (List.length l).
Proof.
  induction 1 as [|x l Hx Hl IH]; [by cbn|]. rewrite bytes_num_cons. cbn [List.length].
  rewrite Nat2Z.inj_succ, Z.pow_succ_r by lia. nia.
Qed.

Lemma land_255 x : 0 <= x < 256 -> Z.land x 255 = x.
Proof. intros Hx. change 255 with (Z.ones 8). rewrite Z.land_ones by lia. apply Z.mod_small. lia. Qed.

(** A partial mask byte keeps the high bits. *)
Lemma land_high x k : 0 <= x < 256 -> 0 <= k < 8 ->
  Z.land x (255 - Z.shiftr 255 k) = x / 2 ^ (8 - k) * 2 ^ (8 - k).
Proof.
  intros Hx Hk. assert (H : forallb (fun k => forallb (fun x =>
    Z.land x (255 - Z.shiftr 255 k) =? x / 2 ^ (8 - k) * 2 ^ (8 - k)) (seqZ 0 256)) (seqZ 0 8) = true)
    by (vm_compute; reflexivity).
  rewrite List.forallb_forall in H. specialize (H k ltac:(apply list_elem_of_In, elem_of_seqZ; lia)).
  rewrite List.forallb_forall in H. specialize (H x ltac:(apply list_elem_of_In, elem_of_seqZ; lia)).
  by apply Z.eqb_eq.
Qed.

(** Two addresses agree under a mask. *)
Definition masked_equal (a b m : list Z) : Prop :=
  Forall2 eq (zip_with Z.land a m) (zip_with Z.land b m).

Lemma mask_zero a b l :
  List.length a = l -> List.length b = l -> masked_equal a b (CIDRMask 0 l).
Proof.
  revert a b. induction l as [|l IH]; intros [|x a] [|y b] Ha Hb; try done; [constructor|].
  cbn [CIDRMask]. constructor; [by rewrite !Z.land_0_r|]. apply IH; by simplify_eq/=.
Qed.

(** They do exactly when their leading [n] bits are the same. *)
Lemma mask_keeps_leading_bits l n a b :
  is_bytes a -> is_bytes b -> List.length a = l -> List.length b = l -> 0 <= n <= 8 * Z.of_nat l ->
  masked_equal a b (CIDRMask n l) <->
  bytes_num a / 2 ^ (8 * Z.of_nat l - n) = bytes_num b / 2 ^ (8 * Z.of_nat l - n).
Proof.
  revert n a b. induction l as [|l IH]; intros n [|x a] [|y b] Ha Hb La Lb Hn; try done.
  { split; [done|constructor]. }
  apply Forall_cons in Ha as [Hx Ha], Hb as [Hy Hb]. cbn in La, Lb. injection La as La. injection Lb as Lb.
  rewrite !bytes_num_cons, La, Lb. cbn [CIDRMask].
  pose proof (bytes_num_range a Ha) as Ra. pose proof (bytes_num_range b Hb) as Rb. rewrite La in Ra. rewrite Lb in Rb.
  assert (E256 : 256 ^ Z.of_nat l = 2 ^ (8 * Z.of_nat l)) by (rewrite Z.pow_mul_r by lia; done).
  destruct (Z.leb_spec 8 n) as [H8|H8].
  - set (k := 8 * Z.of_nat (S l) - n). assert (Ek : 8 * Z.of_nat l - (n - 8) = k) by lia.
    assert (Esplit : 256 ^ Z.of_nat l = 2 ^ (n - 8) * 2 ^ k) by (rewrite E256, <- Z.pow_add_r by lia; f_equal; lia).
    assert (Hk : 0 < 2 ^ k) by (apply Z.pow_pos_nonneg; lia).
    specialize (IH (n - 8) a b Ha Hb La Lb ltac:(lia)). rewrite Ek in IH.
    rewrite Esplit in *. rewrite !Z.mul_assoc, !Z.div_add_l by lia.
    assert (Qa : 0 <= bytes_num a / 2 ^ k < 2 ^ (n - 8))
      by (split; [apply Z.div_pos; lia|apply Z.div_lt_upper_bound; lia]).
    assert (Qb : 0 <= bytes_num b / 2 ^ k < 2 ^ (n - 8))
      by (split; [apply Z.div_pos; lia|apply Z.div_lt_upper_bound; lia]).
    unfold masked_equal in *. cbn [zip_with]. rewrite !land_255 by lia. rewrite Forall2_cons, IH. split; [intros [-> ->]; done|].
    intros E. assert (x = y) by nia. subst. split; [done|lia].
  - assert (Hp : 256 ^ Z.of_nat l * 2 ^ (8 - n) = 2 ^ (8 * Z.of_nat (S l) - n))
      by (rewrite E256, <- Z.pow_add_r by lia; f_equal; lia).
    rewrite <- Hp, <- !Z.div_div by (apply Z.pow_pos_nonneg || apply Z.pow_nonzero; lia).
    rewrite !Z.div_add_l, !(Z.div_small (bytes_num _)), !Z.add_0_r by lia.
    unfold masked_equal. cbn [zip_with]. rewrite !land_high by lia. rewrite Forall2_cons.
    assert (H2 : 0 < 2 ^ (8 - n)) by (apply Z.pow_pos_nonneg; lia). split.
    + intros [E _]. nia.
    + intros ->. split; [done|]. by apply mask_zero.
Qed.

Lemma length_CIDRMask n l : List.length (CIDRMask n l) = l.
Proof.
  revert n. induction l as [|l IH]; intros n; [done|]. cbn [CIDRMask]. destruct (8 <=? n); cbn; by rewrite IH.
Qed.

Lemma To4_mapped a : List.length a = 4%nat -> To4 (mapped a) = Some a.
Proof. by destruct a as [|w [|x [|y [|z [|]]]]]. Qed.

Lemma land_masked x m : Z.land (Z.land x m) m = Z.land x m.
Proof. by rewrite <- Z.land_assoc, Z.land_diag. Qed.

(** A network written as an IPv4 address and a mask. *)
Lemma contains_masked a b m net :
  List.length a = 4%nat -> List.length b = 4%nat -> List.length m = 4%nat ->
  net = mkIPNet (Mask (mapped a) m) m \/ net = mkIPNet (mapped a) m ->
  Contains net (mapped b) = true <-> masked_equal a b m.
Proof.
  intros La Lb Lm Hnet. unfold Contains. rewrite To4_mapped by done. cbn [default].
  destruct a as [|a0 [|a1 [|a2 [|a3 [|]]]]]; try done. destruct b as [|b0 [|b1 [|b2 [|b3 [|]]]]]; try done.
  destruct m as [|m0 [|m1 [|m2 [|m3 [|]]]]]; try done.
  assert (Hn : exists k, networkNumberAndMask net = Some (k, [m0; m1; m2; m3])
    /\ zip_with Z.land k [m0; m1; m2; m3] = zip_with Z.land [a0; a1; a2; a3] [m0; m1; m2; m3]
    /\ List.length k = 4%nat).
  { destruct Hnet as [-> | ->]; eexists; (split; [reflexivity|]); cbn; rewrite ?land_masked; done. }
  destruct Hn as (k & -> & Hk & Lk). destruct k as [|k0 [|k1 [|k2 [|k3 [|]]]]]; try done.
  unfold masked_equal. cbn in Hk |- *. injection Hk as -> -> -> ->.
  rewrite !andb_true_iff, !Z.eqb_eq, !Forall2_cons. intuition (done || constructor).
Qed.
