(* ===== verification/ClientIp.v ===== *)
(** * The client's address

    Models internal/clientip and router/trustedproxy.go: which address of a
    request counts as the client's when trusted proxies may have forwarded it.
    Login throttling, the session scheme and rate limiting key on it, so the
    theorems are about what a client can and cannot forge. *)

From Stdlib Require Import Ascii String.
From S2P Require Import Prelude GoStrings IpClass NetAddr.
Local Open Scope string_scope.
Local Open Scope list_scope.
Local Open Scope Z_scope.

(** The parts of an http.Request that are read: a header maps its canonical
    name to its lines. *)
Record Request := mkRequest { RemoteAddr : string; Header : gmap string (list string) }.

(** Header.Get: the first line, or the empty text. *)
Definition Get (h : gmap string (list string)) (name : string) : string :=
  match h !! name with Some (v :: _) => v | _ => "" end.

(** A list of trusted networks; a nil entry is [None]. *)
Notation nets_t := (list (option IPNet)).

(** ** internal/clientip *)

(** strings.Trim(s, brackets) *)
Fixpoint trim_left_brackets (s : string) : string :=
  match s with
  | String a r => if Ascii.eqb a "[" || Ascii.eqb a "]" then trim_left_brackets r else s
  | EmptyString => s
  end.
Fixpoint trim_right_brackets (s : string) : string :=
  match s with
  | EmptyString => EmptyString
  | String a r =>
      match trim_right_brackets r with
      | EmptyString => if Ascii.eqb a "[" || Ascii.eqb a "]" then EmptyString else String a EmptyString
      | t => String a t
      end
  end.

Definition parseRemoteIP (addr : string) : option IP :=
  if String.eqb addr "" then None
  else
    let host := match SplitHostPort addr with
                | Some host => host
                | None => trim_right_brackets (trim_left_brackets addr)
                end in
    ParseIP (trim_space host).

Definition ipInNets (ip : IP) (nets : nets_t) : bool :=
  existsb (fun n => match n with Some n => Contains n ip | None => false end) nets.

(** The first loop of resolveXFF, over the entries from the right. *)
Fixpoint xff_untrusted (nets : nets_t) (back : list string) : option IP :=
  match back with
  | [] => None
  | p :: back =>
      match ParseIP (trim_space p) with
      | None => xff_untrusted nets back
      | Some ip => if ipInNets ip nets then xff_untrusted nets back else Some ip
      end
  end.

(** Its second loop: the left-most entry that parses. *)
Fixpoint xff_leftmost (parts : list string) : option IP :=
  match parts with
  | [] => None
  | p :: parts => match ParseIP (trim_space p) with Some ip => Some ip | None => xff_leftmost parts end
  end.

Definition resolveXFF (xff : string) (nets : nets_t) : option IP :=
  let parts := split_on "," xff in
  match xff_untrusted nets (rev parts) with
  | Some ip => Some ip
  | None => xff_leftmost parts
  end.

Definition quote_mark : ascii := ascii_of_nat 34.

(** The address of one [for=] value. *)
Definition for_value (raw : string) : option IP :=
  let raw := trim quote_mark raw in
  match (if has_prefix "[" raw
         then match index_byte "]" raw with
              | Some e => if Nat.eqb e 0 then None else Some (ParseIP (str_drop 1 (str_take e raw)))
              | None => None
              end
         else None) with
  | Some res => res
  | None =>
      match SplitHostPort raw with
      | Some host => ParseIP host
      | None => ParseIP (trim_space raw)
      end
  end.

(** Its first [for=] parameter decides an element. *)
Fixpoint for_params (params : list string) : option IP :=
  match params with
  | [] => None
  | p :: params =>
      let p := trim_space p in
      if has_prefix "for=" (to_lower p) then for_value (str_drop 4 p) else for_params params
  end.

Definition forwardedFor (element : string) : option IP := for_params (split_on ";" element).

Fixpoint last_outside (nets : nets_t) (back : list IP) : option IP :=
  match back with
  | [] => None
  | ip :: back => if ipInNets ip nets then last_outside nets back else Some ip
  end.

Definition resolveForwarded (value : string) (nets : nets_t) : option IP :=
  let parsedFor := omap forwardedFor (split_on "," value) in
  match last_outside nets (rev parsedFor) with
  | Some ip => Some ip
  | None => head parsedFor
  end.

(** strings.ContainsAny(s, comma, space, tab) *)
Definition has_separator (s : string) : bool :=
  contains_byte "," s || contains_byte " " s || contains_byte (ascii_of_nat 9) s.

Definition parseSingleIP (value : string) : option IP :=
  let trimmed := trim_space value in
  if String.eqb trimmed "" || has_separator trimmed then None else ParseIP trimmed.

(** The first header that resolves, else the peer itself. *)
Definition Extract (r : Request) (nets : nets_t) : option IP :=
  match parseRemoteIP (RemoteAddr r) with
  | None => None
  | Some remoteIP =>
      if Nat.eqb (List.length nets) 0 || negb (ipInNets remoteIP nets) then Some remoteIP
      else
        let fwd := Get (Header r) "Forwarded" in
        let xff := Get (Header r) "X-Forwarded-For" in
        let xri := Get (Header r) "X-Real-Ip" in
        match (if String.eqb fwd "" then None else resolveForwarded fwd nets) with
        | Some ip => Some ip
        | None =>
            match (if String.eqb xff "" then None else resolveXFF xff nets) with
            | Some ip => Some ip
            | None =>
                match (if String.eqb xri "" then None else parseSingleIP xri) with
                | Some ip => Some ip
                | None => Some remoteIP
                end
            end
        end
  end.

(** Networks without their nil entries; the copies share nothing with the
    original, and as values they are equal to it. *)
Definition CloneIPNets (src : nets_t) : nets_t := Some <$> omap id src.

(** The reason of a parseError. *)
Inductive parse_reason := EmptyEntry | InvalidCIDR | NotIPOrCIDR.

Definition parse_entry (raw : string) : result (string * parse_reason) IPNet :=
  let raw := trim_space raw in
  if String.eqb raw "" then Err (raw, EmptyEntry)
  else if contains_byte "/" raw then
    match ParseCIDR raw with Some n => Ok n | None => Err (raw, InvalidCIDR) end
  else
    match ParseIP raw with
    | None => Err (raw, NotIPOrCIDR)
    | Some ip =>
        Ok (mkIPNet ip match To4 ip with None => CIDRMask 128 16 | Some _ => CIDRMask 32 4 end)
    end.

(** The first malformed entry is the error. *)
Fixpoint ParseCIDRs (entries : list string) : result (string * parse_reason) nets_t :=
  match entries with
  | [] => Ok []
  | raw :: entries =>
      (n <-! parse_entry raw;; out <-! ParseCIDRs entries;; Ok (Some n :: out))%go
  end.

(** ** router/trustedproxy.go *)

Record TrustedProxies := mkTrusted { tp_nets : list IPNet }.

Definition tp_Contains (tp : TrustedProxies) (ipStr : string) : bool :=
  if Nat.eqb (List.length (tp_nets tp)) 0 then false
  else match ParseIP (trim_space ipStr) with
       | None => false
       | Some ip => existsb (fun n => Contains n ip) (tp_nets tp)
       end.

Definition splitXFF (xff : string) : list string :=
  if String.eqb xff "" then []
  else List.filter (fun p => negb (String.eqb p "")) (List.map trim_space (split_on "," xff)).

Fixpoint tp_walk (tp : TrustedProxies) (back : list string) : option string :=
  match back with
  | [] => None
  | ip :: back =>
      if String.eqb ip "" then tp_walk tp back
      else if tp_Contains tp ip then tp_walk tp back else Some ip
  end.

Definition ClientIP (tp : TrustedProxies) (remoteIP xff : string) : string :=
  if Nat.eqb (List.length (tp_nets tp)) 0 || negb (tp_Contains tp remoteIP) then remoteIP
  else
    match splitXFF xff with
    | [] => remoteIP
    | (first :: _) as ips =>
        match tp_walk tp (rev ips) with Some ip => ip | None => first end
    end.

Definition stripPortHost (addr : string) : string :=
  match SplitHostPort addr with Some host => host | None => addr end.

(** ** What a proxy appends decides *)

(** A forwarding header as the last untrusted client and the trusted proxies
    after it left it: [spoof] is what the client itself sent, and every proxy
    appended the address of its peer. *)
Definition appended (spoof : option string) (seen : list string) : string :=
  match spoof with
  | Some s => s +:+ String "," (join "," seen)
  | None => join "," seen
  end.

Lemma appended_split spoof seen :
  seen <> [] -> Forall (fun p => contains_byte "," p = false) seen ->
  exists pre, split_on "," (appended spoof seen) = pre ++ seen.
Proof.
  intros Hne Hfree. destruct spoof as [s|]; cbn [appended].
  - exists (split_on "," s). by rewrite split_on_app, split_on_join.
  - exists []. by rewrite split_on_join.
Qed.

Lemma appended_ne spoof seen : seen <> [] -> (exists p, p ∈ seen /\ p <> "") -> appended spoof seen <> "".
Proof.
  intros Hne (p & Hp & Hpe) H. destruct spoof as [s|]; cbn [appended] in H; [by destruct s; discriminate|].
  destruct seen as [|q [|q' seen]]; [done| |].
  - cbn in H. apply list_elem_of_singleton in Hp. congruence.
  - rewrite join_cons in H by done. by destruct q; discriminate.
Qed.

(** A hop the walk passes over: a trusted address, or no address at all. *)
Definition passed (nets : nets_t) (parsed : option IP) : Prop :=
  match parsed with Some ip => ipInNets ip nets = true | None => True end.

Lemma xff_untrusted_app nets pre client c hops :
  ParseIP (trim_space client) = Some c -> ipInNets c nets = false ->
  Forall (fun h => passed nets (ParseIP (trim_space h))) hops ->
  xff_untrusted nets (rev (pre ++ client :: hops)) = Some c.
Proof.
  intros Hc Hout Hh. rewrite rev_app_distr. cbn [rev]. rewrite <- !app_assoc.
  apply List.Forall_rev in Hh. revert Hh.
  induction (rev hops) as [|h back IH]; intros Hh; cbn [app xff_untrusted].
  - by rewrite Hc, Hout.
  - apply Forall_cons in Hh as [H Hh]. destruct (ParseIP (trim_space h)); cbn in H; [rewrite H|]; by apply IH.
Qed.

Lemma omap_app {A B} (f : A -> option B) (l k : list A) : omap f (l ++ k) = omap f l ++ omap f k.
Proof. induction l as [|x l IH]; [done|]. csimpl. rewrite IH. by destruct (f x). Qed.

Lemma last_outside_app nets pre c hops :
  ipInNets c nets = false -> Forall (fun h => ipInNets h nets = true) hops ->
  last_outside nets (rev (pre ++ c :: hops)) = Some c.
Proof.
  intros Hout Hh. rewrite rev_app_distr. cbn [rev]. rewrite <- !app_assoc.
  apply List.Forall_rev in Hh. revert Hh.
  induction (rev hops) as [|h back IH]; intros Hh; cbn [app last_outside].
  - by rewrite Hout.
  - apply Forall_cons in Hh as [H Hh]. rewrite H. by apply IH.
Qed.

Lemma passed_omap nets hops :
  Forall (fun h => passed nets (forwardedFor h)) hops ->
  Forall (fun ip => ipInNets ip nets = true) (omap forwardedFor hops).
Proof.
  induction 1 as [|h hops Hh _ IH]; [constructor|]. csimpl.
  destruct (forwardedFor h); [by constructor|done].
Qed.

Section Forwarding.
Context (r : Request) (nets : nets_t) (remote : IP).
Hypothesis Hremote : parseRemoteIP (RemoteAddr r) = Some remote.

Lemma direct_peer : ipInNets remote nets = false -> Extract r nets = Some remote.
Proof. intros H. unfold Extract. by rewrite Hremote, H, orb_true_r. Qed.

Context (spoof : option string) (client : string) (hops : list string) (c : IP).
Hypothesis Htrusted : ipInNets remote nets = true.
Hypothesis Hout : ipInNets c nets = false.
Hypothesis Hfree : Forall (fun p => contains_byte "," p = false) (client :: hops).

Lemma nets_nonempty : Nat.eqb (List.length nets) 0 = false.
Proof. by destruct nets. Qed.

Lemma forwarded_client :
  Get (Header r) "Forwarded" = appended spoof (client :: hops) ->
  forwardedFor client = Some c -> Forall (fun h => passed nets (forwardedFor h)) hops ->
  Extract r nets = Some c.
Proof.
  intros Hget Hc Hh. unfold Extract. rewrite Hremote, nets_nonempty, Htrusted. cbn [orb negb]. rewrite Hget.
  destruct (String.eqb_spec (appended spoof (client :: hops)) "") as [E|_].
  - apply appended_ne in E; [done|done|]. exists client. split; [left|]. by intros ->.
  - destruct (appended_split spoof (client :: hops)) as [pre E]; [done|done|].
    unfold resolveForwarded. rewrite E, omap_app. csimpl. rewrite Hc.
    by rewrite (last_outside_app nets _ c _ Hout (passed_omap nets hops Hh)).
Qed.

Lemma resolveForwarded_empty : resolveForwarded "" nets = None.
Proof. reflexivity. Qed.

(** The Forwarded header is read first, whoever wrote it. *)
Lemma forwarded_wins a : resolveForwarded (Get (Header r) "Forwarded") nets = Some a -> Extract r nets = Some a.
Proof.
  intros H. unfold Extract. rewrite Hremote, nets_nonempty, Htrusted. cbn [orb negb].
  destruct (String.eqb_spec (Get (Header r) "Forwarded") "") as [E|_]; [|by rewrite H].
  by rewrite E, resolveForwarded_empty in H.
Qed.

Lemma xff_client :
  resolveForwarded (Get (Header r) "Forwarded") nets = None ->
  Get (Header r) "X-Forwarded-For" = appended spoof (client :: hops) ->
  ParseIP (trim_space client) = Some c -> Forall (fun h => passed nets (ParseIP (trim_space h))) hops ->
  Extract r nets = Some c.
Proof.
  intros Hfwd Hget Hc Hh. unfold Extract. rewrite Hremote, nets_nonempty, Htrusted. cbn [orb negb].
  rewrite Hfwd, Hget.
  replace (if String.eqb (Get (Header r) "Forwarded") "" then None else None) with (@None IP) by (by case_match).
  destruct (String.eqb_spec (appended spoof (client :: hops)) "") as [E|_].
  - apply appended_ne in E; [done|done|]. exists client. split; [left|]. by intros ->.
  - destruct (appended_split spoof (client :: hops)) as [pre E]; [done|done|].
    unfold resolveXFF. rewrite E. by rewrite (xff_untrusted_app nets pre client c hops).
Qed.

End Forwarding.

(** C14: Who the client is.  A peer that is not a trusted proxy is the client,
    whatever headers it sends.  Behind a trusted proxy:
    - where the proxies append the address of their peer to the Forwarded
      header, the client is the right-most address that is not a proxy's,
      whatever the client wrote to the left of it and in the other headers;
    - where they append it to X-Forwarded-For instead, the same holds provided
      no Forwarded header that names an address reaches the application (the
      proxies have to strip it), whatever the client wrote to the left and in
      X-Real-IP;
    - a Forwarded header that names an address decides alone, whoever wrote it:
      [client_forges_with_forwarded] shows a client choosing its address behind
      proxies that append only to X-Forwarded-For.
    The appended entries contain no comma, the client's is an address (in
    X-Forwarded-For, without a port) and the header is one line. *)
Theorem client_is_the_rightmost_untrusted_address r nets remote spoof client hops c :
  parseRemoteIP (RemoteAddr r) = Some remote ->
  Forall (fun p => contains_byte "," p = false) (client :: hops) -> ipInNets c nets = false ->
  (ipInNets remote nets = false -> Extract r nets = Some remote)
  /\ (ipInNets remote nets = true ->
      Get (Header r) "Forwarded" = appended spoof (client :: hops) ->
      forwardedFor client = Some c -> Forall (fun h => passed nets (forwardedFor h)) hops ->
      Extract r nets = Some c)
  /\ (ipInNets remote nets = true ->
      resolveForwarded (Get (Header r) "Forwarded") nets = None ->
      Get (Header r) "X-Forwarded-For" = appended spoof (client :: hops) ->
      ParseIP (trim_space client) = Some c -> Forall (fun h => passed nets (ParseIP (trim_space h))) hops ->
      Extract r nets = Some c)
  /\ (forall a, ipInNets remote nets = true ->
      resolveForwarded (Get (Header r) "Forwarded") nets = Some a -> Extract r nets = Some a).
Proof.
  intros Hremote Hfree Hout. split; [by apply direct_peer|].
  split; [|split]; intros; [by eapply forwarded_client|by eapply xff_client|by eapply forwarded_wins].
Qed.

(** Two proxies of 10.0.0.0/8, and a client at 203.0.113.9 that claims to be
    loopback. *)
Definition proxies : nets_t := [Some (mkIPNet (mapped [10; 0; 0; 0]) [255; 0; 0; 0])].
Definition spoofed_request : Request :=
  mkRequest "10.0.0.2:4711" {[ "X-Forwarded-For" := ["127.0.0.1, 203.0.113.9, 10.0.0.1"] ]}.

Lemma client_is_the_rightmost_untrusted_address_witness :
  Extract spoofed_request proxies = Some (mapped [203; 0; 113; 9]).
Proof.
  pose proof (client_is_the_rightmost_untrusted_address spoofed_request proxies (mapped [10; 0; 0; 2])
    (Some "127.0.0.1") " 203.0.113.9" [" 10.0.0.1"] (mapped [203; 0; 113; 9])) as H.
  assert (Hfree : Forall (fun p => contains_byte "," p = false) [" 203.0.113.9"; " 10.0.0.1"])
    by (apply Forall_cons; split; [reflexivity|]; apply Forall_cons; split; [reflexivity|by apply Forall_nil]).
  destruct H as (_ & _ & H & _); [vm_compute; reflexivity|exact Hfree|vm_compute; reflexivity|].
  apply H; [vm_compute; reflexivity..|].
  apply Forall_cons. split; [vm_compute; reflexivity|by apply Forall_nil].
Defined.

(** ** The two resolvers *)

Section Resolvers.
Context (tp : TrustedProxies).

Definition tp_ipnets : nets_t := Some <$> tp_nets tp.

Lemma ipInNets_tp ip : ipInNets ip tp_ipnets = existsb (fun n => Contains n ip) (tp_nets tp).
Proof. unfold ipInNets, tp_ipnets. induction (tp_nets tp) as [|n l IH]; [done|]. csimpl. by rewrite IH. Qed.

Lemma tp_Contains_parsed s ip : ParseIP (trim_space s) = Some ip -> tp_Contains tp s = ipInNets ip tp_ipnets.
Proof.
  intros H. unfold tp_Contains. rewrite H, ipInNets_tp. by destruct (tp_nets tp).
Qed.

Definition entry_ok (p : string) : Prop := trim_space p = "" \/ is_Some (ParseIP (trim_space p)).

Definition trimmed (l : list string) : list string :=
  List.filter (fun p => negb (String.eqb p "")) (List.map trim_space l).

Lemma trimmed_cons p l :
  entry_ok p ->
  (trimmed (p :: l) = trimmed l /\ ParseIP (trim_space p) = None)
  \/ (exists ip, trimmed (p :: l) = trim_space p :: trimmed l /\ ParseIP (trim_space p) = Some ip
      /\ String.eqb (trim_space p) "" = false).
Proof.
  intros [E|[ip E]]; unfold trimmed; cbn [List.map List.filter].
  - left. by rewrite E.
  - right. exists ip. destruct (String.eqb_spec (trim_space p) "") as [E'|_]; [by rewrite E' in E|done].
Qed.

Lemma walks_agree l :
  Forall entry_ok l ->
  match tp_walk tp (trimmed l) with
  | Some s => xff_untrusted tp_ipnets l = ParseIP (trim_space s) /\ is_Some (ParseIP (trim_space s))
  | None => xff_untrusted tp_ipnets l = None
  end.
Proof.
  induction 1 as [|p l Hp Hl IH]; [done|]. cbn [xff_untrusted].
  destruct (trimmed_cons p l Hp) as [[-> ->]|(ip & -> & E & Ene)]; [done|].
  cbn [tp_walk]. rewrite Ene, (tp_Contains_parsed (trim_space p) ip) by (by rewrite trim_space_idem). rewrite E.
  destruct (ipInNets ip tp_ipnets); [done|]. by rewrite trim_space_idem, E.
Qed.

Lemma leftmost_agree l :
  Forall entry_ok l ->
  xff_leftmost l = match trimmed l with [] => None | s :: _ => ParseIP (trim_space s) end.
Proof.
  induction 1 as [|p l Hp Hl IH]; [done|]. cbn [xff_leftmost].
  destruct (trimmed_cons p l Hp) as [[-> ->]|(ip & -> & E & Ene)]; [done|]. by rewrite trim_space_idem, E.
Qed.

Lemma trimmed_first_parses l s rest :
  Forall entry_ok l -> trimmed l = s :: rest -> is_Some (ParseIP (trim_space s)).
Proof.
  induction 1 as [|p l Hp Hl IH]; [done|].
  destruct (trimmed_cons p l Hp) as [[-> _]|(ip & -> & E & _)]; [done|].
  intros [= <- <-]. by rewrite trim_space_idem, E.
Qed.

Lemma trimmed_rev l : trimmed (rev l) = rev (trimmed l).
Proof. unfold trimmed. by rewrite List.map_rev, List.filter_rev. Qed.

Lemma trimmed_nil_unresolved l : Forall entry_ok l -> trimmed l = [] -> xff_untrusted tp_ipnets (rev l) = None.
Proof.
  intros Hl E. pose proof (walks_agree (rev l) (List.Forall_rev Hl)) as H. by rewrite trimmed_rev, E in H.
Qed.

End Resolvers.

(** The router's ClientIP and clientip.Extract name the same client for a
    request with an X-Forwarded-For header and no other forwarding header,
    whatever the chain of trusted and untrusted hops, when every entry that is
    not blank is an address. *)
Theorem resolvers_agree tp r remoteIP ip :
  parseRemoteIP (RemoteAddr r) = Some ip -> ParseIP (trim_space remoteIP) = Some ip ->
  Get (Header r) "Forwarded" = "" -> Get (Header r) "X-Real-Ip" = "" ->
  Forall entry_ok (split_on "," (Get (Header r) "X-Forwarded-For")) ->
  Extract r (tp_ipnets tp) = ParseIP (trim_space (ClientIP tp remoteIP (Get (Header r) "X-Forwarded-For"))).
Proof.
  intros Hr Hr' Hf Hx Hok. set (xff := Get (Header r) "X-Forwarded-For") in *.
  unfold Extract, ClientIP. rewrite Hr, Hf, Hx, (tp_Contains_parsed tp remoteIP ip) by done.
  fold xff. unfold tp_ipnets at 1. rewrite length_fmap. destruct (_ || _); [done|]. cbn [String.eqb].
  unfold splitXFF. destruct (String.eqb xff ""); [done|]. fold (trimmed (split_on "," xff)).
  unfold resolveXFF. rewrite leftmost_agree by done.
  destruct (trimmed (split_on "," xff)) as [|first rest] eqn:E.
  - by rewrite trimmed_nil_unresolved.
  - pose proof (walks_agree tp _ (List.Forall_rev Hok)) as H. rewrite trimmed_rev, E in H.
    destruct (tp_walk tp (rev (first :: rest))) as [s|]; [destruct H as [Hs [x Hs']]; by rewrite Hs, Hs'|]. rewrite H.
    destruct (trimmed_first_parses _ _ _ Hok E) as [x ->]. done.
Qed.

(** ** The trusted networks *)

Lemma print_quad_plain a : quad a -> all_bytes is_plain (print_quad a) = true.
Proof.
  intros [Hl Hb]. destruct a as [|w [|x [|y [|z [|]]]]]; try done.
  repeat (apply Forall_cons in Hb as [? Hb]). unfold print_quad. cbn [fmap list_fmap join].
  rewrite !all_bytes_app, !itoa_plain by lia. done.
Qed.

Lemma print_quad_free c a : is_digit c = false -> c <> "."%char -> quad a -> contains_byte c (print_quad a) = false.
Proof.
  intros Hc Hd [Hl Hb]. apply contains_join.
  - cbn [contains_byte]. destruct (Ascii.eqb_spec "." c); [by subst|done].
  - apply Forall_fmap. eapply Forall_impl; [exact Hb|]. intros v Hv. cbn beta in Hv. apply itoa_free; [done|lia].
Qed.

Lemma print_quad_ne a : quad a -> print_quad a <> "".
Proof.
  intros [Hl _]. destruct a as [|w [|x [|y [|z [|]]]]]; try done. unfold print_quad. csimpl. cbn [join].
  destruct (itoa_cons w) as (c & s & ->). done.
Qed.

Lemma index_byte_app c s t : contains_byte c s = false -> index_byte c (s +:+ String c t) = Some (String.length s).
Proof.
  induction s as [|a s IH]; cbn [contains_byte index_byte String.append String.length].
  - by rewrite Ascii.eqb_refl.
  - intros [-> Hs]%orb_false_iff. by rewrite IH.
Qed.

Lemma parse_cidr_entry a n :
  quad a -> 0 <= n <= 32 ->
  parse_entry (print_quad a +:+ String "/" (itoa n)) = Ok (mkIPNet (Mask (mapped a) (CIDRMask n 4)) (CIDRMask n 4)).
Proof.
  intros Ha Hn. unfold parse_entry.
  rewrite trim_space_plain by (rewrite all_bytes_app, print_quad_plain by done; cbn [all_bytes andb]; by rewrite itoa_plain by lia).
  destruct (String.eqb_spec (print_quad a +:+ String "/" (itoa n)) "") as [E|_]; [by destruct (print_quad a)|].
  rewrite contains_byte_app. cbn [contains_byte Ascii.eqb Bool.eqb]. rewrite orb_true_r.
  unfold ParseCIDR. rewrite index_byte_app by (by apply print_quad_free).
  rewrite str_take_app, parse_print_quad by done.
  change (S (String.length (print_quad a))) with (1 + String.length (print_quad a))%nat.
  replace (str_drop (1 + String.length (print_quad a)) (print_quad a +:+ String "/" (itoa n))) with (itoa n).
  - destruct (itoa_cons n) as (c & s & E). rewrite E, <- E, digits_val_itoa_all by lia.
    rewrite (proj1 Ha). destruct (Z.ltb_spec (8 * Z.of_nat 4) n); [lia|]. unfold as16. by rewrite (proj1 Ha).
  - clear. induction (print_quad a) as [|c s IH]; [done|exact IH].
Qed.

Lemma parse_host_entry a :
  quad a -> parse_entry (print_quad a) = Ok (mkIPNet (mapped a) (CIDRMask 32 4)).
Proof.
  intros Ha. unfold parse_entry. rewrite trim_space_plain by (by apply print_quad_plain).
  destruct (String.eqb_spec (print_quad a) "") as [E|_]; [by apply print_quad_ne in E|].
  rewrite print_quad_free by done. unfold ParseIP. rewrite parse_print_quad by done. cbn [fmap option_fmap option_map].
  unfold as16. rewrite (proj1 Ha). cbn [Nat.eqb]. by rewrite To4_mapped by apply Ha.
Qed.

Lemma host_mask_equal a b : quad a -> quad b -> masked_equal a b (CIDRMask 32 4) <-> a = b.
Proof.
  intros [La Ba] [Lb Bb].
  destruct a as [|a0 [|a1 [|a2 [|a3 [|]]]]]; try done. destruct b as [|b0 [|b1 [|b2 [|b3 [|]]]]]; try done.
  repeat (apply Forall_cons in Ba as [? Ba]). repeat (apply Forall_cons in Bb as [? Bb]).
  unfold masked_equal. change (CIDRMask 32 4) with [255; 255; 255; 255]. cbn [zip_with].
  rewrite !land_255 by done. rewrite !Forall2_cons. split; [intuition congruence|].
  intros [= -> -> -> ->]. intuition constructor.
Qed.

(** A configured entry trusts exactly its block: "a.b.c.d/n" is accepted
    and contains an IPv4 address, in 4-byte or IPv6-mapped form, exactly when
    the two have the same leading n bits, and a bare address contains only
    itself. *)
Theorem trusted_entry_is_its_block a b n :
  quad a -> quad b -> 0 <= n <= 32 ->
  (exists nets, ParseCIDRs [print_quad a +:+ String "/" (itoa n)] = Ok nets
    /\ (ipInNets (mapped b) nets = true <-> bytes_num a / 2 ^ (32 - n) = bytes_num b / 2 ^ (32 - n)))
  /\ (exists nets, ParseCIDRs [print_quad a] = Ok nets /\ (ipInNets (mapped b) nets = true <-> a = b)).
Proof.
  intros Ha Hb Hn. split; cbn [ParseCIDRs].
  - rewrite parse_cidr_entry by done. eexists. split; [reflexivity|]. cbn [ipInNets existsb]. rewrite orb_false_r.
    rewrite (contains_masked a b (CIDRMask n 4)) by (apply Ha || apply Hb || apply length_CIDRMask || by left).
    apply (mask_keeps_leading_bits 4); by apply Ha || apply Hb || lia.
  - rewrite parse_host_entry by done. eexists. split; [reflexivity|]. cbn [ipInNets existsb]. rewrite orb_false_r.
    rewrite (contains_masked a b (CIDRMask 32 4)) by (apply Ha || apply Hb || apply length_CIDRMask || by right).
    by apply host_mask_equal.
Qed.

Lemma trusted_entry_is_its_block_witness :
  exists nets, ParseCIDRs ["10.1.0.0/16"] = Ok nets /\ ipInNets (mapped [10; 1; 200; 7]) nets = true.
Proof.
  destruct (trusted_entry_is_its_block [10; 1; 0; 0] [10; 1; 200; 7] 16) as [(nets & H & Hb) _].
  - split; [reflexivity|]. repeat (apply Forall_cons; split; [lia|]). by apply Forall_nil.
  - split; [reflexivity|]. repeat (apply Forall_cons; split; [lia|]). by apply Forall_nil.
  - lia.
  - exists nets. split; [exact H|]. apply Hb. reflexivity.
Defined.

Lemma resolvers_agree_witness :
  Extract spoofed_request (tp_ipnets (mkTrusted (omap id proxies)))
  = ParseIP (trim_space (ClientIP (mkTrusted (omap id proxies)) "10.0.0.2" "127.0.0.1, 203.0.113.9, 10.0.0.1")).
Proof.
  apply (resolvers_agree (mkTrusted (omap id proxies)) spoofed_request "10.0.0.2" (mapped [10; 0; 0; 2]));
    [vm_compute; reflexivity..|].
  replace (split_on "," (Get (Header spoofed_request) "X-Forwarded-For"))
    with ["127.0.0.1"; " 203.0.113.9"; " 10.0.0.1"] by (vm_compute; reflexivity).
  repeat (apply Forall_cons; split; [right; eexists; vm_compute; reflexivity|]). by apply Forall_nil.
Defined.

(** ** What the walk does not see *)

(** A client behind proxies that append only to X-Forwarded-For, and pass a
    Forwarded header on, chooses the address it is taken for. *)
Lemma client_forges_with_forwarded :
  Extract (mkRequest "10.0.0.2:4711"
             {[ "X-Forwarded-For" := ["203.0.113.9"]; "Forwarded" := ["for=1.2.3.4"] ]}) proxies
  = Some (mapped [1; 2; 3; 4]).
Proof. by vm_compute. Qed.

(** A hop written with its port is not an address for resolveXFF: it is passed
    over, and an entry the client wrote is returned instead. *)
Lemma hop_with_port_is_passed_over :
  Extract (mkRequest "10.0.0.2:4711" {[ "X-Forwarded-For" := ["127.0.0.1, 203.0.113.9:50000"] ]}) proxies
  = Some (mapped [127; 0; 0; 1]).
Proof. by vm_compute. Qed.

(** Only the first line of a repeated header is read. *)
Lemma second_header_line_is_not_read :
  Extract (mkRequest "10.0.0.2:4711" {[ "X-Forwarded-For" := ["127.0.0.1"; "203.0.113.9"] ]}) proxies
  = Some (mapped [127; 0; 0; 1]).
Proof. by vm_compute. Qed.

(** An entry that is no address ends the router's walk and not clientip's. *)
Lemma resolvers_differ_on_unknown :
  let r := mkRequest "10.0.0.2:4711" {[ "X-Forwarded-For" := ["203.0.113.9, unknown"] ]} in
  Extract r proxies = Some (mapped [203; 0; 113; 9])
  /\ ClientIP (mkTrusted (omap id proxies)) "10.0.0.2" "203.0.113.9, unknown" = "unknown".
Proof. by vm_compute. Qed.
