(* ===== verification/RateLimit.v ===== *)
(** * Rate limiting by key

    Models keyedRateLimiter of router/rate_limit.go and the request path of
    newRateLimitByKey: the bounded map of per-key limiters, the lookup with its
    read-locked fast path and its double check under the write lock, the
    eviction of the least recently used entry, the periodic cleanup, and what a
    request does with the entry after the lock is released.

    Requests run concurrently and keep a pointer to their entry, which another
    request may evict meanwhile: the map holds pointers into [heap].  A request
    is a small state machine whose steps are its critical sections and atomic
    accesses, and a schedule is any interleaving of steps of requests and
    cleanup passes.  The token bucket of golang.org/x/time/rate, float64
    arithmetic included, is a parameter ([Limiters]). *)

From S2P Require Import Prelude.
Local Open Scope string_scope.
Local Open Scope list_scope.
Local Open Scope Z_scope.

Class Limiters := {
  Rate : Type;
  Limiter : Type;
  (** rate.Limit(float64(requests) / window.Seconds()) *)
  rate_Limit : Z -> Z -> Rate;
  NewLimiter : Rate -> Z -> Limiter;
  (** Allow at a clock reading. *)
  lim_Allow : Limiter -> Z -> Limiter * bool;
  (** int(Tokens()) at a clock reading. *)
  lim_Tokens : Limiter -> Z -> Z;
  (** int(d.Seconds()) *)
  int_seconds : Z -> Z
}.

Section limiter.
Context `{LM : Limiters}.

Record limiterEntry := mkEntry { limiter : Limiter; lastAccess : Z; windowStart : Z }.

Definition maxRateLimitEntries : Z := 100000.

Record keyedRateLimiter := mkKrl {
  limiters : gmap string nat;
  rate : Rate;
  burst : Z;
  window : Z;
  (** The allocated entries, by pointer. *)
  heap : gmap nat limiterEntry;
  next_ptr : nat
}.

Definition newKeyedRateLimiter (requests window burst : Z) : keyedRateLimiter :=
  mkKrl ∅ (rate_Limit requests window) burst window ∅ 0.

Definition with_map krl m : keyedRateLimiter :=
  mkKrl m (rate krl) (burst krl) (window krl) (heap krl) (next_ptr krl).
Definition with_heap krl h : keyedRateLimiter :=
  mkKrl (limiters krl) (rate krl) (burst krl) (window krl) h (next_ptr krl).

Definition access now (en : limiterEntry) : limiterEntry := mkEntry (limiter en) now (windowStart en).

Definition last_access krl (p : nat) : Z :=
  match heap krl !! p with Some en => lastAccess en | None => 0 end.

(** The section under the read lock. *)
Definition getLimiter_read krl (key : string) (now : Z) : keyedRateLimiter * option nat :=
  match limiters krl !! key with
  | Some p => (with_heap krl (alter (access now) p (heap krl)), Some p)
  | None => (krl, None)
  end.

(** evictOldest, for the order the map is iterated in. *)
Fixpoint oldest krl (order : list string) (best : option (string * Z)) : option (string * Z) :=
  match order with
  | [] => best
  | key :: order' =>
      oldest krl order'
        match limiters krl !! key with
        | None => best
        | Some p =>
            let t := last_access krl p in
            match best with
            | None => Some (key, t)
            | Some (_, oldestTime) => if t <? oldestTime then Some (key, t) else best
            end
        end
  end.

Definition evictOldest krl (order : list string) : keyedRateLimiter :=
  match oldest krl order None with
  | Some (oldestKey, _) =>
      if String.eqb oldestKey "" then krl else with_map krl (delete oldestKey (limiters krl))
  | None => krl
  end.

(** The section under the write lock, with the double check; [order] is the
    order Go iterates over the map's keys in. *)
Definition getLimiter_write krl (key : string) (now : Z) (order : list string -> list string)
    : keyedRateLimiter * nat :=
  match limiters krl !! key with
  | Some p => (with_heap krl (alter (access now) p (heap krl)), p)
  | None =>
      let krl := if maxRateLimitEntries <=? Z.of_nat (size (limiters krl))
                 then evictOldest krl (order (map_to_list (limiters krl)).*1) else krl in
      let p := next_ptr krl in
      (mkKrl (<[key := p]> (limiters krl)) (rate krl) (burst krl) (window krl)
         (<[p := mkEntry (NewLimiter (rate krl) (burst krl)) now now]> (heap krl)) (S p), p)
  end.

(** One pass of the cleanup goroutine. *)
Definition stale krl (now : Z) (p : nat) : bool :=
  wrap64 (window krl * 2) <? wrap64 (now - last_access krl p).

Definition cleanup krl (now : Z) : keyedRateLimiter :=
  with_map krl (filter (fun kp => stale krl now kp.2 = false) (limiters krl)).

(** ** A request *)

Inductive Verdict :=
  | Passed (limit remaining resetUnix : Z)
  | Limited (retryAfter limit remaining resetUnix : Z).

Definition rateLimitError (limit remaining resetTime now : Z) : Verdict :=
  let retryAfter := int_seconds (resetTime - now) in
  let retryAfter := if retryAfter <? 1 then 1 else retryAfter in
  Limited retryAfter limit remaining (resetTime / SECOND).

Inductive request :=
  | RStart (key : string)
  | RMiss (key : string)
  | RHas (key : string) (p : nat)
  | RStore (key : string) (p : nat) (now : Z)
  | RReady (key : string) (p : nat) (resetTime : Z)
  | RAsked (key : string) (p : nat) (resetTime : Z) (allowed : bool)
  | RDone (key : string) (allowed : bool) (v : Verdict).

(** The middleware's request path after the skip function, one step at a time;
    the answer the limiter gave, when the step asked it. *)
Definition request_step (requests : Z) krl (now : Z) (order : list string -> list string) (r : request)
    : keyedRateLimiter * request * option (string * Z * bool) :=
  match r with
  | RStart key =>
      match getLimiter_read krl key now with
      | (krl, Some p) => (krl, RHas key p, None)
      | (krl, None) => (krl, RMiss key, None)
      end
  | RMiss key => let '(krl, p) := getLimiter_write krl key now order in (krl, RHas key p, None)
  | RHas key p =>
      match heap krl !! p with
      | None => (krl, r, None)
      | Some en =>
          if window krl <=? now - windowStart en then (krl, RStore key p now, None)
          else (krl, RReady key p (windowStart en + window krl), None)
      end
  | RStore key p now' =>
      (with_heap krl (alter (fun en => mkEntry (limiter en) (lastAccess en) now') p (heap krl)),
       RReady key p (now' + window krl), None)
  | RReady key p resetTime =>
      match heap krl !! p with
      | None => (krl, r, None)
      | Some en =>
          let '(l, allowed) := lim_Allow (limiter en) now in
          (with_heap krl (<[p := mkEntry l (lastAccess en) (windowStart en)]> (heap krl)),
           RAsked key p resetTime allowed, Some (key, now, allowed))
      end
  | RAsked key p resetTime allowed =>
      match heap krl !! p with
      | None => (krl, r, None)
      | Some en =>
          let tokens := Z.max 0 (lim_Tokens (limiter en) now) in
          (krl, RDone key allowed
                  (if allowed then Passed requests tokens (resetTime / SECOND)
                   else rateLimitError requests 0 resetTime now), None)
      end
  | RDone _ _ _ => (krl, r, None)
  end.

(** ** Schedules *)

Inductive action :=
  | Run (i : nat) (now : Z) (order : list string -> list string)
  | Cleanup (now : Z).

Record system := mkSystem {
  krl : keyedRateLimiter;
  reqs : list request;
  (** What the limiters answered, in order: key, time, answer. *)
  trace : list (string * Z * bool)
}.

Definition system_step (requests : Z) (s : system) (a : action) : system :=
  match a with
  | Cleanup now => mkSystem (cleanup (krl s) now) (reqs s) (trace s)
  | Run i now order =>
      match reqs s !! i with
      | None => s
      | Some r =>
          let '(k, r', ev) := request_step requests (krl s) now order r in
          mkSystem k (<[i := r']> (reqs s)) (trace s ++ option_list ev)
      end
  end.

Definition run (requests : Z) (s : system) (schedule : list action) : system :=
  foldl (system_step requests) s schedule.

Definition serving (requests window burst : Z) (keys : list string) : system :=
  mkSystem (newKeyedRateLimiter requests window burst) (RStart <$> keys) [].

(** What one limiter answers when asked at the given times. *)
Fixpoint answers (l : Limiter) (times : list Z) : list bool :=
  match times with
  | [] => []
  | t :: times' => let '(l, b) := lim_Allow l t in b :: answers l times'
  end.

Definition of_key (key : string) (tr : list (string * Z * bool)) : list (Z * bool) :=
  omap (fun ev => if String.eqb ev.1.1 key then Some (ev.1.2, ev.2) else None) tr.

(** ** One limiter per key *)

Definition lim_after (l : Limiter) (times : list Z) : Limiter :=
  foldl (fun l t => (lim_Allow l t).1) l times.

Lemma answers_snoc l times t :
  answers l (times ++ [t]) = answers l times ++ [(lim_Allow (lim_after l times) t).2].
Proof.
  revert l. induction times as [|t' times IH]; intros l; simpl.
  - by destruct (lim_Allow l t).
  - destruct (lim_Allow l t') as [l' b] eqn:E. simpl. by rewrite IH.
Qed.

Lemma of_key_app key tr tr' : of_key key (tr ++ tr') = of_key key tr ++ of_key key tr'.
Proof. apply omap_app. Qed.

Lemma of_key_one key key' t b :
  of_key key [(key', t, b)] = if String.eqb key' key then [(t, b)] else [].
Proof. unfold of_key. csimpl. by destruct (String.eqb key' key). Qed.

(** The entry a request holds, the key whose entry it has seen, and what it
    was answered. *)
Definition held (r : request) : option (string * nat) :=
  match r with
  | RHas key p | RStore key p _ | RReady key p _ | RAsked key p _ _ => Some (key, p)
  | _ => None
  end.

Definition created (r : request) : option string :=
  match r with
  | RStart _ | RMiss _ => None
  | RHas key _ | RStore key _ _ | RReady key _ _ | RAsked key _ _ _ | RDone key _ _ => Some key
  end.

Definition decided (r : request) : option (string * bool) :=
  match r with
  | RAsked key _ _ b | RDone key b _ => Some (key, b)
  | _ => None
  end.

(** What the map and the heap hold after the answers [tr], all clock readings
    being in [lo, hi]. *)
Record limiters_ok (l0 : Limiter) (lo hi : Z) (k : keyedRateLimiter) (tr : list (string * Z * bool))
    : Prop := {
  ok_new : NewLimiter (rate k) (burst k) = l0;
  ok_entry key p : limiters k !! key = Some p ->
    (p < next_ptr k)%nat
    /\ exists en, heap k !! p = Some en /\ lo <= lastAccess en <= hi
         /\ limiter en = lim_after l0 (of_key key tr).*1;
  ok_inj key key' p : limiters k !! key = Some p -> limiters k !! key' = Some p -> key = key';
  ok_unseen key : limiters k !! key = None -> of_key key tr = [];
  ok_answers key : (of_key key tr).*2 = answers l0 (of_key key tr).*1
}.

Record requests_ok (k : keyedRateLimiter) (rs : list request) (tr : list (string * Z * bool))
    : Prop := {
  ok_held i r key p : rs !! i = Some r -> held r = Some (key, p) -> limiters k !! key = Some p;
  ok_created key : is_Some (limiters k !! key) -> key ∈ omap created rs;
  ok_decided : omap decided rs ≡ₚ (fun ev => (ev.1.1, ev.2)) <$> tr
}.

(** Changing an entry but not its limiter. *)
Lemma limiters_ok_touch l0 lo hi k tr f p :
  limiters_ok l0 lo hi k tr -> (forall en, limiter (f en) = limiter en) ->
  (forall en, lo <= lastAccess en <= hi -> lo <= lastAccess (f en) <= hi) ->
  limiters_ok l0 lo hi (with_heap k (alter f p (heap k))) tr.
Proof.
  intros [Hn He Hi Hu Ha] Hl Hacc. split; simpl; try done.
  intros key q Hq. destruct (He key q Hq) as (Hlt & en & Hh & Hlo & Hlim). split; [done|].
  destruct (decide (p = q)) as [->|Hne].
  - exists (f en). rewrite lookup_alter_eq, Hh. rewrite Hl. auto.
  - exists en. rewrite lookup_alter_ne by done. auto.
Qed.

Lemma limiters_ok_create l0 lo hi k tr key now :
  limiters_ok l0 lo hi k tr -> limiters k !! key = None -> lo <= now <= hi ->
  limiters_ok l0 lo hi
    (mkKrl (<[key := next_ptr k]> (limiters k)) (rate k) (burst k) (window k)
       (<[next_ptr k := mkEntry (NewLimiter (rate k) (burst k)) now now]> (heap k))
       (S (next_ptr k))) tr.
Proof.
  intros [Hn He Hi Hu Ha] Hk Hlo.
  assert (Hold : forall key' p, limiters k !! key' = Some p -> p <> next_ptr k).
  { intros key' p Hp. destruct (He _ _ Hp). lia. }
  split; simpl; try done.
  - intros key' p. destruct (decide (key = key')) as [<-|Hne].
    + rewrite lookup_insert_eq. intros [= <-]. split; [lia|].
      eexists. rewrite lookup_insert_eq. split; [done|]. rewrite (Hu key Hk). by simpl.
    + rewrite lookup_insert_ne by done. intros Hp. destruct (He _ _ Hp) as (? & en & ? & ?).
      split; [lia|]. exists en. rewrite lookup_insert_ne; [done|].
      intros Heq. by apply (Hold _ _ Hp).
  - intros k1 k2 p.
    destruct (decide (key = k1)) as [<-|H1], (decide (key = k2)) as [<-|H2];
      rewrite ?lookup_insert_eq, ?lookup_insert_ne by done; try done.
    + intros [= <-] Hp. by apply Hold in Hp.
    + intros Hp [= <-]. by apply Hold in Hp.
    + apply Hi.
  - intros key' [Hne Hk']%lookup_insert_None. auto.
Qed.

Lemma limiters_ok_allow l0 lo hi k tr key p en now l b :
  limiters_ok l0 lo hi k tr -> limiters k !! key = Some p -> heap k !! p = Some en ->
  lim_Allow (limiter en) now = (l, b) ->
  limiters_ok l0 lo hi (with_heap k (<[p := mkEntry l (lastAccess en) (windowStart en)]> (heap k)))
    (tr ++ [(key, now, b)]).
Proof.
  intros [Hn He Hi Hu Ha] Hk Hp Hal.
  destruct (He _ _ Hk) as (Hlt & en' & Hp' & Hlo & Hlim). simplify_eq.
  split; simpl; try done.
  - intros key' q Hq. destruct (He _ _ Hq) as (? & en' & Hq' & ? & Hl'). split; [done|].
    rewrite of_key_app, of_key_one. destruct (String.eqb_spec key key') as [<-|Hne].
    + simplify_eq. eexists. rewrite lookup_insert_eq. split; [done|split; [done|]].
      rewrite fmap_app. unfold lim_after. rewrite foldl_app. simpl.
      fold (lim_after (NewLimiter (rate k) (burst k)) (of_key key tr).*1). by rewrite <- Hlim, Hal.
    + exists en'. rewrite app_nil_r, lookup_insert_ne; [done|]. intros ->. by apply Hne, (Hi _ _ q).
  - intros key' Hk'. rewrite of_key_app, of_key_one, (Hu _ Hk').
    destruct (String.eqb_spec key key') as [<-|]; [congruence|done].
  - intros key'. rewrite of_key_app, of_key_one. destruct (String.eqb_spec key key') as [<-|Hne].
    + rewrite !fmap_app. simpl. rewrite answers_snoc, Ha, <- Hlim, Hal. done.
    + by rewrite app_nil_r.
Qed.

Lemma requests_ok_step k k' rs tr ev i r r' :
  requests_ok k rs tr -> rs !! i = Some r ->
  (forall key p, limiters k !! key = Some p -> limiters k' !! key = Some p) ->
  (forall key p, held r' = Some (key, p) -> limiters k' !! key = Some p) ->
  (forall key, is_Some (limiters k' !! key) -> is_Some (limiters k !! key) \/ created r' = Some key) ->
  (created r = None \/ created r' = created r) ->
  match ev with
  | None => decided r' = decided r
  | Some (key, _, b) => decided r = None /\ decided r' = Some (key, b)
  end ->
  requests_ok k' (<[i := r']> rs) (tr ++ option_list ev).
Proof.
  intros [Hh Hc Hd] Hi Hgrow Hheld Hnew Hcr Hev. split.
  - intros j rj key p Hj Hrj. destruct (decide (i = j)) as [<-|Hne].
    + rewrite list_lookup_insert_eq in Hj by (by eapply lookup_lt_Some). simplify_eq. auto.
    + rewrite list_lookup_insert_ne in Hj by done. eauto.
  - intros key Hk. destruct (Hnew key Hk) as [Hold|Hr'].
    + specialize (Hc key Hold). destruct Hcr as [Hcr|Hcr].
      * destruct (created r') as [key'|] eqn:Hr'.
        -- rewrite (omap_insert_new created rs i r r' key') by done. by right.
        -- by rewrite (omap_insert_same created rs i r r') by congruence.
      * by rewrite (omap_insert_same created rs i r r').
    + rewrite (omap_insert created rs i r r' Hi), Hr'. set_solver.
  - rewrite fmap_app. destruct ev as [[[key t] b]|]; simpl.
    + destruct Hev as [H1 H2].
      rewrite (omap_insert_new decided rs i r r' (key, b)), Hd by done. apply Permutation_cons_append.
    + by rewrite app_nil_r, (omap_insert_same decided rs i r r').
Qed.

Lemma requests_ok_quiet k k' rs tr i r r' :
  requests_ok k rs tr -> rs !! i = Some r ->
  (forall key p, limiters k !! key = Some p -> limiters k' !! key = Some p) ->
  (forall key p, held r' = Some (key, p) -> limiters k' !! key = Some p) ->
  (forall key, is_Some (limiters k' !! key) -> is_Some (limiters k !! key) \/ created r' = Some key) ->
  (created r = None \/ created r' = created r) -> decided r' = decided r ->
  requests_ok k' (<[i := r']> rs) tr.
Proof.
  intros. rewrite <- (app_nil_r tr). by eapply (requests_ok_step _ _ _ _ None).
Qed.

(** The map has room while a request has still to create its entry. *)
Lemma room_for_one k rs tr i r :
  requests_ok k rs tr -> rs !! i = Some r -> created r = None ->
  (size (limiters k) < List.length rs)%nat.
Proof.
  intros [_ Hc _] Hi Hr. pose proof (length_omap_lt created rs i r Hi Hr) as Hlt.
  assert (Hsub : (map_to_list (limiters k)).*1 ⊆+ omap created rs).
  { apply NoDup_submseteq; [apply NoDup_fst_map_to_list|]. intros key Hk. by apply Hc, elem_of_keys. }
  apply submseteq_length in Hsub. rewrite length_fmap, length_map_to_list in Hsub. lia.
Qed.

Lemma request_step_ok requests l0 lo hi k rs tr i r now order k' r' ev :
  limiters_ok l0 lo hi k tr -> requests_ok k rs tr -> rs !! i = Some r -> lo <= now <= hi ->
  Z.of_nat (List.length rs) <= maxRateLimitEntries ->
  request_step requests k now order r = (k', r', ev) ->
  limiters_ok l0 lo hi k' (tr ++ option_list ev)
  /\ requests_ok k' (<[i := r']> rs) (tr ++ option_list ev) /\ window k' = window k.
Proof.
  intros Hl Hr Hi Hlo Hn Hs.
  assert (Hheld : forall key p, held r = Some (key, p) -> limiters k !! key = Some p)
    by (intros; eapply ok_held; eauto).
  destruct r as [key|key|key p|key p now'|key p reset|key p reset b|key b v]; simpl in Hs, Hheld.
  - unfold getLimiter_read in Hs.
    destruct (limiters k !! key) as [p|] eqn:Ek; simplify_eq; simpl; rewrite app_nil_r.
    + split; [by apply limiters_ok_touch|split; [|done]].
      eapply requests_ok_quiet; eauto; simpl; naive_solver.
    + split; [done|split; [|done]]. eapply requests_ok_quiet; eauto; simpl; naive_solver.
  - unfold getLimiter_write in Hs. destruct (limiters k !! key) as [p|] eqn:Ek.
    + simplify_eq. simpl. rewrite app_nil_r. split; [by apply limiters_ok_touch|split; [|done]].
      eapply requests_ok_quiet; eauto; simpl; naive_solver.
    + pose proof (room_for_one _ _ _ _ _ Hr Hi eq_refl) as Hroom.
      rewrite (proj2 (Z.leb_gt _ _)) in Hs by lia. simplify_eq. simpl. rewrite app_nil_r.
      split; [by apply limiters_ok_create|split; [|done]].
      eapply requests_ok_quiet; eauto; simpl; [| |intros key'].
      * intros key' p Hp. rewrite lookup_insert_ne by congruence. done.
      * intros key' p [= <- <-]. by rewrite lookup_insert_eq.
      * destruct (decide (key = key')) as [<-|Hne]; [by right|].
        rewrite lookup_insert_ne by done. by left.
  - specialize (Hheld key p eq_refl). destruct (ok_entry _ _ _ _ _ Hl _ _ Hheld) as (_ & en & He & _).
    rewrite He in Hs. destruct (_ <=? _); simplify_eq; simpl; rewrite app_nil_r;
      (split; [done|split; [|done]]); eapply requests_ok_quiet; eauto; simpl; naive_solver.
  - specialize (Hheld key p eq_refl). simplify_eq. simpl. rewrite app_nil_r.
    split; [by apply limiters_ok_touch|split; [|done]].
    eapply requests_ok_quiet; eauto; simpl; naive_solver.
  - specialize (Hheld key p eq_refl). destruct (ok_entry _ _ _ _ _ Hl _ _ Hheld) as (_ & en & He & _).
    rewrite He in Hs. destruct (lim_Allow (limiter en) now) as [l b] eqn:Ea. simplify_eq.
    split; [by eapply limiters_ok_allow|split; [|done]].
    eapply (requests_ok_step _ _ _ _ (Some (key, now, b))); eauto; simpl; naive_solver.
  - specialize (Hheld key p eq_refl). destruct (ok_entry _ _ _ _ _ Hl _ _ Hheld) as (_ & en & He & _).
    rewrite He in Hs. simplify_eq. simpl. rewrite app_nil_r. split; [done|split; [|done]].
    eapply requests_ok_quiet; eauto; simpl; naive_solver.
  - simplify_eq. simpl. rewrite app_nil_r, list_insert_id by done. done.
Qed.

(** Nothing is stale while the readings span at most two windows. *)
Lemma cleanup_keeps l0 lo hi k tr now :
  limiters_ok l0 lo hi k tr -> in_int64 lo -> in_int64 hi -> lo <= now <= hi ->
  hi - lo <= 2 * window k < two63 -> cleanup k now = k.
Proof.
  intros Hl Hlo Hhi Hnow Hw. unfold cleanup. rewrite map_filter_id; [by destruct k|].
  intros key p Hp. destruct (ok_entry _ _ _ _ _ Hl _ _ Hp) as (_ & en & He & Hen & _).
  unfold stale, last_access. simpl. rewrite He. apply Z.ltb_ge.
  rewrite !wrap64_small by width. lia.
Qed.

Definition action_within (lo hi : Z) (a : action) : Prop :=
  match a with Run _ now _ => lo <= now <= hi | Cleanup now => lo <= now <= hi end.

Lemma run_ok requests l0 lo hi schedule s :
  in_int64 lo -> in_int64 hi -> hi - lo <= 2 * window (krl s) < two63 ->
  Forall (action_within lo hi) schedule -> Z.of_nat (List.length (reqs s)) <= maxRateLimitEntries ->
  limiters_ok l0 lo hi (krl s) (trace s) -> requests_ok (krl s) (reqs s) (trace s) ->
  let s' := run requests s schedule in
  limiters_ok l0 lo hi (krl s') (trace s') /\ requests_ok (krl s') (reqs s') (trace s').
Proof.
  intros Hlo Hhi Hw Hsch. revert s Hw.
  induction Hsch as [|a schedule Ha _ IH]; intros s Hw Hn Hl Hr; [done|].
  unfold run. simpl. apply IH; clear IH; destruct a as [i now order|now]; simpl in *; try done;
    try (by rewrite (cleanup_keeps l0 lo hi (krl s) (trace s) now)).
  all: destruct (reqs s !! i) as [r|] eqn:Hi; [|done];
    destruct (request_step requests (krl s) now order r) as [[k' r'] ev] eqn:Es;
    destruct (request_step_ok requests l0 lo hi (krl s) (reqs s) (trace s) i r now order k' r' ev
                Hl Hr Hi Ha Hn Es) as (H1 & H2 & H3); simpl; rewrite ?length_insert, ?H3; done.
Qed.

(** every key has a limiter of its own, one at a time: however the steps
    of concurrent requests (fewer than the map's capacity) and of the cleanup
    interleave within two windows, the answers the requests of a key get are,
    in order, those of a single fresh token bucket asked at the same times,
    whatever the requests of other keys do; and each request that was answered
    carries exactly the answer its key's limiter gave it. *)
Theorem one_limiter_per_key requests window burst keys schedule lo hi :
  in_int64 lo -> in_int64 hi -> hi - lo <= 2 * window < two63 ->
  Forall (action_within lo hi) schedule -> Z.of_nat (List.length keys) <= maxRateLimitEntries ->
  let s := run requests (serving requests window burst keys) schedule in
  (forall key, (of_key key (trace s)).*2
               = answers (NewLimiter (rate_Limit requests window) burst) (of_key key (trace s)).*1)
  /\ omap decided (reqs s) ≡ₚ (fun ev => (ev.1.1, ev.2)) <$> trace s.
Proof.
  intros Hlo Hhi Hw Hsch Hn s.
  assert (Hs0 : forall i r, (RStart <$> keys) !! i = Some r -> exists key, r = RStart key).
  { intros i r. rewrite list_lookup_fmap. intros (key & _ & ->)%fmap_Some_1. eauto. }
  destruct (run_ok requests (NewLimiter (rate_Limit requests window) burst) lo hi schedule
              (serving requests window burst keys)) as [Hl Hr]; simpl; rewrite ?length_fmap; try done.
  - split; simpl.
    + intros i r key p Hi. by destruct (Hs0 _ _ Hi) as [? ->].
    + intros key [p Hp]. by rewrite lookup_empty in Hp.
    + clear. induction keys as [|key keys IH]; csimpl; done.
  - split; [apply (ok_answers _ _ _ _ _ Hl)|apply (ok_decided _ _ _ Hr)].
Qed.

(** ** The map is bounded *)

Lemma oldest_spec k order best :
  match oldest k order best with
  | Some (key, t) =>
      (best = Some (key, t)
       \/ key ∈ order /\ exists p, limiters k !! key = Some p /\ t = last_access k p)
      /\ (forall key' t', best = Some (key', t') -> t <= t')
      /\ forall key' p, key' ∈ order -> limiters k !! key' = Some p -> t <= last_access k p
  | None => best = None /\ forall key', key' ∈ order -> limiters k !! key' = None
  end.
Proof.
  revert best. induction order as [|key order IH]; intros best; simpl.
  { destruct best as [[key t]|]; [|set_solver].
    split; [by left|split; [|set_solver]]. intros key' t' [= <- <-]. lia. }
  destruct (limiters k !! key) as [p|] eqn:Ek.
  2:{ specialize (IH best). destruct (oldest k order best) as [[key1 t1]|].
      - destruct IH as (H1 & H2 & H3). split; [set_solver|split; [done|]].
        intros key' p' [->|Hin]%elem_of_cons Hp'; [congruence|eauto].
      - destruct IH as [H1 H2]. split; [done|]. intros key' [->|Hin]%elem_of_cons; auto. }
  assert (Hbest : exists key0 t0,
    match best with
    | None => Some (key, last_access k p)
    | Some (_, old) => if last_access k p <? old then Some (key, last_access k p) else best
    end = Some (key0, t0) /\ (best = Some (key0, t0) \/ key0 = key /\ t0 = last_access k p)
    /\ t0 <= last_access k p /\ forall key' t', best = Some (key', t') -> t0 <= t').
  { destruct best as [[key1 t1]|]; [destruct (Z.ltb_spec (last_access k p) t1)|];
      do 2 eexists; (split; [reflexivity|]); naive_solver lia. }
  destruct Hbest as (key0 & t0 & -> & Hor & Hle & Hb). specialize (IH (Some (key0, t0))).
  destruct (oldest k order (Some (key0, t0))) as [[key1 t1]|]; [|by destruct IH].
  destruct IH as (H1 & H2 & H3). specialize (H2 _ _ eq_refl). split_and!.
  - destruct H1 as [[= -> ->]|(? & ?)]; [|set_solver].
    destruct Hor as [?|[-> ->]]; [by left|]. right. split; [set_solver|eauto].
  - intros key' t' Hbe. specialize (Hb _ _ Hbe). lia.
  - intros key' p' [->|Hin]%elem_of_cons Hp'; [simplify_eq; lia|eauto].
Qed.

(** When the map is not empty and the empty string is not a key, exactly one
    least recently used entry is evicted. *)
Lemma evict_least_recent k order :
  order ≡ₚ (map_to_list (limiters k)).*1 -> limiters k <> ∅ -> limiters k !! "" = None ->
  exists key p, limiters k !! key = Some p
    /\ evictOldest k order = with_map k (delete key (limiters k))
    /\ forall key' p', limiters k !! key' = Some p' -> last_access k p <= last_access k p'.
Proof.
  intros Hord Hne Hempty.
  assert (Hin : forall key' p, limiters k !! key' = Some p -> key' ∈ order).
  { intros key' p Hp. rewrite Hord. apply elem_of_keys. eauto. }
  unfold evictOldest. pose proof (oldest_spec k order None) as Ho.
  destruct (oldest k order None) as [[key t]|].
  - destruct Ho as ([[=]|(_ & p & Hp & ->)] & _ & Hleast). exists key, p. split; [done|]. split; [|eauto].
    by destruct (String.eqb_spec key "") as [->|]; [congruence|].
  - destruct Ho as [_ Ho]. destruct Hne. apply map_empty. intros key'.
    destruct (limiters k !! key') as [p|] eqn:Hp; [|done]. by rewrite Ho in Hp by eauto.
Qed.

Definition req_key (r : request) : string :=
  match r with
  | RStart key | RMiss key | RHas key _ | RStore key _ _ | RReady key _ _ | RAsked key _ _ _
  | RDone key _ _ => key
  end.

Definition fair_order (a : action) : Prop :=
  match a with Run _ _ order => forall l, order l ≡ₚ l | Cleanup _ => True end.

Definition bounded (k : keyedRateLimiter) : Prop :=
  Z.of_nat (size (limiters k)) <= maxRateLimitEntries /\ limiters k !! "" = None.

Lemma write_bounded k key now order :
  bounded k -> key <> "" -> (forall l, order l ≡ₚ l) -> bounded (getLimiter_write k key now order).1.
Proof.
  intros [Hb He] Hk Ho. unfold getLimiter_write. destruct (limiters k !! key) as [p|] eqn:Ek; [done|].
  destruct (Z.leb_spec maxRateLimitEntries (Z.of_nat (size (limiters k)))) as [Hfull|Hroom].
  - destruct (evict_least_recent k (order (map_to_list (limiters k)).*1)) as (old & p & Hold & -> & _); [done| |done|].
    { intros Hemp. rewrite Hemp, map_size_empty in Hfull. unfold maxRateLimitEntries in Hfull. lia. }
    unfold bounded. simpl. rewrite map_size_insert_None by (by apply lookup_delete_None; right).
    rewrite map_size_delete_Some by eauto.
    assert (size (limiters k) <> 0)%nat by (apply map_size_ne_0_lookup; eauto).
    rewrite lookup_insert_ne by done. split; [lia|]. apply lookup_delete_None. by right.
  - unfold bounded. simpl. rewrite map_size_insert_None by done. rewrite lookup_insert_ne by done.
    split; [lia|done].
Qed.

Lemma request_step_bounded requests k now order r :
  bounded k -> req_key r <> "" -> (forall l, order l ≡ₚ l) ->
  bounded (request_step requests k now order r).1.1
  /\ req_key (request_step requests k now order r).1.2 = req_key r.
Proof.
  intros Hb Hk Ho. destruct r as [key|key|key p|key p now'|key p reset|key p reset b|key b v]; simpl in *.
  - unfold getLimiter_read. by destruct (limiters k !! key).
  - pose proof (write_bounded k key now order Hb Hk Ho).
    by destruct (getLimiter_write k key now order) as [k' p].
  - destruct (heap k !! p); [|done]. by destruct (_ <=? _).
  - done.
  - destruct (heap k !! p) as [en|]; [|done]. by destruct (lim_Allow (limiter en) now).
  - by destruct (heap k !! p).
  - done.
Qed.

Definition bounded_system (s : system) : Prop :=
  bounded (krl s) /\ Forall (fun r => req_key r <> "") (reqs s).

Lemma system_step_bounded requests s a :
  bounded_system s -> fair_order a -> bounded_system (system_step requests s a).
Proof.
  intros [Hb Hr] Ha. destruct a as [i now order|now]; simpl.
  - destruct (reqs s !! i) as [r|] eqn:Hi; [|done].
    pose proof (Forall_lookup_1 _ _ _ _ Hr Hi) as Hne.
    destruct (request_step_bounded requests (krl s) now order r Hb Hne Ha) as [Hb' Hk].
    destruct (request_step _ _ _ _ _) as [[k' r'] ev]. simpl in *.
    split; [done|]. apply Forall_insert; [done|]. by rewrite Hk.
  - destruct Hb as [Hb He]. split; [|done]. split; simpl; [|apply map_lookup_filter_None; by left].
    pose proof (map_subseteq_size _ _ (map_filter_subseteq (fun kp => stale (krl s) now kp.2 = false)
      (limiters (krl s)))). lia.
Qed.

(** the map of limiters is bounded: for keys other than the empty string,
    it never holds more than maxRateLimitEntries entries, through any
    interleaving of requests and cleanup, whatever the clock shows and in
    whatever order Go iterates over the map. *)
Theorem limiter_map_bounded requests window burst keys schedule :
  "" ∉ keys -> Forall fair_order schedule ->
  Z.of_nat (size (limiters (krl (run requests (serving requests window burst keys) schedule))))
  <= maxRateLimitEntries.
Proof.
  intros Hkeys Hsch.
  assert (Hgen : forall s, bounded_system s -> bounded_system (run requests s schedule)).
  { induction Hsch as [|a schedule Ha _ IH]; intros s Hs; [done|].
    by apply IH, system_step_bounded. }
  apply Hgen. split; simpl.
  - split; [done|apply lookup_empty].
  - apply Forall_fmap, Forall_forall. intros key Hin. simpl. by intros ->.
Qed.

(** The empty string is never evicted: while it is the least recently used key
    of a full map, every new key makes the map one larger. *)
Theorem empty_key_defeats_eviction k key now order p :
  limiters k !! "" = Some p -> limiters k !! key = None ->
  maxRateLimitEntries <= Z.of_nat (size (limiters k)) ->
  (forall key' p', limiters k !! key' = Some p' -> key' <> "" -> last_access k p < last_access k p') ->
  order (map_to_list (limiters k)).*1 ≡ₚ (map_to_list (limiters k)).*1 ->
  size (limiters (getLimiter_write k key now order).1) = S (size (limiters k)).
Proof.
  intros Hp Hk Hfull Hold Hord. unfold getLimiter_write. rewrite Hk, (proj2 (Z.leb_le _ _)) by done.
  assert (Hin : "" ∈ order (map_to_list (limiters k)).*1) by (rewrite Hord; apply elem_of_keys; eauto).
  unfold evictOldest. pose proof (oldest_spec k (order (map_to_list (limiters k)).*1) None) as Ho.
  destruct (oldest k _ None) as [[key1 t1]|].
  - destruct Ho as ([[=]|(_ & q & Hq & ->)] & _ & Hle). specialize (Hle "" p Hin Hp).
    destruct (String.eqb_spec key1 "") as [->|Hne]; [|specialize (Hold _ _ Hq Hne); lia].
    simpl. by rewrite map_size_insert_None.
  - destruct Ho as [_ Ho]. by rewrite Ho in Hp.
Qed.

End limiter.

(** ** A counter as a limiter: at most [burst] requests, ever. *)

#[export] Instance counting_limiters : Limiters := {
  Rate := unit;
  Limiter := Z;
  rate_Limit _ _ := tt;
  NewLimiter _ burst := burst;
  lim_Allow l _ := if 0 <? l then (l - 1, true) else (l, false);
  lim_Tokens l _ := l;
  int_seconds d := d / SECOND
}.

(** Two requests of a and one of b, the first two racing to create a's entry. *)
Definition race : list action :=
  (fun i => Run i 5 id) <$> [0; 1; 1; 0; 2; 2; 0; 1; 2; 1; 0; 2; 0; 1; 2]%nat.

Lemma race_within : Forall (action_within 0 10) race.
Proof. unfold race. repeat constructor; simpl; lia. Qed.

Lemma one_limiter_per_key_witness :
  let s := run 1 (serving 1 SECOND 1 ["a"; "a"; "b"]) race in
  (of_key "a" (trace s)).*2
  = answers (NewLimiter (rate_Limit 1 SECOND) 1) (of_key "a" (trace s)).*1
  /\ of_key "a" (trace s) = [(5, true); (5, false)] /\ of_key "b" (trace s) = [(5, true)].
Proof.
  assert (H0 : in_int64 0) by width. assert (H10 : in_int64 10) by width.
  assert (Hw : 10 - 0 <= 2 * SECOND < two63) by (unfold SECOND; width).
  assert (Hn : Z.of_nat (List.length ["a"; "a"; "b"]) <= maxRateLimitEntries) by (vm_compute; discriminate).
  pose proof (one_limiter_per_key 1 SECOND 1 ["a"; "a"; "b"] race 0 10 H0 H10 Hw race_within Hn) as [H _].
  split; [exact (H "a")|]. split; vm_compute; reflexivity.
Defined.

Lemma limiter_map_bounded_witness :
  let s := run 1 (serving 1 SECOND 1 ["a"; "a"; "b"]) race in
  Z.of_nat (size (limiters (krl s))) <= maxRateLimitEntries /\ size (limiters (krl s)) = 2%nat.
Proof.
  assert (Hk : "" ∉ ["a"; "a"; "b"]) by set_solver.
  assert (Hf : Forall fair_order race) by (unfold race; repeat constructor; simpl; done).
  pose proof (limiter_map_bounded 1 SECOND 1 ["a"; "a"; "b"] race Hk Hf) as H.
  split; [exact H|]. vm_compute. reflexivity.
Defined.
