(* ===== verification/SqlGrammar.v ===== *)
(** * The SQL grammars

    Models orm/drivers: the query structures of driver.go, identifier quoting
    (quote.go), the projection whitelist (select_validation.go), raw SQL values
    (raw_sql.go), registered operators (operator.go, with the registry of
    orm/postgres/postgres.go) and the compilation of SELECT, INSERT, UPDATE and
    DELETE statements by the PostgreSQL, MySQL and SQLite grammars.

    The three grammars are the same code up to the quoting byte, the form of a
    placeholder, the pinned timestamp expressions and three clauses; a
    [Dialect] is those differences.  A function that appends to the statement
    and to the arguments returns what it appends.  The map of an UPDATE is the
    list of its entries in the order Go iterates over it.  strconv.Quote, which
    only formats an error message, is a parameter. *)

From S2P Require Import Prelude GoStrings.
From Stdlib Require Import Ascii String.
Local Open Scope string_scope.
Local Open Scope list_scope.
Local Open Scope Z_scope.

(** ** Data *)

(** The dynamic type of a bound value, as far as the code inspects it: [Slice]
    is []any, [Typed] a slice or array of another element type. *)
Inductive Value :=
  | Nil
  | Raw (sql : string)
  | Slice (l : list Value)
  | Typed (l : list Value)
  | Str (s : string)
  | Bytes (s : string)
  | RawMessage (s : string)
  | Other (n : Z).

Inductive ParamShape := ParamScalar | ParamSlice | ParamJSON | ParamArray.

Record OperatorSpec := mkSpec { Op : string; Arity : Z; Shape : ParamShape; Template : string }.

Inductive Condition := mkCond {
  Column : string;
  Operator : string;
  Val : Value;
  Type_ : string;
  Group : list Condition;
  Spec : option OperatorSpec
}.

Record RawColumn := mkRawColumn { rc_Expr : string; rc_Args : list Value }.
Record Order := mkOrder { o_Column : string; o_Direction : string; o_Expr : string; o_Args : list Value }.
Record Join := mkJoin { j_Type : string; j_Table : string; j_On : string }.

Record SelectQuery := mkSelect {
  Table : string;
  Columns : list string;
  RawColumns : list RawColumn;
  Conditions : list Condition;
  Orders : list Order;
  Groups : list string;
  Having : list Condition;
  Limit : option Z;
  Offset : option Z;
  Joins : list Join;
  Distinct : bool;
  LockForUpdate : bool;
  SkipLocked : bool
}.

(** ** Dialects *)

Definition NOW : string := "NOW()".
Definition CurrentTimestamp : string := "CURRENT_TIMESTAMP".

Definition is_sentinel (raw : string) : bool := String.eqb raw NOW || String.eqb raw CurrentTimestamp.

Definition pgRawSQLExpr (raw : string) : string :=
  if is_sentinel raw then "(NOW() AT TIME ZONE 'UTC')" else raw.
Definition mysqlRawSQLExpr (raw : string) : string :=
  if is_sentinel raw then "UTC_TIMESTAMP()" else raw.
Definition sqliteRawSQLExpr (raw : string) : string :=
  if is_sentinel raw then "CURRENT_TIMESTAMP" else raw.

Definition dquote : ascii := "034".

Record Dialect := mkDialect {
  quote_byte : ascii;
  (** "$N" or "?" *)
  indexed : bool;
  rawSQLExpr : string -> string;
  returning_id : bool;
  row_locks : bool
}.

Definition Postgres : Dialect := mkDialect dquote true pgRawSQLExpr true true.
Definition MySQL : Dialect := mkDialect "`" false mysqlRawSQLExpr false true.
Definition SQLite : Dialect := mkDialect "`" false sqliteRawSQLExpr false false.

Definition dialects : list Dialect := [Postgres; MySQL; SQLite].

Definition dollarPlaceholder (n : Z) : string := String "$" (itoa n).
Definition questionPlaceholder : string := "?".

Definition placeholder (d : Dialect) (n : Z) : string :=
  if indexed d then dollarPlaceholder n else questionPlaceholder.

(** fmt's %d *)
Definition decimal (n : Z) : string := if n <? 0 then String "-" (itoa (- n)) else itoa n.

(** ** Quoting *)

Definition byte_str (c : ascii) : string := String c EmptyString.

Definition quoteSegment (q : ascii) (seg : string) : string :=
  byte_str q +:+ ReplaceAll seg (byte_str q) (String q (byte_str q)) +:+ byte_str q.

Definition quoteQualified (name : string) (quote : string -> string) : string :=
  join "." ((fun p => if String.eqb p "*" then p else quote p) <$> split_on "." name).

Definition QuoteIdentifier (d : Dialect) (name : string) : string :=
  quoteQualified name (quoteSegment (quote_byte d)).

(** ** The projection whitelist *)

Definition is_letter (c : ascii) : bool :=
  let v := byte_val c in ((97 <=? v) && (v <=? 122)) || ((65 <=? v) && (v <=? 90)).

Definition isWordByte (c : ascii) : bool := is_letter c || is_digit c || Ascii.eqb c "_".

Fixpoint keyword_from (skip : nat) (prev : option ascii) (kw s : string) : bool :=
  match s with
  | EmptyString => false
  | String a s' =>
      match skip with
      | S k => keyword_from k (Some a) kw s'
      | O =>
          if has_prefix kw s then
            if match prev with Some c => isWordByte c | None => false end
               || match String.get (String.length kw) s with Some c => isWordByte c | None => false end
            then keyword_from (Nat.pred (String.length kw)) (Some a) kw s'
            else true
          else keyword_from 0 (Some a) kw s'
      end
  end.

Definition containsKeyword (s kw : string) : bool := keyword_from 0 None kw s.

Definition forbiddenSelectTokens : list string :=
  ["'"; byte_str dquote; "`"; ";"; "--"; "/*"; "*/"; byte_str (ascii_of_nat 0);
   byte_str (ascii_of_nat 13); byte_str (ascii_of_nat 10)].

Definition forbiddenSelectKeywords : list string :=
  ["select"; "union"; "insert"; "update"; "delete"; "drop"; "truncate"; "exec"; "execute"; "from";
   "where"; "join"; "into"; "values"; "alter"; "create"; "grant"; "revoke"].

(** The longest prefix of bytes in a class, and the rest. *)
Fixpoint span (p : ascii -> bool) (s : string) : string * string :=
  match s with
  | EmptyString => (EmptyString, EmptyString)
  | String a s' => if p a then let '(x, y) := span p s' in (String a x, y) else (EmptyString, s)
  end.

Definition in_parens (c : ascii) : bool :=
  is_letter c || is_digit c || Ascii.eqb c "_" || Ascii.eqb c "*" || Ascii.eqb c "."
  || Ascii.eqb c "," || Ascii.eqb c " ".

(** \s of regexp: ASCII white space without vertical tab. *)
Definition re_space (c : ascii) : bool :=
  let v := byte_val c in (v =? 9) || (v =? 10) || (v =? 12) || (v =? 13) || (v =? 32).

(** The part of selectExprRegex after the closing parenthesis. *)
Definition alias_ok (s : string) : bool :=
  if String.eqb s "" then true
  else
    let '(ws, s) := span re_space s in
    if String.eqb ws "" then false
    else match s with
         | String a (String b s) =>
             if (Ascii.eqb a "A" || Ascii.eqb a "a") && (Ascii.eqb b "S" || Ascii.eqb b "s") then
               let '(ws, s) := span re_space s in
               let '(w, s) := span isWordByte s in
               negb (String.eqb ws "") && negb (String.eqb w "") && String.eqb s ""
             else false
         | _ => false
         end.

(** selectExprRegex: every class excludes the byte that ends it, so the match
    needs no backtracking. *)
Definition selectExpr (s : string) : bool :=
  existsb (fun f =>
    has_prefix (f +:+ "(") s
    && let '(_, rest) := span in_parens (str_drop (S (String.length f)) s) in
       match rest with String ")" rest => alias_ok rest | _ => false end)
    ["COUNT"; "SUM"; "AVG"; "MIN"; "MAX"].

Inductive SelectError :=
  | ForbiddenToken (col tok : string)
  | ForbiddenKeyword (col kw : string)
  | NotAggregate (col : string).

Definition ValidateSelectColumn (col : string) : option SelectError :=
  if String.eqb col "*" then None
  else match find (fun tok => contains_str tok col) forbiddenSelectTokens with
  | Some tok => Some (ForbiddenToken col tok)
  | None =>
      if negb (contains_byte "(" col) then None
      else
        let lower := to_lower col in
        match find (containsKeyword lower) forbiddenSelectKeywords with
        | Some kw => Some (ForbiddenKeyword col kw)
        | None => if selectExpr col then None else Some (NotAggregate col)
        end
  end.

Definition sanitizeForComment (s : string) : string :=
  let s := ReplaceAll s "*/" "* /" in
  let s := ReplaceAll s "/*" "/ *" in
  let s := ReplaceAll s (byte_str (ascii_of_nat 13)) " " in
  ReplaceAll s (byte_str (ascii_of_nat 10)) " ".

(** ** Registered operators *)

Definition postgresOperators : list (string * OperatorSpec) :=
  [("@>", mkSpec "@>" 1 ParamJSON "{{lhs}} @> {{rhs}}::jsonb");
   ("<@", mkSpec "<@" 1 ParamJSON "{{lhs}} <@ {{rhs}}::jsonb");
   ("?", mkSpec "?" 1 ParamScalar "{{lhs}} ? {{rhs}}");
   ("?|", mkSpec "?|" 1 ParamArray "{{lhs}} ?| {{rhs}}");
   ("?&", mkSpec "?&" 1 ParamArray "{{lhs}} ?& {{rhs}}");
   ("@@", mkSpec "@@" 1 ParamScalar "{{lhs}} @@ to_tsquery({{rhs}})");
   ("&&", mkSpec "&&" 1 ParamArray "{{lhs}} && {{rhs}}")].

(** [n] placeholders from index [idx] on, separated by ", ". *)
Fixpoint placeholders (d : Dialect) (n : nat) (idx : Z) : list string :=
  match n with
  | O => []
  | S n' => placeholder d idx :: placeholders d n' (idx + 1)
  end.

Definition bindOperatorValue (d : Dialect) (spec : OperatorSpec) (v : Value) (argIndex : Z)
    : string * list Value * Z :=
  match Shape spec, v with
  | ParamSlice, Slice ((_ :: _) as values) =>
      ("(" +:+ join ", " (placeholders d (List.length values) argIndex) +:+ ")", values,
       argIndex + Z.of_nat (List.length values))
  | ParamArray, Slice ((_ :: _) as values) =>
      ("ARRAY[" +:+ join ", " (placeholders d (List.length values) argIndex) +:+ "]", values,
       argIndex + Z.of_nat (List.length values))
  | _, _ => (placeholder d argIndex, [v], argIndex + 1)
  end.

Definition renderOperatorTemplate (d : Dialect) (spec : OperatorSpec) (column : string) (v : Value)
    (argIndex : Z) : string * list Value * Z :=
  let lhs := QuoteIdentifier d column in
  let '(rhs, args, nextIdx) := bindOperatorValue d spec v argIndex in
  let out := Template spec in
  let out := ReplaceAll out "{{lhs}}" lhs in
  let out := ReplaceAll out "{{op}}" (Op spec) in
  let out := ReplaceAll out "{{rhs}}" rhs in
  (out, args, nextIdx).

(** ** Conditions *)

(** A leaf with a built-in operator. *)
Definition compile_leaf (d : Dialect) (column operator : string) (v : Value) (argIndex : Z)
    : string * list Value * Z :=
  let is_in := String.eqb operator "IN" || String.eqb operator "NOT IN" in
  let values := match v with Slice l => l | _ => [] end in
  if is_in && match values with [] => true | _ => false end then
    (if String.eqb operator "IN" then "1 = 0" else "1 = 1", [], argIndex)
  else
    let head := QuoteIdentifier d column +:+ " " +:+ operator in
    if String.eqb operator "IS NULL" || String.eqb operator "IS NOT NULL" then (head, [], argIndex)
    else if is_in then
      (head +:+ " (" +:+ join ", " (placeholders d (List.length values) argIndex) +:+ ")", values,
       argIndex + Z.of_nat (List.length values))
    else if String.eqb operator "BETWEEN" || String.eqb operator "NOT BETWEEN" then
      match v with
      | Slice [a; b] =>
          (head +:+ " " +:+ placeholder d argIndex +:+ " AND " +:+ placeholder d (argIndex + 1),
           [a; b], argIndex + 2)
      | _ => (head, [], argIndex)
      end
    else (head +:+ " " +:+ placeholder d argIndex, [v], argIndex + 1).

(** The loop over a list of conditions, for the compilation of one. *)
Fixpoint conditions_loop (compile : Condition -> Z -> string * list Value * Z)
    (cs : list Condition) (first : bool) (argIndex : Z) : string * list Value * Z :=
  match cs with
  | [] => ("", [], argIndex)
  | c :: cs' =>
      let '(s, args, argIndex) := compile c argIndex in
      let s := if first then s else " " +:+ to_upper (Type_ c) +:+ " " +:+ s in
      let '(s', args', argIndex) := conditions_loop compile cs' false argIndex in
      (s +:+ s', args ++ args', argIndex)
  end.

Fixpoint compile_condition (d : Dialect) (c : Condition) (argIndex : Z) : string * list Value * Z :=
  match c with
  | mkCond column operator v _ group spec =>
      match group with
      | _ :: _ =>
          let '(s, args, argIndex) := conditions_loop (compile_condition d) group true argIndex in
          ("(" +:+ s +:+ ")", args, argIndex)
      | [] =>
          match spec with
          | Some spec => renderOperatorTemplate d spec column v argIndex
          | None => compile_leaf d column operator v argIndex
          end
      end
  end.

Definition compileConditions (d : Dialect) (cs : list Condition) (argIndex : Z)
    : string * list Value * Z :=
  conditions_loop (compile_condition d) cs true argIndex.

(** " WHERE ..." or " HAVING ...", nothing when there are no conditions. *)
Definition clause (d : Dialect) (keyword : string) (cs : list Condition) (argIndex : Z)
    : string * list Value :=
  match cs with
  | [] => ("", [])
  | _ => let '(s, args, _) := compileConditions d cs argIndex in (keyword +:+ s, args)
  end.

(** ** Statements *)

Fixpoint rewrite_from (inSingle inDouble : bool) (idx : Z) (expr : string) : string * Z :=
  match expr with
  | EmptyString => (EmptyString, idx)
  | String c s =>
      if Ascii.eqb c "'" && negb inDouble then
        let '(r, idx) := rewrite_from (negb inSingle) inDouble idx s in (String c r, idx)
      else if Ascii.eqb c dquote && negb inSingle then
        let '(r, idx) := rewrite_from inSingle (negb inDouble) idx s in (String c r, idx)
      else if Ascii.eqb c "?" && negb inSingle && negb inDouble then
        let '(r, idx') := rewrite_from inSingle inDouble (idx + 1) s in
        (dollarPlaceholder idx +:+ r, idx')
      else let '(r, idx) := rewrite_from inSingle inDouble idx s in (String c r, idx)
  end.

Definition rewriteQuestionMarksToDollar (expr : string) (startIdx : Z) : string * Z :=
  if negb (contains_byte "?" expr) then (expr, startIdx) else rewrite_from false false startIdx expr.

(** A trusted fragment in the dialect's placeholder form. *)
Definition raw_text (d : Dialect) (expr : string) (idx : Z) : string :=
  if indexed d then (rewriteQuestionMarksToDollar expr idx).1 else expr.

Definition list_sep (wrote : bool) : string := if wrote then ", " else "".

Fixpoint columns_text (d : Dialect) (cols : list string) (wrote : bool) : string :=
  match cols with
  | [] => ""
  | col :: cols' =>
      list_sep wrote
      +:+ (if contains_byte "(" col || String.eqb col "*" then col else QuoteIdentifier d col)
      +:+ columns_text d cols' true
  end.

Fixpoint raw_columns (d : Dialect) (raws : list RawColumn) (wrote : bool) (nargs : Z)
    : string * list Value :=
  match raws with
  | [] => ("", [])
  | raw :: raws' =>
      let s := list_sep wrote +:+ raw_text d (rc_Expr raw) (nargs + 1) in
      let '(s', args) := raw_columns d raws' true (nargs + Z.of_nat (List.length (rc_Args raw))) in
      (s +:+ s', rc_Args raw ++ args)
  end.

Fixpoint joins_text (d : Dialect) (joins : list Join) : string :=
  match joins with
  | [] => ""
  | j :: joins' =>
      " " +:+ j_Type j +:+ " JOIN " +:+ QuoteIdentifier d (j_Table j) +:+ " ON " +:+ j_On j
      +:+ joins_text d joins'
  end.

Fixpoint orders_text (d : Dialect) (orders : list Order) (wrote : bool) (nargs : Z)
    : string * list Value :=
  match orders with
  | [] => ("", [])
  | o :: orders' =>
      if negb (String.eqb (o_Expr o) "") then
        let s := list_sep wrote +:+ raw_text d (o_Expr o) (nargs + 1)
                 +:+ (if String.eqb (o_Direction o) "" then "" else " " +:+ o_Direction o) in
        let '(s', args) := orders_text d orders' true (nargs + Z.of_nat (List.length (o_Args o))) in
        (s +:+ s', o_Args o ++ args)
      else
        let s := list_sep wrote +:+ QuoteIdentifier d (o_Column o) +:+ " " +:+ o_Direction o in
        let '(s', args) := orders_text d orders' true nargs in
        (s +:+ s', args)
  end.

Definition group_clause (d : Dialect) (groups : list string) : string :=
  match groups with
  | [] => ""
  | _ => " GROUP BY " +:+ join ", " (QuoteIdentifier d <$> groups)
  end.

Definition order_clause (d : Dialect) (orders : list Order) (nargs : Z) : string * list Value :=
  match orders with
  | [] => ("", [])
  | os => let '(s, oargs) := orders_text d os false nargs in (" ORDER BY " +:+ s, oargs)
  end.

(** strconv.Quote, in the text of an error. *)
Class GoQuote := { Quote : string -> string }.

Section statements.
Context `{GQ : GoQuote}.

Definition error_text (e : SelectError) : string :=
  match e with
  | ForbiddenToken col tok =>
      "orm: select column " +:+ Quote col +:+ " contains forbidden token " +:+ Quote tok
  | ForbiddenKeyword col kw =>
      "orm: select column " +:+ Quote col +:+ " contains forbidden keyword " +:+ Quote kw
  | NotAggregate col =>
      "orm: select column " +:+ Quote col
      +:+ " is not a permitted aggregate expression; use SelectRaw for arbitrary SQL"
  end.

(** The error of the first column that is not valid. *)
Fixpoint first_invalid (cols : list string) : option SelectError :=
  match cols with
  | [] => None
  | col :: cols' =>
      match ValidateSelectColumn col with Some e => Some e | None => first_invalid cols' end
  end.

Definition poison (e : SelectError) : string :=
  "/* orm: rejected select column: " +:+ sanitizeForComment (error_text e)
  +:+ " */ SELECT 1 WHERE 1=0".

Definition nonempty {A} (l : list A) : bool := match l with [] => false | _ => true end.

Definition limit_text (q : SelectQuery) : string :=
  match Limit q with Some n => " LIMIT " +:+ decimal n | None => "" end.
Definition offset_text (q : SelectQuery) : string :=
  match Offset q with Some n => " OFFSET " +:+ decimal n | None => "" end.
Definition lock_text (d : Dialect) (q : SelectQuery) : string :=
  if row_locks d && LockForUpdate q
  then " FOR UPDATE" +:+ (if SkipLocked q then " SKIP LOCKED" else "") else "".

Definition CompileSelect (d : Dialect) (q : SelectQuery) : string * list Value :=
  match first_invalid (Columns q) with
  | Some e => (poison e, [])
  | None =>
      let head := "SELECT " +:+ (if Distinct q then "DISTINCT " else "") in
      let cols := columns_text d (Columns q) false in
      let '(raws, args) := raw_columns d (RawColumns q) (nonempty (Columns q)) 0 in
      let star := if nonempty (Columns q) || nonempty (RawColumns q) then "" else "*" in
      let from := " FROM " +:+ QuoteIdentifier d (Table q) +:+ joins_text d (Joins q) in
      let '(whereText, wargs) := clause d " WHERE " (Conditions q) (Z.of_nat (List.length args) + 1) in
      let args := args ++ wargs in
      let groups := group_clause d (Groups q) in
      let '(having, hargs) := clause d " HAVING " (Having q) (Z.of_nat (List.length args) + 1) in
      let args := args ++ hargs in
      let '(orders, oargs) := order_clause d (Orders q) (Z.of_nat (List.length args)) in
      (head +:+ cols +:+ raws +:+ star +:+ from +:+ whereText +:+ groups +:+ having +:+ orders
         +:+ limit_text q +:+ offset_text q +:+ lock_text d q,
       args ++ oargs)
  end.

(** A value of an INSERT or UPDATE: raw SQL in place, anything else bound. *)
Definition bind_value (d : Dialect) (v : Value) (argIndex : Z) : string * list Value * Z :=
  match v with
  | Raw raw => (rawSQLExpr d raw, [], argIndex)
  | _ => (placeholder d argIndex, [v], argIndex + 1)
  end.

Fixpoint row_values (d : Dialect) (row : list Value) (wrote : bool) (argIndex : Z)
    : string * list Value * Z :=
  match row with
  | [] => ("", [], argIndex)
  | v :: row' =>
      let '(s, args, argIndex) := bind_value d v argIndex in
      let '(s', args', argIndex) := row_values d row' true argIndex in
      (list_sep wrote +:+ s +:+ s', args ++ args', argIndex)
  end.

Fixpoint insert_rows (d : Dialect) (rows : list (list Value)) (wrote : bool) (argIndex : Z)
    : string * list Value :=
  match rows with
  | [] => ("", [])
  | row :: rows' =>
      let '(s, args, argIndex) := row_values d row false argIndex in
      let '(s', args') := insert_rows d rows' true argIndex in
      (list_sep wrote +:+ "(" +:+ s +:+ ")" +:+ s', args ++ args')
  end.

Definition CompileInsert (d : Dialect) (table : string) (columns : list string)
    (values : list (list Value)) : string * list Value :=
  let cols := match columns with
              | [] => ""
              | _ => " (" +:+ join ", " (QuoteIdentifier d <$> columns) +:+ ")"
              end in
  let '(rows, args) := insert_rows d values false 1 in
  ("INSERT INTO " +:+ QuoteIdentifier d table +:+ cols +:+ " VALUES " +:+ rows
     +:+ (if returning_id d then " RETURNING id" else ""), args).

Fixpoint set_list (d : Dialect) (values : list (string * Value)) (wrote : bool) (argIndex : Z)
    : string * list Value * Z :=
  match values with
  | [] => ("", [], argIndex)
  | (column, v) :: values' =>
      let '(s, args, argIndex) := bind_value d v argIndex in
      let '(s', args', argIndex) := set_list d values' true argIndex in
      (list_sep wrote +:+ QuoteIdentifier d column +:+ " = " +:+ s +:+ s', args ++ args', argIndex)
  end.

Definition CompileUpdate (d : Dialect) (table : string) (values : list (string * Value))
    (conditions : list Condition) : string * list Value :=
  let '(sets, args, argIndex) := set_list d values false 1 in
  let '(whereText, wargs) := clause d " WHERE " conditions argIndex in
  ("UPDATE " +:+ QuoteIdentifier d table +:+ " SET " +:+ sets +:+ whereText, args ++ wargs).

Definition CompileDelete (d : Dialect) (table : string) (conditions : list Condition)
    : string * list Value :=
  let '(whereText, args) := clause d " WHERE " conditions 1 in
  ("DELETE FROM " +:+ QuoteIdentifier d table +:+ whereText, args).

(** RETURNING the primary key (PostgreSQL only). *)
Definition CompileUpdateReturning (table : string) (values : list (string * Value))
    (conditions : list Condition) (pkCol : string) : string * list Value :=
  let '(sql, args) := CompileUpdate Postgres table values conditions in
  (sql +:+ " RETURNING " +:+ QuoteIdentifier Postgres pkCol, args).

Definition CompileDeleteReturning (table : string) (conditions : list Condition) (pkCol : string)
    : string * list Value :=
  let '(sql, args) := CompileDelete Postgres table conditions in
  (sql +:+ " RETURNING " +:+ QuoteIdentifier Postgres pkCol, args).

End statements.

(** ** The two other grammars *)

Definition MySQL_QuoteIdentifier : string -> string := QuoteIdentifier MySQL.
Definition MySQL_compileConditions : list Condition -> Z -> string * list Value * Z := compileConditions MySQL.
Definition MySQL_CompileSelect `{GoQuote} : SelectQuery -> string * list Value := CompileSelect MySQL.
Definition MySQL_CompileInsert : string -> list string -> list (list Value) -> string * list Value :=
  CompileInsert MySQL.
Definition MySQL_CompileUpdate : string -> list (string * Value) -> list Condition -> string * list Value :=
  CompileUpdate MySQL.
Definition MySQL_CompileDelete : string -> list Condition -> string * list Value := CompileDelete MySQL.

Definition SQLite_QuoteIdentifier : string -> string := QuoteIdentifier SQLite.
Definition SQLite_compileConditions : list Condition -> Z -> string * list Value * Z := compileConditions SQLite.
Definition SQLite_CompileSelect `{GoQuote} : SelectQuery -> string * list Value := CompileSelect SQLite.
Definition SQLite_CompileInsert : string -> list string -> list (list Value) -> string * list Value :=
  CompileInsert SQLite.
Definition SQLite_CompileUpdate : string -> list (string * Value) -> list Condition -> string * list Value :=
  CompileUpdate SQLite.
Definition SQLite_CompileDelete : string -> list Condition -> string * list Value := CompileDelete SQLite.
