(* ===== verification/SqlSpec.v ===== *)
(** * What a compiled statement looks like to the database

    A scanner reads a statement the way the database does, as far as
    placeholders go: quoted regions are skipped, "$" followed by digits is a
    numbered placeholder (PostgreSQL) and "?" a positional one (MySQL, SQLite).
    The theorem: in every statement the grammars compile, quoting is balanced
    and the placeholders are, from left to right, exactly one per argument, in
    order, whatever bytes the identifiers and the bound values hold. *)

From S2P Require Import Prelude GoStrings SqlGrammar.
From Stdlib Require Import Ascii String.
Local Open Scope string_scope.
Local Open Scope list_scope.
Local Open Scope Z_scope.

(** ** The scanner *)

Inductive mode := Plain | Num | Quoted (q : ascii).

Definition is_quote (d : Dialect) (c : ascii) : bool :=
  Ascii.eqb c "'" || Ascii.eqb c dquote || Ascii.eqb c (quote_byte d).

(** Outside quotes and numbers; the placeholders seen so far, last first. *)
Definition plain_step (d : Dialect) (ev : list Z) (c : ascii) : mode * list Z :=
  if is_quote d c then (Quoted c, ev)
  else if indexed d then if Ascii.eqb c "$" then (Num, 0 :: ev) else (Plain, ev)
  else if Ascii.eqb c "?" then (Plain, 0 :: ev) else (Plain, ev).

Definition scan_step (d : Dialect) (st : mode * list Z) (c : ascii) : mode * list Z :=
  let '(m, ev) := st in
  match m with
  | Quoted q => if Ascii.eqb c q then (Plain, ev) else (m, ev)
  | Num =>
      match digit_val c, ev with
      | Some k, n :: ev' => (Num, 10 * n + k :: ev')
      | _, _ => plain_step d ev c
      end
  | Plain => plain_step d ev c
  end.

Fixpoint scan (d : Dialect) (st : mode * list Z) (s : string) : mode * list Z :=
  match s with
  | EmptyString => st
  | String c s' => scan d (scan_step d st c) s'
  end.

Definition safe (m : mode) : Prop := m = Plain \/ m = Num.

(** The placeholders of a statement are [l] and no quote is left open. *)
Definition lexes (d : Dialect) (sql : string) (l : list Z) : Prop :=
  exists m, safe m /\ scan d (Plain, []) sql = (m, rev l).

(** [n] placeholders from index [idx] on, as the scanner sees them. *)
Definition numbering (d : Dialect) (idx : Z) (n : nat) : list Z :=
  if indexed d then seqZ idx (Z.of_nat n) else replicate n 0.

(** ** Pieces of a statement *)

Lemma scan_app d st s t : scan d st (s +:+ t) = scan d (scan d st s) t.
Proof. revert st. induction s as [|c s IH]; intros st; [done|]. simpl. apply IH. Qed.

(** From outside quotes, [s] yields the placeholders [l] and ends outside;
    [plain] does not end in a number either. *)
Definition frag (d : Dialect) (s : string) (l : list Z) : Prop :=
  forall ev, exists m, safe m /\ scan d (Plain, ev) s = (m, rev l ++ ev).
Definition plain (d : Dialect) (s : string) (l : list Z) : Prop :=
  forall ev, scan d (Plain, ev) s = (Plain, rev l ++ ev).

(** [s] does not continue a number. *)
Definition starts (s : string) : Prop :=
  match s with EmptyString => False | String c _ => digit_val c = None end.

Lemma plain_frag d s l : plain d s l -> frag d s l.
Proof. intros H ev. exists Plain. split; [by left|apply H]. Qed.

Lemma scan_starts d s ev m : starts s -> safe m -> scan d (m, ev) s = scan d (Plain, ev) s.
Proof.
  intros Hs [->| ->]; [done|]. destruct s as [|c s]; [done|]. simpl in *. by rewrite Hs.
Qed.

Lemma frag_app d a la b lb :
  frag d a la -> starts b -> frag d b lb -> frag d (a +:+ b) (la ++ lb).
Proof.
  intros Ha Hb Hfb ev. destruct (Ha ev) as (m & Hm & Ea). rewrite scan_app, Ea.
  rewrite scan_starts by done. destruct (Hfb (rev la ++ ev)) as (m' & Hm' & ->).
  exists m'. split; [done|]. by rewrite rev_app_distr, <- app_assoc.
Qed.

Lemma plain_app_frag d a la b lb :
  plain d a la -> frag d b lb -> frag d (a +:+ b) (la ++ lb).
Proof.
  intros Ha Hb ev. rewrite scan_app, Ha. destruct (Hb (rev la ++ ev)) as (m' & Hm' & ->).
  exists m'. split; [done|]. by rewrite rev_app_distr, <- app_assoc.
Qed.

Lemma frag_app_plain d a la b lb :
  frag d a la -> starts b -> plain d b lb -> plain d (a +:+ b) (la ++ lb).
Proof.
  intros Ha Hb Hfb ev. destruct (Ha ev) as (m & Hm & Ea). rewrite scan_app, Ea.
  rewrite scan_starts by done. rewrite Hfb. by rewrite rev_app_distr, <- app_assoc.
Qed.

Lemma plain_app d a la b lb : plain d a la -> plain d b lb -> plain d (a +:+ b) (la ++ lb).
Proof.
  intros Ha Hb ev. rewrite scan_app, Ha, Hb. by rewrite rev_app_distr, <- app_assoc.
Qed.

Lemma plain_then d a b l : plain d a [] -> frag d b l -> frag d (a +:+ b) l.
Proof. apply (plain_app_frag d a []). Qed.

Lemma plain_both d a b : plain d a [] -> plain d b [] -> plain d (a +:+ b) [].
Proof. apply (plain_app d a [] b []). Qed.

Lemma frag_then d a b l : frag d a l -> starts b -> plain d b [] -> frag d (a +:+ b) l.
Proof.
  intros Ha Hs Hb. rewrite <- (app_nil_r l). apply frag_app; [done|done|]. by apply plain_frag.
Qed.

Lemma starts_app a b : starts a -> starts (a +:+ b).
Proof. by destruct a. Qed.

Lemma frag_nil d : frag d "" [].
Proof. intros ev. exists Plain. split; [by left|done]. Qed.

Lemma frag_empty d l : frag d "" l -> l = [].
Proof.
  intros Hf. destruct (Hf []) as (m & _ & E). simpl in E. injection E as _ E.
  destruct l as [|x l]; [done|]. apply (f_equal List.length) in E.
  rewrite length_app, length_rev in E. simpl in E. lia.
Qed.

(** A piece that can follow anything, or nothing at all. *)
Definition piece (d : Dialect) (s : string) (l : list Z) : Prop :=
  (s = "" /\ l = []) \/ (starts s /\ frag d s l).

Lemma frag_piece d a la b lb : frag d a la -> piece d b lb -> frag d (a +:+ b) (la ++ lb).
Proof.
  intros Ha [[-> ->]|[Hs Hb]]; [|by apply frag_app]. by rewrite append_nil_r, app_nil_r.
Qed.

Lemma piece_app d a la b lb : piece d a la -> piece d b lb -> piece d (a +:+ b) (la ++ lb).
Proof.
  intros [[-> ->]|[Hs Ha]] Hb; [exact Hb|]. right.
  split; [by apply starts_app|]. by apply frag_piece.
Qed.

(** A keyword in front makes a piece of any fragment. *)
Lemma keyword_piece d k s l : starts k -> plain d k [] -> frag d s l -> piece d (k +:+ s) l.
Proof.
  intros Hk Hp Hs. right. split; [by apply starts_app|]. by apply plain_then.
Qed.

(** ** Text without quotes and placeholders *)

Definition inert (d : Dialect) (c : ascii) : bool :=
  negb (is_quote d c) && negb (Ascii.eqb c (if indexed d then "$" else "?")%char).

(** Bytes no dialect reacts to. *)
Definition neutral (c : ascii) : bool :=
  negb (Ascii.eqb c "'" || Ascii.eqb c dquote || Ascii.eqb c "`" || Ascii.eqb c "$" || Ascii.eqb c "?").

Lemma inert_plain d s : all_bytes (inert d) s = true -> plain d s [].
Proof.
  induction s as [|c s IH]; intros Hs ev; [done|]. simpl in Hs.
  apply andb_true_iff in Hs as [[Hq Hc]%andb_true_iff Hs]. simpl. unfold plain_step.
  rewrite (proj1 (negb_true_iff _) Hq). apply negb_true_iff in Hc.
  destruct (indexed d); rewrite Hc; by apply IH.
Qed.

Lemma neutral_inert d c : d ∈ dialects -> neutral c = true -> inert d c = true.
Proof.
  unfold neutral, inert, is_quote. rewrite negb_true_iff, !orb_false_iff.
  intros Hd ((((H1 & H2) & H3) & H4) & H5). rewrite H1, H2. unfold dialects in Hd.
  rewrite !elem_of_cons, elem_of_nil in Hd. destruct Hd as [->|[->|[->|[]]]]; simpl; by rewrite ?H2, ?H3, ?H4, ?H5.
Qed.

Lemma neutral_plain d s : d ∈ dialects -> all_bytes neutral s = true -> plain d s [].
Proof. intros Hd Hs. apply inert_plain. eapply all_bytes_impl; [|exact Hs]. intros c. by apply neutral_inert. Qed.

Lemma digit_not_quote d c : d ∈ dialects -> is_digit c = true -> neutral c = true.
Proof.
  intros _ Hc. unfold neutral. apply negb_true_iff. rewrite !orb_false_iff.
  repeat split; apply not_true_is_false; intros ->%Ascii.eqb_eq; discriminate.
Qed.

Lemma decimal_plain d n : d ∈ dialects -> plain d (decimal n) [].
Proof.
  intros Hd. apply neutral_plain; [done|]. unfold decimal.
  assert (Hi : forall k, 0 <= k -> all_bytes neutral (itoa k) = true).
  { intros k Hk. eapply all_bytes_impl; [|by apply itoa_digits]. intros c. by apply (digit_not_quote d). }
  destruct (Z.ltb_spec n 0); [|by apply Hi]. simpl. apply Hi. lia.
Qed.

(** ** Quoted identifiers *)

Lemma quote_is_quote d : is_quote d (quote_byte d) = true.
Proof. unfold is_quote. rewrite Ascii.eqb_refl. by rewrite !orb_true_r. Qed.

Lemma replace_byte_cons (c q : ascii) s :
  ReplaceAll (String c s) (byte_str q) (String q (byte_str q))
  = if Ascii.eqb c q then String q (String q (ReplaceAll s (byte_str q) (String q (byte_str q))))
    else String c (ReplaceAll s (byte_str q) (String q (byte_str q))).
Proof.
  unfold ReplaceAll, byte_str. cbn [replace_from has_prefix]. rewrite Ascii.eqb_sym, andb_true_r.
  destruct (Ascii.eqb_spec c q) as [->|]; done.
Qed.

(** The content of a quoted identifier cannot leave the quotes. *)
Lemma scan_quoted d s ev :
  let q := quote_byte d in
  scan d (Quoted q, ev) (ReplaceAll s (byte_str q) (String q (byte_str q))) = (Quoted q, ev).
Proof.
  intros q. induction s as [|c s IH]; [done|]. rewrite replace_byte_cons.
  destruct (Ascii.eqb_spec c q) as [->|Hne]; cbn [scan scan_step].
  - rewrite Ascii.eqb_refl. cbn [scan_step]. unfold plain_step. subst q. rewrite quote_is_quote. apply IH.
  - apply Ascii.eqb_neq in Hne. rewrite Hne. apply IH.
Qed.

Lemma segment_plain d seg : plain d (quoteSegment (quote_byte d) seg) [].
Proof.
  intros ev. unfold quoteSegment, byte_str at 1. cbn [append scan scan_step].
  unfold plain_step. rewrite quote_is_quote, scan_app, scan_quoted.
  simpl. by rewrite Ascii.eqb_refl.
Qed.

Lemma quoted_name_plain d name : d ∈ dialects -> plain d (QuoteIdentifier d name) [].
Proof.
  intros Hd. unfold QuoteIdentifier, quoteQualified. generalize (split_on "." name). intros parts.
  assert (Hseg : forall p, plain d (if String.eqb p "*" then p else quoteSegment (quote_byte d) p) []).
  { intros p. destruct (String.eqb_spec p "*") as [->|]; [by apply neutral_plain|apply segment_plain]. }
  induction parts as [|p parts IH]; [by intros ev|]. rewrite fmap_cons.
  destruct parts as [|p' parts]; [apply Hseg|]. rewrite join_cons by done.
  apply plain_both; [apply Hseg|].
  apply plain_both; [by apply neutral_plain|apply IH].
Qed.

Lemma quoted_name_starts d name : d ∈ dialects -> starts (QuoteIdentifier d name).
Proof.
  intros Hd. unfold QuoteIdentifier, quoteQualified. pose proof (split_on_ne "." name) as Hne.
  destruct (split_on "." name) as [|p parts]; [done|].
  assert (Hs : starts (if String.eqb p "*" then p else quoteSegment (quote_byte d) p)).
  { destruct (String.eqb_spec p "*") as [->|]; [done|].
    unfold dialects in Hd. rewrite !elem_of_cons, elem_of_nil in Hd.
    destruct Hd as [->|[->|[->|[]]]]; done. }
  rewrite fmap_cons. destruct parts; [done|]. rewrite join_cons by done. by apply starts_app.
Qed.

(** ** Placeholders *)

Lemma scan_number d s n ev k :
  all_bytes is_digit s = true -> digits_val n s = Some k ->
  scan d (Num, n :: ev) s = (Num, k :: ev).
Proof.
  revert n. induction s as [|c s IH]; intros n Hs Hv; simpl in *; [by simplify_eq|].
  apply andb_true_iff in Hs as [_ Hs]. destruct (digit_val c); [|done]. by apply IH.
Qed.

Lemma placeholder_frag d idx : 0 <= idx -> d ∈ dialects -> frag d (placeholder d idx) (numbering d idx 1).
Proof.
  intros Hi Hd ev. unfold dialects in Hd. rewrite !elem_of_cons, elem_of_nil in Hd.
  destruct Hd as [->|[->|[->|[]]]].
  - exists Num. split; [by right|].
    change (scan Postgres (Plain, ev) (placeholder Postgres idx))
      with (scan Postgres (Num, 0 :: ev) (itoa idx)).
    rewrite (scan_number Postgres (itoa idx) 0 ev idx); [done|by apply itoa_digits|by apply digits_val_itoa_all].
  - exists Plain. split; [by left|done].
  - exists Plain. split; [by left|done].
Qed.

Lemma placeholder_starts d idx : starts (placeholder d idx).
Proof. unfold placeholder. by destruct (indexed d). Qed.

Lemma numbering_app d idx n m :
  numbering d idx (n + m) = numbering d idx n ++ numbering d (idx + Z.of_nat n) m.
Proof.
  unfold numbering. destruct (indexed d).
  - rewrite Nat2Z.inj_add, seqZ_app by lia. done.
  - by rewrite replicate_add.
Qed.

Lemma placeholders_frag d n idx :
  0 <= idx -> d ∈ dialects -> frag d (join ", " (placeholders d n idx)) (numbering d idx n).
Proof.
  intros Hi Hd. revert idx Hi. induction n as [|n IH]; intros idx Hi; cbn [placeholders].
  { unfold numbering. destruct (indexed d); apply frag_nil. }
  destruct n as [|n]; [by apply placeholder_frag|].
  rewrite join_cons by done. change (S (S n)) with (1 + S n)%nat. rewrite numbering_app.
  apply frag_piece; [by apply placeholder_frag|].
  apply keyword_piece; [done|by apply neutral_plain|]. apply IH. lia.
Qed.

(** ** Trusted fragments *)

(** The dialect read with "?" as the placeholder. *)
Definition as_question (d : Dialect) : Dialect :=
  mkDialect (quote_byte d) false (rawSQLExpr d) (returning_id d) (row_locks d).

Fixpoint no_glued (s : string) : bool :=
  match s with
  | EmptyString => true
  | String a s' =>
      negb (Ascii.eqb a "?" && match s' with String b _ => is_digit b | _ => false end) && no_glued s'
  end.

(** A raw fragment: quoting is balanced and it has [n] placeholders "?"; where
    they are renumbered, it has no "$" of its own and no "?" glued to a
    digit. *)
Definition raw_ok (d : Dialect) (expr : string) (n : nat) : Prop :=
  scan (as_question d) (Plain, []) expr = (Plain, replicate n 0)
  /\ (indexed d = true -> contains_byte "$" expr = false /\ no_glued expr = true).

Lemma scan_events d m ev s : indexed d = false -> m <> Num ->
  scan d (m, ev) s = ((scan d (m, []) s).1, (scan d (m, []) s).2 ++ ev)
  /\ (scan d (m, []) s).1 <> Num.
Proof.
  intros Hd. revert m ev. induction s as [|c s IH]; intros m ev Hm; [done|]. cbn [scan].
  assert (Hstep : exists m' e, m' <> Num /\ forall ev, scan_step d (m, ev) c = (m', e ++ ev)).
  { unfold scan_step, plain_step. rewrite Hd. destruct m as [| |q]; [|done|].
    - destruct (is_quote d c); [by exists (Quoted c), []|].
      destruct (Ascii.eqb c "?"); [by exists Plain, [0]|by exists Plain, []].
    - destruct (Ascii.eqb c q); [by exists Plain, []|by exists (Quoted q), []]. }
  destruct Hstep as (m' & e & Hm' & Hs). rewrite !Hs, app_nil_r.
  destruct (IH m' (e ++ ev) Hm') as [E1 H1]. destruct (IH m' e Hm') as [E2 _].
  rewrite E1, E2. simpl. by rewrite app_assoc.
Qed.

Lemma rev_replicate n (x : Z) : rev (replicate n x) = replicate n x.
Proof.
  induction n as [|n IH]; [done|]. simpl. rewrite IH. change [x] with (replicate 1 x).
  rewrite <- replicate_add. by rewrite Nat.add_comm.
Qed.

Lemma raw_question_plain d expr n :
  indexed d = false -> raw_ok d expr n -> plain d expr (replicate n 0).
Proof.
  intros Hi [Hs _] ev. replace d with (as_question d) at 1 by (destruct d; simpl in *; by subst).
  destruct (scan_events (as_question d) Plain ev expr eq_refl ltac:(done)) as [-> _].
  rewrite Hs. simpl. by rewrite rev_replicate.
Qed.

(** *** Renumbering *)

Definition mode_of (inSingle inDouble : bool) : mode :=
  if inSingle then Quoted "'" else if inDouble then Quoted dquote else Plain.

(** Outside quotes the renumbered text may be behind a number. *)
Definition tracks (m M : mode) : Prop := M = m \/ (m = Plain /\ M = Num).

Lemma seqZ_cons_shift idx k : 0 <= k -> rev (seqZ idx (1 + k)) = rev (seqZ (idx + 1) k) ++ [idx].
Proof. intros Hk. rewrite seqZ_cons by lia. simpl. do 3 f_equal; lia. Qed.

(** Any byte but a placeholder moves both readings alike. *)
Lemma quiet_step c inS inD ev M e :
  (inS && inD) = false -> tracks (mode_of inS inD) M -> (M = Num -> digit_val c = None) ->
  Ascii.eqb c "$" = false -> (Ascii.eqb c "?" && negb inS && negb inD) = false ->
  let inS' := if Ascii.eqb c "'" && negb inD then negb inS else inS in
  let inD' := if Ascii.eqb c "'" && negb inD then inD
              else if Ascii.eqb c dquote && negb inS then negb inD else inD in
  (inS' && inD') = false
  /\ scan_step (as_question Postgres) (mode_of inS inD, e) c = (mode_of inS' inD', e)
  /\ scan_step Postgres (M, ev) c = (mode_of inS' inD', ev).
Proof.
  intros HSD Htr HM Hd Hq.
  assert (Hdiff : Ascii.eqb c "'" = true -> Ascii.eqb c dquote = false) by (by intros ->%Ascii.eqb_eq).
  assert (HP : scan_step Postgres (M, ev) c = scan_step Postgres (mode_of inS inD, ev) c).
  { destruct Htr as [->|[Hm ->]]; [done|]. rewrite Hm. simpl. by rewrite HM. }
  rewrite HP. clear HP Htr HM.
  destruct inS, inD; try discriminate; cbn [mode_of negb andb scan_step] in *;
    unfold plain_step, is_quote, as_question; cbn [quote_byte indexed Postgres]; rewrite ?andb_true_r, ?andb_false_r in *.
  - by destruct (Ascii.eqb c "'").
  - by destruct (Ascii.eqb c dquote).
  - destruct (Ascii.eqb c "'") eqn:E1; [apply Ascii.eqb_eq in E1 as ->; done|].
    destruct (Ascii.eqb c dquote) eqn:E2; [apply Ascii.eqb_eq in E2 as ->; done|].
    rewrite Hd, Hq. done.
Qed.

Lemma rewrite_scan expr : forall inS inD idx ev M,
  (inS && inD) = false -> 0 <= idx -> contains_byte "$" expr = false -> no_glued expr = true ->
  tracks (mode_of inS inD) M -> (M = Num -> expr = "" \/ starts expr) ->
  let '(m, e) := scan (as_question Postgres) (mode_of inS inD, []) expr in
  exists M', tracks m M'
    /\ scan Postgres (M, ev) (rewrite_from inS inD idx expr).1
       = (M', rev (seqZ idx (Z.of_nat (List.length e))) ++ ev).
Proof.
  induction expr as [|c s IH]; intros inS inD idx ev M HSD Hidx Hdol Hgl Htr Hst.
  { simpl. by exists M. }
  cbn [no_glued] in Hgl. apply andb_true_iff in Hgl as [Hg Hgl].
  cbn [contains_byte] in Hdol. apply orb_false_iff in Hdol as [Hd Hdol].
  assert (HM : M = Num -> digit_val c = None) by (intros HM; by destruct (Hst HM)).
  destruct (Ascii.eqb c "?" && negb inS && negb inD) eqn:Eq.
  - apply andb_true_iff in Eq as [[Ec%Ascii.eqb_eq ES%negb_true_iff]%andb_true_iff ED%negb_true_iff].
    subst c inS inD.
    assert (Hr : (rewrite_from false false idx (String "?" s)).1
                 = dollarPlaceholder idx +:+ (rewrite_from false false (idx + 1) s).1).
    { cbn [rewrite_from]. change (Ascii.eqb "?" "'") with false.
      change (Ascii.eqb "?" dquote) with false. change (Ascii.eqb "?" "?") with true.
      cbn [andb negb]. by destruct (rewrite_from false false (idx + 1) s). }
    rewrite Hr. clear Hr. cbn [scan].
    change (scan_step (as_question Postgres) (mode_of false false, []) "?") with (Plain, [0]).
    destruct (scan_events (as_question Postgres) Plain [0] s eq_refl ltac:(done)) as [-> _].
    specialize (IH false false (idx + 1) (idx :: ev) Num eq_refl ltac:(lia) Hdol Hgl).
    destruct (scan (as_question Postgres) (mode_of false false, []) s) as [m e] eqn:Em.
    change (mode_of false false) with Plain in Em. rewrite Em. cbn [fst snd].
    destruct IH as (M' & HM' & HE); [by right| |].
    { intros _. destruct s as [|b s]; [by left|right]. simpl in Hg |- *. unfold is_digit in Hg.
      unfold digit_val. by rewrite (proj1 (negb_true_iff _) Hg). }
    exists M'. split; [done|]. rewrite scan_app.
    replace (scan Postgres (M, ev) (dollarPlaceholder idx)) with (Num, idx :: ev).
    + rewrite HE, length_app. simpl List.length. rewrite Nat.add_comm.
      change (1 + List.length e)%nat with (S (List.length e)).
      rewrite Nat2Z.inj_succ, <- Z.add_1_l, seqZ_cons_shift by lia. by rewrite <- app_assoc.
    + symmetry. unfold dollarPlaceholder. cbn [scan].
      replace (scan_step Postgres (M, ev) "$") with (Num, 0 :: ev).
      * apply scan_number; [by apply itoa_digits|by apply digits_val_itoa_all].
      * by destruct Htr as [->|[_ ->]].
  - destruct (quiet_step c inS inD ev M [] HSD Htr HM Hd Eq) as (HSD' & Hs1 & Hs2).
    set (inS' := if Ascii.eqb c "'" && negb inD then negb inS else inS) in *.
    set (inD' := if Ascii.eqb c "'" && negb inD then inD
                 else if Ascii.eqb c dquote && negb inS then negb inD else inD) in *.
    cbn [scan]. rewrite Hs1.
    assert (Hr : (rewrite_from inS inD idx (String c s)).1 = String c (rewrite_from inS' inD' idx s).1).
    { cbn [rewrite_from]. rewrite Eq. subst inS' inD'.
      destruct (Ascii.eqb c "'" && negb inD); [by destruct (rewrite_from (negb inS) inD idx s)|].
      destruct (Ascii.eqb c dquote && negb inS); [by destruct (rewrite_from inS (negb inD) idx s)|].
      by destruct (rewrite_from inS inD idx s). }
    rewrite Hr. cbn [scan]. rewrite Hs2. apply IH; try done; [by left|].
    unfold mode_of. by destruct inS', inD'.
Qed.

Lemma rewrite_no_hole inS inD idx expr :
  contains_byte "?" expr = false -> rewrite_from inS inD idx expr = (expr, idx).
Proof.
  revert inS inD. induction expr as [|c s IH]; intros inS inD Hc; [done|].
  cbn [contains_byte] in Hc. apply orb_false_iff in Hc as [Hc Hs]. cbn [rewrite_from].
  rewrite Hc, !IH by done. cbn [andb]. by repeat case_match.
Qed.

Lemma dialect_cases d : d ∈ dialects -> d = Postgres \/ (indexed d = false /\ (d = MySQL \/ d = SQLite)).
Proof.
  unfold dialects. rewrite !elem_of_cons, elem_of_nil. intros [->|[->|[->|[]]]]; auto.
Qed.

Lemma raw_text_frag d expr n idx :
  d ∈ dialects -> raw_ok d expr n -> 0 <= idx -> frag d (raw_text d expr idx) (numbering d idx n).
Proof.
  intros Hd Hr Hi. unfold raw_text, numbering.
  destruct (dialect_cases d Hd) as [->|[Hq _]].
  - destruct Hr as [Hs Hr]. destruct (Hr eq_refl) as [Hdol Hgl]. intros ev. cbn [indexed Postgres].
    pose proof (rewrite_scan expr false false idx ev Plain eq_refl Hi Hdol Hgl (or_introl eq_refl)
                  ltac:(done)) as Hscan.
    change (mode_of false false) with Plain in Hscan. rewrite Hs, length_replicate in Hscan.
    destruct Hscan as (M' & HM & HE). exists M'. split.
    { destruct HM as [->|[_ ->]]; [by left|by right]. }
    unfold rewriteQuestionMarksToDollar. destruct (contains_byte "?" expr) eqn:Eq; [exact HE|].
    by rewrite rewrite_no_hole in HE.
  - rewrite Hq. by apply plain_frag, raw_question_plain.
Qed.

(** ** Registered operators *)

Lemma replace_skip old new a b :
  contains_byte "{" a = false ->
  ReplaceAll (a +:+ b) (String "{" old) new = a +:+ ReplaceAll b (String "{" old) new.
Proof.
  unfold ReplaceAll. induction a as [|c a IH]; intros Ha; [done|].
  cbn [contains_byte] in Ha. apply orb_false_iff in Ha as [Hc Ha].
  cbn [append replace_from has_prefix]. rewrite Ascii.eqb_sym, Hc. cbn [andb]. by rewrite IH.
Qed.

Lemma contains_byte_join c sep l :
  contains_byte c sep = false -> Forall (fun s => contains_byte c s = false) l ->
  contains_byte c (join sep l) = false.
Proof.
  intros Hs. induction 1 as [|s l Hc Hl IH]; [done|]. destruct l; [done|].
  rewrite join_cons by done. by rewrite !contains_byte_app, Hc, Hs.
Qed.

Lemma replace_byte_free c q s :
  Ascii.eqb q c = false -> contains_byte c s = false ->
  contains_byte c (ReplaceAll s (byte_str q) (String q (byte_str q))) = false.
Proof.
  intros Hq. induction s as [|a s IH]; intros Hs; [done|]. rewrite replace_byte_cons.
  cbn [contains_byte] in Hs. apply orb_false_iff in Hs as [Ha Hs].
  destruct (Ascii.eqb a q); cbn [contains_byte]; by rewrite ?Hq, ?Ha, IH.
Qed.

(** Quoting adds no byte but quotes and dots. *)
Lemma quoted_name_free d c name :
  Ascii.eqb (quote_byte d) c = false -> Ascii.eqb "." c = false -> contains_byte c name = false ->
  contains_byte c (QuoteIdentifier d name) = false.
Proof.
  intros Hq Hdot Hn. unfold QuoteIdentifier, quoteQualified.
  apply contains_byte_join; [cbn [contains_byte]; by rewrite Hdot|].
  assert (Hparts : Forall (fun p => contains_byte c p = false) (split_on "." name)).
  { clear Hq. induction name as [|a s IH]; [by repeat constructor|]. cbn [contains_byte] in Hn.
    apply orb_false_iff in Hn as [Ha Hs]. specialize (IH Hs). cbn [split_on].
    destruct (Ascii.eqb a "."); [by constructor|].
    destruct (split_on "." s) as [|p ps]; [repeat constructor; cbn [contains_byte]; by rewrite Ha|].
    apply Forall_cons in IH as [Hp Hps]. constructor; [|done]. cbn [contains_byte]. by rewrite Ha. }
  apply Forall_fmap. eapply Forall_impl; [exact Hparts|]. intros p Hp. simpl.
  destruct (String.eqb p "*"); [done|]. unfold quoteSegment, byte_str at 1.
  rewrite !contains_byte_app, replace_byte_free by done. unfold byte_str. cbn [contains_byte]. by rewrite Hq.
Qed.

(** The text between the two substitutions and after the second. *)
Definition template_ok (spec : OperatorSpec) (mid post : string) : Prop :=
  Template spec = "{{lhs}}" +:+ mid +:+ "{{rhs}}" +:+ post
  /\ contains_byte "{" mid = false /\ contains_byte "{" post = false
  /\ all_bytes (inert Postgres) mid = true /\ all_bytes (inert Postgres) post = true
  /\ starts mid /\ (post = "" \/ starts post).

Lemma registered_templates spec :
  spec ∈ postgresOperators.*2 -> exists mid post, template_ok spec mid post.
Proof.
  unfold postgresOperators. csimpl. rewrite !elem_of_cons, elem_of_nil.
  intros [->|[->|[->|[->|[->|[->|[->|[]]]]]]]].
  - exists " @> ", "::jsonb". repeat split; by right.
  - exists " <@ ", "::jsonb". repeat split; by right.
  - exists " ? ", "". repeat split; by left.
  - exists " ?| ", "". repeat split; by left.
  - exists " ?& ", "". repeat split; by left.
  - exists " @@ to_tsquery(", ")". repeat split; by right.
  - exists " && ", "". repeat split; by left.
Qed.

Lemma template_text spec mid post lhs rhs op :
  template_ok spec mid post -> contains_byte "{" lhs = false ->
  ReplaceAll (ReplaceAll (ReplaceAll (Template spec) "{{lhs}}" lhs) "{{op}}" op) "{{rhs}}" rhs
  = lhs +:+ mid +:+ rhs +:+ post.
Proof.
  intros (-> & Hm & Hp & _) Hl.
  assert (Hpost : forall old new, ReplaceAll post (String "{" old) new = post).
  { intros old new. rewrite <- (append_nil_r post) at 1. rewrite replace_skip by done.
    apply append_nil_r. }
  replace (ReplaceAll ("{{lhs}}" +:+ mid +:+ "{{rhs}}" +:+ post) "{{lhs}}" lhs)
    with (lhs +:+ ReplaceAll (mid +:+ "{{rhs}}" +:+ post) "{{lhs}}" lhs) by reflexivity.
  rewrite (replace_skip "{lhs}}") by done.
  replace (ReplaceAll ("{{rhs}}" +:+ post) "{{lhs}}" lhs)
    with ("{{rhs}}" +:+ ReplaceAll post "{{lhs}}" lhs) by reflexivity.
  rewrite Hpost, !(replace_skip "{op}}") by done.
  replace (ReplaceAll ("{{rhs}}" +:+ post) "{{op}}" op)
    with ("{{rhs}}" +:+ ReplaceAll post "{{op}}" op) by reflexivity.
  rewrite Hpost, !(replace_skip "{rhs}}") by done.
  replace (ReplaceAll ("{{rhs}}" +:+ post) "{{rhs}}" rhs)
    with (rhs +:+ ReplaceAll post "{{rhs}}" rhs) by reflexivity.
  by rewrite Hpost.
Qed.

(** What compiling conditions from index [idx] on must yield. *)
Definition compiled (d : Dialect) (idx : Z) (r : string * list Value * Z) : Prop :=
  frag d r.1.1 (numbering d idx (List.length r.1.2)) /\ r.2 = idx + Z.of_nat (List.length r.1.2).

Lemma numbering_0 d idx : numbering d idx 0 = [].
Proof. unfold numbering. by destruct (indexed d). Qed.

Lemma bound_value d spec v idx :
  d ∈ dialects -> 0 <= idx -> compiled d idx (bindOperatorValue d spec v idx).
Proof.
  intros Hd Hi.
  assert (Hone : compiled d idx (placeholder d idx, [v], idx + 1)).
  { split; simpl; [by apply placeholder_frag|done]. }
  assert (Hmany : forall a b (l : list Value), all_bytes neutral a = true -> all_bytes neutral b = true ->
    starts b ->
    compiled d idx (a +:+ join ", " (placeholders d (List.length l) idx) +:+ b, l,
                    idx + Z.of_nat (List.length l))).
  { intros a b l Ha Hb Hsb. split; [|done]. cbn [fst snd].
    apply plain_then; [by apply neutral_plain|].
    apply frag_then; [by apply placeholders_frag|done|by apply neutral_plain]. }
  unfold bindOperatorValue. destruct (Shape spec), v as [| |[|v' l]| | | | |]; try exact Hone;
    by apply Hmany.
Qed.

Lemma rendered_operator d spec column v idx :
  d = Postgres -> spec ∈ postgresOperators.*2 -> contains_byte "{" column = false -> 0 <= idx ->
  compiled d idx (renderOperatorTemplate d spec column v idx).
Proof.
  intros -> Hspec Hcol Hi. destruct (registered_templates spec Hspec) as (mid & post & Ht).
  unfold renderOperatorTemplate. assert (Hd : Postgres ∈ dialects) by (unfold dialects; set_solver).
  destruct (bound_value Postgres spec v idx Hd Hi) as [Hf He].
  destruct (bindOperatorValue Postgres spec v idx) as [[rhs args] idx']. simpl in Hf, He.
  rewrite (template_text spec mid post) by (done || by apply quoted_name_free).
  destruct Ht as (_ & _ & _ & Hmid & Hpost & _ & Hst). split; [|done]. cbn [fst snd].
  apply plain_then; [by apply quoted_name_plain|].
  apply plain_then; [by apply inert_plain|].
  destruct Hst as [->|Hs]; [by rewrite append_nil_r|]. apply frag_then; [done|done|by apply inert_plain].
Qed.

(** ** Conditions *)

Definition op_ok (operator : string) : Prop := all_bytes neutral operator = true.

Fixpoint cond_ok (d : Dialect) (c : Condition) : Prop :=
  match c with
  | mkCond column operator _ ty group spec =>
      (ty = "and" \/ ty = "or")
      /\ match group with
         | _ :: _ => (fix all l := match l with [] => True | c :: l' => cond_ok d c /\ all l' end) group
         | [] =>
             match spec with
             | Some spec => d = Postgres /\ spec ∈ postgresOperators.*2
                            /\ contains_byte "{" column = false
             | None => op_ok operator
             end
         end
  end.

Lemma compiled_leaf d column operator v idx :
  d ∈ dialects -> op_ok operator -> 0 <= idx -> compiled d idx (compile_leaf d column operator v idx).
Proof.
  intros Hd Ho Hi. unfold compile_leaf.
  set (head := QuoteIdentifier d column +:+ " " +:+ operator).
  assert (Hhead : plain d head []).
  { apply plain_both; [by apply quoted_name_plain|].
    apply plain_both; by apply neutral_plain. }
  assert (Hnone : forall s, plain d s [] -> compiled d idx (s, [], idx)).
  { intros s Hs. split; simpl; [rewrite numbering_0; by apply plain_frag|lia]. }
  assert (Hconst : forall b : bool, plain d (if b then "1 = 0" else "1 = 1") [])
    by (intros []; by apply neutral_plain).
  set (values := match v with Slice l => l | _ => [] end).
  destruct ((String.eqb operator "IN" || _) && _); [by apply Hnone|].
  destruct (String.eqb operator "IS NULL" || _); [by apply Hnone|].
  destruct (String.eqb operator "IN" || _).
  - split; [|done]. cbn [fst snd]. apply plain_then; [done|].
    apply plain_then; [by apply neutral_plain|].
    apply frag_then; [by apply placeholders_frag|done|by apply neutral_plain].
  - destruct (String.eqb operator "BETWEEN" || _).
    + destruct v as [| |[|a [|b [|]]]| | | | |]; try by apply Hnone.
      split; [|done]. cbn [fst snd]. change (List.length [a; b]) with (1 + 1)%nat.
      rewrite numbering_app.
      apply plain_then; [done|]. apply plain_then; [by apply neutral_plain|].
      apply frag_app; [by apply placeholder_frag|done|].
      apply plain_then; [by apply neutral_plain|]. apply placeholder_frag; [lia|done].
    + split; [|done]. cbn [fst snd]. apply plain_then; [done|].
      apply plain_then; [by apply neutral_plain|]. by apply placeholder_frag.
Qed.

Lemma Condition_ind (P : Condition -> Prop) :
  (forall column operator v ty group spec, Forall P group -> P (mkCond column operator v ty group spec)) ->
  forall c, P c.
Proof.
  intros H. fix rec 1. intros [column operator v ty group spec]. apply H.
  induction group as [|c group IH]; constructor; [apply rec|exact IH].
Qed.

Lemma compiled_loop d compile cs first idx :
  d ∈ dialects -> 0 <= idx -> Forall (fun c => Type_ c = "and" \/ Type_ c = "or") cs ->
  Forall (fun c => forall i, 0 <= i -> compiled d i (compile c i)) cs ->
  let r := conditions_loop compile cs first idx in
  compiled d idx r /\ (first = false -> r.1.1 = "" \/ starts r.1.1).
Proof.
  intros Hd. revert first idx. induction cs as [|c cs IH]; intros first idx Hi Ht Hc; simpl.
  { split; [split; simpl; [rewrite numbering_0; apply frag_nil|lia]|]. by left. }
  apply Forall_cons in Ht as [Htc Ht]. apply Forall_cons in Hc as [Hcc Hc].
  destruct (Hcc idx Hi) as [Hf He]. destruct (compile c idx) as [[s args] idx1]. simpl in Hf, He.
  destruct (IH false idx1 ltac:(lia) Ht Hc) as [[Hf' He'] Hst]. specialize (Hst eq_refl).
  destruct (conditions_loop compile cs false idx1) as [[s' args'] idx2]. simpl in Hf', He', Hst |- *.
  set (s1 := if first then s else " " +:+ to_upper (Type_ c) +:+ " " +:+ s).
  assert (Hs1 : frag d s1 (numbering d idx (List.length args))).
  { subst s1. destruct first; [done|]. apply plain_then; [by apply neutral_plain|].
    apply plain_then; [apply neutral_plain; [done|by destruct Htc as [->| ->]]|].
    apply plain_then; [by apply neutral_plain|done]. }
  split.
  - split; cbn [fst snd]; rewrite length_app; [|lia]. rewrite numbering_app. subst idx1.
    apply frag_piece; [done|]. destruct Hst as [->|Hst]; [left|by right].
    split; [done|by apply (frag_empty d)].
  - intros ->. by right.
Qed.

Lemma compiled_condition d c idx :
  d ∈ dialects -> cond_ok d c -> 0 <= idx -> compiled d idx (compile_condition d c idx).
Proof.
  intros Hd. revert idx. induction c as [column operator v ty group spec IH] using Condition_ind.
  intros idx [_ Hok] Hi. cbn [compile_condition]. destruct group as [|c group].
  - destruct spec as [spec|]; [|by apply compiled_leaf].
    destruct Hok as (Hp & Hs & Hc). by apply rendered_operator.
  - assert (Hall : Forall (cond_ok d) (c :: group)).
    { clear IH. destruct Hok as [H1 H2]. constructor; [done|].
      induction group as [|c' group IHg]; [done|]. destruct H2 as [H2 H3]. constructor; auto. }
    destruct (compiled_loop d (compile_condition d) (c :: group) true idx Hd Hi) as [[Hf He] _].
    { eapply Forall_impl; [exact Hall|]. by intros [] [? _]. }
    { rewrite Forall_forall in IH, Hall |- *. auto. }
    destruct (conditions_loop (compile_condition d) (c :: group) true idx) as [[s args] idx'].
    split; [|exact He]. cbn [fst snd] in *. apply plain_then; [by apply neutral_plain|].
    apply frag_then; [done|done|by apply neutral_plain].
Qed.

Lemma compiled_conditions d cs idx :
  d ∈ dialects -> Forall (cond_ok d) cs -> 0 <= idx -> compiled d idx (compileConditions d cs idx).
Proof.
  intros Hd Hok Hi. apply compiled_loop; [done|done| |].
  - eapply Forall_impl; [exact Hok|]. by intros [] [? _].
  - eapply Forall_impl; [exact Hok|]. intros c Hc i. by apply compiled_condition.
Qed.

Lemma clause_piece d keyword cs idx :
  d ∈ dialects -> Forall (cond_ok d) cs -> 0 <= idx -> starts keyword -> all_bytes neutral keyword = true ->
  piece d (clause d keyword cs idx).1 (numbering d idx (List.length (clause d keyword cs idx).2)).
Proof.
  intros Hd Hok Hi Hst Hk. unfold clause. destruct cs as [|c cs].
  { left. simpl. by rewrite numbering_0. }
  destruct (compiled_conditions d (c :: cs) idx Hd Hok Hi) as [Hf _].
  destruct (compileConditions d (c :: cs) idx) as [[s args] idx']. simpl.
  apply keyword_piece; [done|by apply neutral_plain|done].
Qed.

(** ** Projections *)

Lemma span_spec p s : let '(x, y) := span p s in s = x +:+ y /\ all_bytes p x = true.
Proof.
  induction s as [|c s IH]; simpl; [done|]. destruct (p c) eqn:Hc; [|done].
  destruct (span p s) as [x y]. destruct IH as [-> Hx]. simpl. by rewrite Hc, Hx.
Qed.

Lemma has_prefix_drop p s : has_prefix p s = true -> s = p +:+ str_drop (String.length p) s.
Proof.
  revert s. induction p as [|c p IH]; intros s Hp; [by destruct s|].
  destruct s as [|c' s]; [done|]. simpl in *. apply andb_true_iff in Hp as [->%Ascii.eqb_eq Hp].
  f_equal. by apply IH.
Qed.

(** A byte of a class that holds none of the special bytes. *)
Lemma class_neutral (p : ascii -> bool) c :
  p "'"%char = false -> p dquote = false -> p "`"%char = false -> p "$"%char = false ->
  p "?"%char = false -> p c = true -> neutral c = true.
Proof.
  intros H1 H2 H3 H4 H5 Hc. unfold neutral. apply negb_true_iff. rewrite !orb_false_iff.
  repeat split; apply not_true_is_false; intros ->%Ascii.eqb_eq; congruence.
Qed.

Lemma class_all_neutral (p : ascii -> bool) s :
  p "'"%char = false -> p dquote = false -> p "`"%char = false -> p "$"%char = false ->
  p "?"%char = false -> all_bytes p s = true -> all_bytes neutral s = true.
Proof. intros. eapply all_bytes_impl; [|eassumption]. intros c. by apply class_neutral. Qed.

Lemma alias_neutral s : alias_ok s = true -> all_bytes neutral s = true.
Proof.
  unfold alias_ok. destruct (String.eqb_spec s "") as [->|_]; [done|].
  pose proof (span_spec re_space s) as H1. destruct (span re_space s) as [ws1 r1].
  destruct H1 as [-> H1]. destruct (String.eqb ws1 ""); [done|].
  destruct r1 as [|a [|b r2]]; try done.
  destruct ((_ || _) && (_ || _)) eqn:Eas; [|done]. apply andb_true_iff in Eas as [Ea Eb].
  pose proof (span_spec re_space r2) as H2. destruct (span re_space r2) as [ws2 r3].
  destruct H2 as [-> H2]. pose proof (span_spec isWordByte r3) as H3.
  destruct (span isWordByte r3) as [w r4]. destruct H3 as [-> H3].
  rewrite !andb_true_iff. intros [_ ->%String.eqb_eq]. rewrite append_nil_r.
  rewrite all_bytes_app. cbn [all_bytes]. rewrite all_bytes_app.
  rewrite (class_all_neutral re_space ws1), (class_all_neutral re_space ws2),
    (class_all_neutral isWordByte w) by done.
  apply orb_true_iff in Ea as [->%Ascii.eqb_eq| ->%Ascii.eqb_eq],
    Eb as [->%Ascii.eqb_eq| ->%Ascii.eqb_eq]; done.
Qed.

Lemma aggregate_neutral s : selectExpr s = true -> all_bytes neutral s = true.
Proof.
  unfold selectExpr. rewrite existsb_exists. intros (f & Hf & [Hp Hr]%andb_true_iff).
  apply has_prefix_drop in Hp.
  replace (String.length (f +:+ "(")) with (S (String.length f)) in Hp
    by (rewrite length_append; simpl; lia).
  pose proof (span_spec in_parens (str_drop (S (String.length f)) s)) as Hs.
  destruct (span in_parens (str_drop (S (String.length f)) s)) as [x y]. destruct Hs as [Es Hx].
  rewrite Es in Hp. rewrite Hp, !all_bytes_app, (class_all_neutral in_parens x) by done.
  assert (Hy : all_bytes neutral y = true).
  { destruct y as [|[[] [] [] [] [] [] [] []] y]; try done. by apply alias_neutral in Hr. }
  rewrite Hy. rewrite !andb_true_r.
  repeat (destruct Hf as [<-|Hf]; [done|]). destruct Hf.
Qed.

Lemma valid_column_plain d col :
  d ∈ dialects -> ValidateSelectColumn col = None ->
  plain d (if contains_byte "(" col || String.eqb col "*" then col else QuoteIdentifier d col) [].
Proof.
  intros Hd Hv. destruct (String.eqb_spec col "*") as [->|Hstar]; [by apply neutral_plain|].
  rewrite orb_false_r. destruct (contains_byte "(" col) eqn:Ep; [|by apply quoted_name_plain].
  apply neutral_plain; [done|]. unfold ValidateSelectColumn in Hv.
  apply String.eqb_neq in Hstar. rewrite Hstar, Ep in Hv. cbn [negb] in Hv.
  destruct (find _ forbiddenSelectTokens); [done|]. destruct (find _ forbiddenSelectKeywords); [done|].
  destruct (selectExpr col) eqn:Ee; [|done]. by apply aggregate_neutral.
Qed.

Lemma list_sep_plain d wrote : d ∈ dialects -> plain d (list_sep wrote) [].
Proof. intros Hd. by destruct wrote; apply neutral_plain. Qed.

Lemma columns_plain d cols wrote :
  d ∈ dialects -> first_invalid cols = None -> plain d (columns_text d cols wrote) [].
Proof.
  intros Hd. revert wrote. induction cols as [|col cols IH]; intros wrote Hv; cbn [columns_text first_invalid] in *.
  { by apply neutral_plain. }
  destruct (ValidateSelectColumn col) eqn:Ev; [done|].
  apply plain_both; [by apply list_sep_plain|]. apply plain_both; [by apply valid_column_plain|auto].
Qed.

(** ** Clauses *)

Definition raw_column_ok (d : Dialect) (raw : RawColumn) : Prop :=
  raw_ok d (rc_Expr raw) (List.length (rc_Args raw)).

(** A list item after its separator. *)
Lemma item_frag d wrote s l : d ∈ dialects -> frag d s l -> frag d (list_sep wrote +:+ s) l.
Proof. intros Hd Hs. apply plain_then; [by apply list_sep_plain|done]. Qed.

Lemma item_piece d s l : d ∈ dialects -> frag d s l -> piece d (list_sep true +:+ s) l.
Proof. intros Hd Hs. apply keyword_piece; [done|by apply neutral_plain|done]. Qed.

(** A list whose first item is unseparated is a fragment; the rest is a piece. *)
Definition listed (d : Dialect) (wrote : bool) (s : string) (l : list Z) : Prop :=
  if wrote then piece d s l else frag d s l.

Lemma listed_nil d wrote : listed d wrote "" [].
Proof. destruct wrote; [by left|apply frag_nil]. Qed.

Lemma listed_cons d wrote s l s' l' :
  d ∈ dialects -> frag d s l -> listed d true s' l' ->
  listed d wrote ((list_sep wrote +:+ s) +:+ s') (l ++ l').
Proof.
  intros Hd Hs Hs'. destruct wrote.
  - apply piece_app; [by apply item_piece|done].
  - apply frag_piece; [by apply item_frag|done].
Qed.

Lemma raw_columns_listed d raws wrote nargs :
  d ∈ dialects -> 0 <= nargs -> Forall (raw_column_ok d) raws ->
  listed d wrote (raw_columns d raws wrote nargs).1
    (numbering d (nargs + 1) (List.length (raw_columns d raws wrote nargs).2)).
Proof.
  intros Hd. revert wrote nargs. induction raws as [|raw raws IH]; intros wrote nargs Hn Hok;
    cbn [raw_columns].
  { simpl. rewrite numbering_0. apply listed_nil. }
  apply Forall_cons in Hok as [Hr Hok].
  specialize (IH true (nargs + Z.of_nat (List.length (rc_Args raw))) ltac:(lia) Hok).
  destruct (raw_columns d raws true _) as [s' args]. cbn [fst snd] in *.
  rewrite length_app, numbering_app. apply listed_cons; [done|by apply raw_text_frag; [..|lia]|].
  by replace (nargs + 1 + Z.of_nat (List.length (rc_Args raw)))
    with (nargs + Z.of_nat (List.length (rc_Args raw)) + 1) by lia.
Qed.

Definition order_ok (d : Dialect) (o : Order) : Prop :=
  all_bytes neutral (o_Direction o) = true
  /\ (o_Expr o = "" \/ raw_ok d (o_Expr o) (List.length (o_Args o))).

Lemma orders_listed d orders wrote nargs :
  d ∈ dialects -> 0 <= nargs -> Forall (order_ok d) orders ->
  listed d wrote (orders_text d orders wrote nargs).1
    (numbering d (nargs + 1) (List.length (orders_text d orders wrote nargs).2)).
Proof.
  intros Hd. revert wrote nargs. induction orders as [|o orders IH]; intros wrote nargs Hn Hok;
    cbn [orders_text].
  { simpl. rewrite numbering_0. apply listed_nil. }
  apply Forall_cons in Hok as [[Hdir Hr] Hok]. destruct (String.eqb_spec (o_Expr o) "") as [E|E]; simpl negb; cbv iota.
  - specialize (IH true nargs Hn Hok). destruct (orders_text d orders true nargs) as [s' args].
    cbn [fst snd] in *. rewrite <- (app_nil_l (numbering _ _ _)). apply listed_cons; [done| |done].
    apply plain_frag, plain_both; [by apply quoted_name_plain|].
    apply plain_both; by apply neutral_plain.
  - destruct Hr as [?|Hr]; [done|].
    specialize (IH true (nargs + Z.of_nat (List.length (o_Args o))) ltac:(lia) Hok).
    destruct (orders_text d orders true _) as [s' args]. cbn [fst snd] in *.
    rewrite length_app, numbering_app. apply listed_cons; [done| |].
    + destruct (String.eqb (o_Direction o) ""); [rewrite append_nil_r; by apply raw_text_frag; [..|lia]|].
      apply frag_then; [by apply raw_text_frag; [..|lia]|done|].
      apply plain_both; by apply neutral_plain.
    + by replace (nargs + 1 + Z.of_nat (List.length (o_Args o)))
        with (nargs + Z.of_nat (List.length (o_Args o)) + 1) by lia.
Qed.

Definition join_ok (d : Dialect) (j : Join) : Prop :=
  all_bytes neutral (j_Type j) = true /\ plain d (j_On j) [].

Lemma joins_piece d joins : d ∈ dialects -> Forall (join_ok d) joins -> piece d (joins_text d joins) [].
Proof.
  intros Hd. induction 1 as [|j joins [Ht Ho] _ IH]; cbn [joins_text]; [by left|].
  right. split; [done|].
  do 5 (apply plain_then; [first [by apply neutral_plain|by apply quoted_name_plain]|]).
  apply plain_then; [done|]. destruct IH as [[-> _]|[_ IH]]; [apply frag_nil|done].
Qed.

Lemma names_plain d names : d ∈ dialects -> plain d (join ", " (QuoteIdentifier d <$> names)) [].
Proof.
  intros Hd. induction names as [|n names IH]; [by apply neutral_plain|]. rewrite fmap_cons.
  destruct names; [by apply quoted_name_plain|]. rewrite join_cons by done.
  apply plain_both; [by apply quoted_name_plain|]. apply plain_both; [by apply neutral_plain|exact IH].
Qed.

(** ** Statements *)

Definition value_ok (d : Dialect) (v : Value) : Prop :=
  match v with Raw raw => plain d (rawSQLExpr d raw) [] | _ => True end.

Lemma bound_frag d v idx :
  d ∈ dialects -> 0 <= idx -> value_ok d v -> compiled d idx (bind_value d v idx).
Proof.
  intros Hd Hi Hv.
  assert (Hone : compiled d idx (placeholder d idx, [v], idx + 1)).
  { split; cbn [fst snd]; [by apply placeholder_frag|done]. }
  destruct v; try exact Hone. split; cbn [fst snd bind_value]; [rewrite numbering_0; by apply plain_frag|simpl; lia].
Qed.

Lemma row_listed d row wrote idx :
  d ∈ dialects -> 0 <= idx -> Forall (value_ok d) row ->
  let r := row_values d row wrote idx in
  listed d wrote r.1.1 (numbering d idx (List.length r.1.2))
  /\ r.2 = idx + Z.of_nat (List.length r.1.2).
Proof.
  intros Hd. revert wrote idx. induction row as [|v row IH]; intros wrote idx Hi Hok; cbn [row_values].
  { simpl. rewrite numbering_0. split; [apply listed_nil|lia]. }
  apply Forall_cons in Hok as [Hv Hok]. destruct (bound_frag d v idx Hd Hi Hv) as [Hf He].
  destruct (bind_value d v idx) as [[s args] idx1]. cbn [fst snd] in Hf, He.
  destruct (IH true idx1 ltac:(lia) Hok) as [Hl He'].
  destruct (row_values d row true idx1) as [[s' args'] idx2]. cbn [fst snd] in *.
  rewrite length_app, numbering_app, <- append_assoc. subst idx1.
  split; [by apply listed_cons|lia].
Qed.

Lemma rows_listed d rows wrote idx :
  d ∈ dialects -> 0 <= idx -> Forall (Forall (value_ok d)) rows ->
  listed d wrote (insert_rows d rows wrote idx).1
    (numbering d idx (List.length (insert_rows d rows wrote idx).2)).
Proof.
  intros Hd. revert wrote idx. induction rows as [|row rows IH]; intros wrote idx Hi Hok; cbn [insert_rows].
  { simpl. rewrite numbering_0. apply listed_nil. }
  apply Forall_cons in Hok as [Hrow Hok]. destruct (row_listed d row false idx Hd Hi Hrow) as [Hl He].
  destruct (row_values d row false idx) as [[s args] idx1]. cbn [fst snd] in Hl, He.
  specialize (IH true idx1 ltac:(lia) Hok). destruct (insert_rows d rows true idx1) as [s' args'].
  cbn [fst snd] in *. rewrite length_app, numbering_app. subst idx1.
  replace (list_sep wrote +:+ "(" +:+ s +:+ ")" +:+ s')
    with ((list_sep wrote +:+ "(" +:+ s +:+ ")") +:+ s') by (by rewrite !append_assoc).
  apply listed_cons; [done| |done]. apply plain_then; [by apply neutral_plain|].
  apply frag_then; [done|done|by apply neutral_plain].
Qed.

Lemma sets_listed d values wrote idx :
  d ∈ dialects -> 0 <= idx -> Forall (fun kv => value_ok d kv.2) values ->
  let r := set_list d values wrote idx in
  listed d wrote r.1.1 (numbering d idx (List.length r.1.2))
  /\ r.2 = idx + Z.of_nat (List.length r.1.2).
Proof.
  intros Hd. revert wrote idx. induction values as [|[col v] values IH]; intros wrote idx Hi Hok;
    cbn [set_list].
  { simpl. rewrite numbering_0. split; [apply listed_nil|lia]. }
  apply Forall_cons in Hok as [Hv Hok]. destruct (bound_frag d v idx Hd Hi Hv) as [Hf He].
  destruct (bind_value d v idx) as [[s args] idx1]. cbn [fst snd] in Hf, He.
  destruct (IH true idx1 ltac:(lia) Hok) as [Hl He'].
  destruct (set_list d values true idx1) as [[s' args'] idx2]. cbn [fst snd] in *.
  rewrite length_app, numbering_app. subst idx1. split; [|lia].
  replace (list_sep wrote +:+ QuoteIdentifier d col +:+ " = " +:+ s +:+ s')
    with ((list_sep wrote +:+ QuoteIdentifier d col +:+ " = " +:+ s) +:+ s') by (by rewrite !append_assoc).
  apply listed_cons; [done| |done]. apply plain_then; [by apply quoted_name_plain|].
  apply plain_then; [by apply neutral_plain|done].
Qed.
