(* ===== verification/SqlStatement.v ===== *)
(** * Whole statements

    The statements of the three grammars, as one type, and what the database
    makes of them: the placeholders of a statement are its arguments, in order,
    and a statement that rejects a projection is a comment and a query that
    selects nothing. *)

From S2P Require Import Prelude GoStrings SqlGrammar SqlSpec.
From Stdlib Require Import Ascii String.
Local Open Scope string_scope.
Local Open Scope list_scope.
Local Open Scope Z_scope.

(** ** The grammars *)

(** The calls of a grammar (QueryGrammar in driver.go, and the two RETURNING
    forms only PostgreSQL has). *)
Inductive Statement :=
  | SelectStmt (q : SelectQuery)
  | InsertStmt (table : string) (columns : list string) (values : list (list Value))
  | UpdateStmt (table : string) (values : list (string * Value)) (conditions : list Condition)
  | DeleteStmt (table : string) (conditions : list Condition)
  | UpdateReturningStmt (table : string) (values : list (string * Value))
      (conditions : list Condition) (pkCol : string)
  | DeleteReturningStmt (table : string) (conditions : list Condition) (pkCol : string).

Definition compile `{GoQuote} (d : Dialect) (s : Statement) : string * list Value :=
  match s with
  | SelectStmt q => CompileSelect d q
  | InsertStmt table columns values => CompileInsert d table columns values
  | UpdateStmt table values conditions => CompileUpdate d table values conditions
  | DeleteStmt table conditions => CompileDelete d table conditions
  | UpdateReturningStmt table values conditions pk => CompileUpdateReturning table values conditions pk
  | DeleteReturningStmt table conditions pk => CompileDeleteReturning table conditions pk
  end.

Record select_ok (d : Dialect) (q : SelectQuery) : Prop := {
  so_columns : first_invalid (Columns q) = None;
  so_raw : Forall (raw_column_ok d) (RawColumns q);
  so_joins : Forall (join_ok d) (Joins q);
  so_where : Forall (cond_ok d) (Conditions q);
  so_having : Forall (cond_ok d) (Having q);
  so_orders : Forall (order_ok d) (Orders q)
}.

(** The parts a caller writes as SQL are well formed; names and values are
    arbitrary. *)
Definition stmt_ok (d : Dialect) (s : Statement) : Prop :=
  match s with
  | SelectStmt q => select_ok d q
  | InsertStmt _ _ values => Forall (Forall (value_ok d)) values
  | UpdateStmt _ values conditions =>
      Forall (fun kv => value_ok d kv.2) values /\ Forall (cond_ok d) conditions
  | DeleteStmt _ conditions => Forall (cond_ok d) conditions
  | UpdateReturningStmt _ values conditions _ =>
      d = Postgres /\ Forall (fun kv => value_ok d kv.2) values /\ Forall (cond_ok d) conditions
  | DeleteReturningStmt _ conditions _ => d = Postgres /\ Forall (cond_ok d) conditions
  end.

(** What compiling a statement must yield. *)
Definition numbered (d : Dialect) (r : string * list Value) : Prop :=
  frag d r.1 (numbering d 1 (List.length r.2)).

Lemma numbered_lexes d r : numbered d r -> lexes d r.1 (numbering d 1 (List.length r.2)).
Proof. intros H. destruct (H []) as (m & Hm & E). exists m. by rewrite app_nil_r in E. Qed.

(** A keyword, then a name, then the rest. *)
Lemma command_frag d kw name s l :
  d ∈ dialects -> all_bytes neutral kw = true -> piece d s l ->
  frag d (kw +:+ QuoteIdentifier d name +:+ s) l.
Proof.
  intros Hd Hk Hs. apply plain_then; [by apply neutral_plain|]. rewrite <- (app_nil_l l).
  apply frag_piece; [by apply plain_frag, quoted_name_plain|done].
Qed.

Lemma neutral_piece d s : d ∈ dialects -> all_bytes neutral s = true -> s = "" \/ starts s -> piece d s [].
Proof. intros Hd Hn [->|Hs]; [by left|]. right. split; [done|]. by apply plain_frag, neutral_plain. Qed.

(** ** INSERT, UPDATE and DELETE *)

Lemma insert_numbered d table columns values :
  d ∈ dialects -> Forall (Forall (value_ok d)) values -> numbered d (CompileInsert d table columns values).
Proof.
  intros Hd Hok. pose proof (rows_listed d values false 1 Hd ltac:(lia) Hok) as Hl.
  unfold CompileInsert. destruct (insert_rows d values false 1) as [rows args]. cbn [fst snd] in *.
  unfold numbered. cbn [fst snd]. apply command_frag; [done|done|].
  rewrite <- (app_nil_l (numbering _ _ _)). apply piece_app.
  - destruct columns as [|c cs]; [by left|]. right. split; [done|].
    apply plain_frag, plain_both; [by apply neutral_plain|].
    apply plain_both; [by apply names_plain|by apply neutral_plain].
  - apply keyword_piece; [done|by apply neutral_plain|]. rewrite <- (app_nil_r (numbering _ _ _)).
    apply frag_piece; [done|]. apply neutral_piece; destruct (returning_id d); auto; by right.
Qed.

Lemma update_numbered d table values conditions :
  d ∈ dialects -> Forall (fun kv => value_ok d kv.2) values -> Forall (cond_ok d) conditions ->
  numbered d (CompileUpdate d table values conditions).
Proof.
  intros Hd Hv Hc. destruct (sets_listed d values false 1 Hd ltac:(lia) Hv) as [Hl He].
  unfold CompileUpdate. destruct (set_list d values false 1) as [[sets args] idx]. cbn [fst snd] in Hl, He.
  pose proof (clause_piece d " WHERE " conditions idx Hd Hc ltac:(lia) eq_refl eq_refl) as Hw.
  destruct (clause d " WHERE " conditions idx) as [whereText wargs]. cbn [fst snd] in Hw.
  unfold numbered. cbn [fst snd]. rewrite length_app, numbering_app. subst idx.
  apply command_frag; [done|done|]. apply keyword_piece; [done|by apply neutral_plain|].
  by apply frag_piece.
Qed.

Lemma delete_numbered d table conditions :
  d ∈ dialects -> Forall (cond_ok d) conditions -> numbered d (CompileDelete d table conditions).
Proof.
  intros Hd Hc. pose proof (clause_piece d " WHERE " conditions 1 Hd Hc ltac:(lia) eq_refl eq_refl) as Hw.
  unfold CompileDelete. destruct (clause d " WHERE " conditions 1) as [whereText wargs].
  by apply command_frag.
Qed.

Lemma returning_numbered sql args pk :
  numbered Postgres (sql, args) -> numbered Postgres (sql +:+ " RETURNING " +:+ QuoteIdentifier Postgres pk, args).
Proof.
  intros H. assert (Hd : Postgres ∈ dialects) by (unfold dialects; set_solver).
  unfold numbered in *. cbn [fst snd] in *. apply frag_then; [done|done|].
  apply plain_both; [by apply neutral_plain|by apply quoted_name_plain].
Qed.

(** ** SELECT *)

Lemma projection_frag d cols raws :
  d ∈ dialects -> first_invalid cols = None -> Forall (raw_column_ok d) raws ->
  let r := raw_columns d raws (nonempty cols) 0 in
  frag d (columns_text d cols false +:+ r.1 +:+ (if nonempty cols || nonempty raws then "" else "*"))
    (numbering d 1 (List.length r.2)).
Proof.
  intros Hd Hv Hok r. pose proof (raw_columns_listed d raws (nonempty cols) 0 Hd ltac:(lia) Hok) as Hl.
  pose proof (columns_plain d cols false Hd Hv) as Hc. fold r in Hl.
  change (0 + 1) with 1 in Hl. destruct cols as [|c cols]; cbn [nonempty orb listed] in *.
  - apply plain_then; [done|]. destruct raws as [|raw raws]; cbn [nonempty].
    + subst r. simpl. rewrite numbering_0. apply plain_frag. by apply neutral_plain.
    + by rewrite append_nil_r.
  - rewrite append_nil_r. rewrite <- (app_nil_l (numbering _ _ _)).
    apply frag_piece; [by apply plain_frag|done].
Qed.

(** The clauses after the conditions take no arguments. *)
Lemma limits_piece d q :
  d ∈ dialects -> piece d (limit_text q +:+ offset_text q +:+ lock_text d q) [].
Proof.
  intros Hd.
  assert (Hn : forall kw n, starts kw -> all_bytes neutral kw = true -> piece d (kw +:+ decimal n) []).
  { intros kw n Hs Hk. apply keyword_piece; [done|by apply neutral_plain|].
    by apply plain_frag, decimal_plain. }
  repeat apply (piece_app d _ [] _ []).
  - unfold limit_text. destruct (Limit q); [by apply Hn|by left].
  - unfold offset_text. destruct (Offset q); [by apply Hn|by left].
  - unfold lock_text. destruct (row_locks d && LockForUpdate q); [|by left].
    destruct (SkipLocked q); apply neutral_piece; auto; by right.
Qed.

Lemma groups_piece d gs : d ∈ dialects -> piece d (group_clause d gs) [].
Proof.
  intros Hd. destruct gs as [|g gs]; [by left|]. apply keyword_piece; [done|by apply neutral_plain|].
  by apply plain_frag, names_plain.
Qed.

Lemma orders_piece d orders nargs :
  d ∈ dialects -> 0 <= nargs -> Forall (order_ok d) orders ->
  let r := order_clause d orders nargs in
  piece d r.1 (numbering d (nargs + 1) (List.length r.2)).
Proof.
  intros Hd Hn Hok. destruct orders as [|o os]; [left; simpl; by rewrite numbering_0|].
  pose proof (orders_listed d (o :: os) false nargs Hd Hn Hok) as Hl. cbn [order_clause].
  destruct (orders_text d (o :: os) false nargs) as [s args]. cbn [fst snd] in *.
  apply keyword_piece; [done|by apply neutral_plain|done].
Qed.

(** The clauses of a SELECT, one after the other. *)
Lemma clauses_frag d proj lp from wh lw gr hv lh ord lo lim :
  frag d proj lp -> piece d from [] -> piece d wh lw -> piece d gr [] -> piece d hv lh ->
  piece d ord lo -> piece d lim [] ->
  frag d (proj +:+ from +:+ wh +:+ gr +:+ hv +:+ ord +:+ lim) (lp ++ lw ++ lh ++ lo).
Proof.
  intros Hp Hf Hw Hg Hh Ho Hl. apply frag_piece; [done|]. apply (piece_app d _ []); [done|].
  apply piece_app; [done|]. apply (piece_app d _ []); [done|]. apply piece_app; [done|].
  rewrite <- (app_nil_r lo). by apply piece_app.
Qed.

Lemma from_piece d table joins :
  d ∈ dialects -> Forall (join_ok d) joins ->
  piece d (" FROM " +:+ QuoteIdentifier d table +:+ joins_text d joins) [].
Proof.
  intros Hd Hj. right. split; [done|]. apply command_frag; [done|done|by apply joins_piece].
Qed.

Section grammar.
Context `{GQ : GoQuote}.

Lemma select_numbered d q : d ∈ dialects -> select_ok d q -> numbered d (CompileSelect d q).
Proof.
  intros Hd [Hcols Hraw Hj Hw Hh Ho]. unfold CompileSelect. rewrite Hcols.
  pose proof (projection_frag d (Columns q) (RawColumns q) Hd Hcols Hraw) as Hp.
  destruct (raw_columns d (RawColumns q) (nonempty (Columns q)) 0) as [raws args]. cbn [fst snd] in Hp.
  pose proof (clause_piece d " WHERE " (Conditions q) (Z.of_nat (List.length args) + 1) Hd Hw
    ltac:(lia) eq_refl eq_refl) as Hwp.
  destruct (clause d " WHERE " (Conditions q) _) as [whereText wargs]. cbn [fst snd] in Hwp.
  pose proof (clause_piece d " HAVING " (Having q) (Z.of_nat (List.length (args ++ wargs)) + 1) Hd Hh
    ltac:(lia) eq_refl eq_refl) as Hhp.
  destruct (clause d " HAVING " (Having q) _) as [having hargs]. cbn [fst snd] in Hhp.
  pose proof (orders_piece d (Orders q) (Z.of_nat (List.length ((args ++ wargs) ++ hargs))) Hd
    ltac:(lia) Ho) as Hop.
  destruct (order_clause d (Orders q) _) as [orders oargs]. cbn [fst snd] in Hop.
  pose proof (clauses_frag d _ _ _ _ _ _ _ _ _ _ _ Hp (from_piece d (Table q) (Joins q) Hd Hj) Hwp
    (groups_piece d (Groups q) Hd) Hhp Hop (limits_piece d q Hd)) as Hall.
  unfold numbered. cbn [fst snd]. rewrite !append_assoc in *.
  do 2 (apply plain_then; [destruct (Distinct q); by apply neutral_plain|]).
  rewrite !length_app, !numbering_app, <- !app_assoc. rewrite !length_app in Hall.
  rewrite !Nat2Z.inj_add in *.
  rewrite !(Z.add_comm 1). exact Hall.
Qed.

(** In every statement the PostgreSQL, MySQL and SQLite grammars compile,
    quoting is balanced and the placeholders outside quotes are exactly one per
    argument, in the order of the arguments ($1, $2, ... for PostgreSQL), for
    arbitrary bytes in table, column and alias names and arbitrary bound
    values; only the parts documented as trusted SQL (raw columns, raw orders,
    raw values, join conditions) must be balanced themselves. *)
Theorem placeholders_match_arguments d s :
  d ∈ dialects -> stmt_ok d s ->
  lexes d (compile d s).1 (numbering d 1 (List.length (compile d s).2)).
Proof.
  intros Hd Hok. apply numbered_lexes. destruct s; cbn [compile stmt_ok] in *.
  - by apply select_numbered.
  - by apply insert_numbered.
  - destruct Hok. by apply update_numbered.
  - by apply delete_numbered.
  - destruct Hok as (-> & Hv & Hc). pose proof (update_numbered _ table _ _ Hd Hv Hc) as H.
    unfold CompileUpdateReturning. destruct (CompileUpdate Postgres table values conditions).
    by apply returning_numbered.
  - destruct Hok as (-> & Hc). pose proof (delete_numbered _ table _ Hd Hc) as H.
    unfold CompileDeleteReturning. destruct (CompileDelete Postgres table conditions).
    by apply returning_numbered.
Qed.

(** ** Rejected projections *)

(** What follows a comment, from inside it; comments nest (PostgreSQL). *)
Fixpoint after_comment (depth : nat) (s : string) : option string :=
  match s with
  | String a ((String b s2) as s1) =>
      if Ascii.eqb a "*" && Ascii.eqb b "/" then
        match depth with O => Some s2 | S k => after_comment k s2 end
      else if Ascii.eqb a "/" && Ascii.eqb b "*" then after_comment (S depth) s2
      else after_comment depth s1
  | _ => None
  end.

(** No byte [a] directly before a byte [b]. *)
Fixpoint unpaired (a b : ascii) (s : string) : bool :=
  match s with
  | String x ((String y _) as s1) => negb (Ascii.eqb x a && Ascii.eqb y b) && unpaired a b s1
  | _ => true
  end.

Definition pair_str (a b : ascii) : string := String a (byte_str b).
Definition spaced_str (a b : ascii) : string := String a (String " " (byte_str b)).

Lemma space_pair_cons a b x s :
  ReplaceAll (String x s) (pair_str a b) (spaced_str a b)
  = match s with
    | String y s2 =>
        if Ascii.eqb x a && Ascii.eqb y b
        then spaced_str a b +:+ ReplaceAll s2 (pair_str a b) (spaced_str a b)
        else String x (ReplaceAll s (pair_str a b) (spaced_str a b))
    | EmptyString => String x EmptyString
    end.
Proof.
  unfold ReplaceAll, pair_str, byte_str. cbn [replace_from has_prefix]. rewrite (Ascii.eqb_sym x a).
  destruct s as [|y s2]; [by rewrite andb_false_r|]. rewrite andb_true_r, (Ascii.eqb_sym y b).
  by destruct (Ascii.eqb a x && Ascii.eqb b y).
Qed.

(** Spacing a pair keeps the first byte. *)
Lemma space_pair_head a b x s :
  exists r, ReplaceAll (String x s) (pair_str a b) (spaced_str a b) = String x r.
Proof.
  rewrite space_pair_cons. destruct s as [|y s2]; [by eexists|].
  destruct (Ascii.eqb_spec x a) as [->|]; simpl; [|by eexists].
  destruct (Ascii.eqb y b); by eexists.
Qed.

Lemma unpaired_two a b x y s :
  unpaired a b (String x (String y s)) = negb (Ascii.eqb x a && Ascii.eqb y b) && unpaired a b (String y s).
Proof. done. Qed.

Lemma unpaired_cons p q a b x s :
  unpaired a b (String x (ReplaceAll s (pair_str p q) (spaced_str p q)))
  = match s with String y _ => negb (Ascii.eqb x a && Ascii.eqb y b) | _ => true end
    && unpaired a b (ReplaceAll s (pair_str p q) (spaced_str p q)).
Proof. destruct s as [|y s]; [done|]. by destruct (space_pair_head p q y s) as [? ->]. Qed.

(** Spacing removes a pair and does not bring back the reversed one. *)
Lemma space_pair_unpaired a b s :
  a <> b -> a <> " "%char -> b <> " "%char ->
  unpaired a b (ReplaceAll s (pair_str a b) (spaced_str a b)) = true
  /\ (unpaired b a s = true -> unpaired b a (ReplaceAll s (pair_str a b) (spaced_str a b)) = true).
Proof.
  intros Hab Ha Hb. apply Ascii.eqb_neq in Hab, Ha, Hb.
  pose proof Ha as Ha'. pose proof Hb as Hb'. pose proof Hab as Hba.
  rewrite Ascii.eqb_sym in Ha', Hb', Hba.
  induction s as [s IH] using (induction_ltof1 _ String.length). unfold ltof in IH.
  destruct s as [|x [|y s2]]; [done|by rewrite space_pair_cons|]. rewrite space_pair_cons.
  destruct (IH (String y s2) ltac:(simpl; lia)) as [I1 I2].
  destruct (IH s2 ltac:(simpl; lia)) as [J1 J2].
  destruct (Ascii.eqb x a && Ascii.eqb y b) eqn:E.
  - apply andb_true_iff in E as [->%Ascii.eqb_eq ->%Ascii.eqb_eq].
    change (spaced_str a b +:+ ?r) with (String a (String " " (String b r))).
    rewrite !unpaired_two, !unpaired_cons, !Ascii.eqb_refl, Hab, Hba, Ha', Hb', J1.
    rewrite ?andb_false_r. split; [by destruct s2|]. intros H. destruct s2 as [|z s2]; [done|].
    rewrite !unpaired_two, Ascii.eqb_refl in H. rewrite !andb_true_iff in H.
    cbn [negb andb] in *. destruct H as (_ & -> & H). auto.
  - rewrite !unpaired_cons, E. split; [by rewrite I1|]. rewrite unpaired_two. intros H.
    apply andb_true_iff in H as [-> H]. auto.
Qed.

Lemma blank_cons c x s :
  ReplaceAll (String x s) (byte_str c) " "
  = String (if Ascii.eqb x c then " " else x) (ReplaceAll s (byte_str c) " ").
Proof.
  unfold ReplaceAll, byte_str. cbn [replace_from has_prefix]. rewrite (Ascii.eqb_sym x c), andb_true_r.
  by destruct (Ascii.eqb c x).
Qed.

Lemma blank_unpaired c a b s :
  a <> " "%char -> b <> " "%char -> unpaired a b s = true ->
  unpaired a b (ReplaceAll s (byte_str c) " ") = true.
Proof.
  intros Ha Hb. induction s as [|x s IH]; intros Hs; [done|]. rewrite blank_cons.
  destruct s as [|y s]; [done|]. rewrite unpaired_two in Hs. apply andb_true_iff in Hs as [Hxy Hs].
  specialize (IH Hs). rewrite blank_cons in IH |- *. rewrite unpaired_two, IH, andb_true_r.
  apply negb_true_iff, not_true_is_false. intros [Hx Hy]%andb_true_iff.
  destruct (Ascii.eqb x c), (Ascii.eqb y c);
    apply Ascii.eqb_eq in Hx; apply Ascii.eqb_eq in Hy; try congruence.
  rewrite Hx, Hy, !Ascii.eqb_refl in Hxy. done.
Qed.

(** Sanitised text can neither end a comment nor open another. *)
Lemma sanitized_unpaired s :
  unpaired "*" "/" (sanitizeForComment s) = true /\ unpaired "/" "*" (sanitizeForComment s) = true.
Proof.
  unfold sanitizeForComment.
  destruct (space_pair_unpaired "*" "/" s) as [H1 _]; [done..|].
  destruct (space_pair_unpaired "/" "*" (ReplaceAll s "*/" "* /")) as [H2 H3]; [done..|].
  split; do 2 (apply blank_unpaired; [done|done|]); [by apply H3|done].
Qed.

Lemma comment_skips s rest :
  unpaired "*" "/" s = true -> unpaired "/" "*" s = true ->
  after_comment 0 (s +:+ " */" +:+ rest) = Some rest.
Proof.
  induction s as [|x [|y s] IH]; intros H1 H2; [done| |].
  - cbn. by rewrite !andb_false_r.
  - rewrite unpaired_two in H1, H2. apply andb_true_iff in H1 as [P1 H1], H2 as [P2 H2].
    apply negb_true_iff in P1, P2. specialize (IH H1 H2).
    change (String x (String y s) +:+ ?r) with (String x (String y (s +:+ r))).
    cbn [after_comment]. rewrite P1, P2. exact IH.
Qed.

(** A SELECT with a column the projection whitelist rejects never sends
    that column to the database as SQL: whatever bytes it holds, the statement
    is one comment, which the column cannot close or nest, followed by a
    constant query that selects no row, and no arguments are bound. *)
Theorem rejected_projection_is_inert d q e :
  first_invalid (Columns q) = Some e ->
  exists comment, CompileSelect d q = ("/*" +:+ comment, [])
                  /\ after_comment 0 comment = Some " SELECT 1 WHERE 1=0".
Proof.
  intros He. unfold CompileSelect. rewrite He. eexists. split; [reflexivity|].
  destruct (sanitized_unpaired (error_text e)) as [H1 H2].
  apply (comment_skips (" orm: rejected select column: " +:+ sanitizeForComment (error_text e))
    " SELECT 1 WHERE 1=0").
  - destruct (sanitizeForComment (error_text e)); cbn; [done|]. by rewrite ?andb_true_r.
  - destruct (sanitizeForComment (error_text e)); cbn; [done|]. by rewrite ?andb_true_r.
Qed.

End grammar.

(** ** Instances *)

Definition plain_quote : GoQuote := {| Quote := fun s => byte_str dquote +:+ s +:+ byte_str dquote |}.

Definition hostile_name : string := "a" +:+ byte_str dquote +:+ " = $9; --".

Definition example_select : SelectQuery :=
  mkSelect "users" ["id"; "COUNT(*) AS n"] [mkRawColumn "coalesce(age, ?)" [Other 0]]
    [mkCond hostile_name "=" (Str "x") "and" [] None;
     mkCond "" "" Nil "or"
       [mkCond "id" "IN" (Slice [Other 1; Other 2]) "and" [] None;
        mkCond "tags" "?|" (Slice [Str "a"]) "and" [] (snd <$> nth_error postgresOperators 3)] None]
    [mkOrder "id" "DESC" "" []] ["id"] [] (Some 10) None [] false false false.

Lemma placeholders_match_arguments_witness :
  (compile (H := plain_quote) Postgres (SelectStmt example_select)).1
  = "SELECT " +:+ QuoteIdentifier Postgres "id" +:+ ", COUNT(*) AS n, coalesce(age, $1) FROM "
    +:+ QuoteIdentifier Postgres "users" +:+ " WHERE " +:+ QuoteIdentifier Postgres hostile_name
    +:+ " = $2 OR (" +:+ QuoteIdentifier Postgres "id" +:+ " IN ($3, $4) AND "
    +:+ QuoteIdentifier Postgres "tags" +:+ " ?| ARRAY[$5]) GROUP BY " +:+ QuoteIdentifier Postgres "id"
    +:+ " ORDER BY " +:+ QuoteIdentifier Postgres "id" +:+ " DESC LIMIT 10"
  /\ lexes Postgres (compile (H := plain_quote) Postgres (SelectStmt example_select)).1 [1; 2; 3; 4; 5].
Proof.
  split; [reflexivity|].
  refine (placeholders_match_arguments (GQ := plain_quote) Postgres (SelectStmt example_select) _ _).
  - unfold dialects. set_solver.
  - split; [reflexivity| | constructor | | constructor | ].
    + repeat constructor; reflexivity.
    + repeat apply List.Forall_cons; [..|apply List.Forall_nil]; simpl; repeat split; try tauto; try reflexivity; set_solver.
    + repeat constructor.
Defined.

Lemma rejected_projection_is_inert_witness :
  exists comment,
    CompileSelect (GQ := plain_quote) MySQL
      (mkSelect "users" ["1 */ FROM secrets; --"] [] [] [] [] [] None None [] false false false)
    = ("/*" +:+ comment, []) /\ after_comment 0 comment = Some " SELECT 1 WHERE 1=0".
Proof.
  refine (rejected_projection_is_inert (GQ := plain_quote) MySQL
    (mkSelect "users" ["1 */ FROM secrets; --"] [] [] [] [] [] None None [] false false false) _ _).
  reflexivity.
Defined.
