(* ===== verification/SqlQuery.v ===== *)
(** * The query builder

    Models orm/query.go (and validateIdentifier of orm/model.go): the mutable
    builder, whose chain methods validate what they are given, append to the
    query's clauses and keep the first error.  A chain method is a function on
    [Query]; the function argument of WhereGroup is a function on [Query] too.

    The model type [T] of Query[T] is what its operations read of it: the table
    name, whether it has the deleted_at and updated_at columns.  A driver is
    its dialect, its name and its operator registry. *)

From S2P Require Import Prelude GoStrings SqlGrammar.
From Stdlib Require Import Ascii String.
Local Open Scope string_scope.
Local Open Scope list_scope.
Local Open Scope Z_scope.
Local Open Scope go_scope.

(** ** Data *)

Record Driver := mkDriver {
  Grammar : Dialect;
  DriverName : string;
  OperatorRegistry : list (string * OperatorSpec)
}.

Definition PostgresDriver : Driver := mkDriver Postgres "postgres" postgresOperators.
Definition MySQLDriver : Driver := mkDriver MySQL "mysql" [].
Definition SQLiteDriver : Driver := mkDriver SQLite "sqlite" [].

(** The errors of the builder; [WrapErr op e] is "orm: op: e". *)
Inductive QueryError :=
  | InvalidIdentifier (name : string)
  | TakesNoBind (condition : string) (n : nat)
  | EmptyCondition
  | NotAnOperator (condition : string) (arg : Value)
  | TooManyArguments (condition : string) (n : nat)
  | Unparseable (condition : string)
  | OnePlaceholder (condition : string) (n : nat)
  | NoPlaceholder (condition : string) (n : nat)
  | RequiresBoundValue (condition op : string)
  | ILikeUnsupported (driver : string)
  | InvalidOperator (op : string)
  | RequiresNonNil (op : string)
  | RequiresAnySlice (op : string)
  | RequiresJSON (op : string)
  | ScalarBlob (op : string)
  | RequiresSlice (op : string)
  | RequiresTwo (op : string) (n : nat)
  | InvalidJoinOperator (op : string)
  | RejectedColumn (e : SelectError)
  | ErrManagerShutdown
  | ErrNoConnection
  | NoUpdates
  | AllReadOnly
  | NoInsertData
  (** fmt.Errorf(prefix: %w) *)
  | PrefixErr (prefix : string) (e : QueryError)
  | WrapErr (op : string) (e : QueryError).

Record Query := mkQuery {
  driver : option Driver;
  (** there is a manager and it is closed *)
  mgr_closed : bool;
  table : string;
  conditions : list Condition;
  orders : list Order;
  groups : list string;
  having : list Condition;
  joins : list Join;
  limit : option Z;
  offset : option Z;
  columns : list string;
  rawColumns : list RawColumn;
  distinct : bool;
  preloads : list string;
  withTrashed : bool;
  onlyTrashed : bool;
  lockForUpdate : bool;
  skipLocked : bool;
  hasSoftDelete : bool;
  hasUpdatedAt : bool;
  withRowHooks : bool;
  withBulkLock : bool;
  disabledScopes : gset string;
  globalScopesApplied : bool;
  err : option QueryError;
  lastSQL : string;
  lastArgs : list Value
}.

Definition eta_query (q : Query) : Query :=
  mkQuery (driver q) (mgr_closed q) (table q) (conditions q) (orders q) (groups q) (having q)
    (joins q) (limit q) (offset q) (columns q) (rawColumns q) (distinct q) (preloads q)
    (withTrashed q) (onlyTrashed q) (lockForUpdate q) (skipLocked q) (hasSoftDelete q)
    (hasUpdatedAt q) (withRowHooks q) (withBulkLock q) (disabledScopes q) (globalScopesApplied q)
    (err q) (lastSQL q) (lastArgs q).

Definition set_conditions : list Condition -> Query -> Query := ltac:(set_field eta_query conditions).
Definition set_orders : list Order -> Query -> Query := ltac:(set_field eta_query orders).
Definition set_groups : list string -> Query -> Query := ltac:(set_field eta_query groups).
Definition set_having : list Condition -> Query -> Query := ltac:(set_field eta_query having).
Definition set_joins : list Join -> Query -> Query := ltac:(set_field eta_query joins).
Definition set_limit : option Z -> Query -> Query := ltac:(set_field eta_query limit).
Definition set_offset : option Z -> Query -> Query := ltac:(set_field eta_query offset).
Definition set_columns : list string -> Query -> Query := ltac:(set_field eta_query columns).
Definition set_rawColumns : list RawColumn -> Query -> Query := ltac:(set_field eta_query rawColumns).
Definition set_distinct : bool -> Query -> Query := ltac:(set_field eta_query distinct).
Definition set_preloads : list string -> Query -> Query := ltac:(set_field eta_query preloads).
Definition set_withTrashed : bool -> Query -> Query := ltac:(set_field eta_query withTrashed).
Definition set_onlyTrashed : bool -> Query -> Query := ltac:(set_field eta_query onlyTrashed).
Definition set_lockForUpdate : bool -> Query -> Query := ltac:(set_field eta_query lockForUpdate).
Definition set_skipLocked : bool -> Query -> Query := ltac:(set_field eta_query skipLocked).
Definition set_withRowHooks : bool -> Query -> Query := ltac:(set_field eta_query withRowHooks).
Definition set_withBulkLock : bool -> Query -> Query := ltac:(set_field eta_query withBulkLock).
Definition set_disabledScopes : gset string -> Query -> Query := ltac:(set_field eta_query disabledScopes).
Definition set_globalScopesApplied : bool -> Query -> Query :=
  ltac:(set_field eta_query globalScopesApplied).
Definition set_err : option QueryError -> Query -> Query := ltac:(set_field eta_query err).
Definition set_lastSQL : string -> Query -> Query := ltac:(set_field eta_query lastSQL).
Definition set_lastArgs : list Value -> Query -> Query := ltac:(set_field eta_query lastArgs).

Definition setErr (op : string) (e : QueryError) (q : Query) : Query :=
  match err q with None => set_err (Some (WrapErr op e)) q | Some _ => q end.

Definition newQueryOn (drv : option Driver) (closed : bool) (tableName : string)
    (softDelete updatedAt : bool) : Query :=
  mkQuery drv closed tableName [] [] [] [] [] None None ["*"] [] false [] false false false false
    softDelete updatedAt false false ∅ false None "" [].

(** ** Identifiers and operators *)

Definition ident_start (c : ascii) : bool := is_letter c || Ascii.eqb c "_".
Definition ident_byte (c : ascii) : bool := isWordByte c || Ascii.eqb c ".".

(** identifierRegex *)
Definition identifier (name : string) : bool :=
  match name with
  | EmptyString => false
  | String c s => ident_start c && all_bytes ident_byte s
  end.

Definition validateIdentifier (name : string) : result QueryError unit :=
  if identifier name then Ok tt else Err (InvalidIdentifier name).

Definition validOperators : list string :=
  ["="; "!="; "<>"; "<"; ">"; "<="; ">="; "LIKE"; "NOT LIKE"; "ILIKE"; "IN"; "NOT IN"; "IS"; "IS NOT";
   "BETWEEN"; "NOT BETWEEN"; "IS NULL"; "IS NOT NULL"].

Definition mem_str (x : string) (l : list string) : bool := existsb (String.eqb x) l.

Definition isValidOperator (op : string) : bool := mem_str (to_upper (trim_space op)) validOperators.

Fixpoint lookup_op (registry : list (string * OperatorSpec)) (op : string) : option OperatorSpec :=
  match registry with
  | [] => None
  | (k, spec) :: r => if String.eqb k op then Some spec else lookup_op r op
  end.

Definition operatorRegistry (q : Query) : list (string * OperatorSpec) :=
  match driver q with Some d => OperatorRegistry d | None => [] end.

(** The registry under the upper-cased operator, then as written. *)
Definition lookup_trimmed (registry : list (string * OperatorSpec)) (op : string) : option OperatorSpec :=
  match lookup_op registry (to_upper (trim_space op)) with
  | Some spec => Some spec
  | None => lookup_op registry (trim_space op)
  end.

Definition operatorToken (op : string) (registry : list (string * OperatorSpec)) : bool :=
  isValidOperator op || match lookup_trimmed registry op with Some _ => true | None => false end.

(** strings.EqualFold(strings.TrimSpace(op), "ILIKE") for a valid operator,
    which has no letter outside ASCII that folds to one of these. *)
Definition is_ilike (op : string) : bool := String.eqb (lower_ascii (trim_space op)) "ilike".

Definition validateOperatorValue (spec : OperatorSpec) (v : Value) : result QueryError unit :=
  match Shape spec, v with
  | ParamScalar, Nil => Err (RequiresNonNil (Op spec))
  | ParamScalar, _ => Ok tt
  | (ParamSlice | ParamArray), Slice _ => Ok tt
  | (ParamSlice | ParamArray), _ => Err (RequiresAnySlice (Op spec))
  | ParamJSON, (Str _ | Bytes _ | RawMessage _) => Ok tt
  | ParamJSON, _ => Err (RequiresJSON (Op spec))
  end.

Definition resolveOperator (q : Query) (op : string) (v : Value)
    : result QueryError (option OperatorSpec) :=
  if isValidOperator op then
    match driver q with
    | Some d =>
        if is_ilike op && negb (String.eqb (DriverName d) "postgres")
        then Err (ILikeUnsupported (DriverName d)) else Ok None
    | None => Ok None
    end
  else match driver q with
  | None => Err (InvalidOperator op)
  | Some d =>
      match lookup_trimmed (OperatorRegistry d) op with
      | None => Err (InvalidOperator op)
      | Some spec => _ <-! validateOperatorValue spec v ;; Ok (Some spec)
      end
  end.

Fixpoint byte_values (s : string) : list Value :=
  match s with EmptyString => [] | String c s' => Other (byte_val c) :: byte_values s' end.

(** json.RawMessage is a slice kind that is not []byte. *)
Definition toAnySlice (op : string) (v : Value) : result QueryError (list Value) :=
  match v with
  | Slice l => Ok l
  | Bytes _ => Err (ScalarBlob op)
  | Typed l => Ok l
  | RawMessage s => Ok (byte_values s)
  | _ => Err (RequiresSlice op)
  end.

Definition normalizeMultiValue (op : string) (v : Value) : result QueryError Value :=
  let upper := to_upper (trim_space op) in
  if String.eqb upper "IN" || String.eqb upper "NOT IN" then
    l <-! toAnySlice op v ;; Ok (Slice l)
  else if String.eqb upper "BETWEEN" || String.eqb upper "NOT BETWEEN" then
    l <-! toAnySlice op v ;;
    if (List.length l =? 2)%nat then Ok (Slice l) else Err (RequiresTwo op (List.length l))
  else Ok v.

(** ** Conditions *)

Definition has_suffix (suf s : string) : bool :=
  String.eqb (str_drop (String.length s - String.length suf) s) suf.

(** A condition that ends in a nullary operator. *)
Definition parse_nullary (condition op : string) (args : list Value)
    : result QueryError (string * string * Value) :=
  match args with
  | _ :: _ => Err (TakesNoBind condition (List.length args))
  | [] =>
      let col := trim_space (str_take (String.length condition - S (String.length op)) condition) in
      _ <-! validateIdentifier col ;; Ok (col, op, Nil)
  end.

(** "col" with its arguments. *)
Definition parse_bare (condition column : string) (args : list Value)
    (registry : list (string * OperatorSpec)) : result QueryError (string * string * Value) :=
  _ <-! validateIdentifier column ;;
  match args with
  | [] => Ok (column, "=", Nil)
  | [v] => Ok (column, "=", v)
  | [o; v] =>
      match o with
      | Str op =>
          if operatorToken op registry then
            let op := trim_space op in
            let op := if isValidOperator op then to_upper op else op in
            Ok (column, op, v)
          else Err (NotAnOperator condition o)
      | _ => Err (NotAnOperator condition o)
      end
  | _ => Err (TooManyArguments condition (List.length args))
  end.

(** The operator of a condition and the fields after it, two fields first. *)
Definition split_operator (p1 : string) (ps : list string) (registry : list (string * OperatorSpec))
    : string * list string :=
  match ps with
  | p2 :: rest =>
      let twoTok := p1 +:+ " " +:+ p2 in
      if operatorToken twoTok registry
      then (if isValidOperator twoTok then to_upper twoTok else twoTok, rest)
      else (p1, ps)
  | [] => (p1, [])
  end.

Definition parse_tokens (condition column p1 : string) (ps : list string) (args : list Value)
    (registry : list (string * OperatorSpec)) : result QueryError (string * string * Value) :=
  _ <-! validateIdentifier column ;;
  let '(operator, rest) := split_operator p1 ps registry in
  match rest with
  | [] =>
      match args with
      | _ :: _ => Err (NoPlaceholder condition (List.length args))
      | [] =>
          let upper := to_upper (trim_space operator) in
          if String.eqb upper "IS NULL" || String.eqb upper "IS NOT NULL"
          then Ok (column, operator, Nil) else Err (RequiresBoundValue condition operator)
      end
  | [r] =>
      if String.eqb r "?" then
        match args with
        | [v] => Ok (column, operator, v)
        | _ => Err (OnePlaceholder condition (List.length args))
        end
      else Err (Unparseable condition)
  | _ => Err (Unparseable condition)
  end.

Definition parseCondition (condition : string) (args : list Value)
    (registry : list (string * OperatorSpec)) : result QueryError (string * string * Value) :=
  let condition := trim_space condition in
  let upperCond := to_upper condition in
  if has_suffix " IS NOT NULL" upperCond then parse_nullary condition "IS NOT NULL" args
  else if has_suffix " IS NULL" upperCond then parse_nullary condition "IS NULL" args
  else match fields condition with
  | [] => Err EmptyCondition
  | [column] => parse_bare condition column args registry
  | column :: p1 :: ps => parse_tokens condition column p1 ps args registry
  end.

(** The part Where, OrWhere and Having share: a validated condition. *)
Definition checked_condition (q : Query) (condition : string) (args : list Value) (ty : string)
    : result QueryError Condition :=
  c <-! parseCondition condition args (operatorRegistry q) ;;
  let '(col, op, v) := c in
  spec <-! resolveOperator q op v ;;
  v <-! match spec with None => normalizeMultiValue op v | Some _ => Ok v end ;;
  Ok (mkCond col op v ty [] spec).

Definition append_condition (c : Condition) (q : Query) : Query := set_conditions (conditions q ++ [c]) q.

Definition Where (condition : string) (args : list Value) (q : Query) : Query :=
  match checked_condition q condition args "and" with
  | Ok c => append_condition c q
  | Err e => setErr "Where" e q
  end.

Definition OrWhere (condition : string) (args : list Value) (q : Query) : Query :=
  match checked_condition q condition args "or" with
  | Ok c => append_condition c q
  | Err e => setErr "OrWhere" e q
  end.

Definition appendGroup (joinType : string) (fn : Query -> Query) (q : Query) : Query :=
  let sub := fn (mkQuery (driver q) (mgr_closed q) (table q) [] [] [] [] [] None None [] [] false []
                   false false false false (hasSoftDelete q) (hasUpdatedAt q) false false ∅ false
                   None "" []) in
  match err sub with
  | Some e => setErr "WhereGroup" e q
  | None =>
      match conditions sub with
      | [] => q
      | cs => append_condition (mkCond "" "" Nil joinType cs None) q
      end
  end.

Definition WhereGroup (fn : Query -> Query) (q : Query) : Query := appendGroup "and" fn q.
Definition OrWhereGroup (fn : Query -> Query) (q : Query) : Query := appendGroup "or" fn q.

(** A condition on a field the method itself names the operator of. *)
Definition append_on (method field op : string) (v : Value) (q : Query) : Query :=
  match validateIdentifier field with
  | Ok _ => append_condition (mkCond field op v "and" [] None) q
  | Err e => setErr method e q
  end.

Definition WhereIn (field : string) (values : list Value) : Query -> Query :=
  append_on "WhereIn" field "IN" (Slice values).
Definition WhereNotIn (field : string) (values : list Value) : Query -> Query :=
  append_on "WhereNotIn" field "NOT IN" (Slice values).
Definition WhereNull (field : string) : Query -> Query := append_on "WhereNull" field "IS NULL" Nil.
Definition WhereNotNull (field : string) : Query -> Query :=
  append_on "WhereNotNull" field "IS NOT NULL" Nil.
Definition WhereBetween (field : string) (start end_ : Value) : Query -> Query :=
  append_on "WhereBetween" field "BETWEEN" (Slice [start; end_]).

(** ** The other clauses *)

Definition OrderBy (column direction : string) (q : Query) : Query :=
  match validateIdentifier column with
  | Err e => setErr "OrderBy" e q
  | Ok _ =>
      let dir := to_upper (trim_space direction) in
      let dir := if negb (String.eqb dir "ASC") && negb (String.eqb dir "DESC") then "ASC" else dir in
      set_orders (orders q ++ [mkOrder column dir "" []]) q
  end.

Definition OrderByDesc (column : string) : Query -> Query := OrderBy column "DESC".

(** The first error of a list of checks. *)
Fixpoint first_error {A} (check : A -> result QueryError unit) (l : list A) : option QueryError :=
  match l with
  | [] => None
  | x :: l' => match check x with Err e => Some e | Ok _ => first_error check l' end
  end.

Definition GroupBy (cols : list string) (q : Query) : Query :=
  match first_error validateIdentifier cols with
  | Some e => setErr "GroupBy" e q
  | None => set_groups (groups q ++ cols) q
  end.

Definition Having_ (condition : string) (args : list Value) (q : Query) : Query :=
  match (c <-! parseCondition condition args (operatorRegistry q) ;;
         _ <-! validateIdentifier c.1.1 ;;
         checked_condition q condition args "and") with
  | Ok c => set_having (having q ++ [c]) q
  | Err e => setErr "Having" e q
  end.

Definition driverLive (q : Query) : result QueryError Driver :=
  if mgr_closed q then Err ErrManagerShutdown
  else match driver q with Some d => Ok d | None => Err ErrNoConnection end.

Definition buildJoinOn (first operator second : string) (q : Query) : result QueryError string :=
  _ <-! validateIdentifier first ;;
  _ <-! validateIdentifier second ;;
  if isValidOperator operator then
    d <-! driverLive q ;;
    Ok (QuoteIdentifier (Grammar d) first +:+ " " +:+ operator +:+ " "
        +:+ QuoteIdentifier (Grammar d) second)
  else Err (InvalidJoinOperator operator).

(** The three joins differ in their name and their type. *)
Definition join_with (method ty tbl first operator second : string) (q : Query) : Query :=
  match (_ <-! validateIdentifier tbl ;; buildJoinOn first operator second q) with
  | Ok on => set_joins (joins q ++ [mkJoin ty tbl on]) q
  | Err e => setErr method e q
  end.

Definition Join_ : string -> string -> string -> string -> Query -> Query := join_with "Join" "INNER".
Definition LeftJoin : string -> string -> string -> string -> Query -> Query := join_with "LeftJoin" "LEFT".
Definition RightJoin : string -> string -> string -> string -> Query -> Query :=
  join_with "RightJoin" "RIGHT".

Definition check_column (col : string) : result QueryError unit :=
  if contains_byte "(" col || String.eqb col "*" then
    match ValidateSelectColumn col with Some e => Err (RejectedColumn e) | None => Ok tt end
  else validateIdentifier col.

Definition Select (cols : list string) (q : Query) : Query :=
  match first_error check_column cols with
  | Some e => setErr "Select" e q
  | None => set_columns cols q
  end.

Definition SelectRaw (expr : string) (args : list Value) (q : Query) : Query :=
  set_rawColumns (rawColumns q ++ [mkRawColumn expr args]) q.

Definition Distinct_ (q : Query) : Query := set_distinct true q.
Definition Limit_ (n : Z) (q : Query) : Query := set_limit (Some n) q.
Definition Offset_ (n : Z) (q : Query) : Query := set_offset (Some n) q.
Definition With_ (relations : list string) (q : Query) : Query := set_preloads (preloads q ++ relations) q.
Definition OnlyTrashed (q : Query) : Query := set_withTrashed true (set_onlyTrashed true q).
Definition WithTrashed (q : Query) : Query := set_withTrashed true q.
Definition LockForUpdate_ (q : Query) : Query := set_lockForUpdate true q.
Definition SkipLocked_ (q : Query) : Query := set_skipLocked true q.
Definition WithRowHooks (q : Query) : Query := set_withRowHooks true q.
Definition WithBulkLock (q : Query) : Query := set_withBulkLock true q.

(** ** Chains *)

(** A call of a chain method.  A group's function is the chain it calls on the
    sub-builder. *)
Inductive Call :=
  | CWhere (condition : string) (args : list Value)
  | COrWhere (condition : string) (args : list Value)
  | CWhereGroup (calls : list Call)
  | COrWhereGroup (calls : list Call)
  | CWhereIn (field : string) (values : list Value)
  | CWhereNotIn (field : string) (values : list Value)
  | CWhereNull (field : string)
  | CWhereNotNull (field : string)
  | CWhereBetween (field : string) (start end_ : Value)
  | COrderBy (column direction : string)
  | CGroupBy (cols : list string)
  | CHaving (condition : string) (args : list Value)
  | CJoin (tbl first operator second : string)
  | CLeftJoin (tbl first operator second : string)
  | CRightJoin (tbl first operator second : string)
  | CSelect (cols : list string)
  | CSelectRaw (expr : string) (args : list Value)
  | CDistinct
  | CLimit (n : Z)
  | COffset (n : Z)
  | CWith (relations : list string)
  | COnlyTrashed
  | CWithTrashed
  | CLockForUpdate
  | CSkipLocked
  | CWithRowHooks
  | CWithBulkLock.

Fixpoint call (c : Call) (q : Query) : Query :=
  match c with
  | CWhere condition args => Where condition args q
  | COrWhere condition args => OrWhere condition args q
  | CWhereGroup calls => WhereGroup (fun sub => fold_left (fun q c => call c q) calls sub) q
  | COrWhereGroup calls => OrWhereGroup (fun sub => fold_left (fun q c => call c q) calls sub) q
  | CWhereIn field values => WhereIn field values q
  | CWhereNotIn field values => WhereNotIn field values q
  | CWhereNull field => WhereNull field q
  | CWhereNotNull field => WhereNotNull field q
  | CWhereBetween field a b => WhereBetween field a b q
  | COrderBy column direction => OrderBy column direction q
  | CGroupBy cols => GroupBy cols q
  | CHaving condition args => Having_ condition args q
  | CJoin tbl first operator second => Join_ tbl first operator second q
  | CLeftJoin tbl first operator second => LeftJoin tbl first operator second q
  | CRightJoin tbl first operator second => RightJoin tbl first operator second q
  | CSelect cols => Select cols q
  | CSelectRaw expr args => SelectRaw expr args q
  | CDistinct => Distinct_ q
  | CLimit n => Limit_ n q
  | COffset n => Offset_ n q
  | CWith relations => With_ relations q
  | COnlyTrashed => OnlyTrashed q
  | CWithTrashed => WithTrashed q
  | CLockForUpdate => LockForUpdate_ q
  | CSkipLocked => SkipLocked_ q
  | CWithRowHooks => WithRowHooks q
  | CWithBulkLock => WithBulkLock q
  end.

Definition chain (calls : list Call) (q : Query) : Query := fold_left (fun q c => call c q) calls q.
