(* ===== verification/SqlTerminal.v ===== *)
(** * Global scopes and the terminal methods

    Models orm/scopes.go, the terminal methods of orm/query.go, orm/aggregates.go
    and orm/increment.go up to the statement they send to the database, and the
    eager-load query of orm/relation.go.  A terminal binds its connection
    (bindTxFromContextValue, of which the liveness check is modelled: which
    connection or transaction runs a statement does not change it), applies the
    model's global scopes and compiles.  What the database answers, hydration
    and hooks are outside the model; whether a bulk write captures primary keys
    through RETURNING is decided as in bulk.go. *)

From S2P Require Import Prelude GoStrings RouterTree SqlGrammar SqlQuery.
From Stdlib Require Import Ascii String.
Local Open Scope string_scope.
Local Open Scope list_scope.
Local Open Scope Z_scope.
Local Open Scope go_scope.

(** ** The scope registry *)

Definition Scope : Type := Query -> Query.

Record scopeEntry := mkEntry { e_name : string; e_apply : Scope; e_order : Z }.

Record scopeRegistry := mkRegistry { entries : gmap string scopeEntry; next : Z }.

Definition softDeleteScopeName : string := "soft_delete".

(** [None] is the nil function, which removes the scope. *)
Definition AddGlobalScope (name : string) (fn : option Scope) (r : scopeRegistry) : scopeRegistry :=
  if String.eqb name "" then r
  else match fn with
  | None => mkRegistry (delete name (entries r)) (next r)
  | Some f =>
      match entries r !! name with
      | Some existing => mkRegistry (<[name := mkEntry name f (e_order existing)]> (entries r)) (next r)
      | None => mkRegistry (<[name := mkEntry name f (next r + 1)]> (entries r)) (next r + 1)
      end
  end.

Definition RemoveGlobalScope (name : string) (r : scopeRegistry) : scopeRegistry :=
  mkRegistry (delete name (entries r)) (next r).

(** The scope registerSoftDeleteScopeOnce installs. *)
Definition soft_delete_scope : Scope := fun q =>
  if withTrashed q then if onlyTrashed q then WhereNotNull "deleted_at" q else q
  else WhereNull "deleted_at" q.

(** The insertion of the [i]-th entry into the sorted ones before it; the
    sorted part is kept last first, as the inner loop walks it. *)
Fixpoint sift (e : scopeEntry) (sorted : list scopeEntry) : list scopeEntry :=
  match sorted with
  | [] => [e]
  | x :: rest => if e_order x >? e_order e then x :: sift e rest else e :: sorted
  end.

(** snapshotScopes, for the order [out] in which the map yields its entries. *)
Definition snapshotScopes (out : list scopeEntry) : list scopeEntry :=
  rev (fold_left (fun sorted e => sift e sorted) out []).

(** ** Applying scopes *)

Definition applyGlobalScopes (snapshot : list scopeEntry) (q : Query) : Query :=
  if globalScopesApplied q then q
  else
    fold_left (fun q e => if bool_decide (e_name e ∈ disabledScopes q) then q else e_apply e q)
      snapshot (set_globalScopesApplied true q).

Definition WithoutGlobalScope (name : string) (q : Query) : Query :=
  if String.eqb name "" then q else set_disabledScopes ({[name]} ∪ disabledScopes q) q.

Definition WithoutGlobalScopes (snapshot : list scopeEntry) (q : Query) : Query :=
  set_disabledScopes (list_to_set (e_name <$> snapshot) ∪ disabledScopes q) q.

(** ** Terminal methods *)

Section terminals.
Context `{GQ : GoQuote}.

(** The checks every terminal starts with. *)
Definition ready (snapshot : list scopeEntry) (q : Query) : result QueryError (Query * Driver) :=
  match err q with
  | Some e => Err e
  | None =>
      d <-! driverLive q ;;
      let q := applyGlobalScopes snapshot q in
      match err q with Some e => Err e | None => Ok (q, d) end
  end.

(** What a terminal leaves: the query, and the statement it sent. *)
Definition Sent : Type := Query * (string * list Value).

Definition sent (q : Query) (stmt : string * list Value) : result QueryError Sent :=
  Ok (set_lastArgs stmt.2 (set_lastSQL stmt.1 q), stmt).

Definition Get (snapshot : list scopeEntry) (q : Query) : result QueryError Sent :=
  r <-! ready snapshot q ;;
  let '(q, d) := r in
  let selectQuery :=
    mkSelect (table q) (columns q) (rawColumns q) (conditions q) (orders q) (groups q) (having q)
      (limit q) (offset q) (joins q) (distinct q) (lockForUpdate q) (skipLocked q) in
  sent q (CompileSelect (Grammar d) selectQuery).

(** First and Find, up to their statement. *)
Definition First (snapshot : list scopeEntry) (q : Query) : result QueryError Sent :=
  Get snapshot (Limit_ 1 q).

Definition Find (snapshot : list scopeEntry) (id : Value) (q : Query) : result QueryError Sent :=
  First snapshot (Where "id = ?" [id] q).

Definition is_wildcard (cols : list string) : bool :=
  match cols with [] => true | [c] => String.eqb c "*" | _ => false end.

(** Count does not record its statement. *)
Definition Count (snapshot : list scopeEntry) (q : Query) : result QueryError Sent :=
  r <-! ready snapshot q ;;
  let '(q, d) := r in
  if nonempty (groups q) || distinct q then
    let cols := if nonempty (groups q) && negb (nonempty (rawColumns q)) && is_wildcard (columns q)
                then groups q else columns q in
    let inner := mkSelect (table q) cols (rawColumns q) (conditions q) [] (groups q) (having q) None
                   None (joins q) (distinct q) false false in
    let '(innerSQL, innerArgs) := CompileSelect (Grammar d) inner in
    Ok (q, ("SELECT COUNT(*) AS count FROM (" +:+ innerSQL +:+ ") AS count_sub", innerArgs))
  else
    Ok (q, CompileSelect (Grammar d)
             (mkSelect (table q) [] [mkRawColumn "COUNT(*) AS count" []] (conditions q) [] [] [] None
                None (joins q) false false false)).

Definition Pluck (snapshot : list scopeEntry) (column : string) (q : Query) : result QueryError Sent :=
  let q := match validateIdentifier column with Ok _ => q | Err e => setErr "Pluck" e q end in
  r <-! ready snapshot q ;;
  let '(q, d) := r in
  let q := Select [column] q in
  sent q (CompileSelect (Grammar d)
            (mkSelect (table q) (columns q) (rawColumns q) (conditions q) (orders q) [] [] (limit q)
               (offset q) (joins q) (distinct q) false false)).

(** Sum, Avg, Min and Max *)
Definition aggregate (snapshot : list scopeEntry) (fn column : string) (q : Query)
    : result QueryError Sent :=
  match validateIdentifier column with
  | Err e => Err (PrefixErr fn e)
  | Ok _ =>
      r <-! ready snapshot q ;;
      let '(q, d) := r in
      let rawExpr := fn +:+ "(" +:+ QuoteIdentifier (Grammar d) column +:+ ") AS agg" in
      Ok (q, CompileSelect (Grammar d)
               (mkSelect (table q) [] [mkRawColumn rawExpr []] (conditions q) [] [] [] None None
                  (joins q) (distinct q) false false))
  end.

(** *** Writes *)

(** A column of the model's metadata, as far as stripReadOnlyKeys reads it. *)
Record ColumnMeta := mkMeta { m_Column : string; m_FieldNameKey : string; m_ReadOnly : bool }.

Definition stripReadOnlyKeys (meta : list ColumnMeta) (updates : gmap string Value) : gmap string Value :=
  fold_left (fun u col => if m_ReadOnly col then delete (m_FieldNameKey col) (delete (m_Column col) u) else u)
    meta updates.

(** The primary key a bulk write returns, for a model whose
    BulkAfterCommitHook has the primary key [hookPK] (bulkPrepareHooks). *)
Definition returning_pk (q : Query) (d : Driver) (hookPK : option string) : option string :=
  if withRowHooks q then None else if returning_id (Grammar d) then hookPK else None.

(** [iter] is the order in which the map of updates is iterated, [now] the
    UTC clock reading. *)
Definition bulkUpdate (snapshot : list scopeEntry) (meta : list ColumnMeta) (hookPK : option string)
    (iter : gmap string Value -> list (string * Value)) (now : Value) (updates : gmap string Value)
    (q : Query) : result QueryError Sent :=
  match err q with
  | Some e => Err e
  | None =>
      if bool_decide (updates = ∅) then Err NoUpdates
      else
        r <-! ready snapshot q ;;
        let '(q, d) := r in
        let u := stripReadOnlyKeys meta updates in
        if bool_decide (u = ∅) then Err AllReadOnly
        else
          let u := if hasUpdatedAt q then <["updated_at" := now]> u else u in
          match returning_pk q d hookPK with
          | Some pk => sent q (CompileUpdateReturning (table q) (iter u) (conditions q) pk)
          | None => sent q (CompileUpdate (Grammar d) (table q) (iter u) (conditions q))
          end
  end.

Definition ForceDelete (snapshot : list scopeEntry) (hookPK : option string) (q : Query)
    : result QueryError Sent :=
  match err q with
  | Some e => Err e
  | None =>
      _ <-! driverLive q ;;
      r <-! ready snapshot (WithoutGlobalScope softDeleteScopeName q) ;;
      let '(q, d) := r in
      match returning_pk q d hookPK with
      | Some pk => Ok (q, CompileDeleteReturning (table q) (conditions q) pk)
      | None => Ok (q, CompileDelete (Grammar d) (table q) (conditions q))
      end
  end.

Definition Delete (snapshot : list scopeEntry) (meta : list ColumnMeta) (hookPK : option string)
    (iter : gmap string Value -> list (string * Value)) (now : Value) (q : Query)
    : result QueryError Sent :=
  match err q with
  | Some e => Err e
  | None =>
      if hasSoftDelete q then
        _ <-! driverLive q ;;
        bulkUpdate snapshot meta hookPK iter now {["deleted_at" := now]} q
      else ForceDelete snapshot hookPK q
  end.

(** The placeholders of a single-row INSERT: raw SQL in place. *)
Fixpoint insert_values (d : Driver) (data : gmap string Value) (cols : list string) (argIndex : Z)
    : list string * list Value :=
  match cols with
  | [] => ([], [])
  | col :: cols' =>
      match data !! col with
      | Some (Raw raw) =>
          let '(ps, vs) := insert_values d data cols' argIndex in
          (rawSQLExpr (Grammar d) raw :: ps, vs)
      | v =>
          let '(ps, vs) := insert_values d data cols' (argIndex + 1) in
          (placeholder (Grammar d) argIndex :: ps, default Nil v :: vs)
      end
  end.

Definition compileInsertSQL (iter : list string) (data : gmap string Value) (q : Query) (d : Driver)
    : result QueryError (string * list Value) :=
  match first_error validateIdentifier iter with
  | Some e => Err e
  | None =>
      let cols := merge_sort string_le iter in
      let '(ps, vs) := insert_values d data cols 1 in
      Ok ("INSERT INTO " +:+ QuoteIdentifier (Grammar d) (table q) +:+ " ("
            +:+ join ", " (QuoteIdentifier (Grammar d) <$> cols) +:+ ") VALUES ("
            +:+ join ", " ps +:+ ")", vs)
  end.

(** The shared start of InsertGetId and insertExec. *)
Definition insert_ready (iter : list string) (data : gmap string Value) (prefix : string) (q : Query)
    : result QueryError (string * list Value * Driver) :=
  match err q with
  | Some e => Err e
  | None =>
      d <-! driverLive q ;;
      if bool_decide (data = ∅) then Err NoInsertData
      else match compileInsertSQL iter data q d with
           | Err e => Err (PrefixErr prefix e)
           | Ok stmt => Ok (stmt, d)
           end
  end.

Definition InsertGetId (iter : list string) (data : gmap string Value) (q : Query)
    : result QueryError (string * list Value) :=
  r <-! insert_ready iter data "velocity/orm: insertGetId" q ;;
  let '(sqlStr, values, d) := r in
  if String.eqb (DriverName d) "sqlite" || String.eqb (DriverName d) "mysql" then Ok (sqlStr, values)
  else Ok (sqlStr +:+ " RETURNING " +:+ QuoteIdentifier (Grammar d) "id", values).

Definition insertExec (iter : list string) (data : gmap string Value) (q : Query)
    : result QueryError (string * list Value) :=
  r <-! insert_ready iter data "velocity/orm: insert" q ;;
  Ok r.1.

(** *** Increment and Decrement *)

(** The rest of [s] from the first occurrence of [sub] on. *)
Fixpoint from_first (sub s : string) : option string :=
  if has_prefix sub s then Some s
  else match s with EmptyString => None | String _ s' => from_first sub s' end.

(** "$" and digits, one more; a number strconv.Atoi rejects stays. *)
Definition bump (digits : string) : string :=
  if String.eqb digits "" then "$"
  else match Atoi digits with
       | Some n => "$" +:+ decimal (wrap64 (n + 1))
       | None => "$" +:+ digits
       end.

(** pgPlaceholderPattern's replacement; [num] is the number being read. *)
Fixpoint renumber_from (num : option string) (s : string) : string :=
  match s with
  | EmptyString => match num with Some ds => bump ds | None => "" end
  | String c s' =>
      match num with
      | Some ds =>
          if is_digit c then renumber_from (Some (ds +:+ byte_str c)) s'
          else bump ds +:+ (if Ascii.eqb c "$" then renumber_from (Some "") s'
                            else String c (renumber_from None s'))
      | None =>
          if Ascii.eqb c "$" then renumber_from (Some "") s' else String c (renumber_from None s')
      end
  end.

Definition renumber (s : string) : string := renumber_from None s.

Definition incrementOrDecrement (snapshot : list scopeEntry) (column op : string) (amount : list Z)
    (q : Query) : result QueryError Sent :=
  match validateIdentifier column with
  | Err e => Err (PrefixErr "velocity/orm: increment/decrement" e)
  | Ok _ =>
      r <-! ready snapshot q ;;
      let '(q, d) := r in
      let amt := match amount with [] => 1 | a :: _ => a end in
      let quotedCol := QuoteIdentifier (Grammar d) column in
      let '(deleteSQL, condArgs) := CompileDelete (Grammar d) (table q) (conditions q) in
      let head := "UPDATE " +:+ QuoteIdentifier (Grammar d) (table q) +:+ " SET " +:+ quotedCol
                    +:+ " = " +:+ quotedCol +:+ " " +:+ op +:+ " " +:+ placeholder (Grammar d) 1 in
      let whereText :=
        match from_first " WHERE " deleteSQL with
        | Some w => if String.eqb (DriverName d) "postgres" then renumber w else w
        | None => ""
        end in
      Ok (q, (head +:+ whereText, Other amt :: condArgs))
  end.

(** ** Eager loading *)

(** applyGlobalScopesByType: [fresh] is the query the type's registered
    constructor makes, [None] when there is none. *)
Definition applyGlobalScopesByType (fresh : option Query) (snapshot : list scopeEntry)
    : result QueryError (list Condition) :=
  match fresh with
  | None => Ok []
  | Some q =>
      let q := applyGlobalScopes snapshot q in
      match err q with Some e => Err e | None => Ok (conditions q) end
  end.

(** No scope conditions is a nil slice: the hand-rolled statement. *)
Definition buildScopedInSelect (d : Driver) (fresh : option Query) (snapshot : list scopeEntry)
    (softDelete : bool) (tbl fkColumn : string) (ids : list Value)
    : result QueryError (string * list Value) :=
  scopeConditions <-! applyGlobalScopesByType fresh snapshot ;;
  let g := Grammar d in
  match scopeConditions with
  | [] =>
      Ok ("SELECT * FROM " +:+ QuoteIdentifier g tbl +:+ " WHERE " +:+ QuoteIdentifier g fkColumn
            +:+ " IN (" +:+ join ", " (placeholders g (List.length ids) 1) +:+ ")"
            +:+ (if softDelete then " AND " +:+ QuoteIdentifier g "deleted_at" +:+ " IS NULL" else ""),
          ids)
  | _ =>
      let conds := [mkCond fkColumn "IN" (Slice ids) "and" [] None;
                    mkCond "" "" Nil "and" scopeConditions None] in
      Ok (CompileSelect g (mkSelect tbl ["*"] [] conds [] [] [] None None [] false false false))
  end.

End terminals.
