(* ===== verification/SqlBuilder.v ===== *)
(** * What the query builder builds

    Whatever strings and values the chain methods are given, the clauses they
    append are the ones the grammars are proved correct for (SqlSpec.v): names
    are identifiers, operators come from the allowlist or the driver's
    registry, projections pass the whitelist.  So the statement of every chain
    binds its arguments one to one, unless a trusted raw expression is itself
    unbalanced. *)

From S2P Require Import Prelude GoStrings SqlGrammar SqlSpec SqlStatement SqlQuery.
From Stdlib Require Import Ascii String.
Local Open Scope string_scope.
Local Open Scope list_scope.
Local Open Scope Z_scope.
Local Open Scope go_scope.

Definition drivers : list Driver := [PostgresDriver; MySQLDriver; SQLiteDriver].

(** ** Operators *)

(** A property of all bytes, by inspection of each. *)
Ltac each_byte c := destruct c as [[] [] [] [] [] [] [] []]; try reflexivity; try discriminate.

Lemma upper_byte_neutral c : neutral (upper_byte c) = true -> neutral c = true.
Proof. each_byte c. Qed.

Lemma high_byte_neutral c : 128 <=? byte_val c = true -> neutral c = true.
Proof. each_byte c. Qed.

Lemma to_upper_neutral s : all_bytes neutral (to_upper s) = true -> all_bytes neutral s = true.
Proof.
  induction s as [s IH] using (induction_ltof1 _ String.length). unfold ltof in IH.
  assert (Hhigh : forall c n, byte_val c =? n = true -> 128 <=? n = true -> neutral c = true).
  { intros c n E%Z.eqb_eq Hn. subst n. by apply high_byte_neutral. }
  destruct s as [|a [|b r]]; [done| |].
  - cbn [to_upper all_bytes]. rewrite !andb_true_r. apply upper_byte_neutral.
  - cbn [to_upper]. destruct ((byte_val a =? 0xC4) && _) eqn:E1.
    { apply andb_true_iff in E1 as [Ea Eb]. cbn [all_bytes]. rewrite andb_true_l. intros H.
      rewrite (Hhigh a _ Ea), (Hhigh b _ Eb) by done. apply IH; [simpl; lia|done]. }
    destruct ((byte_val a =? 0xC5) && _) eqn:E2.
    { apply andb_true_iff in E2 as [Ea Eb]. cbn [all_bytes]. rewrite andb_true_l. intros H.
      rewrite (Hhigh a _ Ea), (Hhigh b _ Eb) by done. apply IH; [simpl; lia|done]. }
    intros H. cbn [all_bytes] in H. apply andb_true_iff in H as [Ha%upper_byte_neutral H].
    cbn [all_bytes]. rewrite Ha. apply (IH (String b r)); [simpl; lia|exact H].
Qed.

Lemma space_neutral s k :
  space_len s = S k -> exists p r, s = p +:+ r /\ String.length p = S k /\ all_bytes neutral p = true.
Proof.
  assert (Hsp : forall c, ((9 <=? byte_val c) && (byte_val c <=? 13)) || (byte_val c =? 32) = true ->
                neutral c = true) by (intros c; each_byte c).
  assert (Hge : forall c, neutral c = false -> byte_val c <? 128 = true) by (intros c; each_byte c).
  assert (Hhi : forall c, 128 <= byte_val c -> neutral c = true).
  { intros c H. destruct (neutral c) eqn:E; [done|]. apply Hge, Z.ltb_lt in E. lia. }
  destruct s as [|a s1]; [done|]. cbn [space_len].
  destruct (((9 <=? byte_val a) && _) || _) eqn:E1.
  { intros [= <-]. exists (String a ""), s1. simpl. by rewrite (Hsp a). }
  destruct s1 as [|b s2]; [done|]. destruct ((byte_val a =? 0xC2) && _) eqn:E2.
  { intros [= <-]. exists (String a (String b "")), s2. simpl. rewrite !Hhi; [done|lia..]. }
  destruct s2 as [|c s3]; [done|]. match goal with |- context [if ?b then _ else _] => destruct b eqn:E3 end; [|done].
  intros [= <-]. exists (String a (String b (String c ""))), s3. simpl. rewrite !Hhi; [done|lia..].
Qed.

Lemma trim_left_skip k p r : String.length p = k -> trim_left_space_from k (p +:+ r) = trim_left_space_from 0 r.
Proof.
  revert p. induction k as [|k IH]; intros [|c p] Hp; simpl in Hp; try lia; [done|].
  cbn [append trim_left_space_from]. apply IH. lia.
Qed.

Lemma trim_left_neutral s : all_bytes neutral (trim_left_space_from 0 s) = true -> all_bytes neutral s = true.
Proof.
  induction s as [s IH] using (induction_ltof1 _ String.length). unfold ltof in IH.
  destruct s as [|a s1]; [done|]. cbn [trim_left_space_from].
  destruct (space_len (String a s1)) as [|k] eqn:Es; [done|].
  destruct (space_neutral _ _ Es) as (p & r & E & Hl & Hp). destruct p as [|a' p]; [done|].
  injection E as -> ->. simpl in Hl. rewrite trim_left_skip by lia. intros H.
  change (String a' (p +:+ r)) with (String a' p +:+ r). rewrite all_bytes_app, Hp.
  apply IH; [|done]. simpl. rewrite length_append. lia.
Qed.

Lemma trim_right_neutral s : all_bytes neutral (trim_right_space s) = true -> all_bytes neutral s = true.
Proof.
  induction s as [|a s IH]; [done|]. cbn [trim_right_space].
  destruct (trim_left_space_from 0 (String a s)) as [|b r] eqn:E.
  - intros _. apply trim_left_neutral. by rewrite E.
  - cbn [all_bytes]. intros [-> H]%andb_true_iff. by apply IH.
Qed.

Lemma mem_str_spec x l : mem_str x l = true <-> x ∈ l.
Proof.
  unfold mem_str. rewrite existsb_exists, list_elem_of_In. split.
  - by intros (y & Hy & ->%String.eqb_eq).
  - intros H. exists x. by rewrite String.eqb_refl.
Qed.

Lemma valid_operator_neutral op : isValidOperator op = true -> op_ok op.
Proof.
  intros H%mem_str_spec. apply trim_left_neutral, trim_right_neutral, to_upper_neutral.
  fold (trim_space op). set (u := to_upper (trim_space op)) in *. clearbody u.
  assert (Hall : Forall (fun o => all_bytes neutral o = true) validOperators) by (repeat constructor).
  rewrite Forall_forall in Hall. by apply Hall.
Qed.

(** ** Identifiers *)

Lemma ident_bytes name : identifier name = true -> all_bytes ident_byte name = true.
Proof.
  destruct name as [|c s]; [done|]. cbn [identifier all_bytes]. intros [Hc Hs]%andb_true_iff.
  rewrite Hs, andb_true_r. unfold ident_start, ident_byte, isWordByte in *.
  apply orb_true_iff in Hc as [->| ->]; by rewrite ?orb_true_r.
Qed.

Lemma ident_free c name : ident_byte c = false -> identifier name = true -> contains_byte c name = false.
Proof.
  intros Hc Hn%ident_bytes. induction name as [|a s IH]; [done|]. cbn [all_bytes contains_byte] in *.
  apply andb_true_iff in Hn as [Ha Hs]. rewrite IH by done. rewrite orb_false_r.
  apply not_true_is_false. intros ->%Ascii.eqb_eq. congruence.
Qed.

Lemma ident_no_token name tok :
  identifier name = true -> tok ∈ forbiddenSelectTokens -> contains_str tok name = false.
Proof.
  intros Hn%ident_bytes Ht.
  assert (Hhead : exists c t, tok = String c t /\ ident_byte c = false).
  { unfold forbiddenSelectTokens in Ht. rewrite !elem_of_cons, elem_of_nil in Ht.
    repeat (destruct Ht as [->|Ht]; [by eexists _, _|]). done. }
  destruct Hhead as (c & t & -> & Hc). induction name as [|a s IH]; [done|].
  cbn [all_bytes] in Hn. apply andb_true_iff in Hn as [Ha Hs]. cbn [contains_str has_prefix].
  rewrite (IH Hs), orb_false_r. apply andb_false_iff. left. apply not_true_is_false.
  intros ->%Ascii.eqb_eq. congruence.
Qed.

Lemma find_none {A} (f : A -> bool) l : (forall x, x ∈ l -> f x = false) -> find f l = None.
Proof.
  induction l as [|x l IH]; intros H; [done|]. simpl. rewrite H by set_solver. apply IH. set_solver.
Qed.

(** An identifier passes the projection whitelist. *)
Lemma ident_valid_column name : identifier name = true -> ValidateSelectColumn name = None.
Proof.
  intros Hn. unfold ValidateSelectColumn. destruct (String.eqb name "*"); [done|].
  rewrite find_none by (intros; by apply ident_no_token). by rewrite (ident_free "(" name).
Qed.

Lemma checked_column_valid col : check_column col = Ok tt -> ValidateSelectColumn col = None.
Proof.
  unfold check_column. destruct (_ || _).
  - by destruct (ValidateSelectColumn col).
  - unfold validateIdentifier. destruct (identifier col) eqn:E; [|done]. intros _. by apply ident_valid_column.
Qed.

Lemma checked_columns_valid cols : first_error check_column cols = None -> first_invalid cols = None.
Proof.
  induction cols as [|col cols IH]; [done|]. cbn [first_error first_invalid].
  destruct (check_column col) as [[]|] eqn:E; [|done]. intros H.
  by rewrite (checked_column_valid _ E), IH.
Qed.

(** ** Conditions *)

Lemma validated name u : validateIdentifier name = Ok u -> identifier name = true.
Proof. unfold validateIdentifier. by destruct (identifier name). Qed.

(** The column of a parsed condition is an identifier. *)
Lemma parsed_column condition args registry col op v :
  parseCondition condition args registry = Ok (col, op, v) -> identifier col = true.
Proof.
  unfold parseCondition.
  assert (Hnull : forall c o, parse_nullary c o args = Ok (col, op, v) -> identifier col = true).
  { intros c o. unfold parse_nullary. destruct args; [|done].
    intros (u & Hu%validated & [= <- _ _])%res_bind_ok. exact Hu. }
  destruct (has_suffix " IS NOT NULL" _); [apply Hnull|].
  destruct (has_suffix " IS NULL" _); [apply Hnull|].
  destruct (fields (trim_space condition)) as [|c [|p1 ps]]; [done| |].
  - intros (u & Hu%validated & H)%res_bind_ok.
    destruct args as [|o [|w [|]]]; try congruence.
    destruct o; try done. destruct (operatorToken s registry); [congruence|done].
  - intros (u & Hu%validated & H)%res_bind_ok.
    destruct (split_operator p1 ps registry) as [operator [|r [|]]]; [| |done].
    + destruct args; [|done]. cbv zeta in H. case_match; congruence.
    + destruct (String.eqb r "?"); [|done]. destruct args as [|w [|]]; congruence.
Qed.

Lemma lookup_op_in registry op spec : lookup_op registry op = Some spec -> spec ∈ registry.*2.
Proof.
  induction registry as [|[k s] r IH]; [done|]. simpl. destruct (String.eqb k op); set_solver.
Qed.

Lemma lookup_trimmed_in registry op spec : lookup_trimmed registry op = Some spec -> spec ∈ registry.*2.
Proof.
  unfold lookup_trimmed. destruct (lookup_op registry (to_upper _)) eqn:E.
  - intros [= <-]. by apply lookup_op_in in E.
  - apply lookup_op_in.
Qed.

Lemma registered_postgres d spec :
  d ∈ drivers -> spec ∈ (OperatorRegistry d).*2 -> Grammar d = Postgres /\ spec ∈ postgresOperators.*2.
Proof.
  unfold drivers. rewrite !elem_of_cons, elem_of_nil. intros [->|[->|[->|[]]]] H; [done|..];
    simpl in H; by apply elem_of_nil in H.
Qed.

(** The columns of a condition are identifiers. *)
Fixpoint cond_named (c : Condition) : Prop :=
  match c with
  | mkCond column _ _ _ group _ =>
      match group with
      | [] => identifier column = true
      | _ => (fix all l := match l with [] => True | c :: l' => cond_named c /\ all l' end) group
      end
  end.

Definition good (d : Driver) (c : Condition) : Prop := cond_ok (Grammar d) c /\ cond_named c.

(** A condition the builder accepts is one the grammar handles. *)
Lemma checked_condition_ok d q condition args ty c :
  d ∈ drivers -> driver q = Some d -> ty = "and" \/ ty = "or" ->
  checked_condition q condition args ty = Ok c -> good d c.
Proof.
  intros Hd Hq Hty. unfold checked_condition.
  intros ([[col op] v] & Hp%parsed_column & H)%res_bind_ok.
  apply res_bind_ok in H as (spec & Hr & (v' & _ & [= <-])%res_bind_ok). split; [|exact Hp]. simpl. split; [done|].
  unfold resolveOperator in Hr. rewrite Hq in Hr.
  destruct (isValidOperator op) eqn:Ev.
  - destruct (_ && _); [done|]. injection Hr as <-. by apply valid_operator_neutral.
  - destruct (lookup_trimmed (OperatorRegistry d) op) as [s|] eqn:El; [|done].
    apply res_bind_ok in Hr as (u & _ & [= <-]). apply lookup_trimmed_in in El.
    destruct (registered_postgres d s Hd El) as [Hg Hs]. repeat split; [done|done|].
    by apply ident_free.
Qed.

(** ** Chains *)

(** The part of the invariant that needs no trust in the caller. *)
Definition wheres_ok (d : Driver) (q : Query) : Prop :=
  driver q = Some d /\ Forall (good d) (conditions q).

Lemma setErr_keeps op e q :
  driver (setErr op e q) = driver q /\ conditions (setErr op e q) = conditions q.
Proof. unfold setErr. by destruct (err q). Qed.

Lemma wheres_setErr d op e q : wheres_ok d q -> wheres_ok d (setErr op e q).
Proof. unfold wheres_ok. by destruct (setErr_keeps op e q) as [-> ->]. Qed.

Lemma wheres_append d c q : wheres_ok d q -> good d c -> wheres_ok d (append_condition c q).
Proof. intros [Hd Hq] Hc. split; [done|]. simpl. apply Forall_app. split; [done|by constructor]. Qed.

Lemma wheres_append_on d method field op v q :
  wheres_ok d q -> op_ok op -> wheres_ok d (append_on method field op v q).
Proof.
  intros Hq Ho. unfold append_on. destruct (validateIdentifier field) eqn:E.
  - apply validated in E. apply wheres_append; [done|]. split; [split; [by left|done]|done].
  - by apply wheres_setErr.
Qed.

Lemma wheres_where d q condition args ty method :
  d ∈ drivers -> ty = "and" \/ ty = "or" -> wheres_ok d q ->
  wheres_ok d (match checked_condition q condition args ty with
               | Ok c => append_condition c q
               | Err e => setErr method e q
               end).
Proof.
  intros Hd Hty Hq. destruct (checked_condition q condition args ty) as [c|e] eqn:E.
  - apply wheres_append; [done|]. destruct Hq as [Hdr _]. by eapply checked_condition_ok.
  - by apply wheres_setErr.
Qed.

Lemma wheres_group d q ty fn :
  ty = "and" \/ ty = "or" -> wheres_ok d q ->
  (forall sub, wheres_ok d sub -> wheres_ok d (fn sub)) -> wheres_ok d (appendGroup ty fn q).
Proof.
  intros Hty Hq Hfn. unfold appendGroup. cbv zeta.
  match goal with |- context [fn ?s] => assert (Hsub : wheres_ok d (fn s)) by
    (apply Hfn; split; [apply Hq|constructor]); destruct (err (fn s)); [by apply wheres_setErr|];
    destruct Hsub as [_ Hc]; destruct (conditions (fn s)) as [|c cs] end; [done|].
  apply wheres_append; [done|]. apply Forall_cons in Hc as [[Hc Hn] Hcs].
  split; [split; [done|]|]; (split; [done|]); clear -Hcs; induction Hcs as [|c' cs' []]; by try split.
Qed.

Lemma wheres_same d q q' :
  driver q' = driver q -> conditions q' = conditions q -> wheres_ok d q -> wheres_ok d q'.
Proof. unfold wheres_ok. by intros -> ->. Qed.

(** Every chain method keeps the WHERE conditions well formed. *)
Lemma wheres_call d : d ∈ drivers -> forall c q, wheres_ok d q -> wheres_ok d (call c q).
Proof.
  intros Hd. fix rec 1. intros c q Hq.
  destruct c as [| |calls|calls| | | | | | | | | | | | | | | | | | | | | | |]; cbn [call];
    try (by apply wheres_append_on);
    try (by apply (wheres_same d q));
    try (unfold OrderBy, GroupBy, Having_, Join_, LeftJoin, RightJoin, join_with, Select;
         case_match; [by apply (wheres_same d q)|by apply wheres_setErr]);
    try (unfold GroupBy, Select, OrderBy; case_match; [by apply wheres_setErr|by apply (wheres_same d q)]).
  - by apply wheres_where; [|left|].
  - by apply wheres_where; [|right|].
  - apply wheres_group; [by left|done|]. induction calls as [|c' calls IH]; intros sub Hsub; [done|].
    simpl. by apply IH, rec.
  - apply wheres_group; [by right|done|]. induction calls as [|c' calls IH]; intros sub Hsub; [done|].
    simpl. by apply IH, rec.
Qed.

(** What the caller is trusted with: the expression of SelectRaw. *)
Definition trusted (d : Driver) (c : Call) : Prop :=
  match c with CSelectRaw expr args => raw_ok (Grammar d) expr (List.length args) | _ => True end.

Record query_ok (d : Driver) (q : Query) : Prop := {
  qo_wheres : wheres_ok d q;
  qo_having : Forall (good d) (having q);
  qo_groups : Forall (fun g => identifier g = true) (groups q);
  qo_orders : Forall (order_ok (Grammar d)) (orders q);
  qo_joins : Forall (join_ok (Grammar d)) (joins q);
  qo_columns : first_invalid (columns q) = None;
  qo_raw : Forall (raw_column_ok (Grammar d)) (rawColumns q)
}.

Lemma query_ok_new d closed tbl soft upd : query_ok d (newQueryOn (Some d) closed tbl soft upd).
Proof. split; try split; done || constructor. Qed.

(** The rest of the clauses. *)
Definition rest_of (q : Query) :=
  (having q, groups q, orders q, joins q, columns q, rawColumns q).

Lemma query_ok_same d q q' :
  query_ok d q -> wheres_ok d q' -> rest_of q' = rest_of q -> query_ok d q'.
Proof. intros [] Hw [= E1 E2 E3 E4 E5 E6]. split; by rewrite ?E1, ?E2, ?E3, ?E4, ?E5, ?E6. Qed.

Lemma rest_setErr op e q : rest_of (setErr op e q) = rest_of q.
Proof. unfold setErr. by destruct (err q). Qed.

Lemma Forall_snoc {A} (P : A -> Prop) l x : Forall P l -> P x -> Forall P (l ++ [x]).
Proof. intros Hl Hx. apply Forall_app. split; [done|by constructor]. Qed.

Lemma drivers_dialects d : d ∈ drivers -> Grammar d ∈ dialects.
Proof.
  unfold drivers, dialects. rewrite !elem_of_cons, elem_of_nil. intros [->|[->|[->|[]]]]; simpl; auto.
Qed.

Lemma checked_identifiers names :
  first_error validateIdentifier names = None -> Forall (fun n => identifier n = true) names.
Proof.
  induction names as [|n names IH]; [constructor|]. cbn [first_error].
  destruct (validateIdentifier n) eqn:E; [|done]. intros H. constructor; [by eapply validated|auto].
Qed.

Lemma query_ok_err d op e q : query_ok d q -> query_ok d (setErr op e q).
Proof.
  intros Hq. apply (query_ok_same d q); [done| |apply rest_setErr].
  apply wheres_setErr, Hq.
Qed.

Lemma join_on_plain d first operator second q on :
  d ∈ drivers -> driver q = Some d -> buildJoinOn first operator second q = Ok on ->
  plain (Grammar d) on [].
Proof.
  intros Hd Hq. apply drivers_dialects in Hd. unfold buildJoinOn.
  intros (u & _ & (u' & _ & H)%res_bind_ok)%res_bind_ok.
  destruct (isValidOperator operator) eqn:Ev; [|done].
  apply res_bind_ok in H as (d' & Hl & [= <-]). unfold driverLive in Hl.
  destruct (mgr_closed q); [done|]. rewrite Hq in Hl. injection Hl as <-.
  change (plain (Grammar d) (QuoteIdentifier (Grammar d) first +:+ " " +:+ operator +:+ " "
                             +:+ QuoteIdentifier (Grammar d) second) []).
  apply plain_both; [by apply quoted_name_plain|].
  apply plain_both; [by apply neutral_plain|].
  apply plain_both; [apply neutral_plain; [done|by apply valid_operator_neutral]|].
  apply plain_both; [by apply neutral_plain|by apply quoted_name_plain].
Qed.

Lemma query_ok_join d method ty tbl first operator second q :
  d ∈ drivers -> all_bytes neutral ty = true -> query_ok d q ->
  query_ok d (join_with method ty tbl first operator second q).
Proof.
  intros Hd Hty Hq. unfold join_with.
  destruct (res_bind _ _) as [on|e] eqn:E; [|by apply query_ok_err].
  apply res_bind_ok in E as (u & _ & E). pose proof Hq as [[Hdr Hc] Hh Hg Ho Hj Hcol Hr].
  split; [by split|done|done|done| |done|done]. simpl. apply Forall_snoc; [done|].
  split; [done|]. by eapply join_on_plain.
Qed.

(** Every chain method keeps the query well formed. *)
Lemma query_ok_call d c q :
  d ∈ drivers -> trusted d c -> query_ok d q -> query_ok d (call c q).
Proof.
  intros Hd Ht Hq. pose proof Hq as [Hw Hh Hg Ho Hj Hcol Hr]. pose proof (wheres_call d Hd c q Hw) as Hw'.
  destruct c; cbn [call] in *; try (by apply (query_ok_same d q));
    try (by apply query_ok_join);
    try (unfold Where, OrWhere, WhereGroup, OrWhereGroup, appendGroup, append_on, WhereIn,
           WhereNotIn, WhereNull, WhereNotNull, WhereBetween, append_on in *; cbv zeta in *;
         repeat case_match; by apply (query_ok_same d q); rewrite ?rest_setErr).
  - unfold OrderBy in *. destruct (validateIdentifier column); [|by apply query_ok_err].
    split; try done. simpl. apply Forall_snoc; [done|]. split; [|by left]. simpl.
    generalize (to_upper (trim_space direction)). intros dir.
    destruct (String.eqb_spec dir "ASC") as [->|]; [done|].
    by destruct (String.eqb_spec dir "DESC") as [->|].
  - unfold GroupBy in *. destruct (first_error validateIdentifier cols) eqn:E; [by apply query_ok_err|].
    split; try done. simpl. apply Forall_app. split; [done|by apply checked_identifiers].
  - unfold Having_ in *. destruct (res_bind _ _) as [c|e] eqn:E; [|by apply query_ok_err].
    split; try done. simpl. apply Forall_snoc; [done|].
    apply res_bind_ok in E as (p & _ & (u & _ & E)%res_bind_ok).
    destruct Hw as [Hdr _]. by eapply checked_condition_ok; [| |left|].
  - unfold Select in *. destruct (first_error check_column cols) eqn:E; [by apply query_ok_err|].
    split; try done. by apply checked_columns_valid.
  - split; try done. simpl. by apply Forall_snoc.
Qed.

Lemma query_ok_chain d calls q :
  d ∈ drivers -> Forall (trusted d) calls -> query_ok d q -> query_ok d (chain calls q).
Proof.
  intros Hd. revert q. induction calls as [|c calls IH]; intros q Ht Hq; [done|].
  apply Forall_cons in Ht as [Hc Ht]. apply IH; [done|]. by apply query_ok_call.
Qed.

(** ** Operators as written

    In "col op ?" only two-word operators are upper-cased, while the grammars
    recognise IN and BETWEEN by their exact upper-case spelling: a lower-case
    "in" passes every check and binds the whole slice to one placeholder. *)
Theorem lowercase_in_is_not_expanded :
  exists c, checked_condition (newQueryOn (Some PostgresDriver) false "users" false false)
              "id in ?" [Slice [Other 1; Other 2]] "and" = Ok c
    /\ compile_condition Postgres c 1
       = (QuoteIdentifier Postgres "id" +:+ " in $1", [Slice [Other 1; Other 2]], 2).
Proof. eexists. split; reflexivity. Qed.

(** A value bound to IS NULL is dropped without an error. *)
Theorem value_of_is_null_is_dropped :
  exists c, checked_condition (newQueryOn (Some PostgresDriver) false "users" false false)
              "id IS NULL ?" [Other 1] "and" = Ok c
    /\ compile_condition Postgres c 1 = (QuoteIdentifier Postgres "id" +:+ " IS NULL", [], 1).
Proof. eexists. split; reflexivity. Qed.
