(* ===== verification/SqlTerminalSpec.v ===== *)
(** * The statements of the terminal methods

    Every statement a terminal sends for a chain of builder calls, its model's
    scopes included, binds its arguments one to one; Increment and Decrement,
    which edit a compiled DELETE, send what compiling the conditions after
    their own argument would have given. *)

From S2P Require Import Prelude GoStrings RouterTree SqlGrammar SqlSpec SqlStatement SqlQuery SqlTerminal SqlBuilder.
From Stdlib Require Import Ascii String.
Local Open Scope string_scope.
Local Open Scope list_scope.
Local Open Scope Z_scope.
Local Open Scope go_scope.

(** ** Renumbering placeholders *)

(** [s] becomes [s'], whatever follows that does not continue a number. *)
Definition shift (s s' : string) : Prop :=
  forall t, t = "" \/ starts t -> renumber (s +:+ t) = s' +:+ renumber t.

Lemma starts_not_digit c s : starts (String c s) -> is_digit c = false.
Proof. simpl. unfold digit_val, is_digit. case_match; [done|]. intros _. lia. Qed.

Lemma renumber_fixed s t : contains_byte "$" s = false -> renumber (s +:+ t) = s +:+ renumber t.
Proof.
  unfold renumber. induction s as [|c s IH]; intros Hs; [done|]. cbn [contains_byte] in Hs.
  apply orb_false_iff in Hs as [Hc Hs]. cbn [append renumber_from]. rewrite Hc, IH by done. done.
Qed.

Lemma shift_fixed s : contains_byte "$" s = false -> shift s s.
Proof. intros Hs t _. by apply renumber_fixed. Qed.

Lemma shift_after a b b' : contains_byte "$" a = false -> shift b b' -> shift (a +:+ b) (a +:+ b').
Proof. intros Ha Hb t Ht. rewrite append_assoc, renumber_fixed, Hb by done. by rewrite append_assoc. Qed.

Lemma shift_app a a' b b' : shift a a' -> b = "" \/ starts b -> shift b b' -> shift (a +:+ b) (a' +:+ b').
Proof.
  intros Ha Hst Hb t Ht. rewrite !append_assoc, Ha, Hb; [done|done|].
  destruct Hst as [->|Hs]; [done|]. right. by apply starts_app.
Qed.

Lemma renumber_digits ds digits t :
  all_bytes is_digit digits = true -> t = "" \/ starts t ->
  renumber_from (Some ds) (digits +:+ t) = bump (ds +:+ digits) +:+ renumber t.
Proof.
  revert ds. induction digits as [|c digits IH]; intros ds Hd Ht.
  - rewrite append_nil_r. change ("" +:+ t) with t. destruct Ht as [->|Ht]; [simpl; by rewrite append_nil_r|].
    destruct t as [|c t]; [done|]. cbn [renumber_from]. by rewrite (starts_not_digit c t Ht).
  - cbn [all_bytes] in Hd. apply andb_true_iff in Hd as [Hc Hd]. cbn [append renumber_from].
    rewrite Hc, IH by done. unfold byte_str. by rewrite append_assoc.
Qed.

Lemma shift_placeholder i :
  0 <= i < two63 - 1 -> shift (placeholder Postgres i) (placeholder Postgres (i + 1)).
Proof.
  intros Hi t Ht. unfold placeholder. simpl. unfold dollarPlaceholder, renumber. cbn [append renumber_from].
  rewrite renumber_digits by (done || by apply itoa_digits; lia). simpl. unfold bump.
  destruct (String.eqb_spec (itoa i) "") as [E|_]; [by apply itoa_ne in E|].
  rewrite Atoi_itoa by lia. rewrite wrap64_small by width. unfold decimal.
  destruct (Z.ltb_spec (i + 1) 0); [lia|done].
Qed.

Lemma placeholder_join_starts n i : join ", " (placeholders Postgres n i) = "" \/ starts (join ", " (placeholders Postgres n i)).
Proof.
  destruct n as [|[|n]]; [by left|right; apply placeholder_starts|]. right.
  change (placeholders Postgres (S (S n)) i) with (placeholder Postgres i :: placeholders Postgres (S n) (i + 1)).
  rewrite join_cons by done. apply starts_app, placeholder_starts.
Qed.

Lemma shift_placeholders n i :
  0 <= i -> i + Z.of_nat n < two63 ->
  shift (join ", " (placeholders Postgres n i)) (join ", " (placeholders Postgres n (i + 1))).
Proof.
  revert i. induction n as [|n IH]; intros i Hi Hn; [by apply shift_fixed|]. cbn [placeholders].
  destruct n as [|n]; [apply shift_placeholder; lia|]. rewrite !join_cons by done.
  apply shift_app; [apply shift_placeholder; lia|by right|].
  apply shift_after; [done|]. apply IH; lia.
Qed.

(** *** Conditions *)

(** Compiling one index later. *)
Definition shifted (r r' : string * list Value * Z) : Prop :=
  shift r.1.1 r'.1.1 /\ r'.1.2 = r.1.2 /\ r'.2 = r.2 + 1.

Lemma name_no_dollar name : identifier name = true -> contains_byte "$" (QuoteIdentifier Postgres name) = false.
Proof. intros H. apply quoted_name_free; [done|done|]. by apply ident_free. Qed.

Lemma neutral_no_dollar s : all_bytes neutral s = true -> contains_byte "$" s = false.
Proof.
  induction s as [|c s IH]; [done|]. cbn [all_bytes contains_byte]. intros [Hc Hs]%andb_true_iff.
  rewrite IH by done. rewrite orb_false_r. apply not_true_is_false. intros ->%Ascii.eqb_eq. done.
Qed.

Lemma shifted_leaf column operator v i :
  identifier column = true -> op_ok operator -> 0 <= i ->
  (compile_leaf Postgres column operator v i).2 < two63 ->
  shifted (compile_leaf Postgres column operator v i) (compile_leaf Postgres column operator v (i + 1)).
Proof.
  intros Hc Ho Hi. unfold compile_leaf.
  set (head := QuoteIdentifier Postgres column +:+ " " +:+ operator).
  assert (Hh : contains_byte "$" head = false).
  { subst head. rewrite !contains_byte_app, name_no_dollar, (neutral_no_dollar operator) by done. done. }
  assert (Hconst : forall s, contains_byte "$" s = false -> shifted (s, [], i) (s, [], i + 1)).
  { intros s Hs. split; [by apply shift_fixed|done]. }
  set (values := match v with Slice l => l | _ => [] end).
  destruct ((String.eqb operator "IN" || _) && _).
  { intros _. apply Hconst. by destruct (String.eqb operator "IN"). }
  destruct (String.eqb operator "IS NULL" || _); [intros _; by apply Hconst|].
  destruct (String.eqb operator "IN" || _).
  { cbn [snd]. intros Hn. split; [|cbn [fst snd]; split; [done|lia]]. cbn [fst snd].
    apply shift_after; [done|]. apply shift_after; [done|].
    apply shift_app; [by apply shift_placeholders|by right|by apply shift_fixed]. }
  destruct (String.eqb operator "BETWEEN" || _).
  - destruct v as [| |[|a [|b [|]]]| | | | |]; try (intros _; by apply Hconst).
    cbn [snd]. intros Hn. split; [|cbn [fst snd]; split; [done|lia]]. cbn [fst snd].
    apply shift_after; [done|]. apply shift_after; [done|].
    apply shift_app; [apply shift_placeholder; lia|by right|].
    apply shift_after; [done|].
    replace (i + 1 + 1) with ((i + 1) + 1) by lia. apply shift_placeholder; lia.
  - cbn [snd]. intros Hn. split; [|cbn [fst snd]; split; [done|lia]]. cbn [fst snd].
    apply shift_after; [done|]. apply shift_after; [done|]. apply shift_placeholder; lia.
Qed.

Lemma shifted_bound spec v i :
  0 <= i -> (bindOperatorValue Postgres spec v i).2 < two63 ->
  shifted (bindOperatorValue Postgres spec v i) (bindOperatorValue Postgres spec v (i + 1)).
Proof.
  intros Hi.
  assert (Hone : i + 1 < two63 ->
    shifted (placeholder Postgres i, [v], i + 1) (placeholder Postgres (i + 1), [v], i + 1 + 1)).
  { intros H. split; [|done]. apply shift_placeholder. lia. }
  assert (Hmany : forall a b (l : list Value), contains_byte "$" a = false -> contains_byte "$" b = false ->
    starts b -> i + Z.of_nat (List.length l) < two63 ->
    shifted (a +:+ join ", " (placeholders Postgres (List.length l) i) +:+ b, l, i + Z.of_nat (List.length l))
      (a +:+ join ", " (placeholders Postgres (List.length l) (i + 1)) +:+ b, l,
       i + 1 + Z.of_nat (List.length l))).
  { intros a b l Ha Hb Hsb Hl. split; [|cbn [fst snd]; split; [done|lia]]. cbn [fst snd].
    apply shift_after; [done|]. apply shift_app; [by apply shift_placeholders|by right|by apply shift_fixed]. }
  unfold bindOperatorValue. destruct (Shape spec), v as [| |[|v' l]| | | | |]; try exact Hone;
    intros Hl; by apply Hmany.
Qed.

Lemma inert_no_dollar s : all_bytes (inert Postgres) s = true -> contains_byte "$" s = false.
Proof.
  induction s as [|c s IH]; [done|]. cbn [all_bytes contains_byte]. intros [Hc Hs]%andb_true_iff.
  rewrite IH by done. rewrite orb_false_r. apply not_true_is_false. intros ->%Ascii.eqb_eq. done.
Qed.

Lemma shifted_operator spec column v i :
  spec ∈ postgresOperators.*2 -> identifier column = true -> 0 <= i ->
  (renderOperatorTemplate Postgres spec column v i).2 < two63 ->
  shifted (renderOperatorTemplate Postgres spec column v i) (renderOperatorTemplate Postgres spec column v (i + 1)).
Proof.
  intros Hspec Hcol Hi. destruct (registered_templates spec Hspec) as (mid & post & Ht).
  assert (Hbr : contains_byte "{" (QuoteIdentifier Postgres column) = false).
  { apply quoted_name_free; [done|done|]. by apply ident_free. }
  pose proof (shifted_bound spec v i Hi) as Hb. unfold renderOperatorTemplate.
  destruct (bindOperatorValue Postgres spec v i) as [[rhs args] i1].
  destruct (bindOperatorValue Postgres spec v (i + 1)) as [[rhs' args'] i2].
  rewrite !(template_text spec mid post) by done.
  destruct Ht as (_ & _ & _ & Hmid & Hpost & _ & Hst). cbn [snd] in *. intros Hn.
  destruct (Hb Hn) as (Hs & Ha & He). split; [|done]. cbn [fst snd] in *.
  apply shift_after; [by apply name_no_dollar|]. apply shift_after; [by apply inert_no_dollar|].
  apply shift_app; [done|done|]. by apply shift_fixed, inert_no_dollar.
Qed.

(** Compiling never lowers the index. *)
Definition grows (compile : Condition -> Z -> string * list Value * Z) (c : Condition) : Prop :=
  forall i, 0 <= i -> i <= (compile c i).2.

Lemma loop_grows compile cs first i :
  Forall (grows compile) cs -> 0 <= i -> i <= (conditions_loop compile cs first i).2.
Proof.
  intros Hc. revert first i. induction Hc as [|c cs Hc _ IH]; intros first i Hi; simpl; [lia|].
  pose proof (Hc i Hi) as H1. destruct (compile c i) as [[s args] i1]. simpl in H1.
  pose proof (IH false i1 ltac:(lia)) as H2.
  destruct (conditions_loop compile cs false i1) as [[s' args'] i2]. simpl in *. lia.
Qed.

Lemma loop_starts compile cs i :
  let r := conditions_loop compile cs false i in r.1.1 = "" \/ starts r.1.1.
Proof.
  destruct cs as [|c cs]; [by left|]. right. simpl. destruct (compile c i) as [[s args] i1].
  by destruct (conditions_loop compile cs false i1) as [[s' args'] i2].
Qed.

Lemma shifted_loop compile cs first i :
  Forall (fun c => Type_ c = "and" \/ Type_ c = "or") cs -> Forall (grows compile) cs ->
  Forall (fun c => forall i, 0 <= i -> (compile c i).2 < two63 -> shifted (compile c i) (compile c (i + 1))) cs ->
  0 <= i -> (conditions_loop compile cs first i).2 < two63 ->
  shifted (conditions_loop compile cs first i) (conditions_loop compile cs first (i + 1)).
Proof.
  revert first i. induction cs as [|c cs IH]; intros first i Ht Hg Hc Hi; cbn [conditions_loop].
  { intros _. split; [by apply shift_fixed|done]. }
  apply Forall_cons in Ht as [Htc Ht]. apply Forall_cons in Hg as [Hgc Hg]. apply Forall_cons in Hc as [Hcc Hc].
  pose proof (Hgc i Hi) as Hg1. pose proof (Hcc i Hi) as Hc1.
  destruct (compile c i) as [[s args] i1]. destruct (compile c (i + 1)) as [[s1 args1] i1'].
  cbn [fst snd] in *. pose proof (loop_grows compile cs false i1 Hg ltac:(lia)) as Hg2.
  pose proof (IH false i1 Ht Hg Hc ltac:(lia)) as Hl. pose proof (loop_starts compile cs i1) as Hst.
  destruct (conditions_loop compile cs false i1) as [[s2 args2] i2] eqn:E2. cbn [fst snd] in *.
  intros Hn. destruct (Hc1 ltac:(lia)) as (Hs1 & Ha1 & He1). cbn [fst snd] in *. subst i1'.
  destruct (Hl Hn) as (Hs2 & Ha2 & He2).
  destruct (conditions_loop compile cs false (i1 + 1)) as [[s2' args2'] i2'].
  cbn [fst snd] in *. subst. split; [|done]. cbn [fst snd]. apply shift_app; [|done|done].
  destruct first; [done|]. apply shift_after; [done|].
  apply shift_after; [by destruct Htc as [->| ->]|]. by apply shift_after.
Qed.

Lemma postgres_dialect : Postgres ∈ dialects.
Proof. unfold dialects. set_solver. Qed.

Lemma condition_grows c : cond_ok Postgres c -> grows (compile_condition Postgres) c.
Proof.
  intros Hc i Hi. destruct (compiled_condition Postgres c i postgres_dialect Hc Hi) as [_ ->]. lia.
Qed.

(** Both parts of [good], of the members of a group. *)
Definition fine (c : Condition) : Prop := cond_ok Postgres c /\ cond_named c.

Lemma group_fine column operator v ty g gs spec :
  fine (mkCond column operator v ty (g :: gs) spec) -> Forall fine (g :: gs).
Proof.
  intros [[_ [Hg Hgs]] [Ng Ngs]]. constructor; [done|]. clear -Hgs Ngs.
  induction gs as [|c gs IH]; [constructor|]. destruct Hgs, Ngs. constructor; [done|auto].
Qed.

Lemma fine_types cs : Forall fine cs -> Forall (fun c => Type_ c = "and" \/ Type_ c = "or") cs.
Proof. intros H. eapply Forall_impl; [exact H|]. by intros [] [[? _] _]. Qed.

Lemma fine_grows cs : Forall fine cs -> Forall (grows (compile_condition Postgres)) cs.
Proof. intros H. eapply Forall_impl; [exact H|]. intros c [Hc _]. by apply condition_grows. Qed.

Lemma shifted_condition c i :
  fine c -> 0 <= i -> (compile_condition Postgres c i).2 < two63 ->
  shifted (compile_condition Postgres c i) (compile_condition Postgres c (i + 1)).
Proof.
  revert i. induction c as [column operator v ty group spec IH] using Condition_ind.
  intros i Hf Hi. destruct group as [|g gs].
  - destruct Hf as [[_ Hok] Hn]. cbn [compile_condition]. destruct spec as [spec|].
    + destruct Hok as (_ & Hs & _). by apply shifted_operator.
    + by apply shifted_leaf.
  - pose proof (group_fine _ _ _ _ _ _ _ Hf) as Hall. cbn [compile_condition].
    pose proof (shifted_loop (compile_condition Postgres) (g :: gs) true i (fine_types _ Hall)
      (fine_grows _ Hall)) as Hl.
    destruct (conditions_loop (compile_condition Postgres) (g :: gs) true i) as [[s args] i1].
    destruct (conditions_loop (compile_condition Postgres) (g :: gs) true (i + 1)) as [[s' args'] i1'].
    cbn [fst snd] in *. intros Hn. destruct Hl as (Hs & Ha & He); [|done|done|].
    { rewrite Forall_forall in IH, Hall |- *. auto. }
    split; [|done]. cbn [fst snd] in *. apply shift_after; [done|].
    apply shift_app; [done|by right|by apply shift_fixed].
Qed.

Lemma shifted_clause cs :
  Forall fine cs -> Z.of_nat (List.length (clause Postgres " WHERE " cs 1).2) < two63 - 1 ->
  (clause Postgres " WHERE " cs 2).1 = renumber (clause Postgres " WHERE " cs 1).1
  /\ (clause Postgres " WHERE " cs 2).2 = (clause Postgres " WHERE " cs 1).2.
Proof.
  intros Hf. unfold clause. destruct cs as [|c cs]; [done|]. unfold compileConditions.
  assert (Hc : Forall (cond_ok Postgres) (c :: cs)).
  { eapply Forall_impl; [exact Hf|]. by intros x []. }
  destruct (compiled_conditions Postgres (c :: cs) 1 postgres_dialect Hc ltac:(lia)) as [_ He].
  unfold compileConditions in He.
  pose proof (shifted_loop (compile_condition Postgres) (c :: cs) true 1 (fine_types _ Hf)
    (fine_grows _ Hf)) as Hl. change (1 + 1) with 2 in Hl.
  destruct (conditions_loop (compile_condition Postgres) (c :: cs) true 1) as [[s args] i1].
  destruct (conditions_loop (compile_condition Postgres) (c :: cs) true 2) as [[s' args'] i1'].
  cbn [fst snd] in *. intros Hn. destruct Hl as (Hs & Ha & _); [|lia|lia|].
  { eapply Forall_impl; [exact Hf|]. intros x Hx i. by apply shifted_condition. }
  cbn [fst snd] in *. split; [|done]. specialize (Hs "" ltac:(by left)).
  rewrite append_nil_r in Hs. rewrite renumber_fixed by done. rewrite Hs. cbn. by rewrite append_nil_r.
Qed.

(** *** The WHERE clause of a compiled DELETE *)

Lemma from_first_skip a b : contains_byte " " a = false -> from_first " WHERE " (a +:+ b) = from_first " WHERE " b.
Proof.
  induction a as [|c a IH]; intros Ha; [done|]. cbn [contains_byte] in Ha.
  apply orb_false_iff in Ha as [Hc Ha]. cbn [append from_first has_prefix].
  rewrite Ascii.eqb_sym, Hc. cbn [andb]. by apply IH.
Qed.

Lemma from_first_space t :
  has_prefix "WHERE " t = false -> from_first " WHERE " (String " " t) = from_first " WHERE " t.
Proof. intros H. cbn [from_first]. change (has_prefix " WHERE " (String " " t)) with (has_prefix "WHERE " t). by rewrite H. Qed.

Lemma quoted_head d name :
  d ∈ dialects -> identifier name = true -> exists r, QuoteIdentifier d name = String (quote_byte d) r.
Proof.
  intros Hd Hn. unfold QuoteIdentifier, quoteQualified. destruct name as [|c s]; [done|].
  cbn [identifier] in Hn. apply andb_true_iff in Hn as [Hc _].
  assert (Hdot : Ascii.eqb c "." = false) by (apply not_true_is_false; by intros ->%Ascii.eqb_eq).
  assert (Hstar : Ascii.eqb c "*" = false) by (apply not_true_is_false; by intros ->%Ascii.eqb_eq).
  cbn [split_on]. rewrite Hdot. destruct (split_on "." s) as [|p ps]; rewrite fmap_cons;
    cbn [String.eqb]; rewrite Hstar; unfold quoteSegment, byte_str at 1.
  - simpl. by eexists.
  - destruct ps as [|p' ps]; [by eexists|]. rewrite join_cons by done. by eexists.
Qed.

Lemma name_no_space d name :
  d ∈ dialects -> identifier name = true -> contains_byte " " (QuoteIdentifier d name) = false.
Proof.
  intros Hd Hn. apply quoted_name_free; [|done|by apply ident_free].
  unfold dialects in Hd. rewrite !elem_of_cons, elem_of_nil in Hd. by destruct Hd as [->|[->|[->|[]]]].
Qed.

Lemma where_found d tbl cs :
  d ∈ dialects -> identifier tbl = true ->
  from_first " WHERE " (CompileDelete d tbl cs).1
  = match cs with [] => None | _ => Some (clause d " WHERE " cs 1).1 end.
Proof.
  intros Hd Hn. unfold CompileDelete.
  assert (Hskip : forall rest, from_first " WHERE " ("DELETE FROM " +:+ QuoteIdentifier d tbl +:+ rest)
                               = from_first " WHERE " rest).
  { intros rest.
    change ("DELETE FROM " +:+ ?s) with ("DELETE" +:+ String " " ("FROM" +:+ String " " s)).
    rewrite from_first_skip, from_first_space, from_first_skip by done.
    rewrite from_first_space; [by apply from_first_skip, name_no_space|].
    destruct (quoted_head d tbl Hd Hn) as [r ->]. cbn [append has_prefix].
    unfold dialects in Hd. rewrite !elem_of_cons, elem_of_nil in Hd. by destruct Hd as [->|[->|[->|[]]]]. }
  destruct cs as [|c cs]; [exact (Hskip "")|]. unfold clause.
  destruct (compileConditions d (c :: cs) 1) as [[s args] i]. cbn [fst]. by rewrite Hskip.
Qed.

(** ** Chains with their scopes *)

(** A scope calls chain methods, which it may choose by the query's state. *)
Definition scope_ok (d : Driver) (e : scopeEntry) : Prop :=
  forall q, exists calls, Forall (trusted d) calls /\ e_apply e q = chain calls q.

Lemma soft_delete_scope_ok d name order : scope_ok d (mkEntry name soft_delete_scope order).
Proof.
  intros q. simpl. unfold soft_delete_scope. destruct (withTrashed q).
  - destruct (onlyTrashed q); [exists [CWhereNotNull "deleted_at"]|exists []]; by repeat constructor.
  - exists [CWhereNull "deleted_at"]. by repeat constructor.
Qed.

Lemma call_table c q : table (call c q) = table q.
Proof.
  assert (Herr : forall op e, table (setErr op e q) = table q) by (intros; unfold setErr; by destruct (err q)).
  destruct c; cbn [call];
    unfold Where, OrWhere, WhereGroup, OrWhereGroup, appendGroup, WhereIn, WhereNotIn, WhereNull,
      WhereNotNull, WhereBetween, append_on, OrderBy, GroupBy, Having_, Join_, LeftJoin, RightJoin,
      join_with, Select; cbv zeta; repeat case_match; done || apply Herr.
Qed.

Lemma chain_table calls q : table (chain calls q) = table q.
Proof.
  revert q. induction calls as [|c calls IH]; intros q; [done|]. simpl. unfold chain in IH.
  by rewrite IH, call_table.
Qed.

Lemma applied_ok d snapshot q :
  d ∈ drivers -> Forall (scope_ok d) snapshot -> query_ok d q ->
  query_ok d (applyGlobalScopes snapshot q) /\ table (applyGlobalScopes snapshot q) = table q.
Proof.
  intros Hd Hs Hq. unfold applyGlobalScopes. destruct (globalScopesApplied q); [done|].
  change (table q) with (table (set_globalScopesApplied true q)).
  assert (Hq1 : query_ok d (set_globalScopesApplied true q)).
  { apply (query_ok_same d q); [done|apply Hq|done]. }
  clear Hq. revert Hq1. generalize (set_globalScopesApplied true q). clear q.
  induction Hs as [|e snapshot He _ IH]; intros q Hq; simpl; [done|].
  case_bool_decide; [by apply IH|]. destruct (He q) as (calls & Ht & ->).
  destruct (IH (chain calls q)) as [H1 H2]; [by apply query_ok_chain|].
  split; [done|]. by rewrite H2, chain_table.
Qed.

Lemma ready_ok d snapshot q q' d' :
  d ∈ drivers -> Forall (scope_ok d) snapshot -> query_ok d q -> ready snapshot q = Ok (q', d') ->
  query_ok d q' /\ d' = d /\ table q' = table q.
Proof.
  intros Hd Hs Hq. unfold ready. destruct (err q); [done|].
  intros (d0 & Hl & H)%res_bind_ok. destruct (applied_ok d snapshot q Hd Hs Hq) as [Hq1 Ht].
  cbv zeta in H. destruct (err (applyGlobalScopes snapshot q)); [done|]. injection H as <- <-.
  split; [done|]. split; [|done]. unfold driverLive in Hl. destruct (mgr_closed q); [done|].
  destruct Hq as [[Hdr _]]. rewrite Hdr in Hl. by injection Hl as <-.
Qed.

Section terminals.
Context `{GQ : GoQuote}.

Lemma increment_text snapshot column op amount q q' sql args :
  query_ok PostgresDriver q -> Forall (scope_ok PostgresDriver) snapshot -> identifier (table q) = true ->
  incrementOrDecrement snapshot column op amount q = Ok (q', (sql, args)) ->
  Z.of_nat (List.length args) < two63 ->
  let quoted := QuoteIdentifier Postgres column in
  let whereClause := clause Postgres " WHERE " (conditions q') 2 in
  sql = ("UPDATE " +:+ QuoteIdentifier Postgres (table q') +:+ " SET " +:+ quoted +:+ " = " +:+ quoted
         +:+ " " +:+ op +:+ " $1") +:+ whereClause.1
  /\ args = Other (match amount with [] => 1 | a :: _ => a end) :: whereClause.2.
Proof.
  intros Hq Hs Ht. unfold incrementOrDecrement. destruct (validateIdentifier column); [|done].
  intros ([q1 d] & Hr & H)%res_bind_ok.
  destruct (ready_ok PostgresDriver snapshot q q1 d) as (Hq1 & -> & Etab); [unfold drivers; set_solver|done..|].
  cbn [Grammar PostgresDriver DriverName] in H.
  pose proof (where_found Postgres (table q1) (conditions q1) postgres_dialect ltac:(by rewrite Etab)) as Hw.
  pose proof (shifted_clause (conditions q1)) as Hsc.
  unfold CompileDelete in H, Hw. destruct (clause Postgres " WHERE " (conditions q1) 1) as [wt wargs] eqn:Ec.
  cbn [fst snd] in *. rewrite Hw in H. injection H as <- <- <-. cbn [List.length]. intros Hn.
  destruct Hsc as [E1 E2]; [apply Hq1|lia|]. rewrite E1, E2. split; [|done].
  destruct (conditions q1) as [|c cs].
  - unfold clause in Ec. injection Ec as <- <-. done.
  - done.
Qed.
(** ** The statements of a terminal *)

(** What the terminals read of the model besides the query. *)
Context (meta : list ColumnMeta) (hookPK : option string).

Inductive Terminal :=
  | TGet
  | TFirst
  | TFind (id : Value)
  | TCount
  | TPluck (column : string)
  | TAggregate (fn column : string)
  | TUpdate (iter : gmap string Value -> list (string * Value)) (now : Value) (updates : gmap string Value)
  | TDelete (iter : gmap string Value -> list (string * Value)) (now : Value)
  | TForceDelete
  | TInsertGetId (iter : list string) (data : gmap string Value)
  | TInsertExec (iter : list string) (data : gmap string Value)
  | TIncrement (column : string) (amount : list Z)
  | TDecrement (column : string) (amount : list Z).

(** The statement a terminal sends. *)
Definition run (t : Terminal) (snapshot : list scopeEntry) (q : Query) : result QueryError (string * list Value) :=
  let sent_of (m : result QueryError Sent) := (r <-! m ;; Ok r.2) in
  match t with
  | TGet => sent_of (Get snapshot q)
  | TFirst => sent_of (First snapshot q)
  | TFind id => sent_of (Find snapshot id q)
  | TCount => sent_of (Count snapshot q)
  | TPluck column => sent_of (Pluck snapshot column q)
  | TAggregate fn column => sent_of (aggregate snapshot fn column q)
  | TUpdate iter now updates => sent_of (bulkUpdate snapshot meta hookPK iter now updates q)
  | TDelete iter now => sent_of (Delete snapshot meta hookPK iter now q)
  | TForceDelete => sent_of (ForceDelete snapshot hookPK q)
  | TInsertGetId iter data => InsertGetId iter data q
  | TInsertExec iter data => insertExec iter data q
  | TIncrement column amount => sent_of (incrementOrDecrement snapshot column "+" amount q)
  | TDecrement column amount => sent_of (incrementOrDecrement snapshot column "-" amount q)
  end.

(** Sum, Avg, Min and Max name the function; a map is iterated in some order;
    raw SQL values are trusted. *)
Definition terminal_ok (d : Driver) (t : Terminal) : Prop :=
  let values (m : gmap string Value) := map_Forall (fun _ v => value_ok (Grammar d) v) m in
  match t with
  | TAggregate fn _ => fn ∈ ["SUM"; "AVG"; "MIN"; "MAX"]
  | TUpdate iter now updates =>
      (forall u, iter u ≡ₚ map_to_list u) /\ value_ok (Grammar d) now /\ values updates
  | TDelete iter now => (forall u, iter u ≡ₚ map_to_list u) /\ value_ok (Grammar d) now
  | TInsertGetId _ data | TInsertExec _ data => values data
  | _ => True
  end.

(** *** Reads *)

Lemma good_conds d cs : Forall (good d) cs -> Forall (cond_ok (Grammar d)) cs.
Proof. intros H. eapply Forall_impl; [exact H|]. by intros c []. Qed.

Lemma assembled_ok d q cols raws os gs hs l o dist lk sk :
  query_ok d q -> first_invalid cols = None -> Forall (raw_column_ok (Grammar d)) raws ->
  Forall (order_ok (Grammar d)) os -> Forall (good d) hs ->
  select_ok (Grammar d) (mkSelect (table q) cols raws (conditions q) os gs hs l o (joins q) dist lk sk).
Proof.
  intros [[_ Hc] _ _ _ Hj _ _] Hcols Hr Ho Hh. split; simpl; try done; by apply good_conds.
Qed.

Lemma identifiers_valid names : Forall (fun n => identifier n = true) names -> first_invalid names = None.
Proof. induction 1 as [|n names Hn _ IH]; [done|]. simpl. by rewrite ident_valid_column. Qed.

(** Without placeholders of either form a text reads the same in both. *)
Lemma scan_question d m ev s :
  m <> Num -> contains_byte "?" s = false -> contains_byte "$" s = false ->
  scan (as_question d) (m, ev) s = scan d (m, ev) s.
Proof.
  revert m. induction s as [|c s IH]; intros m Hm Hq Hd; [done|]. cbn [contains_byte] in *.
  apply orb_false_iff in Hq as [Cq Hq], Hd as [Cd Hd]. cbn [scan].
  assert (Hstep : exists m', m' <> Num /\ scan_step (as_question d) (m, ev) c = (m', ev)
                             /\ scan_step d (m, ev) c = (m', ev)).
  { destruct m as [| |q]; [|done|].
    - cbn [scan_step]. unfold plain_step. change (is_quote (as_question d) c) with (is_quote d c).
      destruct (is_quote d c); [by exists (Quoted c)|]. exists Plain. simpl. rewrite Cq, Cd.
      by destruct (indexed d).
    - cbn [scan_step]. destruct (Ascii.eqb c q); [by exists Plain|by exists (Quoted q)]. }
  destruct Hstep as (m' & Hm' & -> & ->). by apply IH.
Qed.

Lemma no_glued_free s : contains_byte "?" s = false -> no_glued s = true.
Proof.
  induction s as [|c s IH]; [done|]. cbn [contains_byte no_glued]. intros [Hc Hs]%orb_false_iff.
  by rewrite Hc, IH.
Qed.

Lemma closed_raw_ok d s :
  plain d s [] -> contains_byte "?" s = false -> contains_byte "$" s = false -> raw_ok d s 0.
Proof.
  intros Hp Hq Hd. split; [rewrite scan_question by done; apply Hp|].
  intros _. split; [done|by apply no_glued_free].
Qed.

Lemma aggregate_raw_ok d fn column :
  d ∈ drivers -> fn ∈ ["SUM"; "AVG"; "MIN"; "MAX"] -> identifier column = true ->
  raw_ok (Grammar d) (fn +:+ "(" +:+ QuoteIdentifier (Grammar d) column +:+ ") AS agg") 0.
Proof.
  intros Hd%drivers_dialects Hfn Hc.
  assert (Hf : all_bytes neutral fn = true /\ contains_byte "?" fn = false /\ contains_byte "$" fn = false).
  { rewrite !elem_of_cons, elem_of_nil in Hfn. by destruct Hfn as [->|[->|[->|[->|[]]]]]. }
  assert (Hfree : forall c, c = "?"%char \/ c = "$"%char ->
    contains_byte c (QuoteIdentifier (Grammar d) column) = false).
  { intros c Hch. apply quoted_name_free; [|by destruct Hch as [->| ->]|].
    - unfold dialects in Hd. rewrite !elem_of_cons, elem_of_nil in Hd.
      by destruct Hd as [->|[->|[->|[]]]], Hch as [->| ->].
    - apply ident_free; [by destruct Hch as [->| ->]|done]. }
  destruct Hf as (Hn & H1 & H2). apply closed_raw_ok.
  - apply plain_both; [by apply neutral_plain|]. apply plain_both; [by apply neutral_plain|].
    apply plain_both; [by apply quoted_name_plain|by apply neutral_plain].
  - rewrite !contains_byte_app, H1, Hfree by auto. done.
  - rewrite !contains_byte_app, H2, Hfree by auto. done.
Qed.

(** A terminal after [ready]: the query is well formed and its driver known. *)
Lemma after_ready {A} d snapshot q (k : Query * Driver -> result QueryError A) r :
  d ∈ drivers -> Forall (scope_ok d) snapshot -> query_ok d q ->
  res_bind (ready snapshot q) k = Ok r ->
  exists q', query_ok d q' /\ table q' = table q /\ k (q', d) = Ok r.
Proof.
  intros Hd Hs Hq ([q' d'] & Hr & Hk)%res_bind_ok.
  destruct (ready_ok d snapshot q q' d' Hd Hs Hq Hr) as (Hq' & -> & Ht). eauto.
Qed.

Lemma get_numbered d snapshot q r :
  d ∈ drivers -> Forall (scope_ok d) snapshot -> query_ok d q ->
  Get snapshot q = Ok r -> numbered (Grammar d) r.2.
Proof.
  intros Hd Hs Hq (q' & Hq' & _ & H)%(after_ready d); [|done..]. apply Ok_inj in H as <-. cbn [snd].
  apply select_numbered; [by apply drivers_dialects|]. by apply assembled_ok; try apply Hq'.
Qed.

Lemma count_numbered d snapshot q r :
  d ∈ drivers -> Forall (scope_ok d) snapshot -> query_ok d q ->
  Count snapshot q = Ok r -> numbered (Grammar d) r.2.
Proof.
  intros Hd Hs Hq (q' & Hq' & _ & H)%(after_ready d); [|done..].
  pose proof (drivers_dialects d Hd) as Hg. cbv beta iota zeta in H.
  destruct (nonempty (groups q') || distinct q').
  - match type of H with context [CompileSelect _ (mkSelect _ ?cols _ _ _ _ _ _ _ _ _ _ _)] =>
      assert (Hc : first_invalid cols = None) end.
    { destruct (nonempty (groups q') && _ && _); [by apply identifiers_valid, Hq'|apply Hq']. }
    match type of H with context [CompileSelect _ ?sel] =>
      assert (Hn : numbered (Grammar d) (CompileSelect (Grammar d) sel)) end.
    { apply select_numbered; [done|]. apply assembled_ok; try done; apply Hq'. }
    destruct (CompileSelect (Grammar d) _) as [isql iargs]. apply Ok_inj in H as <-. cbn [snd].
    unfold numbered in *. cbn [fst snd] in *. apply plain_then; [by apply neutral_plain|].
    apply frag_then; [done|done|by apply neutral_plain].
  - apply Ok_inj in H as <-. cbn [snd]. apply select_numbered; [done|].
    apply assembled_ok; [done|done| |constructor|constructor]. constructor; [|constructor].
    apply closed_raw_ok; [by apply neutral_plain|done|done].
Qed.

Lemma pluck_numbered d snapshot column q r :
  d ∈ drivers -> Forall (scope_ok d) snapshot -> query_ok d q ->
  Pluck snapshot column q = Ok r -> numbered (Grammar d) r.2.
Proof.
  intros Hd Hs Hq H. unfold Pluck in H. apply (after_ready d) in H as (q' & Hq' & _ & H); [|done..|].
  - apply Ok_inj in H as <-. cbn [snd]. pose proof (query_ok_call d (CSelect [column]) q' Hd I Hq') as Hq2.
    cbn [call] in Hq2. apply select_numbered; [by apply drivers_dialects|].
    apply assembled_ok; try apply Hq2; constructor.
  - destruct (validateIdentifier column); [done|by apply query_ok_err].
Qed.

Lemma aggregate_numbered d snapshot fn column q r :
  d ∈ drivers -> Forall (scope_ok d) snapshot -> query_ok d q -> fn ∈ ["SUM"; "AVG"; "MIN"; "MAX"] ->
  aggregate snapshot fn column q = Ok r -> numbered (Grammar d) r.2.
Proof.
  intros Hd Hs Hq Hfn. unfold aggregate. destruct (validateIdentifier column) eqn:Ev; [|done].
  apply validated in Ev. intros (q' & Hq' & _ & H)%(after_ready d); [|done..]. apply Ok_inj in H as <-. cbn [snd].
  apply select_numbered; [by apply drivers_dialects|]. apply assembled_ok; [done|done| |constructor|constructor].
  constructor; [|constructor]. by apply aggregate_raw_ok.
Qed.

(** *** Writes *)

Lemma update_returning_numbered tbl values conds pk :
  Forall (fun kv => value_ok Postgres kv.2) values -> Forall (cond_ok Postgres) conds ->
  numbered Postgres (CompileUpdateReturning tbl values conds pk).
Proof.
  intros Hv Hc. pose proof (update_numbered Postgres tbl values conds postgres_dialect Hv Hc) as H.
  unfold CompileUpdateReturning. destruct (CompileUpdate Postgres tbl values conds).
  by apply returning_numbered.
Qed.

Lemma delete_returning_numbered tbl conds pk :
  Forall (cond_ok Postgres) conds -> numbered Postgres (CompileDeleteReturning tbl conds pk).
Proof.
  intros Hc. pose proof (delete_numbered Postgres tbl conds postgres_dialect Hc) as H.
  unfold CompileDeleteReturning. destruct (CompileDelete Postgres tbl conds). by apply returning_numbered.
Qed.

(** RETURNING is only compiled for PostgreSQL. *)
Lemma returning_postgres d q pk : d ∈ drivers -> returning_pk q d hookPK = Some pk -> Grammar d = Postgres.
Proof.
  unfold returning_pk, drivers. rewrite !elem_of_cons, elem_of_nil.
  destruct (withRowHooks q); [done|]. by intros [->|[->|[->|[]]]].
Qed.

Lemma strip_values (P : Value -> Prop) cols (u : gmap string Value) :
  map_Forall (fun _ v => P v) u -> map_Forall (fun _ v => P v) (stripReadOnlyKeys cols u).
Proof.
  unfold stripReadOnlyKeys. revert u. induction cols as [|c cols IH]; intros u Hu; [done|]. simpl.
  apply IH. destruct (m_ReadOnly c); [|done]. by do 2 apply map_Forall_delete.
Qed.

Lemma iterated_values d (iter : gmap string Value -> list (string * Value)) u :
  (forall u, iter u ≡ₚ map_to_list u) -> map_Forall (fun _ v => value_ok d v) u ->
  Forall (fun kv => value_ok d kv.2) (iter u).
Proof.
  intros Hi Hu. rewrite Hi. apply Forall_forall. intros [k v] Hkv%elem_of_map_to_list. by apply (Hu k).
Qed.

Lemma bulk_update_numbered d snapshot iter now updates q r :
  d ∈ drivers -> Forall (scope_ok d) snapshot -> query_ok d q -> terminal_ok d (TUpdate iter now updates) ->
  bulkUpdate snapshot meta hookPK iter now updates q = Ok r -> numbered (Grammar d) r.2.
Proof.
  intros Hd Hs Hq (Hi & Hnow & Hu). unfold bulkUpdate. destruct (err q); [done|].
  case_bool_decide; [done|]. intros (q' & Hq' & _ & Hk)%(after_ready d); [|done..].
  cbv beta iota zeta in Hk. case_bool_decide; [done|].
  assert (Hv : forall b : bool, Forall (fun kv => value_ok (Grammar d) kv.2)
    (iter (if b then <["updated_at" := now]> (stripReadOnlyKeys meta updates)
           else stripReadOnlyKeys meta updates))).
  { intros b. apply iterated_values; [done|]. destruct b; [apply map_Forall_insert_2; [done|]|];
      by apply (strip_values (value_ok (Grammar d))). }
  pose proof Hq' as [[_ Hc] _ _ _ _ _ _]. apply good_conds in Hc. specialize (Hv (hasUpdatedAt q')).
  destruct (returning_pk q' d hookPK) as [pk|] eqn:Epk; apply Ok_inj in Hk as <-; cbn [snd].
  - rewrite (returning_postgres d q' pk Hd Epk) in *. by apply update_returning_numbered.
  - apply update_numbered; [by apply drivers_dialects|done|done].
Qed.

Lemma force_delete_numbered d snapshot q r :
  d ∈ drivers -> Forall (scope_ok d) snapshot -> query_ok d q ->
  ForceDelete snapshot hookPK q = Ok r -> numbered (Grammar d) r.2.
Proof.
  intros Hd Hs Hq. unfold ForceDelete. destruct (err q); [done|]. intros (d0 & _ & H)%res_bind_ok.
  apply (after_ready d) in H as (q' & Hq' & _ & H); [|done..|].
  - pose proof Hq' as [[_ Hc] _ _ _ _ _ _]. apply good_conds in Hc.
    destruct (returning_pk q' d hookPK) as [pk|] eqn:Epk; apply Ok_inj in H as <-; cbn [snd].
    + rewrite (returning_postgres d q' pk Hd Epk) in *. by apply delete_returning_numbered.
    + apply delete_numbered; [by apply drivers_dialects|done].
  - apply (query_ok_same d q); [done|apply Hq|done].
Qed.

Lemma terminal_delete_numbered d snapshot iter now q r :
  d ∈ drivers -> Forall (scope_ok d) snapshot -> query_ok d q -> terminal_ok d (TDelete iter now) ->
  Delete snapshot meta hookPK iter now q = Ok r -> numbered (Grammar d) r.2.
Proof.
  intros Hd Hs Hq (Hi & Hnow). unfold Delete. destruct (err q); [done|]. destruct (hasSoftDelete q).
  - intros (d0 & _ & H)%res_bind_ok. eapply bulk_update_numbered; [done|done|done| |exact H].
    split; [done|]. split; [done|]. by apply map_Forall_singleton.
  - by apply force_delete_numbered.
Qed.

(** A value's text in an INSERT and what is bound for it. *)
Lemma inserted_value d (data : gmap string Value) col cols i :
  map_Forall (fun _ v => value_ok (Grammar d) v) data -> d ∈ drivers -> 0 <= i ->
  exists p n, (n <= 1)%nat /\ frag (Grammar d) p (numbering (Grammar d) i n)
    /\ let r := insert_values d data cols (i + Z.of_nat n) in
       (insert_values d data (col :: cols) i).1 = p :: r.1
       /\ List.length (insert_values d data (col :: cols) i).2 = (n + List.length r.2)%nat.
Proof.
  intros Hv Hd%drivers_dialects Hi. cbn [insert_values].
  assert (Hone : forall v, exists p n, (n <= 1)%nat /\ frag (Grammar d) p (numbering (Grammar d) i n)
    /\ let r := insert_values d data cols (i + Z.of_nat n) in
       (let '(ps, vs) := insert_values d data cols (i + 1) in
        (placeholder (Grammar d) i :: ps, v :: vs)).1 = p :: r.1
       /\ List.length (let '(ps, vs) := insert_values d data cols (i + 1) in
                       (placeholder (Grammar d) i :: ps, (v : Value) :: vs)).2 = (n + List.length r.2)%nat).
  { intros v. exists (placeholder (Grammar d) i), 1%nat. split; [done|]. split; [by apply placeholder_frag|].
    change (Z.of_nat 1) with 1. by destruct (insert_values d data cols (i + 1)). }
  destruct (data !! col) as [v|] eqn:E; [|apply Hone]. destruct v; try apply Hone.
  exists (rawSQLExpr (Grammar d) sql), 0%nat. split; [lia|].
  split; [rewrite numbering_0; apply plain_frag; apply (Hv _ _ E)|].
  rewrite Z.add_0_r. by destruct (insert_values d data cols i).
Qed.

Lemma inserted_values d (data : gmap string Value) cols i :
  map_Forall (fun _ v => value_ok (Grammar d) v) data -> d ∈ drivers -> 0 <= i ->
  let r := insert_values d data cols i in
  frag (Grammar d) (join ", " r.1) (numbering (Grammar d) i (List.length r.2)).
Proof.
  intros Hv Hd. revert i. induction cols as [|col cols IH]; intros i Hi.
  { simpl. rewrite numbering_0. apply frag_nil. }
  destruct (inserted_value d data col cols i Hv Hd Hi) as (p & n & Hn & Hp & E1 & E2).
  specialize (IH (i + Z.of_nat n) ltac:(lia)). cbn zeta in *. rewrite E1, E2, numbering_app.
  destruct cols as [|col' cols].
  { simpl. rewrite Nat.add_0_r in *. rewrite numbering_0, app_nil_r. done. }
  destruct (inserted_value d data col' cols (i + Z.of_nat n) Hv Hd ltac:(lia)) as (p' & n' & _ & _ & E1' & _).
  rewrite join_cons by (by rewrite E1'). apply frag_piece; [done|].
  apply keyword_piece; [done|apply neutral_plain; [by apply drivers_dialects|done]|done].
Qed.

Lemma insert_sql_numbered d iter data q r :
  d ∈ drivers -> map_Forall (fun _ v => value_ok (Grammar d) v) data ->
  compileInsertSQL iter data q d = Ok r -> numbered (Grammar d) r.
Proof.
  intros Hd Hv. unfold compileInsertSQL. destruct (first_error validateIdentifier iter); [done|].
  pose proof (inserted_values d data (merge_sort string_le iter) 1 Hv Hd ltac:(lia)) as H.
  pose proof (drivers_dialects d Hd) as Hg. cbv zeta.
  destruct (insert_values d data (merge_sort string_le iter) 1) as [ps vs]. intros <-%Ok_inj.
  unfold numbered. cbn [fst snd] in *. apply command_frag; [done|done|].
  apply keyword_piece; [done|by apply neutral_plain|]. apply plain_then; [by apply names_plain|].
  apply plain_then; [by apply neutral_plain|]. apply frag_then; [done|done|by apply neutral_plain].
Qed.

Lemma insert_ready_ok d iter data prefix q stmt d' :
  query_ok d q -> insert_ready iter data prefix q = Ok (stmt, d') ->
  d' = d /\ compileInsertSQL iter data q d = Ok stmt.
Proof.
  intros [[Hdr _]] H. unfold insert_ready in H. destruct (err q); [done|].
  apply res_bind_ok in H as (d0 & Hl & H). unfold driverLive in Hl. destruct (mgr_closed q); [done|].
  rewrite Hdr in Hl. apply Ok_inj in Hl as <-. case_bool_decide; [done|].
  destruct (compileInsertSQL iter data q d); [|done]. by injection H as <- <-.
Qed.

Lemma ready_of_increment d snapshot column op amount q q' r :
  d ∈ drivers -> Forall (scope_ok d) snapshot -> query_ok d q ->
  incrementOrDecrement snapshot column op amount q = Ok (q', r) ->
  query_ok d q' /\ table q' = table q /\ exists w,
    r = (("UPDATE " +:+ QuoteIdentifier (Grammar d) (table q') +:+ " SET " +:+ QuoteIdentifier (Grammar d) column
          +:+ " = " +:+ QuoteIdentifier (Grammar d) column +:+ " " +:+ op +:+ " "
          +:+ placeholder (Grammar d) 1) +:+ w,
         Other (match amount with [] => 1 | a :: _ => a end) :: (CompileDelete (Grammar d) (table q') (conditions q')).2)
    /\ w = match from_first " WHERE " (CompileDelete (Grammar d) (table q') (conditions q')).1 with
           | Some w => if String.eqb (DriverName d) "postgres" then renumber w else w
           | None => ""
           end.
Proof.
  intros Hd Hs Hq. unfold incrementOrDecrement. destruct (validateIdentifier column); [|done].
  intros (q1 & Hq1 & Ht & H)%(after_ready d); [|done..]. cbv beta iota zeta in H.
  destruct (CompileDelete (Grammar d) (table q1) (conditions q1)) as [dsql dargs] eqn:Ed.
  apply Ok_inj in H. injection H as <- <-. rewrite Ed. split; [done|]. split; [done|].
  eexists. split; reflexivity.
Qed.

Lemma increment_numbered d snapshot column op amount q r :
  d ∈ drivers -> Forall (scope_ok d) snapshot -> query_ok d q -> identifier (table q) = true ->
  op ∈ ["+"; "-"] -> incrementOrDecrement snapshot column op amount q = Ok r ->
  Z.of_nat (List.length r.2.2) < two63 -> numbered (Grammar d) r.2.
Proof.
  intros Hd Hs Hq Ht Hop H Hn. pose proof (drivers_dialects d Hd) as Hg.
  assert (Hopn : all_bytes neutral op = true).
  { rewrite !elem_of_cons, elem_of_nil in Hop. by destruct Hop as [->|[->|[]]]. }
  assert (Hhead : forall tbl, frag (Grammar d)
    ("UPDATE " +:+ QuoteIdentifier (Grammar d) tbl +:+ " SET " +:+ QuoteIdentifier (Grammar d) column
     +:+ " = " +:+ QuoteIdentifier (Grammar d) column +:+ " " +:+ op +:+ " "
     +:+ placeholder (Grammar d) 1) (numbering (Grammar d) 1 1)).
  { intros tbl. repeat (apply plain_then; [first [by apply neutral_plain|by apply quoted_name_plain]|]).
    by apply placeholder_frag. }
  destruct r as [q' [sql args]]. cbn [snd] in *. unfold drivers in Hd.
  rewrite elem_of_cons in Hd. destruct Hd as [->|Hd].
  - destruct (ready_of_increment PostgresDriver snapshot column op amount q q' (sql, args)) as [Hq' _];
      [unfold drivers; set_solver|done..|].
    pose proof (increment_text snapshot column op amount q q' sql args Hq Hs Ht H Hn) as [-> ->].
    pose proof Hq' as [[_ Hc] _ _ _ _ _ _]. apply good_conds in Hc.
    pose proof (clause_piece Postgres " WHERE " (conditions q') 2 postgres_dialect Hc ltac:(lia)
      eq_refl eq_refl) as Hw.
    unfold numbered. cbn [fst snd List.length]. change (S ?n) with (1 + n)%nat. rewrite numbering_app.
    apply frag_piece; [apply Hhead|exact Hw].
  - destruct (ready_of_increment d snapshot column op amount q q' (sql, args)) as (Hq' & Et & w & E & Ew);
      [unfold drivers; set_solver|done..|].
    apply pair_equal_spec in E as [-> ->]. pose proof Hq' as [[_ Hc] _ _ _ _ _ _]. apply good_conds in Hc.
    rewrite (where_found (Grammar d)) in Ew by (done || by rewrite Et).
    assert (Hidx : indexed (Grammar d) = false /\ String.eqb (DriverName d) "postgres" = false).
    { rewrite !elem_of_cons, elem_of_nil in Hd. by destruct Hd as [->|[->|[]]]. }
    destruct Hidx as [Hidx Hname]. rewrite Hname in Ew.
    pose proof (clause_piece (Grammar d) " WHERE " (conditions q') 1 Hg Hc ltac:(lia) eq_refl eq_refl) as Hw.
    assert (E2 : (CompileDelete (Grammar d) (table q') (conditions q')).2
                 = (clause (Grammar d) " WHERE " (conditions q') 1).2).
    { unfold CompileDelete. by destruct (clause (Grammar d) " WHERE " (conditions q') 1). }
    assert (Ew' : w = (clause (Grammar d) " WHERE " (conditions q') 1).1).
    { rewrite Ew. by destruct (conditions q'). }
    unfold numbered. cbn [fst snd List.length]. change (S ?n) with (1 + n)%nat.
    rewrite E2, Ew', numbering_app. apply frag_piece; [apply Hhead|].
    unfold numbering in *. by rewrite Hidx in *.
Qed.

(** C4: Every statement a terminal method (Get, First, Find, Count, Pluck, Sum,
    Avg, Min, Max, Update, Delete, ForceDelete, InsertGetId, insertExec,
    Increment, Decrement) sends for a query built by any chain of builder calls
    with arbitrary strings and values, with any global scopes applied, on any
    of the three drivers, has balanced quoting and exactly one placeholder per
    bound argument, in order.  Only what the API documents as raw SQL (the
    expression of SelectRaw, RawSQL values) is trusted to be balanced. *)
Theorem every_chain_binds_its_arguments d closed tbl soft upd calls snapshot t sql args :
  d ∈ drivers -> identifier tbl = true -> Forall (trusted d) calls -> Forall (scope_ok d) snapshot ->
  terminal_ok d t ->
  run t snapshot (chain calls (newQueryOn (Some d) closed tbl soft upd)) = Ok (sql, args) ->
  Z.of_nat (List.length args) < two63 ->
  lexes (Grammar d) sql (numbering (Grammar d) 1 (List.length args)).
Proof.
  intros Hd Htbl Hc Hs Ht Hrun Hn. apply (numbered_lexes _ (sql, args)).
  pose proof (query_ok_chain d calls _ Hd Hc (query_ok_new d closed tbl soft upd)) as Hq.
  pose proof (chain_table calls (newQueryOn (Some d) closed tbl soft upd)) as Etab.
  simpl in Etab. rewrite <- Etab in Htbl. clear Etab.
  revert Hrun. generalize dependent (chain calls (newQueryOn (Some d) closed tbl soft upd)). intros q Htbl Hq Hrun.
  destruct t; cbn [run terminal_ok] in *; cbv zeta in Hrun;
    try (apply res_bind_ok in Hrun as (r & Hr & E%Ok_inj); rewrite <- E).
  - by eapply get_numbered.
  - eapply get_numbered; [done|done|by apply (query_ok_call d (CLimit 1))|done].
  - eapply get_numbered; [done|done| |exact Hr].
    apply (query_ok_call d (CLimit 1)); [done|done|]. by apply (query_ok_call d (CWhere "id = ?" [id])).
  - by eapply count_numbered.
  - by eapply pluck_numbered.
  - by eapply aggregate_numbered.
  - by eapply bulk_update_numbered.
  - by eapply terminal_delete_numbered.
  - by eapply force_delete_numbered.
  - apply res_bind_ok in Hrun as ([stmt d'] & Hi & Hrun).
    apply (insert_ready_ok d) in Hi as [-> Hi]; [|done]. apply insert_sql_numbered in Hi; [|done|done].
    destruct stmt as [s vs]. destruct (String.eqb (DriverName d) "sqlite" || _); apply Ok_inj in Hrun as <-; [done|].
    unfold numbered in *. cbn [fst snd] in *. pose proof (drivers_dialects d Hd) as Hg.
    apply frag_then; [done|done|]. apply plain_both; [by apply neutral_plain|by apply quoted_name_plain].
  - destruct r as [stmt d']. apply (insert_ready_ok d) in Hr as [-> Hi]; [|done].
    by eapply insert_sql_numbered.
  - eapply (increment_numbered d); [done|done|done|done| |exact Hr|by rewrite E]. set_solver.
  - eapply (increment_numbered d); [done|done|done|done| |exact Hr|by rewrite E]. set_solver.
Qed.
End terminals.

(** On PostgreSQL, Increment and Decrement bind the amount as $1 and shift
    the placeholders of the WHERE clause they cut out of a compiled DELETE:
    the statement is exactly the one compiling the conditions from $2 on gives,
    for any number of arguments and any chain of conditions and scopes. *)
Theorem increment_shifts_placeholders closed tbl soft upd calls snapshot column op amount q' sql args :
  identifier tbl = true -> Forall (trusted PostgresDriver) calls ->
  Forall (scope_ok PostgresDriver) snapshot ->
  incrementOrDecrement snapshot column op amount
    (chain calls (newQueryOn (Some PostgresDriver) closed tbl soft upd)) = Ok (q', (sql, args)) ->
  Z.of_nat (List.length args) < two63 ->
  let quoted := QuoteIdentifier Postgres column in
  let whereClause := clause Postgres " WHERE " (conditions q') 2 in
  sql = ("UPDATE " +:+ QuoteIdentifier Postgres (table q') +:+ " SET " +:+ quoted +:+ " = " +:+ quoted
         +:+ " " +:+ op +:+ " $1") +:+ whereClause.1
  /\ args = Other (match amount with [] => 1 | a :: _ => a end) :: whereClause.2.
Proof.
  intros Ht Hc Hs H Hn. apply (increment_text snapshot column op amount
    (chain calls (newQueryOn (Some PostgresDriver) closed tbl soft upd))); [|done| |done|done].
  - apply query_ok_chain; [unfold drivers; set_solver|done|apply query_ok_new].
  - by rewrite chain_table.
Qed.

(** ** Instances *)

Definition soft_delete_entry : scopeEntry := mkEntry softDeleteScopeName soft_delete_scope 1.

Definition example_calls : list Call :=
  [CSelectRaw "coalesce(age, ?)" [Other 0];
   CWhere "email" [Str "a'; DROP TABLE users; --"];
   CWhereGroup [CWhere "tags ?| ?" [Slice [Str "x"; Str "y"]]; COrWhere "id not in ?" [Typed [Other 1; Other 2]]];
   CWhere "name; DROP TABLE users = ?" [Str "ignored: not an identifier"]].

Definition example_ids : list Value := Other <$> seqZ 1 10.

Lemma every_chain_binds_its_arguments_witness :
  exists sql args,
    run (GQ := plain_quote) [] None TGet [soft_delete_entry]
      (chain (firstn 3 example_calls) (newQueryOn (Some PostgresDriver) false "users" true true))
    = Ok (sql, args)
    /\ List.length args = 6%nat /\ lexes Postgres sql (numbering Postgres 1 (List.length args)).
Proof.
  eexists _, _. split; [vm_compute; reflexivity|]. split; [reflexivity|].
  refine (every_chain_binds_its_arguments (GQ := plain_quote) [] None PostgresDriver false "users" true true
    (firstn 3 example_calls) [soft_delete_entry] TGet _ _ _ _ _ _ _ _ _).
  - unfold drivers. set_solver.
  - reflexivity.
  - repeat constructor.
  - constructor; [apply soft_delete_scope_ok|constructor].
  - exact I.
  - vm_compute. reflexivity.
  - reflexivity.
Defined.

Lemma increment_shifts_placeholders_witness :
  exists q' sql args,
    incrementOrDecrement [soft_delete_entry] "visits" "+" [5]
      (chain [CWhereIn "id" example_ids] (newQueryOn (Some PostgresDriver) false "users" true true))
    = Ok (q', (sql, args))
    /\ sql = "UPDATE " +:+ QuoteIdentifier Postgres "users" +:+ " SET " +:+ QuoteIdentifier Postgres "visits"
             +:+ " = " +:+ QuoteIdentifier Postgres "visits" +:+ " + $1 WHERE " +:+ QuoteIdentifier Postgres "id"
             +:+ " IN ($2, $3, $4, $5, $6, $7, $8, $9, $10, $11) AND "
             +:+ QuoteIdentifier Postgres "deleted_at" +:+ " IS NULL".
Proof.
  eexists _, _, _. split; [vm_compute; reflexivity|].
  eapply eq_trans; [eapply (increment_shifts_placeholders false "users" true true [CWhereIn "id" example_ids]
    [soft_delete_entry] "visits" "+" [5])|].
  - reflexivity.
  - repeat constructor.
  - constructor; [apply soft_delete_scope_ok|constructor].
  - vm_compute. reflexivity.
  - reflexivity.
  - reflexivity.
Defined.
