(* ===== verification/Migrator.v ===== *)
(** * Database migrations

    Models the ledger of orm/migrate: the registry of migrations (migrate.go),
    the rows of the migrations table (state.go), and the operations that apply
    and roll back migrations under the migration lock (migrator.go: Up, Down,
    Fresh, Status).

    The schema of the database is an arbitrary type: a migration's Up and Down
    are functions on it that may fail after changing it.  Every statement sent
    to the database may fail; [faults] says which do.  On Postgres a migration
    runs in a transaction, whose effects a failure (of a body, of a statement
    or of the commit) discards; the other drivers run it unwrapped.  Waiting
    for the lock while another process holds it is not modelled: acquiring it
    succeeds or is one failed statement. *)

From Stdlib Require Import Ascii String.
From S2P Require Import Prelude GoStrings.
Local Open Scope string_scope.
Local Open Scope list_scope.
Local Open Scope Z_scope.

Section Migrations.
Context {Schema : Type}.

(** ** The registry *)

(** What a body does to the schema, and its error. *)
Definition Body : Type := Schema -> Schema * option string.

(** [UpSQL] and [DownSQL] are the statements the bodies hand to the migrator's
    helpers, which pretend mode collects. *)
Record Migration := mkMigration {
  Version : string;
  Up : option Body;
  Down : option Body;
  UpSQL : list string;
  DownSQL : list string
}.

(** The version is fourteen digits and there is an Up. *)
Definition Validate (m : Migration) : option string :=
  if String.eqb (Version m) "" then Some "migration version cannot be empty"
  else if negb (Nat.eqb (String.length (Version m)) 14 && all_bytes is_digit (Version m))
  then Some "migration version must be YYYYMMDDHHmmss format"
  else match Up m with None => Some "migration Up function cannot be nil" | Some _ => None end.

Record MigrationRegistry := mkRegistry { migrations : list Migration; sorted : bool }.

(** [None] is a panic. *)
Definition Register (m : Migration) (r : MigrationRegistry) : option MigrationRegistry :=
  match Validate m with
  | Some _ => None
  | None =>
      if existsb (fun m' => String.eqb (Version m') (Version m)) (migrations r) then None
      else Some (mkRegistry (migrations r ++ [m]) false)
  end.

Definition version_le (a b : Migration) : Prop := String.le (Version a) (Version b).

#[global] Instance version_le_dec : RelDecision version_le.
Proof. intros a b. unfold version_le. apply _. Defined.

Definition sort_once (r : MigrationRegistry) : MigrationRegistry :=
  if sorted r then r else mkRegistry (merge_sort version_le (migrations r)) true.

Definition All (r : MigrationRegistry) : list Migration := migrations (sort_once r).

Definition Find (version : string) (r : MigrationRegistry) : result string Migration :=
  match List.find (fun m => String.eqb (Version m) version) (migrations r) with
  | Some m => Ok m
  | None => Err ("migration not found: " +:+ version)
  end.

(** ** The database and the migrator *)

(** [rows] are the version and batch of the migrations table's rows, in the
    order of their ids; [conn] says that the lock's connection is pinned. *)
Record World := mkWorld {
  schema : Schema;
  rows : list (string * Z);
  faults : list bool;
  pretendLog : list string;
  conn : bool;
  lockDepth : Z
}.

Definition with_data (s : Schema) (rs : list (string * Z)) (w : World) : World :=
  mkWorld s rs (faults w) (pretendLog w) (conn w) (lockDepth w).
Definition with_lock (c : bool) (d : Z) (w : World) : World :=
  mkWorld (schema w) (rows w) (faults w) (pretendLog w) c d.
Definition log_pretend (l : list string) (w : World) : World :=
  mkWorld (schema w) (rows w) (faults w) (pretendLog w ++ l) (conn w) (lockDepth w).

(** Computations that change the world and may fail. *)
Definition M (A : Type) : Type := World -> World * result string A.

#[global] Instance M_ret : MRet M := fun A a w => (w, Ok a).
#[global] Instance M_bind : MBind M :=
  fun A B k m w => match m w with
                   | (w, Ok a) => k a w
                   | (w, Err e) => (w, Err e)
                   end.
Definition fail {A} (e : string) : M A := fun w => (w, Err e).

Definition gets {A} (f : World -> A) : M A := fun w => (w, Ok (f w)).
Definition modify (f : World -> World) : M unit := fun w => (f w, Ok tt).

(** The next statement fails if the database says so. *)
Definition statement : M unit :=
  fun w => match faults w with
           | true :: fs => (mkWorld (schema w) (rows w) fs (pretendLog w) (conn w) (lockDepth w), Err "database error")
           | false :: fs => (mkWorld (schema w) (rows w) fs (pretendLog w) (conn w) (lockDepth w), Ok tt)
           | [] => (w, Ok tt)
           end.

(** ** The migrator *)

Context (driver : string) (pretend : bool).

Definition supported : bool :=
  String.eqb driver "sqlite" || String.eqb driver "postgres" || String.eqb driver "mysql".

Definition createMigrationsTable : M unit :=
  if supported then statement else fail ("unsupported driver: " +:+ driver).

(** ORDER BY version ASC *)
Definition getAppliedMigrations : M (list string) :=
  createMigrationsTable;; statement;; gets (fun w => merge_sort String.le (rows w).*1).

Definition getAppliedMigrationsWithBatch : M (list (string * Z)) :=
  createMigrationsTable;; statement;; gets rows.

(** The version column is UNIQUE. *)
Definition recordMigration (version : string) (batch : Z) : M unit :=
  statement;;
  rs ← gets rows;
  if existsb (fun r => String.eqb r.1 version) rs then fail ("failed to record migration " +:+ version)
  else modify (fun w => with_data (schema w) (rows w ++ [(version, batch)]) w).

Definition removeMigration (version : string) : M unit :=
  statement;;
  modify (fun w => with_data (schema w) (List.filter (fun r => negb (String.eqb r.1 version)) (rows w)) w).

(** MAX(batch), 0 for no rows *)
Definition max_batch (rs : list (string * Z)) : Z := fold_right Z.max 0 rs.*2.

Definition getLastBatch : M Z := createMigrationsTable;; statement;; gets (fun w => max_batch (rows w)).

(** WHERE batch = b ORDER BY version DESC *)
Definition versions_of (b : Z) (rs : list (string * Z)) : list string :=
  rev (merge_sort String.le (List.filter (fun r => r.2 =? b) rs).*1).

Definition getMigrationsByBatch (b : Z) : M (list string) := statement;; gets (fun w => versions_of b (rows w)).

(** *** Running a body *)

Definition run_body (body : Body) (sql : list string) : M unit :=
  if pretend then modify (log_pretend sql)
  else fun w =>
    let '(s, e) := body (schema w) in
    (with_data s (rows w) w, match e with Some e => Err e | None => Ok tt end).

Definition useTx : M bool := gets (fun w => negb pretend && String.eqb driver "postgres" && conn w).

(** A failure discards what a transaction did to the schema and the rows. *)
Definition atomically (m : M unit) : M unit :=
  fun w =>
    match m w with
    | (w', Ok _) => (w', Ok tt)
    | (w', Err e) => (with_data (schema w) (rows w) w', Err e)
    end.

(** Begin, work, commit. *)
Definition transaction (m : M unit) : M unit := statement;; atomically (m;; statement).

Definition runMigrationUp (m : Migration) (batch : Z) : M unit :=
  match Up m with
  | None => fail "nil Up"
  | Some up =>
      let work := run_body up (UpSQL m);; recordMigration (Version m) batch in
      tx ← useTx; if tx : bool then transaction work else work
  end.

Definition runMigrationDown (down : Body) (m : Migration) (version : string) : M unit :=
  let work := run_body down (DownSQL m);; removeMigration version in
  tx ← useTx; if tx : bool then transaction work else work.

(** *** Up *)

Fixpoint run_all (ms : list Migration) (batch : Z) : M unit :=
  match ms with
  | [] => mret tt
  | m :: ms => runMigrationUp m batch;; run_all ms batch
  end.

Definition pending (applied : list string) (all : list Migration) : list Migration :=
  List.filter (fun m => negb (existsb (String.eqb (Version m)) applied)) all.

Definition runUp (reg : MigrationRegistry) : M unit :=
  createMigrationsTable;;
  applied ← getAppliedMigrations;
  match pending applied (All reg) with
  | [] => mret tt
  | ms => lastBatch ← getLastBatch; run_all ms (lastBatch + 1)
  end.

(** *** Down *)

Fixpoint rollback_all (reg : MigrationRegistry) (versions : list string) : M unit :=
  match versions with
  | [] => mret tt
  | v :: versions =>
      match Find v reg with
      | Err e => fail e
      | Ok m =>
          match Down m with
          | None => fail ("migration " +:+ v +:+ " does not have a Down method")
          | Some down => runMigrationDown down m v;; rollback_all reg versions
          end
      end
  end.

(** The loop runs [steps] times at most, while the batch number is positive. *)
Fixpoint rollback_batches (reg : MigrationRegistry) (steps : nat) (lastBatch : Z) : M unit :=
  match steps with
  | O => mret tt
  | S steps =>
      if lastBatch <=? 0 then mret tt
      else
        versions ← getMigrationsByBatch lastBatch;
        rollback_all reg versions;;
        rollback_batches reg steps (lastBatch - 1)
  end.

Definition runDown (reg : MigrationRegistry) (steps : Z) : M unit :=
  let steps := if steps <=? 0 then 1 else steps in
  lastBatch ← getLastBatch;
  if lastBatch =? 0 then mret tt else rollback_batches reg (Z.to_nat steps) lastBatch.

(** *** The lock *)

(** Leaving the lock; the outermost call releases it and unpins the
    connection. *)
Definition leave_lock (w : World) : World :=
  let d := lockDepth w - 1 in
  if d =? 0 then with_lock false d w else with_lock (conn w) d w.

Definition then_leave {A} (fn : M A) : M A := fun w => let '(w, r) := fn w in (leave_lock w, r).

(** A nested call only counts itself in; the outermost acquires the lock,
    which on Postgres pins its connection. *)
Definition enterMigrationLock : M unit :=
  depth ← gets lockDepth;
  if 0 <? depth then modify (fun w => with_lock (conn w) (lockDepth w + 1) w)
  else statement;; modify (with_lock (String.eqb driver "postgres") 1).

Definition withMigrationLock {A} (fn : M A) : M A :=
  if pretend then fn else enterMigrationLock;; then_leave fn.

Definition migrator_Up (reg : MigrationRegistry) : M unit := withMigrationLock (runUp reg).
Definition migrator_Down (reg : MigrationRegistry) (steps : Z) : M unit := withMigrationLock (runDown reg steps).

(** *** Fresh and Status *)

Definition migrationsLockTableName : string := "migrations_lock".

(** [listing] is what the driver's catalogue query returns and [drop] the
    effect of DROP TABLE on the schema; dropping the migrations table forgets
    the rows. *)
Context (listing : World -> list string) (drop : string -> Schema -> Schema).

Definition dropTable (table : string) : M unit :=
  if supported then
    statement;;
    modify (fun w => if String.eqb table "migrations" then with_data (schema w) [] w
                     else with_data (drop table (schema w)) (rows w) w)
  else fail ("unsupported driver: " +:+ driver).

Fixpoint drop_all (tables : list string) : M unit :=
  match tables with
  | [] => mret tt
  | t :: tables =>
      if String.eqb t migrationsLockTableName then drop_all tables else dropTable t;; drop_all tables
  end.

Definition getAllTables : M (list string) :=
  if supported then statement;; gets listing else fail ("unsupported driver: " +:+ driver).

Definition Fresh (reg : MigrationRegistry) : M unit :=
  withMigrationLock (tables ← getAllTables; drop_all tables;; migrator_Up reg).

Record MigrationStatus := mkStatus { st_Version : string; st_Applied : bool; st_Batch : Z }.

Definition status_of (applied : list (string * Z)) (m : Migration) : MigrationStatus :=
  match List.find (fun r => String.eqb r.1 (Version m)) applied with
  | Some r => mkStatus (Version m) true r.2
  | None => mkStatus (Version m) false 0
  end.

Definition Status (reg : MigrationRegistry) : M (list MigrationStatus) :=
  createMigrationsTable;;
  applied ← getAppliedMigrationsWithBatch;
  mret (List.map (status_of applied) (All reg)).

End Migrations.
