(* ===== verification/MigratorSpec.v ===== *)
(** * The migrations ledger

    Theorems on Migrator.v for Postgres, whose migrations run in transactions:
    whatever bodies, statements and commits fail, the schema is always what the
    recorded migrations, applied in the order of their rows, make of the
    initial one; Up records a prefix of what is pending; Down undoes Up.

    The proofs carry conditions through the monad with the triples of the first
    section. *)

From Stdlib Require Import Ascii String.
From S2P Require Import Prelude GoStrings Migrator.
Local Open Scope string_scope.
Local Open Scope list_scope.
Local Open Scope Z_scope.

Section Ledger.
Context {Schema : Type}.
Notation Migration := (@Migration Schema).
Notation World := (@World Schema).
Notation M := (@M Schema).

(** ** Triples *)

(** From [P], [m] returns a value in [Q] or fails in [E]. *)
Definition triple {A} (P : World -> Prop) (m : M A) (Q : A -> World -> Prop) (E : World -> Prop) : Prop :=
  forall w, P w -> match m w with (w', Ok a) => Q a w' | (w', Err _) => E w' end.

Lemma triple_bind {A B} P (m : M A) (k : A -> M B) Q R E :
  triple P m Q E -> (forall a, triple (Q a) (k a) R E) -> triple P (m ≫= k) R E.
Proof.
  intros Hm Hk w Hw. unfold mbind, M_bind. specialize (Hm w Hw). destruct (m w) as [w' [a|e]]; [|done].
  by apply (Hk a w').
Qed.

Lemma triple_weaken {A} (P P' : World -> Prop) (m : M A) (Q Q' : A -> World -> Prop) (E E' : World -> Prop) :
  triple P m Q E -> (forall w, P' w -> P w) -> (forall a w, Q a w -> Q' a w) -> (forall w, E w -> E' w) ->
  triple P' m Q' E'.
Proof.
  intros H HP HQ HE w Hw. specialize (H w (HP w Hw)). destruct (m w) as [w' [a|e]]; auto.
Qed.

Lemma triple_ret {A} (a : A) (Q : A -> World -> Prop) E : triple (Q a) (mret a) Q E.
Proof. by intros w Hw. Qed.

Lemma triple_fail {A} e (P : World -> Prop) (Q : A -> World -> Prop) : triple P (fail e) Q P.
Proof. by intros w Hw. Qed.

Lemma triple_gets {A} (f : World -> A) (P : World -> Prop) E : triple P (gets f) (fun a w => P w /\ a = f w) E.
Proof. by intros w Hw. Qed.

(** ** The registry *)

Definition registry_ok (reg : MigrationRegistry) : Prop :=
  NoDup (Version <$> migrations reg) /\ (forall m : Migration, m ∈ migrations reg -> is_Some (Up m))
  /\ (sorted reg = true -> Sorted version_le (migrations reg)).

#[local] Instance version_le_total : Total (@version_le Schema).
Proof. intros a b. apply String.le_total. Qed.
#[local] Instance version_le_trans : Transitive (@version_le Schema).
Proof. intros a b c. unfold version_le. apply String.le_po. Qed.

Lemma All_perm (reg : MigrationRegistry) : All reg ≡ₚ (migrations reg : list Migration).
Proof. unfold All, sort_once. destruct (sorted reg); [done|]. apply merge_sort_Permutation. Qed.

Lemma All_sorted reg : registry_ok reg -> StronglySorted version_le (All reg).
Proof.
  intros (_ & _ & Hs). apply Sorted_StronglySorted; [apply _|]. unfold All, sort_once.
  destruct (sorted reg); [by apply Hs|]. apply Sorted_merge_sort. apply _.
Qed.

Lemma find_version (l : list Migration) m :
  NoDup (Version <$> l) -> m ∈ l -> List.find (fun m' => String.eqb (Version m') (Version m)) l = Some m.
Proof.
  induction l as [|m' l IH]; [by intros _ ?%elem_of_nil|]. csimpl.
  intros [Hn Hnd]%NoDup_cons [->|Hm]%elem_of_cons; [by rewrite String.eqb_refl|].
  destruct (String.eqb_spec (Version m') (Version m)) as [E|_]; [|by apply IH].
  exfalso. apply Hn. rewrite E. by apply list_elem_of_fmap_2.
Qed.

Lemma Find_registered (reg : MigrationRegistry) m :
  registry_ok reg -> m ∈ migrations reg -> Find (Version m) reg = Ok m.
Proof. intros (Hnd & _) Hm. unfold Find. by rewrite find_version. Qed.

Lemma Register_ok (m : Migration) reg reg' :
  registry_ok reg -> Register m reg = Some reg' ->
  registry_ok reg' /\ migrations reg' = migrations reg ++ [m].
Proof.
  intros (Hnd & Hup & Hs). unfold Register. destruct (Validate m) eqn:Ev; [done|].
  destruct (existsb _ _) eqn:Ex; [done|]. intros [= <-]. split; [|done]. split; [|split]; cbn.
  - rewrite fmap_app. apply NoDup_app. split; [done|]. split; [|apply NoDup_singleton].
    intros v (m' & Hv & Hm')%list_elem_of_fmap Hv'%list_elem_of_singleton. apply not_true_iff_false in Ex. apply Ex.
    apply existsb_exists. exists m'. split; [by apply list_elem_of_In|]. apply String.eqb_eq. congruence.
  - intros m' [Hm'| ->%list_elem_of_singleton]%elem_of_app; [by apply Hup|].
    unfold Validate in Ev. destruct (String.eqb _ _); [done|]. destruct (negb _); [done|]. by destruct (Up m).
  - done.
Qed.

(** ** The rows *)

Notation Row := (string * Z)%type.

(** The order of application: by batch, within a batch by version. *)
Definition row_lt (a b : Row) : Prop := a.2 < b.2 \/ (a.2 = b.2 /\ String.le a.1 b.1 /\ a.1 <> b.1).

(** Rows are in the order of application, their versions are different and
    every batch number up to the last one is used. *)
Record rows_ok (rs : list Row) : Prop := {
  ro_order : StronglySorted row_lt rs;
  ro_nodup : NoDup rs.*1;
  ro_positive : Forall (fun r => 1 <= r.2) rs;
  ro_dense : forall b, 1 <= b <= max_batch rs -> exists r, r ∈ rs /\ r.2 = b
}.

Lemma max_batch_app rs rs' : max_batch (rs ++ rs') = Z.max (max_batch rs) (max_batch rs').
Proof.
  unfold max_batch. rewrite fmap_app. induction (rs.*2) as [|b bs IH]; cbn; [|by rewrite IH, Z.max_assoc].
  assert (0 <= fold_right Z.max 0 rs'.*2); [|lia]. induction (rs'.*2) as [|b bs IH]; cbn; lia.
Qed.

Lemma max_batch_bound rs r : r ∈ rs -> r.2 <= max_batch rs.
Proof.
  unfold max_batch. induction rs as [|x rs IH]; [by intros ?%elem_of_nil|].
  intros [->|H]%elem_of_cons; csimpl; [lia|]. specialize (IH H). lia.
Qed.

Lemma max_batch_attained rs : 0 < max_batch rs -> exists r, r ∈ rs /\ r.2 = max_batch rs.
Proof.
  unfold max_batch. induction rs as [|x rs IH]; [by cbn|]. csimpl. intros H.
  destruct (Z.le_gt_cases (fold_right Z.max 0 rs.*2) x.2) as [Hx|Hx].
  - exists x. split; [left|lia].
  - destruct IH as (r & Hr & E); [lia|]. exists r. split; [by right|lia].
Qed.

Lemma max_batch_nonneg rs : 0 <= max_batch rs.
Proof. unfold max_batch. induction (rs.*2); cbn; lia. Qed.

(** Recording one more migration in the current or the next batch. *)
Lemma rows_ok_snoc rs v b :
  rows_ok rs -> v ∉ rs.*1 -> max_batch rs <= b <= max_batch rs + 1 -> 1 <= b ->
  Forall (fun r => row_lt r (v, b)) rs -> rows_ok (rs ++ [(v, b)]).
Proof.
  intros [Ho Hn Hp Hd] Hv Hb Hb1 Hlt. split.
  - apply StronglySorted_app_2; [|done|by repeat constructor].
    intros x y Hx ->%list_elem_of_singleton. rewrite Forall_forall in Hlt. by apply Hlt.
  - rewrite fmap_app. apply NoDup_app. split; [done|]. split; [|apply NoDup_singleton].
    intros x Hx ->%list_elem_of_singleton. done.
  - apply Forall_app. split; [done|]. by constructor.
  - intros k. rewrite max_batch_app. cbn. intros Hk. destruct (Z.le_gt_cases k (max_batch rs)) as [Hle|Hgt].
    + destruct (Hd k) as (r & Hr & E); [lia|]. exists r. split; [apply elem_of_app; by left|done].
    + exists (v, b). split; [apply elem_of_app; right; left|cbn; lia].
Qed.

(** Forgetting the last one. *)
Lemma rows_ok_unsnoc rs r : rows_ok (rs ++ [r]) -> rows_ok rs.
Proof.
  intros [Ho Hn Hp Hd]. rewrite fmap_app in Hn. apply NoDup_app in Hn as (Hn & _ & _).
  apply Forall_app in Hp as [Hp _]. split; [by eapply StronglySorted_app_1_l|done|done|].
  intros k Hk. rewrite max_batch_app in Hd. cbn in Hd. destruct (Hd k) as (x & Hx & E); [lia|].
  apply elem_of_app in Hx as [Hx|Hx%list_elem_of_singleton]; [by exists x|]. subst x.
  destruct (max_batch_attained rs) as (y & Hy & Ey); [lia|]. exists y. split; [done|].
  assert (Hyr : row_lt y r). { eapply StronglySorted_app_1_elem_of; [exact Ho|done|left]. }
  unfold row_lt in Hyr. lia.
Qed.

(** The rows of the last batch are the end of the table, in the order of their
    versions. *)
Lemma last_batch_split rs b :
  StronglySorted row_lt rs -> Forall (fun r => r.2 <= b) rs ->
  rs = List.filter (fun r => r.2 <=? b - 1) rs ++ List.filter (fun r => r.2 =? b) rs.
Proof.
  induction 1 as [|r rs Hs IH Hlt]; intros Hb; [done|]. apply Forall_cons in Hb as [Hr Hb]. cbn [List.filter].
  destruct (Z.leb_spec r.2 (b - 1)) as [Hle|Hgt].
  - rewrite (proj2 (Z.eqb_neq r.2 b)) by lia. cbn [app]. f_equal. by apply IH.
  - assert (E : r.2 = b) by lia. rewrite E, Z.eqb_refl.
    assert (Hall : Forall (fun r' => r'.2 = b) rs).
    { apply Forall_forall. intros r' Hr'. rewrite Forall_forall in Hlt, Hb.
      specialize (Hlt r' Hr'). specialize (Hb r' Hr'). unfold row_lt in Hlt. lia. }
    clear -Hall. replace (List.filter (fun r => r.2 <=? b - 1) rs) with (@nil Row); cbn [app].
    + f_equal. induction Hall as [|x l Hx _ IH]; [done|]. cbn [List.filter]. rewrite (proj2 (Z.eqb_eq _ _) Hx). by f_equal.
    + induction Hall as [|x l Hx _ IH]; [done|]. cbn [List.filter]. by rewrite (proj2 (Z.leb_gt _ _)) by lia.
Qed.

Lemma versions_of_last rs b :
  StronglySorted row_lt rs -> versions_of b rs = rev (List.filter (fun r => r.2 =? b) rs).*1.
Proof.
  intros Hs. unfold versions_of. f_equal. apply (Sorted_unique String.le).
  - apply Sorted_merge_sort. apply _.
  - apply StronglySorted_Sorted. induction Hs as [|r rs Hs IH Hlt]; [constructor|]. cbn [List.filter].
    destruct (Z.eqb_spec r.2 b) as [E|_]; [|done]. csimpl. constructor; [done|].
    apply Forall_fmap, Forall_forall. intros r' [Hr' Hb]%list_elem_of_In%List.filter_In.
    rewrite Forall_forall in Hlt. specialize (Hlt r' ltac:(by apply list_elem_of_In)).
    apply Z.eqb_eq in Hb. unfold row_lt in Hlt. destruct Hlt as [Hlt|(_ & Hle & _)]; [lia|done].
  - apply merge_sort_Permutation.
Qed.

(** ** The invariant *)

(** The schema the migrations of a list make of [s0], each of them succeeding. *)
Inductive applied (s0 : Schema) : list Migration -> Schema -> Prop :=
  | applied_nil : applied s0 [] s0
  | applied_snoc l m up s s' :
      applied s0 l s -> Up m = Some up -> up s = (s', None) -> applied s0 (l ++ [m]) s'.

(** Down takes back what Up did. *)
Definition inverts (m : Migration) : Prop :=
  forall up down s s' s'', Up m = Some up -> Down m = Some down -> up s = (s', None) -> down s' = (s'', None) -> s'' = s.

Lemma applied_last s0 l m s' :
  applied s0 (l ++ [m]) s' -> exists up s, applied s0 l s /\ Up m = Some up /\ up s = (s', None).
Proof.
  inversion 1 as [E|l' m' up s s1 Ha Hu Hs E]; [by destruct l|].
  apply app_inj_tail in E as [-> ->]. eauto.
Qed.

Lemma applied_unique s0 l s s' : applied s0 l s -> applied s0 l s' -> s = s'.
Proof.
  intros H. revert s'. induction H as [|l m up s s1 Ha IH Hu Hs]; intros s'.
  - inversion 1 as [|l' ? ? ? ? ? ? ? E]; [done|]. by destruct l'.
  - intros (up' & s2 & Ha' & Hu' & Hs')%applied_last. rewrite <- (IH s2) in Hs' by done. congruence.
Qed.

Definition good (s0 : Schema) (reg : MigrationRegistry) (sc : Schema) (rs : list Row) : Prop :=
  rows_ok rs /\ exists l, Forall (fun m => m ∈ migrations reg) l /\ Version <$> l = rs.*1 /\ applied s0 l sc.

(** ** The migrator on Postgres *)

Context (s0 : Schema) (reg : @MigrationRegistry Schema).
Hypothesis Hreg : registry_ok reg.
Hypothesis Hinv : forall m, m ∈ migrations reg -> inverts m.

(** A run is smooth when no statement and no body fails in it. *)
Context (smooth : bool).
Hypothesis Hups : smooth = true -> forall m up s, m ∈ migrations reg -> Up m = Some up -> (up s).2 = None.
Hypothesis Hdowns : smooth = true -> forall m, m ∈ migrations reg ->
  exists down, Down m = Some down /\ forall s, (down s).2 = None.

(** The world inside the lock, with the data [P] speaks of. *)
Definition inside (d : Z) (P : Schema -> list Row -> Prop) (w : World) : Prop :=
  P (schema w) (rows w) /\ conn w = true /\ lockDepth w = d /\ (smooth = true -> faults w = []).

(** It may be left with an error, but not in a smooth run. *)
Definition failed (d : Z) (P : Schema -> list Row -> Prop) (w : World) : Prop := inside d P w /\ smooth = false.

Lemma inside_weaken d (P P' : Schema -> list Row -> Prop) w :
  (forall s rs, P s rs -> P' s rs) -> inside d P w -> inside d P' w.
Proof. intros H (HP & Hl). split; [by apply H|done]. Qed.

Lemma failed_weaken d (P P' : Schema -> list Row -> Prop) w :
  (forall s rs, P s rs -> P' s rs) -> failed d P w -> failed d P' w.
Proof. intros H (HP & Hl). split; [by eapply inside_weaken|done]. Qed.

Lemma triple_statement d P : triple (inside d P) statement (fun _ => inside d P) (failed d P).
Proof.
  intros w (HP & Hc & Hd & Hf). unfold statement. destruct w as [s rs [|b fs] l c e]; cbn in *; [done|].
  assert (Hs : smooth = false) by (apply not_true_is_false; intros Hs; discriminate (Hf Hs)).
  destruct b; repeat split; try done; by rewrite Hs.
Qed.

Notation exactly sc rs := (fun s' rs' => s' = sc /\ rs' = rs).

(** A transaction that fails leaves the data as it was. *)
Lemma triple_transaction d sc rs (m : M unit) (Q : Schema -> list Row -> Prop) :
  triple (inside d (exactly sc rs)) m (fun _ => inside d Q) (failed d (fun _ _ => True)) ->
  triple (inside d (exactly sc rs)) (transaction m) (fun _ => inside d Q) (failed d (exactly sc rs)).
Proof.
  intros Hm. eapply triple_bind; [apply triple_statement|]. intros [] w Hw.
  assert (H : triple (inside d (exactly sc rs)) (m;; statement) (fun _ => inside d Q) (failed d (fun _ _ => True))).
  { eapply triple_bind; [exact Hm|]. intros []. eapply triple_weaken;
      [apply triple_statement|done|done|].
    intros w'. by apply failed_weaken. }
  specialize (H w Hw). unfold atomically. destruct ((m;; statement) w) as [w' [[]|e]]; [done|].
  destruct Hw as ((<- & <-) & _). destruct H as ((_ & Hl) & Hs). by split.
Qed.

Lemma triple_body d sc rs (body : Body) sql :
  (smooth = true -> (body sc).2 = None) ->
  triple (inside d (exactly sc rs)) (run_body false body sql)
    (fun _ => inside d (fun s' rs' => body sc = (s', None) /\ rs' = rs)) (failed d (fun _ _ => True)).
Proof.
  intros Hb w ((<- & <-) & Hl). unfold run_body. destruct (body (schema w)) as [s [e|]]; cbn in *; [|done].
  split; [by split|]. apply not_true_is_false. intros Hs. discriminate (Hb Hs).
Qed.

Lemma triple_record d (Q : Schema -> Prop) rs v b :
  v ∉ rs.*1 ->
  triple (inside d (fun s' rs' => Q s' /\ rs' = rs)) (recordMigration v b)
    (fun _ => inside d (fun s' rs' => Q s' /\ rs' = rs ++ [(v, b)])) (failed d (fun _ _ => True)).
Proof.
  intros Hv. unfold recordMigration. eapply triple_bind.
  { eapply triple_weaken; [apply triple_statement|done|by intros a w H; exact H|].
    intros w. by apply failed_weaken. }
  intros []. eapply triple_bind; [apply triple_gets|]. intros rs1 w [((HQ & Hrs) & Hl) ->].
  destruct (existsb _ _) eqn:Ex; [|by rewrite <- Hrs].
  apply existsb_exists in Ex as (r & Hr & E). apply String.eqb_eq in E. exfalso. apply Hv. rewrite <- Hrs, <- E.
  apply list_elem_of_fmap_2. by apply list_elem_of_In.
Qed.

Lemma triple_useTx d P (k : bool -> M unit) Q E :
  triple (inside d P) (k true) Q E -> triple (inside d P) (tx ← useTx "postgres" false; k tx) Q E.
Proof.
  intros H. eapply triple_bind; [apply triple_gets|]. intros tx w [Hw ->]. destruct Hw as (HP & Hc & Hd).
  rewrite Hc. cbn. by apply H.
Qed.

(** Applying one migration: recorded and applied, or nothing. *)
Lemma triple_up d sc rs m up b :
  m ∈ migrations reg -> Up m = Some up -> Version m ∉ rs.*1 ->
  triple (inside d (exactly sc rs)) (runMigrationUp "postgres" false m b)
    (fun _ => inside d (fun s' rs' => up sc = (s', None) /\ rs' = rs ++ [(Version m, b)]))
    (failed d (exactly sc rs)).
Proof.
  intros Hm Hup Hv. unfold runMigrationUp. rewrite Hup. apply triple_useTx, triple_transaction.
  eapply triple_bind; [apply triple_body; intros Hs; by eapply Hups|]. intros []. by apply triple_record.
Qed.

Lemma triple_each d (P : Schema -> list Row -> Prop) {A} (m : M A) Q E :
  (forall sc rs, P sc rs -> triple (inside d (exactly sc rs)) m Q E) -> triple (inside d P) m Q E.
Proof. intros H w (HP & Hl). by apply (H (schema w) (rows w) HP w). Qed.

(** Reading and executing one statement leave the data as it is. *)
Lemma triple_stmt d sc rs {A} (k : M A) Q E :
  (forall w, failed d (exactly sc rs) w -> E w) ->
  triple (inside d (exactly sc rs)) k Q E -> triple (inside d (exactly sc rs)) (statement;; k) Q E.
Proof.
  intros HE Hk. apply (triple_bind _ _ _ (fun _ => inside d (exactly sc rs))); [|intros []; exact Hk].
  eapply triple_weaken; [apply triple_statement|done|by intros a w H; exact H|exact HE].
Qed.

Lemma triple_read d sc rs {A B} (f : list Row -> A) (k : A -> M B) Q E :
  triple (inside d (exactly sc rs)) (k (f rs)) Q E ->
  triple (inside d (exactly sc rs)) (x ← gets (fun w => f (rows w)); k x) Q E.
Proof. intros H w Hw. pose proof (proj2 (proj1 Hw)) as Hrs. unfold mbind, M_bind, gets. rewrite Hrs. by apply H. Qed.

Lemma triple_assoc {A B C} P (m : M A) (k : A -> M B) (k' : B -> M C) Q E :
  triple P (x ← m; y ← k x; k' y) Q E -> triple P (y ← (x ← m; k x); k' y) Q E.
Proof.
  intros H w Hw. specialize (H w Hw). unfold mbind, M_bind in *. by destruct (m w) as [w' [a|e]].
Qed.

Definition batch_rows (b : Z) (ms : list Migration) : list Row := (fun m => (Version m, b)) <$> ms.

(** What the rest of a batch still has to record. *)
Record recordable (rs : list Row) (b : Z) (ms : list Migration) : Prop := {
  rc_reg : Forall (fun m => m ∈ migrations reg) ms;
  rc_order : StronglySorted version_le ms;
  rc_nodup : NoDup (Version <$> ms);
  rc_fresh : Forall (fun m => Version m ∉ rs.*1) ms;
  rc_after : Forall (fun m => Forall (fun r => row_lt r (Version m, b)) rs) ms;
  rc_batch : max_batch rs <= b <= max_batch rs + 1 /\ 1 <= b
}.

Lemma good_snoc sc rs m up s' b :
  good s0 reg sc rs -> m ∈ migrations reg -> Up m = Some up -> up sc = (s', None) ->
  Version m ∉ rs.*1 -> Forall (fun r => row_lt r (Version m, b)) rs ->
  max_batch rs <= b <= max_batch rs + 1 -> 1 <= b ->
  good s0 reg s' (rs ++ [(Version m, b)]).
Proof.
  intros (Hok & l & Hl & Hv & Ha) Hm Hup Hs Hn Hlt Hb Hb1. split; [by apply rows_ok_snoc|].
  exists (l ++ [m]). split; [apply Forall_app; split; [done|by constructor]|].
  split; [by rewrite !fmap_app, Hv|]. by eapply applied_snoc.
Qed.

Lemma recordable_tail sc rs b m ms :
  good s0 reg sc rs -> recordable rs b (m :: ms) -> recordable (rs ++ [(Version m, b)]) b ms.
Proof.
  intros [[_ _ Hp _] _] [Hr Ho Hn Hf Ha Hb]. apply Forall_cons in Hr as [Hm Hr], Hf as [Hfm Hf], Ha as [Ham Ha].
  apply StronglySorted_cons in Ho as [Hom Ho]. csimpl in Hn. apply NoDup_cons in Hn as [Hnm Hn].
  assert (Hne : forall m', m' ∈ ms -> Version m' <> Version m).
  { intros m' Hm' E. apply Hnm. rewrite <- E. by apply list_elem_of_fmap_2. }
  split; [done|done|done| | |rewrite max_batch_app; cbn; lia].
  - rewrite Forall_forall in Hf |- *. intros m' Hm'. rewrite fmap_app. intros [H|H%list_elem_of_singleton]%elem_of_app.
    + by apply (Hf m').
    + by apply (Hne m').
  - rewrite Forall_forall in Ha, Hom |- *. intros m' Hm'. apply Forall_app. split; [by apply Ha|].
    constructor; [|done]. right. cbn. split; [done|]. split; [by apply Hom|]. intros E. by apply (Hne m').
Qed.

(** A batch records its migrations in order, and stops at the first failure. *)
Lemma triple_run_all d ms : forall sc rs b,
  good s0 reg sc rs -> recordable rs b ms ->
  triple (inside d (exactly sc rs)) (run_all "postgres" false ms b)
    (fun _ => inside d (fun s' rs' => good s0 reg s' rs' /\ rs' = rs ++ batch_rows b ms))
    (failed d (fun s' rs' => good s0 reg s' rs' /\ exists done todo, ms = done ++ todo /\ todo <> []
       /\ rs' = rs ++ batch_rows b done)).
Proof.
  induction ms as [|m ms IH]; intros sc rs b Hg Hrc; cbn [run_all].
  { intros w ((<- & <-) & Hl). cbn. split; [|done]. split; [done|]. by rewrite app_nil_r. }
  pose proof (recordable_tail _ _ _ _ _ Hg Hrc) as Hrc'. destruct Hrc as [Hr Ho Hn Hf Ha Hb].
  apply Forall_cons in Hr as [Hm Hr], Hf as [Hfm Hf], Ha as [Ham Ha].
  destruct (proj1 (proj2 Hreg) m Hm) as [up Hup]. eapply triple_bind.
  - eapply triple_weaken; [apply (triple_up d sc rs m up b Hm Hup Hfm)|done|by intros a w H; exact H|].
    intros w. apply failed_weaken. intros s rs' [-> ->]. split; [done|].
    exists [], (m :: ms). split; [done|]. split; [done|]. by rewrite app_nil_r.
  - intros []. apply triple_each. intros s rs' [Hs ->].
    eapply triple_weaken; [apply (IH s)|done| |].
    + eapply good_snoc; [exact Hg|done..|lia|lia].
    + done.
    + intros [] w. apply inside_weaken. intros s' rs' [Hg' ->]. split; [done|]. by rewrite <- app_assoc.
    + intros w. apply failed_weaken. intros s' rs' [Hg' (dn & td & -> & Htd & ->)]. split; [done|].
      exists (m :: dn), td. split; [done|]. split; [done|]. by rewrite <- app_assoc.
Qed.

(** *** Up *)

Definition to_apply (rs : list Row) : list Migration := pending rs.*1 (All reg).

Lemma pending_perm vs vs' (ms : list Migration) : vs ≡ₚ vs' -> pending vs ms = pending vs' ms.
Proof.
  intros H. unfold pending. apply List.filter_ext. intros m. f_equal. apply eq_true_iff_eq.
  rewrite !existsb_exists. split; intros (v & Hv & E); exists v; (split; [|done]); apply list_elem_of_In;
    apply list_elem_of_In in Hv; [by rewrite <- H|by rewrite H].
Qed.

Lemma sorted_filter (f : Migration -> bool) l :
  StronglySorted version_le l -> StronglySorted version_le (List.filter f l).
Proof.
  induction 1 as [|m l Hs IH Hlt]; [constructor|]. cbn [List.filter]. destruct (f m); [|done].
  constructor; [done|]. apply Forall_forall. intros m' [Hm' _]%list_elem_of_In%List.filter_In.
  rewrite Forall_forall in Hlt. apply Hlt. by apply list_elem_of_In.
Qed.

Lemma nodup_filter (f : Migration -> bool) l : NoDup (Version <$> l) -> NoDup (Version <$> List.filter f l).
Proof.
  induction l as [|m l IH]; [done|]. csimpl. intros [Hn Hnd]%NoDup_cons. destruct (f m); [|by apply IH].
  csimpl. apply NoDup_cons. split; [|by apply IH]. intros (m' & E & [Hm' _]%list_elem_of_In%List.filter_In)%list_elem_of_fmap.
  apply Hn. rewrite E. apply list_elem_of_fmap_2. by apply list_elem_of_In.
Qed.

Lemma recordable_pending rs : recordable rs (max_batch rs + 1) (to_apply rs).
Proof.
  pose proof (max_batch_nonneg rs). split; [| | | | |lia].
  - apply Forall_forall. intros m [Hm _]%list_elem_of_In%List.filter_In. rewrite <- (All_perm reg).
    by apply list_elem_of_In.
  - by apply sorted_filter, All_sorted.
  - apply nodup_filter. rewrite All_perm. apply Hreg.
  - apply Forall_forall. intros m [_ Hf]%list_elem_of_In%List.filter_In Hv. apply negb_true_iff in Hf.
    apply not_true_iff_false in Hf. apply Hf. apply existsb_exists. exists (Version m).
    split; [by apply list_elem_of_In|apply String.eqb_refl].
  - apply Forall_forall. intros m _. apply Forall_forall. intros r Hr. left. cbn.
    pose proof (max_batch_bound rs r Hr). lia.
Qed.

(** An Up records all that is pending, in order, as the next batch; a failure
    leaves a beginning of it. *)
Definition up_prefix (rs : list Row) (s' : Schema) (rs' : list Row) : Prop :=
  good s0 reg s' rs' /\ exists done todo, to_apply rs = done ++ todo /\ rs' = rs ++ batch_rows (max_batch rs + 1) done.

Lemma up_prefix_none sc rs : good s0 reg sc rs -> up_prefix rs sc rs.
Proof. intros Hg. split; [done|]. exists [], (to_apply rs). by rewrite app_nil_r. Qed.

Lemma triple_runUp d sc rs :
  good s0 reg sc rs ->
  triple (inside d (exactly sc rs)) (runUp "postgres" false reg)
    (fun _ => inside d (fun s' rs' => good s0 reg s' rs' /\ rs' = rs ++ batch_rows (max_batch rs + 1) (to_apply rs)))
    (failed d (up_prefix rs)).
Proof.
  intros Hg. assert (HE : forall w, failed d (exactly sc rs) w -> failed d (up_prefix rs) w).
  { intros w. apply failed_weaken. intros s rs' [-> ->]. by apply up_prefix_none. }
  unfold runUp, getAppliedMigrations, getLastBatch, createMigrationsTable. cbn [supported String.eqb Ascii.eqb Bool.eqb orb].
  apply triple_stmt; [done|]. do 2 (apply triple_assoc, triple_stmt; [done|]).
  apply (triple_read d sc rs (fun rs => merge_sort String.le rs.*1)).
  rewrite (pending_perm _ rs.*1) by apply merge_sort_Permutation. fold (to_apply rs).
  destruct (to_apply rs) as [|m ms] eqn:Ep.
  { intros w. cbn. apply inside_weaken. intros s rs' [-> ->]. split; [done|]. by rewrite app_nil_r. }
  do 2 (apply triple_assoc, triple_stmt; [done|]). apply (triple_read d sc rs max_batch). rewrite <- Ep.
  eapply triple_weaken; [apply (triple_run_all d _ sc rs); [done|apply recordable_pending]|done|done|].
  intros w. apply failed_weaken. intros s rs' [Hg' (dn & td & E & _ & ->)]. split; [done|]. by exists dn, td.
Qed.

(** *** Down *)

Lemma triple_remove d (Q : Schema -> Prop) rs v :
  triple (inside d (fun s' rs' => Q s' /\ rs' = rs)) (removeMigration v)
    (fun _ => inside d (fun s' rs' => Q s' /\ rs' = List.filter (fun r => negb (String.eqb r.1 v)) rs))
    (failed d (fun _ _ => True)).
Proof.
  unfold removeMigration. apply (triple_bind _ _ _ (fun _ => inside d (fun s' rs' => Q s' /\ rs' = rs))).
  - eapply triple_weaken; [apply triple_statement|done|by intros [] w H; exact H|].
    intros w. by apply failed_weaken.
  - intros [] w ((HQ & Hrs) & Hl). cbn. rewrite <- Hrs. by split.
Qed.

Lemma remove_last (rs : list Row) v b :
  NoDup (rs ++ [(v, b)]).*1 -> List.filter (fun r => negb (String.eqb r.1 v)) (rs ++ [(v, b)]) = rs.
Proof.
  rewrite fmap_app. intros (_ & Hd & _)%NoDup_app. rewrite List.filter_app. cbn. rewrite String.eqb_refl, app_nil_r.
  induction rs as [|r rs IH]; [done|]. cbn [List.filter]. destruct (String.eqb_spec r.1 v) as [E|_]; cbn [negb].
  - exfalso. apply (Hd v); [rewrite <- E; left|left].
  - f_equal. apply IH. intros x Hx. apply Hd. by right.
Qed.

Lemma good_last sc rs r :
  good s0 reg sc (rs ++ [r]) ->
  exists m up s, m ∈ migrations reg /\ Version m = r.1 /\ Up m = Some up /\ up s = (sc, None) /\ good s0 reg s rs.
Proof.
  intros (Hok & l & Hl & Hv & Ha). rewrite fmap_app in Hv.
  destruct l as [|m l _] using rev_ind; [by destruct (rs.*1)|].
  rewrite fmap_app in Hv. apply app_inj_tail in Hv as [Hv Hm]. apply Forall_app in Hl as [Hl [Hml _]%Forall_cons].
  apply applied_last in Ha as (up & s & Ha & Hu & Hs). exists m, up, s. do 4 (split; [done|]).
  split; [by eapply rows_ok_unsnoc|]. by exists l.
Qed.

(** Rolling back the last migration: undone and forgotten, or nothing. *)
Lemma triple_down d sc rs r m down :
  good s0 reg sc (rs ++ [r]) -> m ∈ migrations reg -> Version m = r.1 -> Down m = Some down ->
  triple (inside d (exactly sc (rs ++ [r]))) (runMigrationDown "postgres" false down m r.1)
    (fun _ => inside d (fun s' rs' => good s0 reg s' rs' /\ rs' = rs))
    (failed d (exactly sc (rs ++ [r]))).
Proof.
  intros Hg Hm Hv Hdown. unfold runMigrationDown. apply triple_useTx, triple_transaction.
  eapply triple_bind.
  { apply triple_body. intros Hs. destruct (Hdowns Hs m Hm) as (down' & E & Hok). rewrite Hdown in E.
    injection E as ->. apply Hok. }
  intros []. eapply triple_weaken; [apply (triple_remove d (fun s' => down sc = (s', None)) (rs ++ [r]))|done| |done].
  intros [] w. apply inside_weaken. intros s' rs' [Hs ->].
  destruct (good_last _ _ _ Hg) as (m' & up & s & Hm' & Hv' & Hu & Hus & Hg').
  assert (m' = m) as ->.
  { pose proof (Find_registered reg m' Hreg Hm') as E1. pose proof (Find_registered reg m Hreg Hm) as E2.
    rewrite Hv' in E1. rewrite Hv in E2. congruence. }
  rewrite (Hinv m Hm up down s sc s' Hu Hdown Hus Hs). destruct r as [v b]. rewrite remove_last; [done|].
  apply (proj1 Hg).
Qed.

(** Rolling back the migrations of the last rows, newest first. *)
Lemma triple_rollback_all d suf : forall sc rs,
  good s0 reg sc (rs ++ suf) ->
  triple (inside d (exactly sc (rs ++ suf))) (rollback_all "postgres" false reg (rev suf.*1))
    (fun _ => inside d (fun s' rs' => good s0 reg s' rs' /\ rs' = rs))
    (failed d (fun s' rs' => good s0 reg s' rs' /\ exists k, rs' = rs ++ k /\ k `prefix_of` suf)).
Proof.
  induction suf as [|r suf IH] using rev_ind; intros sc rs Hg.
  { intros w. cbn. apply inside_weaken. intros s' rs' [-> ->]. by rewrite app_nil_r in *. }
  rewrite fmap_app, rev_app_distr. cbn [rev app rollback_all fmap list_fmap].
  rewrite app_assoc in Hg |- *. destruct (good_last _ _ _ Hg) as (m & up & s & Hm & Hv & _).
  assert (HE : forall w, failed d (exactly sc ((rs ++ suf) ++ [r])) w ->
    failed d (fun s' rs' => good s0 reg s' rs' /\ exists k, rs' = rs ++ k /\ k `prefix_of` suf ++ [r]) w).
  { intros w. apply failed_weaken. intros s' rs' [-> ->]. split; [done|]. exists (suf ++ [r]). by rewrite app_assoc. }
  rewrite <- Hv, (Find_registered reg m Hreg Hm). rewrite Hv.
  destruct (Down m) as [down|] eqn:Hdown; cycle 1.
  { intros w Hw. apply HE. split; [done|]. apply not_true_is_false. intros Hs.
    destruct (Hdowns Hs m Hm) as (down & E & _). congruence. }
  apply (triple_bind _ _ _ (fun _ => inside d (fun s' rs' => good s0 reg s' rs' /\ rs' = rs ++ suf))).
  - eapply triple_weaken; [by apply triple_down|done|done|exact HE].
  - intros []. apply triple_each. intros s' rs' [Hg' ->].
    eapply triple_weaken; [by apply IH|done|done|].
    intros w. apply failed_weaken. intros s2 rs2 [Hg2 (k & -> & Hk)]. split; [done|]. exists k. split; [done|].
    etrans; [exact Hk|]. by apply prefix_app_r.
Qed.

Lemma keep_filter (rs : list Row) (f g : Row -> bool) :
  (forall r, r ∈ rs -> f r = true -> g r = true) -> List.filter f (List.filter g rs) = List.filter f rs.
Proof.
  induction rs as [|r rs IH]; intros H; [done|]. cbn [List.filter].
  assert (IH' : List.filter f (List.filter g rs) = List.filter f rs) by (apply IH; intros x Hx; apply H; by right).
  destruct (g r) eqn:Eg; cbn [List.filter]; [by rewrite IH'|].
  destruct (f r) eqn:Ef; [|done]. rewrite H in Eg; [done|left|done].
Qed.

Lemma keep_all (rs : list Row) (f : Row -> bool) : Forall (fun r => f r = true) rs -> List.filter f rs = rs.
Proof. induction 1 as [|r rs Hr _ IH]; [done|]. cbn [List.filter]. rewrite Hr. by f_equal. Qed.

(** The data after rolling back down to batch [b]. *)
Definition kept (b : Z) (rs : list Row) : list Row := List.filter (fun r => r.2 <=? b) rs.

Definition down_prefix (rs : list Row) (s' : Schema) (rs' : list Row) : Prop :=
  good s0 reg s' rs' /\ rs' `prefix_of` rs.

Lemma triple_rollback_batches d steps : forall sc rs b,
  good s0 reg sc rs -> Forall (fun r => r.2 <= b) rs ->
  triple (inside d (exactly sc rs)) (rollback_batches "postgres" false reg steps b)
    (fun _ => inside d (fun s' rs' => good s0 reg s' rs' /\ rs' = kept (b - Z.of_nat steps) rs))
    (failed d (down_prefix rs)).
Proof.
  induction steps as [|steps IH]; intros sc rs b Hg Hb; cbn [rollback_batches].
  { intros w. cbn. apply inside_weaken. intros s' rs' [-> ->]. split; [done|]. unfold kept. rewrite keep_all; [done|].
    eapply Forall_impl; [exact Hb|]. intros r Hr. cbn in Hr. apply Z.leb_le. lia. }
  destruct (Z.leb_spec b 0) as [Hb0|Hb0].
  { assert (rs = []) as ->.
    { destruct rs as [|r rs]; [done|]. destruct Hg as [[_ _ Hp _] _].
      apply Forall_cons in Hb as [Hr _], Hp as [Hr' _]. lia. }
    intros w. cbn. apply inside_weaken. by intros s' rs' [-> ->]. }
  assert (HE : forall w, failed d (exactly sc rs) w -> failed d (down_prefix rs) w).
  { intros w. apply failed_weaken. by intros s rs' [-> ->]. }
  unfold getMigrationsByBatch. apply triple_assoc, triple_stmt; [done|]. apply (triple_read d sc rs (versions_of b)).
  pose proof (ro_order _ (proj1 Hg)) as Ho. rewrite (versions_of_last rs b Ho).
  pose proof (last_batch_split rs b Ho Hb) as Hsplit.
  set (old := List.filter (fun r => r.2 <=? b - 1) rs) in *. set (new := List.filter (fun r => r.2 =? b) rs) in *.
  apply (triple_bind _ _ _ (fun _ => inside d (fun s' rs' => good s0 reg s' rs' /\ rs' = old))).
  - rewrite Hsplit in Hg |- *. eapply triple_weaken; [by apply (triple_rollback_all d new)|done|done|].
    intros w. apply failed_weaken. intros s' rs' [Hg' (k & -> & Hk)]. split; [done|]. by apply prefix_app.
  - intros []. apply triple_each. intros s' rs' [Hg' ->]. eapply triple_weaken; [apply (IH s' old (b - 1) Hg')|done| |].
    + apply Forall_forall. intros r [_ Hr]%list_elem_of_In%List.filter_In. by apply Z.leb_le.
    + intros [] w. apply inside_weaken. intros s2 rs2 [Hg2 ->]. split; [done|]. unfold kept, old.
      rewrite keep_filter; [f_equal; by replace (b - Z.of_nat (S steps)) with (b - 1 - Z.of_nat steps) by lia|].
      intros r _. rewrite !Z.leb_le. lia.
    + intros w. apply failed_weaken. intros s2 rs2 [Hg2 Hk]. split; [done|]. rewrite Hsplit. by apply prefix_app_r.
Qed.

Lemma triple_runDown d sc rs steps :
  good s0 reg sc rs ->
  triple (inside d (exactly sc rs)) (runDown "postgres" false reg steps)
    (fun _ => inside d (fun s' rs' => good s0 reg s' rs' /\ rs' = kept (max_batch rs - Z.max 1 steps) rs))
    (failed d (down_prefix rs)).
Proof.
  intros Hg. assert (HE : forall w, failed d (exactly sc rs) w -> failed d (down_prefix rs) w).
  { intros w. apply failed_weaken. by intros s rs' [-> ->]. }
  unfold runDown, getLastBatch, createMigrationsTable. cbn [supported String.eqb Ascii.eqb Bool.eqb orb].
  do 2 (apply triple_assoc, triple_stmt; [done|]). apply (triple_read d sc rs max_batch).
  assert (Hall : Forall (fun r => r.2 <= max_batch rs) rs) by (apply Forall_forall; intros r; apply max_batch_bound).
  destruct (Z.eqb_spec (max_batch rs) 0) as [E|_].
  - assert (rs = []) as ->.
    { destruct rs as [|r rs]; [done|]. destruct Hg as [[_ _ Hp _] _].
      apply Forall_cons in Hp as [Hr _], Hall as [Hr' _]. lia. }
    intros w. cbn. apply inside_weaken. by intros s' rs' [-> ->].
  - replace (max_batch rs - Z.max 1 steps)
      with (max_batch rs - Z.of_nat (Z.to_nat (if steps <=? 0 then 1 else steps)))
      by (destruct (Z.leb_spec steps 0); lia).
    by apply triple_rollback_batches.
Qed.

(** *** Under the lock *)

Definition outside (P : Schema -> list Row -> Prop) (w : World) : Prop :=
  P (schema w) (rows w) /\ conn w = false /\ lockDepth w = 0.

Definition smooth_outside (P : Schema -> list Row -> Prop) (w : World) : Prop :=
  outside P w /\ (smooth = true -> faults w = []).

Definition failed_outside (P : Schema -> list Row -> Prop) (w : World) : Prop := outside P w /\ smooth = false.

Lemma triple_lock sc rs (fn : M unit) (Q E : Schema -> list Row -> Prop) :
  E sc rs ->
  triple (inside 1 (exactly sc rs)) fn (fun _ => inside 1 Q) (failed 1 E) ->
  triple (smooth_outside (exactly sc rs)) (withMigrationLock "postgres" false fn)
    (fun _ => smooth_outside Q) (failed_outside E).
Proof.
  intros HE Hfn w (((<- & <-) & Hc & Hd) & Hf). unfold withMigrationLock, enterMigrationLock, mbind, M_bind, gets.
  rewrite Hd. cbn [Z.ltb Z.compare]. unfold statement.
  assert (Hrun : forall fs, (smooth = true -> fs = []) ->
    match then_leave fn (with_lock true 1 (mkWorld (schema w) (rows w) fs (pretendLog w) (conn w) 0)) with
    | (w', Ok _) => smooth_outside Q w' | (w', Err _) => failed_outside E w' end).
  { intros fs Hfs. unfold then_leave.
    specialize (Hfn (with_lock true 1 (mkWorld (schema w) (rows w) fs (pretendLog w) (conn w) 0)) ltac:(by repeat split)).
    destruct (fn _) as [w' [[]|e]]; [destruct Hfn as (HQ & _ & Hd' & Hf')|destruct Hfn as ((HQ & _ & Hd' & _) & Hf')];
      unfold leave_lock; rewrite Hd'; by repeat split. }
  destruct w as [s rs [|b fs] l c d']; cbn in *; subst; [by apply Hrun|].
  assert (Hs : smooth = false) by (apply not_true_is_false; intros Hs; discriminate (Hf Hs)).
  destruct b; [by repeat split|]. apply Hrun. by rewrite Hs.
Qed.

Lemma up_outside sc rs :
  good s0 reg sc rs ->
  triple (smooth_outside (exactly sc rs)) (migrator_Up "postgres" false reg)
    (fun _ => smooth_outside (fun s' rs' => good s0 reg s' rs' /\ rs' = rs ++ batch_rows (max_batch rs + 1) (to_apply rs)))
    (failed_outside (up_prefix rs)).
Proof. intros Hg. apply triple_lock; [by apply up_prefix_none|by apply triple_runUp]. Qed.

Lemma down_outside sc rs steps :
  good s0 reg sc rs ->
  triple (smooth_outside (exactly sc rs)) (migrator_Down "postgres" false reg steps)
    (fun _ => smooth_outside (fun s' rs' => good s0 reg s' rs' /\ rs' = kept (max_batch rs - Z.max 1 steps) rs))
    (failed_outside (down_prefix rs)).
Proof. intros Hg. apply triple_lock; [by split|by apply triple_runDown]. Qed.

End Ledger.

(** ** Histories *)

Section Histories.
Context {Schema : Type}.

(** Each operation comes with the statements that fail in it. *)
Inductive Op :=
  | OpRegister (m : @Migration Schema)
  | OpUp (fs : list bool)
  | OpDown (steps : Z) (fs : list bool).

Definition State : Type := @MigrationRegistry Schema * @World Schema.

Definition with_faults (fs : list bool) (w : @World Schema) : @World Schema :=
  mkWorld (schema w) (rows w) fs (pretendLog w) (conn w) (lockDepth w).

(** A panicking registration leaves the registry as it is. *)
Definition exec (st : State) (o : Op) : State :=
  let '(reg, w) := st in
  match o with
  | OpRegister m => (default reg (Register m reg), w)
  | OpUp fs => (reg, (migrator_Up "postgres" false reg (with_faults fs w)).1)
  | OpDown steps fs => (reg, (migrator_Down "postgres" false reg steps (with_faults fs w)).1)
  end.

Definition run (s0 : Schema) (ops : list Op) : State :=
  fold_left exec ops (mkRegistry [] false, mkWorld s0 [] [] [] false 0).

(** Every registered migration that has a Down has one that takes back exactly
    what its Up did, where both succeed; what an application's bodies do is its
    own affair, and a Down that loses less or more is outside the theorems that
    assume this. *)
Definition registers_inverses (ops : list Op) : Prop :=
  Forall (fun o => match o with OpRegister m => inverts m | _ => True end) ops.

Record state_ok (s0 : Schema) (st : State) : Prop := {
  sk_reg : registry_ok st.1;
  sk_inv : forall m, m ∈ migrations st.1 -> inverts m;
  sk_world : outside (good s0 st.1) st.2
}.

Lemma good_more s0 (reg reg' : @MigrationRegistry Schema) sc rs :
  (forall m, m ∈ migrations reg -> m ∈ migrations reg') -> good s0 reg sc rs -> good s0 reg' sc rs.
Proof.
  intros H (Hok & l & Hl & Hv & Ha). split; [done|]. exists l. split; [|done].
  eapply Forall_impl; [exact Hl|]. exact H.
Qed.

Lemma starts smooth fs (w : @World Schema) :
  conn w = false /\ lockDepth w = 0 -> (smooth = true -> fs = []) ->
  smooth_outside smooth (fun s' rs' => s' = schema w /\ rs' = rows w) (with_faults fs w).
Proof. intros Hl Hf. split; [by split|exact Hf]. Qed.

Lemma exec_ok s0 st o :
  (match o with OpRegister m => inverts m | _ => True end) -> state_ok s0 st -> state_ok s0 (exec st o).
Proof.
  intros Ho [Hreg Hinv (Hg & Hl)]. destruct st as [reg w]. cbn [fst snd] in *. destruct o as [m|fs|steps fs]; cbn [exec].
  - destruct (Register m reg) as [reg'|] eqn:E; cbn; [|by split].
    apply Register_ok in E as [Hreg' Em]; [|done]. split; cbn; [done| |].
    + intros m'. rewrite Em. intros [H| ->%list_elem_of_singleton]%elem_of_app; auto.
    + split; [|done]. eapply good_more; [|exact Hg]. intros m' Hm'. rewrite Em. apply elem_of_app. by left.
  - pose proof (up_outside s0 reg Hreg false ltac:(done) (schema w) (rows w) Hg (with_faults fs w)
      (starts false fs w Hl ltac:(done))) as H.
    split; [done|done|]. cbn [fst snd]. destruct (migrator_Up _ _ _ _) as [w' [[]|e]]; destruct H as (((Hg' & _) & Hl') & _); by split.
  - pose proof (down_outside s0 reg Hreg Hinv false ltac:(done) (schema w) (rows w) steps Hg (with_faults fs w)
      (starts false fs w Hl ltac:(done))) as H.
    split; [done|done|]. cbn [fst snd]. destruct (migrator_Down _ _ _ _ _) as [w' [[]|e]]; destruct H as (((Hg' & _) & Hl') & _); by split.
Qed.

Lemma history_ok s0 ops : registers_inverses ops -> state_ok s0 (run s0 ops).
Proof.
  unfold run. set (st := (mkRegistry [] false, mkWorld s0 [] [] [] false 0)).
  assert (Hst : state_ok s0 st).
  { split; cbn; [split; [constructor|split; [by intros m ?%elem_of_nil|done]]|by intros m ?%elem_of_nil|].
    split; [|done]. split; [split; [constructor|constructor|constructor|cbn; lia]|].
    exists []. split; [constructor|]. split; [done|constructor]. }
  generalize dependent st. induction ops as [|o ops IH]; intros st Hst Hops; [done|].
  apply Forall_cons in Hops as [Ho Hops]. cbn [fold_left]. apply IH; [by apply exec_ok|done].
Qed.

(** *** Consequences *)

Lemma to_apply_done (reg : @MigrationRegistry Schema) rs b : to_apply reg (rs ++ batch_rows b (to_apply reg rs)) = [].
Proof.
  destruct (to_apply reg (rs ++ _)) as [|m l] eqn:E; [done|]. exfalso.
  assert (Hm : m ∈ to_apply reg (rs ++ batch_rows b (to_apply reg rs))) by (rewrite E; left).
  apply list_elem_of_In, List.filter_In in Hm as [Hall Hn]. apply negb_true_iff, not_true_iff_false in Hn. apply Hn.
  apply existsb_exists. exists (Version m). split; [|apply String.eqb_refl]. apply list_elem_of_In.
  rewrite fmap_app. apply elem_of_app.
  destruct (existsb (String.eqb (Version m)) rs.*1) eqn:Ex.
  - left. apply existsb_exists in Ex as (v & Hv & Ev). apply String.eqb_eq in Ev. subst v. by apply list_elem_of_In.
  - right. unfold batch_rows. rewrite <- list_fmap_compose. apply list_elem_of_fmap.
    exists m. split; [done|]. apply list_elem_of_In, List.filter_In. split; [done|]. by rewrite Ex.
Qed.

Lemma kept_before (rs : list (string * Z)) (ms : list (@Migration Schema)) :
  ms <> [] -> kept (max_batch (rs ++ batch_rows (max_batch rs + 1) ms) - Z.max 1 1) (rs ++ batch_rows (max_batch rs + 1) ms) = rs.
Proof.
  intros Hne. rewrite max_batch_app. pose proof (max_batch_nonneg rs).
  assert (E : max_batch (batch_rows (max_batch rs + 1) ms) = max_batch rs + 1).
  { destruct ms as [|m ms]; [done|]. clear Hne. revert m. unfold batch_rows. induction ms as [|m' ms IH]; intros m.
    - cbn. lia.
    - specialize (IH m'). unfold max_batch in *. csimpl. csimpl in IH. lia. }
  rewrite E. replace (Z.max (max_batch rs) (max_batch rs + 1) - Z.max 1 1) with (max_batch rs) by lia.
  unfold kept. rewrite List.filter_app, keep_all.
  - replace (List.filter _ (batch_rows _ ms)) with (@nil (string * Z)); [apply app_nil_r|].
    unfold batch_rows. clear. induction ms as [|m ms IH]; [done|]. csimpl. by rewrite (proj2 (Z.leb_gt _ _)) by lia.
  - apply Forall_forall. intros r Hr. apply Z.leb_le. by apply max_batch_bound.
Qed.

(** The rows determine the schema. *)
Lemma good_unique s0 (reg : @MigrationRegistry Schema) s s' rs :
  registry_ok reg -> good s0 reg s rs -> good s0 reg s' rs -> s = s'.
Proof.
  intros (Hnd & _) (_ & l & Hl & Hv & Ha) (_ & l' & Hl' & Hv' & Ha').
  assert (l = l') as <-; [|by eapply applied_unique].
  rewrite <- Hv' in Hv. clear Ha Ha' Hv'. revert l' Hl' Hv.
  induction Hl as [|m l Hm _ IH]; intros [|m' l'] Hl' Hv; [done..|]. csimpl in Hv. injection Hv as Ev Hv.
  apply Forall_cons in Hl' as [Hm' Hl']. f_equal; [|by apply IH].
  pose proof (find_version _ m Hnd Hm) as E1. pose proof (find_version _ m' Hnd Hm') as E2.
  rewrite Ev in E1. congruence.
Qed.

(** ** Theorems *)

(** C15: The schema is what the ledger says it is, on Postgres, provided every
    registered migration's Down takes back exactly what its Up did
    ([lossy_down_leaves_schema] shows that this is needed).  After any history of
    registrations, Up and Down, whatever statements, commits and migration
    bodies fail in it, the recorded migrations are registered, their
    Ups, applied in the order of the rows, turn the initial schema into the
    current one, rows are in the order of batch and version without repetition,
    and no batch number is skipped. *)
Theorem ledger_replays_to_schema (s0 : Schema) ops :
  registers_inverses ops ->
  rows_ok (rows (run s0 ops).2)
  /\ exists l, Forall (fun m => m ∈ migrations (run s0 ops).1) l
       /\ Version <$> l = (rows (run s0 ops).2).*1 /\ applied s0 l (schema (run s0 ops).2).
Proof. intros H. destruct (history_ok s0 ops H) as [_ _ (Hg & _)]. exact Hg. Qed.

(** Up is all or a beginning.  A successful Up records every registered
    migration that was not recorded, in the order of versions, as one batch
    after the last; a failing one records the beginning of that list that
    succeeded, and nothing else; when no statement and no body fails it
    succeeds. *)
Theorem up_records_pending_in_order (s0 : Schema) ops fs :
  registers_inverses ops ->
  let '(reg, w) := run s0 ops in
  let '(w', r) := migrator_Up "postgres" false reg (with_faults fs w) in
  let batch := max_batch (rows w) + 1 in
  let todo := to_apply reg (rows w) in
  (match r with
   | Ok _ => rows w' = rows w ++ batch_rows batch todo /\ to_apply reg (rows w') = []
   | Err _ => exists l, l `prefix_of` todo /\ rows w' = rows w ++ batch_rows batch l
   end)
  /\ (fs = [] -> (forall m up s, m ∈ migrations reg -> Up m = Some up -> (up s).2 = None) -> r = Ok tt).
Proof.
  intros Hops. destruct (history_ok s0 ops Hops) as [Hreg Hinv (Hg & Hl)].
  destruct (run s0 ops) as [reg w]. cbn [fst snd] in *.
  pose proof (fun sm Hups Hf => up_outside s0 reg Hreg sm Hups (schema w) (rows w) Hg (with_faults fs w)
    (starts sm fs w Hl Hf)) as H.
  destruct (migrator_Up _ _ _ _) as [w' r]. split.
  - specialize (H false ltac:(done) ltac:(done)). destruct r as [[]|e].
    + destruct H as (((_ & E) & _) & _). split; [done|]. rewrite E. apply to_apply_done.
    + destruct H as (((_ & l & l' & E & E') & _) & _). exists l. split; [by exists l'|done].
  - intros -> Hups. specialize (H true (fun _ => Hups) (fun _ => eq_refl)). destruct r as [[]|e]; [done|].
    by destruct H as (_ & H).
Qed.

(** C26: Down undoes Up, on Postgres, provided every registered migration's
    Down takes back exactly what its Up did.  After any history, where a
    migration was pending and an Up and then a Down of one batch both succeed,
    the schema and the rows are as they were before them (with nothing pending
    the Up changes nothing and the Down rolls back an earlier batch, see
    [idle_up_then_down_rolls_back]).  When no statement and no body fails and
    every migration has a Down, both succeed. *)
Theorem down_undoes_up (s0 : Schema) ops fs fs' :
  registers_inverses ops ->
  let '(reg, w) := run s0 ops in
  let '(w1, r1) := migrator_Up "postgres" false reg (with_faults fs w) in
  let '(w2, r2) := migrator_Down "postgres" false reg 1 (with_faults fs' w1) in
  (to_apply reg (rows w) <> [] -> r1 = Ok tt -> r2 = Ok tt -> schema w2 = schema w /\ rows w2 = rows w)
  /\ (fs = [] -> fs' = [] -> (forall m up s, m ∈ migrations reg -> Up m = Some up -> (up s).2 = None) ->
      (forall m, m ∈ migrations reg -> exists down, Down m = Some down /\ forall s, (down s).2 = None) ->
      r1 = Ok tt /\ r2 = Ok tt).
Proof.
  intros Hops. destruct (history_ok s0 ops Hops) as [Hreg Hinv (Hg & Hl)].
  destruct (run s0 ops) as [reg w]. cbn [fst snd] in *.
  pose proof (fun sm Hups Hf => up_outside s0 reg Hreg sm Hups (schema w) (rows w) Hg (with_faults fs w)
    (starts sm fs w Hl Hf)) as H1.
  destruct (migrator_Up _ _ _ _) as [w1 r1].
  assert (Hg1 : good s0 reg (schema w1) (rows w1) /\ conn w1 = false /\ lockDepth w1 = 0).
  { specialize (H1 false ltac:(done) ltac:(done)). destruct r1 as [[]|e]; by destruct H1 as (((? & _) & ?) & _). }
  destruct Hg1 as [Hg1 Hl1].
  pose proof (fun sm Hdowns Hf => down_outside s0 reg Hreg Hinv sm Hdowns (schema w1) (rows w1) 1 Hg1 (with_faults fs' w1)
    (starts sm fs' w1 Hl1 Hf)) as H2.
  destruct (migrator_Down _ _ _ _ _) as [w2 r2]. split.
  - intros Hne -> ->. specialize (H1 false ltac:(done) ltac:(done)). specialize (H2 false ltac:(done) ltac:(done)).
    destruct H1 as (((_ & E1) & _) & _). destruct H2 as (((Hg2 & E2) & _) & _).
    assert (Erows : rows w2 = rows w) by (rewrite E2, E1; by apply kept_before).
    split; [|done]. rewrite Erows in Hg2. by eapply good_unique.
  - intros -> -> Hups Hdowns. specialize (H1 true (fun _ => Hups) (fun _ => eq_refl)).
    specialize (H2 true (fun _ => Hdowns) (fun _ => eq_refl)).
    destruct r1 as [[]|e]; [|by destruct H1]. destruct r2 as [[]|e]; [done|by destruct H2].
Qed.

End Histories.

(** ** Concrete runs *)

(** A schema as the list of its tables. *)
Definition create_table (version table : string) : @Migration (list string) :=
  mkMigration version (Some (fun s => (s ++ [table], None))) (Some (fun s => (removelast s, None)))
    ["CREATE TABLE " +:+ table] ["DROP TABLE " +:+ table].

Lemma create_table_inverts version table : inverts (create_table version table).
Proof.
  intros up down s s' s'' [= <-] [= <-] [= <-] [= <-]. apply removelast_last.
Qed.

Definition users : Migration := create_table "20240101000000" "users".
Definition posts : Migration := create_table "20240202000000" "posts".

(** Both migrations registered out of order; the first Up fails when it
    records the second one. *)
Definition history : list Op :=
  [OpRegister posts; OpRegister users;
   OpUp [false; false; false; false; false; false; false; false; false; false; true]].

Lemma history_inverts : registers_inverses history.
Proof.
  unfold registers_inverses, history. repeat (apply Forall_cons; split; [apply create_table_inverts|]).
  by apply Forall_cons.
Qed.

Lemma ledger_replays_to_schema_witness :
  rows (run [] history).2 = [("20240101000000", 1)] /\ schema (run [] history).2 = ["users"]
  /\ rows_ok (rows (run [] history).2).
Proof.
  split; [vm_compute; reflexivity|]. split; [vm_compute; reflexivity|].
  apply (ledger_replays_to_schema [] history history_inverts).
Defined.

Lemma up_records_pending_in_order_witness :
  let '(reg, w) := run [] history in
  exists w', migrator_Up "postgres" false reg (with_faults [] w) = (w', Ok tt)
    /\ rows w' = [("20240101000000", 1); ("20240202000000", 2)].
Proof.
  pose proof (up_records_pending_in_order [] history [] history_inverts) as H.
  destruct (run [] history) as [reg w] eqn:E. vm_compute in E. injection E as <- <-.
  destruct (migrator_Up _ _ _ _) as [w' r] eqn:E. vm_compute in E. injection E as <- <-.
  eexists. split; [reflexivity|]. destruct H as [[-> _] _]. reflexivity.
Defined.

Lemma down_undoes_up_witness :
  let '(reg, w) := run [] history in
  let '(w1, _) := migrator_Up "postgres" false reg (with_faults [] w) in
  let '(w2, _) := migrator_Down "postgres" false reg 1 (with_faults [] w1) in
  schema w1 = ["users"; "posts"] /\ schema w2 = schema w /\ rows w2 = rows w.
Proof.
  pose proof (down_undoes_up [] history [] [] history_inverts) as H.
  destruct (run [] history) as [reg w] eqn:E. vm_compute in E. injection E as <- <-.
  destruct (migrator_Up _ _ _ _) as [w1 r1] eqn:E. vm_compute in E. injection E as <- <-.
  destruct (migrator_Down _ _ _ _ _) as [w2 r2] eqn:E. vm_compute in E. injection E as <- <-.
  split; [reflexivity|]. apply H; [vm_compute; discriminate|reflexivity|reflexivity].
Defined.

(** *** Outside the conditions *)

(** With a Down that does nothing, rolling back empties the ledger and leaves
    the table. *)
Definition lossy : Migration :=
  mkMigration "20240101000000" (Some (fun s => (s ++ ["users"], None))) (Some (fun s => (s, None))) [] [].

Lemma lossy_down_leaves_schema :
  let w := (run [] [OpRegister lossy; OpUp []; OpDown 1 []]).2 in rows w = [] /\ schema w = ["users"].
Proof. by vm_compute. Qed.

(** With nothing pending, Up then Down of one batch takes back the batch
    before. *)
Lemma idle_up_then_down_rolls_back :
  let st := run [] [OpRegister users; OpUp []] in
  schema st.2 = ["users"] /\ schema (run [] [OpRegister users; OpUp []; OpUp []; OpDown 1 []]).2 = [].
Proof. by vm_compute. Qed.

(** *** Pretend mode *)

(** Pretend mode collects the statements of the bodies, and records every
    migration as applied all the same: nothing is pending afterwards, and the
    schema has none of the tables. *)
Lemma pretend_up_records_migrations :
  let reg := (run [] history).1 in
  let '(w, r) := migrator_Up "postgres" true reg (mkWorld [] [] [] [] false 0) in
  r = Ok tt /\ schema w = [] /\ pretendLog w = ["CREATE TABLE users"; "CREATE TABLE posts"]
  /\ rows w = [("20240101000000", 1); ("20240202000000", 1)] /\ to_apply reg (rows w) = [].
Proof. by vm_compute. Qed.

(** Pretending a Fresh drops the tables. *)
Lemma pretend_fresh_drops_tables :
  let reg := (run [] history).1 in
  let '(w, r) := Fresh "postgres" true (fun w => schema w)
                   (fun t s => List.filter (fun x => negb (String.eqb x t)) s) reg
                   (mkWorld ["users"] [] [] [] false 0) in
  r = Ok tt /\ schema w = [].
Proof. by vm_compute. Qed.
