(* ===== verification/QueuePayload.v ===== *)
(** * Queue payloads at rest

    Models how a job is written to and read from a durable queue store:
    queue/payload.go, the registry of queue/queue.go, queue/signing.go,
    queue/encryption.go and hydrateRecord of queue/database.go.

    Encoding to JSON, HMAC-SHA256, HKDF and the encryptor installed by the
    application are parameters ([Wire], [Encryptor]).  What is read back of a
    written envelope is its canonical form ([canon]): the data, a
    json.RawMessage, compacted, and strings made valid UTF-8; the theorems speak
    of payloads up to it.  The package variables
    that hold the signing key and the encryptor are the record [Protection]. *)

From Stdlib Require Import Ascii String.
From S2P Require Import Prelude GoStrings.
Local Open Scope string_scope.
Local Open Scope list_scope.
Local Open Scope Z_scope.

(** ** Payloads and the registry *)

Record Payload := mkPayload {
  p_Type : string;
  p_Data : string;
  p_Queue : string;
  p_Attempts : Z;
  p_CreatedAt : Z;
  p_TraceID : string;
  p_SpanID : string;
  p_ParentID : string;
  p_Signature : string;
  p_Encrypted : bool;
  p_DedupeKey : string
}.

Definition eta_payload (p : Payload) : Payload :=
  mkPayload (p_Type p) (p_Data p) (p_Queue p) (p_Attempts p) (p_CreatedAt p) (p_TraceID p) (p_SpanID p)
    (p_ParentID p) (p_Signature p) (p_Encrypted p) (p_DedupeKey p).
Definition set_signature : string -> Payload -> Payload := ltac:(set_field eta_payload p_Signature).
Definition set_data : string -> Payload -> Payload := ltac:(set_field eta_payload p_Data).
Definition set_encrypted : bool -> Payload -> Payload := ltac:(set_field eta_payload p_Encrypted).

(** What is stored of a wrapper: its payload ([None] for null) and its dedupe key. *)
Definition Envelope : Type := option Payload * string.

Class Wire := {
  WJob : Type;
  Text : Type;                                   (** the JSON of a wrapper *)
  typeName : WJob -> string;                     (** fmt's verb T *)
  job_json : WJob -> option string;
  envelope_json : Envelope -> option Text;
  envelope_parse : Text -> option Envelope;
  string_json : string -> string;
  string_parse : string -> option string;
  compact : string -> string;                    (** a RawMessage as Marshal writes it: compacted, HTML-escaped *)
  coerce : string -> string;                     (** a string with its invalid UTF-8 replaced *)
  hmac_hex : string -> Text -> string;           (** key and message *)
  hkdf_queue : string -> string                  (** 32 bytes derived from the application key *)
}.

(** contract.Encryptor; [seed] is the randomness of an encryption. *)
Record Encryptor := mkEncryptor {
  EncryptBytesWithAAD : Z -> string -> string -> option string;
  DecryptBytesWithAAD : string -> string -> option string
}.

Inductive PayloadError :=
  | ErrNilJob | ErrMarshal | ErrEncrypt | ErrMalformed | ErrSignatureUnexpected | ErrSignatureMissing | ErrSignatureInvalid
  | ErrPlaintextRejected | ErrNoEncryptor | ErrMalformedEnvelope | ErrDecrypt
  | ErrNilPayload | ErrStillEncrypted | ErrJobNotFound | ErrFactory.

(** The part of a name after its last dot. *)
Fixpoint after_last_dot (s : string) : string :=
  match s with
  | EmptyString => EmptyString
  | String c s' => if contains_byte "." s' then after_last_dot s'
                   else if Ascii.eqb c "." then s' else s
  end.

Definition normalizeJobType (s : string) : string :=
  after_last_dot (match s with String "*" s' => s' | _ => s end).

Section payloads.
Context {WR : Wire}.

(** The registered factories; [None] is an error, a panic or a nil job. *)
Definition JobRegistry : Type := gmap string (string -> option WJob).

Definition Register (reg : JobRegistry) (jobType : string) (handler : string -> option WJob) : JobRegistry :=
  <[normalizeJobType jobType := handler]> reg.

(** No job is nil, untyped or a typed nil pointer. *)
Definition MarshalJob (job : option WJob) (queueName : string) (now : Z) : result PayloadError Payload :=
  match job with
  | None => Err ErrNilJob
  | Some job =>
      match job_json job with
      | None => Err ErrMarshal
      | Some data => Ok (mkPayload (normalizeJobType (typeName job)) data queueName 0 now "" "" "" "" false "")
      end
  end.

Definition Deserialize (reg : JobRegistry) (p : Payload) : result PayloadError WJob :=
  match reg !! normalizeJobType (p_Type p) with
  | None => Err ErrJobNotFound
  | Some handler => match handler (p_Data p) with Some j => Ok j | None => Err ErrFactory end
  end.

Definition HydrateJob (reg : JobRegistry) (p : option Payload) : result PayloadError WJob :=
  match p with
  | None => Err ErrNilPayload
  | Some p => if p_Encrypted p then Err ErrStillEncrypted else Deserialize reg p
  end.

(** ** Signing *)

(** The package variables of signing.go and encryption.go; no key is "". *)
Record Protection := mkProtection {
  signingKey : string;
  signingEnabled : bool;
  payloadEncryptor : option Encryptor
}.

Record SigningOptions := mkSigningOptions { AcceptUnsigned : bool; AllowUnsignedInDev : bool }.
Inductive SigningError := ErrSigningKeyRequired | ErrSigningKeyTooShort.

Definition minSigningKeyBytes : Z := 32.

Definition with_signing (key : string) (enabled : bool) (c : Protection) : Protection :=
  mkProtection key enabled (payloadEncryptor c).

Definition ConfigureSigningWith (rawSigningKey appKey : string) (opts : SigningOptions) (c : Protection)
    : Protection * option SigningError :=
  let useAppKey := String.eqb rawSigningKey "" in
  let key := if useAppKey then appKey else rawSigningKey in
  if String.eqb key "" then
    (with_signing "" false c,
     if AcceptUnsigned opts then None
     else if AllowUnsignedInDev opts then None
     else Some ErrSigningKeyRequired)
  else if useAppKey then (with_signing (hkdf_queue key) true c, None)
  else if Z.of_nat (String.length key) <? minSigningKeyBytes
       then (with_signing "" false c, Some ErrSigningKeyTooShort)
       else (with_signing key true c, None).

Definition ConfigureSigning (rawSigningKey appKey : string) (c : Protection) : Protection * option SigningError :=
  ConfigureSigningWith rawSigningKey appKey (mkSigningOptions false false) c.

Definition SetSigningKey (key : string) (c : Protection) : Protection :=
  if negb (String.eqb key "") then with_signing key true c else with_signing "" false c.

Definition IsSigningEnabled (c : Protection) : bool := signingEnabled c.

Definition signPayload (c : Protection) (data : Text) : string :=
  if negb (signingEnabled c) || String.eqb (signingKey c) "" then "" else hmac_hex (signingKey c) data.

(** Setting the signature of a wrapper without a payload is not reached. *)
Definition set_sig (sig : string) (e : Envelope) : Envelope := (set_signature sig <$> e.1, e.2).

Definition marshalSigned (c : Protection) (e : Envelope) : result PayloadError Text :=
  match envelope_json e with
  | None => Err ErrMarshal
  | Some data =>
      let sig := signPayload c data in
      if String.eqb sig "" then Ok data
      else match envelope_json (set_sig sig e) with Some t => Ok t | None => Err ErrMarshal end
  end.

Definition verifyPayload (c : Protection) (data : Text) (signature : string) : option PayloadError :=
  if negb (signingEnabled c) || String.eqb (signingKey c) "" then
    if negb (String.eqb signature "") then Some ErrSignatureUnexpected else None
  else if String.eqb signature "" then Some ErrSignatureMissing
  else if negb (String.eqb (hmac_hex (signingKey c) data) signature) then Some ErrSignatureInvalid
  else None.

(** ** Encryption *)

Definition SetPayloadEncryptor (enc : option Encryptor) (c : Protection) : Protection :=
  mkProtection (signingKey c) (signingEnabled c) enc.

Definition IsEncryptionEnabled (c : Protection) : bool :=
  match payloadEncryptor c with Some _ => true | None => false end.

Definition payloadAAD (jobType : string) : string := "velocity.queue.payload." +:+ jobType.
Definition quarantineAAD : string := "velocity.queue.quarantine".

Definition sealPayload (c : Protection) (seed : Z) (p : Payload) : result PayloadError Payload :=
  match payloadEncryptor c with
  | None => Ok p
  | Some enc =>
      if p_Encrypted p then Ok p
      else match EncryptBytesWithAAD enc seed (p_Data p) (payloadAAD (p_Type p)) with
           | None => Err ErrEncrypt
           | Some sealed => Ok (set_encrypted true (set_data (string_json sealed) p))
           end
  end.

Definition openPayload (c : Protection) (signatureVerified : bool) (p : Payload) : result PayloadError Payload :=
  if negb (p_Encrypted p) then
    match payloadEncryptor c with
    | Some _ => if signatureVerified then Ok p else Err ErrPlaintextRejected
    | None => Ok p
    end
  else match payloadEncryptor c with
       | None => Err ErrNoEncryptor
       | Some enc =>
           match string_parse (p_Data p) with
           | None => Err ErrMalformedEnvelope
           | Some envelope =>
               match DecryptBytesWithAAD enc envelope (payloadAAD (p_Type p)) with
               | None => Err ErrDecrypt
               | Some plaintext => Ok (set_encrypted false (set_data plaintext p))
               end
           end
       end.

(** [raw] and the stored blob are texts; [redacted] is the stub kept when sealing fails. *)
Definition sealQuarantineBlob (c : Protection) (seed : Z) (redacted raw : string) : string * bool :=
  match payloadEncryptor c with
  | None => (raw, false)
  | Some enc => match EncryptBytesWithAAD enc seed raw quarantineAAD with
                | Some sealed => (sealed, true)
                | None => (redacted, true)
                end
  end.

Definition openQuarantineBlob (c : Protection) (blob : string) : option string :=
  match payloadEncryptor c with None => None | Some enc => DecryptBytesWithAAD enc blob quarantineAAD end.

(** ** Writing and reading a row *)

(** The part of PushDelayedCtx and PushIfNotExistsCtx that makes the stored
    text; their admission has refused a nil job. *)
Definition store_payload (c : Protection) (seed now : Z) (trace : string * string * string) (dedupeKey : string)
    (job : WJob) (queueName : string) : result PayloadError Text :=
  match MarshalJob (Some job) queueName now with
  | Err e => Err e
  | Ok p =>
      let p := mkPayload (p_Type p) (p_Data p) (p_Queue p) (p_Attempts p) (p_CreatedAt p)
                 trace.1.1 trace.1.2 trace.2 (p_Signature p) (p_Encrypted p) dedupeKey in
      match sealPayload c seed p with
      | Err e => Err e
      | Ok p => marshalSigned c (Some p, dedupeKey)
      end
  end.

Definition hydrateRecord (c : Protection) (reg : JobRegistry) (t : Text) : result PayloadError WJob :=
  match envelope_parse t with
  | None => Err ErrMalformed
  | Some (None, _) => HydrateJob reg None
  | Some (Some p, key) =>
      let sig := p_Signature p in
      let p := set_signature "" p in
      match envelope_json (Some p, key) with
      | None => Err ErrMarshal
      | Some verifyData =>
          match verifyPayload c verifyData sig with
          | Some e => Err e
          | None => match openPayload c (negb (String.eqb sig "")) p with
                    | Err e => Err e
                    | Ok p => HydrateJob reg (Some p)
                    end
          end
      end
  end.

End payloads.

(** ** What the code relies on *)

Section canonical.
Context {WR : Wire}.

(** What Unmarshal reads of an envelope Marshal wrote. *)
Definition canon_payload (p : Payload) : Payload :=
  mkPayload (coerce (p_Type p)) (compact (p_Data p)) (coerce (p_Queue p)) (p_Attempts p) (p_CreatedAt p)
    (coerce (p_TraceID p)) (coerce (p_SpanID p)) (coerce (p_ParentID p)) (coerce (p_Signature p))
    (p_Encrypted p) (coerce (p_DedupeKey p)).
Definition canon (e : Envelope) : Envelope := (canon_payload <$> e.1, coerce e.2).

(** Its strings are valid UTF-8. *)
Definition utf8 (s : string) : Prop := coerce s = s.
Definition utf8_payload (p : Payload) : Prop :=
  utf8 (p_Type p) /\ utf8 (p_Queue p) /\ utf8 (p_TraceID p) /\ utf8 (p_SpanID p) /\ utf8 (p_ParentID p)
  /\ utf8 (p_Signature p) /\ utf8 (p_DedupeKey p).
Definition utf8_envelope (e : Envelope) : Prop :=
  utf8 e.2 /\ match e.1 with Some p => utf8_payload p | None => True end.

(** The same envelope up to white space and escapes in the data. *)
Definition compacted (e : Envelope) : Envelope := ((fun p => set_data (compact (p_Data p)) p) <$> e.1, e.2).

Definition is_ascii7 (a : ascii) : bool := (nat_of_ascii a <? 128)%nat.

End canonical.

(** What is documented of encoding/json: what Marshal wrote, Unmarshal reads as
    its canonical form; Unmarshal yields valid UTF-8; the data may be compacted
    before it is written, and what Marshal itself wrote is compact; a string is
    read back with its invalid UTF-8 replaced, of which plain ASCII has none.
    And a hexadecimal MAC is not empty and ASCII. *)
Class WireLaws `(WR : Wire) : Prop := {
  parse_json e t : envelope_json e = Some t -> envelope_parse t = Some (canon e);
  parse_utf8 t e : envelope_parse t = Some e -> utf8_envelope e;
  json_compacted e : envelope_json (compacted e) = envelope_json e;
  job_compact j d : job_json j = Some d -> compact d = d;
  string_compact s : compact (string_json s) = string_json s;
  string_parse_json s : string_parse (string_json s) = Some (coerce s);
  coerce_ascii s : all_bytes is_ascii7 s = true -> coerce s = s;
  hmac_text key t : hmac_hex key t <> "";
  hmac_ascii key t : all_bytes is_ascii7 (hmac_hex key t) = true
}.

(** An encryptor opens what it sealed, under the same additional data, and
    what it writes is ASCII. *)
Definition opens_its_own (enc : Encryptor) : Prop :=
  forall seed data aad c, EncryptBytesWithAAD enc seed data aad = Some c ->
    DecryptBytesWithAAD enc c aad = Some data /\ all_bytes is_ascii7 c = true.

Lemma after_last_dot_plain s : contains_byte "." (after_last_dot s) = false.
Proof.
  induction s as [|a s IH]; [done|]. cbn [after_last_dot]. destruct (contains_byte "." s) eqn:E; [done|].
  destruct (Ascii.eqb a ".") eqn:Ea; [done|]. cbn [contains_byte]. by rewrite Ea, E.
Qed.

Lemma after_last_dot_id s : contains_byte "." s = false -> after_last_dot s = s.
Proof.
  destruct s as [|a s]; [done|]. cbn [contains_byte after_last_dot]. intros [Ha Hs]%orb_false_iff. by rewrite Hs, Ha.
Qed.

Section theorems.
Context {WR : Wire} {WL : WireLaws WR}.

(** Two envelopes with one text have one canonical form. *)
Lemma envelope_json_inj e e' t : envelope_json e = Some t -> envelope_json e' = Some t -> canon e = canon e'.
Proof. intros H%parse_json H'%parse_json. congruence. Qed.

(** With valid strings, only the data is changed by the way through JSON. *)
Lemma canon_utf8 e : utf8_envelope e -> canon e = compacted e.
Proof.
  destruct e as [[p|] key]; unfold canon, compacted; cbn; intros [Hk Hp]; rewrite Hk; [|done].
  destruct Hp as (H1 & H2 & H3 & H4 & H5 & H6 & H7). unfold utf8, canon_payload, set_data in *.
  by rewrite H1, H2, H3, H4, H5, H6, H7.
Qed.

Lemma set_signature_idem s s' p : set_signature s (set_signature s' p) = set_signature s p.
Proof. done. Qed.

Lemma set_signature_self p : p_Signature p = "" -> set_signature "" p = p.
Proof. destruct p; cbn. by intros ->. Qed.

(** A text written by [marshalSigned] passes the integrity check. *)
Lemma marshalSigned_verifies c p key t :
  utf8_envelope (Some p, key) -> p_Signature p = "" -> marshalSigned c (Some p, key) = Ok t ->
  exists sig data, envelope_parse t = Some (Some (set_signature sig (set_data (compact (p_Data p)) p)), key)
    /\ envelope_json (Some (set_data (compact (p_Data p)) p), key) = Some data
    /\ verifyPayload c data sig = None.
Proof.
  intros Hu Hp. unfold marshalSigned. destruct (envelope_json (Some p, key)) as [data|] eqn:Ej; [|done].
  assert (Hc : envelope_json (Some (set_data (compact (p_Data p)) p), key) = Some data)
    by (rewrite <- Ej; exact (json_compacted (Some p, key))).
  unfold signPayload, verifyPayload.
  destruct (negb (signingEnabled c) || String.eqb (signingKey c) "") eqn:Hoff; cbn [String.eqb].
  - intros <-%Ok_inj. exists "", data.
    rewrite set_signature_self by done. rewrite (parse_json _ _ Ej), (canon_utf8 _ Hu). done.
  - pose proof (hmac_text (signingKey c) data) as Hne. apply String.eqb_neq in Hne. rewrite Hne.
    destruct (envelope_json (set_sig _ _)) as [t'|] eqn:Es; [|done]. intros <-%Ok_inj.
    exists (hmac_hex (signingKey c) data), data. rewrite Hne, String.eqb_refl. split; [|done].
    rewrite (parse_json _ _ Es). f_equal. rewrite canon_utf8; [done|].
    destruct Hu as [Hk (H1 & H2 & H3 & H4 & H5 & H6 & H7)]. repeat split; try done.
    unfold utf8. cbn. apply coerce_ascii, hmac_ascii.
Qed.

(** Looking a stored type up in the registry normalises it a second time. *)
Lemma normalize_stored s :
  has_prefix "*" (normalizeJobType s) = false -> normalizeJobType (normalizeJobType s) = normalizeJobType s.
Proof.
  intros Hs. unfold normalizeJobType at 1. rewrite <- (after_last_dot_id (normalizeJobType s)) at 2
    by apply after_last_dot_plain.
  f_equal. destruct (normalizeJobType s) as [|a n]; [done|]. cbn in Hs.
  destruct (ascii_dec a "*") as [->|Hne]; [done|]. destruct a as [[] [] [] [] [] [] [] []]; congruence.
Qed.

(** Opening what was sealed, read back from its stored form. *)
Lemma seal_open c seed p p' :
  (forall enc, payloadEncryptor c = Some enc -> opens_its_own enc) ->
  p_Encrypted p = false -> compact (p_Data p) = p_Data p -> sealPayload c seed p = Ok p' ->
  set_data (p_Data p) (set_encrypted false p') = p
  /\ compact (p_Data p') = p_Data p'
  /\ forall v, (payloadEncryptor c = None \/ p_Encrypted p' = true) -> openPayload c v p' = Ok p.
Proof.
  intros Henc Hp Hcp. unfold sealPayload, openPayload. destruct (payloadEncryptor c) as [enc|] eqn:Ec.
  - rewrite Hp. destruct (EncryptBytesWithAAD _ _ _ _) as [ct|] eqn:Ee; [|done]. intros <-%Ok_inj.
    destruct (Henc _ eq_refl _ _ _ _ Ee) as [Hd Ha].
    split_and!; [by destruct p; cbn in *; subst|apply string_compact|].
    intros v _. cbn [p_Encrypted set_encrypted set_data negb p_Data p_Type].
    rewrite string_parse_json, (coerce_ascii ct Ha), Hd. destruct p; cbn in *. by subst.
  - intros <-%Ok_inj. split_and!; [by destruct p; cbn in *; subst|done|]. intros v _. by rewrite Hp.
Qed.

Lemma seal_encrypts c seed p p' :
  sealPayload c seed p = Ok p' -> payloadEncryptor c = None \/ p_Encrypted p' = true.
Proof.
  unfold sealPayload. destruct (payloadEncryptor c); [|by left]. right. repeat case_match; by simplify_eq.
Qed.

(** what is pushed is what is run.  Under any signing key and encryptor, or
    none, a job stored by a producer is rebuilt by a consumer with the same
    configuration from exactly the bytes the job was marshalled to, by the
    factory registered for its type: signing, encryption and the encodings
    around them cancel.  The names stored with it are valid UTF-8. *)
Theorem stored_job_is_rebuilt c reg seed now trace key job q t data handler j :
  (forall enc, payloadEncryptor c = Some enc -> opens_its_own enc) ->
  has_prefix "*" (normalizeJobType (typeName job)) = false ->
  Forall utf8 [normalizeJobType (typeName job); q; trace.1.1; trace.1.2; trace.2; key] ->
  reg !! normalizeJobType (typeName job) = Some handler ->
  job_json job = Some data -> handler data = Some j ->
  store_payload c seed now trace key job q = Ok t ->
  hydrateRecord c reg t = Ok j.
Proof.
  intros Henc Hname Hutf Hreg Hd Hj. unfold store_payload, MarshalJob. rewrite Hd. cbn [p_Type p_Data p_Queue].
  set (p := mkPayload _ _ _ _ _ _ _ _ _ _ _). destruct (sealPayload c seed p) as [p'|] eqn:Es; [|done].
  destruct (seal_open c seed p p' Henc eq_refl (job_compact _ _ Hd) Es) as (Hp & Hcomp & Hopen). intros Hm.
  assert (Hrest : p_Signature p' = "" /\ utf8_envelope (Some p', key)).
  { rewrite !Forall_cons in Hutf. destruct Hutf as (H1 & H2 & H3 & H4 & H5 & H6 & _).
    pose proof (f_equal p_Signature Hp) as E1. pose proof (f_equal p_Type Hp) as E2. pose proof (f_equal p_Queue Hp) as E3.
    pose proof (f_equal p_TraceID Hp) as E4. pose proof (f_equal p_SpanID Hp) as E5. pose proof (f_equal p_ParentID Hp) as E6.
    pose proof (f_equal p_DedupeKey Hp) as E7. cbn in E1, E2, E3, E4, E5, E6, E7. split; [done|].
    split; cbn [fst snd]; [done|]. unfold utf8_payload. rewrite E1, E2, E3, E4, E5, E6, E7. split_and!; try done. by apply coerce_ascii. }
  destruct Hrest as [Hsig Hu].
  destruct (marshalSigned_verifies c p' key t Hu Hsig Hm) as (sig & vd & Hparse & Hjson & Hver).
  assert (Hself : set_data (compact (p_Data p')) p' = p') by (rewrite Hcomp; by destruct p').
  rewrite Hself in Hparse, Hjson. unfold hydrateRecord. rewrite Hparse. cbn [p_Signature set_signature].
  change (set_signature "" (set_signature sig p')) with (set_signature "" p').
  rewrite (set_signature_self p') by exact Hsig. rewrite Hjson, Hver, Hopen by (by eapply seal_encrypts).
  unfold HydrateJob, Deserialize. cbn [p p_Encrypted p_Type p_Data]. by rewrite normalize_stored, Hreg, Hj.
Qed.

(** C28: with a signing key, nothing runs that no producer pushed.  Whatever
    text an attacker puts in the store, if it is accepted then a producer signed
    an envelope with the same canonical form: the job runs from a payload that
    has that envelope's type, queue, attempts, time, trace, flag and dedupe key
    (its strings read as valid UTF-8), and data that compacts to the same bytes;
    white space and escapes inside the stored data are all that can differ.
    The attacker is only assumed not to have made a MAC of the message that is
    checked unless a producer signed it ([signed] is what producers signed). *)
Theorem only_signed_payloads_run c reg t j (signed : list Envelope) :
  signingEnabled c = true -> signingKey c <> "" ->
  (forall p key m, envelope_parse t = Some (Some p, key) ->
     envelope_json (Some (set_signature "" p), key) = Some m ->
     hmac_hex (signingKey c) m = p_Signature p -> exists e, e ∈ signed /\ envelope_json e = Some m) ->
  hydrateRecord c reg t = Ok j ->
  exists p sig key p0 key0, envelope_parse t = Some (Some (set_signature sig p), key)
    /\ (Some p0, key0) ∈ signed /\ key = coerce key0
    /\ compact (p_Data p) = compact (p_Data p0)
    /\ set_data (compact (p_Data p0)) p = canon_payload p0
    /\ res_bind (openPayload c true p) (fun p => HydrateJob reg (Some p)) = Ok j.
Proof.
  intros Hon Hkey Hmac. unfold hydrateRecord. destruct (envelope_parse t) as [[[p|] key]|] eqn:He; [|done..].
  destruct (envelope_json _) as [m|] eqn:Hj; [|done].
  unfold verifyPayload. rewrite Hon. apply String.eqb_neq in Hkey. rewrite Hkey. cbn [negb orb].
  destruct (String.eqb (p_Signature p) "") eqn:Hs; [done|].
  destruct (String.eqb_spec (hmac_hex (signingKey c) m) (p_Signature p)) as [Hm|]; [|done]. cbn [negb].
  intros Hrun. destruct (Hmac p key m) as (e & Hin & Hje); [done..|].
  assert (Hu : utf8_envelope (Some (set_signature "" p), key)).
  { apply parse_utf8 in He as [Hk (H1 & H2 & H3 & H4 & H5 & H6 & H7)]. repeat split; try done. by apply coerce_ascii. }
  pose proof (envelope_json_inj _ _ _ Hj Hje) as Hcan. rewrite (canon_utf8 _ Hu) in Hcan.
  destruct e as [[p0|] key0]; cbn in Hcan; [|done]. apply pair_equal_spec in Hcan as [Hp0%Some_inj Hk0].
  exists (set_signature "" p), (p_Signature p), key, p0, key0.
  pose proof (f_equal p_Data Hp0) as Hd. cbn [p_Data canon_payload set_data set_signature] in Hd.
  split_and!; [by destruct p|done|done|done| |by destruct (openPayload c true (set_signature "" p))].
  rewrite <- Hp0, <- Hd. done.
Qed.

(** What was sealed: the data of jobs with their types, and quarantined blobs. *)
Definition seals (jobs : list (string * string)) (blobs : list string) : list (string * string) :=
  ((fun dt => (dt.1, payloadAAD dt.2)) <$> jobs) ++ ((fun b => (b, quarantineAAD)) <$> blobs).

Lemma seals_payload jobs blobs data ty : (data, payloadAAD ty) ∈ seals jobs blobs -> (data, ty) ∈ jobs.
Proof.
  unfold seals. rewrite elem_of_app, !list_elem_of_fmap. intros [([d ty'] & [= -> Hty] & H)|(b & [=] & _)].
  assert (ty = ty') as -> by by repeat (injection Hty as Hty). done.
Qed.

(** C29: with an encryptor and no signing key, only sealed data runs, and only as
    the type it was sealed for.  Whatever text is in the store, an accepted row
    holds a ciphertext whose data was sealed as a job of its own type:
    plaintext is refused, and so are the ciphertext of another type and a
    quarantined blob.  The encryptor is only assumed to authenticate this row's
    ciphertext: if it opens under some additional data, it was sealed under it,
    as a job's data or as a quarantined blob. *)
Theorem sealed_data_runs_as_its_type c reg enc jobs blobs t j :
  payloadEncryptor c = Some enc -> signingEnabled c = false ->
  (forall p key ct aad data, envelope_parse t = Some (Some p, key) -> string_parse (p_Data p) = Some ct ->
     DecryptBytesWithAAD enc ct aad = Some data -> (data, aad) ∈ seals jobs blobs) ->
  hydrateRecord c reg t = Ok j ->
  exists p key ct data handler,
    envelope_parse t = Some (Some p, key) /\ string_parse (p_Data p) = Some ct
    /\ DecryptBytesWithAAD enc ct (payloadAAD (p_Type p)) = Some data /\ (data, p_Type p) ∈ jobs
    /\ reg !! normalizeJobType (p_Type p) = Some handler /\ handler data = Some j.
Proof.
  intros Hc Hoff Hauth. unfold hydrateRecord. destruct (envelope_parse t) as [[[p|] key]|] eqn:He; [|done..].
  destruct (envelope_json _) as [m|]; [|done]. unfold verifyPayload. rewrite Hoff. cbn [negb orb].
  destruct (String.eqb (p_Signature p) "") eqn:Hs; [|done]. cbn [negb].
  unfold openPayload. rewrite Hc. cbn [p_Encrypted set_signature p_Data p_Type].
  destruct (p_Encrypted p); [|done]. cbn [negb].
  destruct (string_parse (p_Data p)) as [ct|] eqn:Ect; [|done].
  destruct (DecryptBytesWithAAD enc ct _) as [data|] eqn:Ed; [|done].
  cbn [HydrateJob p_Encrypted set_encrypted]. unfold Deserialize. cbn [p_Type p_Data set_encrypted set_data set_signature].
  destruct (reg !! _) as [handler|] eqn:Er; [|done].
  destruct (handler data) as [j'|] eqn:Eh; [|done]. intros <-%Ok_inj.
  pose proof (Hauth p key ct _ data eq_refl Ect Ed) as Hin%seals_payload.
  exists p, key, ct, data, handler. done.
Qed.

(** the queue does not come up unsigned by accident: without a key, or with
    a raw key of fewer than 32 bytes, configuration fails unless an option
    accepts unsigned payloads, and whenever it succeeds without such an option
    signing is on with a key that is the raw key or derived from the
    application key. *)
Theorem signing_fails_closed raw app opts c c' e :
  ConfigureSigningWith raw app opts c = (c', e) ->
  payloadEncryptor c' = payloadEncryptor c
  /\ (e = None -> AcceptUnsigned opts = false -> AllowUnsignedInDev opts = false ->
      signingEnabled c' = true
      /\ (signingKey c' = raw /\ 32 <= Z.of_nat (String.length raw)
          \/ raw = "" /\ app <> "" /\ signingKey c' = hkdf_queue app))
  /\ (e <> None -> signingEnabled c' = false /\ forall m, signPayload c' m = "").
Proof.
  unfold ConfigureSigningWith. destruct (String.eqb_spec raw "") as [->|Hr].
  - destruct (String.eqb_spec app "") as [->|Ha]; cbn [String.eqb].
    + intros [= <- <-]. split_and!; [done| |done]. intros He Hu Hd. by rewrite Hu, Hd in He.
    + intros [= <- <-]. split_and!; [done|eauto|done].
  - destruct (String.eqb_spec raw "") as [|_]; [done|].
    destruct (Z.ltb_spec (Z.of_nat (String.length raw)) minSigningKeyBytes) as [Hl|Hl];
      intros [= <- <-]; split_and!; try done. intros _ _ _. split; [done|]. left. split; [done|]. exact Hl.
Qed.

End theorems.

(** ** A concrete wire *)

#[export] Instance Payload_eq_dec : EqDecision Payload.
Proof. solve_decision. Defined.

Definition plain_payload (sig : string) : Payload := mkPayload "SendMail" "hello" "default" 0 5 "" "" "" sig false "".

(** Leading blanks are the white space of this wire. *)
Fixpoint strip (s : string) : string := match s with String " " s' => strip s' | _ => s end.

Lemma strip_idem s : strip (strip s) = strip s.
Proof.
  induction s as [|a s IH]; [done|]. destruct (ascii_dec a " ") as [->|Hne]; [exact IH|].
  assert (E : strip (String a s) = String a s) by (destruct a as [[] [] [] [] [] [] [] []]; congruence || reflexivity).
  by rewrite E.
Qed.

Definition strip_envelope (e : Envelope) : Envelope := ((fun p => set_data (strip (p_Data p)) p) <$> e.1, e.2).

(** Jobs are texts of one type, written without leading blanks; a string is
    written after an apostrophe; the MAC tells one payload from all others. *)
Definition sample_wire : Wire := {|
  WJob := string;
  Text := Envelope;
  typeName _ := "*mail.SendMail";
  job_json j := Some (strip j);
  envelope_json e := Some (strip_envelope e);
  envelope_parse e := Some e;
  string_json s := String "'" s;
  string_parse s := match s with String "'" s' => Some s' | _ => None end;
  compact := strip;
  coerce s := s;
  hmac_hex _ e := if decide (e = (Some (plain_payload ""), "")) then "good" else "other";
  hkdf_queue k := k
|}.

(** Seals by writing the additional data, a line break and the data; ASCII
    data only. *)
Definition newline : ascii := ascii_of_nat 10.
Definition sample_encryptor : Encryptor := {|
  EncryptBytesWithAAD _ data aad :=
    if all_bytes is_ascii7 (aad +:+ data) && negb (contains_byte newline aad)
    then Some (aad +:+ String newline data) else None;
  DecryptBytesWithAAD c aad :=
    if negb (contains_byte newline aad) && has_prefix (aad +:+ String newline "") c
    then Some (str_drop (String.length aad + 1) c) else None
|}.

#[export] Instance sample_laws : WireLaws sample_wire.
Proof.
  split; cbn [envelope_json envelope_parse compact coerce job_json string_json string_parse hmac_hex sample_wire].
  - intros [[p|] key] t [= <-]; unfold canon, strip_envelope; cbn; [|done]. by destruct p.
  - intros t [[p|] key] _; repeat split; done.
  - intros [[p|] key]; unfold compacted, strip_envelope; cbn; [|done]. by rewrite strip_idem.
  - intros j d [= <-]. apply strip_idem.
  - done.
  - done.
  - done.
  - intros key t. by case_decide.
  - intros key t. by case_decide.
Qed.

Definition sample_registry : @JobRegistry sample_wire :=
  @Register sample_wire ∅ "SendMail" (fun data => Some data).

Lemma has_prefix_append a s : has_prefix a (a +:+ s) = true.
Proof. induction a as [|c a IH]; [done|]. cbn. by rewrite Ascii.eqb_refl. Qed.

Lemma sample_opens : opens_its_own sample_encryptor.
Proof.
  intros seed data aad c. cbn [EncryptBytesWithAAD DecryptBytesWithAAD sample_encryptor].
  destruct (all_bytes is_ascii7 (aad +:+ data)) eqn:Ha; [|done]. destruct (contains_byte newline aad); [done|].
  cbn [negb andb]. intros <-%Some_inj. rewrite all_bytes_app in Ha. apply andb_true_iff in Ha as [Ha Hd].
  replace (aad +:+ String newline data) with ((aad +:+ String newline "") +:+ data)
    by (clear; induction aad as [|x aad IH]; cbn; [done|by rewrite IH]).
  rewrite has_prefix_append. split.
  - replace (String.length aad + 1)%nat with (String.length (aad +:+ String newline "")) by (rewrite length_append; done).
    by rewrite str_drop_app.
  - rewrite !all_bytes_app, Ha, Hd. done.
Qed.

Definition sample_protection : Protection := mkProtection "key" true (Some sample_encryptor).

Lemma stored_job_is_rebuilt_witness :
  exists t, @store_payload sample_wire sample_protection 0 5 ("", "", "") "" "hello" "default" = Ok t
    /\ @hydrateRecord sample_wire sample_protection sample_registry t = Ok "hello".
Proof.
  eexists. split; [vm_compute; reflexivity|].
  apply (@stored_job_is_rebuilt sample_wire sample_laws sample_protection sample_registry 0 5 ("", "", "") "" "hello"
    "default" _ "hello" (fun data => Some data) "hello").
  - intros enc [= <-]. apply sample_opens.
  - reflexivity.
  - repeat (apply Forall_cons; split; [reflexivity|]). by apply Forall_nil.
  - reflexivity.
  - reflexivity.
  - reflexivity.
  - vm_compute. reflexivity.
Defined.

(** The stored data has a blank the signed one has not. *)
Definition spaced_row : Envelope := (Some (set_data "  hello" (plain_payload "good")), "").

Lemma only_signed_payloads_run_witness :
  exists p sig key p0 key0, @envelope_parse sample_wire spaced_row = Some (Some (set_signature sig p), key)
    /\ (Some p0, key0) ∈ [(Some (plain_payload ""), "")] /\ key = coerce (Wire := sample_wire) key0
    /\ compact (Wire := sample_wire) (p_Data p) = compact (Wire := sample_wire) (p_Data p0)
    /\ set_data (compact (Wire := sample_wire) (p_Data p0)) p = canon_payload (WR := sample_wire) p0
    /\ res_bind (openPayload (WR := sample_wire) (mkProtection "key" true None) true p)
         (fun p => HydrateJob sample_registry (Some p)) = Ok "  hello".
Proof.
  apply (@only_signed_payloads_run sample_wire sample_laws (mkProtection "key" true None) sample_registry
    spaced_row "  hello" [(Some (plain_payload ""), "")]).
  - reflexivity.
  - discriminate.
  - intros p key m [= <- <-] [= <-] _. exists (Some (plain_payload ""), ""). split; [left|reflexivity].
  - vm_compute. reflexivity.
Defined.

(** A row as the sample encryptor sealed it, and nothing else sealed. *)
Definition sealed_text : string := payloadAAD "SendMail" +:+ String newline "hello".
Definition sealed_row : Envelope :=
  (Some (mkPayload "SendMail" (String "'" sealed_text) "default" 0 5 "" "" "" "" true ""), "").

Lemma prefix_line a b d :
  contains_byte newline a = false -> contains_byte newline b = false ->
  has_prefix (a +:+ String newline "") (b +:+ String newline d) = true -> a = b.
Proof.
  revert b. induction a as [|x a IH]; intros [|y b] Ha Hb; cbn [append contains_byte has_prefix] in *; [done|..].
  - apply orb_false_iff in Hb as [Hy _]. rewrite Ascii.eqb_sym, Hy. done.
  - apply orb_false_iff in Ha as [Hx _]. by rewrite Hx.
  - apply orb_false_iff in Ha as [_ Ha], Hb as [_ Hb]. destruct (Ascii.eqb_spec x y) as [->|]; [|done].
    intros H. f_equal. by apply IH.
Qed.

Lemma sealed_text_opens aad data :
  DecryptBytesWithAAD sample_encryptor sealed_text aad = Some data -> (data, aad) ∈ seals [("hello", "SendMail")] [].
Proof.
  cbn [DecryptBytesWithAAD sample_encryptor]. destruct (contains_byte newline aad) eqn:Hn; [done|]. cbn [negb andb].
  destruct (has_prefix _ sealed_text) eqn:Hp; [|done]. intros Hd.
  assert (E : aad = payloadAAD "SendMail").
  { exact (prefix_line aad (payloadAAD "SendMail") "hello" Hn eq_refl Hp). }
  subst aad. vm_compute in Hd. apply Some_inj in Hd as <-. left.
Qed.

Lemma sealed_data_runs_as_its_type_witness :
  EncryptBytesWithAAD sample_encryptor 0 "hello" (payloadAAD "SendMail") = Some sealed_text
  /\ exists p key ct data handler,
    @envelope_parse sample_wire sealed_row = Some (Some p, key) /\ string_parse (Wire := sample_wire) (p_Data p) = Some ct
    /\ DecryptBytesWithAAD sample_encryptor ct (payloadAAD (p_Type p)) = Some data /\ (data, p_Type p) ∈ [("hello", "SendMail")]
    /\ sample_registry !! normalizeJobType (p_Type p) = Some handler /\ handler data = Some "hello".
Proof.
  split; [vm_compute; reflexivity|].
  apply (@sealed_data_runs_as_its_type sample_wire (mkProtection "" false (Some sample_encryptor)) sample_registry
    sample_encryptor [("hello", "SendMail")] [] sealed_row "hello").
  - reflexivity.
  - reflexivity.
  - intros p key ct aad data [= <- <-] [= <-]. apply sealed_text_opens.
  - vm_compute. reflexivity.
Defined.

Lemma signing_fails_closed_witness :
  signingEnabled (fst (ConfigureSigningWith (WR := sample_wire) "" "app" (mkSigningOptions false false)
                         (mkProtection "" false None))) = true.
Proof.
  apply (proj1 (proj2 (@signing_fails_closed sample_wire "" "app" (mkSigningOptions false false)
    (mkProtection "" false None) _ _ eq_refl))); reflexivity.
Defined.
