(* ===== verification/QueueWorker.v ===== *)
(** * The queue worker

    Models the pumps of queue/worker.go over a driver that leases jobs.  The
    driver is an interface, the ReservationDriver of queue/types.go: the class
    [ReservationDriver] has its operations and [LeasingDriver] states what the
    worker relies on; the in-memory driver is the instance below, the database
    driver that of QueueDatabase.v.

    Several workers, each with its own pumps, its attempt cache and its stop
    signal, share one driver.  Every call into the driver is one step of a
    pump, and the steps of all pumps, other callers' pushes and clears
    included, interleave in any order.  The handler's result, whether the
    batch of a job is known and cancelled, and whether the driver fails or its
    context has ended are inputs of a step ([Env]). *)

From Stdlib Require Import Ascii String.
From S2P Require Import Prelude GoStrings Heap QueueMemory QueueSpec.
Local Open Scope string_scope.
Local Open Scope list_scope.
Local Open Scope Z_scope.

(** ** The interface *)

(** [Item] is what the driver stores and leases, [DEnv] what an operation
    learns from outside (clock, context, backend).  [d_other] are the remaining
    operations: pushes, clears, the driver's own loop. *)
Class ReservationDriver (D Item J DEnv Op : Type) := {
  d_reserve : D -> DEnv -> string -> D * result QueueError (option (Item * ReservationToken));
  d_rebuild : DEnv -> Item -> option J;
  d_quarantine : D -> DEnv -> string -> ReservationToken -> Item -> D * QueueError;
  d_AckCtx : D -> DEnv -> ReservationToken -> D * option QueueError;
  d_ReleaseCtx : D -> DEnv -> ReservationToken -> Z -> D * option QueueError;
  d_FailReservedCtx : D -> DEnv -> ReservationToken -> J -> string -> string -> D * option QueueError;
  d_PushDelayedCtx : D -> DEnv -> J -> Z -> string -> D * option QueueError;
  d_FailedCtx : D -> DEnv -> J -> string -> string -> D * option QueueError;
  d_other : D -> Op -> D
}.

(** What the worker asks of a job: its optional interfaces, and the key of the
    attempt cache. *)
Inductive BatchRead := NotBatched | Batched (id : string) | BatchPanic (err : string).

Class WorkerJob (J : Type) := {
  MaxAttempts : J -> option Z;
  ShouldRetry : J -> option (string -> bool);
  Backoff : J -> option (list Z);
  batchIDOf : J -> BatchRead;
  jobKey : J -> string
}.

(** ** A worker *)

Section worker.
Context {D Item J DEnv Op : Type} {RD : ReservationDriver D Item J DEnv Op} {WJ : WorkerJob J}.

Record Config := mkConfig { queueName : string; maxRetries : Z; backoff : Z -> Z }.

Inductive Outcome := Processed | Skipped | Failed (err : string).

(** Where a pump is in processJob.  [k] is the key of its attempt cache. *)
Inductive Pump :=
  | Polling
  | Rebuilding (it : Item) (t : ReservationToken)
  | Handling (it : Item) (j : J) (t : ReservationToken) (batch : option string)
  | Acking (it : Item) (j : J) (t : ReservationToken) (batch : option string) (skip : bool)
  | Retrying (it : Item) (j : J) (t : ReservationToken) (batch : option string) (err : string)
      (attempt maxAttempts : Z) (k : option string)
  | Failing (it : Item) (j : J) (t : ReservationToken) (batch : option string) (err : string) (k : option string)
  | Reporting (it : Item) (j : J) (batch : option string) (o : Outcome)
  | Stopped.

Record Worker := mkWorker {
  cfg : Config;
  attempts : gmap string Z;          (** counters of 32 bits *)
  stopping : bool;                   (** the worker's context is done *)
  pumps : list Pump
}.

(** What a worker tells the rest of the program. *)
Inductive Event :=
  | JobProcessing (j : J)
  | JobProcessed (it : Item) (j : J)
  | JobSkipped (it : Item)
  | JobRetrying (j : J) (attempt maxAttempts : Z) (err : string) (delay : Z)
  | JobFailed (it : Item) (j : J) (err : string)
  | BatchSuccess (id : string)
  | BatchSkip (id : string)
  | BatchFailure (id : string) (err : string).

Inductive HandlerResult := Returned (err : option string) | TimedOut.

Record Env := mkEnv {
  e_driver : DEnv;
  e_result : HandlerResult;
  e_batchFound : bool;
  e_batchCancelled : bool
}.

Definition with_attempts (a : gmap string Z) (w : Worker) : Worker := mkWorker (cfg w) a (stopping w) (pumps w).
Definition with_pump (p : nat) (st : Pump) (w : Worker) : Worker :=
  mkWorker (cfg w) (attempts w) (stopping w) (<[p := st]> (pumps w)).

(** *** Attempts *)

Definition attemptKey (j : J) (t : ReservationToken) : option string :=
  if negb (IsZero t) && (0 <? t_Attempts t) then None else Some (jobKey j).

Definition incrementAttempts (k : option string) (w : Worker) : Worker * Z :=
  match k with
  | None => (w, 0)
  | Some k => let n := wrap32 (default 0 (attempts w !! k) + 1) in (with_attempts (<[k := n]> (attempts w)) w, n)
  end.

Definition attemptNumber (k : option string) (t : ReservationToken) (w : Worker) : Worker * Z :=
  if negb (IsZero t) && (0 <? t_Attempts t) then (w, t_Attempts t) else incrementAttempts k w.

Definition removeAttempts (k : option string) (w : Worker) : Worker :=
  match k with None => w | Some k => with_attempts (delete k (attempts w)) w end.

(** The last delay is used beyond the list; an attempt below 1 would be out of range. *)
Definition calculateBackoff (c : Config) (j : J) (attempt : Z) : Z :=
  match Backoff j with
  | Some (d0 :: ds) =>
      let delays := d0 :: ds in
      let idx := if Z.of_nat (List.length delays) <=? attempt - 1 then Z.of_nat (List.length delays) - 1 else attempt - 1 in
      nth (Z.to_nat idx) delays d0
  | _ => backoff c attempt
  end.

(** *** Steps of a pump *)

(** The decision of handleJobFailure; what follows is the call into the driver. *)
Definition handleJobFailure (it : Item) (j : J) (t : ReservationToken) (batch : option string) (err : string)
    (w : Worker) : Worker * Pump :=
  let maxAttempts := default (maxRetries (cfg w)) (MaxAttempts j) in
  let k := attemptKey j t in
  let '(w, attempt) := attemptNumber k t w in
  if match ShouldRetry j with Some f => negb (f err) | None => false end
  then (w, Failing it j t batch err k)
  else if attempt <? maxAttempts then (w, Retrying it j t batch err attempt maxAttempts k)
  else (w, Failing it j t batch err k).

(** A job in hand: its batch is read, and a job of a cancelled batch is skipped. *)
Definition begin_job (x : Env) (it : Item) (j : J) (t : ReservationToken) (w : Worker)
    : Worker * Pump * list Event :=
  match batchIDOf j with
  | BatchPanic err =>
      let k := attemptKey j t in
      let '(w, _) := attemptNumber k t w in
      (w, Failing it j t None err k, [JobProcessing j])
  | Batched id =>
      if e_batchFound x && e_batchCancelled x then (w, Acking it j t (Some id) true, [JobProcessing j])
      else (w, Handling it j t (Some id), [JobProcessing j])
  | NotBatched => (w, Handling it j t None, [JobProcessing j])
  end.

Definition retry_job (x : Env) (d : D) (w : Worker) (it : Item) (j : J) (t : ReservationToken)
    (batch : option string) (err : string) (attempt maxAttempts : Z) (k : option string)
    : D * Pump * list Event :=
  let delay := calculateBackoff (cfg w) j attempt in
  let '(d, e) := if IsZero t then d_PushDelayedCtx d (e_driver x) j delay (queueName (cfg w))
                 else d_ReleaseCtx d (e_driver x) t delay in
  match e with
  | None => (d, Polling, [JobRetrying j attempt maxAttempts err delay])
  | Some ErrLeaseLost => (d, Polling, [])
  | Some _ => (d, Failing it j t batch err k, [])
  end.

Definition fail_job (x : Env) (d : D) (w : Worker) (it : Item) (j : J) (t : ReservationToken)
    (batch : option string) (err : string) : D * Pump :=
  if IsZero t then
    let '(d, _) := d_FailedCtx d (e_driver x) j err (queueName (cfg w)) in
    (d, Reporting it j batch (Failed err))
  else match d_FailReservedCtx d (e_driver x) t j err (queueName (cfg w)) with
       | (d, None) => (d, Reporting it j batch (Failed err))
       | (d, Some _) => (d, Polling)
       end.

Definition ackReservation (x : Env) (d : D) (t : ReservationToken) : D * bool :=
  if IsZero t then (d, true)
  else match d_AckCtx d (e_driver x) t with
       | (d, None) => (d, true)
       | (d, Some _) => (d, false)
       end.

(** The side effects of a job this worker owns. *)
Definition report (x : Env) (it : Item) (j : J) (batch : option string) (o : Outcome) : list Event :=
  let found id ev := if e_batchFound x then [ev id] else [] in
  match o with
  | Processed => match batch with Some id => found id BatchSuccess | None => [] end ++ [JobProcessed it j]
  | Skipped => match batch with Some id => [BatchSkip id] | None => [] end ++ [JobSkipped it]
  | Failed err => match batch with Some id => found id (fun id => BatchFailure id err) | None => [] end
                  ++ [JobFailed it j err]
  end.

(** One step of a pump. *)
Definition pump_step (x : Env) (d : D) (w : Worker) (st : Pump) : D * Worker * Pump * list Event :=
  match st with
  | Polling =>
      if stopping w then (d, w, Stopped, [])
      else match d_reserve d (e_driver x) (queueName (cfg w)) with
           | (d, Ok (Some (it, t))) => (d, w, Rebuilding it t, [])
           | (d, _) => (d, w, Polling, [])
           end
  | Rebuilding it t =>
      match d_rebuild (e_driver x) it with
      | None => let '(d, _) := d_quarantine d (e_driver x) (queueName (cfg w)) t it in (d, w, Polling, [])
      | Some j => let '(w, st, ev) := begin_job x it j t w in (d, w, st, ev)
      end
  | Handling it j t batch =>
      match e_result x with
      | Returned None => (d, w, Acking it j t batch false, [])
      | Returned (Some err) =>
          if stopping w then (d, w, Polling, [])
          else let '(w, st) := handleJobFailure it j t batch err w in (d, w, st, [])
      | TimedOut =>
          if stopping w then (d, w, Polling, [])
          else let '(w, st) := handleJobFailure it j t batch "velocity/queue: job timed out" w in (d, w, st, [])
      end
  | Acking it j t batch skip =>
      let '(d, owned) := ackReservation x d t in
      let w := if skip then w else removeAttempts (attemptKey j t) w in
      (d, w, if owned then Reporting it j batch (if skip then Skipped else Processed) else Polling, [])
  | Retrying it j t batch err attempt maxAttempts k =>
      let '(d, st, ev) := retry_job x d w it j t batch err attempt maxAttempts k in (d, w, st, ev)
  | Failing it j t batch err k =>
      let w := removeAttempts k w in
      let '(d, st) := fail_job x d w it j t batch err in (d, w, st, [])
  | Reporting it j batch o => (d, w, Polling, report x it j batch o)
  | Stopped => (d, w, Stopped, [])
  end.

(** ** The system *)

Record System := mkSystem { driver : D; workers : list Worker; events : list Event }.

Inductive Action :=
  | AStep (wi p : nat) (x : Env)
  | AStop (wi : nat)
  | AOther (o : Op).

Definition step (s : System) (a : Action) : System :=
  match a with
  | AStep wi p x =>
      match workers s !! wi with
      | None => s
      | Some w =>
          match pumps w !! p with
          | None => s
          | Some st =>
              let '(d, w, st, ev) := pump_step x (driver s) w st in
              mkSystem d (<[wi := with_pump p st w]> (workers s)) (events s ++ ev)
          end
      end
  | AStop wi =>
      mkSystem (driver s) (alter (fun w => mkWorker (cfg w) (attempts w) true (pumps w)) wi (workers s)) (events s)
  | AOther o => mkSystem (d_other (driver s) o) (workers s) (events s)
  end.

Definition run (s : System) (acts : list Action) : System := fold_left step acts s.

End worker.

(** ** What the worker relies on

    [key] is the identity of a stored job and [lease] that of a lease.  A lease
    that was issued is never issued again; while it is [leased] it names the
    job it was issued for; only the holder of a lease settles the job, and
    settling takes that job, once, out of the [live] ones.  [n] bounds the
    operations so far, for the drivers that number their leases. *)

Section laws.
Context {D Item J DEnv Op : Type} {RD : ReservationDriver D Item J DEnv Op}.

(** Leases are only lost, never moved to another job. *)
Definition leases_kept {T K} (leased : D -> T -> option K) (issued : D -> T -> Prop) (d d' : D) : Prop :=
  forall x, issued d x -> issued d' x /\ (leased d' x = leased d x \/ leased d' x = None).

Class LeasingDriver (K T : Type) := {
  key : Item -> K;
  lease : ReservationToken -> T;
  live : D -> list K;
  leased : D -> T -> option K;
  issued : D -> T -> Prop;
  d_ok : Z -> D -> Prop;
  came : D -> Op -> list K;
  gone : D -> Op -> list K;

  settles d d' t := exists k, leased d (lease t) = Some k /\ live d ≡ₚ k :: live d';

  law_reserve n d x q d' r : d_ok n d -> n + 1 < two63 -> d_reserve d x q = (d', r) ->
    d_ok (n + 1) d' /\ live d' ≡ₚ live d /\ leases_kept leased issued d d' /\
    match r with
    | Ok (Some (it, t)) => IsZero t = false /\ ~ issued d (lease t) /\ issued d' (lease t)
                           /\ leased d' (lease t) = Some (key it)
    | _ => True
    end;
  law_ack n d x t d' e : d_ok n d -> n + 1 < two63 -> IsZero t = false -> issued d (lease t) ->
    d_AckCtx d x t = (d', e) ->
    d_ok (n + 1) d' /\ leases_kept leased issued d d'
    /\ match e with None => settles d d' t | Some _ => live d' ≡ₚ live d end;
  law_fail n d x t j err q d' e : d_ok n d -> n + 1 < two63 -> IsZero t = false -> issued d (lease t) ->
    d_FailReservedCtx d x t j err q = (d', e) ->
    d_ok (n + 1) d' /\ leases_kept leased issued d d'
    /\ match e with None => settles d d' t | Some _ => live d' ≡ₚ live d end;
  law_quarantine n d x q t it d' e : d_ok n d -> n + 1 < two63 -> IsZero t = false -> issued d (lease t) ->
    d_quarantine d x q t it = (d', e) ->
    d_ok (n + 1) d' /\ leases_kept leased issued d d'
    /\ match e with ErrPoisonJob => settles d d' t | _ => live d' ≡ₚ live d end;
  law_release n d x t delay d' e : d_ok n d -> n + 1 < two63 -> IsZero t = false -> issued d (lease t) ->
    d_ReleaseCtx d x t delay = (d', e) ->
    d_ok (n + 1) d' /\ leases_kept leased issued d d' /\ live d' ≡ₚ live d;
  law_other n d o : d_ok n d -> n + 1 < two63 ->
    d_ok (n + 1) (d_other d o) /\ leases_kept leased issued d (d_other d o)
    /\ live d ++ came d o ≡ₚ live (d_other d o) ++ gone d o
}.
End laws.

(** ** Every job has one outcome *)

Section outcomes.
Context {D Item J DEnv Op : Type} {RD : ReservationDriver D Item J DEnv Op} {WJ : WorkerJob J} {K T : Type}.
Context {LD : LeasingDriver (RD := RD) K T}.
#[local] Notation Pump := (Pump (Item := Item) (J := J)).
#[local] Notation Worker := (Worker (Item := Item) (J := J)).
#[local] Notation Event := (Event (Item := Item) (J := J)).
#[local] Notation System := (System (D := D) (Item := Item) (J := J)).
#[local] Notation Action := (Action (DEnv := DEnv) (Op := Op)).
#[local] Notation Env := (Env (DEnv := DEnv)).
Implicit Types (d : D) (x : Env) (w : Worker) (st : Pump) (ev : Event) (s : System) (a : Action).

(** The jobs reported, by the events of the workers and by the pumps about to report. *)
Definition event_outcome ev : list K :=
  match ev with JobProcessed it _ | JobSkipped it | JobFailed it _ _ => [key it] | _ => [] end.
Definition pump_outcome st : list K := match st with Reporting it _ _ _ => [key it] | _ => [] end.
Definition reported_by (evs : list Event) : list K := concat (event_outcome <$> evs).
Definition worker_outcomes w : list K := concat (pump_outcome <$> pumps w).
Definition outcomes s : list K := reported_by (events s) ++ concat (worker_outcomes <$> workers s).

(** The jobs an action moves to the failed store because they cannot be rebuilt. *)
Definition quarantined s (a : Action) : list K :=
  match a with
  | AStep wi p x =>
      match workers s !! wi with
      | Some w => match pumps w !! p with
                  | Some (Rebuilding it t) =>
                      match d_rebuild (e_driver x) it with
                      | None => match d_quarantine (driver s) (e_driver x) (queueName (cfg w)) t it with
                                | (_, ErrPoisonJob) => [key it]
                                | _ => []
                                end
                      | Some _ => []
                      end
                  | _ => []
                  end
      | None => []
      end
  | _ => []
  end.

(** What comes in and what is dropped over a history. *)
Fixpoint admitted s (acts : list Action) : list K :=
  match acts with
  | [] => []
  | a :: acts => match a with AOther o => came (driver s) o | _ => [] end ++ admitted (step s a) acts
  end.
Fixpoint dropped s (acts : list Action) : list K :=
  match acts with
  | [] => []
  | a :: acts => match a with AOther o => gone (driver s) o | _ => quarantined s a end ++ dropped (step s a) acts
  end.

(** The lease a pump works under. *)
Definition hand st : option (Item * ReservationToken) :=
  match st with
  | Rebuilding it t | Handling it _ t _ | Acking it _ t _ _ | Retrying it _ t _ _ _ _ _ | Failing it _ t _ _ _ => Some (it, t)
  | _ => None
  end.

Definition hand_ok d st : Prop :=
  match hand st with
  | None => True
  | Some (it, t) => IsZero t = false /\ issued d (lease t)
                    /\ (leased d (lease t) = Some (key it) \/ leased d (lease t) = None)
  end.

Lemma hand_kept d d' st : leases_kept leased issued d d' -> hand_ok d st -> hand_ok d' st.
Proof.
  unfold hand_ok. destruct (hand st) as [[it t]|]; [|done]. intros Hk (Hz & Hi & Hl).
  destruct (Hk _ Hi) as [Hi' [He|He]]; split_and!; try done; rewrite He; auto.
Qed.

Lemma kept_refl d : leases_kept leased issued d d.
Proof. intros x Hx. auto. Qed.

(** What one step of a pump does to the jobs. *)
Record pump_effect (n : Z) (d : D) st (lost : list K) (r : D * Worker * Pump * list Event) : Prop := mkEffect {
  pe_ok : d_ok (n + 1) r.1.1.1;
  pe_kept : leases_kept leased issued d r.1.1.1;
  pe_hand : hand_ok r.1.1.1 r.1.2;
  pe_live : live d ++ pump_outcome st ≡ₚ live r.1.1.1 ++ pump_outcome r.1.2 ++ reported_by r.2 ++ lost
}.

Lemma reported_nil : reported_by [] = [].
Proof. done. Qed.

Lemma report_keys x it j b o : reported_by (report x it j b o) = [key it].
Proof.
  unfold reported_by, report. destruct o; destruct b; cbn; repeat case_match; done.
Qed.

Lemma settles_key d d' t it :
  leased d (lease t) = Some (key it) \/ leased d (lease t) = None -> settles d d' t -> live d ≡ₚ key it :: live d'.
Proof. intros Hl (k & Hk & Hp). destruct Hl as [Hl|Hl]; [|congruence]. assert (k = key it) as -> by congruence. done. Qed.

(** The law of [d_ok] for a step that leaves the driver alone. *)
Class StableDriver : Prop := d_ok_more n d : d_ok n d -> d_ok (n + 1) d.
Context {SD : StableDriver}.

Lemma quiet_effect n d w st st' evs :
  d_ok n d -> hand_ok d st' -> pump_outcome st = [] -> pump_outcome st' = [] -> reported_by evs = [] ->
  pump_effect n d st [] (d, w, st', evs).
Proof.
  intros Hok Hh H1 H2 H3. split; cbn [fst snd]; [by apply d_ok_more|apply kept_refl|done|].
  by rewrite H1, H2, H3.
Qed.

Lemma failure_hand d it j t b err w :
  hand_ok d (Handling it j t b) -> hand_ok d (handleJobFailure it j t b err w).2
  /\ pump_outcome (handleJobFailure it j t b err w).2 = [].
Proof.
  intros H. unfold handleJobFailure. destruct (attemptNumber _ _ _) as [w' a]. by repeat case_match.
Qed.

Lemma begin_hand x d it j t w :
  hand_ok d (Rebuilding it t) -> let '(_, st, evs) := begin_job x it j t w in
  hand_ok d st /\ pump_outcome st = [] /\ reported_by evs = [].
Proof.
  intros H. unfold begin_job. destruct (batchIDOf j) as [|id|err].
  - done.
  - by destruct (e_batchFound x && e_batchCancelled x).
  - by destruct (attemptNumber _ _ _).
Qed.

Lemma ack_effect n x d w it j t b skip :
  d_ok n d -> n + 1 < two63 -> hand_ok d (Acking it j t b skip) ->
  pump_effect n d (Acking it j t b skip) [] (pump_step x d w (Acking it j t b skip)).
Proof.
  intros Hok Hn (Hz & Hi & Hl). cbn [pump_step]. unfold ackReservation. rewrite Hz.
  destruct (d_AckCtx d (e_driver x) t) as [d' [e|]] eqn:Ea;
    destruct (law_ack n d _ t d' _ Hok Hn Hz Hi Ea) as (Ho & Hk & Hs).
  - split; cbn [fst snd]; [done..|]. by rewrite Hs.
  - split; cbn [fst snd]; [done..|]. apply (settles_key _ _ _ it) in Hs; [|done]. rewrite Hs. solve_Permutation.
Qed.

Lemma fail_effect n x d w it j t b err k :
  d_ok n d -> n + 1 < two63 -> hand_ok d (Failing it j t b err k) ->
  pump_effect n d (Failing it j t b err k) [] (pump_step x d w (Failing it j t b err k)).
Proof.
  intros Hok Hn (Hz & Hi & Hl). cbn [pump_step]. unfold fail_job. rewrite Hz.
  destruct (d_FailReservedCtx _ _ _ _ _ _) as [d' [e|]] eqn:Ea;
    destruct (law_fail n d _ t _ _ _ d' _ Hok Hn Hz Hi Ea) as (Ho & Hk & Hs).
  - split; cbn [fst snd]; [done..|]. by rewrite Hs.
  - split; cbn [fst snd]; [done..|]. apply (settles_key _ _ _ it) in Hs; [|done]. rewrite Hs. solve_Permutation.
Qed.

Lemma retry_effect n x d w it j t b err c m k :
  d_ok n d -> n + 1 < two63 -> hand_ok d (Retrying it j t b err c m k) ->
  pump_effect n d (Retrying it j t b err c m k) [] (pump_step x d w (Retrying it j t b err c m k)).
Proof.
  intros Hok Hn Hh. pose proof Hh as (Hz & Hi & Hl). cbn [pump_step]. unfold retry_job. rewrite Hz.
  destruct (d_ReleaseCtx _ _ _ _) as [d' e] eqn:Er.
  destruct (law_release n d _ t _ d' e Hok Hn Hz Hi Er) as (Ho & Hk & Hs).
  destruct e as [[]|]; split; cbn [fst snd]; try done; try (by rewrite Hs); by apply (hand_kept d).
Qed.

Lemma poll_effect n x d w :
  d_ok n d -> n + 1 < two63 -> pump_effect n d Polling [] (pump_step x d w Polling).
Proof.
  intros Hok Hn. cbn [pump_step]. destruct (stopping w); [by apply quiet_effect|].
  destruct (d_reserve _ _ _) as [d' r] eqn:Er. destruct (law_reserve n d _ _ d' r Hok Hn Er) as (Ho & Hp & Hk & Hr).
  destruct r as [[[it t]|]|]; (split; cbn [fst snd]; [done..| |by rewrite Hp]); [|done..].
  destruct Hr as (Hz & _ & Hi & Hl). split_and!; auto.
Qed.

Lemma rebuild_effect n x d w it t :
  d_ok n d -> n + 1 < two63 -> hand_ok d (Rebuilding it t) ->
  pump_effect n d (Rebuilding it t)
    (match d_rebuild (e_driver x) it with
     | None => match d_quarantine d (e_driver x) (queueName (cfg w)) t it with
               | (_, ErrPoisonJob) => [key it] | _ => [] end
     | Some _ => []
     end) (pump_step x d w (Rebuilding it t)).
Proof.
  intros Hok Hn Hh. pose proof Hh as (Hz & Hi & Hl). cbn [pump_step].
  destruct (d_rebuild (e_driver x) it) as [j|].
  - pose proof (begin_hand x d it j t w Hh) as Hb. destruct (begin_job x it j t w) as [[w' st] evs].
    destruct Hb as (H1 & H2 & H3). by apply quiet_effect.
  - destruct (d_quarantine _ _ _ _ _) as [d' e] eqn:Eq.
    destruct (law_quarantine n d _ _ t it d' e Hok Hn Hz Hi Eq) as (Ho & Hk & Hs).
    destruct e; (split; cbn [fst snd]; [done..|]); cbn [pump_outcome]; rewrite reported_nil; try (by rewrite Hs).
    apply (settles_key _ _ _ it) in Hs; [|done]. rewrite Hs. solve_Permutation.
Qed.

Lemma pump_step_effect n x d w st :
  d_ok n d -> n + 1 < two63 -> hand_ok d st ->
  pump_effect n d st
    (match st with
     | Rebuilding it t => match d_rebuild (e_driver x) it with
       | None => match d_quarantine d (e_driver x) (queueName (cfg w)) t it with
                 | (_, ErrPoisonJob) => [key it] | _ => [] end
       | Some _ => []
       end
     | _ => []
     end) (pump_step x d w st).
Proof.
  intros Hok Hn Hh. destruct st.
  - by apply poll_effect.
  - by apply rebuild_effect.
  - cbn [pump_step]. pose proof (failure_hand d it j t batch) as Hf.
    destruct (e_result x) as [[err|]|]; [destruct (stopping w)| |destruct (stopping w)];
      try (by apply quiet_effect);
      match goal with |- context [handleJobFailure _ _ _ _ ?e w] =>
        destruct (Hf e w Hh) as [H1 H2]; destruct (handleJobFailure it j t batch e w); by apply quiet_effect end.
  - by apply ack_effect.
  - by apply retry_effect.
  - by apply fail_effect.
  - cbn [pump_step]. split; cbn [fst snd]; [by apply d_ok_more|apply kept_refl|done|].
    rewrite report_keys. cbn [pump_outcome]. solve_Permutation.
  - by apply quiet_effect.
Qed.

Lemma attempt_pumps k t w : pumps (attemptNumber k t w).1 = pumps w.
Proof. unfold attemptNumber. destruct (negb _ && _); [done|]. by destruct k. Qed.

Lemma failure_pumps it j t b err w : pumps (handleJobFailure it j t b err w).1 = pumps w.
Proof.
  unfold handleJobFailure. pose proof (attempt_pumps (attemptKey j t) t w) as Ha.
  destruct (attemptNumber (attemptKey j t) t w) as [w' c].
  destruct (match ShouldRetry j with Some f => negb (f err) | None => false end); [done|].
  by destruct (c <? _).
Qed.

(** A step of a pump touches its worker's cache only. *)
Lemma pump_step_pumps x d w st : pumps (pump_step x d w st).1.1.2 = pumps w.
Proof.
  assert (Hr : forall k, pumps (removeAttempts k w) = pumps w) by (by intros []).
  destruct st as [|it t|it j t b|it j t b sk|it j t b err c m k|it j t b err k| |]; cbn [pump_step]; try done.
  - destruct (stopping w); [done|]. by destruct (d_reserve _ _ _) as [d' [[[it t]|]|]].
  - destruct (d_rebuild _ it) as [j|]; [|by destruct (d_quarantine _ _ _ _ _)]. unfold begin_job.
    destruct (batchIDOf j) as [|id|err]; [done|by destruct (_ && _)|].
    pose proof (attempt_pumps (attemptKey j t) t w). by destruct (attemptNumber (attemptKey j t) t w).
  - destruct (e_result x) as [[err|]|]; [destruct (stopping w)| |destruct (stopping w)]; try done;
      match goal with |- context [handleJobFailure _ _ _ _ ?e w] =>
        pose proof (failure_pumps it j t b e w); by destruct (handleJobFailure it j t b e w) end.
  - destruct (ackReservation x d t) as [d' []]; cbn [fst snd]; (destruct sk; [done|apply Hr]).
  - by destruct (retry_job _ _ _ _ _ _ _ _ _ _ _) as [[d' st] evs].
  - unfold fail_job. destruct (IsZero t); [destruct (d_FailedCtx _ _ _ _ _); exact (Hr k)|].
    destruct (d_FailReservedCtx _ _ _ _ _ _) as [d' [e|]]; exact (Hr k).
Qed.

Record system_ok (n : Z) s : Prop := mkSystemOk {
  so_driver : d_ok n (driver s);
  so_hands : forall wi w p st, workers s !! wi = Some w -> pumps w !! p = Some st -> hand_ok (driver s) st
}.

(** Workers that have not taken a job. *)
Definition idle w : Prop := Forall (fun st => st = Polling) (pumps w).

Lemma idle_ok n d ws : d_ok n d -> Forall idle ws -> system_ok n (mkSystem d ws []).
Proof.
  intros Hd Hws. split; [done|]. cbn [workers driver]. intros wi w p st Hw Hp.
  pose proof (Forall_lookup_1 _ _ _ _ Hws Hw) as Hi. by rewrite (Forall_lookup_1 _ _ _ _ Hi Hp).
Qed.

Lemma idle_outcomes d ws : Forall idle ws -> outcomes (mkSystem d ws []) = [].
Proof.
  intros Hws. unfold outcomes. cbn. induction Hws as [|w ws Hw _ IH]; [done|]. cbn. rewrite IH, app_nil_r.
  unfold worker_outcomes. by induction Hw as [|st sts -> _ IHw].
Qed.

Definition arrives s a : list K := match a with AOther o => came (driver s) o | _ => [] end.
Definition leaves s a : list K := match a with AOther o => gone (driver s) o | _ => quarantined s a end.

Lemma pump_outcomes s wi w p st w' st' :
  workers s !! wi = Some w -> pumps w !! p = Some st -> pumps w' = pumps w ->
  exists rest, concat (worker_outcomes <$> workers s) ≡ₚ pump_outcome st ++ rest
    /\ concat (worker_outcomes <$> <[wi := with_pump p st' w']> (workers s)) ≡ₚ pump_outcome st' ++ rest.
Proof.
  intros Hw Hp He. destruct (concat_insert worker_outcomes _ _ _ Hw) as (r1 & H1 & H2).
  destruct (concat_insert pump_outcome _ _ _ Hp) as (r2 & H3 & H4). exists (r2 ++ r1). split.
  - rewrite H1. unfold worker_outcomes. rewrite H3. solve_Permutation.
  - rewrite H2. unfold worker_outcomes, with_pump. cbn [pumps]. rewrite He, H4. solve_Permutation.
Qed.

Lemma step_effect n s a :
  system_ok n s -> n + 1 < two63 ->
  system_ok (n + 1) (step s a) /\ leases_kept leased issued (driver s) (driver (step s a))
  /\ (live (driver s) ++ outcomes s) ++ arrives s a
     ≡ₚ (live (driver (step s a)) ++ outcomes (step s a)) ++ leaves s a.
Proof.
  intros [Hok Hh] Hn.
  assert (Hidle : system_ok (n + 1) s) by (split; [by apply d_ok_more|done]).
  pose proof (kept_refl (driver s)) as Hsame.
  destruct a as [wi p x|wi|o]; cbn [step arrives leaves quarantined].
  - destruct (workers s !! wi) as [w|] eqn:Hw; [|done]. destruct (pumps w !! p) as [st|] eqn:Hp.
    2: { by rewrite !app_nil_r. }
    pose proof (pump_step_effect n x (driver s) w st Hok Hn (Hh _ _ _ _ Hw Hp)) as He.
    pose proof (pump_step_pumps x (driver s) w st) as Hpp.
    destruct (pump_step x (driver s) w st) as [[[d w'] st'] evs]. cbn [fst snd] in Hpp.
    destruct He as [Ho Hk Hst Hl]. cbn [fst snd] in *.
    destruct (pump_outcomes s wi w p st w' st' Hw Hp Hpp) as (rest & Hr1 & Hr2). split; [split|split]; cbn [driver workers].
    + done.
    + intros wi2 w2 p2 st2 Hw2 Hp2. destruct (decide (wi = wi2)) as [<-|Hne].
      * rewrite list_lookup_insert_eq in Hw2 by (by eapply lookup_lt_Some). injection Hw2 as <-.
        cbn [pumps with_pump] in Hp2. rewrite Hpp in Hp2. destruct (decide (p = p2)) as [<-|Hnp].
        -- rewrite list_lookup_insert_eq in Hp2 by (by eapply lookup_lt_Some). by injection Hp2 as <-.
        -- rewrite list_lookup_insert_ne in Hp2 by done. eapply hand_kept; [exact Hk|]. by eapply Hh.
      * rewrite list_lookup_insert_ne in Hw2 by done. eapply hand_kept; [exact Hk|]. by eapply Hh.
    + done.
    + unfold outcomes. cbn [events workers driver]. rewrite Hr1, Hr2. unfold reported_by. rewrite fmap_app, concat_app.
      fold (reported_by (events s)). fold (reported_by evs).
      transitivity (((live (driver s) ++ pump_outcome st) ++ reported_by (events s)) ++ rest); [solve_Permutation|].
      rewrite Hl. destruct st; solve_Permutation.
  - rewrite !app_nil_r. split; [split; cbn; [by apply d_ok_more|]|split; [done|]].
    + intros wi2 w2 p2 st2 Hw2 Hp2. destruct (decide (wi = wi2)) as [<-|Hne].
      * rewrite list_lookup_alter_eq in Hw2. destruct (workers s !! wi) as [w|] eqn:Hw; [|done].
        injection Hw2 as <-. by eapply Hh.
      * rewrite list_lookup_alter_ne in Hw2 by done. by eapply Hh.
    + apply reflexive_eq. unfold outcomes. cbn [driver events workers]. do 2 f_equal. f_equal. apply list_eq. intros k.
      rewrite !list_lookup_fmap. destruct (decide (wi = k)) as [<-|Hne].
      * rewrite list_lookup_alter_eq. by destruct (workers s !! wi).
      * by rewrite list_lookup_alter_ne.
  - destruct (law_other n (driver s) o Hok Hn) as (Ho & Hk & Hl). split; [split; cbn; [done|]|split; [done|]].
    + intros wi2 w2 p2 st2 Hw2 Hp2. eapply hand_kept; [exact Hk|]. by eapply Hh.
    + unfold outcomes. cbn [driver events workers].
      transitivity ((live (driver s) ++ came (driver s) o) ++ (reported_by (events s) ++ concat (worker_outcomes <$> workers s)));
        [solve_Permutation|]. rewrite Hl. solve_Permutation.
Qed.

(** Every job has exactly one outcome.  For any number of workers with any
    number of pumps over one leasing driver, through any interleaving of their
    steps (leases that expire and are reclaimed, handlers that fail, time out
    or are aborted by a shutdown, a driver that refuses calls, pushes and
    clears by others), the jobs that came in are exactly those the driver
    still has, those reported once as processed, skipped or failed, and those
    cleared or quarantined: no outcome is reported twice and no job vanishes
    without one. *)
Lemma every_job_has_one_outcome n s acts :
  system_ok n s -> n + Z.of_nat (List.length acts) < two63 ->
  live (driver s) ++ outcomes s ++ admitted s acts
  ≡ₚ live (driver (run s acts)) ++ outcomes (run s acts) ++ dropped s acts.
Proof.
  revert n s. induction acts as [|a acts IH]; intros n s Hok Hn; cbn [run fold_left admitted dropped]; [done|].
  cbn [List.length] in Hn. rewrite Nat2Z.inj_succ in Hn.
  destruct (step_effect n s a Hok ltac:(lia)) as (Hok' & _ & Hp). specialize (IH (n + 1) (step s a) Hok' ltac:(lia)).
  change (fold_left step acts (step s a)) with (run (step s a) acts).
  transitivity (((live (driver s) ++ outcomes s) ++ arrives s a) ++ admitted (step s a) acts); [solve_Permutation|].
  rewrite Hp. transitivity ((live (driver (step s a)) ++ outcomes (step s a) ++ admitted (step s a) acts) ++ leaves s a);
    [solve_Permutation|]. rewrite IH. unfold leaves. solve_Permutation.
Qed.

End outcomes.

(** ** The in-memory driver keeps the contract *)

Section memory.
Context `{JB : Jobs}.
Implicit Types m : MemoryDriver.

Record MemoryEnv := mkMemoryEnv { me_cancelled : bool; me_now : Z; me_cause : string }.

#[export] Instance memory_driver : ReservationDriver MemoryDriver jobWrapper Job MemoryEnv qop := {|
  d_reserve m x q := if me_cancelled x then (m, Err ErrContextDone)
                     else let '(m, r) := reserveNext m q in (m, Ok r);
  d_rebuild _ w := getJobFromWrapper w;
  d_quarantine m x q t w := quarantine m q t w (me_cause x) (me_now x);
  d_AckCtx m x t := AckCtx m t (me_cancelled x);
  d_ReleaseCtx m x t delay := ReleaseCtx m t (me_cancelled x) delay (me_now x);
  d_FailReservedCtx m x t j err q := FailReservedCtx m t (me_cancelled x) j err q (me_now x);
  d_PushDelayedCtx m x j delay q := PushDelayedCtx m (me_cancelled x) (Some j) delay (me_now x) (Some q);
  d_FailedCtx m x j err q := FailedCtx m j err q (me_now x);
  d_other m o := (qstep m o).1.1
|}.

Definition mem_leased m (id : Z) : option jobWrapper := (fun r => strip (r_wrapper r)) <$> reservations m !! id.
Definition mem_issued m (id : Z) : Prop := 0 < id <= nextReservationID m.
Definition mem_ok (n : Z) m : Prop := driver_ok m /\ nextReservationID m <= n.

Lemma qstep_leases m o id :
  driver_ok m -> nextReservationID m + 1 < two63 -> mem_issued m id ->
  nextReservationID m <= nextReservationID (qstep m o).1.1
  /\ (reservations (qstep m o).1.1 !! id = reservations m !! id \/ reservations (qstep m o).1.1 !! id = None).
Proof.
  intros Hok Hn Hid.
  assert (Hdel : forall i, delete i (reservations m) !! id = reservations m !! id \/ delete i (reservations m) !! id = None).
  { intros i. rewrite lookup_delete. case_decide; auto. }
  destruct o; cbn [qstep fst].
  - unfold PushCtx. repeat case_match; simplify_eq/=; try (split; [lia|auto]).
  - unfold PushDelayedCtx. repeat case_match; simplify_eq/=; try (split; [lia|auto]).
  - unfold PushIfNotExistsCtx, PushCtx. repeat case_match; simplify_eq/=; try (split; [lia|auto]).
  - unfold popWrapper. repeat case_match; simplify_eq/=; try (split; [lia|auto]).
  - unfold reserveNext. pose proof Hok as [_ _ H0]. repeat case_match; simplify_eq/=; try (split; [lia|auto]).
    rewrite wrap64_small by auto with go. split; [lia|left]. apply lookup_insert_ne. unfold mem_issued in Hid. lia.
  - unfold quarantine. repeat case_match; simplify_eq/=; try (split; [lia|auto]).
  - unfold AckCtx. repeat case_match; simplify_eq/=; try (split; [lia|auto]).
  - unfold ReleaseCtx. repeat case_match; simplify_eq/=; try (split; [lia|auto]).
  - unfold FailReservedCtx, FailedCtx. repeat case_match; simplify_eq/=; try (split; [lia|auto]).
  - unfold FailedCtx. repeat case_match; simplify_eq/=; try (split; [lia|auto]).
  - cbn [Clear nextReservationID reservations]. split; [lia|]. rewrite map_lookup_filter.
    destruct (reservations m !! id); cbn; [|auto]. case_guard; auto.
  - assert (Hr : forall names m0, reservations (moveReadyJobs m0 now names) = reservations m0
      /\ nextReservationID (moveReadyJobs m0 now names) = nextReservationID m0).
    { clear. intros names. unfold moveReadyJobs. induction names as [|q names IH]; intros m0; [done|]. cbn [foldl].
      destruct (IH (move_queue now m0 q)) as [-> ->]. unfold move_queue. repeat case_match; done. }
    destruct (Hr names m) as [-> ->]. split; [lia|auto].
  - split; [cbn; lia|auto].
Qed.

(** A step of the driver, as the laws put it. *)
Lemma qstep_law n m o :
  mem_ok n m -> n + 1 < two63 ->
  mem_ok (n + 1) (qstep m o).1.1 /\ leases_kept mem_leased mem_issued m (qstep m o).1.1
  /\ QueueSpec.live (qstep m o).1.1 ++ (strip <$> (qstep m o).2) ≡ₚ QueueSpec.live m ++ (strip <$> (qstep m o).1.2).
Proof.
  intros [Hok Hle] Hn. destruct (qstep_ok m o Hok ltac:(lia)) as [Hok' Hnx]. split_and!.
  - split; [done|lia].
  - intros id Hid. destruct (qstep_leases m o id Hok ltac:(lia) Hid) as [Hmono Hr].
    unfold mem_issued, mem_leased in *. split; [lia|]. destruct Hr as [-> | ->]; auto.
  - apply qstep_live; [done|lia].
Qed.

Lemma live_same m m' (l : list jobWrapper) : l = [] -> QueueSpec.live m' ++ (strip <$> l) ≡ₚ QueueSpec.live m ++ [] ->
  QueueSpec.live m' ≡ₚ QueueSpec.live m.
Proof. intros ->. by rewrite !app_nil_r. Qed.

Lemma live_one m m' r id :
  reservations m !! id = Some r -> QueueSpec.live m' ++ (strip <$> [r_wrapper r]) ≡ₚ QueueSpec.live m ++ [] ->
  exists k, mem_leased m id = Some k /\ QueueSpec.live m ≡ₚ k :: QueueSpec.live m'.
Proof.
  intros Hr Hl. exists (strip (r_wrapper r)). unfold mem_leased. rewrite Hr. split; [done|].
  rewrite app_nil_r in Hl. rewrite <- Hl. cbn. solve_Permutation.
Qed.

Lemma memory_reserve n m x q m' r :
  mem_ok n m -> n + 1 < two63 -> d_reserve m x q = (m', r) ->
  mem_ok (n + 1) m' /\ QueueSpec.live m' ≡ₚ QueueSpec.live m /\ leases_kept mem_leased mem_issued m m' /\
  match r with
  | Ok (Some (w, t)) => IsZero t = false /\ ~ mem_issued m (t_ID t) /\ mem_issued m' (t_ID t)
                        /\ mem_leased m' (t_ID t) = Some (strip w)
  | _ => True
  end.
Proof.
  intros Hok Hn. destruct (qstep_law n m (QReserve q) Hok Hn) as (H1 & H2 & H3). cbn [qstep fst snd] in *.
  apply live_same in H3; [|done]. cbn [d_reserve memory_driver]. destruct (me_cancelled x).
  { intros [= <- <-]. destruct Hok as [Hd Hle]. split_and!; [split; [done|lia]|done|intros id Hid; auto|done]. }
  destruct Hok as [[_ _ H0] Hle].
  destruct (reserveNext m q) as [m1 r1] eqn:Er. cbn [fst] in *. intros [= <- <-].
  split_and!; [done..|]. destruct r1 as [[w t]|]; [|done].
  unfold reserveNext in Er. destruct (queues m !! q) as [[|w0 ws]|]; [done| |done].
  injection Er as <- <- <-. rewrite wrap64_small by auto with go.
  unfold IsZero, mem_issued, mem_leased. cbn [t_ID nextReservationID reservations]. rewrite lookup_insert_eq.
  split_and!; [apply Z.eqb_neq| | |done|done]; lia.
Qed.

Lemma memory_ack n m x t m' e :
  mem_ok n m -> n + 1 < two63 -> IsZero t = false -> mem_issued m (t_ID t) -> d_AckCtx m x t = (m', e) ->
  mem_ok (n + 1) m' /\ leases_kept mem_leased mem_issued m m'
  /\ match e with
     | None => exists k, mem_leased m (t_ID t) = Some k /\ QueueSpec.live m ≡ₚ k :: QueueSpec.live m'
     | Some _ => QueueSpec.live m' ≡ₚ QueueSpec.live m
     end.
Proof.
  intros Hok Hn Hz _ Ha. cbn [d_AckCtx memory_driver] in Ha.
  destruct (qstep_law n m (QAck t (me_cancelled x)) Hok Hn) as (H1 & H2 & H3). cbn [qstep fst snd] in *.
  rewrite Ha in *. cbn [fst] in *. split_and!; [done..|]. unfold settled in H3. unfold AckCtx in Ha.
  rewrite Hz in *. destruct (me_cancelled x); [simplify_eq; by apply live_same in H3|]. cbn [orb] in *.
  destruct (reservations m !! t_ID t) as [r|] eqn:Hr; simplify_eq; [|by apply live_same in H3].
  by eapply live_one.
Qed.

Lemma memory_fail n m x t j err q m' e :
  mem_ok n m -> n + 1 < two63 -> IsZero t = false -> mem_issued m (t_ID t) ->
  d_FailReservedCtx m x t j err q = (m', e) ->
  mem_ok (n + 1) m' /\ leases_kept mem_leased mem_issued m m'
  /\ match e with
     | None => exists k, mem_leased m (t_ID t) = Some k /\ QueueSpec.live m ≡ₚ k :: QueueSpec.live m'
     | Some _ => QueueSpec.live m' ≡ₚ QueueSpec.live m
     end.
Proof.
  intros Hok Hn Hz _ Ha. cbn [d_FailReservedCtx memory_driver] in Ha.
  destruct (qstep_law n m (QFail t (me_cancelled x) j err q (me_now x)) Hok Hn) as (H1 & H2 & H3). cbn [qstep fst snd] in *.
  rewrite Ha in *. cbn [fst] in *. split_and!; [done..|]. unfold settled in H3. unfold FailReservedCtx in Ha.
  rewrite Hz in *. destruct (me_cancelled x); [simplify_eq; by apply live_same in H3|]. cbn [orb] in *.
  destruct (reservations m !! t_ID t) as [r|] eqn:Hr; simplify_eq; [|by apply live_same in H3].
  by eapply live_one.
Qed.

Lemma memory_quarantine n m x q t w m' e :
  mem_ok n m -> n + 1 < two63 -> IsZero t = false -> mem_issued m (t_ID t) -> d_quarantine m x q t w = (m', e) ->
  mem_ok (n + 1) m' /\ leases_kept mem_leased mem_issued m m'
  /\ match e with
     | ErrPoisonJob => exists k, mem_leased m (t_ID t) = Some k /\ QueueSpec.live m ≡ₚ k :: QueueSpec.live m'
     | _ => QueueSpec.live m' ≡ₚ QueueSpec.live m
     end.
Proof.
  intros Hok Hn Hz _ Ha. cbn [d_quarantine memory_driver] in Ha.
  destruct (qstep_law n m (QQuarantine q t w (me_cause x) (me_now x)) Hok Hn) as (H1 & H2 & H3). cbn [qstep fst snd] in *.
  rewrite Ha in *. cbn [fst] in *. split_and!; [done..|]. unfold settled in H3. unfold quarantine in Ha.
  rewrite Hz in *. cbn [orb] in *.
  destruct (reservations m !! t_ID t) as [r|] eqn:Hr; simplify_eq; [|by apply live_same in H3].
  by eapply live_one.
Qed.

Lemma memory_release n m x t delay m' e :
  mem_ok n m -> n + 1 < two63 -> IsZero t = false -> mem_issued m (t_ID t) -> d_ReleaseCtx m x t delay = (m', e) ->
  mem_ok (n + 1) m' /\ leases_kept mem_leased mem_issued m m' /\ QueueSpec.live m' ≡ₚ QueueSpec.live m.
Proof.
  intros Hok Hn _ _ Ha. cbn [d_ReleaseCtx memory_driver] in Ha.
  destruct (qstep_law n m (QRelease t (me_cancelled x) delay (me_now x)) Hok Hn) as (H1 & H2 & H3). cbn [qstep fst snd] in *.
  rewrite Ha in *. apply live_same in H3; [|done]. done.
Qed.

Lemma memory_other n m o :
  mem_ok n m -> n + 1 < two63 ->
  mem_ok (n + 1) (d_other m o) /\ leases_kept mem_leased mem_issued m (d_other m o)
  /\ QueueSpec.live m ++ (strip <$> (qstep m o).1.2) ≡ₚ QueueSpec.live (d_other m o) ++ (strip <$> (qstep m o).2).
Proof. intros Hok Hn. destruct (qstep_law n m o Hok Hn) as (H1 & H2 & H3). by split_and!. Qed.

#[export] Instance memory_leases : LeasingDriver (RD := memory_driver) jobWrapper Z := {|
  key := strip;
  lease := t_ID;
  live := QueueSpec.live;
  leased := mem_leased;
  issued := mem_issued;
  d_ok := mem_ok;
  came m o := strip <$> (qstep m o).1.2;
  gone m o := strip <$> (qstep m o).2;
  law_reserve := memory_reserve;
  law_ack := memory_ack;
  law_fail := memory_fail;
  law_quarantine := memory_quarantine;
  law_release := memory_release;
  law_other := memory_other
|}.

#[export] Instance memory_stable : StableDriver (LD := memory_leases).
Proof. intros n m [H1 H2]. split; [done|lia]. Qed.

(** over the in-memory driver every job has exactly one outcome.  For any
    workers with any number of pumps over a new driver, through any
    interleaving of fewer than 2^63 steps of theirs (handlers that fail, time
    out or are aborted by a shutdown, refused calls) and of other callers'
    operations on the driver, the jobs that came in are exactly those still
    queued, delayed or leased, those reported once as processed, skipped or
    failed, and those cleared, taken or quarantined. *)
Theorem memory_jobs_have_one_outcome `{WJ : !WorkerJob Job} ws acts :
  Forall idle ws -> Z.of_nat (List.length acts) < two63 ->
  let s := mkSystem NewMemoryDriver ws [] in
  admitted s acts ≡ₚ QueueSpec.live (driver (run s acts)) ++ outcomes (run s acts) ++ dropped s acts.
Proof.
  intros Hws Hn s. assert (Hok : system_ok 0 s) by (apply idle_ok; [split; [apply driver_ok_new|done]|done]).
  pose proof (every_job_has_one_outcome 0 s acts Hok Hn) as Hp. unfold s in Hp at 1 2.
  rewrite idle_outcomes in Hp by done. exact Hp.
Qed.

End memory.

(** ** Examples *)

#[export] Instance number_worker : WorkerJob nat := {|
  MaxAttempts _ := None; ShouldRetry _ := None; Backoff _ := None; batchIDOf _ := NotBatched; jobKey _ := "job" |}.

Definition sample_config : Config := mkConfig "default" 2 (fun attempt => attempt * SECOND).
Definition memory_env (now : Z) (r : HandlerResult) : Env :=
  mkEnv (mkMemoryEnv false now "") r false false.
Definition ok_env (now : Z) : Env := memory_env now (Returned None).

(** A job that fails twice, with two attempts; another that succeeds; a third
    whose worker is stopped while it runs. *)
Definition sample_workers : list (Worker (Item := @jobWrapper number_jobs) (J := nat)) :=
  [mkWorker sample_config ∅ false [Polling]; mkWorker sample_config ∅ false [Polling]].
Definition sample_acts : list (Action (DEnv := MemoryEnv) (Op := @qop number_jobs)) :=
  let fails now := AStep 0 0 (memory_env now (Returned (Some "boom"))) in
  let ok wi now := AStep wi 0 (ok_env now) in
  [AOther (QPush false (Some 7%nat) None);
   ok 0%nat 1; ok 0%nat 1; fails 1; fails 1;                   (* reserved, run, failed, released *)
   AOther (QMove (2 * SECOND) ["default"]);
   ok 0%nat 2; ok 0%nat 2; fails 2; fails 2; ok 0%nat 2;       (* reserved, run, failed for good, reported *)
   AOther (QPush false (Some 8%nat) None);
   ok 1%nat 3; ok 1%nat 3; ok 1%nat 3; ok 1%nat 3; ok 1%nat 3; (* reserved, run, acknowledged, reported *)
   AOther (QPush false (Some 9%nat) None);
   ok 1%nat 4; ok 1%nat 4; AStop 1; AStep 1 0 (memory_env 4 TimedOut)].

Definition sample_system : System := mkSystem (@NewMemoryDriver number_jobs) sample_workers [].

Definition job_number (w : @jobWrapper number_jobs) : option nat := w_Job w.

Example sample_outcome :
  job_number <$> outcomes (run sample_system sample_acts) = [Some 7%nat; Some 8%nat]
  /\ job_number <$> QueueSpec.live (driver (run sample_system sample_acts)) = [Some 9%nat].
Proof. vm_compute. split; reflexivity. Qed.

Lemma memory_jobs_have_one_outcome_witness :
  let s := sample_system in
  admitted s sample_acts ≡ₚ QueueSpec.live (driver (run s sample_acts)) ++ outcomes (run s sample_acts) ++ dropped s sample_acts.
Proof.
  apply (@memory_jobs_have_one_outcome number_jobs number_worker sample_workers sample_acts).
  - repeat constructor.
  - reflexivity.
Defined.

(** A job aborted by a shutdown is not taken up again: its reservation has no
    deadline, so a worker started afterwards on the same driver finds the
    queue empty, however late it looks. *)
Lemma aborted_job_is_stranded :
  let s := run sample_system sample_acts in
  forall now, (reserveNext (moveReadyJobs (driver s) now ["default"]) "default").2 = None.
Proof. intros s now. vm_compute. reflexivity. Qed.
