(* ===== verification/QueueDatabase.v ===== *)
(** * The database queue driver

    Models queue/database.go over the tables it uses: jobs, failed_jobs and
    job_dedupe.  A statement or a transaction of the driver is one step; it is
    applied as a whole or, when the database fails it ([db_fault]), not at all
    (a commit whose answer is lost is not modelled).  On PostgreSQL and MySQL a
    pop skips the rows other transactions hold locked ([db_locked]); on SQLite
    there are none.  Several processes share the tables, each with a driver of
    its own ([db_driver]).

    The payload of a row is the text QueuePayload.v describes. *)

From Stdlib Require Import Ascii String.
From S2P Require Import Prelude GoStrings QueueMemory QueuePayload QueueSpec QueueWorker.
Local Open Scope string_scope.
Local Open Scope list_scope.
Local Open Scope Z_scope.

Section database.
Context {WR : Wire}.
(** OnQueue of a job, and the bytes of a stored text. *)
Context (onQueue : WJob -> string) (raw : Text -> string).

Record JobRecord := mkRecord {
  r_Queue : string;
  r_Payload : Text;
  r_Attempts : Z;
  r_ScheduledAt : Z;
  r_ReservedAt : option Z;
  r_ReservedBy : option string;
  r_FailedAt : option Z;
  r_CreatedAt : Z;
  r_UpdatedAt : Z
}.

(** A failed payload is the text of a wrapper, or a quarantined blob. *)
Inductive FailedPayload := FailedText (t : Text) | FailedBlob (blob : string).
Record FailedJobRecord := mkFailedRecord {
  fr_Queue : string; fr_Payload : FailedPayload; fr_Exception : string; fr_CreatedAt : Z }.

Record Database := mkDatabase {
  jobs : gmap Z JobRecord;
  last_id : Z;                          (** of the auto-increment column *)
  failed_jobs : list FailedJobRecord;
  job_dedupe : gmap string string       (** dedupe_key to queue *)
}.

Record DatabaseDriver := mkDbDriver { workerID : string; retryAfterNanos : Z }.

Definition DefaultRetryAfter : Z := 90 * SECOND.
Definition NewDatabaseDriver (id : string) : DatabaseDriver := mkDbDriver id DefaultRetryAfter.
Definition SetRetryAfter (d : Z) (dr : DatabaseDriver) : DatabaseDriver :=
  mkDbDriver (workerID dr) (if d <=? 0 then DefaultRetryAfter else d).
Definition retryAfter (dr : DatabaseDriver) : Z :=
  if retryAfterNanos dr <=? 0 then DefaultRetryAfter else retryAfterNanos dr.

Record DbEnv := mkDbEnv {
  db_driver : DatabaseDriver;
  db_cancelled : bool;                  (** the caller's context has ended *)
  db_fault : bool;
  db_now : Z;
  db_locked : gset Z;
  db_protection : Protection;
  db_registry : JobRegistry;
  db_seed : Z;
  db_text : string                      (** the text of an error, or of the stub of a blob that could not be sealed *)
}.

Definition with_jobs (db : Database) (js : gmap Z JobRecord) : Database :=
  mkDatabase js (last_id db) (failed_jobs db) (job_dedupe db).
Definition add_failed_row (db : Database) (f : FailedJobRecord) : Database :=
  mkDatabase (jobs db) (last_id db) (failed_jobs db ++ [f]) (job_dedupe db).

(** INSERT INTO jobs *)
Definition insert_job (db : Database) (name : string) (payload : Text) (scheduledAt now : Z) : Database :=
  let id := last_id db + 1 in
  mkDatabase (<[id := mkRecord name payload 0 scheduledAt None None None now now]> (jobs db)) id
    (failed_jobs db) (job_dedupe db).

(** ** Pushing *)

Definition PushDelayedCtx (db : Database) (x : DbEnv) (job : option WJob) (delay : Z)
    (trace : string * string * string) (queueName : option string) : Database * option QueueError :=
  if db_cancelled x then (db, Some ErrContextDone)
  else match job with
       | None => (db, Some QueueMemory.ErrNilJob)
       | Some j =>
           let name := queue_of (onQueue j) queueName in
           match store_payload (db_protection x) (db_seed x) (db_now x) trace "" j name with
           | Err _ => (db, Some ErrMarshalJob)
           | Ok payload =>
               if db_fault x then (db, Some ErrBackend)
               else (insert_job db name payload (if 0 <? delay then db_now x + delay else db_now x) (db_now x), None)
           end
       end.

Definition PushCtx (db : Database) (x : DbEnv) (job : option WJob) (trace : string * string * string)
    (queueName : option string) : Database * option QueueError :=
  PushDelayedCtx db x job 0 trace queueName.

(** The claim of the key and the insert, in one transaction. *)
Definition claimAndInsert (db : Database) (x : DbEnv) (dedupeKey name : string) (payload : Text)
    : Database * result QueueError bool :=
  if db_fault x then (db, Err ErrBackend)
  else match job_dedupe db !! dedupeKey with
       | Some _ => (db, Ok false)
       | None =>
           let db := mkDatabase (jobs db) (last_id db) (failed_jobs db) (<[dedupeKey := name]> (job_dedupe db)) in
           (insert_job db name payload (db_now x) (db_now x), Ok true)
       end.

Definition PushIfNotExistsCtx (db : Database) (x : DbEnv) (job : option WJob) (dedupeKey : string)
    (trace : string * string * string) (queueName : option string) : Database * option QueueError :=
  if String.eqb dedupeKey "" then PushCtx db x job trace queueName
  else if db_cancelled x then (db, Some ErrContextDone)
  else match job with
       | None => (db, Some QueueMemory.ErrNilJob)
       | Some j =>
           let name := queue_of (onQueue j) queueName in
           match store_payload (db_protection x) (db_seed x) (db_now x) trace dedupeKey j name with
           | Err _ => (db, Some ErrMarshalJob)
           | Ok payload =>
               match claimAndInsert db x dedupeKey name payload with
               | (db, Err e) => (db, Some e)
               | (db, Ok _) => (db, None)
               end
           end
       end.

(** ** Reserving *)

(** The WHERE clause of the pop. *)
Definition poppable (queueName : string) (now reclaimCutoff : Z) (r : JobRecord) : bool :=
  String.eqb (r_Queue r) queueName
  && match r_FailedAt r with None => true | Some _ => false end
  && match r_ReservedAt r with
     | None => r_ScheduledAt r <=? now
     | Some at_ => at_ <? reclaimCutoff
     end.

(** ORDER BY scheduled_at ASC, id ASC *)
Definition row_before (a b : Z * JobRecord) : bool :=
  (r_ScheduledAt a.2 <? r_ScheduledAt b.2)
  || ((r_ScheduledAt a.2 =? r_ScheduledAt b.2) && (a.1 <? b.1)).

(** LIMIT 1 *)
Fixpoint first_row (rows : list (Z * JobRecord)) : option (Z * JobRecord) :=
  match rows with
  | [] => None
  | a :: rows =>
      match first_row rows with
      | None => Some a
      | Some b => if row_before b a then Some b else Some a
      end
  end.

Definition candidates (db : Database) (x : DbEnv) (queueName : string) : list (Z * JobRecord) :=
  let cutoff := db_now x - retryAfter (db_driver x) in
  filter (fun ir => ir.1 ∉ db_locked x /\ poppable queueName (db_now x) cutoff ir.2 = true) (map_to_list (jobs db)).

(** The UPDATE of a reserved row. *)
Definition reserve_row (x : DbEnv) (r : JobRecord) : JobRecord :=
  mkRecord (r_Queue r) (r_Payload r) (r_Attempts r + 1) (r_ScheduledAt r) (Some (db_now x))
    (Some (workerID (db_driver x))) (r_FailedAt r) (r_CreatedAt r) (db_now x).

Definition reserveNext (db : Database) (x : DbEnv) (queueName : string)
    : Database * result QueueError (option ((Z * JobRecord) * ReservationToken)) :=
  if db_fault x then (db, Err ErrBackend)
  else match first_row (candidates db x queueName) with
       | None => (db, Ok None)
       | Some (id, r) =>
           (with_jobs db (<[id := reserve_row x r]> (jobs db)),
            Ok (Some ((id, r), mkToken id (r_Attempts r + 1) (workerID (db_driver x)))))
       end.

(** ** Settling *)

(** The fence: id, attempts and reserved_by. *)
Definition fenced (db : Database) (t : ReservationToken) : option JobRecord :=
  match jobs db !! t_ID t with
  | Some r => if (r_Attempts r =? t_Attempts t)
                 && match r_ReservedBy r with Some by_ => String.eqb by_ (t_ReservedBy t) | None => false end
              then Some r else None
  | None => None
  end.

Definition deleteReserved (db : Database) (x : DbEnv) (t : ReservationToken) : Database * option QueueError :=
  if db_fault x then (db, Some ErrBackend)
  else match fenced db t with
       | Some _ => (with_jobs db (delete (t_ID t) (jobs db)), None)
       | None => (db, Some ErrLeaseLost)
       end.

Definition AckCtx (db : Database) (x : DbEnv) (t : ReservationToken) : Database * option QueueError :=
  if IsZero t then (db, None)
  else if db_cancelled x then (db, Some ErrContextDone)
  else deleteReserved db x t.

Definition release_row (scheduledAt now : Z) (r : JobRecord) : JobRecord :=
  mkRecord (r_Queue r) (r_Payload r) (r_Attempts r) scheduledAt None None (r_FailedAt r) (r_CreatedAt r) now.

Definition ReleaseCtx (db : Database) (x : DbEnv) (t : ReservationToken) (delay : Z)
    : Database * option QueueError :=
  if IsZero t then (db, None)
  else if db_cancelled x then (db, Some ErrContextDone)
  else
    let delay := if delay <? 0 then 0 else delay in
    if db_fault x then (db, Some ErrBackend)
    else match fenced db t with
         | Some r => (with_jobs db (<[t_ID t := release_row (db_now x + delay) (db_now x) r]> (jobs db)), None)
         | None => (db, Some ErrLeaseLost)
         end.

(** The text of a failed job: its wrapper is built anew and sealed, not signed. *)
Definition failed_text (x : DbEnv) (j : WJob) (queueName : string) : option Text :=
  match MarshalJob (Some j) queueName (db_now x) with
  | Err _ => None
  | Ok p => match sealPayload (db_protection x) (db_seed x) p with
            | Err _ => None
            | Ok p => envelope_json (Some p, "")
            end
  end.

Definition FailedCtx (db : Database) (x : DbEnv) (j : WJob) (err queueName : string) : Database * option QueueError :=
  match failed_text x j queueName with
  | None => (db, Some ErrMarshalJob)
  | Some t => if db_fault x || db_cancelled x then (db, Some ErrBackend)
              else (add_failed_row db (mkFailedRecord queueName (FailedText t) err (db_now x)), None)
  end.

Definition commitFailedReservation (db : Database) (x : DbEnv) (t : ReservationToken) (queueName exception : string)
    (payload : FailedPayload) : Database * option QueueError :=
  if db_fault x then (db, Some ErrBackend)
  else match fenced db t with
       | Some _ => (add_failed_row (with_jobs db (delete (t_ID t) (jobs db)))
                      (mkFailedRecord queueName payload exception (db_now x)), None)
       | None => (db, Some ErrLeaseLost)
       end.

Definition FailReservedCtx (db : Database) (x : DbEnv) (t : ReservationToken) (j : WJob) (err queueName : string)
    : Database * option QueueError :=
  if db_cancelled x then (db, Some ErrContextDone)
  else if IsZero t then FailedCtx db x j err queueName
  else match failed_text x j queueName with
       | None => (db, Some ErrMarshalJob)
       | Some txt => commitFailedReservation db x t queueName err (FailedText txt)
       end.

(** A row that cannot be rebuilt.  The caller's context does not bound it. *)
Definition quarantineReserved (db : Database) (x : DbEnv) (queueName : string) (t : ReservationToken)
    (rec : Z * JobRecord) : Database * QueueError :=
  let blob := match sealQuarantineBlob (db_protection x) (db_seed x) (db_text x) (raw (r_Payload rec.2)) with
              | (_, false) => FailedText (r_Payload rec.2)
              | (b, true) => FailedBlob b
              end in
  match commitFailedReservation db x t queueName (db_text x) blob with
  | (db, None) => (db, ErrPoisonJob)
  | (db, Some e) => (db, e)
  end.

(** PopCtx: reserve, rebuild, delete.  [mid] is what the tables become between
    the transactions, [x] and [x'] what the two learn. *)
Definition PopCtx (db : Database) (x x' : DbEnv) (queueName : string) (mid : Database -> Database)
    : Database * result QueueError (option WJob) :=
  if db_cancelled x then (db, Err ErrContextDone)
  else match reserveNext db x queueName with
       | (db, Err e) => (db, Err e)
       | (db, Ok None) => (db, Ok None)
       | (db, Ok (Some (rec, t))) =>
           match hydrateRecord (db_protection x) (db_registry x) (r_Payload rec.2) with
           | Err _ => let '(db, e) := quarantineReserved (mid db) x' queueName t rec in (db, Err e)
           | Ok j => match deleteReserved (mid db) x' t with
                     | (db, Some e) => (db, Err e)
                     | (db, None) => (db, Ok (Some j))
                     end
           end
       end.

(** ** Inspection and clearing *)

Definition count (p : JobRecord -> bool) (db : Database) : Z :=
  Z.of_nat (List.length (filter (fun ir => p ir.2 = true) (map_to_list (jobs db)))).

Definition unreserved (queueName : string) (r : JobRecord) : bool :=
  String.eqb (r_Queue r) queueName
  && match r_ReservedAt r with None => true | Some _ => false end
  && match r_FailedAt r with None => true | Some _ => false end.

Definition Size (db : Database) (queueName : string) : Z := count (unreserved queueName) db.
Definition GetDelayedJobs (db : Database) (now : Z) (queueName : string) : Z :=
  count (fun r => unreserved queueName r && (now <? r_ScheduledAt r)) db.

(** The two deletes of Clear; [fault2] fails the second. *)
Definition Clear (db : Database) (fault1 fault2 : bool) (queueName : string) : Database * option QueueError :=
  if fault1 then (db, Some ErrBackend)
  else
    let db := with_jobs db (filter (fun ir => r_Queue ir.2 <> queueName) (jobs db)) in
    if fault2 then (db, Some ErrBackend)
    else (mkDatabase (jobs db) (last_id db) (failed_jobs db)
            (filter (fun kq => kq.2 <> queueName) (job_dedupe db)), None).

(** What others do with the tables. *)
Inductive DbOp :=
  | OPush (x : DbEnv) (job : option WJob) (delay : Z) (trace : string * string * string) (q : option string)
  | OPushUnique (x : DbEnv) (job : option WJob) (key : string) (trace : string * string * string) (q : option string)
  | OReserve (x : DbEnv) (q : string)
  | ODelete (x : DbEnv) (t : ReservationToken)
  | OClear (fault1 fault2 : bool) (q : string).

Definition db_step (db : Database) (o : DbOp) : Database :=
  match o with
  | OPush x job delay trace q => (PushDelayedCtx db x job delay trace q).1
  | OPushUnique x job key trace q => (PushIfNotExistsCtx db x job key trace q).1
  | OReserve x q => (reserveNext db x q).1
  | ODelete x t => (deleteReserved db x t).1
  | OClear f1 f2 q => (Clear db f1 f2 q).1
  end.

#[export] Instance database_driver : ReservationDriver Database (Z * JobRecord) WJob DbEnv DbOp := {|
  d_reserve db x q := if db_cancelled x then (db, Err ErrContextDone) else reserveNext db x q;
  d_rebuild x rec := match hydrateRecord (db_protection x) (db_registry x) (r_Payload rec.2) with
                     | Ok j => Some j | Err _ => None end;
  d_quarantine := quarantineReserved;
  d_AckCtx := AckCtx;
  d_ReleaseCtx := ReleaseCtx;
  d_FailReservedCtx := FailReservedCtx;
  d_PushDelayedCtx db x j delay q := PushDelayedCtx db x (Some j) delay ("", "", "") (Some q);
  d_FailedCtx := FailedCtx;
  d_other := db_step
|}.

(** ** Leases *)

Definition row_key (ir : Z * JobRecord) : Z * Text := (ir.1, r_Payload ir.2).
Definition token_lease (t : ReservationToken) : Z * Z * string := (t_ID t, t_Attempts t, t_ReservedBy t).
Definition db_live (db : Database) : list (Z * Text) := row_key <$> map_to_list (jobs db).

Definition db_leased (db : Database) (x : Z * Z * string) : option (Z * Text) :=
  (fun r => (x.1.1, r_Payload r)) <$> fenced db (mkToken x.1.1 x.1.2 x.2).

(** Leases are numbered by row and attempt; a row that is gone does not come back. *)
Definition db_issued (db : Database) (x : Z * Z * string) : Prop :=
  x.1.1 <= last_id db /\ forall r, jobs db !! x.1.1 = Some r -> x.1.2 <= r_Attempts r.

Definition db_ok (_ : Z) (db : Database) : Prop :=
  0 <= last_id db /\ map_Forall (fun id _ => 0 < id <= last_id db) (jobs db).

Lemma fenced_some db t r : fenced db t = Some r -> jobs db !! t_ID t = Some r /\ r_Attempts r = t_Attempts t.
Proof.
  unfold fenced. destruct (jobs db !! t_ID t) as [r0|]; [|done]. destruct (Z.eqb_spec (r_Attempts r0) (t_Attempts t)); [|done].
  cbn [andb]. by destruct (match r_ReservedBy r0 with Some by_ => _ | None => _ end); intros [= <-].
Qed.

Lemma fenced_same db db' t : jobs db' !! t_ID t = jobs db !! t_ID t -> fenced db' t = fenced db t.
Proof. unfold fenced. by intros ->. Qed.

Lemma first_row_in rows ir : first_row rows = Some ir -> ir ∈ rows.
Proof.
  revert ir. induction rows as [|a rows IH]; intros ir; [done|]. cbn.
  destruct (first_row rows) as [b|]; [|intros [= <-]; left].
  destruct (row_before b a); intros [= <-]; [right; by apply IH|left].
Qed.

Lemma candidates_lookup db x q id r :
  (id, r) ∈ candidates db x q ->
  jobs db !! id = Some r /\ id ∉ db_locked x
  /\ poppable q (db_now x) (db_now x - retryAfter (db_driver x)) r = true.
Proof. unfold candidates. rewrite list_elem_of_filter, elem_of_map_to_list. cbn. tauto. Qed.

Lemma live_insert db id r r' :
  jobs db !! id = Some r -> r_Payload r' = r_Payload r ->
  db_live (with_jobs db (<[id := r']> (jobs db))) ≡ₚ db_live db.
Proof.
  intros Hr He. unfold db_live. cbn [jobs with_jobs].
  rewrite <- (insert_delete_id (jobs db) id r Hr) at 2. rewrite <- insert_delete_eq.
  rewrite !map_to_list_insert by apply lookup_delete_eq. cbn. unfold row_key at 1 3. cbn. by rewrite He.
Qed.

Lemma live_delete db id r : jobs db !! id = Some r -> db_live db ≡ₚ (id, r_Payload r) :: db_live (with_jobs db (delete id (jobs db))).
Proof.
  intros Hr. unfold db_live. cbn [jobs with_jobs]. rewrite <- (insert_delete_id (jobs db) id r Hr) at 1.
  by rewrite map_to_list_insert by apply lookup_delete_eq.
Qed.

(** A row changed in place: its attempts do not go back, and it is leased to
    nobody new below the changed count. *)
Lemma kept_update db id r r' :
  jobs db !! id = Some r -> r_Payload r' = r_Payload r ->
  r_Attempts r < r_Attempts r' \/ r_Attempts r' = r_Attempts r /\ r_ReservedBy r' = None ->
  leases_kept db_leased db_issued db (with_jobs db (<[id := r']> (jobs db))).
Proof.
  intros Hr Hp Ha x [Hid Hx]. unfold db_issued, db_leased. cbn [jobs with_jobs last_id].
  destruct (decide (id = x.1.1)) as [He|Hne].
  - subst id. specialize (Hx r Hr). split.
    + split; [done|]. intros r0. rewrite lookup_insert_eq. intros [= <-]. lia.
    + right. unfold fenced. cbn [jobs with_jobs t_ID t_Attempts]. rewrite lookup_insert_eq.
      destruct Ha as [Ha|[Ha Hb]].
      * by rewrite (proj2 (Z.eqb_neq _ _)) by lia.
      * rewrite Hb. by destruct (r_Attempts r' =? _).
  - rewrite lookup_insert_ne by done. split; [done|]. left. f_equal. apply fenced_same. cbn. by rewrite lookup_insert_ne.
Qed.

Lemma kept_delete db js f d :
  (forall i r, js !! i = Some r -> jobs db !! i = Some r) ->
  leases_kept db_leased db_issued db (mkDatabase js (last_id db) f d).
Proof.
  intros Hsub x [Hid Hx]. unfold db_issued, db_leased. cbn [jobs last_id]. split.
  - split; [done|]. intros r Hr. by apply Hx, Hsub.
  - unfold fenced. cbn [jobs t_ID]. destruct (js !! x.1.1) as [r|] eqn:E; [|by right].
    left. by rewrite (Hsub _ _ E).
Qed.

Lemma kept_insert db name p a b :
  db_ok 0 db -> leases_kept db_leased db_issued db (insert_job db name p a b).
Proof.
  intros [H0 Hids] x [Hid Hx]. unfold db_issued, db_leased, insert_job. cbn [jobs last_id].
  assert (Hne : last_id db + 1 <> x.1.1) by lia. rewrite lookup_insert_ne by done. split; [split; [lia|done]|].
  left. f_equal. apply fenced_same. cbn. by rewrite lookup_insert_ne.
Qed.

Lemma ok_insert_job n db name p a b : db_ok n db -> db_ok n (insert_job db name p a b).
Proof.
  intros [H0 Hids]. split; cbn; [lia|]. apply map_Forall_insert_2; [lia|].
  eapply map_Forall_impl; [exact Hids|]. cbn. lia.
Qed.

Lemma live_insert_job db name p a b :
  db_ok 0 db -> db_live (insert_job db name p a b) ≡ₚ (last_id db + 1, p) :: db_live db.
Proof.
  intros [H0 Hids]. unfold db_live, insert_job. cbn [jobs]. rewrite map_to_list_insert; [done|].
  destruct (jobs db !! (last_id db + 1)) as [r|] eqn:E; [|done]. specialize (Hids _ _ E). cbn in Hids. lia.
Qed.

Lemma ok_update n db id r r' : db_ok n db -> jobs db !! id = Some r -> db_ok n (with_jobs db (<[id := r']> (jobs db))).
Proof. intros [H0 Hids] Hr. split; cbn; [done|]. apply map_Forall_insert_2; [exact (Hids _ _ Hr)|done]. Qed.

Lemma ok_sub n db js f d :
  db_ok n db -> js ⊆ jobs db -> db_ok n (mkDatabase js (last_id db) f d).
Proof. intros [H0 Hids] Hs. split; cbn; [done|]. intros i r Hi. exact (Hids i r (lookup_weaken _ _ _ _ Hi Hs)). Qed.

(** A fenced delete, with or without a failed row. *)
Lemma delete_law n db t r f :
  db_ok n db -> fenced db t = Some r ->
  let db' := mkDatabase (delete (t_ID t) (jobs db)) (last_id db) f (job_dedupe db) in
  db_ok n db' /\ leases_kept db_leased db_issued db db'
  /\ exists k, db_leased db (token_lease t) = Some k /\ db_live db ≡ₚ k :: db_live db'.
Proof.
  intros Hok Hf. pose proof (fenced_some _ _ _ Hf) as [Hr _]. split_and!.
  - apply (ok_sub n db); [done|]. apply delete_subseteq.
  - apply kept_delete. intros i r0 H0. by apply lookup_delete_Some in H0 as [_ ?].
  - exists (t_ID t, r_Payload r). split; [|exact (live_delete db _ r Hr)].
    unfold db_leased, token_lease. cbn. destruct t. cbn. by rewrite Hf.
Qed.

Lemma same_law n db : db_ok n db -> db_ok (n + 1) db /\ leases_kept db_leased db_issued db db /\ db_live db ≡ₚ db_live db.
Proof. intros Hok. split_and!; [exact Hok|intros x Hx; auto|done]. Qed.

Lemma database_reserve n db x q db' r :
  db_ok n db -> n + 1 < two63 -> d_reserve db x q = (db', r) ->
  db_ok (n + 1) db' /\ db_live db' ≡ₚ db_live db /\ leases_kept db_leased db_issued db db' /\
  match r with
  | Ok (Some (rec, t)) => IsZero t = false /\ ~ db_issued db (token_lease t) /\ db_issued db' (token_lease t)
                          /\ db_leased db' (token_lease t) = Some (row_key rec)
  | _ => True
  end.
Proof.
  intros Hok _. destruct (same_law n db Hok) as (S1 & S2 & S3). cbn [d_reserve database_driver].
  destruct (db_cancelled x); [intros [= <- <-]; done|]. unfold reserveNext.
  destruct (db_fault x); [intros [= <- <-]; done|].
  destruct (first_row (candidates db x q)) as [[id r0]|] eqn:Ef; [|intros [= <- <-]; done].
  intros [= <- <-]. apply first_row_in, candidates_lookup in Ef as (Hr & _ & _).
  destruct Hok as [H0 Hids]. pose proof (Hids _ _ Hr) as Hid. cbn in Hid. split_and!.
  - by eapply ok_update.
  - by eapply live_insert.
  - eapply kept_update; [done|done|left; cbn; lia].
  - unfold IsZero. cbn. apply Z.eqb_neq. lia.
  - intros [_ Hi]. specialize (Hi r0 Hr). cbn in Hi. lia.
  - split; cbn; [lia|]. intros r1. rewrite lookup_insert_eq. intros [= <-]. cbn. lia.
  - unfold db_leased, token_lease, fenced. cbn [fst snd t_ID t_Attempts t_ReservedBy jobs with_jobs].
    rewrite lookup_insert_eq. cbn. by rewrite Z.eqb_refl, String.eqb_refl.
Qed.

Lemma database_delete n db x t db' e :
  db_ok n db -> deleteReserved db x t = (db', e) ->
  db_ok (n + 1) db' /\ leases_kept db_leased db_issued db db'
  /\ match e with
     | None => exists k, db_leased db (token_lease t) = Some k /\ db_live db ≡ₚ k :: db_live db'
     | Some _ => db_live db' ≡ₚ db_live db
     end.
Proof.
  intros Hok. unfold deleteReserved. destruct (db_fault x); [intros [= <- <-]; by apply (same_law n)|].
  destruct (fenced db t) as [r|] eqn:Hf; [|intros [= <- <-]; by apply (same_law n)].
  intros [= <- <-]. by apply (delete_law n db t r).
Qed.

Lemma database_ack n db x t db' e :
  db_ok n db -> n + 1 < two63 -> IsZero t = false -> db_issued db (token_lease t) -> d_AckCtx db x t = (db', e) ->
  db_ok (n + 1) db' /\ leases_kept db_leased db_issued db db'
  /\ match e with
     | None => exists k, db_leased db (token_lease t) = Some k /\ db_live db ≡ₚ k :: db_live db'
     | Some _ => db_live db' ≡ₚ db_live db
     end.
Proof.
  intros Hok _ Hz _. cbn [d_AckCtx database_driver]. unfold AckCtx. rewrite Hz.
  destruct (db_cancelled x); [intros [= <- <-]; by apply (same_law n)|]. by apply database_delete.
Qed.

Lemma database_commit n db x t q ex p db' e :
  db_ok n db -> commitFailedReservation db x t q ex p = (db', e) ->
  db_ok (n + 1) db' /\ leases_kept db_leased db_issued db db'
  /\ match e with
     | None => exists k, db_leased db (token_lease t) = Some k /\ db_live db ≡ₚ k :: db_live db'
     | Some _ => db_live db' ≡ₚ db_live db
     end.
Proof.
  intros Hok. unfold commitFailedReservation. destruct (db_fault x); [intros [= <- <-]; by apply (same_law n)|].
  destruct (fenced db t) as [r|] eqn:Hf; [|intros [= <- <-]; by apply (same_law n)].
  intros [= <- <-]. by apply (delete_law n db t r).
Qed.

Lemma database_fail n db x t j err q db' e :
  db_ok n db -> n + 1 < two63 -> IsZero t = false -> db_issued db (token_lease t) ->
  d_FailReservedCtx db x t j err q = (db', e) ->
  db_ok (n + 1) db' /\ leases_kept db_leased db_issued db db'
  /\ match e with
     | None => exists k, db_leased db (token_lease t) = Some k /\ db_live db ≡ₚ k :: db_live db'
     | Some _ => db_live db' ≡ₚ db_live db
     end.
Proof.
  intros Hok _ Hz _. cbn [d_FailReservedCtx database_driver]. unfold FailReservedCtx. rewrite Hz.
  destruct (db_cancelled x); [intros [= <- <-]; by apply (same_law n)|].
  destruct (failed_text x j q); [|intros [= <- <-]; by apply (same_law n)]. by apply database_commit.
Qed.

Lemma database_quarantine n db x q t rec db' e :
  db_ok n db -> n + 1 < two63 -> IsZero t = false -> db_issued db (token_lease t) ->
  d_quarantine db x q t rec = (db', e) ->
  db_ok (n + 1) db' /\ leases_kept db_leased db_issued db db'
  /\ match e with
     | ErrPoisonJob => exists k, db_leased db (token_lease t) = Some k /\ db_live db ≡ₚ k :: db_live db'
     | _ => db_live db' ≡ₚ db_live db
     end.
Proof.
  intros Hok _ Hz _. cbn [d_quarantine database_driver]. unfold quarantineReserved.
  destruct (commitFailedReservation _ _ _ _ _ _) as [db1 e1] eqn:Ec.
  pose proof (database_commit n _ _ _ _ _ _ _ _ Hok Ec) as (H1 & H2 & H3).
  destruct e1 as [e1|]; intros [= <- <-]; [|done]. split_and!; [done..|].
  unfold commitFailedReservation in Ec. destruct (db_fault x); [by simplify_eq|]. destruct (fenced db t); by simplify_eq.
Qed.

Lemma database_release n db x t delay db' e :
  db_ok n db -> n + 1 < two63 -> IsZero t = false -> db_issued db (token_lease t) -> d_ReleaseCtx db x t delay = (db', e) ->
  db_ok (n + 1) db' /\ leases_kept db_leased db_issued db db' /\ db_live db' ≡ₚ db_live db.
Proof.
  intros Hok _ Hz _. cbn [d_ReleaseCtx database_driver]. unfold ReleaseCtx. rewrite Hz.
  destruct (db_cancelled x); [intros [= <- <-]; by apply (same_law n)|].
  destruct (db_fault x); [intros [= <- <-]; by apply (same_law n)|].
  destruct (fenced db t) as [r|] eqn:Hf; [|intros [= <- <-]; by apply (same_law n)].
  intros [= <- <-]. apply fenced_some in Hf as [Hr _]. split_and!.
  - by eapply ok_update.
  - by eapply kept_update; [..|right].
  - by eapply live_insert.
Qed.

(** ** What others do *)

(** The row that appears and the rows that disappear from one state of the tables to the next. *)
Definition inserted (db db' : Database) : list (Z * Text) :=
  if last_id db <? last_id db' then
    match jobs db' !! last_id db' with Some r => [(last_id db', r_Payload r)] | None => [] end
  else [].
Definition removed (db db' : Database) : list (Z * Text) :=
  row_key <$> filter (fun ir => jobs db' !! ir.1 = None) (map_to_list (jobs db)).

Lemma inserted_same db db' : last_id db' = last_id db -> inserted db db' = [].
Proof. unfold inserted. intros ->. by rewrite Z.ltb_irrefl. Qed.

Lemma removed_dom db db' : (forall id, is_Some (jobs db !! id) -> is_Some (jobs db' !! id)) -> removed db db' = [].
Proof.
  intros Hd. unfold removed. destruct (filter _ _) as [|[id r] l] eqn:E; [done|].
  assert (Hin : (id, r) ∈ filter (fun ir => jobs db' !! ir.1 = None) (map_to_list (jobs db))) by (rewrite E; left).
  rewrite list_elem_of_filter, elem_of_map_to_list in Hin. destruct Hin as [Hn Hs]. cbn in Hn.
  destruct (Hd id) as [r' Hr']; [by eexists|]. congruence.
Qed.

Lemma removed_sub db db' :
  jobs db' ⊆ jobs db -> db_live db ≡ₚ db_live db' ++ removed db db'.
Proof.
  intros Hs. unfold db_live, removed. rewrite <- fmap_app. f_equiv.
  assert (He : jobs db' = filter (fun ir => ~ jobs db' !! ir.1 = None) (jobs db)).
  { apply map_eq. intros i. destruct (jobs db' !! i) as [r|] eqn:E.
    - symmetry. apply map_lookup_filter_Some_2; [by eapply lookup_weaken|]. cbn. by rewrite E.
    - symmetry. apply map_lookup_filter_None_2. right. intros r _. intros Hn. by apply Hn. }
  assert (Hk : map_to_list (jobs db') ≡ₚ filter (fun ir => ~ jobs db' !! ir.1 = None) (map_to_list (jobs db))).
  { rewrite He at 1. apply map_to_list_filter_perm. }
  rewrite Hk, Permutation_app_comm. symmetry. apply filter_app_complement.
Qed.

Lemma unchanged_law n db : db_ok n db ->
  db_ok (n + 1) db /\ leases_kept db_leased db_issued db db
  /\ db_live db ++ inserted db db ≡ₚ db_live db ++ removed db db.
Proof.
  intros Hok. destruct (same_law n db Hok) as (H1 & H2 & _). split_and!; [done..|].
  by rewrite inserted_same, removed_dom.
Qed.

Lemma insert_law n db name p a b :
  db_ok n db -> let db' := insert_job db name p a b in
  db_ok (n + 1) db' /\ leases_kept db_leased db_issued db db'
  /\ db_live db ++ inserted db db' ≡ₚ db_live db' ++ removed db db'.
Proof.
  intros Hok. split_and!; [by apply ok_insert_job|by apply kept_insert|].
  rewrite live_insert_job by done. rewrite removed_dom.
  - unfold inserted. cbn [last_id insert_job jobs]. rewrite (proj2 (Z.ltb_lt _ _)) by lia.
    rewrite lookup_insert_eq. cbn. solve_Permutation.
  - intros id Hid. cbn [jobs insert_job]. destruct (decide (last_id db + 1 = id)) as [<-|Hne].
    + rewrite lookup_insert_eq. by eexists.
    + by rewrite lookup_insert_ne.
Qed.

Lemma push_law n db x job delay trace q :
  db_ok n db -> let db' := (PushDelayedCtx db x job delay trace q).1 in
  db_ok (n + 1) db' /\ leases_kept db_leased db_issued db db'
  /\ db_live db ++ inserted db db' ≡ₚ db_live db' ++ removed db db'.
Proof.
  intros Hok. unfold PushDelayedCtx. destruct (db_cancelled x); [by apply unchanged_law|].
  destruct job as [j|]; [|by apply unchanged_law]. destruct (store_payload _ _ _ _ _ _ _); [|by apply unchanged_law].
  destruct (db_fault x); [by apply unchanged_law|]. by apply insert_law.
Qed.

Lemma unique_law n db x job dk trace q :
  db_ok n db -> let db' := (PushIfNotExistsCtx db x job dk trace q).1 in
  db_ok (n + 1) db' /\ leases_kept db_leased db_issued db db'
  /\ db_live db ++ inserted db db' ≡ₚ db_live db' ++ removed db db'.
Proof.
  intros Hok. unfold PushIfNotExistsCtx. destruct (String.eqb dk ""); [by apply push_law|].
  destruct (db_cancelled x); [by apply unchanged_law|]. destruct job as [j|]; [|by apply unchanged_law].
  destruct (store_payload _ _ _ _ _ _ _); [|by apply unchanged_law]. unfold claimAndInsert.
  destruct (db_fault x); [by apply unchanged_law|]. destruct (job_dedupe db !! dk); [by apply unchanged_law|].
  by apply (insert_law n (mkDatabase (jobs db) (last_id db) (failed_jobs db) _)).
Qed.

Lemma submap_law n db js d :
  db_ok n db -> js ⊆ jobs db -> let db' := mkDatabase js (last_id db) (failed_jobs db) d in
  db_ok (n + 1) db' /\ leases_kept db_leased db_issued db db'
  /\ db_live db ++ inserted db db' ≡ₚ db_live db' ++ removed db db'.
Proof.
  intros Hok Hs. split_and!; [by apply (ok_sub n)| |].
  - apply kept_delete. intros i r Hi. by eapply lookup_weaken.
  - rewrite inserted_same by done. rewrite app_nil_r. by apply removed_sub.
Qed.

Lemma database_other n db o :
  db_ok n db -> n + 1 < two63 ->
  db_ok (n + 1) (d_other db o) /\ leases_kept db_leased db_issued db (d_other db o)
  /\ db_live db ++ inserted db (d_other db o) ≡ₚ db_live (d_other db o) ++ removed db (d_other db o).
Proof.
  intros Hok Hn. cbn [d_other database_driver]. destruct o as [x job delay trace q|x job dk trace q|x q|x t|f1 f2 q]; cbn [db_step].
  - by apply push_law.
  - by apply unique_law.
  - destruct (reserveNext db x q) as [db' r] eqn:Er.
    destruct (database_reserve n db (mkDbEnv (db_driver x) false (db_fault x) (db_now x) (db_locked x) (db_protection x)
      (db_registry x) (db_seed x) (db_text x)) q db' r Hok Hn Er) as (H1 & H2 & H3 & _).
    split_and!; [done..|]. cbn [fst]. rewrite H2. unfold reserveNext in Er.
    destruct (db_fault x); [simplify_eq; by rewrite inserted_same, removed_dom|].
    destruct (first_row _) as [[id r0]|]; simplify_eq; [|by rewrite inserted_same, removed_dom].
    rewrite inserted_same, removed_dom; [done| |done]. intros i Hi. cbn. rewrite lookup_insert. case_decide; [by eexists|done].
  - unfold deleteReserved. destruct (db_fault x); [by apply unchanged_law|].
    destruct (fenced db t); [|by apply unchanged_law]. apply (submap_law n); [done|apply delete_subseteq].
  - unfold Clear. destruct f1; [by apply unchanged_law|].
    destruct f2; apply (submap_law n db (filter (fun ir => r_Queue ir.2 <> q) (jobs db))); try done; apply map_filter_subseteq.
Qed.

#[export] Instance database_leases : LeasingDriver (RD := database_driver) (Z * Text) (Z * Z * string) := {|
  key := row_key;
  lease := token_lease;
  live := db_live;
  leased := db_leased;
  issued := db_issued;
  d_ok := db_ok;
  came db o := inserted db (db_step db o);
  gone db o := removed db (db_step db o);
  law_reserve := database_reserve;
  law_ack := database_ack;
  law_fail := database_fail;
  law_quarantine := database_quarantine;
  law_release := database_release;
  law_other := database_other
|}.

#[export] Instance database_stable : StableDriver (LD := database_leases).
Proof. intros n db H. exact H. Qed.


Definition NewDatabase : Database := mkDatabase ∅ 0 [] ∅.

Lemma issued_last db db' : leases_kept db_leased db_issued db db' -> last_id db <= last_id db'.
Proof.
  intros Hk. set (att := match jobs db !! last_id db with Some r => r_Attempts r | None => 0 end).
  destruct (Hk (last_id db, att, "")) as [[H _] _]; [|exact H].
  split; cbn; [lia|]. intros r Hr. unfold att. rewrite Hr. lia.
Qed.

Lemma inserted_new db db' : Forall (fun k => last_id db < k.1 <= last_id db') (inserted db db') /\ NoDup (inserted db db').*1.
Proof.
  unfold inserted. destruct (Z.ltb_spec (last_id db) (last_id db')); [|split; constructor].
  destruct (jobs db' !! last_id db'); [|split; constructor]. split; [by repeat constructor; cbn; lia|apply NoDup_singleton].
Qed.

Section workers.
Context {WJ : WorkerJob WJob}.

Lemma admitted_new n (s : System) acts :
  system_ok n s -> n + Z.of_nat (List.length acts) < two63 ->
  Forall (fun k => last_id (driver s) < k.1) (admitted s acts) /\ NoDup (admitted s acts).*1.
Proof.
  revert n s. induction acts as [|a acts IH]; intros n s Hok Hn; cbn [admitted]; [split; constructor|].
  cbn [List.length] in Hn. rewrite Nat2Z.inj_succ in Hn.
  destruct (step_effect n s a Hok ltac:(lia)) as (Hok' & Hk & _). apply issued_last in Hk.
  destruct (IH (n + 1) (step s a) Hok' ltac:(lia)) as [Hf Hd].
  destruct a as [wi p x|wi|o]; cbn [app].
  - split; [|done]. eapply Forall_impl; [exact Hf|]. cbv beta. lia.
  - split; [|done]. eapply Forall_impl; [exact Hf|]. cbv beta. lia.
  - destruct (inserted_new (driver s) (driver (step s (AOther o)))) as [Hi Hn1].
    cbn [step driver d_other database_driver came database_leases] in *. split.
    + apply Forall_app. split; (eapply Forall_impl; [eassumption|]); cbv beta; lia.
    + rewrite fmap_app. apply NoDup_app. split_and!; [done| |done].
      intros id (k1 & -> & H1)%list_elem_of_fmap (k2 & He & H2)%list_elem_of_fmap.
      rewrite Forall_forall in Hi, Hf. specialize (Hi k1 H1). specialize (Hf k2 H2). cbn in *. lia.
Qed.

(** C8: over the database driver every row has exactly one outcome.  For any
    workers in any number of processes over empty tables, through any
    interleaving of fewer than 2^63 steps of theirs (leases that expire while
    the handler runs and are reclaimed by another worker, late
    acknowledgements of the first, failed statements, rows locked by others)
    and of pushes, pops and clears, the rows that were inserted are exactly
    those still in the table, those reported as processed, skipped or failed,
    and those popped, cleared or quarantined; and no row is reported twice. *)
Theorem database_rows_are_reported_once ws acts :
  Forall idle ws -> Z.of_nat (List.length acts) < two63 ->
  let s := mkSystem NewDatabase ws [] in
  admitted s acts ≡ₚ db_live (driver (run s acts)) ++ outcomes (run s acts) ++ dropped s acts
  /\ NoDup (outcomes (run s acts)).*1.
Proof.
  intros Hws Hn s. assert (Hok : system_ok 0 s) by (apply idle_ok; [|done]; split; [done|apply map_Forall_empty]).
  assert (Hp : admitted s acts ≡ₚ db_live (driver (run s acts)) ++ outcomes (run s acts) ++ dropped s acts).
  { pose proof (every_job_has_one_outcome 0 s acts Hok Hn) as Hp. unfold s in Hp at 1 2. by rewrite idle_outcomes in Hp. }
  split; [done|]. destruct (admitted_new 0 s acts Hok Hn) as [_ Hd]. rewrite Hp, !fmap_app in Hd.
  apply NoDup_app in Hd as (_ & _ & Hd). by apply NoDup_app in Hd as (? & _).
Qed.
End workers.

(** ** Which row is leased *)

Lemma row_before_le a b :
  row_before b a = false <->
  r_ScheduledAt a.2 < r_ScheduledAt b.2 \/ r_ScheduledAt a.2 = r_ScheduledAt b.2 /\ a.1 <= b.1.
Proof. unfold row_before. rewrite orb_false_iff, andb_false_iff, !Z.ltb_ge, Z.eqb_neq. lia. Qed.

Lemma first_row_least rows ir : first_row rows = Some ir -> forall ir', ir' ∈ rows -> row_before ir' ir = false.
Proof.
  revert ir. induction rows as [|a rows IH]; intros ir; [done|]. cbn [first_row].
  destruct (first_row rows) as [b|] eqn:Ef.
  - destruct (row_before b a) eqn:Eb; intros [= <-] ir' [->|Hin]%elem_of_cons.
    + apply row_before_le. unfold row_before in Eb. rewrite orb_true_iff, andb_true_iff, !Z.ltb_lt, Z.eqb_eq in Eb. lia.
    + by apply IH.
    + apply row_before_le. lia.
    + specialize (IH b eq_refl ir' Hin). rewrite row_before_le in IH, Eb |- *. lia.
  - intros [= <-] ir' [->|Hin]%elem_of_cons; [apply row_before_le; lia|].
    destruct rows as [|c rows]; [by apply elem_of_nil in Hin|]. cbn in Ef.
    by destruct (first_row rows) as [d|]; [destruct (row_before d c)|].
Qed.

(** A row a pop may take: due and free, or with a lease older than [retryAfter]. *)
Definition available (x : DbEnv) (q : string) (r : JobRecord) : Prop :=
  r_Queue r = q /\ r_FailedAt r = None
  /\ match r_ReservedAt r with
     | None => r_ScheduledAt r <= db_now x
     | Some at_ => at_ + retryAfter (db_driver x) < db_now x
     end.

Lemma poppable_available x q r :
  poppable q (db_now x) (db_now x - retryAfter (db_driver x)) r = true <-> available x q r.
Proof.
  unfold poppable, available. rewrite !andb_true_iff, String.eqb_eq.
  destruct (r_FailedAt r); destruct (r_ReservedAt r); rewrite ?Z.leb_le, ?Z.ltb_lt; intuition (try done; lia).
Qed.

(** a pop leases the next row.  When the database answers, a pop of a queue
    leaves everything as it is and reports no job exactly when every row of
    the queue that is due, or whose lease is older than the retry time (its
    worker died), is locked by another pop; otherwise it takes the available
    row scheduled first, the lowest id among equals, counts the attempt on it
    and hands out a token that is the only one to pass the fence. *)
Theorem pop_leases_the_next_row db x q :
  db_fault x = false ->
  match reserveNext db x q with
  | (db', Ok None) =>
      db' = db /\ forall id r, jobs db !! id = Some r -> available x q r -> id ∈ db_locked x
  | (db', Ok (Some ((id, r), t))) =>
      jobs db !! id = Some r /\ id ∉ db_locked x /\ available x q r
      /\ (forall id' r', jobs db !! id' = Some r' -> available x q r' -> id' ∉ db_locked x ->
           r_ScheduledAt r < r_ScheduledAt r' \/ r_ScheduledAt r = r_ScheduledAt r' /\ id <= id')
      /\ t = mkToken id (r_Attempts r + 1) (workerID (db_driver x))
      /\ (forall id', id' <> id -> jobs db' !! id' = jobs db !! id')
      /\ forall t', t_ID t' = id -> (is_Some (fenced db' t') <-> t' = t)
  | (_, Err _) => False
  end.
Proof.
  intros Hf. unfold reserveNext. rewrite Hf.
  assert (Hc : forall id r, (id, r) ∈ candidates db x q <-> jobs db !! id = Some r /\ id ∉ db_locked x /\ available x q r).
  { intros id r. unfold candidates. rewrite list_elem_of_filter, elem_of_map_to_list, poppable_available. cbn. tauto. }
  destruct (first_row (candidates db x q)) as [[id r]|] eqn:Ef.
  - pose proof (proj1 (Hc id r) (first_row_in _ _ Ef)) as (Hr & Hl & Ha). split_and!; try done.
    + intros id' r' Hr' Ha' Hl'. pose proof (first_row_least _ _ Ef (id', r')) as Hb.
      rewrite row_before_le in Hb. apply Hb. by apply Hc.
    + intros id' Hne. cbn. by rewrite lookup_insert_ne.
    + intros [i a by_] Hi. cbn in Hi. subst i. unfold fenced. cbn [t_ID t_Attempts t_ReservedBy jobs with_jobs].
      rewrite lookup_insert_eq. cbn [r_Attempts r_ReservedBy reserve_row].
      destruct (Z.eqb_spec (r_Attempts r + 1) a) as [<-|Hne]; cbn [andb].
      * destruct (String.eqb_spec (workerID (db_driver x)) by_) as [<-|Hne].
        -- split; [done|]. intros _. by eexists.
        -- split; [by intros [? ?]|by intros [= ->]].
      * split; [by intros [? ?]|by intros [= ->]].
  - split; [done|]. intros id r Hr Ha. destruct (decide (id ∈ db_locked x)) as [|Hl]; [done|].
    assert (Hin : (id, r) ∈ candidates db x q) by (by apply Hc).
    destruct (candidates db x q) as [|c rows]; [by apply elem_of_nil in Hin|]. cbn in Ef.
    by destruct (first_row rows) as [d|]; [destruct (row_before d c)|].
Qed.
End database.

(** ** Examples *)

#[export] Instance text_worker : WorkerJob string := {|
  MaxAttempts _ := None; ShouldRetry _ := None; Backoff _ := None; batchIDOf _ := NotBatched; jobKey j := j |}.

#[local] Notation no_queue := (fun _ : string => "").
#[local] Notation no_raw := (fun _ : Envelope => "").

Definition sample_env (id : string) (now : Z) : @DbEnv sample_wire :=
  mkDbEnv (NewDatabaseDriver id) false false now ∅ (mkProtection "" false None) sample_registry 0 "".
Definition worker_env (id : string) (now : Z) : Env (DEnv := @DbEnv sample_wire) := mkEnv (sample_env id now) (Returned None) false false.
Definition one_worker : Worker (Item := Z * @JobRecord sample_wire) (J := string) := mkWorker (mkConfig "default" 3 (fun a => a)) ∅ false [Polling].

(** Worker A leases the row and stalls; B reclaims it after the lease, runs and
    acknowledges it; then A acknowledges, too late. *)
Definition reclaim_acts : list (Action (DEnv := @DbEnv sample_wire) (Op := @DbOp sample_wire)) :=
  let a now := AStep 0 0 (worker_env "A" now) in
  let b now := AStep 1 0 (worker_env "B" now) in
  [AOther (@OPush sample_wire (sample_env "A" 0) (Some "hello") 0 ("", "", "") None);
   a 1; a 1; a 1;
   b (100 * SECOND); b (100 * SECOND); b (100 * SECOND); b (100 * SECOND); b (100 * SECOND);
   a (101 * SECOND); a (101 * SECOND); a (101 * SECOND)].

Definition reclaim_system : System := mkSystem (@NewDatabase sample_wire) [one_worker; one_worker] [].

Example reclaim_outcome :
  (outcomes (LD := @database_leases sample_wire no_queue no_raw)
     (run (RD := @database_driver sample_wire no_queue no_raw) reclaim_system reclaim_acts)).*1 = [1].
Proof. vm_compute. reflexivity. Qed.

Lemma database_rows_are_reported_once_witness :
  NoDup (outcomes (LD := @database_leases sample_wire no_queue no_raw)
     (run (RD := @database_driver sample_wire no_queue no_raw) reclaim_system reclaim_acts)).*1.
Proof.
  apply (@database_rows_are_reported_once sample_wire no_queue no_raw text_worker [one_worker; one_worker] reclaim_acts).
  - repeat constructor.
  - reflexivity.
Defined.

(** Of two due rows the one scheduled first is taken. *)
Definition two_rows : @Database sample_wire :=
  (@PushDelayedCtx sample_wire no_queue (@PushDelayedCtx sample_wire no_queue NewDatabase (sample_env "A" 5) (Some "late") 7 ("", "", "") None).1
     (sample_env "A" 6) (Some "early") 0 ("", "", "") None).1.

Definition leased_token (db : @Database sample_wire) (now : Z) : option ReservationToken :=
  match (reserveNext db (sample_env "A" now) "default").2 with Ok (Some (_, t)) => Some t | _ => None end.

Example early_row_first : leased_token two_rows 20 = Some (mkToken 2 1 "A") /\ leased_token two_rows 5 = None.
Proof. vm_compute. split; reflexivity. Qed.

(** With every row locked by others there is nothing to take. *)
Definition locked_env : @DbEnv sample_wire :=
  mkDbEnv (NewDatabaseDriver "A") false false 20 {[1; 2]} (mkProtection "" false None) sample_registry 0 "".

Lemma pop_leases_the_next_row_witness : (reserveNext two_rows locked_env "default").1 = two_rows.
Proof.
  pose proof (@pop_leases_the_next_row sample_wire two_rows locked_env "default" eq_refl) as H.
  assert (Hr : (reserveNext two_rows locked_env "default").2 = Ok None) by (vm_compute; reflexivity).
  destruct (reserveNext two_rows locked_env "default") as [db' r]. cbn in Hr. subst r. exact (proj1 H).
Defined.
