(* ===== verification/Drain.v ===== *)
(** * Draining a component's work (internal/drain/drain.go)

    [Owner] is the set of goroutines that run a component's work, [Run] one
    run of it: an admission counter with a closed bit, the channels [idle]
    and [finished], the result and the force claim.  The scheduler, the queue
    worker, the outbox, the ORM manager and the gRPC servers stop through it.

    Nothing here holds a lock across a call, so the operations interleave at
    every atomic access.  A goroutine is a stack of frames, a frame is the
    point a call has reached, and [step] moves one goroutine past one atomic
    access.  User code is a frame that may do anything the protocol allows:
    call any operation, call another function, return, panic, hand a unit of
    admitted work to another goroutine.  The protocol is the one the comments
    of [Join] and [Release] state: a unit is joined or released only by a
    goroutine that holds one. *)

From S2P Require Import Prelude.

Local Open Scope Z_scope.

(** ** Data *)

(** What [error] values the package handles: those of user code, a recovered
    panic ([panicerr.FromRecovered]), a context's error and the refusal. *)
Inductive error :=
  | UserError (n : Z)
  | PanicError (v : Z)
  | CtxError (c : nat)
  | ErrStopFromOwnWork.

#[export] Instance error_eq_dec : EqDecision error.
Proof. solve_decision. Defined.

Definition closedBit : Z := Z.shiftl 1 62.

Record Run := mkRun {
  state : Z;
  idle : bool;          (* whether the channel is closed *)
  finished : bool;      (* whether the channel is closed *)
  finish : bool;
  err : option error;
  forced : bool
}.

(** [goroutine.Set] and [Owner]. *)
Record Owner := mkOwner {
  work : gmap nat nat;
  frames : list string
}.

(** A context argument is nil or a context of the environment; [work] and
    [force] arguments are nil or a named function. *)
Abbreviation context := (option nat).
Abbreviation func := (option string).

Inductive value := VUnit | VBool (b : bool) | VErr (e : option error).
Inductive outcome := Returned (v : value) | Panicked (p : Z).

(** The body of a goroutine [Owner.Go] starts. *)
Inductive body := BodyUser (fn : string) | BodyFinish (w : func).

Inductive frame :=
  | InUser (fn : string)
  | InAdmit | InAdmitCas (s : Z)
  | InClose
  | InCloseIdle (v : value)
  | InFinish (e : option error) | InFinishWrite (e : option error) | InFinishClose
  | InAwait (ctx : context) (force : func)
  | InAwaitClosed (c : nat) (force : func)
  | InAwaitForce (c : nat) (force : func)
  | InAwaitGo (c : nat) (force : string)
  | InStop (ctx : context) (w force : func)
  | InStopNested
  | InStopAwait (ctx : context) (force : func)
  | InSignal (w : func) | InSignalGo (w : func)
  | InDo (b : body) | InLeave
  | InContained | InThenFinish
  | Out (o : outcome).

#[export] Instance value_eq_dec : EqDecision value.
Proof. solve_decision. Defined.
#[export] Instance outcome_eq_dec : EqDecision outcome.
Proof. solve_decision. Defined.
#[export] Instance body_eq_dec : EqDecision body.
Proof. solve_decision. Defined.
#[export] Instance frame_eq_dec : EqDecision frame.
Proof. solve_decision. Defined.

(** A goroutine: its stack, the units of admitted work it holds, and the
    [Enter]s of its own it has not left. *)
Record goroutine := mkG { stack : list frame; units : nat; entered : nat }.

(** What the calls returned, newest first. *)
Inductive event :=
  | EAdmit (i : nat) (b : bool)
  | EClose (i : nat) (b : bool)
  | EFinish (e : option error)
  | EResult (i : nat) (e : option error)
  | ERefused (i : nat)
  | EForce (i : nat)
  | EClosedTwice.

Record world := mkW {
  run : Run;
  owner : Owner;
  gs : list goroutine;
  done : gset nat;
  trace : list event
}.

(** ** Goroutine sets *)

Definition Set_Enter (s : gmap nat nat) (id : nat) : gmap nat nat :=
  <[id := S (default 0%nat (s !! id))]> s.

Definition Set_Leave (s : gmap nat nat) (id : nat) : gmap nat nat :=
  match default 0%nat (s !! id) with
  | O => s
  | S O => delete id s
  | S n => <[id := n]> s
  end.

Definition Set_Contains (s : gmap nat nat) (id : nat) : bool :=
  Nat.ltb 0 (default 0%nat (s !! id)).

(** [goroutine.Inside]: whether a call of one of the functions is on the
    stack. *)
Definition Inside (st : list frame) (names : list string) : bool :=
  existsb (fun f => match f with InUser fn => bool_decide (fn ∈ names) | _ => false end) st.

(** ** Owner *)

Definition NestedInside (o : Owner) (fns : list string) : Owner :=
  mkOwner (work o) (frames o ++ fns).

Definition Nested (o : Owner) (i : nat) (st : list frame) : bool :=
  Set_Contains (work o) i ||
  (negb (bool_decide (frames o = [])) && Inside st (frames o)).

Definition Enter (o : Owner) (i : nat) : Owner := mkOwner (Set_Enter (work o) i) (frames o).
Definition Leave (o : Owner) (i : nat) : Owner := mkOwner (Set_Leave (work o) i) (frames o).

(** ** Run: the atomic accesses of its methods *)

Definition NewRun : Run := mkRun 0 false false false None false.

Definition set_state (r : Run) s := mkRun s (idle r) (finished r) (finish r) (err r) (forced r).

Definition Stopping (r : Run) : bool := negb (Z.land (state r) closedBit =? 0).

Definition Closed (ch : bool) : bool := ch.

(** ** One step of a goroutine *)

Definition set_g (w : world) (i : nat) (g : goroutine) : world :=
  mkW (run w) (owner w) (<[i := g]> (gs w)) (done w) (trace w).
Definition set_run (w : world) (r : Run) : world :=
  mkW r (owner w) (gs w) (done w) (trace w).
Definition set_owner (w : world) (o : Owner) : world :=
  mkW (run w) o (gs w) (done w) (trace w).
Definition log (w : world) (e : event) : world :=
  mkW (run w) (owner w) (gs w) (done w) (e :: trace w).

(** [async.Go(func() { o.Do(fn) })]: a new goroutine about to run [Do]. *)
Definition Go (w : world) (b : body) : world :=
  mkW (run w) (owner w) (gs w ++ [mkG [InDo b] 0 0]) (done w) (trace w).

(** The goroutine [i], [g], of [w] goes on with the stack [st]. *)
Definition goto (w : world) (i : nat) (g : goroutine) (st : list frame) : world :=
  set_g w i (mkG st (units g) (entered g)).
Definition return_ (w : world) (i : nat) (g : goroutine) (v : value) (st : list frame) : world :=
  goto w i g (Out (Returned v) :: st).
Definition set_units (g : goroutine) (n : nat) : goroutine := mkG (stack g) n (entered g).

Section Methods.
Variables (w : world) (i : nat) (g : goroutine) (st : list frame).

(** [Admit]: the load ([None]), then the compare-and-swap of the value
    loaded, which starts over when it fails. *)
Definition Admit (loaded : option Z) : world :=
  let r := run w in
  match loaded with
  | None =>
      let s := state r in
      if negb (Z.land s closedBit =? 0)
      then log (return_ w i g (VBool false) st) (EAdmit i false)
      else goto w i g (InAdmitCas s :: st)
  | Some s =>
      if state r =? s
      then log (return_ (set_run w (set_state r (wrap64 (s + 1)))) i
                  (set_units g (S (units g))) (VBool true) st) (EAdmit i true)
      else goto w i g (InAdmit :: st)
  end.

Definition Join : world :=
  let r := run w in
  return_ (set_run w (set_state r (wrap64 (state r + 1)))) i
    (set_units g (S (units g))) VUnit st.

Definition Release : world :=
  let r := run w in
  let s := wrap64 (state r - 1) in
  let w' := set_run w (set_state r s) in
  let g' := set_units g (pred (units g)) in
  if s =? closedBit then goto w' i g' (InCloseIdle VUnit :: st)
  else return_ w' i g' VUnit st.

Definition Close : world :=
  let r := run w in
  let old := state r in
  let w' := set_run w (set_state r (Z.lor old closedBit)) in
  if negb (Z.land old closedBit =? 0) then log (return_ w' i g (VBool false) st) (EClose i false)
  else if old =? 0 then log (goto w' i g (InCloseIdle (VBool true) :: st)) (EClose i true)
  else log (return_ w' i g (VBool true) st) (EClose i true).

(** [close(r.idle)], then the caller returns [v]; closing a closed channel
    panics. *)
Definition close_idle (v : value) : world :=
  let r := run w in
  if idle r then log (goto w i g (Out (Panicked 0) :: st)) EClosedTwice
  else return_ (set_run w (mkRun (state r) true (finished r) (finish r) (err r) (forced r)))
         i g v st.

(** [Finish]: the claim, the write of the result, the close. *)
Definition Finish (e : option error) : world :=
  let r := run w in
  if finish r then return_ w i g VUnit st
  else log (goto (set_run w (mkRun (state r) (idle r) (finished r) true (err r) (forced r)))
              i g (InFinishWrite e :: st)) (EFinish e).
Definition Finish_write (e : option error) : world :=
  let r := run w in
  goto (set_run w (mkRun (state r) (idle r) (finished r) (finish r) e (forced r)))
    i g (InFinishClose :: st).
Definition Finish_close : world :=
  let r := run w in
  if finished r then log (goto w i g (Out (Panicked 0) :: st)) EClosedTwice
  else return_ (set_run w (mkRun (state r) (idle r) true (finish r) (err r) (forced r)))
         i g VUnit st.

(** [return r.err]. *)
Definition result_of_run : world :=
  log (return_ w i g (VErr (err (run w))) st) (EResult i (err (run w))).

(** [Await]: the select (with [at_ctx], its context's case), which blocks
    ([None]) while the case is not ready. *)
Definition Await (ctx : context) (force : func) (at_ctx : bool) : option world :=
  match ctx, at_ctx with
  | Some c, true =>
      if bool_decide (c ∈ done w) then Some (goto w i g (InAwaitClosed c force :: st)) else None
  | _, false => if Closed (finished (run w)) then Some result_of_run else None
  | None, true => None
  end.
Definition Await_closed (c : nat) (force : func) : world :=
  if Closed (finished (run w)) then result_of_run
  else goto w i g (InAwaitForce c force :: st).
Definition Await_force (c : nat) (force : func) : world :=
  let r := run w in
  match force with
  | Some fn =>
      if forced r then return_ w i g (VErr (Some (CtxError c))) st
      else log (goto (set_run w (mkRun (state r) (idle r) (finished r) (finish r) (err r) true))
                  i g (InAwaitGo c fn :: st)) (EForce i)
  | None => return_ w i g (VErr (Some (CtxError c))) st
  end.
Definition Await_go (c : nat) (fn : string) : world :=
  Go (return_ w i g (VErr (Some (CtxError c))) st) (BodyUser fn).

(** [Stop]: refused inside the owner's work, else [Signal], then [Await]. *)
Definition Stop (ctx : context) (wk force : func) : world :=
  if Nested (owner w) i (stack g) then goto w i g (InStopNested :: st)
  else goto w i g (InSignal wk :: InStopAwait ctx force :: st).
Definition Stop_nested : world :=
  if Closed (finished (run w)) then result_of_run
  else log (return_ w i g (VErr (Some ErrStopFromOwnWork)) st) (ERefused i).

Definition Signal (wk : func) : world := goto w i g (InClose :: InSignalGo wk :: st).
Definition Signal_go (wk : func) (closed : bool) : world :=
  let w' := return_ w i g VUnit st in
  if closed then Go w' (BodyFinish wk) else w'.

(** [Do]: [Enter], the function, the deferred [Leave].  The goroutine of a
    stop runs [r.Finish(runContained(work))]; a nil [work] finishes with
    nil. *)
Definition Do (b : body) : world :=
  goto (set_owner w (Enter (owner w) i)) i g
    match b with
    | BodyUser fn => InUser fn :: InLeave :: st
    | BodyFinish (Some fn) => InUser fn :: InContained :: InThenFinish :: InLeave :: st
    | BodyFinish None => Out (Returned (VErr None)) :: InThenFinish :: InLeave :: st
    end.

(** The call on top ended with [o]: the frame below goes on.  A panic
    unwinds the frames that do not recover it. *)
Definition resume (o : outcome) (f : frame) : option world :=
  match f, o with
  | InUser fn, Returned _ => Some (goto w i g (InUser fn :: st))
  | InLeave, _ => Some (goto (set_owner w (Leave (owner w) i)) i g (Out o :: st))
  | InContained, Returned v => Some (return_ w i g v st)
  | InContained, Panicked p => Some (return_ w i g (VErr (Some (PanicError p))) st)
  | InThenFinish, Returned (VErr e) => Some (goto w i g (InFinish e :: st))
  | InSignalGo wk, Returned (VBool b) => Some (Signal_go wk b)
  | InStopAwait ctx force, Returned _ => Some (goto w i g (InAwait ctx force :: st))
  | (InUser _ | InThenFinish | InSignalGo _ | InStopAwait _ _), Panicked p =>
      Some (goto w i g (Out (Panicked p) :: st))
  | _, _ => None
  end.
End Methods.

(** One atomic access of goroutine [i]; [at_ctx] is the select's choice. *)
Definition lib_step (w : world) (i : nat) (at_ctx : bool) : option world :=
  g ← gs w !! i;
  match stack g with
  | [] => None
  | f :: st =>
      match f with
      | InUser _ => None
      | InAdmit => Some (Admit w i g st None)
      | InAdmitCas s => Some (Admit w i g st (Some s))
      | InClose => Some (Close w i g st)
      | InCloseIdle v => Some (close_idle w i g st v)
      | InFinish e => Some (Finish w i g st e)
      | InFinishWrite e => Some (Finish_write w i g st e)
      | InFinishClose => Some (Finish_close w i g st)
      | InAwait ctx force => Await w i g st ctx force at_ctx
      | InAwaitClosed c force => Some (Await_closed w i g st c force)
      | InAwaitForce c force => Some (Await_force w i g st c force)
      | InAwaitGo c fn => Some (Await_go w i g st c fn)
      | InStop ctx wk force => Some (Stop w i g st ctx wk force)
      | InStopNested => Some (Stop_nested w i g st)
      | InSignal wk => Some (Signal w i g st wk)
      | InDo b => Some (Do w i g st b)
      | Out o => match st with [] => Some (goto w i g []) | f' :: st' => resume w i g st' o f' end
      | InStopAwait _ _ | InSignalGo _ | InLeave | InContained | InThenFinish => None
      end
  end.

(** What user code may do.  [Join] and [Release] are for a holder of a unit,
    [Leave] for the [Enter] of the same goroutine. *)
Inductive act :=
  | ACall (fn : string)
  | AReturn (e : option error)
  | APanic (p : Z)
  | ARecover
  | AAdmit | AJoin | ARelease | AClose
  | AFinish (e : option error)
  | AAwait (ctx : context) (force : func)
  | AStop (ctx : context) (wk force : func)
  | ASignal (wk : func)
  | AEnter | ALeave
  | ADo (fn : string) | AGo (fn : string)
  | AHand (j : nat).

Definition user_step (w : world) (i : nat) (a : act) : option world :=
  g ← gs w !! i;
  match stack g with
  | InUser fn :: rest =>
      let st := InUser fn :: rest in
      match a with
      | ACall fn' => Some (goto w i g (InUser fn' :: st))
      | AReturn e => Some (return_ w i g (VErr e) rest)
      | APanic p => Some (goto w i g (Out (Panicked p) :: rest))
      | ARecover => None
      | AAdmit => Some (goto w i g (InAdmit :: st))
      | AJoin => if Nat.ltb 0 (units g) then Some (Join w i g st) else None
      | ARelease => if Nat.ltb 0 (units g) then Some (Release w i g st) else None
      | AClose => Some (goto w i g (InClose :: st))
      | AFinish e => Some (goto w i g (InFinish e :: st))
      | AAwait ctx force => Some (goto w i g (InAwait ctx force :: st))
      | AStop ctx wk force => Some (goto w i g (InStop ctx wk force :: st))
      | ASignal wk => Some (goto w i g (InSignal wk :: st))
      | AEnter => Some (set_g (set_owner w (Enter (owner w) i)) i (mkG st (units g) (S (entered g))))
      | ALeave =>
          if Nat.ltb 0 (entered g)
          then Some (set_g (set_owner w (Leave (owner w) i)) i (mkG st (units g) (pred (entered g))))
          else None
      | ADo fn' => Some (goto w i g (InDo (BodyUser fn') :: st))
      | AGo fn' => Some (Go w (BodyUser fn'))
      | AHand j =>
          if Nat.ltb 0 (units g) && negb (Nat.eqb i j) then
            h ← gs w !! j;
            Some (set_g (set_g w i (set_units g (pred (units g)))) j (set_units h (S (units h))))
          else None
      end
  | Out (Panicked _) :: InUser fn :: rest =>
      match a with ARecover => Some (goto w i g (InUser fn :: rest)) | _ => None end
  | _ => None
  end.

Inductive label := Lib (i : nat) (at_ctx : bool) | User (i : nat) (a : act) | CtxDone (c : nat).

Definition step (w : world) (l : label) : option world :=
  match l with
  | Lib i b => lib_step w i b
  | User i a => user_step w i a
  | CtxDone c => Some (mkW (run w) (owner w) (gs w) ({[c]} ∪ done w) (trace w))
  end.

Fixpoint steps (w : world) (ls : list label) : option world :=
  match ls with
  | [] => Some w
  | l :: ls => w' ← step w l; steps w' ls
  end.

(** A fresh run of an owner: [n] goroutines of user code, none of them its
    work. *)
Definition start (n : nat) (fs : list string) : world :=
  mkW NewRun (NestedInside (mkOwner ∅ []) fs) (replicate n (mkG [InUser "main"%string] 0 0)) ∅ [].
