(* ===== verification/DrainSpec.v ===== *)
(** * The contract of a drain (internal/drain/drain.go)

    The invariants of Drain.v's interleavings, by induction on the steps: the
    admission counter counts the units held and [idle] is closed once, by the
    goroutine that saw the last unit go; [Finish] is claimed once and every
    stop is handed its result; the owner's set records the goroutines inside
    the work, so a stop called back from it is refused instead of waiting.

    The counter is 64 bits wide with the closed bit at 2^62: the theorems
    speak of interleavings of fewer than 2^62 steps, since more units than
    that would reach the bit. *)

From S2P Require Import Prelude Drain.

Local Open Scope string_scope.
Local Open Scope nat_scope.
Local Open Scope list_scope.

(** ** Invariants *)

Definition total (f : goroutine -> nat) (w : world) : nat := sum_list_with f (gs w).
Definition on_stack (c : frame -> nat) (g : goroutine) : nat := sum_list_with c (stack g).
Definition events (p : event -> bool) (tr : list event) : nat :=
  sum_list_with (fun e => Nat.b2n (p e)) tr.

Definition closing_idle (f : frame) : nat := match f with InCloseIdle _ => 1 | _ => 0 end.
Definition finishing (f : frame) : nat := match f with InFinishWrite _ => 1 | _ => 0 end.
Definition closing_finished (f : frame) : nat := match f with InFinishClose => 1 | _ => 0 end.
Definition stale (f : frame) : nat :=
  match f with InAdmitCas s => Nat.b2n (negb (Z.land s closedBit =? 0)%Z) | _ => 0 end.
Definition is_close (e : event) : bool := match e with EClose _ true => true | _ => false end.
Definition is_finish (e : event) : bool := match e with EFinish _ => true | _ => false end.
Definition is_force (e : event) : bool := match e with EForce _ => true | _ => false end.
Definition is_closed_twice (e : event) : bool := match e with EClosedTwice => true | _ => false end.

(** The result [Finish] published, and the frames about to write another. *)
Fixpoint published (tr : list event) : option (option error) :=
  match tr with
  | [] => None
  | EFinish e :: _ => Some e
  | _ :: tr' => published tr'
  end.
Definition wrong (p : option (option error)) (f : frame) : nat :=
  match f with InFinishWrite e => Nat.b2n (negb (bool_decide (p = Some e))) | _ => 0 end.

(** No unit is admitted after the run was closed; newest event first. *)
Fixpoint admission_ordered (tr : list event) : Prop :=
  match tr with
  | [] => True
  | EAdmit _ true :: tr' => events is_close tr' = 0 /\ admission_ordered tr'
  | _ :: tr' => admission_ordered tr'
  end.

Lemma closedBit_val : closedBit = (2 ^ 62)%Z.
Proof. reflexivity. Qed.

(** The counter below the closed bit and the bit itself. *)
Lemma land_closedBit (n : Z) (c : bool) :
  (0 <= n < 2 ^ 62)%Z ->
  (Z.land (n + if c then closedBit else 0) closedBit =? 0)%Z = negb c.
Proof.
  intros Hn. rewrite closedBit_val.
  assert (Hb : Z.testbit (n + if c then 2 ^ 62 else 0) 62 = c).
  { rewrite Z.testbit_odd, Z.shiftr_div_pow2 by lia. destruct c.
    - replace ((n + 2 ^ 62) / 2 ^ 62)%Z with 1%Z; [done|].
      apply (Z.div_unique_pos _ _ _ n); lia.
    - rewrite Z.add_0_r, Z.div_small by lia. done. }
  destruct c; cbn [negb]; apply Z.eqb_eq || apply Z.eqb_neq.
  - intros Hz. apply (f_equal (fun z => Z.testbit z 62)) in Hz.
    rewrite Z.land_spec, Hb, Z.pow2_bits_true, Z.bits_0 in Hz by lia. done.
  - apply Z.bits_inj'. intros k Hk. rewrite Z.land_spec, Z.bits_0.
    destruct (decide (k = 62%Z)) as [->|Hne]; [by rewrite Hb|].
    rewrite Z.pow2_bits_false by lia. apply andb_false_r.
Qed.

Lemma lor_closedBit (n : Z) (c : bool) :
  (0 <= n < 2 ^ 62)%Z ->
  Z.lor (n + if c then closedBit else 0) closedBit = (n + closedBit)%Z.
Proof.
  intros Hn.
  assert (Hor : Z.lor n closedBit = (n + closedBit)%Z).
  { pose proof (land_closedBit n false Hn) as Hl. rewrite Z.add_0_r in Hl. apply Z.eqb_eq in Hl.
    by rewrite <- Z.lxor_lor, <- Z.add_nocarry_lxor by done. }
  destruct c; [|by rewrite Z.add_0_r].
  by rewrite <- Hor, <- Z.lor_assoc, Z.lor_diag.
Qed.

(** The admission side after [n] steps: the counter counts the units held,
    the closed bit is set once, and the channel [idle] is closed, or about to
    be closed by one goroutine, exactly when the run is closed and no unit is
    held. *)
Record admission (n : nat) (w : world) (c : bool) : Prop := {
  adm_bound : total units w <= n;
  adm_state : state (run w) = (Z.of_nat (total units w) + if c then closedBit else 0)%Z;
  adm_idle : Nat.b2n (idle (run w)) + total (on_stack closing_idle) w =
             (if c then 1 - total units w else 0);
  adm_loaded : total (on_stack stale) w = 0;
  adm_closes : events is_close (trace w) = Nat.b2n c;
  adm_order : admission_ordered (trace w)
}.

(** The cases of a step, one per atomic access. *)
Ltac step_cases :=
  unfold step, lib_step, user_step in *; repeat case_match; simplify_option_eq;
  unfold Admit, Join, Release, Close, close_idle, Finish, Finish_write, Finish_close, Await,
    Await_closed, Await_force, Await_go, Stop, Stop_nested, Signal, Do, resume, Signal_go,
    result_of_run, Closed in *;
  repeat case_match; simplify_eq;
  repeat match goal with g : goroutine |- _ => destruct g as [?st ?u ?en] end; simplify_option_eq;
  unfold return_, goto, Go, log, set_g, set_run, set_owner, set_state, set_units, total, on_stack, events in *;
  cbn [run owner gs done trace state idle finished finish err forced stack units entered work frames] in *.

(** Turns the tests of the code into arithmetic. *)
Ltac arith_tests :=
  repeat match goal with
  | H : (_ =? _)%Z = true |- _ => apply Z.eqb_eq in H
  | H : (_ =? _)%Z = false |- _ => apply Z.eqb_neq in H
  | H : (_ <? _) = true |- _ => apply Nat.ltb_lt in H
  | H : (_ && _) = true |- _ => apply andb_true_iff in H as [? ?]
  | H : negb (_ =? _) = true |- _ => apply negb_true_iff, Nat.eqb_neq in H
  end; subst;
  try match goal with
  | Hj : ?l !! ?j = Some ?h, Hne : ?i ≠ ?j |- context [<[?i := ?x]> ?l] =>
      assert (<[i := x]> l !! j = Some h) by (by rewrite list_lookup_insert_ne)
  end.

Lemma counter_wraps (s : Z) (u : nat) (c : bool) :
  s = (Z.of_nat u + if c then closedBit else 0)%Z -> (Z.of_nat u < 2 ^ 62 - 1)%Z ->
  wrap64 (s + 1) = (s + 1)%Z /\ wrap64 (s - 1) = (s - 1)%Z /\
  Z.lor s closedBit = (Z.of_nat u + closedBit)%Z /\ (Z.land s closedBit =? 0)%Z = negb c.
Proof.
  intros -> Hu. rewrite lor_closedBit, land_closedBit by lia.
  rewrite closedBit_val. split_and!; try done; apply wrap64_small; destruct c; width.
Qed.

Ltac counted :=
  unfold total, events; cbn [run gs trace state idle finished finish err forced]; tally_step;
  unfold on_stack in *;
  cbn [run owner gs done trace state idle finished finish err forced
       sum_list_with stack units entered is_close is_finish is_force is_closed_twice
       closing_idle finishing closing_finished wrong stale Nat.b2n negb] in *.

Lemma wrong_le p G : sum_list_with (on_stack (wrong p)) G <= sum_list_with (on_stack finishing) G.
Proof.
  assert (H : forall st, sum_list_with (wrong p) st <= sum_list_with finishing st).
  { induction st as [|f st IH]; [done|]. destruct f; cbn; try lia.
    destruct (bool_decide _); cbn; lia. }
  induction G as [|g G IH]; [done|]. cbn. unfold on_stack at 1 3. specialize (H (stack g)). lia.
Qed.

(** The results in the trace are [err], and there are none before [finished]
    is closed. *)
Definition results_are (fi : bool) (er : option error) (tr : list event) : Prop :=
  Forall (fun ev => forall i e, ev = EResult i e -> fi = true /\ e = er) tr.

Lemma no_results_yet fi er er' tr : results_are false er tr -> results_are fi er' tr.
Proof. intros Hr. eapply Forall_impl; [exact Hr|]. intros ev H i e ->. by destruct (H i e eq_refl). Qed.

(** The completion side: one goroutine claims [Finish], writes the result and
    closes [finished]; the results handed out are that result. *)
Record completion (w : world) : Prop := {
  com_claim : Nat.b2n (finish (run w)) =
    total (on_stack finishing) w + total (on_stack closing_finished) w + Nat.b2n (finished (run w));
  com_finishes : events is_finish (trace w) = Nat.b2n (finish (run w));
  com_forces : events is_force (trace w) = Nat.b2n (forced (run w));
  com_once : events is_closed_twice (trace w) = 0;
  com_write : total (on_stack (wrong (published (trace w)))) w = 0;
  com_err : total (on_stack finishing) w = 0 -> finish (run w) = true ->
    published (trace w) = Some (err (run w));
  com_results : results_are (finished (run w)) (err (run w)) (trace w)
}.

Lemma admission_step n w l w' c :
  (Z.of_nat n < 2 ^ 62 - 1)%Z -> admission n w c -> step w l = Some w' ->
  exists c', admission (S n) w' c'.
Proof.
  intros Hn Hinv Hst. pose proof closedBit_val as Hbit.
  destruct (counter_wraps _ _ _ (adm_state _ _ _ Hinv)) as (Hinc & Hdec & Hor & Hland);
    [destruct Hinv; lia|].
  destruct w as [[s id fi fn er fo] o G d tr]. destruct l; step_cases; arith_tests.
  all: destruct Hinv as [Hb Hs Hi Hl Hc Ho]; unfold total, events in *.
  all: cbn [run state gs trace idle] in *; rewrite ?Hinc, ?Hdec, ?Hor, ?Hland in *.
  all: tally units; tally (on_stack closing_idle); tally (on_stack stale).
  all: let fin := (split; cbn [trace admission_ordered]; try done; counted; rewrite ?Hland in *;
      destruct c; cbn [Nat.b2n negb] in *; try done; try split; done || lia) in
    try solve [exists c; fin | exists true; fin].
Qed.

Lemma completion_step n w l w' c :
  admission n w c -> completion w -> step w l = Some w' -> completion w'.
Proof.
  intros Hadm Hinv Hst. assert (Hid : Nat.b2n (idle (run w)) + sum_list_with (on_stack closing_idle) (gs w) <= 1).
  { pose proof (adm_idle _ _ _ Hadm). unfold total in *. destruct c; lia. } clear Hadm.
  destruct w as [[s id fi fn er fo] o G d tr]. destruct l; step_cases; arith_tests.
  all: destruct Hinv as [Hcl Hfi Hfo Hon Hwr Her Hre]; unfold total, events in *.
  all: cbn [run gs trace idle finished finish err forced] in *.
  all: tally (on_stack closing_idle); tally (on_stack finishing); tally (on_stack closing_finished);
    tally (on_stack (wrong (published tr))).
  all: split; cbn [trace published run finished err]; try done; try (counted; done || lia).
  all: try (counted; intros; apply Her; done || lia).
  all: try (constructor; [congruence || naive_solver | try done; by eapply no_results_yet]).
  - pose proof (wrong_le (Some e) G). tally (on_stack (wrong (Some e))).
    counted. rewrite bool_decide_eq_true_2 by done. cbn [Nat.b2n negb] in *. lia.
  - counted. destruct (bool_decide_reflect (published tr = Some e)); [done|]. cbn [Nat.b2n negb] in *. lia.
  - destruct fi; [destruct fn; counted; lia|by eapply no_results_yet].
  - destruct fn; counted; lia.
  - destruct fn; counted; lia.
  - by eapply no_results_yet.
Qed.

(** Only the frame on top of a stack is between two atomic accesses; those
    below wait for it to return. *)
Definition waiting (f : frame) : bool :=
  match f with
  | InUser _ | InStopAwait _ _ | InSignalGo _ | InLeave | InContained | InThenFinish => true
  | _ => false
  end.
Definition buried (g : goroutine) : nat :=
  sum_list_with (fun f => Nat.b2n (negb (waiting f))) (tail (stack g)).

Lemma buried_step w l w' : total buried w = 0 -> step w l = Some w' -> total buried w' = 0.
Proof.
  intros Hinv Hst. destruct w as [[s id fi fn er fo] o G d tr].
  unfold total in *. cbn [gs] in Hinv. destruct l; step_cases; arith_tests; tally buried.
  all: tally_step; unfold buried in *; cbn [sum_list_with stack tail waiting Nat.b2n negb gs] in *; try lia.
Qed.

(** The owner's set holds a goroutine as often as it entered and has not
    left. *)
Definition leaving (f : frame) : nat := match f with InLeave => 1 | _ => 0 end.
Definition weight (g : goroutine) : nat := entered g + on_stack leaving g.
Definition recorded (s : gmap nat nat) (G : list goroutine) : Prop :=
  forall i, default 0 (s !! i) = from_option weight 0 (G !! i).

Lemma Set_Enter_count s i j :
  default 0 (Set_Enter s i !! j) = default 0 (s !! j) + Nat.b2n (bool_decide (i = j)).
Proof.
  unfold Set_Enter. destruct (decide (i = j)) as [->|Hne].
  - rewrite lookup_insert_eq, bool_decide_eq_true_2 by done. cbn. lia.
  - rewrite lookup_insert_ne, bool_decide_eq_false_2 by done. cbn. lia.
Qed.

Lemma Set_Leave_count s i j :
  default 0 (Set_Leave s i !! j) = default 0 (s !! j) - Nat.b2n (bool_decide (i = j)).
Proof.
  unfold Set_Leave. destruct (decide (i = j)) as [->|Hne].
  - rewrite bool_decide_eq_true_2 by done. destruct (default 0 (s !! j)) as [|[|k]] eqn:Hs; cbn.
    + by rewrite Hs.
    + by rewrite lookup_delete_eq.
    + by rewrite lookup_insert_eq.
  - rewrite bool_decide_eq_false_2, Nat.sub_0_r by done.
    destruct (default 0 (s !! i)) as [|[|k]]; by rewrite ?lookup_delete_ne, ?lookup_insert_ne by done.
Qed.

Lemma recorded_insert s G i g g' :
  recorded s G -> G !! i = Some g -> weight g' = weight g -> recorded s (<[i := g']> G).
Proof.
  intros Hr Hg Hw j. rewrite (Hr j). destruct (decide (i = j)) as [<-|Hne].
  - rewrite list_lookup_insert_eq, Hg by (by eapply lookup_lt_Some). by cbn.
  - by rewrite list_lookup_insert_ne.
Qed.

Lemma recorded_enter s G i g g' :
  recorded s G -> G !! i = Some g -> weight g' = S (weight g) -> recorded (Set_Enter s i) (<[i := g']> G).
Proof.
  intros Hr Hg Hw j. rewrite Set_Enter_count, (Hr j). destruct (decide (i = j)) as [<-|Hne].
  - rewrite list_lookup_insert_eq, Hg, bool_decide_eq_true_2 by (done || by eapply lookup_lt_Some). cbn. lia.
  - rewrite list_lookup_insert_ne, bool_decide_eq_false_2 by done. cbn. lia.
Qed.

Lemma recorded_leave s G i g g' :
  recorded s G -> G !! i = Some g -> weight g = S (weight g') -> recorded (Set_Leave s i) (<[i := g']> G).
Proof.
  intros Hr Hg Hw j. rewrite Set_Leave_count, (Hr j). destruct (decide (i = j)) as [<-|Hne].
  - rewrite list_lookup_insert_eq, Hg, bool_decide_eq_true_2 by (done || by eapply lookup_lt_Some). cbn. lia.
  - rewrite list_lookup_insert_ne, bool_decide_eq_false_2 by done. cbn. lia.
Qed.

Lemma recorded_go s G b : recorded s G -> recorded s (G ++ [mkG [InDo b] 0 0]).
Proof.
  intros Hr i. rewrite (Hr i). destruct (decide (i < length G)).
  - by rewrite lookup_app_l.
  - rewrite lookup_app_r, lookup_ge_None_2 by lia. by destruct (i - length G) as [|[|k]].
Qed.

Lemma recorded_step w l w' :
  recorded (work (owner w)) (gs w) -> step w l = Some w' -> recorded (work (owner w')) (gs w').
Proof.
  intros Hinv Hst. destruct w as [[s id fi fn er fo] o G d tr].
  cbn [gs owner] in Hinv. destruct l; step_cases; arith_tests; try done.
  all: repeat first
    [ apply recorded_go
    | eapply recorded_enter; [eassumption|eassumption|unfold weight, on_stack; cbn; lia]
    | eapply recorded_leave; [eassumption|eassumption|unfold weight, on_stack; cbn; lia]
    | eapply recorded_insert; [|eassumption|unfold weight, on_stack; cbn; lia] ]; try done.
Qed.

(** What holds of every world [k] steps from the start. *)
Definition sound (k : nat) (w : world) : Prop :=
  (exists c, admission k w c) /\ completion w /\ total buried w = 0 /\
  recorded (work (owner w)) (gs w).

Lemma total_start f n fs : f (mkG [InUser "main"] 0 0) = 0 -> total f (start n fs) = 0.
Proof. intros Hf. unfold total. cbn. induction n as [|n IH]; cbn; lia. Qed.

Lemma sound_start n fs : sound 0 (start n fs).
Proof.
  split; [exists false|split_and!].
  - split; rewrite ?total_start by done; done.
  - split; rewrite ?total_start by done; try done. constructor.
  - by apply total_start.
  - intros i. cbn. rewrite lookup_empty. destruct (replicate n _ !! i) as [g|] eqn:Hg; [|done].
    apply lookup_replicate in Hg as [-> _]. done.
Qed.

Lemma sound_steps k w ls w' :
  sound k w -> steps w ls = Some w' -> (Z.of_nat (k + length ls) < 2 ^ 62)%Z -> sound (k + length ls) w'.
Proof.
  revert k w; induction ls as [|l ls IH]; intros k w Hs Hst Hk; simplify_eq/=.
  - by rewrite Nat.add_0_r.
  - destruct (step w l) as [w1|] eqn:Hl; [|done]. destruct Hs as ([c Ha] & Hc & Hb & Hr).
    rewrite Nat.add_succ_r in *. apply (IH (S k) w1); [|done|cbn; lia].
    split; [eapply admission_step; eauto; lia|]. split_and!.
    + by eapply completion_step.
    + by eapply buried_step.
    + by eapply recorded_step.
Qed.

Lemma reachable_sound n fs ls w :
  steps (start n fs) ls = Some w -> (Z.of_nat (length ls) < 2 ^ 62)%Z -> sound (length ls) w.
Proof. intros. by apply (sound_steps 0 (start n fs) ls w (sound_start n fs)). Qed.

(** The bit of the counter is the one the invariant speaks of. *)
Lemma stopping_bit n w c :
  admission n w c -> (Z.of_nat n < 2 ^ 62)%Z -> Stopping (run w) = c.
Proof.
  intros Ha Hn. unfold Stopping. rewrite (adm_state _ _ _ Ha), land_closedBit, negb_involutive; [done|].
  pose proof (adm_bound _ _ _ Ha). lia.
Qed.

Lemma closer_on_top w :
  total buried w = 0 -> 0 < total (on_stack closing_idle) w ->
  exists i g v st, gs w !! i = Some g /\ stack g = InCloseIdle v :: st.
Proof.
  intros Hb (g & i & Hg & Hpos)%sum_pos. pose proof (sum_zero _ _ _ _ Hb Hg) as Hz.
  unfold on_stack in Hpos. unfold buried in Hz. destruct (stack g) as [|f st] eqn:Hs; cbn in *; [lia|].
  assert (Hst : sum_list_with closing_idle st = 0).
  { clear -Hz. induction st as [|f st IH]; cbn in *; [done|]. rewrite IH by lia.
    destruct f; cbn in *; lia. }
  destruct f; cbn in Hpos; try lia. by eexists i, g, _, st.
Qed.

(** C2: in every interleaving of fewer than 2^62 steps, the channel [Idle] is
    closed only when admission is closed and no admitted unit is out; when
    admission is closed and no unit is out, it is closed or a goroutine's next
    step closes it (it is never forgotten); and neither channel is ever closed
    twice, which would panic. *)
Theorem idle_exactly_when_drained n fs ls w :
  steps (start n fs) ls = Some w -> (Z.of_nat (length ls) < 2 ^ 62)%Z ->
  (idle (run w) = true -> Stopping (run w) = true /\ total units w = 0) /\
  (Stopping (run w) = true -> total units w = 0 ->
     idle (run w) = true \/
     exists i w', lib_step w i false = Some w' /\ idle (run w') = true /\ idle (run w) = false) /\
  EClosedTwice ∉ trace w.
Proof.
  intros Hst Hn. destruct (reachable_sound _ _ _ _ Hst Hn) as ([c Ha] & Hc & Hb & _).
  rewrite (stopping_bit _ _ _ Ha Hn). pose proof (adm_idle _ _ _ Ha) as Hi. split_and!.
  - intros Hid. rewrite Hid in Hi. destruct c; cbn in Hi; split; done || lia.
  - intros -> Hu. rewrite Hu in Hi. destruct (idle (run w)) eqn:Hid; [by left|]. right.
    destruct (closer_on_top w Hb) as (i & g & v & st & Hg & Hs); [cbn in Hi; lia|].
    exists i. unfold lib_step. rewrite Hg. cbn. rewrite Hs. eexists. split; [done|].
    unfold close_idle. by rewrite Hid.
  - intros Hin. apply list_elem_of_lookup in Hin as [k Hk].
    by pose proof (sum_zero _ _ _ _ (com_once _ Hc) Hk).
Qed.

(** ** The stop's contract *)

Lemma events_none p tr : events p tr = 0 -> forall e, e ∈ tr -> p e = false.
Proof.
  intros H e [k Hk]%list_elem_of_lookup. pose proof (sum_zero _ _ _ _ H Hk) as Hz.
  cbn in Hz. by destruct (p e).
Qed.

Lemma admitted_before_close tr tr1 tr2 i j :
  admission_ordered tr -> tr = tr1 ++ EClose i true :: tr2 -> EAdmit j true ∉ tr1.
Proof.
  revert tr1. induction tr as [|e tr IH]; intros tr1 Ho Heq; [by destruct tr1|].
  destruct tr1 as [|e' tr1]; simplify_eq/=; [set_solver|].
  assert (Htail : admission_ordered (tr1 ++ EClose i true :: tr2)).
  { destruct e' as [? []| | | | | |]; by try apply Ho. }
  rewrite not_elem_of_cons. split; [|by apply (IH tr1)]. intros <-.
  destruct Ho as [Hnone _]. pose proof (events_none _ _ Hnone (EClose i true)) as Hf.
  rewrite elem_of_app, elem_of_cons in Hf. specialize (Hf ltac:(tauto)). done.
Qed.

Lemma published_elem tr e : published tr = Some e -> EFinish e ∈ tr.
Proof.
  induction tr as [|ev tr IH]; [done|]. destruct ev; cbn; intros H; simplify_eq; rewrite ?elem_of_cons; auto.
Qed.

(** one [Close] reports that it closed the run, so one stop owns it, and
    no unit is admitted after it; the run is forced at most once; and every
    stop that gets the run's result gets the one result [Finish] published
    first, never one that another [Finish] brought or an unwritten one. *)
Theorem stops_share_one_result n fs ls w :
  steps (start n fs) ls = Some w -> (Z.of_nat (length ls) < 2 ^ 62)%Z ->
  events is_close (trace w) <= 1 /\
  events is_force (trace w) <= 1 /\
  (forall i j tr1 tr2, trace w = tr1 ++ EClose i true :: tr2 -> EAdmit j true ∉ tr1) /\
  (forall i e, EResult i e ∈ trace w ->
     finished (run w) = true /\ EFinish e ∈ trace w /\ events is_finish (trace w) = 1 /\
     forall j e', EResult j e' ∈ trace w -> e' = e).
Proof.
  intros Hst Hn. destruct (reachable_sound _ _ _ _ Hst Hn) as ([c Ha] & Hc & _).
  rewrite (adm_closes _ _ _ Ha), (com_forces _ Hc), (com_finishes _ Hc). split_and!.
  - destruct c; cbn; lia.
  - destruct (forced (run w)); cbn; lia.
  - intros i j tr1 tr2. by apply admitted_before_close, (adm_order _ _ _ Ha).
  - intros i e Hin. pose proof (com_results _ Hc) as Hres.
    pose proof (proj1 (Forall_forall _ _) Hres) as Hall. destruct (Hall _ Hin i e eq_refl) as [Hf ->].
    pose proof (com_claim _ Hc) as Hcl. rewrite Hf in Hcl.
    destruct (finish (run w)) eqn:Hfin; cbn in Hcl; [|lia].
    split_and!; [done| |done|].
    + apply published_elem, (com_err _ Hc); [lia|done].
    + intros j e' Hj. by destruct (Hall _ Hj j e' eq_refl).
Qed.

(** A goroutine inside the owner's work: in a [Do] of the owner, past an
    [Enter] it has not left, or in a function the owner named. *)
Definition in_own_work (fs : list string) (g : goroutine) (st : list frame) : Prop :=
  InLeave ∈ st \/ 0 < entered g \/ exists fn, InUser fn ∈ st /\ fn ∈ fs.

Lemma leaving_pos st : InLeave ∈ st -> 0 < sum_list_with leaving st.
Proof.
  intros [k Hk]%list_elem_of_lookup. pose proof (sum_list_with_lookup leaving _ _ _ Hk). by cbn in *.
Qed.

Lemma frames_fixed w ls w' : steps w ls = Some w' -> frames (owner w') = frames (owner w).
Proof.
  revert w; induction ls as [|l ls IH]; intros w Hst; simplify_eq/=; [done|].
  destruct (step w l) as [w1|] eqn:Hl; [|done]. rewrite (IH w1 Hst). clear -Hl.
  destruct w as [[s id fi fn er fo] o G d tr]. by destruct l; step_cases.
Qed.

Lemma own_work_nested fs o G i g f st :
  recorded (work o) G -> frames o = fs -> G !! i = Some g -> stack g = f :: st ->
  in_own_work fs g st -> Nested o i (stack g) = true.
Proof.
  intros Hr <- Hg Hs Hin. unfold Nested, Set_Contains. rewrite (Hr i), Hg. cbn [from_option].
  unfold weight, on_stack. rewrite Hs. cbn [sum_list_with]. destruct Hin as [Hl|[He|(fn & Hfn & Hf)]].
  - apply leaving_pos in Hl. apply orb_true_iff. left. apply Nat.ltb_lt. lia.
  - apply orb_true_iff. left. apply Nat.ltb_lt. lia.
  - apply orb_true_iff. right. rewrite bool_decide_eq_false_2 by (intros Hn; by rewrite Hn in Hf; apply elem_of_nil in Hf).
    cbn. apply orb_true_iff. right. apply existsb_exists. exists (InUser fn).
    split; [by apply list_elem_of_In|by apply bool_decide_eq_true_2].
Qed.

(** a stop called back from the work it would wait for never waits and
    changes nothing: whatever the other goroutines do, its next two steps
    return, with the run's result when it has finished and with
    [ErrStopFromOwnWork] otherwise, and leave the run as it was. *)
Theorem stop_from_own_work_returns n fs ls w i g ctx wk force st :
  steps (start n fs) ls = Some w -> (Z.of_nat (length ls) < 2 ^ 62)%Z ->
  gs w !! i = Some g -> stack g = InStop ctx wk force :: st -> in_own_work fs g st ->
  exists w1 w2, lib_step w i false = Some w1 /\ lib_step w1 i false = Some w2 /\
    run w2 = run w /\ owner w2 = owner w /\ length (gs w2) = length (gs w) /\
    let e := if finished (run w) then err (run w) else Some ErrStopFromOwnWork in
    gs w2 !! i = Some (mkG (Out (Returned (VErr e)) :: st) (units g) (entered g)).
Proof.
  intros Hst Hn Hg Hs Hin. destruct (reachable_sound _ _ _ _ Hst Hn) as (_ & _ & _ & Hr).
  pose proof (frames_fixed _ _ _ Hst) as Hf. cbn in Hf.
  pose proof (own_work_nested fs _ _ _ _ _ _ Hr Hf Hg Hs Hin) as Hnest.
  pose proof (lookup_lt_Some _ _ _ Hg) as Hlt.
  eexists (goto w i g (InStopNested :: st)), _. unfold lib_step. rewrite Hg. cbn -[Nested goto].
  rewrite Hs. split; [unfold Stop; by rewrite Hnest|]. split.
  { unfold goto, set_g at 1. cbn. rewrite list_lookup_insert_eq by done. done. }
  unfold Stop_nested, result_of_run. cbn. destruct (finished (run w)); cbn;
    by rewrite !length_insert, list_lookup_insert_eq by (rewrite length_insert; done).
Qed.

(** ** Witnesses *)

(** A unit is out when the stop begins; the stop's context ends first and the
    run is forced; the unit is released, the work returns, and a second stop
    gets its result. *)
Definition demo : list label :=
  [User 0 AAdmit; Lib 0 false; Lib 0 false; Lib 0 false;
   User 1 (AStop (Some 7) (Some "work") (Some "kill")); Lib 1 false; Lib 1 false; Lib 1 false;
   Lib 1 false; Lib 1 false; CtxDone 7; Lib 1 true; Lib 1 false; Lib 1 false; Lib 1 false; Lib 1 false;
   Lib 2 false; User 0 ARelease; Lib 0 false; Lib 0 false;
   User 2 (AReturn (Some (UserError 3))); Lib 2 false; Lib 2 false; Lib 2 false; Lib 2 false; Lib 2 false;
   User 1 (AStop None (Some "work") None); Lib 1 false; Lib 1 false; Lib 1 false;
   Lib 1 false; Lib 1 false; Lib 1 false].

Definition demo_end : world := default (start 0 []) (steps (start 2 []) demo).

Lemma demo_runs : steps (start 2 []) demo = Some demo_end.
Proof. vm_compute. reflexivity. Qed.

Lemma demo_short : (Z.of_nat (length demo) < 2 ^ 62)%Z.
Proof. vm_compute. reflexivity. Qed.

Lemma idle_exactly_when_drained_witness :
  idle (run demo_end) = true /\ Stopping (run demo_end) = true /\ total units demo_end = 0.
Proof.
  assert (Hid : idle (run demo_end) = true) by (vm_compute; reflexivity).
  split; [exact Hid|].
  exact (proj1 (idle_exactly_when_drained 2 [] demo demo_end demo_runs demo_short) Hid).
Defined.

Lemma stops_share_one_result_witness :
  EResult 1 (Some (UserError 3)) ∈ trace demo_end /\
  (forall j e', EResult j e' ∈ trace demo_end -> e' = Some (UserError 3)).
Proof.
  assert (Hin : EResult 1 (Some (UserError 3)) ∈ trace demo_end) by (vm_compute; left).
  split; [exact Hin|].
  destruct (stops_share_one_result 2 [] demo demo_end demo_runs demo_short) as (_ & _ & _ & Hres).
  apply (Hres 1 (Some (UserError 3)) Hin).
Defined.

(** The work of a stop that calls the stop again. *)
Definition nested_demo : list label :=
  [User 0 (AStop None (Some "work") None); Lib 0 false; Lib 0 false; Lib 0 false; Lib 0 false;
   Lib 0 false; Lib 0 false; Lib 1 false; User 1 (AStop None None None)].
Definition nested_end : world := default (start 0 []) (steps (start 1 []) nested_demo).

Lemma stop_from_own_work_returns_witness :
  exists w1 w2, lib_step nested_end 1 false = Some w1 /\ lib_step w1 1 false = Some w2 /\
    run w2 = run nested_end.
Proof.
  destruct (stop_from_own_work_returns 1 [] nested_demo nested_end 1
    (mkG [InStop None None None; InUser "work"; InContained; InThenFinish; InLeave] 0 0)
    None None None [InUser "work"; InContained; InThenFinish; InLeave])
    as (w1 & w2 & H1 & H2 & Hr & _).
  1-4: vm_compute; reflexivity.
  - left. do 3 right. left.
  - exists w1, w2. exact (conj H1 (conj H2 Hr)).
Defined.
