(* ===== verification/SessionGate.v ===== *)
(** * The authentication gate of a request (auth/drivers/schemes/gate.go)

    Inside the session middleware every access to the request's session runs
    under one reservation: the gate of the request's [sessionHolder].  This
    file models the holder, the operations on the gate ([take], [readTurn],
    [apply], [release], [abort]), the queue of writes behind the session save
    (session.go) and the commit that saves the session (middleware.go), for
    the calls of one request that interleave freely: reads of the signed-in
    user, operations that change the session (sign-ins, logouts, recalls), the
    commit, and the writes other middleware queue.

    A call is a state machine of its own; each step is one section under the
    holder's mutex, so steps of different calls interleave everywhere the code
    runs user code.  User code shows up as choices: what an operation does
    between its steps, the outcome of the save, where a panic unwinds.  Session
    objects are names; [half] is a ghost that is set while the session carries
    changes no operation has published.  A holder outside the middleware (the
    anchor of a standalone operation) is not modelled. *)

From S2P Require Import Prelude.

Local Open Scope nat_scope.

(** ** Data *)

Record resolvedIdentity := mkId { user : option nat; id_ok : bool; id_err : option nat }.
#[export] Instance resolvedIdentity_eq_dec : EqDecision resolvedIdentity.
Proof. solve_decision. Defined.
Definition signedOut : resolvedIdentity := mkId None false None.

(** [afterSaveWrite]: a write queued behind the save, by a name; whether it
    has an undo and a settle step, the transition it is bound to. *)
Record afterSaveWrite := mkWrite {
  write : nat;
  undo : bool;
  settle : bool;
  w_transition : nat;
  sessionBound : bool
}.

Record sessionHolder := mkHolder {
  session : option nat;
  ended : bool;
  sealed : bool;
  busy : bool;
  torn : bool;
  ident : option resolvedIdentity;
  resolving : bool;
  resolution : option nat;      (* the turn, an index into [turns] *)
  transition : nat;
  afterSave : list afterSaveWrite;
  queueClosed : bool;
  committedID : option nat
}.

(** [resolution]: one resolver's turn. *)
Record turn := mkTurn { turn_done : bool; turn_ident : option resolvedIdentity }.

Record gateOp := mkOp {
  op_h : bool;                  (* whether it holds the request's holder *)
  read : bool;
  identity : option resolvedIdentity;
  bumps : nat;
  staged : list afterSaveWrite;
  mutated : bool;
  applied : bool;
  refused : bool;
  op_ended : bool;
  endsSession : bool;
  op_fresh : option nat
}.

(** [queuedWrites]: the entries whose write, settle or undo step may run. *)
Record queuedWrites := mkQueued {
  writes : list afterSaveWrite;
  settles : list afterSaveWrite;
  undos : list afterSaveWrite
}.

(** Where the commit is. *)
Inductive commit_at :=
  | Refusing                                (* refused by [reserveCommit] *)
  | Reserved                                (* the gate is reserved *)
  | Taken (q : queuedWrites)                (* the queue is taken, the save is next *)
  | Settling (q : queuedWrites)             (* saved, the settlements are next *)
  | Delivering (ws : list afterSaveWrite)   (* the gate is free again *)
  | Finishing.                              (* delivered, or unwound while delivering *)

(** A call of the request.  An operation keeps, as ghosts, whether it is one
    that may change the session and whether the session was [half] changed
    when it reserved the gate. *)
Inductive call :=
  | Idle
  | Op (op : gateOp) (may_change found : bool)
  | Turn (usePublished : bool)
  | Waiting (t : nat) (usePublished : bool)
  | Commit (at_ : commit_at).

(** What the calls did, newest first.  [EIdentity] is an identity a read
    returned, with whether the session is the one it was resolved from and no
    operation is changing it; [EShared] one that a waiting read shares with
    the resolver it waited for; [ESave] a successful save, with whether the
    session was whole and every write about to follow it current. *)
Inductive event :=
  | EIdentity (id : resolvedIdentity) (current : bool)
  | EShared (id : resolvedIdentity)
  | EInProgress
  | ESave (whole current : bool)
  | EUndo (n : nat) | ESettle (n : nat) | EWrite (n : nat).

(** The state of the request.  Ghosts: [half], the session carries changes no
    operation published; [version], how often it was changed, and
    [ident_version], the version the published identity was resolved from;
    [next], the name of the next write. *)
Record world := mkW {
  hold : sessionHolder;
  commitClaimed : bool;
  turns : list turn;
  calls : list call;
  half : bool;
  version : nat;
  ident_version : nat;
  next : nat;
  log : list event
}.

(** ** Field updates *)

Definition eta_holder (h : sessionHolder) : sessionHolder :=
  mkHolder (session h) (ended h) (sealed h) (busy h) (torn h) (ident h) (resolving h) (resolution h)
    (transition h) (afterSave h) (queueClosed h) (committedID h).
Definition set_session : option nat -> sessionHolder -> sessionHolder := ltac:(set_field eta_holder session).
Definition set_ended : bool -> sessionHolder -> sessionHolder := ltac:(set_field eta_holder ended).
Definition set_sealed : bool -> sessionHolder -> sessionHolder := ltac:(set_field eta_holder sealed).
Definition set_busy : bool -> sessionHolder -> sessionHolder := ltac:(set_field eta_holder busy).
Definition set_torn : bool -> sessionHolder -> sessionHolder := ltac:(set_field eta_holder torn).
Definition set_ident : option resolvedIdentity -> sessionHolder -> sessionHolder := ltac:(set_field eta_holder ident).
Definition set_resolving : bool -> sessionHolder -> sessionHolder := ltac:(set_field eta_holder resolving).
Definition set_resolution : option nat -> sessionHolder -> sessionHolder := ltac:(set_field eta_holder resolution).
Definition set_transition : nat -> sessionHolder -> sessionHolder := ltac:(set_field eta_holder transition).
Definition set_afterSave : list afterSaveWrite -> sessionHolder -> sessionHolder := ltac:(set_field eta_holder afterSave).
Definition set_queueClosed : bool -> sessionHolder -> sessionHolder := ltac:(set_field eta_holder queueClosed).
Definition setCommittedID : option nat -> sessionHolder -> sessionHolder := ltac:(set_field eta_holder committedID).

Definition eta_op (o : gateOp) : gateOp :=
  mkOp (op_h o) (read o) (identity o) (bumps o) (staged o) (mutated o) (applied o) (refused o)
    (op_ended o) (endsSession o) (op_fresh o).
Definition set_identity : option resolvedIdentity -> gateOp -> gateOp := ltac:(set_field eta_op identity).
Definition set_bumps : nat -> gateOp -> gateOp := ltac:(set_field eta_op bumps).
Definition set_staged : list afterSaveWrite -> gateOp -> gateOp := ltac:(set_field eta_op staged).
Definition set_mutated : bool -> gateOp -> gateOp := ltac:(set_field eta_op mutated).
Definition set_applied : bool -> gateOp -> gateOp := ltac:(set_field eta_op applied).
Definition set_refused : bool -> gateOp -> gateOp := ltac:(set_field eta_op refused).
Definition set_op_ended : bool -> gateOp -> gateOp := ltac:(set_field eta_op op_ended).
Definition set_endsSession : bool -> gateOp -> gateOp := ltac:(set_field eta_op endsSession).
Definition set_fresh : option nat -> gateOp -> gateOp := ltac:(set_field eta_op op_fresh).

(** ** The gate *)

(** [take]: [None] is [auth.ErrOperationInProgress]. *)
Definition take (h : sessionHolder) : option sessionHolder :=
  if busy h then None else Some (set_ident None (set_busy true h)).

Definition no_op : gateOp := mkOp false false None 0 [] false false false false false None.
Definition new_op (is_read : bool) : gateOp := mkOp true is_read None 0 [] false false false false false None.

Definition reserve (h : sessionHolder) : option (sessionHolder * gateOp) :=
  h' ← take h; Some (h', new_op false).

(** One round of [readTurn], with [onResolvePath] as [on_path]; [fresh_turn]
    names the new resolution. *)
Inductive turn_result :=
  | Published (id : resolvedIdentity)
  | InProgress
  | WaitFor (t : option nat)
  | Resolve (h : sessionHolder) (op : gateOp).

Definition readTurn (h : sessionHolder) (usePublished on_path : bool) (fresh_turn : nat) : turn_result :=
  match usePublished, torn h, ident h with
  | true, true, _ => Published signedOut
  | _, _, i =>
      match usePublished, i, negb (busy h && negb (resolving h)) with
      | true, Some id, true => Published id
      | _, _, _ =>
          if busy h && negb (resolving h) then InProgress
          else if busy h then (if on_path then InProgress else WaitFor (resolution h))
          else Resolve (set_resolution (Some fresh_turn) (set_resolving true (set_busy true h))) (new_op true)
      end
  end.

(** [published]: what a read returns without taking its turn. *)
Definition published (h : sessionHolder) : option (option resolvedIdentity) :=
  if torn h then Some (Some signedOut)
  else if busy h && negb (resolving h) then Some None
  else match ident h with Some id => Some (Some id) | None => None end.

Definition reserveCommit (h : sessionHolder) : sessionHolder * bool :=
  let h := set_sealed true h in
  if busy h then (h, false)
  else if torn h then (h, false)
  else (set_ident None (set_busy true h), true).

Definition releaseGate (h : sessionHolder) : sessionHolder := set_busy false h.

(** ** The queue behind the save *)

Definition queueAfterSave (h : sessionHolder) (n : nat) (bound : bool) : sessionHolder * bool :=
  if queueClosed h then (h, false)
  else (set_afterSave (afterSave h ++ [mkWrite n false false (if bound then transition h else 0) bound]) h, true).

Definition superseded (tr : nat) (e : afterSaveWrite) : bool :=
  (negb (w_transition e =? 0) || sessionBound e) && negb (w_transition e =? tr).

Definition takeAfterSave (h : sessionHolder) (sessionEnded : bool) : sessionHolder * queuedWrites :=
  let kept := if sessionEnded then [] else filter (fun e => superseded (transition h) e = false) (afterSave h) in
  (set_afterSave [] (if sessionEnded then set_queueClosed true h else h),
   mkQueued kept (filter (fun e => settle e = true) kept) (filter (fun e => undo e = true) (afterSave h))).

Definition takeDeliveredLate (h : sessionHolder) : sessionHolder * list afterSaveWrite :=
  match afterSave h with
  | [] => (set_queueClosed true h, [])
  | es => (set_afterSave [] h, es)
  end.

Definition closeQueue (h : sessionHolder) : sessionHolder :=
  set_afterSave [] (set_queueClosed true h).

(** ** The operations of a reservation *)

Definition set_hold (h : sessionHolder) (w : world) : world :=
  mkW h (commitClaimed w) (turns w) (calls w) (half w) (version w) (ident_version w) (next w) (log w).
Definition set_call (i : nat) (c : call) (w : world) : world :=
  mkW (hold w) (commitClaimed w) (turns w) (<[i := c]> (calls w)) (half w) (version w)
    (ident_version w) (next w) (log w).
Definition set_half (b : bool) (w : world) : world :=
  mkW (hold w) (commitClaimed w) (turns w) (calls w) b (version w) (ident_version w) (next w) (log w).
Definition logs (es : list event) (w : world) : world :=
  mkW (hold w) (commitClaimed w) (turns w) (calls w) (half w) (version w) (ident_version w) (next w)
    (rev es ++ log w).

(** The undo steps of the entries that have one. *)
Definition run_undos (es : list afterSaveWrite) : list event :=
  (fun e => EUndo (write e)) <$> filter (fun e => undo e = true) es.

Definition set_turn_ident (t : option nat) (i : option resolvedIdentity) (ts : list turn) : list turn :=
  match t with Some t => alter (fun x => mkTurn (turn_done x) i) t ts | None => ts end.
Definition close_turn (t : option nat) (ts : list turn) : list turn :=
  match t with Some t => alter (fun x => mkTurn true (turn_ident x)) t ts | None => ts end.

(** Publishes [i] as the request's identity and as the outcome of the turn. *)
Definition publish_identity (i : resolvedIdentity) (w : world) : world :=
  mkW (set_ident (Some i) (hold w)) (commitClaimed w)
    (set_turn_ident (resolution (hold w)) (Some i) (turns w)) (calls w) (half w)
    (version w) (version w) (next w) (log w).

(** [apply]: [found] is the ghost of the call. *)
Definition apply (w : world) (op : gateOp) (found refuseSealed : bool) : world * gateOp :=
  if negb (op_h op) then (w, op)
  else if applied op || op_ended op then (w, op)
  else
    let op := set_applied true op in
    let h := hold w in
    if refuseSealed && sealed h then
      let w := if read op then publish_identity signedOut w else w in
      (logs (run_undos (staged op)) w, set_refused true op)
    else
      let h := set_transition (transition h + bumps op) h in
      let h := set_afterSave (afterSave h ++ staged op) h in
      let h := if endsSession op then set_ended true h else h in
      let h := match op_fresh op with Some s => set_ended false (set_session (Some s) h) | None => h end in
      let h := if 0 <? bumps op then set_torn false h else h in
      let w := set_half (if 0 <? bumps op then false else found) (set_hold h w) in
      (match identity op with Some i => publish_identity i w | None => w end, op).

Definition freeLocked (w : world) (op : gateOp) : world :=
  let h := set_busy false (hold w) in
  if read op then
    mkW (set_resolution None (set_resolving false h)) (commitClaimed w)
      (close_turn (resolution h) (turns w)) (calls w) (half w) (version w) (ident_version w) (next w) (log w)
  else set_hold h w.

Definition release (w : world) (op : gateOp) : world * gateOp :=
  if negb (op_h op) || op_ended op then (w, op)
  else (freeLocked w op, set_op_ended true op).

Definition publish (w : world) (op : gateOp) (found refuseSealed : bool) : world * gateOp :=
  let '(w, op) := apply w op found refuseSealed in release w op.

Definition abort (w : world) (op : gateOp) : world * gateOp :=
  if negb (op_h op) || op_ended op then (w, op)
  else if applied op then release w op
  else
    let h := hold w in
    let h := if mutated op then set_torn true h else h in
    let h := set_ident None h in
    (logs (run_undos (staged op)) (freeLocked (set_hold h w) op), set_op_ended true op).

Definition beginMutation (op : gateOp) : gateOp := set_mutated true op.
Definition beginTransition (op : gateOp) : gateOp := set_bumps (S (bumps op)) (set_mutated true op).

Definition queueCredentialWrite (h : sessionHolder) (op : gateOp) (n : nat) (u s : bool) : gateOp :=
  if op_h op
  then set_staged (staged op ++ [mkWrite n u s (transition h + bumps op) false]) op
  else op.

(** ** Steps *)

Inductive act :=
  | AReserve
  | ARead (usePublished : bool) | ATurn (on_path : bool) | AWake | ACtxEnd
  | AMutation | ATransition | ATouch
  | ACredential (u s : bool)
  | AIdentity (i : resolvedIdentity)
  | AEndsSession | AFresh (s : option nat)
  | AApply (refuseSealed : bool) | ARelease | AEnd
  | AQueue (bound : bool) | ALoad (s : nat)
  | ACommit | ARefuse | ATake (deleted : bool)
  | ASave | ASaveFail | ASavePanic
  | ASettle | ASettlePanic (k : nat) (deleted : bool)
  | ADeliver | ADeliverPanic | AFinish (deleted : bool).

(** The ghost bits of the events. *)
Definition changing (c : call) : bool :=
  match c with Op op _ _ => op_h op && negb (op_ended op) && negb (read op) | _ => false end.
Definition is_current (w : world) : bool :=
  (ident_version w =? version w) && negb (existsb changing (calls w)).

(** A change of the session object by user code. *)
Definition touch (w : world) : world :=
  mkW (hold w) (commitClaimed w) (turns w) (calls w) true (S (version w)) (ident_version w) (next w) (log w).

(** A read of the signed-in user: what is published, then its turn. *)
Definition read_step (w : world) (i : nat) (a : act) (c : call) : option world :=
  match c, a with
  | Idle, ARead true =>
      match published (hold w) with
      | Some (Some id) => Some (logs [EIdentity id (is_current w)] w)
      | Some None => Some (logs [EInProgress] w)
      | None => Some (set_call i (Turn true) w)
      end
  | Idle, ARead false => Some (set_call i (Turn false) w)
  | Turn u, ATurn on_path =>
      match readTurn (hold w) u on_path (length (turns w)) with
      | Published id => Some (logs [EIdentity id (is_current w)] (set_call i Idle w))
      | InProgress => Some (logs [EInProgress] (set_call i Idle w))
      | WaitFor (Some t) => Some (set_call i (Waiting t u) w)
      | WaitFor None => None
      | Resolve h op =>
          let w := set_call i (Op op u (half w)) (set_hold h w) in
          Some (mkW (hold w) (commitClaimed w) (turns w ++ [mkTurn false None]) (calls w) (half w)
                  (version w) (ident_version w) (next w) (log w))
      end
  | Waiting t u, AWake =>
      tn ← turns w !! t;
      if turn_done tn then
        match u, turn_ident tn with
        | true, Some id => Some (logs [EShared id] (set_call i Idle w))
        | _, _ => Some (set_call i (Turn u) w)
        end
      else None
  | Waiting _ _, ACtxEnd => Some (logs [EInProgress] (set_call i Idle w))
  | _, _ => None
  end.

(** An operation between its reservation and its end.  The guards are the
    order the operations of session.go keep: only a read of the user sets an
    identity, credentials are queued after the transition began and before
    the state is applied, a refusal is asked for whenever one is staged. *)
Definition op_step (w : world) (i : nat) (a : act) (c : call) : option world :=
  match c, a with
  | Idle, AReserve =>
      match reserve (hold w) with
      | Some (h, op) => Some (set_call i (Op op true (half w)) (set_hold h w))
      | None => Some (logs [EInProgress] w)
      end
  | Op op mc f, AMutation => if mc then Some (set_call i (Op (beginMutation op) mc f) w) else None
  | Op op mc f, ATransition =>
      if mc && negb (applied op) then Some (set_call i (Op (beginTransition op) mc f) w) else None
  | Op op mc f, ATouch =>
      if mc && op_h op && mutated op && negb (op_ended op) && (negb (applied op) || refused op)
      then Some (touch w) else None
  | Op op mc f, ACredential u s =>
      if mutated op && negb (applied op) && negb (op_ended op) then
        let w := set_call i (Op (queueCredentialWrite (hold w) op (next w) u s) mc f) w in
        Some (mkW (hold w) (commitClaimed w) (turns w) (calls w) (half w) (version w) (ident_version w)
                (S (next w)) (log w))
      else None
  | Op op mc f, AIdentity id =>
      if read op && mc && negb (applied op) then Some (set_call i (Op (set_identity (Some id) op) mc f) w) else None
  | Op op mc f, AEndsSession =>
      if mc && negb (applied op) then Some (set_call i (Op (set_endsSession true op) mc f) w) else None
  | Op op mc f, AFresh s =>
      if mc && negb (applied op) then Some (set_call i (Op (set_fresh s op) mc f) w) else None
  | Op op mc f, AApply refuseSealed =>
      if negb (applied op) && (refuseSealed || bool_decide (staged op = [])) then
        let '(w', op') := apply w op f refuseSealed in Some (set_call i (Op op' mc f) w')
      else None
  | Op op mc f, ARelease =>
      if applied op then let '(w', op') := release w op in Some (set_call i (Op op' mc f) w') else None
  | Op op mc f, AEnd => let '(w', _) := abort w op in Some (set_call i Idle w')
  | _, _ => None
  end.

(** The commit of the session middleware. *)
Definition commit_step (w : world) (i : nat) (a : act) (c : call) : option world :=
  let h := hold w in
  match c, a with
  | Idle, ACommit =>
      if commitClaimed w then Some w
      else
        let '(h', ok) := reserveCommit h in
        let w := set_call i (Commit (if ok then Reserved else Refusing)) (set_hold h' w) in
        Some (mkW (hold w) true (turns w) (calls w) (half w) (version w) (ident_version w) (next w) (log w))
  | Commit Refusing, ARefuse =>
      let '(h', q) := takeAfterSave h true in
      Some (logs (run_undos (undos q)) (set_call i Idle (set_hold (closeQueue h') w)))
  | Commit Reserved, ATake deleted =>
      match session h with
      | None =>
          let '(h', _) := takeAfterSave h true in
          Some (set_call i (Commit (Settling (mkQueued [] [] []))) (set_hold h' w))
      | Some s =>
          let e := ended h || deleted in
          let '(h', q) := takeAfterSave h e in
          Some (set_call i (Commit (Taken q)) (set_hold (if e then h' else setCommittedID (Some s) h') w))
      end
  | Commit (Taken q), ASave =>
      Some (logs [ESave (negb (half w)) (forallb (fun e => negb (superseded (transition h) e)) (writes q))]
              (set_call i (Commit (Settling q)) w))
  | Commit (Taken q), ASaveFail =>
      Some (logs (run_undos (undos q)) (set_call i Idle (set_hold (releaseGate (closeQueue h)) w)))
  | Commit (Taken q), ASavePanic => Some (set_call i Idle (set_hold (releaseGate (closeQueue h)) w))
  | Commit (Settling q), ASettle =>
      Some (logs ((fun e => ESettle (write e)) <$> settles q)
              (set_call i (Commit (Delivering (writes q))) (set_hold (releaseGate h) w)))
  | Commit (Settling q), ASettlePanic k deleted =>
      let w' := match committedID h with Some _ => if deleted then touch w else w | None => w end in
      let h' := match committedID h with Some _ => if deleted then setCommittedID None h else h | None => h end in
      Some (logs ((fun e => ESettle (write e)) <$> list.take k (settles q))
              (set_call i Idle (set_hold (releaseGate (closeQueue h')) w')))
  | Commit (Delivering (e :: ws)), ADeliver =>
      Some (logs [EWrite (write e)] (set_call i (Commit (Delivering ws)) w))
  | Commit (Delivering []), ADeliver =>
      let '(h', late) := takeDeliveredLate h in
      Some (set_call i (Commit (if late then Finishing else Delivering late)) (set_hold h' w))
  | Commit (Delivering _), ADeliverPanic => Some (set_call i (Commit Finishing) w)
  | Commit Finishing, AFinish deleted =>
      let h := closeQueue h in
      match committedID h with
      | Some _ =>
          if deleted then
            let h := setCommittedID None h in
            match reserve h with
            | Some (h', op) => Some (set_call i (Op op true (half w)) (set_hold h' w))
            | None => Some (set_call i Idle (set_hold h w))
            end
          else Some (set_call i Idle (set_hold h w))
      | None => Some (set_call i Idle (set_hold h w))
      end
  | _, _ => None
  end.

(** What other middleware does to the holder. *)
Definition other_step (w : world) (a : act) (c : call) : option world :=
  match c, a with
  | Idle, AQueue bound =>
      let '(h', ok) := queueAfterSave (hold w) (next w) bound in
      let w := set_hold h' w in
      Some (mkW (hold w) (commitClaimed w) (turns w) (calls w) (half w) (version w) (ident_version w)
              (S (next w)) (log w))
  | Idle, ALoad s =>
      match session (hold w) with
      | None => Some (set_hold (set_session (Some s) (hold w)) w)
      | Some _ => Some w
      end
  | _, _ => None
  end.

Definition step (w : world) (i : nat) (a : act) : option world :=
  c ← calls w !! i;
  match read_step w i a c with
  | Some w' => Some w'
  | None =>
      match op_step w i a c with
      | Some w' => Some w'
      | None => match commit_step w i a c with Some w' => Some w' | None => other_step w a c end
      end
  end.

Fixpoint steps (w : world) (ls : list (nat * act)) : option world :=
  match ls with
  | [] => Some w
  | (i, a) :: ls => w' ← step w i a; steps w' ls
  end.

Definition start (n : nat) : world :=
  mkW (mkHolder None false false false false None false None 0 [] false None) false []
    (replicate n Idle) false 0 0 0 [].
