(* ===== verification/SessionGateSpec.v ===== *)
(** * What the gate promises (auth/drivers/schemes/gate.go)

    Invariants of SessionGate.v's interleavings, by induction on the steps:
    one call holds the gate and the holder's flags say so; the commit saves a
    session only when no operation is halfway through changing it.  The sums
    over the calls turn each invariant into linear arithmetic. *)

From S2P Require Import Prelude SessionGate.

Local Open Scope nat_scope.
Local Open Scope list_scope.

(** ** Measures of the calls *)

Definition total (f : call -> nat) (w : world) : nat := sum_list_with f (calls w).

Definition holding (op : gateOp) : bool := op_h op && negb (op_ended op).
Definition holds (c : call) : nat :=
  match c with
  | Op op _ _ => Nat.b2n (holding op)
  | Commit (Reserved | Taken _ | Settling _) => 1
  | _ => 0
  end.
Definition resolves (c : call) : nat :=
  match c with Op op _ _ => Nat.b2n (holding op && read op) | _ => 0 end.
Definition commits (c : call) : nat :=
  match c with Commit (Reserved | Taken _ | Settling _) => 1 | _ => 0 end.

(** The cases of a step. *)
Lemma step_cases w i a w' :
  step w i a = Some w' -> exists c, calls w !! i = Some c /\
    (read_step w i a c = Some w' \/ op_step w i a c = Some w' \/
     commit_step w i a c = Some w' \/ other_step w a c = Some w').
Proof.
  unfold step. intros Hst. destruct (calls w !! i) as [c|] eqn:Hc; [|done]. cbn in Hst.
  exists c. split; [done|]. repeat case_match; simplify_eq; auto.
Qed.

Ltac unfold_ops :=
  unfold abort, apply, release, freeLocked, reserve, take, readTurn, reserveCommit, takeAfterSave,
    takeDeliveredLate, queueAfterSave, publish_identity, beginMutation, beginTransition,
    queueCredentialWrite, closeQueue, releaseGate, touch in *.

Ltac fields :=
  cbn [hold commitClaimed turns calls half version ident_version next log
       set_hold set_call set_half logs
       session ended sealed busy torn ident resolving resolution transition afterSave queueClosed committedID
       set_session set_ended set_sealed set_busy set_torn set_ident set_resolving set_resolution
       set_transition set_afterSave set_queueClosed setCommittedID
       op_h read identity bumps staged mutated applied refused op_ended endsSession op_fresh
       set_identity set_bumps set_staged set_mutated set_applied set_refused set_op_ended set_endsSession set_fresh
       writes settles undos new_op no_op] in *.

Ltac explore :=
  unfold read_step, op_step, commit_step, other_step in *;
  repeat case_match; simplify_option_eq; unfold_ops; fields; repeat case_match; simplify_option_eq; fields.

(** The tests of a step taken apart, then case analysis on the flags of the
    operation a goal still mentions. *)
Ltac tests :=
  unfold holding in *; fields;
  repeat match goal with
  | H : _ && _ = true |- _ => apply andb_true_iff in H as [? ?]
  | H : _ || _ = false |- _ => apply orb_false_iff in H as [? ?]
  | H : negb _ = true |- _ => apply negb_true_iff in H
  | H : negb _ = false |- _ => apply negb_false_iff in H
  end;
  repeat match goal with
  | H : ?f ?o = ?b |- _ =>
      is_var o; lazymatch type of o with gateOp => lazymatch type of b with bool => rewrite H in *; clear H end end
  end.
Ltac flag b := lazymatch b with true => fail | false => fail | _ => destruct b eqn:? end.
Ltac flags :=
  tests; cbn [Nat.b2n negb andb orb] in *; simplify_eq;
  repeat match goal with
  | |- context [op_h ?o] => flag (op_h o)
  | |- context [op_ended ?o] => flag (op_ended o)
  | |- context [read ?o] => flag (read o)
  | |- context [applied ?o] => flag (applied o)
  | |- context [mutated ?o] => flag (mutated o)
  | |- context [refused ?o] => flag (refused o)
  | _ : context [Nat.b2n ?b] |- _ => is_var b; destruct b
  | |- context [Nat.b2n ?b] => is_var b; destruct b
  end; cbn [Nat.b2n negb andb orb] in *; simplify_eq.

Lemma resolves_le w : total resolves w <= total holds w.
Proof.
  apply sum_list_with_le. intros []; cbn; try lia. destruct (holding op), (read op); cbn; lia.
Qed.

(** The gate is held by one call at most, and the holder's flags say so. *)
Record gated (w : world) : Prop := {
  g_busy : Nat.b2n (busy (hold w)) = total holds w;
  g_resolving : Nat.b2n (resolving (hold w)) = total resolves w;
  g_turn : resolving (hold w) = true -> is_Some (resolution (hold w))
}.

Lemma gated_step w i a w' : gated w -> step w i a = Some w' -> gated w'.
Proof.
  intros [Hb Hr Ht] (c & Hc & Hst)%step_cases. pose proof (resolves_le w). unfold total in *.
  destruct w as [h cc ts cs hf v iv nx lg]. destruct h as [se en sl bu to id re rs tr q qc cid]. fields.
  destruct Hst as [Hst|[Hst|[Hst|Hst]]]; destruct a; try done; explore.
  all: tally holds; tally resolves.
  all: split; unfold total; fields; try done; tally_step; cbn [holds resolves] in *; try done; try lia.
  all: flags; done || lia.
Qed.

(** ** What the commit saves *)

Definition opholds (c : call) : nat := match c with Op op _ _ => Nat.b2n (holding op) | _ => 0 end.
Definition dirty (c : call) : nat :=
  match c with Op op _ _ => Nat.b2n (holding op && mutated op && negb (applied op)) | _ => 0 end.
Definition found_half (c : call) : nat :=
  match c with Op op _ f => Nat.b2n (holding op && negb (applied op) && f) | _ => 0 end.
Definition was_refused (c : call) : nat :=
  match c with Op op _ _ => Nat.b2n (holding op && refused op) | _ => 0 end.
Definition unsaved (c : call) : nat := match c with Commit (Reserved | Taken _) => 1 | _ => 0 end.
Definition stale (tr : nat) (c : call) : nat :=
  match c with
  | Commit (Taken q) => Nat.b2n (negb (forallb (fun e => negb (superseded tr e)) (writes q)))
  | _ => 0
  end.
Definition events (p : event -> bool) (lg : list event) : nat := sum_list_with (fun e => Nat.b2n (p e)) lg.
Definition is_save (e : event) : bool := match e with ESave _ _ => true | _ => false end.

Lemma holds_split w : total holds w = total commits w + total opholds w.
Proof.
  unfold total. induction (calls w) as [|c cs IH]; cbn; [done|]. rewrite IH.
  destruct c as [|?| | |[]]; cbn; lia.
Qed.
Lemma dirty_le c : dirty c <= opholds c.
Proof. destruct c; cbn; try lia. destruct (holding op), (mutated op), (applied op); cbn; lia. Qed.
Lemma found_le c : found_half c <= opholds c.
Proof. destruct c; cbn; try lia. destruct (holding op), (applied op), found; cbn; lia. Qed.
Lemma refused_le c : was_refused c <= opholds c.
Proof. destruct c; cbn; try lia. destruct (holding op), (refused op); cbn; lia. Qed.
Lemma stale_le tr w : total (stale tr) w <= total commits w.
Proof. apply sum_list_with_le. intros [| | | |[]]; cbn; try lia. destruct (forallb _ _); cbn; lia. Qed.
Lemma unsaved_le w : total unsaved w <= total commits w.
Proof. apply sum_list_with_le. intros [| | | |[]]; cbn; lia. Qed.

(** The queue the commit takes holds no superseded write. *)
Lemma taken_current tr es :
  forallb (fun e => negb (superseded tr e)) (filter (fun e => superseded tr e = false) es) = true.
Proof.
  apply forallb_forall. intros e He%list_elem_of_In%list_elem_of_filter. by rewrite (proj1 He).
Qed.

Definition bad_save (e : event) : bool := match e with ESave b c => negb (b && c) | _ => false end.

Lemma events_app p l1 l2 : events p (l1 ++ l2) = events p l1 + events p l2.
Proof. apply sum_list_with_app. Qed.
Lemma events_rev p l : events p (rev l) = events p l.
Proof.
  induction l as [|e l IH]; [done|]. cbn [rev]. rewrite events_app, IH. unfold events. cbn. lia.
Qed.
Lemma no_events p l : (forall e, e ∈ l -> p e = false) -> events p l = 0.
Proof.
  unfold events. induction l as [|e l IH]; cbn; [done|]. intros H. rewrite (H e), IH by set_solver. done.
Qed.
Lemma events_undos p es : (forall n, p (EUndo n) = false) -> events p (run_undos es) = 0.
Proof. intros H. apply no_events. intros e He. unfold run_undos in He. set_solver. Qed.
Lemma events_settles p es :
  (forall n, p (ESettle n) = false) -> events p ((fun e => ESettle (write e)) <$> es) = 0.
Proof. intros H. apply no_events. intros e He. set_solver. Qed.

(** In arithmetic: a session that is half changed belongs to a torn or sealed
    request or to an operation that holds the gate and began changing it; the
    commit finds it whole. *)
Record saving (w : world) : Prop := {
  s_claim : sealed (hold w) = commitClaimed w;
  s_saves : events is_save (log w) + total unsaved w <= Nat.b2n (commitClaimed w);
  s_half : Nat.b2n (half w) <= Nat.b2n (torn (hold w)) + Nat.b2n (sealed (hold w)) + total dirty w;
  s_commit : Nat.b2n (half w) + total commits w <= 1;
  s_sealed : total commits w <= Nat.b2n (sealed (hold w));
  s_found : total found_half w <= Nat.b2n (torn (hold w)) + Nat.b2n (sealed (hold w));
  s_refused : total was_refused w <= Nat.b2n (sealed (hold w));
  s_current : total (stale (transition (hold w))) w = 0;
  s_log : events bad_save (log w) = 0
}.

Lemma b2n_le b : Nat.b2n b <= 1.
Proof. destruct b; cbn; lia. Qed.

(** The call that holds the gate is the only one the measures of the holder
    count. *)
Lemma only_holder f w i c :
  (forall c, f c <= opholds c) -> total opholds w <= 1 -> calls w !! i = Some c -> opholds c = 1 ->
  total f w = f c.
Proof. intros Hf Hw Hc H1. apply (sum_list_with_single f opholds _ i c); [done| |done]. unfold total in Hw. lia. Qed.

Ltac settle_sums :=
  unfold total; fields; rewrite ?events_app, ?events_rev; tally_step;
  cbn [holds commits opholds dirty found_half was_refused unsaved stale is_save Nat.b2n] in *;
  rewrite ?Nat.sub_0_r, ?Nat.add_0_r; try assumption.

(** One call holds the gate, so it is all there is of a smaller measure. *)
Lemma holder_only f w i c :
  (forall c, f c <= opholds c) -> gated w -> calls w !! i = Some c -> opholds c = 1 -> total f w = f c.
Proof.
  intros Hf [Hb _ _] Hc H1. pose proof (holds_split w) as Hsp. pose proof (b2n_le (busy (hold w))) as Hle.
  apply (only_holder f w i c); [done|lia|done|done].
Qed.

(** What the sums of [saving] are while the call [c] holds the gate. *)
Lemma holder_alone w i c :
  gated w -> calls w !! i = Some c -> opholds c = 1 ->
  total dirty w = dirty c /\ total found_half w = found_half c /\ total was_refused w = was_refused c /\
  total commits w = 0 /\ total unsaved w = 0 /\ (forall tr, total (stale tr) w = 0).
Proof.
  intros [Hb _ _] Hc H1. pose proof (holds_split w) as Hsp. pose proof (b2n_le (busy (hold w))) as Hle.
  assert (Hone : total opholds w <= 1) by lia.
  assert (Hpos : 1 <= total opholds w).
  { rewrite <- H1. by apply (sum_list_with_lookup opholds _ i). }
  rewrite (only_holder dirty w i c dirty_le Hone Hc H1), (only_holder found_half w i c found_le Hone Hc H1),
    (only_holder was_refused w i c refused_le Hone Hc H1).
  split_and!; try done; [lia|pose proof (unsaved_le w); lia|]. intros tr. pose proof (stale_le tr w). lia.
Qed.

Ltac split_flags :=
  repeat match goal with
  | |- context [Nat.b2n ?b] => is_var b; destruct b
  | _ : context [Nat.b2n ?b] |- _ => is_var b; destruct b
  end; cbn [Nat.b2n] in *.

(** The steps that are not between a reservation and its end. *)
Definition outside_op (w : world) (i : nat) (a : act) (c : call) (w' : world) : Prop :=
  read_step w i a c = Some w' \/ commit_step w i a c = Some w' \/ other_step w a c = Some w' \/
  (c = Idle /\ op_step w i a Idle = Some w').

Lemma step_kinds w i a w' :
  step w i a = Some w' -> exists c, calls w !! i = Some c /\
    (outside_op w i a c w' \/ exists op mc f, c = Op op mc f /\ op_step w i a c = Some w').
Proof.
  intros (c & Hc & Hst)%step_cases. exists c. split; [done|]. unfold outside_op.
  destruct Hst as [?|[Hst|[?|?]]]; auto. destruct c; try done; [|by right; eauto 6]. auto 6.
Qed.

Lemma saving_other w i a c w' :
  gated w -> saving w -> calls w !! i = Some c ->
  outside_op w i a c w' -> saving w'.
Proof.
  intros [Hb _ _] [Hcl Hsv Hhf Hco Hse Hfo Hre Hcu Hlg] Hc Hst.
  pose proof (holds_split w) as Hsp. pose proof (b2n_le (busy (hold w))) as H1.
  pose proof (sum_list_with_le _ _ (calls w) dirty_le). pose proof (sum_list_with_le _ _ (calls w) found_le).
  pose proof (sum_list_with_le _ _ (calls w) refused_le). unfold total in *.
  destruct w as [h cc ts cs hf v iv nx lg]. destruct h as [se en sl bu to id re rs tr q qc cid]. fields. subst sl.
  destruct Hst as [Hst|[Hst|[Hst|[-> Hst]]]]; destruct a; try done; explore.
  all: split; settle_sums; try done.
  all: rewrite ?events_undos, ?events_settles, ?taken_current by done; rewrite ?Nat.add_0_l; try assumption.
  all: tally commits; tally unsaved; tally (stale tr);
    cbn [holds commits opholds dirty found_half was_refused unsaved stale] in *; fields.
  all: rewrite ?taken_current; unfold holding in *; fields; cbn [andb negb] in *; split_flags; try lia.
  all: unfold events in *; cbn in *; destruct (forallb _ _); cbn in *; lia.
Qed.

Ltac op_flags :=
  repeat match goal with
  | |- context [negb ?b] => is_var b; destruct b
  | |- context [?b && _] => is_var b; destruct b
  | |- context [_ && ?b] => is_var b; destruct b
  | H : context [negb ?b] |- _ => is_var b; destruct b
  | H : context [?b && _] |- _ => is_var b; destruct b
  | H : context [_ && ?b] |- _ => is_var b; destruct b
  | H : context [?b || _] |- _ => is_var b; destruct b
  end; cbn [negb andb orb] in *.

(** The steps of an operation, by what they keep. *)
Lemma saving_op w i a op mc f w' :
  gated w -> saving w -> calls w !! i = Some (Op op mc f) ->
  op_step w i a (Op op mc f) = Some w' -> saving w'.
Proof.
  intros Hg Hs Hc Hst. destruct (holding op) eqn:Hh.
  - destruct (holder_alone w i _ Hg Hc) as (Hd & Hfo & Hre & Hco & Hun & Hst'); [cbn; by rewrite Hh|].
    destruct Hs as [Hcl Hsv Hhf _ _ Hfo' Hre' _ Hlg].
    rewrite ?Hd, ?Hfo, ?Hre, ?Hco, ?Hun in *. unfold holding in Hh.
    apply andb_true_iff in Hh as [Hoh Hoe%negb_true_iff].
    destruct w as [h cc ts cs hf v iv nx lg]. destruct h as [se en sl bu to id re rs tr q qc cid].
    unfold total in *. fields. subst sl.
    destruct op as [oh rd oi bp stg mu ap rf oe es fr]. fields. subst oh oe.
    cbn [dirty found_half was_refused] in *.
    destruct a; try done; explore.
    all: split; settle_sums; try done.
    all: unfold holding; fields; rewrite ?Hd, ?Hfo, ?Hre, ?Hco, ?Hun, ?Hst', ?events_undos by done.
    all: clear Hg Hc Hd Hfo Hre Hco Hun Hst'; op_flags; cbn [Nat.b2n] in *; simplify_eq; try done; split_flags; try lia.
  - destruct Hs as [Hcl Hsv Hhf Hco Hse Hfo Hre Hcu Hlg].
    destruct w as [h cc ts cs hf v iv nx lg]. destruct h as [se en sl bu to id re rs tr q qc cid].
    unfold total in *. fields. subst sl. destruct op as [oh rd oi bp stg mu ap rf oe es fr].
    destruct oh, oe; try done; destruct a; try done; explore; try solve [exfalso; op_flags; done].
    all: split; settle_sums; try done.
    all: unfold holding in *; fields; cbn [andb negb Nat.b2n];
      rewrite ?Nat.sub_0_r, ?Nat.add_0_r; try assumption.
Qed.

Lemma saving_step w i a w' : gated w -> saving w -> step w i a = Some w' -> saving w'.
Proof.
  intros Hg Hs (c & Hc & [Hst|(op & mc & f & -> & Hst)])%step_kinds.
  - by eapply saving_other.
  - by eapply saving_op.
Qed.

(** ** Theorems *)

Lemma steps_keep (P : world -> Prop) :
  (forall w i a w', P w -> step w i a = Some w' -> P w') ->
  forall ls w w', P w -> steps w ls = Some w' -> P w'.
Proof.
  intros HP ls. induction ls as [|[i a] ls IH]; intros w w' Hw Hst; simplify_eq/=; [done|].
  destruct (step w i a) as [w1|] eqn:Hs; [|done]. by apply (IH w1); [eapply HP|].
Qed.

Lemma sum_start f n : f Idle = 0 -> total f (start n) = 0.
Proof. intros Hf. unfold total. cbn. induction n as [|n IH]; cbn; lia. Qed.

Lemma gated_start n : gated (start n).
Proof. split; rewrite ?sum_start by done; done. Qed.

Lemma saving_start n : saving (start n).
Proof. split; rewrite ?sum_start by done; cbn; done || lia. Qed.

Lemma saving_steps n ls w : steps (start n) ls = Some w -> gated w /\ saving w.
Proof.
  apply (steps_keep (fun w => gated w /\ saving w)); [|by split; [apply gated_start|apply saving_start]].
  intros w1 i a w2 [Hg Hs] Hst. split; [by eapply gated_step|by eapply saving_step].
Qed.

(** C3: in every interleaving of a request's calls, one call at most holds the
    gate; the session is saved at most once; and when it is, it is whole (no
    operation is halfway through changing it, or was unwound halfway without a
    later one publishing a whole state) and no write about to follow the save
    belongs to a transition a later one superseded. *)
Theorem only_whole_sessions_are_saved k ls w :
  steps (start k) ls = Some w ->
  total holds w <= 1 /\ events is_save (log w) <= 1 /\
  forall whole current, ESave whole current ∈ log w -> whole = true /\ current = true.
Proof.
  intros [Hg Hs]%saving_steps. split_and!.
  - rewrite <- (g_busy _ Hg). apply b2n_le.
  - pose proof (s_saves _ Hs). pose proof (b2n_le (commitClaimed w)). lia.
  - intros b c [j Hj]%list_elem_of_lookup. pose proof (sum_zero _ _ _ _ (s_log _ Hs) Hj) as Hz.
    by destruct b, c.
Qed.
