(* ===== verification/SessionReads.v ===== *)
(** * Reads under the gate (auth/drivers/schemes/gate.go)

    A read of the signed-in user returns an identity resolved from the session
    as it is, or signed out: an identity is published only while no operation
    that may change the session holds the gate, and cleared when one takes
    it. *)

From S2P Require Import Prelude SessionGate SessionGateSpec.

Local Open Scope nat_scope.
Local Open Scope list_scope.

(** ** What a read returns *)

Definition changes (c : call) : nat :=
  match c with Op op _ _ => Nat.b2n (holding op && negb (read op)) | _ => 0 end.
Definition recalling (c : call) : nat :=
  match c with Op op mc _ => Nat.b2n (holding op && read op && mc && negb (applied op)) | _ => 0 end.
Definition some_ident (i : option resolvedIdentity) : nat := match i with Some _ => 1 | None => 0 end.
Definition loud (i : option resolvedIdentity) : nat :=
  match i with Some id => Nat.b2n (negb (bool_decide (id = signedOut))) | None => 0 end.
Definition bad_read (e : event) : bool :=
  match e with EIdentity id cur => negb cur && negb (bool_decide (id = signedOut)) | _ => false end.

(** While an operation may change the session, or the commit may end it, no
    identity is published; a published one, other than signed out, was
    resolved from the session as it is. *)
Record identified (w : world) : Prop := {
  i_changes : total changes w + some_ident (ident (hold w)) <= 1;
  i_commits : total commits w + some_ident (ident (hold w)) <= 1;
  i_recalls : total recalling w + some_ident (ident (hold w)) <= 1;
  i_refused : total was_refused w + loud (ident (hold w)) <= 1;
  i_version : loud (ident (hold w)) = 1 -> ident_version w = version w;
  i_log : events bad_read (log w) = 0
}.

Lemma changes_le c : changes c <= opholds c.
Proof. destruct c; cbn; try lia. destruct (holding op), (read op); cbn; lia. Qed.
Lemma recalling_le c : recalling c <= opholds c.
Proof. destruct c; cbn; try lia. destruct (holding op), (read op), may_change, (applied op); cbn; lia. Qed.

Lemma not_changing w : total changes w = 0 -> existsb changing (calls w) = false.
Proof.
  unfold total. induction (calls w) as [|c cs IH]; cbn; [done|]. intros H. rewrite IH by lia.
  destruct c as [|op| | |]; cbn in *; try done. fold (holding op). destruct (holding op && negb (read op)); [cbn in H; lia|done].
Qed.

(** A published identity is current. *)
Lemma ident_current w id :
  identified w -> ident (hold w) = Some id -> bad_read (EIdentity id (is_current w)) = false.
Proof.
  intros [Hc _ _ _ Hv _] Hid. rewrite Hid in *. cbn in *. unfold is_current.
  rewrite not_changing by lia. destruct (bool_decide (id = signedOut)) eqn:Hs; cbn; [by rewrite andb_false_r|].
  cbn in Hv. rewrite Hv, Nat.eqb_refl by done. done.
Qed.

Lemma events_one p e : events p [e] = Nat.b2n (p e).
Proof. unfold events. cbn. lia. Qed.

Lemma signed_out_read cur : bad_read (EIdentity signedOut cur) = false.
Proof. cbn. by rewrite andb_false_r. Qed.

Ltac settle_reads :=
  unfold total; fields; rewrite ?events_app, ?events_rev; tally_step;
  cbn [holds commits opholds changes changing recalling was_refused some_ident loud Nat.b2n] in *;
  rewrite ?Nat.sub_0_r, ?Nat.add_0_r; try assumption.

Lemma identified_other w i a c w' :
  gated w -> identified w -> calls w !! i = Some c -> outside_op w i a c w' -> identified w'.
Proof.
  intros [Hb _ _] Hinv Hc Hst. pose proof (fun id => ident_current w id Hinv) as Hcur.
  destruct Hinv as [Hch Hco Hrc Hrf Hv Hlg].
  pose proof (holds_split w) as Hsp. pose proof (b2n_le (busy (hold w))) as H1.
  pose proof (sum_list_with_le _ _ (calls w) changes_le). pose proof (sum_list_with_le _ _ (calls w) recalling_le).
  pose proof (sum_list_with_le _ _ (calls w) refused_le). unfold total in *.
  destruct w as [h cc ts cs hf v iv nx lg]. destruct h as [se en sl bu to id re rs tr q qc cid]. fields.
  destruct Hst as [Hst|[Hst|[Hst|[-> Hst]]]]; destruct a; try done; explore; unfold published in *; fields; repeat case_match; simplify_eq.
  all: split; settle_reads; try done.
  all: rewrite ?events_undos, ?events_settles, ?events_one, ?signed_out_read by done;
    rewrite ?Nat.add_0_l; try assumption.
  all: unfold bad_read; rewrite ?Hcur by done; try done.
  all: tally commits; cbn [holds commits opholds changes changing recalling was_refused] in *;
    unfold holding in *; fields; cbn [andb negb] in *; split_flags; try done; try lia.
  all: try match goal with |- context [Nat.b2n ?b] => pose proof (b2n_le b); lia end.
  all: try (destruct id; cbn in *; done || lia).
  all: cbn; lia.
Qed.

Definition has_ident (i : option resolvedIdentity) : bool := match i with Some _ => true | None => false end.

(** Only a read of the user sets an identity, and only an applied operation
    was refused. *)
Definition odd_op (c : call) : nat :=
  match c with
  | Op op mc _ =>
      Nat.b2n (((negb (read op) || negb mc) && has_ident (identity op)) ||
               (refused op && negb (applied op)))
  | _ => 0
  end.

Lemma odd_op_step w i a w' : total odd_op w = 0 -> step w i a = Some w' -> total odd_op w' = 0.
Proof.
  intros Ho (c & Hc & Hst)%step_cases. unfold total in *.
  pose proof (sum_zero _ _ _ _ Ho Hc) as Hz.
  destruct w as [h cc ts cs hf v iv nx lg]. destruct h as [se en sl bu to id re rs tr q qc cid]. fields.
  destruct Hst as [Hst|[Hst|[Hst|Hst]]]; destruct a; try done; explore; fields; try done; tally_step;
    rewrite Ho; cbn [odd_op] in *; try done.
  all: destruct op as [? [] [] ? ? ? [] [] ? ? ?]; fields; destruct may_change; cbn in *; done || lia.
Qed.

Lemma loud_le id : loud id <= some_ident id.
Proof. destruct id; cbn; [apply b2n_le|done]. Qed.

(** What [odd_op] excludes of an identity. *)
Definition read_only (rd mc : bool) (oi : option resolvedIdentity) : Prop :=
  match oi with Some _ => rd = true /\ mc = true | None => True end.

Lemma identified_op w i a op mc f w' :
  gated w -> total odd_op w = 0 -> identified w -> calls w !! i = Some (Op op mc f) ->
  op_step w i a (Op op mc f) = Some w' -> identified w'.
Proof.
  intros Hg Ho [Hch Hco Hrc Hrf Hv Hlg] Hc Hst. pose proof (sum_zero _ _ _ _ Ho Hc) as Hz. clear Ho.
  pose proof (loud_le (ident (hold w))) as Hll. cbn [odd_op] in Hz. destruct (holding op) eqn:Hh.
  - destruct (holder_alone w i _ Hg Hc) as (_ & _ & Hre & Hcm & _); [cbn; by rewrite Hh|].
    pose proof (holder_only changes w i _ changes_le Hg Hc) as Hcg.
    pose proof (holder_only recalling w i _ recalling_le Hg Hc) as Hrg.
    cbn [opholds] in *. rewrite Hh in *. specialize (Hcg eq_refl). specialize (Hrg eq_refl).
    rewrite ?Hre, ?Hcm, ?Hcg, ?Hrg in *. unfold holding in Hh.
    apply andb_true_iff in Hh as [Hoh Hoe%negb_true_iff]. clear Hg.
    destruct w as [h cc ts cs hf v iv nx lg]. destruct h as [se en sl bu to id re rs tr q qc cid].
    unfold total in *. fields. destruct op as [oh rd oi bp stg mu ap rf oe es fr]. fields. subst oh oe.
    cbn [changes changing recalling was_refused] in *.
    assert (Hoi : read_only rd mc oi) by (destruct oi, rd, mc; done).
    assert (Hra : rf && negb ap = false) by (destruct rf, ap; try done; rewrite orb_true_r in Hz; done).
    clear Hz. destruct a; try done; explore.
    all: split; settle_reads; try done.
    all: unfold holding; fields;
      rewrite ?Hcg, ?Hrg, ?Hre, ?Hcm, ?events_undos by done; try assumption.
    all: clear Hc; op_flags; cbn [Nat.b2n changes changing] in *; simplify_eq; try done; split_flags; try lia.
    all: match goal with |- context [Nat.b2n ?b] => pose proof (b2n_le b); lia end.
  - clear Hz Hll. destruct w as [h cc ts cs hf v iv nx lg]. destruct h as [se en sl bu to id re rs tr q qc cid].
    unfold total in *. fields. destruct op as [oh rd oi bp stg mu ap rf oe es fr].
    destruct oh, oe; try done; destruct a; try done; explore; try solve [exfalso; op_flags; done].
    all: split; settle_reads; try done.
    all: unfold holding in *; fields; cbn [andb negb Nat.b2n];
      rewrite ?Nat.sub_0_r, ?Nat.add_0_r; try assumption.
Qed.

Lemma identified_step w i a w' :
  gated w -> total odd_op w = 0 -> identified w -> step w i a = Some w' -> identified w'.
Proof.
  intros Hg Ho Hi (c & Hc & [Hst|(op & mc & f & -> & Hst)])%step_kinds.
  - by eapply identified_other.
  - by eapply identified_op.
Qed.

(** ** Theorem *)

Lemma identified_start n : identified (start n).
Proof. split; rewrite ?sum_start by done; cbn; done || lia. Qed.

Lemma identified_steps k ls w : steps (start k) ls = Some w -> identified w.
Proof.
  intros Hst. apply (steps_keep (fun w => gated w /\ total odd_op w = 0 /\ identified w)) in Hst; [by apply Hst| |].
  - intros w1 i a w2 (Hg & Ho & Hi) Hs.
    split_and!; [by eapply gated_step|by eapply odd_op_step|by eapply identified_step].
  - split_and!; [apply gated_start|by apply sum_start|apply identified_start].
Qed.

(** C30: a read of the signed-in user that returns an identity, without waiting
    for another read, returns signed out or the identity resolved from the
    session as it is at that moment: never that of a session an operation has
    changed since, and never while an operation that may change the session
    holds the gate. *)
Theorem reads_return_the_current_identity k ls w id current :
  steps (start k) ls = Some w -> EIdentity id current ∈ log w -> current = true \/ id = signedOut.
Proof.
  intros Hi%identified_steps [j Hj]%list_elem_of_lookup.
  pose proof (sum_zero _ _ _ _ (i_log _ Hi) Hj) as Hz. cbn in Hz.
  destruct current; [by left|]. right. destruct (bool_decide_reflect (id = signedOut)); [done|]. by cbn in Hz.
Qed.
