(* ===== verification/SessionWrites.v ===== *)
(** * Writes behind the session save (auth/drivers/schemes/session.go)

    A credential a sign-in issues (the XSRF-TOKEN and remember cookies, the
    rotation of a recalled remember token) is queued behind the save of the
    session it belongs to.  Every queued write has one fate: it waits with its
    operation, in the holder's queue or with the commit, and then it is
    delivered, undone or dropped; and nothing is delivered before the save. *)

From S2P Require Import Prelude SessionGate SessionGateSpec SessionReads.

Local Open Scope nat_scope.
Local Open Scope list_scope.

(** ** One fate per write *)

Definition cnt (n : nat) (es : list afterSaveWrite) : nat :=
  sum_list_with (fun e => Nat.b2n (write e =? n)) es.
Definition pend (n : nat) (c : call) : nat :=
  match c with
  | Op op _ _ => if holding op && negb (applied op) then cnt n (staged op) else 0
  | Commit (Taken q) => cnt n (writes q) `max` cnt n (undos q)
  | Commit (Settling q) => cnt n (writes q)
  | Commit (Delivering ws) => cnt n ws
  | _ => 0
  end.
Definition ran (n : nat) (e : event) : bool :=
  match e with EUndo m | EWrite m => m =? n | _ => false end.
Definition fate (n : nat) (w : world) : nat :=
  total (pend n) w + cnt n (afterSave (hold w)) + events (ran n) (log w).

Lemma cnt_app n l1 l2 : cnt n (l1 ++ l2) = cnt n l1 + cnt n l2.
Proof. apply sum_list_with_app. Qed.

Lemma cnt_one n e : cnt n [e] = Nat.b2n (write e =? n).
Proof. unfold cnt. cbn. lia. Qed.

Lemma cnt_filter n (P : afterSaveWrite -> Prop) `{!forall e, Decision (P e)} es : cnt n (filter P es) <= cnt n es.
Proof.
  unfold cnt. induction es as [|e es IH]; [done|]. rewrite filter_cons. destruct (decide _); cbn; lia.
Qed.

Lemma ran_undos n es : events (ran n) (run_undos es) <= cnt n es.
Proof.
  unfold run_undos. etrans; [|by apply (cnt_filter n (fun e => undo e = true))].
  unfold events, cnt. induction (filter _ es) as [|e l IH]; cbn; [done|]. lia.
Qed.

(** The count of a filtered list is bounded by that of the list. *)
Ltac bounds n :=
  repeat match goal with
  | |- context [@filter _ _ _ ?P ?d ?es] =>
      lazymatch goal with
      | _ : cnt n (@filter _ _ _ P d es) <= _ |- _ => fail
      | _ => pose proof (cnt_filter n P es)
      end
  end.

(** A step either names no new write, and no write gains a fate, or names
    one. *)
Lemma fate_step w i a w' n :
  step w i a = Some w' ->
  (next w' = next w /\ fate n w' <= fate n w) \/
  (next w' = S (next w) /\ (fate n w' <= fate n w \/ (n = next w /\ fate n w' <= S (fate n w)))).
Proof.
  intros (c & Hc & Hst)%step_cases.
  destruct w as [h cc ts cs hf v iv nx lg]. destruct h as [se en sl bu to id re rs tr q qc cid]. fields.
  destruct Hst as [Hst|[Hst|[Hst|Hst]]]; destruct a; try done; explore.
  all: unfold fate, total; fields; tally (pend n).
  all: rewrite ?events_app, ?events_rev, ?cnt_app; tally_step; cbn [pend] in *.
  all: rewrite ?events_one, ?events_settles by done; fields; cbn [ran Nat.b2n] in *.
  all: try match goal with |- context [run_undos ?es] => pose proof (ran_undos n es) end; bounds n.
  all: try (left; split; [done|]; cbn [cnt sum_list_with] in *; lia).
  all: unfold holding in *; fields; rewrite ?cnt_app in *;
    try (destruct (op_h op) eqn:?, (op_ended op) eqn:?, (applied op) eqn:?); fields;
    cbn [andb orb negb] in *; simplify_eq; try done.
  all: try (left; split; [done|]; cbn [cnt sum_list_with] in *; rewrite ?Nat.add_0_r in *; lia).
  all: try (left; split; [done|]; case_match; cbn [cnt sum_list_with] in *; lia).
  all: try (left; split; [done|]; pose proof (cnt_filter n (fun e => undo e = true)
      (filter (fun e => undo e = true) q)); unfold cnt in *; cbn [sum_list_with] in *; lia).
  all: right; split; [done|]; rewrite ?cnt_one; cbn [write];
    destruct (Nat.eqb_spec nx n); cbn [Nat.b2n]; first [left; lia | right; split; [done|]; lia].
Qed.

(** ** Writes follow the save *)

Definition delivered (e : event) : bool := match e with EWrite _ | ESettle _ => true | _ => false end.
Definition loaded (c : call) : nat :=
  match c with
  | Commit (Settling q) => length (writes q) + length (settles q)
  | Commit (Delivering ws) => length ws
  | _ => 0
  end.
Definition phase (c : call) : nat := match c with Commit _ => 1 | _ => 0 end.
Definition late (c : call) : nat := match c with Commit (Settling _ | Delivering _) => 1 | _ => 0 end.

(** Before a save succeeds nothing queued behind it has run or is about to;
    a commit past its save without one (the request has no session) has
    closed the queue. *)
Record followed (w : world) : Prop := {
  f_phase : total phase w <= Nat.b2n (sealed (hold w));
  f_claim : sealed (hold w) = commitClaimed w;
  f_none : events is_save (log w) = 0 ->
    events delivered (log w) = 0 /\ total loaded w = 0 /\
    (total late w = 0 \/ (queueClosed (hold w) = true /\ afterSave (hold w) = []))
}.

Lemma late_le c : late c <= phase c.
Proof. destruct c as [| | | |[]]; cbn; lia. Qed.

Ltac arith_guard :=
  repeat match goal with
  | H : _ && _ = true |- _ => apply andb_true_iff in H as [? ?]
  | H : false || _ = true |- _ => cbn [orb] in H
  | H : bool_decide _ = true |- _ => apply bool_decide_eq_true in H
  end; simplify_eq/=.

Lemma followed_step w i a w' : followed w -> step w i a = Some w' -> followed w'.
Proof.
  intros [Hp Hcl Hn] (c & Hc & Hst)%step_cases. pose proof (b2n_le (sealed (hold w))) as Hle.
  pose proof (sum_list_with_le late phase (calls w) late_le) as Hlp. unfold total in *.
  destruct w as [h cc ts cs hf v iv nx lg]. destruct h as [se en sl bu to id re rs tr q qc cid]. fields. subst sl.
  destruct Hst as [Hst|[Hst|[Hst|Hst]]]; destruct a; try done; explore.
  all: split; unfold total; fields; try done; tally_step; tally phase; cbn [phase] in *;
    rewrite ?Nat.sub_0_r, ?Nat.add_0_r; try assumption; try lia.
  all: rewrite ?events_app, ?events_rev, ?events_one, ?events_undos, ?events_settles by done;
    tally late; tally loaded; cbn [is_save delivered loaded late Nat.b2n Nat.add] in *;
    rewrite ?Nat.sub_0_r, ?Nat.add_0_r; try assumption; try (intros Hz; discriminate).
  all: try (cbn [Nat.b2n] in *; lia).
  all: intros Hz; destruct (Hn Hz) as (Hd & Hl & Hq); rewrite ?Hd, ?Hl in *.
  all: try (split_and!; [done|done|]; destruct cc; [|left; cbn [Nat.b2n] in *; lia];
    destruct Hq as [Hq|[-> ->]]; [by left|right]; rewrite andb_true_r in *; subst; arith_guard; done).
  all: try (split_and!; auto; done).
  all: try match goal with |- context [settles ?q0] => destruct (settles q0); [|cbn [length] in *; lia] end.
  all: try match goal with |- context [writes ?q0] => destruct (writes q0); [|cbn [length] in *; lia] end.
  all: rewrite ?list.take_nil; cbn [length] in *; split_and!; try done; try lia.
  all: destruct Hq as [Hq|[? ?]]; simplify_eq; auto; lia.
Qed.

(** ** Theorems *)

(** No write has two fates, and one not named yet has none. *)
Definition one_fate (w : world) : Prop :=
  forall n, fate n w <= 1 /\ (next w <= n -> fate n w = 0).

Lemma one_fate_step w i a w' : one_fate w -> step w i a = Some w' -> one_fate w'.
Proof.
  intros Hw Hs n. destruct (Hw n) as [H1 H0].
  destruct (fate_step _ _ _ _ n Hs) as [[-> Hf]|[-> [Hf|[-> Hf]]]].
  - split; [lia|]. intros Hn. specialize (H0 Hn). lia.
  - split; [lia|]. intros Hn. specialize (H0 ltac:(lia)). lia.
  - specialize (H0 ltac:(lia)). split; [lia|]. intros Hn. lia.
Qed.

Lemma one_fate_start k : one_fate (start k).
Proof. intros n. unfold fate. rewrite sum_start by done. cbn. split; [lia|done]. Qed.

Lemma followed_start n : followed (start n).
Proof. split; rewrite ?sum_start by done; try done. intros _. split_and!; auto. Qed.

(** C31: in every interleaving of the request's calls, a write queued behind
    the session save is run at most once or undone at most once, never both,
    and nothing queued is settled or written before the save succeeded: a
    client never holds a credential of a session that was not saved. *)
Theorem writes_follow_the_save k ls w n :
  steps (start k) ls = Some w ->
  events (ran n) (log w) <= 1 /\
  ((EWrite n ∈ log w \/ ESettle n ∈ log w) -> 0 < events is_save (log w)).
Proof.
  intros Hst. split.
  - pose proof (steps_keep one_fate one_fate_step _ _ _ (one_fate_start k) Hst n) as [Hf _].
    unfold fate in Hf. lia.
  - intros Hin. destruct (steps_keep followed followed_step _ _ _ (followed_start k) Hst) as [_ _ Hn].
    destruct (events is_save (log w)) eqn:He; [|lia]. destruct (Hn eq_refl) as [Hd _]. exfalso.
    destruct Hin as [[j Hj]%list_elem_of_lookup|[j Hj]%list_elem_of_lookup];
      by pose proof (sum_zero _ _ _ _ Hd Hj).
Qed.

(** ** Witnesses *)

(** A visitor's first read, a sign-in with a remember credential that a second
    read meets halfway, a read of the signed-in user, and the commit. *)
Definition sign_in : list (nat * act) :=
  [(0, ALoad 5); (2, ARead true); (2, ATurn false); (2, AIdentity signedOut); (2, AApply false);
   (2, ARelease); (2, AEnd); (0, AReserve); (0, AMutation); (0, ATouch); (2, ARead true); (0, ATransition);
   (0, ACredential true true); (0, AApply true); (0, ARelease); (0, AEnd);
   (2, ARead true); (2, ATurn false); (2, AIdentity (mkId (Some 9) true None)); (2, AApply false);
   (2, ARelease); (2, AEnd); (2, ARead true);
   (1, ACommit); (1, ATake false); (1, ASave); (1, ASettle); (1, ADeliver); (1, ADeliver); (1, AFinish false)].

Definition signed_in : world := default (start 0) (steps (start 3) sign_in).

Lemma sign_in_runs : steps (start 3) sign_in = Some signed_in.
Proof. vm_compute. reflexivity. Qed.

Lemma writes_follow_the_save_witness :
  EWrite 0 ∈ log signed_in /\ events (ran 0) (log signed_in) <= 1 /\ 0 < events is_save (log signed_in).
Proof.
  assert (Hin : EWrite 0 ∈ log signed_in) by (vm_compute; left).
  destruct (writes_follow_the_save 3 sign_in signed_in 0 sign_in_runs) as [H1 H2].
  exact (conj Hin (conj H1 (H2 (or_introl Hin)))).
Defined.

Lemma only_whole_sessions_are_saved_witness :
  events is_save (log signed_in) = 1 /\
  forall whole current, ESave whole current ∈ log signed_in -> whole = true /\ current = true.
Proof.
  split; [vm_compute; reflexivity|].
  exact (proj2 (proj2 (only_whole_sessions_are_saved 3 sign_in signed_in sign_in_runs))).
Defined.

Lemma reads_return_the_current_identity_witness :
  EIdentity (mkId (Some 9) true None) true ∈ log signed_in /\
  (true = true \/ mkId (Some 9) true None = signedOut).
Proof.
  assert (Hin : EIdentity (mkId (Some 9) true None) true ∈ log signed_in) by (vm_compute; do 3 right; left).
  exact (conj Hin (reads_return_the_current_identity 3 sign_in signed_in _ _ sign_in_runs Hin)).
Defined.

(** A session whose save panics loses the undo steps of the queued writes:
    the queue was taken before the save, so closing it drops nothing, and
    nothing runs what was taken. *)
Definition panicking_save : list (nat * act) :=
  [(0, ALoad 5); (0, AReserve); (0, AMutation); (0, ATransition); (0, ACredential true false);
   (0, AApply true); (0, ARelease); (0, AEnd); (1, ACommit); (1, ATake false)].

Lemma panicking_save_loses_its_undos :
  (w ← steps (start 2) (panicking_save ++ [(1, ASaveFail)]); Some (log w)) = Some [EUndo 0] /\
  (w ← steps (start 2) (panicking_save ++ [(1, ASavePanic)]); Some (log w)) = Some [].
Proof. split; vm_compute; reflexivity. Qed.
