(* ===== verification/WebEncoding.v ===== *)
(** * base64 and query escaping, as Go's encoding/base64 and net/url have them

    [base64.URLEncoding] and [base64.StdEncoding] (padded, newlines ignored
    when decoding, trailing bits not checked), exclusive or, and [url.QueryEscape] / [url.QueryUnescape] /
    [url.ParseQuery].  A byte slice is a string.  Decoding skips carriage
    returns and line feeds wherever they stand, so it is decoding of what is
    left without them. *)

From S2P Require Import Prelude GoStrings.
From Stdlib Require Import Ascii String.

Local Open Scope string_scope.
Local Open Scope Z_scope.

(** ** base64.URLEncoding *)

Definition b64_alphabet : string := "ABCDEFGHIJKLMNOPQRSTUVWXYZabcdefghijklmnopqrstuvwxyz0123456789-_".

Definition pad_char : ascii := "="%char.

(** The byte [byte(v)] keeps the low eight bits. *)
Definition byte_of (v : Z) : ascii := ascii_of_nat (Z.to_nat (Z.land v 255)).

Definition b64_char (v : Z) : ascii :=
  match String.get (Z.to_nat (Z.land v 63)) b64_alphabet with Some c => c | None => pad_char end.

Definition b64_val (c : ascii) : option Z := Z.of_nat <$> index_byte c b64_alphabet.

Definition pack3 (a b c : Z) : Z := Z.lor (Z.lor (Z.shiftl a 16) (Z.shiftl b 8)) c.
Definition pack4 (a b c d : Z) : Z :=
  Z.lor (Z.lor (Z.lor (Z.shiftl a 18) (Z.shiftl b 12)) (Z.shiftl c 6)) d.

Fixpoint EncodeToString (s : string) : string :=
  match s with
  | EmptyString => EmptyString
  | String a EmptyString =>
      let v := pack3 (byte_val a) 0 0 in
      String (b64_char (Z.shiftr v 18)) (String (b64_char (Z.shiftr v 12)) (String pad_char (String pad_char "")))
  | String a (String b EmptyString) =>
      let v := pack3 (byte_val a) (byte_val b) 0 in
      String (b64_char (Z.shiftr v 18)) (String (b64_char (Z.shiftr v 12))
        (String (b64_char (Z.shiftr v 6)) (String pad_char "")))
  | String a (String b (String c s')) =>
      let v := pack3 (byte_val a) (byte_val b) (byte_val c) in
      String (b64_char (Z.shiftr v 18)) (String (b64_char (Z.shiftr v 12))
        (String (b64_char (Z.shiftr v 6)) (String (b64_char v) (EncodeToString s'))))
  end.

Definition EncodedLen (n : Z) : Z := (n + 2) / 3 * 4.

(** The quanta of four characters; padding ends the last one. *)
Fixpoint decode_quanta (s : string) : option string :=
  match s with
  | EmptyString => Some EmptyString
  | String a (String b (String c (String d r))) =>
      va ← b64_val a; vb ← b64_val b;
      if Ascii.eqb c pad_char then
        if Ascii.eqb d pad_char && String.eqb r "" then
          Some (String (byte_of (Z.shiftr (pack4 va vb 0 0) 16)) "")
        else None
      else
        vc ← b64_val c;
        if Ascii.eqb d pad_char then
          if String.eqb r "" then
            let v := pack4 va vb vc 0 in
            Some (String (byte_of (Z.shiftr v 16)) (String (byte_of (Z.shiftr v 8)) ""))
          else None
        else
          vd ← b64_val d;
          let v := pack4 va vb vc vd in
          rest ← decode_quanta r;
          Some (String (byte_of (Z.shiftr v 16)) (String (byte_of (Z.shiftr v 8)) (String (byte_of v) rest)))
  | _ => None
  end.

Fixpoint strip_newlines (s : string) : string :=
  match s with
  | EmptyString => EmptyString
  | String c r =>
      if (byte_val c =? 10) || (byte_val c =? 13) then strip_newlines r else String c (strip_newlines r)
  end.

Definition DecodeString (s : string) : option string := decode_quanta (strip_newlines s).

(** ** base64.StdEncoding

    The same code with plus and slash for the last two digits; hyphen and
    underscore are outside its alphabet (exclamation mark is in neither). *)

Definition to_std (c : ascii) : ascii :=
  if Ascii.eqb c "-" then "+"%char else if Ascii.eqb c "_" then "/"%char else c.
Definition of_std (c : ascii) : ascii :=
  if Ascii.eqb c "+" then "-"%char else if Ascii.eqb c "/" then "_"%char
  else if Ascii.eqb c "-" || Ascii.eqb c "_" then "!"%char else c.

Fixpoint map_bytes (f : ascii -> ascii) (s : string) : string :=
  match s with EmptyString => EmptyString | String c s' => String (f c) (map_bytes f s') end.

Definition Std_EncodeToString (s : string) : string := map_bytes to_std (EncodeToString s).
Definition Std_DecodeString (s : string) : option string := DecodeString (map_bytes of_std s).

(** ** Exclusive or of byte strings *)

Fixpoint xor_bytes (a b : string) : string :=
  match a, b with
  | String x a, String y b => String (byte_of (Z.lxor (byte_val x) (byte_val y))) (xor_bytes a b)
  | _, _ => ""
  end.

(** ** url.QueryEscape, url.QueryUnescape *)

Definition query_safe (c : ascii) : bool :=
  let v := byte_val c in is_alnum v || (v =? 45) || (v =? 95) || (v =? 46) || (v =? 126).

Fixpoint QueryEscape (s : string) : string :=
  match s with
  | EmptyString => EmptyString
  | String c s' =>
      if query_safe c then String c (QueryEscape s')
      else if byte_val c =? 32 then String "+" (QueryEscape s')
      else let v := nat_of_ascii c in
           String "%" (String (hex_digit (v / 16)) (String (hex_digit (v mod 16)) (QueryEscape s')))
  end.

Fixpoint QueryUnescape (s : string) : option string :=
  match s with
  | EmptyString => Some EmptyString
  | String "%"%char (String a (String b s')) =>
      match unhex a, unhex b with
      | Some h, Some l => String (ascii_of_nat (16 * h + l)) <$> QueryUnescape s'
      | _, _ => None
      end
  | String "%"%char _ => None
  | String "+"%char s' => String " " <$> QueryUnescape s'
  | String c s' => String c <$> QueryUnescape s'
  end.

(** [strings.Cut] at the first [c]. *)
Definition cut (c : ascii) (s : string) : string * string :=
  match index_byte c s with Some i => (str_take i s, str_drop (S i) s) | None => (s, "") end.

(** [url.ParseQuery]: the pairs in order; [None] when a piece is malformed
    (the callers drop the values then). *)
Fixpoint parse_pieces (ps : list string) : option (list (string * string)) :=
  match ps with
  | [] => Some []
  | p :: ps =>
      if contains_byte ";" p then None
      else if String.eqb p "" then parse_pieces ps
      else
        let '(k, v) := cut "=" p in
        k ← QueryUnescape k; v ← QueryUnescape v;
        rest ← parse_pieces ps; Some ((k, v) :: rest)
  end.
Definition ParseQuery (s : string) : option (list (string * string)) := parse_pieces (split_on "&" s).

(** [Values.Get]: the first value, or the empty string. *)
Fixpoint Values_Get (m : list (string * string)) (k : string) : string :=
  match m with [] => "" | (k', v) :: m => if String.eqb k' k then v else Values_Get m k end.

(** ** Lemmas *)

Lemma byte_val_range c : 0 <= byte_val c < 256.
Proof. unfold byte_val. pose proof (nat_ascii_bounded c). lia. Qed.

Lemma byte_of_val c : byte_of (byte_val c) = c.
Proof.
  unfold byte_of. pose proof (byte_val_range c). change 255 with (Z.ones 8).
  rewrite Z.land_ones, Z.mod_small by lia. unfold byte_val. rewrite Nat2Z.id. apply ascii_nat_embedding.
Qed.

Lemma byte_val_of v : byte_val (byte_of v) = Z.land v 255.
Proof.
  unfold byte_val, byte_of. change 255 with (Z.ones 8). rewrite Z.land_ones by lia.
  pose proof (Z.mod_pos_bound v (2 ^ 8) ltac:(lia)). rewrite nat_ascii_embedding; lia.
Qed.

Lemma byte_of_land v w : Z.land v 255 = Z.land w 255 -> byte_of v = byte_of w.
Proof. unfold byte_of. by intros ->. Qed.

Lemma xor_bytes_length a b : String.length a = String.length b -> String.length (xor_bytes a b) = String.length a.
Proof. revert b. induction a as [|x a IH]; intros [|y b] Hl; cbn in *; try done. f_equal. apply IH. lia. Qed.

Lemma xor_byte_cancel x y : byte_of (Z.lxor (byte_val x) (byte_val (byte_of (Z.lxor (byte_val x) (byte_val y))))) = y.
Proof.
  rewrite byte_val_of. transitivity (byte_of (byte_val y)); [|apply byte_of_val]. apply byte_of_land.
  apply Z.bits_inj'. intros i Hi. rewrite !Z.land_spec, !Z.lxor_spec, Z.land_spec, Z.lxor_spec.
  by destruct (Z.testbit (byte_val x) i), (Z.testbit (byte_val y) i), (Z.testbit 255 i).
Qed.

Lemma xor_bytes_cancel a b : String.length a = String.length b -> xor_bytes a (xor_bytes a b) = b.
Proof.
  revert b. induction a as [|x a IH]; intros [|y b] Hl; try done. cbn [xor_bytes].
  rewrite xor_byte_cancel, IH by (cbn in Hl; lia). done.
Qed.

Lemma append_inj_length a b c d :
  String.length a = String.length c -> a +:+ b = c +:+ d -> a = c /\ b = d.
Proof.
  revert c. induction a as [|x a IH]; intros [|y c] Hl; cbn in *; try done.
  intros [= -> H]. destruct (IH c) as [-> ->]; [lia|done|done].
Qed.

Lemma str_take_drop n s : str_take n s +:+ str_drop n s = s.
Proof. revert s. induction n as [|n IH]; intros [|c s]; cbn; try done. by rewrite IH. Qed.

Lemma length_str_take n s : (n <= String.length s)%nat -> String.length (str_take n s) = n.
Proof. revert s. induction n as [|n IH]; intros [|c s] H; cbn in *; try lia. by rewrite IH by lia. Qed.

Lemma length_str_drop n s : String.length (str_drop n s) = (String.length s - n)%nat.
Proof. revert s. induction n as [|n IH]; intros [|c s]; cbn; done || apply IH. Qed.

Lemma sextets (P : Z -> Prop) :
  (forall n, (n < 64)%nat -> P (Z.of_nat n)) -> forall v, P (Z.land v 63).
Proof.
  intros HP v. change 63 with (Z.ones 6). rewrite Z.land_ones by lia.
  pose proof (Z.mod_pos_bound v (2 ^ 6) ltac:(lia)).
  rewrite <- (Z2Nat.id (v `mod` 2 ^ 6)) by lia. apply HP. lia.
Qed.

(** A sextet and its character: the character is in the alphabet, is no
    padding and no newline. *)
Definition b64_ok (v : Z) : bool :=
  let c := b64_char v in
  bool_decide (b64_val c = Some v) && negb (Ascii.eqb c pad_char)
  && negb ((byte_val c =? 10) || (byte_val c =? 13)) && (query_safe c).

Lemma b64_char_land v : b64_char (Z.land v 63) = b64_char v.
Proof. unfold b64_char. by rewrite <- Z.land_assoc. Qed.

Lemma b64_char_ok v : b64_ok (Z.land v 63) = true.
Proof.
  apply sextets. intros n Hn.
  assert (Hall : forallb (fun n => b64_ok (Z.of_nat n)) (seq 0 64) = true) by (vm_compute; reflexivity).
  rewrite forallb_forall in Hall. apply Hall, in_seq. lia.
Qed.

Lemma b64_char_spec v :
  b64_val (b64_char v) = Some (Z.land v 63) /\ Ascii.eqb (b64_char v) pad_char = false /\
  (byte_val (b64_char v) =? 10) || (byte_val (b64_char v) =? 13) = false /\
  query_safe (b64_char v) = true.
Proof.
  pose proof (b64_char_ok v) as H. unfold b64_ok in H. rewrite b64_char_land in H.
  rewrite !andb_true_iff, !negb_true_iff, bool_decide_eq_true in H. tauto.
Qed.

(** Packing as arithmetic. *)
Lemma lor_shiftl a b n : 0 <= n -> 0 <= b < 2 ^ n -> Z.lor (Z.shiftl a n) b = a * 2 ^ n + b.
Proof.
  intros Hn Hb.
  assert (Hd : Z.land (Z.shiftl a n) b = 0).
  { apply Z.bits_inj'. intros i Hi. rewrite Z.land_spec, Z.bits_0, Z.shiftl_spec by lia.
    destruct (decide (i < n)); [by rewrite (Z.testbit_neg_r a) by lia|].
    rewrite <- (Z.mod_small b (2 ^ n)), Z.mod_pow2_bits_high by lia. apply andb_false_r. }
  by rewrite <- Z.lxor_lor, <- Z.add_nocarry_lxor, Z.shiftl_mul_pow2 by done.
Qed.

Lemma pack3_sum a b c :
  0 <= a < 256 -> 0 <= b < 256 -> 0 <= c < 256 -> pack3 a b c = a * 65536 + b * 256 + c.
Proof.
  intros Ha Hb Hc. unfold pack3. rewrite <- Z.lor_assoc, (lor_shiftl b c 8), (lor_shiftl a) by lia. lia.
Qed.

Lemma pack4_sum a b c d :
  0 <= a < 64 -> 0 <= b < 64 -> 0 <= c < 64 -> 0 <= d < 64 ->
  pack4 a b c d = a * 262144 + b * 4096 + c * 64 + d.
Proof.
  intros Ha Hb Hc Hd. unfold pack4.
  rewrite <- !Z.lor_assoc, (lor_shiftl c d 6), (lor_shiftl b _ 12), (lor_shiftl a) by lia. lia.
Qed.

Lemma land63 v : Z.land v 63 = v `mod` 64.
Proof. change 63 with (Z.ones 6). by rewrite Z.land_ones. Qed.

(** The four sextets of three bytes give the bytes back. *)
Lemma sextets_of_bytes a b c :
  0 <= a < 256 -> 0 <= b < 256 -> 0 <= c < 256 ->
  let v := pack3 a b c in
  pack4 (Z.land (Z.shiftr v 18) 63) (Z.land (Z.shiftr v 12) 63) (Z.land (Z.shiftr v 6) 63) (Z.land v 63) = v.
Proof.
  intros Ha Hb Hc v. rewrite !land63, !Z.shiftr_div_pow2 by lia.
  assert (Hv : 0 <= v < 16777216) by (subst v; rewrite pack3_sum by lia; lia).
  rewrite pack4_sum by (apply Z.mod_pos_bound; lia). clearbody v. clear -Hv.
  change (2 ^ 18) with 262144. change (2 ^ 12) with 4096. change (2 ^ 6) with 64.
  Z.to_euclidean_division_equations. lia.
Qed.

Lemma byte_of_mod v a k : 0 <= a < 256 -> v = k * 256 + a -> byte_of v = byte_of a.
Proof.
  intros Ha ->. unfold byte_of. change 255 with (Z.ones 8). rewrite !Z.land_ones by lia.
  rewrite Z.add_comm, Z_mod_plus_full. done.
Qed.

Lemma bytes_of_pack a b c :
  let v := pack3 (byte_val a) (byte_val b) (byte_val c) in
  byte_of (Z.shiftr v 16) = a /\ byte_of (Z.shiftr v 8) = b /\ byte_of v = c.
Proof.
  pose proof (byte_val_range a). pose proof (byte_val_range b). pose proof (byte_val_range c).
  intros v. assert (Hv : v = byte_val a * 65536 + byte_val b * 256 + byte_val c) by (by apply pack3_sum).
  rewrite !Z.shiftr_div_pow2 by lia. split_and!.
  - rewrite <- (byte_of_val a). apply (byte_of_mod _ _ 0); [lia|]. change (2 ^ 16) with 65536. clearbody v. subst v.
    Z.to_euclidean_division_equations. lia.
  - rewrite <- (byte_of_val b). apply (byte_of_mod _ _ (byte_val a)); [lia|]. change (2 ^ 8) with 256. clearbody v. subst v.
    Z.to_euclidean_division_equations. lia.
  - rewrite <- (byte_of_val c). apply (byte_of_mod _ _ (byte_val a * 256 + byte_val b)); [lia|]. lia.
Qed.

(** Induction three bytes at a time. *)
Lemma string_ind3 (P : string -> Prop) :
  P "" -> (forall a, P (String a "")) -> (forall a b, P (String a (String b ""))) ->
  (forall a b c s, P s -> P (String a (String b (String c s)))) -> forall s, P s.
Proof.
  intros H0 H1 H2 H3. fix IH 1. intros [|a [|b [|c s]]]; [exact H0|exact (H1 a)|exact (H2 a b)|exact (H3 a b c s (IH s))].
Qed.


Lemma sextets_of_two a b :
  0 <= a < 256 -> 0 <= b < 256 ->
  let v := pack3 a b 0 in
  pack4 (Z.land (Z.shiftr v 18) 63) (Z.land (Z.shiftr v 12) 63) (Z.land (Z.shiftr v 6) 63) 0 = v.
Proof.
  intros Ha Hb v. pose proof (sextets_of_bytes a b 0 Ha Hb ltac:(lia)) as H. fold v in H. cbn zeta in H.
  assert (H0 : Z.land v 63 = 0) by (subst v; rewrite pack3_sum, land63 by lia;
    Z.to_euclidean_division_equations; lia).
  by rewrite H0 in H.
Qed.

Lemma sextets_of_one a :
  0 <= a < 256 ->
  let v := pack3 a 0 0 in
  pack4 (Z.land (Z.shiftr v 18) 63) (Z.land (Z.shiftr v 12) 63) 0 0 = v.
Proof.
  intros Ha v. pose proof (sextets_of_two a 0 Ha ltac:(lia)) as H. fold v in H. cbn zeta in H.
  assert (H0 : Z.land (Z.shiftr v 6) 63 = 0).
  { subst v. rewrite pack3_sum, land63, Z.shiftr_div_pow2 by lia. change (2 ^ 6) with 64.
    Z.to_euclidean_division_equations. lia. }
  by rewrite H0 in H.
Qed.

Lemma decode_encode s : decode_quanta (EncodeToString s) = Some s.
Proof.
  induction s as [|a|a b|a b c s IH] using string_ind3; [done|..]; cbn [EncodeToString decode_quanta];
    match goal with |- context[pack3 ?x ?y ?z] => set (v := pack3 x y z) end;
    destruct (b64_char_spec (Z.shiftr v 18)) as (-> & _), (b64_char_spec (Z.shiftr v 12)) as (-> & _);
    cbn [mbind option_bind].
  - cbn [Ascii.eqb]. subst v. cbn -[Z.shiftr Z.land pack3 pack4 byte_of byte_val].
    rewrite sextets_of_one by apply byte_val_range. 
    destruct (bytes_of_pack a zero zero) as (H1 & _). cbn zeta in H1.
    change (byte_val zero) with 0 in H1. by rewrite H1.
  - destruct (b64_char_spec (Z.shiftr v 6)) as (-> & -> & _). subst v.
    cbn -[Z.shiftr Z.land pack3 pack4 byte_of byte_val]. rewrite sextets_of_two by apply byte_val_range.
    destruct (bytes_of_pack a b zero) as (H1 & H2 & _). cbn zeta in H1, H2.
    change (byte_val zero) with 0 in H1, H2. by rewrite H1, H2.
  - destruct (b64_char_spec (Z.shiftr v 6)) as (-> & -> & _), (b64_char_spec v) as (-> & -> & _).
    cbn [mbind option_bind]. rewrite IH. cbn [mbind option_bind].
    subst v. rewrite sextets_of_bytes by apply byte_val_range.
    destruct (bytes_of_pack a b c) as (-> & -> & ->). done.
Qed.

(** An encoded string has no byte that decoding skips or that escaping
    touches, apart from padding. *)
Lemma encode_bytes (p : ascii -> bool) s :
  p pad_char = true -> (forall v, p (b64_char v) = true) -> all_bytes p (EncodeToString s) = true.
Proof.
  intros Hp Hc. induction s as [|a|a b|a b c s IH] using string_ind3; cbn [EncodeToString all_bytes];
    rewrite ?Hc, ?Hp, ?IH; done.
Qed.

Lemma strip_newlines_id s :
  all_bytes (fun c => negb ((byte_val c =? 10) || (byte_val c =? 13))) s = true -> strip_newlines s = s.
Proof.
  induction s as [|c s IH]; [done|]. cbn. intros [Hc Hs]%andb_true_iff.
  apply negb_true_iff in Hc. by rewrite Hc, IH.
Qed.

Lemma DecodeString_EncodeToString s : DecodeString (EncodeToString s) = Some s.
Proof.
  unfold DecodeString. rewrite strip_newlines_id, decode_encode; [done|].
  apply encode_bytes; [done|]. intros v. destruct (b64_char_spec v) as (_ & _ & -> & _). done.
Qed.

Lemma length_base64 s :
  Z.of_nat (String.length (EncodeToString s)) = EncodedLen (Z.of_nat (String.length s)).
Proof.
  unfold EncodedLen. induction s as [|a|a b|a b c s IH] using string_ind3; [done..|].
  cbn [EncodeToString String.length]. rewrite !Nat2Z.inj_succ, IH.
  set (n := Z.of_nat (String.length s)).
  replace (Z.succ (Z.succ (Z.succ n)) + 2) with (n + 2 + 1 * 3) by lia.
  rewrite Z.div_add by lia. lia.
Qed.

Lemma QueryUnescape_plain c s :
  c <> "%"%char -> c <> "+"%char -> QueryUnescape (String c s) = String c <$> QueryUnescape s.
Proof.
  intros Hc Hd. destruct c as [[] [] [] [] [] [] [] []]; try reflexivity; by destruct Hc || destruct Hd.
Qed.

(** Every byte string survives query escaping and unescaping. *)
Lemma QueryUnescape_QueryEscape s : QueryUnescape (QueryEscape s) = Some s.
Proof.
  induction s as [|c s IH]; [done|]. cbn [QueryEscape].
  destruct (query_safe c) eqn:E; [|destruct (byte_val c =? 32) eqn:E2].
  - rewrite QueryUnescape_plain, IH by (intros ->; discriminate E). done.
  - cbn [QueryUnescape]. rewrite IH. cbn. f_equal. f_equal.
    rewrite <- (byte_of_val c). apply Z.eqb_eq in E2. by rewrite E2.
  - assert (Hv : (nat_of_ascii c < 256)%nat) by apply nat_ascii_bounded.
    cbn [QueryUnescape].
    rewrite !unhex_hex_digit
      by (try apply Nat.Div0.div_lt_upper_bound; try apply Nat.mod_upper_bound; lia).
    rewrite IH, <- Nat.div_mod_eq, ascii_nat_embedding. done.
Qed.

(** What base64.StdEncoding writes it reads back, and it is text of its
    alphabet. *)
Lemma map_bytes_id f s : all_bytes (fun c => Ascii.eqb (f c) c) s = true -> map_bytes f s = s.
Proof.
  induction s as [|c s IH]; [done|]. cbn. intros [Hc Hs]%andb_true_iff. apply Ascii.eqb_eq in Hc.
  by rewrite Hc, IH.
Qed.

Lemma map_bytes_comp f g s : map_bytes f (map_bytes g s) = map_bytes (fun c => f (g c)) s.
Proof. induction s as [|c s IH]; cbn; [done|]. by rewrite IH. Qed.

Lemma b64_chars (p : ascii -> bool) v :
  forallb (fun n => p (b64_char (Z.of_nat n))) (seq 0 64) = true -> p (b64_char v) = true.
Proof.
  intros H. rewrite <- b64_char_land. apply (sextets (fun v => p (b64_char v) = true)). intros n Hn.
  rewrite forallb_forall in H. apply H, in_seq. lia.
Qed.

Lemma all_bytes_map p f s : all_bytes p (map_bytes f s) = all_bytes (fun c => p (f c)) s.
Proof. induction s as [|c s IH]; cbn; [done|]. by rewrite IH. Qed.

Lemma Std_encode_bytes (p : ascii -> bool) s :
  p pad_char = true -> forallb (fun n => p (to_std (b64_char (Z.of_nat n)))) (seq 0 64) = true ->
  all_bytes p (Std_EncodeToString s) = true.
Proof.
  intros Hp Hc. unfold Std_EncodeToString. rewrite all_bytes_map. apply encode_bytes; [done|].
  intros v. by apply (b64_chars (fun c => p (to_std c))).
Qed.

Lemma Std_DecodeString_EncodeToString s : Std_DecodeString (Std_EncodeToString s) = Some s.
Proof.
  unfold Std_DecodeString, Std_EncodeToString. rewrite map_bytes_comp, map_bytes_id.
  - apply DecodeString_EncodeToString.
  - apply encode_bytes; [done|]. intros v. by apply (b64_chars (fun c => Ascii.eqb (of_std (to_std c)) c)).
Qed.
