(* ===== verification/Csrf.v ===== *)
(** * CSRF protection (csrf/csrf.go, mask.go, token.go, store.go, stores/memory.go)

    The token of a session lives in a store behind an interface ([Store]).
    [ReadThroughLaws] states what a store keeps whose calls all read and write
    one shared record; [MemoryStore], the default of NewE, is such a store.
    store.go lets a store do less: stores.SessionBagStore, which velocity.New
    installs, reads the session as the request loaded it, so a request loaded
    before a rotation or a revocation may still validate the old token.  That
    store is outside the laws and the theorems that use them.  A request is what the middleware reads of it: method,
    path, headers, the body as [io.ReadAll] delivers it.  The session behind a
    request, the exclusion function and the random bytes are inputs.  A token
    travels masked: a nonce and the token under it, in base64.

    Requests of many clients interleave at the store: every call of the store
    is one step, reads that miss and rotations take two. *)

From S2P Require Import Prelude GoStrings WebEncoding.
From Stdlib Require Import Ascii String.

Local Open Scope string_scope.
Local Open Scope list_scope.
Local Open Scope Z_scope.

(** ** mask.go, token.go *)

Definition tokenLength : Z := 32.
Definition encodedTokenLength : nat := Z.to_nat (EncodedLen tokenLength).

(** [nonce] is what [rand.Read] delivered, [None] when it failed. *)
Definition MaskToken (nonce : option string) (token : string) : option string :=
  if negb (String.length token =? encodedTokenLength)%nat then Some token
  else n ← nonce; Some (EncodeToString (n +:+ xor_bytes n token)).

Inductive tokenEncoding := encodingRaw | encodingMasked | encodingMalformed.

Definition decodeRequestToken (value : string) : string * tokenEncoding :=
  if (String.length value =? encodedTokenLength)%nat then (value, encodingRaw)
  else match DecodeString value with
       | Some decoded =>
           if (String.length decoded =? 2 * encodedTokenLength)%nat
           then (xor_bytes (str_take encodedTokenLength decoded) (str_drop encodedTokenLength decoded), encodingMasked)
           else (value, encodingMalformed)
       | None => (value, encodingMalformed)
       end.

Definition UnmaskToken (value : string) : string :=
  match decodeRequestToken value with (token, encodingMasked) => token | _ => value end.

Definition GenerateToken (rnd : option string) : option string := b ← rnd; Some (EncodeToString b).

Definition ValidateToken (token1 token2 : string) : bool := String.eqb token1 token2.

(** ** store.go *)

Inductive store_error := ErrTokenNotFound | ErrStore (n : nat).

(** The operations take the time of the call. *)
Class Store (S : Type) := {
  store_Get : Z -> S -> string -> S * result store_error string;
  store_Set : Z -> S -> string -> string -> S * option store_error;
  store_LoadOrStore : Z -> S -> string -> string -> S * result store_error (string * bool);
  store_Delete : S -> string -> S * option store_error;
  (* [AtomicConsumer], which a store may implement *)
  store_ConsumeIfMatch : option (Z -> S -> string -> string -> S * result store_error bool);
  (* what the store does on its own (a clean-up) *)
  store_Tick : Z -> S -> S
}.

(** What a store keeps that serves every call from one shared record, over
    [record], the token it holds for a session id whether it is still usable or
    not: a read returns the token held at that moment and adds none (a store
    that reads a snapshot of the request's session, as store.go allows, does not
    keep [get_ok]); a failed call changes nothing; loading stores the candidate only
    when no usable token is held; consuming removes what it matched. *)
Class ReadThroughLaws (S : Type) `{Store S} := {
  record : S -> string -> option string;
  get_ok now s id s' t : store_Get now s id = (s', Ok t) -> record s id = Some t;
  get_keeps now s id s' r i t : store_Get now s id = (s', r) -> record s' i = Some t -> record s i = Some t;
  set_ok now s id t s' i :
    store_Set now s id t = (s', None) -> record s' i = if String.eqb i id then Some t else record s i;
  set_err now s id t s' e i : store_Set now s id t = (s', Some e) -> record s' i = record s i;
  load_ok now s id c s' t b i :
    store_LoadOrStore now s id c = (s', Ok (t, b)) ->
    record s' i = (if String.eqb i id then Some t else record s i) /\
    (if b then record s id = Some t else t = c);
  load_err now s id c s' e i : store_LoadOrStore now s id c = (s', Err e) -> record s' i = record s i;
  delete_ok s id s' i :
    store_Delete s id = (s', None) -> record s' i = if String.eqb i id then None else record s i;
  delete_err s id s' e i : store_Delete s id = (s', Some e) -> record s' i = record s i;
  consume_ok f now s id t s' i :
    store_ConsumeIfMatch = Some f -> f now s id t = (s', Ok true) ->
    record s id = Some t /\ record s' i = if String.eqb i id then None else record s i;
  consume_no f now s id t s' r i t' :
    store_ConsumeIfMatch = Some f -> f now s id t = (s', r) -> record s' i = Some t' -> record s i = Some t';
  tick_keeps now s i t : record (store_Tick now s) i = Some t -> record s i = Some t
}.

(** ** stores/memory.go *)

Record tokenEntry := mkEntry { e_token : string; expiresAt : Z }.
Record MemoryStore := mkStore { tokens : gmap string tokenEntry; idleLifetime : Z }.

Definition NewMemoryStore (ttl : Z) : MemoryStore := mkStore ∅ (if 0 <? ttl then ttl else 24 * HOUR).

Definition with_tokens (s : MemoryStore) (m : gmap string tokenEntry) : MemoryStore := mkStore m (idleLifetime s).

Definition mem_Get (now : Z) (s : MemoryStore) (id : string) : MemoryStore * result store_error string :=
  match tokens s !! id with
  | None => (s, Err ErrTokenNotFound)
  | Some e =>
      if expiresAt e <? now then (with_tokens s (delete id (tokens s)), Err ErrTokenNotFound)
      else (with_tokens s (<[id := mkEntry (e_token e) (now + idleLifetime s)]> (tokens s)), Ok (e_token e))
  end.

Definition mem_Set (now : Z) (s : MemoryStore) (id token : string) : MemoryStore * option store_error :=
  (with_tokens s (<[id := mkEntry token (now + idleLifetime s)]> (tokens s)), None).

Definition mem_LoadOrStore (now : Z) (s : MemoryStore) (id candidate : string)
  : MemoryStore * result store_error (string * bool) :=
  match tokens s !! id with
  | Some e =>
      if negb (expiresAt e <? now)
      then (with_tokens s (<[id := mkEntry (e_token e) (now + idleLifetime s)]> (tokens s)), Ok (e_token e, true))
      else (with_tokens s (<[id := mkEntry candidate (now + idleLifetime s)]> (tokens s)), Ok (candidate, false))
  | None => (with_tokens s (<[id := mkEntry candidate (now + idleLifetime s)]> (tokens s)), Ok (candidate, false))
  end.

Definition mem_Delete (s : MemoryStore) (id : string) : MemoryStore * option store_error :=
  (with_tokens s (delete id (tokens s)), None).

Definition mem_ConsumeIfMatch (now : Z) (s : MemoryStore) (id expected : string)
  : MemoryStore * result store_error bool :=
  match tokens s !! id with
  | None => (s, Ok false)
  | Some e =>
      if expiresAt e <? now then (with_tokens s (delete id (tokens s)), Ok false)
      else if negb (String.eqb (e_token e) expected) then (s, Ok false)
      else (with_tokens s (delete id (tokens s)), Ok true)
  end.

Definition mem_Exists (now : Z) (s : MemoryStore) (id : string) : bool :=
  match tokens s !! id with None => false | Some e => negb (expiresAt e <? now) end.

(** One pass of [cleanup]. *)
Definition mem_cleanup (now : Z) (s : MemoryStore) : MemoryStore :=
  with_tokens s (filter (fun kv => now <= expiresAt kv.2) (tokens s)).

#[export] Instance MemoryStore_Store : Store MemoryStore := {|
  store_Get := mem_Get; store_Set := mem_Set; store_LoadOrStore := mem_LoadOrStore;
  store_Delete := mem_Delete; store_ConsumeIfMatch := Some mem_ConsumeIfMatch; store_Tick := mem_cleanup |}.

(** ** csrf.go *)

Inductive csrf_error :=
  | ErrTokenMissing | ErrTokenInvalid | ErrNoStore | ErrNoSession | ErrFormBodyTooLarge
  | ErrStoreFailed (e : store_error) | ErrRandom | ErrNewID
  | ErrResolver (n : nat).             (* an error of the resolver's own *)

(** The body as read under the cap: its bytes, or another read error. *)
Inductive body := NoBody | BodyBytes (b : string) | BodyError.

Record request := mkRequest {
  Method : string;
  Path : string;
  Header : string -> string;           (* [r.Header.Get] *)
  MediaType : option string;           (* [mime.ParseMediaType] of the Content-Type, when it parses *)
  Body : body
}.

Record Config := mkConfig {
  Env : string;
  ExcludeFunc : option (request -> bool);
  ExcludePaths : list string;
  FormField : string;
  HeaderName : string;
  MaxFormBodyBytes : Z;
  SessionIDResolver : request -> result csrf_error string;
  SingleUse : bool;
  WriteXSRFCookie : bool
}.

Definition xsrfHeaderName : string := "X-XSRF-TOKEN".
Definition DefaultMaxFormBodyBytes : Z := Z.shiftl 1 20.

(** contract/env.go. *)
Definition IsTestingEnv (env : string) : bool :=
  let e := to_lower (trim_space env) in String.eqb e "test" || String.eqb e "testing".

Definition isSafeMethod (m : string) : bool := String.eqb m "GET" || String.eqb m "HEAD" || String.eqb m "OPTIONS".

Definition matchPath (path pattern : string) : bool :=
  if has_suffix_byte "*" pattern
  then has_prefix (str_take (String.length pattern - 1) pattern) path
  else String.eqb path pattern.

Definition isExcluded (c : Config) (r : request) : bool :=
  existsb (matchPath (Path r)) (ExcludePaths c)
  || match ExcludeFunc c with Some f => f r | None => false end.

(** [getSessionID], with whether it dispatched [SessionMissing]. *)
Definition getSessionID (c : Config) (r : request) : result csrf_error string * bool :=
  match SessionIDResolver c r with
  | Err ErrNoSession => (Err ErrNoSession, true)
  | Err e => (Err e, false)
  | Ok id => if String.eqb id "" then (Err ErrNoSession, true) else (Ok id, false)
  end.

Definition getSessionIDQuiet (c : Config) (r : request) : result csrf_error string :=
  match SessionIDResolver c r with
  | Err e => Err e
  | Ok id => if String.eqb id "" then Err ErrNoSession else Ok id
  end.

(** The form field of an urlencoded body. *)
Definition token_from_body (c : Config) (r : request) : result csrf_error string :=
  match Body r with
  | NoBody => Ok ""
  | b =>
      match MediaType r with
      | None => Ok ""
      | Some mt =>
          if negb (String.eqb mt "application/x-www-form-urlencoded") then Ok ""
          else
            let cap := if MaxFormBodyBytes c <=? 0 then DefaultMaxFormBodyBytes else MaxFormBodyBytes c in
            match b with
            | BodyBytes s =>
                if cap <? Z.of_nat (String.length s) then Err ErrFormBodyTooLarge
                else match ParseQuery s with Some m => Ok (Values_Get m (FormField c)) | None => Ok "" end
            | _ => Ok ""
            end
      end
  end.

Definition getTokenFromRequest (c : Config) (r : request) : result csrf_error string :=
  let token := Header r (HeaderName c) in
  if negb (String.eqb token "") then Ok token
  else
    match QueryUnescape (Header r xsrfHeaderName) with
    | Some t => if negb (String.eqb t "") then Ok t else token_from_body c r
    | None => token_from_body c r
    end.

Section WithStore.
Context {S : Type} `{Store S}.
Variable c : Config.

(** [validateToken]: the store after it, whether [SessionMissing] was
    dispatched, and the session id and token it accepted. *)
Definition validateToken (now : Z) (s : S) (r : request) : S * bool * result csrf_error (string * string) :=
  match getTokenFromRequest c r with
  | Err e => (s, false, Err e)
  | Ok requestToken =>
      if String.eqb requestToken "" then (s, snd (getSessionID c r), Err ErrTokenMissing)
      else
        match decodeRequestToken requestToken with
        | (_, encodingMalformed) => (s, snd (getSessionID c r), Err ErrTokenMissing)
        | (requestToken, _) =>
            match getSessionID c r with
            | (Err e, missed) => (s, missed, Err e)
            | (Ok sessionID, missed) =>
                if SingleUse c then
                  match store_ConsumeIfMatch with
                  | None => (s, missed, Err ErrTokenInvalid)
                  | Some consume =>
                      match consume now s sessionID requestToken with
                      | (s, Ok true) => (s, missed, Ok (sessionID, requestToken))
                      | (s, _) => (s, missed, Err ErrTokenInvalid)
                      end
                  end
                else
                  match store_Get now s sessionID with
                  | (s, Err _) => (s, missed, Err ErrTokenInvalid)
                  | (s, Ok expectedToken) =>
                      if ValidateToken requestToken expectedToken then (s, missed, Ok (sessionID, requestToken))
                      else (s, missed, Err ErrTokenInvalid)
                  end
            end
        end
  end.

(** What [protect] does with a request. *)
Inductive verdict :=
  | Passed                                   (* safe, excluded or a test profile *)
  | Accepted (id token : string)
  | Rejected (e : csrf_error).

Definition protect_unsafe (now : Z) (s : S) (r : request) : S * bool * verdict :=
  if isExcluded c r then (s, false, Passed)
  else if IsTestingEnv (Env c) then (s, false, Passed)
  else match validateToken now s r with
       | (s, missed, Ok (id, t)) => (s, missed, Accepted id t)
       | (s, missed, Err e) => (s, missed, Rejected e)
       end.

(** The session whose token a safe request's XSRF-TOKEN cookie carries: the
    guards of [maybeWriteXSRFCookie] and [writeXSRFCookieForSession]. *)
Definition xsrf_session (r : request) : option string :=
  match getSessionIDQuiet c r with
  | Ok id => if WriteXSRFCookie c && negb (SingleUse c) then Some id else None
  | Err _ => None
  end.

(** The value of that cookie: the masked token, query-escaped. *)
Definition xsrf_cookie (nonce : option string) (token : string) : option string :=
  QueryEscape <$> MaskToken nonce token.

(** [GetToken], the read and, on a miss, the mint. *)
Definition GetToken_read (now : Z) (s : S) (id : string) : S * result csrf_error (option string) :=
  match store_Get now s id with
  | (s, Ok t) => (s, Ok (Some t))
  | (s, Err ErrTokenNotFound) => (s, Ok None)
  | (s, Err e) => (s, Err (ErrStoreFailed e))
  end.

Definition GetToken_mint (now : Z) (s : S) (id : string) (rnd : option string)
  : S * result csrf_error (string * bool) :=
  match GenerateToken rnd with
  | None => (s, Err ErrRandom)
  | Some candidate =>
      match store_LoadOrStore now s id candidate with
      | (s, Ok held) => (s, Ok held)
      | (s, Err e) => (s, Err (ErrStoreFailed e))
      end
  end.

(** [RotateToken]: retires the old id, then stores a fresh token. *)
Definition RotateToken_retire (s : S) (oldID newID : string) : S * option string :=
  if negb (String.eqb oldID "") && negb (String.eqb oldID newID) then
    match store_Delete s oldID with (s, None) => (s, Some oldID) | (s, Some _) => (s, None) end
  else (s, None).

Definition RotateToken_set (now : Z) (s : S) (newID : string) (rnd : option string)
  : S * result csrf_error string :=
  match GenerateToken rnd with
  | None => (s, Err ErrRandom)
  | Some token =>
      match store_Set now s newID token with
      | (s, None) => (s, Ok token)
      | (s, Some e) => (s, Err (ErrStoreFailed e))
      end
  end.

Definition RevokeToken (s : S) (id : string) : S * option store_error :=
  if String.eqb id "" then (s, None) else store_Delete s id.

(** ** Requests of many clients *)

Inductive event :=
  | EIssue (id t : string)            (* the store took a new token for the id *)
  | ERevoke (id : string)
  | EToken (id t : string)            (* a reader was handed the id's token *)
  | EPass (r : request)               (* an unsafe request went on unchecked *)
  | EAccept (r : request) (id t : string)
  | EReject (r : request) (e : csrf_error).

Inductive call := Free | Minting (id : string) | Rotating (newID : string).

Record world := mkWorld { st : S; calls : list call; log : list event }.

Inductive action :=
  | AProtect (r : request)
  | AGetToken (id : string)
  | AMint (rnd : option string)
  | ARotate (oldID newID : string)
  | ARotateSet (rnd : option string)
  | ARevoke (id : string)
  | ARefresh (r : request)
  | ATick.

Definition read_token (now : Z) (w : world) (i : nat) (id : string) : world :=
  match GetToken_read now (st w) id with
  | (s, Ok (Some t)) => mkWorld s (calls w) (EToken id t :: log w)
  | (s, Ok None) => mkWorld s (<[i := Minting id]> (calls w)) (log w)
  | (s, Err _) => mkWorld s (calls w) (log w)
  end.

Definition step (w : world) (i : nat) (now : Z) (a : action) : option world :=
  cl ← calls w !! i;
  match cl, a with
  | Free, AProtect r =>
      if isSafeMethod (Method r) then
        match xsrf_session r with
        | Some id => Some (read_token now w i id)
        | None => Some w
        end
      else
        match protect_unsafe now (st w) r with
        | (s, _, Passed) => Some (mkWorld s (calls w) (EPass r :: log w))
        | (s, _, Accepted id t) => Some (mkWorld s (calls w) (EAccept r id t :: log w))
        | (s, _, Rejected e) => Some (mkWorld s (calls w) (EReject r e :: log w))
        end
  | Free, AGetToken id => Some (read_token now w i id)
  | Minting id, AMint rnd =>
      match GetToken_mint now (st w) id rnd with
      | (s, Ok (t, true)) => Some (mkWorld s (<[i := Free]> (calls w)) (EToken id t :: log w))
      | (s, Ok (t, false)) => Some (mkWorld s (<[i := Free]> (calls w)) (EToken id t :: EIssue id t :: log w))
      | (s, Err _) => Some (mkWorld s (<[i := Free]> (calls w)) (log w))
      end
  | Free, ARotate oldID newID =>
      if String.eqb newID "" then Some w
      else
        let '(s, retired) := RotateToken_retire (st w) oldID newID in
        Some (mkWorld s (<[i := Rotating newID]> (calls w))
                (match retired with Some id => ERevoke id :: log w | None => log w end))
  | Rotating id, ARotateSet rnd =>
      match RotateToken_set now (st w) id rnd with
      | (s, Ok t) => Some (mkWorld s (<[i := Free]> (calls w)) (EIssue id t :: log w))
      | (s, Err _) => Some (mkWorld s (<[i := Free]> (calls w)) (log w))
      end
  | Free, ARevoke id =>
      match RevokeToken (st w) id with
      | (s, None) => Some (mkWorld s (calls w) (if String.eqb id "" then log w else ERevoke id :: log w))
      | (s, Some _) => Some (mkWorld s (calls w) (log w))
      end
  | Free, ARefresh r =>
      (* [RefreshHandler]: resolves the session and stores a fresh token *)
      match fst (getSessionID c r) with
      | Ok id => Some (mkWorld (st w) (<[i := Rotating id]> (calls w)) (log w))
      | Err _ => Some w
      end
  | _, ATick => Some (mkWorld (store_Tick now (st w)) (calls w) (log w))
  | _, _ => None
  end.

(** A run: who acts, when, and how. *)
Fixpoint steps (w : world) (ls : list (nat * Z * action)) : option world :=
  match ls with
  | [] => Some w
  | (i, now, a) :: ls => w' ← step w i now a; steps w' ls
  end.

End WithStore.

Arguments world S : clear implicits.

(** The abstract specification: the token a session may submit after the
    events so far (newest first) is the last one issued to it and neither
    revoked nor, with single use, accepted since. *)
Fixpoint valid (single : bool) (l : list event) (id : string) : option string :=
  match l with
  | [] => None
  | EIssue id' t :: l => if String.eqb id id' then Some t else valid single l id
  | ERevoke id' :: l => if String.eqb id id' then None else valid single l id
  | EAccept _ id' _ :: l => if single && String.eqb id id' then None else valid single l id
  | _ :: l => valid single l id
  end.
