(* ===== verification/CsrfSpec.v ===== *)
(** * CSRF protection: what a request must carry

    Masking loses nothing; in every interleaving of requests, an unsafe
    request that is not exempt is accepted only with the token last issued to
    its session and not revoked (or, with single use, spent) since; the tokens
    concurrent first reads hand out are one token; and the cookie a client
    echoes is accepted.  The second is proved for any store that serves every
    call from one shared record, the others for the store in memory. *)

From S2P Require Import Prelude GoStrings WebEncoding Csrf.
From Stdlib Require Import Ascii String.

Local Open Scope string_scope.
Local Open Scope list_scope.
Local Open Scope Z_scope.

(** ** The store in memory keeps the laws *)

Definition mem_record (s : MemoryStore) (id : string) : option string := e_token <$> tokens s !! id.

Lemma mem_insert s id t e i :
  mem_record (with_tokens s (<[id := mkEntry t e]> (tokens s))) i = if String.eqb i id then Some t else mem_record s i.
Proof.
  unfold mem_record. cbn. destruct (String.eqb_spec i id) as [->|Hne].
  - by rewrite lookup_insert_eq.
  - by rewrite lookup_insert_ne by done.
Qed.

Lemma mem_delete s id i :
  mem_record (with_tokens s (delete id (tokens s))) i = if String.eqb i id then None else mem_record s i.
Proof.
  unfold mem_record. cbn. destruct (String.eqb_spec i id) as [->|Hne].
  - by rewrite lookup_delete_eq.
  - by rewrite lookup_delete_ne by done.
Qed.

Lemma mem_held s id e : tokens s !! id = Some e -> mem_record s id = Some (e_token e).
Proof. intros He. unfold mem_record. by rewrite He. Qed.

Ltac mem_case :=
  repeat match goal with H : context [match ?x with _ => _ end] |- _ => destruct x eqn:?; try discriminate end;
  repeat match goal with
  | H : (_, _) = (_, _) |- _ => apply pair_equal_spec in H as [<- ?]
  | H : tokens ?s !! ?id = Some _ |- _ => apply mem_held in H
  | H : Ok _ = Ok _ |- _ => apply Ok_inj in H
  | H : Some ?f = Some _ |- _ => apply Some_inj in H as <-
  end; subst.

#[export] Program Instance MemoryStore_Laws : ReadThroughLaws MemoryStore := {| record := mem_record |}.
Next Obligation. cbn. unfold mem_Get. intros now s id s' t Hg. mem_case. congruence. Qed.
Next Obligation.
  cbn. unfold mem_Get. intros now s id s' r i t Hg. mem_case;
    rewrite ?mem_insert, ?mem_delete; try destruct (String.eqb_spec i id); congruence.
Qed.
Next Obligation. cbn. unfold mem_Set. intros now s id t s' i Hg. mem_case. apply mem_insert. Qed.
Next Obligation. done. Qed.
Next Obligation.
  cbn. unfold mem_LoadOrStore. intros now s id c s' t b i Hg. mem_case; rewrite ?mem_insert; simplify_eq; auto.
Qed.
Next Obligation. cbn. unfold mem_LoadOrStore. intros now s id c s' e i Hg. mem_case; congruence. Qed.
Next Obligation. cbn. unfold mem_Delete. intros s id s' i Hg. mem_case. apply mem_delete. Qed.
Next Obligation. done. Qed.
Next Obligation.
  cbn. intros f now s id t s' i Hf. mem_case. unfold mem_ConsumeIfMatch. intros Hg. mem_case.
  rewrite mem_delete. split; [|done].
  match goal with Hb : negb _ = false |- _ => apply negb_false_iff, String.eqb_eq in Hb; congruence end.
Qed.
Next Obligation.
  cbn. intros f now s id t s' r i t' Hf. mem_case. unfold mem_ConsumeIfMatch. intros Hg. mem_case;
    rewrite ?mem_delete; try destruct (String.eqb_spec i id); congruence.
Qed.
Next Obligation.
  cbn. intros now s i t. unfold mem_record, mem_cleanup. cbn.
  intros (e & He & ->)%fmap_Some. apply map_lookup_filter_Some in He as [He _]. by rewrite He.
Qed.

(** ** Masking *)

Lemma decode_masked n t :
  String.length n = encodedTokenLength -> String.length t = encodedTokenLength ->
  decodeRequestToken (EncodeToString (n +:+ xor_bytes n t)) = (t, encodingMasked).
Proof.
  intros Hn Ht. unfold decodeRequestToken. rewrite DecodeString_EncodeToString.
  assert (Hl : String.length (n +:+ xor_bytes n t) = (2 * encodedTokenLength)%nat)
    by (rewrite length_append, xor_bytes_length, Hn by congruence; lia).
  pose proof (str_take_app n (xor_bytes n t)) as H1. pose proof (str_drop_app n (xor_bytes n t)) as H2.
  rewrite Hn in H1, H2. rewrite Hl, Nat.eqb_refl, H1, H2, xor_bytes_cancel by congruence.
  pose proof (length_base64 (n +:+ xor_bytes n t)) as He. rewrite Hl in He.
  destruct (Nat.eqb_spec (String.length (EncodeToString (n +:+ xor_bytes n t))) encodedTokenLength) as [E|]; [|done].
  rewrite E in He. vm_compute in He. done.
Qed.

(** masking loses nothing: for a token of the issued length and a nonce of
    that length, the masked form is recognised as masked and unmasks to the
    token, and two emissions are equal only when token and nonce both are; a
    token of another length is emitted as it is, and a raw token is read as
    it stands. *)
Theorem masking_is_lossless n t :
  String.length n = encodedTokenLength ->
  (String.length t = encodedTokenLength ->
   exists m, MaskToken (Some n) t = Some m /\ decodeRequestToken m = (t, encodingMasked) /\ UnmaskToken m = t /\
     decodeRequestToken t = (t, encodingRaw) /\
     forall n' t', String.length n' = encodedTokenLength -> String.length t' = encodedTokenLength ->
       MaskToken (Some n') t' = Some m -> n' = n /\ t' = t) /\
  (String.length t <> encodedTokenLength -> MaskToken (Some n) t = Some t).
Proof.
  intros Hn. split; intros Ht; unfold MaskToken.
  - rewrite Ht, Nat.eqb_refl. cbn [negb]. exists (EncodeToString (n +:+ xor_bytes n t)).
    pose proof (decode_masked n t Hn Ht) as Hd.
    split_and!; [done|done|by unfold UnmaskToken; rewrite Hd| |].
    + unfold decodeRequestToken. by rewrite Ht, Nat.eqb_refl.
    + intros n' t' Hn' Ht'. rewrite Ht', Nat.eqb_refl. cbn [negb].
      intros He%Some_inj. split.
      * apply (f_equal DecodeString) in He. rewrite !DecodeString_EncodeToString in He. apply Some_inj in He.
        apply (f_equal (str_take encodedTokenLength)) in He.
        pose proof (str_take_app n (xor_bytes n t)) as H1. pose proof (str_take_app n' (xor_bytes n' t')) as H2.
        rewrite Hn in H1. rewrite Hn' in H2. congruence.
      * rewrite <- He, decode_masked in Hd by done. by apply pair_equal_spec in Hd as [? _].
  - destruct (Nat.eqb_spec (String.length t) encodedTokenLength); [done|]. done.
Qed.

Lemma masking_is_lossless_witness :
  let n := "0123456789abcdef0123456789ABCDEF0123456789+-" in
  let t := EncodeToString "0123456789abcdef0123456789abcdef" in
  exists m, MaskToken (Some n) t = Some m /\ UnmaskToken m = t.
Proof.
  intros n t. destruct (masking_is_lossless n t eq_refl) as [Hm _].
  destruct (Hm eq_refl) as (m & H1 & _ & H2 & _). exact (ex_intro _ m (conj H1 H2)).
Defined.

(** ** Only the issued token is accepted *)

Section Safety.
Context {S : Type} `{ReadThroughLaws S}.
Variable c : Config.

(** The request carries [t], masked or raw, and the session [id]. *)
Definition submits (r : request) (id t : string) : Prop :=
  SessionIDResolver c r = Ok id /\ id <> "" /\
  exists v enc, getTokenFromRequest c r = Ok v /\ decodeRequestToken v = (t, enc) /\ enc <> encodingMalformed.

Definition exempt (r : request) : Prop := isExcluded c r = true \/ IsTestingEnv (Env c) = true.

Definition fewer (s s' : S) : Prop := forall i t, record s' i = Some t -> record s i = Some t.

Lemma getSessionID_ok r id missed :
  getSessionID c r = (Ok id, missed) -> SessionIDResolver c r = Ok id /\ id <> "".
Proof.
  unfold getSessionID. destruct (SessionIDResolver c r) as [i|[]]; try done.
  destruct (String.eqb_spec i "") as [|Hne]; [done|]. intros [He _]%pair_equal_spec. apply Ok_inj in He as <-. done.
Qed.

Lemma validate_ok now s r s' missed id t :
  validateToken c now s r = (s', missed, Ok (id, t)) ->
  submits r id t /\ record s id = Some t /\
  fewer s s' /\ (SingleUse c = true -> record s' id = None).
Proof.
  unfold validateToken. destruct (getTokenFromRequest c r) as [v|] eqn:Hv; [|done].
  destruct (String.eqb v ""); [done|].
  destruct (decodeRequestToken v) as [t' enc] eqn:Hd.
  assert (Hs : forall i m, getSessionID c r = (Ok i, m) -> enc <> encodingMalformed -> submits r i t').
  { intros i m [Hr Hi]%getSessionID_ok He. split_and!; [done|done|by exists v, enc]. }
  destruct enc; try done;
    (destruct (getSessionID c r) as [[i|] m] eqn:Hi; [|done]; specialize (Hs i m eq_refl ltac:(done));
     destruct (SingleUse c) eqn:Hu;
     [ destruct store_ConsumeIfMatch as [f|] eqn:Hf; [|done];
       destruct (f now s i t') as [s2 [[]|]] eqn:Hc; try done;
       intros [[<- _]%pair_equal_spec [<- <-]%Ok_inj%pair_equal_spec]%pair_equal_spec;
       destruct (consume_ok f now s i t' s2 i Hf Hc) as [Hr Hn]; rewrite String.eqb_refl in Hn;
       split_and!; [done|done| |done]; intros j tj; eapply consume_no; eauto
     | destruct (store_Get now s i) as [s2 [t2|]] eqn:Hg; [|done];
       destruct (ValidateToken t' t2) eqn:Hval; [|done]; apply String.eqb_eq in Hval as ->;
       intros [[<- _]%pair_equal_spec [<- <-]%Ok_inj%pair_equal_spec]%pair_equal_spec;
       split_and!; [done|by eapply get_ok| |done]; intros j tj; by eapply get_keeps ]).
Qed.

Lemma validate_err now s r s' missed e : validateToken c now s r = (s', missed, Err e) -> fewer s s'.
Proof.
  intros Hv j tj. unfold validateToken in Hv.
  repeat match type of Hv with
  | context [let '(_, _) := ?x in _] => destruct x eqn:?
  | context [match ?x with _ => _ end] => destruct x eqn:?
  end; simplify_eq; try done; first [by eapply get_keeps|by eapply consume_no].
Qed.
(** What the log says of the store. *)
Definition honest (w : world S) : Prop :=
  forall id t, record (st w) id = Some t -> valid (SingleUse c) (log w) id = Some t.

Fixpoint justified (l : list event) : Prop :=
  match l with
  | [] => True
  | EAccept r id t :: l => (submits r id t /\ valid (SingleUse c) l id = Some t) /\ justified l
  | EPass r :: l => exempt r /\ justified l
  | _ :: l => justified l
  end.

Definition lawful (w : world S) : Prop := honest w /\ justified (log w).

(** A call that adds no token, logged by events that say nothing. *)
Lemma lawful_fewer w s cs l :
  lawful w -> fewer (st w) s -> valid (SingleUse c) l = valid (SingleUse c) (log w) -> justified l ->
  lawful (mkWorld s cs l).
Proof. intros [Hh _] Hf Hl Hj. split; [|done]. intros i t Hr. cbn. rewrite Hl. by apply Hh, Hf. Qed.

Lemma fewer_refl (s : S) : fewer s s.
Proof. by intros i t. Qed.

Lemma lawful_issue w s cs id t :
  lawful w -> (forall i, record s i = if String.eqb i id then Some t else record (st w) i) ->
  lawful (mkWorld s cs (EIssue id t :: log w)).
Proof.
  intros [Hh Hj] Hr. split; [|done]. intros i ti. cbn. rewrite Hr.
  destruct (String.eqb_spec i id); [done|apply Hh].
Qed.

Lemma lawful_token w s cs l id t : lawful (mkWorld s cs l) -> lawful (mkWorld s w (EToken id t :: l)).
Proof. intros [Hh Hj]. split; [apply Hh|done]. Qed.

Lemma lawful_revoke w s cs id :
  lawful w -> (forall i, record s i = if String.eqb i id then None else record (st w) i) ->
  lawful (mkWorld s cs (ERevoke id :: log w)).
Proof.
  intros [Hh Hj] Hr. split; [|done]. intros i ti. cbn. rewrite Hr.
  destruct (String.eqb_spec i id); [done|apply Hh].
Qed.

Lemma fewer_get now s id s' r : store_Get now s id = (s', r) -> fewer s s'.
Proof. intros Hg i t. by eapply get_keeps. Qed.

Lemma lawful_read now w i id : lawful w -> lawful (read_token now w i id).
Proof.
  intros Hw. unfold read_token, GetToken_read.
  destruct (store_Get now (st w) id) as [s [t|[]]] eqn:Hg; apply fewer_get in Hg;
    (apply (lawful_fewer w); [done|done|done|apply Hw]).
Qed.

Lemma lawful_unsafe now w r s missed v cs :
  lawful w -> protect_unsafe c now (st w) r = (s, missed, v) ->
  lawful (mkWorld s cs (match v with
                        | Passed => EPass r | Accepted id t => EAccept r id t | Rejected e => EReject r e
                        end :: log w)).
Proof.
  intros Hw. pose proof Hw as [Hh Hj]. unfold protect_unsafe.
  destruct (isExcluded c r) eqn:He; [|destruct (IsTestingEnv (Env c)) eqn:Ht].
  - intros [= <- <- <-]. apply (lawful_fewer w); [done|apply fewer_refl|done|]. split; [by left|done].
  - intros [= <- <- <-]. apply (lawful_fewer w); [done|apply fewer_refl|done|]. split; [by right|done].
  - destruct (validateToken c now (st w) r) as [[s2 m2] [[id t]|e]] eqn:Hv.
    + intros [= <- <- <-]. destruct (validate_ok _ _ _ _ _ _ _ Hv) as (Hs & Hr & Hf & Hu).
      split; [|split; [split; [done|by apply Hh]|done]].
      intros i ti Hi. cbn. pose proof (Hh i ti (Hf i ti Hi)) as Hi'.
      destruct (SingleUse c); cbn [andb]; [|done].
      destruct (String.eqb_spec i id) as [->|]; [|done]. cbn in Hi. by rewrite Hu in Hi.
    + intros [= <- <- <-]. apply validate_err in Hv. by apply (lawful_fewer w).
Qed.

Lemma lawful_step w i now a w' : lawful w -> step c w i now a = Some w' -> lawful w'.
Proof.
  intros Hw. unfold step. destruct (calls w !! i) as [cl|]; [|done]. cbn [mbind option_bind].
  assert (Htick : lawful (mkWorld (store_Tick now (st w)) (calls w) (log w))).
  { apply (lawful_fewer w); [done| |done|apply Hw]. intros j t. apply tick_keeps. }
  destruct cl as [|id|id], a as [r|id'|rnd|old new|rnd|id'|r|]; try done; try (by intros [= <-]).
  - destruct (isSafeMethod (Method r)).
    + destruct (xsrf_session c r); intros [= <-]; [by apply lawful_read|done].
    + destruct (protect_unsafe c now (st w) r) as [[s m] v] eqn:Hp.
      pose proof (lawful_unsafe _ _ _ _ _ _ (calls w) Hw Hp). destruct v; by intros [= <-].
  - intros [= <-]. by apply lawful_read.
  - destruct (String.eqb new ""); [by intros [= <-]|]. unfold RotateToken_retire.
    destruct (negb _ && negb _); [|intros [= <-]; by apply (lawful_fewer w); [|apply fewer_refl| |apply Hw]].
    destruct (store_Delete (st w) old) as [s [e|]] eqn:Hd; intros [= <-].
    + apply (lawful_fewer w); [done| |done|apply Hw]. intros j t. by rewrite (delete_err _ _ _ _ _ Hd).
    + apply lawful_revoke; [done|]. intros j. by apply delete_ok.
  - unfold RevokeToken. destruct (String.eqb id' ""); [by intros [= <-]; destruct w|].
    destruct (store_Delete (st w) id') as [s [e|]] eqn:Hd; intros [= <-].
    + apply (lawful_fewer w); [done| |done|apply Hw]. intros j t. by rewrite (delete_err _ _ _ _ _ Hd).
    + apply lawful_revoke; [done|]. intros j. by apply delete_ok.
  - destruct (getSessionID c r).1; intros [= <-]; [|done].
    by apply (lawful_fewer w); [|apply fewer_refl| |apply Hw].
  - unfold GetToken_mint. destruct (GenerateToken rnd) as [cand|];
      [|intros [= <-]; by apply (lawful_fewer w); [|apply fewer_refl| |apply Hw]].
    destruct (store_LoadOrStore now (st w) id cand) as [s [[t b]|e]] eqn:Hl.
    + destruct b; intros [= <-]; apply lawful_token with (cs := calls w).
      * apply (lawful_fewer w); [done| |done|apply Hw]. intros j tj.
        destruct (load_ok _ _ _ _ _ _ _ j Hl) as [-> Hb]. destruct (String.eqb_spec j id) as [->|]; [congruence|done].
      * apply lawful_issue; [done|]. intros j. by destruct (load_ok _ _ _ _ _ _ _ j Hl).
    + intros [= <-]. apply (lawful_fewer w); [done| |done|apply Hw]. intros j t. by rewrite (load_err _ _ _ _ _ _ _ Hl).
  - unfold RotateToken_set. destruct (GenerateToken rnd) as [t|];
      [|intros [= <-]; by apply (lawful_fewer w); [|apply fewer_refl| |apply Hw]].
    destruct (store_Set now (st w) id t) as [s [e|]] eqn:Hd; intros [= <-].
    + apply (lawful_fewer w); [done| |done|apply Hw]. intros j tj. by rewrite (set_err _ _ _ _ _ _ _ Hd).
    + apply lawful_issue; [done|]. intros j. by eapply set_ok.
Qed.

Lemma lawful_steps w ls w' : lawful w -> steps c w ls = Some w' -> lawful w'.
Proof.
  revert w. induction ls as [|[[i now] a] ls IH]; cbn [steps]; intros w Hw; [by intros [= <-]|].
  destruct (step c w i now a) as [w2|] eqn:Hs; [|done]. cbn. apply IH. by eapply lawful_step.
Qed.

Lemma justified_app l1 l2 : justified (l1 ++ l2) -> justified l2.
Proof. induction l1 as [|[] l1 IH]; cbn; tauto. Qed.

Lemma justified_pass r l : justified l -> EPass r ∈ l -> exempt r.
Proof.
  induction l as [|e l IH]; [by intros _ ?%not_elem_of_nil|]. intros Hj [He|Hin]%elem_of_cons.
  - rewrite <- He in Hj. apply Hj.
  - destruct e; cbn in Hj; tauto.
Qed.

Lemma valid_spent l1 id r t0 l2 t :
  valid true (l1 ++ EAccept r id t0 :: l2) id = Some t -> EIssue id t ∈ l1.
Proof.
  induction l1 as [|e l1 IH]; cbn; [by rewrite String.eqb_refl|].
  destruct e as [i u|i|i u|q|q i u|q u]; try (intros ?; right; by apply IH); cbn;
    destruct (String.eqb_spec id i) as [->|]; try done; try (intros ?; right; by apply IH).
  intros [= ->]. left.
Qed.

Definition begin (s : S) (k : nat) : world S := mkWorld s (replicate k Free) [].

(** C11: with a store that starts empty and serves every call from one shared
    record (stores.MemoryStore is proved to; stores.SessionBagStore, whose reads
    are the request's snapshot of its session, does not, and may accept a token
    replaced or revoked after the request was loaded, as store.go documents), in
    every interleaving of requests: an unsafe request goes on unchecked only
    when it is excluded or the instance runs under a test profile; a checked
    one is accepted only when it resolves to a session and carries the token
    last issued to that session and not revoked since; and with single use a
    second acceptance for a session needs a token issued after the first. *)
Theorem only_the_issued_token_is_accepted s k ls w :
  (forall id, record s id = None) -> steps c (begin s k) ls = Some w ->
  (forall r, EPass r ∈ log w -> exempt r) /\
  (forall r id t l1 l2, log w = l1 ++ EAccept r id t :: l2 ->
     submits r id t /\ valid (SingleUse c) l2 id = Some t /\
     (forall r' t' l3 l4, SingleUse c = true -> l2 = l3 ++ EAccept r' id t' :: l4 -> EIssue id t ∈ l3)).
Proof.
  intros Hempty Hst. assert (Hb : lawful (begin s k)) by (split; [|done]; intros i t; cbn; by rewrite Hempty).
  destruct (lawful_steps _ _ _ Hb Hst) as [_ Hj]. split; [intros r; by apply justified_pass|].
  intros r id t l1 l2 Hl. rewrite Hl in Hj. apply justified_app in Hj as [[Hs Hv] _]. split_and!; [done|done|].
  intros r' t' l3 l4 Hu ->. rewrite Hu in Hv. by eapply valid_spent.
Qed.
End Safety.

(** ** Witness *)

Definition token_a : string := EncodeToString "0123456789abcdef0123456789abcdef".

Definition test_config (single : bool) : Config :=
  mkConfig "production" None ["/hooks/*"] "_token" "X-CSRF-Token" 0 (fun _ => Ok "sid") single true.

Definition post (token : string) : request :=
  mkRequest "POST" "/orders" (fun h => if String.eqb h "X-CSRF-Token" then token else "") None NoBody.

Definition spend_once : list (nat * Z * action) :=
  [(0%nat, 0, AGetToken "sid"); (0%nat, 1, AMint (Some "0123456789abcdef0123456789abcdef"));
   (0%nat, 2, AProtect (post "forged")); (0%nat, 3, AProtect (post token_a)); (0%nat, 4, AProtect (post token_a))].

Definition spent : world MemoryStore :=
  default (begin (NewMemoryStore 0) 0) (steps (test_config true) (begin (NewMemoryStore 0) 1) spend_once).

Lemma only_the_issued_token_is_accepted_witness :
  log spent = [EReject (post token_a) ErrTokenInvalid; EAccept (post token_a) "sid" token_a;
               EReject (post "forged") ErrTokenMissing; EToken "sid" token_a; EIssue "sid" token_a] /\
  submits (test_config true) (post token_a) "sid" token_a.
Proof.
  assert (Hl : log spent = [EReject (post token_a) ErrTokenInvalid; EAccept (post token_a) "sid" token_a;
               EReject (post "forged") ErrTokenMissing; EToken "sid" token_a; EIssue "sid" token_a])
    by (vm_compute; reflexivity).
  split; [exact Hl|].
  refine (proj1 (proj2 (only_the_issued_token_is_accepted (test_config true) (NewMemoryStore 0) 1 spend_once spent _ _)
    _ _ _ [_] _ Hl)); [intros id; reflexivity|vm_compute; reflexivity].
Defined.

(** A TRACE request is checked like any unsafe one. *)
Lemma trace_requests_are_checked : isSafeMethod "TRACE" = false.
Proof. reflexivity. Qed.
