(* ===== verification/CsrfTokens.v ===== *)
(** * CSRF protection: a token lasts until it is replaced

    For the store in memory: once a reader was handed a session's token, every
    reader gets that token, and a request that echoes its cookie is accepted,
    until the token's idle time is over or the session's token is rotated,
    refreshed or revoked. *)

From S2P Require Import Prelude GoStrings WebEncoding Csrf CsrfSpec.
From Stdlib Require Import Ascii String.

Local Open Scope string_scope.
Local Open Scope list_scope.
Local Open Scope Z_scope.

(** The store holds [t] for [id] and does so until [T]. *)
Definition alive (s : MemoryStore) (id t : string) (T : Z) : Prop :=
  exists e, tokens s !! id = Some e /\ e_token e = t /\ T <= expiresAt e.

(** The actions that replace or remove the token of [id]. *)
Definition replaces (c : Config) (id : string) (a : action) : bool :=
  match a with
  | ARotate old new => String.eqb old id || String.eqb new id
  | ARevoke i => String.eqb i id
  | ARefresh r => match SessionIDResolver c r with Ok i => String.eqb i id | Err _ => false end
  | _ => false
  end.

Lemma alive_insert s id t T i e :
  alive s id t T -> (i = id -> e_token e = t /\ T <= expiresAt e) -> alive (with_tokens s (<[i := e]> (tokens s))) id t T.
Proof.
  intros (e0 & He & Ht & HT) Hi. unfold alive. cbn. destruct (String.eqb_spec i id) as [->|Hne].
  - exists e. rewrite lookup_insert_eq. by destruct (Hi eq_refl).
  - exists e0. by rewrite lookup_insert_ne by done.
Qed.

Lemma alive_delete s id t T i : alive s id t T -> i <> id -> alive (with_tokens s (delete i (tokens s))) id t T.
Proof. intros (e0 & He & Ht & HT) Hi. exists e0. cbn. by rewrite lookup_delete_ne by done. Qed.

(** Within one idle lifetime before [T]. *)
Definition within (s : MemoryStore) (T now : Z) : Prop := T - idleLifetime s <= now <= T.

Lemma alive_get s id t T now i s' r :
  alive s id t T -> within s T now -> mem_Get now s i = (s', r) ->
  alive s' id t T /\ idleLifetime s' = idleLifetime s /\ (i = id -> r = Ok t).
Proof.
  intros Ha [Hlo Hhi]. unfold mem_Get. destruct (tokens s !! i) as [e|] eqn:He.
  - assert (Hi : i = id -> e_token e = t /\ T <= expiresAt e).
    { intros ->. destruct Ha as (e' & He' & ? & ?). rewrite He in He'. by simplify_eq. }
    destruct (Z.ltb_spec (expiresAt e) now) as [Hx|Hx]; intros [<- <-]%pair_equal_spec.
    + assert (i <> id) by (intros ->; destruct (Hi eq_refl); lia).
      split_and!; [by apply alive_delete|done|done].
    + split_and!; [|done|intros ->; f_equal; by apply Hi]. apply alive_insert; [done|]. intros ->.
      split; [by apply Hi|cbn; lia].
  - intros [<- <-]%pair_equal_spec. split_and!; [done|done|]. intros ->.
    destruct Ha as (e' & He' & _). congruence.
Qed.

Lemma alive_load s id t T now i cand s' r :
  alive s id t T -> within s T now -> mem_LoadOrStore now s i cand = (s', r) ->
  alive s' id t T /\ idleLifetime s' = idleLifetime s /\ (i = id -> r = Ok (t, true)).
Proof.
  intros Ha [Hlo Hhi]. unfold mem_LoadOrStore. destruct (tokens s !! i) as [e|] eqn:He.
  - assert (Hi : i = id -> e_token e = t /\ T <= expiresAt e).
    { intros ->. destruct Ha as (e' & He' & ? & ?). rewrite He in He'. by simplify_eq. }
    destruct (Z.ltb_spec (expiresAt e) now) as [Hx|Hx]; cbn [negb]; intros [<- <-]%pair_equal_spec.
    + assert (i <> id) by (intros ->; destruct (Hi eq_refl); lia).
      split_and!; [by apply alive_insert|done|done].
    + split_and!; [|done|intros ->; by destruct (Hi eq_refl) as [-> _]]. apply alive_insert; [done|]. intros ->.
      split; [by apply Hi|cbn; lia].
  - assert (i <> id) by (intros ->; destruct Ha as (e' & He' & _); congruence).
    intros [<- <-]%pair_equal_spec. split_and!; [by apply alive_insert|done|done].
Qed.

Lemma alive_cleanup s id t T now :
  alive s id t T -> within s T now -> alive (mem_cleanup now s) id t T.
Proof.
  intros (e & He & Ht & HT) [_ Hhi]. exists e. split; [|done]. cbn. apply map_lookup_filter_Some. cbn. split; [done|lia].
Qed.

(** ** Runs *)

Section Runs.
Variables (c : Config) (id t : string) (T : Z).
Hypothesis reusable : SingleUse c = false.

(** The token is alive, no rotation of the session is under way, and every
    reader since [l] was handed [t]. *)
Definition settled (L : Z) (l : list event) (w : world MemoryStore) : Prop :=
  alive (st w) id t T /\ idleLifetime (st w) = L /\ Rotating id ∉ calls w /\
  exists l', log w = l' ++ l /\ forall t', EToken id t' ∈ l' -> t' = t.

Definition quiet (L : Z) (la : nat * Z * action) : Prop :=
  T - L <= la.1.2 <= T /\ replaces c id la.2 = false.

Lemma settled_with L l w s cs es :
  settled L l w -> alive s id t T -> idleLifetime s = L ->
  (Rotating id ∈ cs -> Rotating id ∈ calls w) -> (forall t', EToken id t' ∈ es -> t' = t) ->
  settled L l (mkWorld s cs (es ++ log w)).
Proof.
  intros (_ & _ & Hr & l' & Hl & Ht) Ha HL Hc He. split_and!; [done|done|cbn; tauto|].
  exists (es ++ l'). cbn. rewrite Hl, app_assoc. split; [done|]. intros t' [|]%elem_of_app; auto.
Qed.

Lemma rotating_insert i cl cs :
  cl <> Rotating id -> Rotating id ∈ (<[i := cl]> cs : list call) -> Rotating id ∈ cs.
Proof.
  intros Hne [j Hj]%list_elem_of_lookup. destruct (decide (i = j)) as [->|Hij].
  - destruct (decide (j < List.length cs)%nat) as [Hlt|Hge].
    + rewrite list_lookup_insert_eq in Hj by done. congruence.
    + rewrite list_insert_ge in Hj by lia. by eapply list_elem_of_lookup_2.
  - rewrite list_lookup_insert_ne in Hj by done. by eapply list_elem_of_lookup_2.
Qed.

Lemma settled_read L l w i now i0 :
  settled L l w -> T - L <= now <= T -> settled L l (read_token now w i i0).
Proof.
  intros Hw Hnow. pose proof Hw as (Ha & HL & _). rewrite <- HL in Hnow.
  unfold read_token, GetToken_read. change store_Get with mem_Get.
  destruct (mem_Get now (st w) i0) as [s r] eqn:Hg.
  destruct (alive_get _ _ _ _ _ _ _ _ Ha Hnow Hg) as (Ha' & HL' & Hr).
  destruct r as [t0|[]].
  - apply (settled_with L l w s (calls w) [EToken i0 t0]); [done|done|congruence|done|].
    intros t' [= <- <-]%list_elem_of_singleton. by apply (Ok_inj (E := store_error)), Hr.
  - apply (settled_with L l w s _ []); [done|done|congruence| |by intros t' ?%not_elem_of_nil].
    by apply rotating_insert.
  - apply (settled_with L l w s _ []); [done|done|congruence|done|by intros t' ?%not_elem_of_nil].
Qed.

Lemma validate_alive now s r s' missed v :
  alive s id t T -> within s T now -> validateToken c now s r = (s', missed, v) ->
  alive s' id t T /\ idleLifetime s' = idleLifetime s.
Proof.
  intros Ha Hnow Hv. unfold validateToken in Hv. rewrite reusable in Hv. change store_Get with mem_Get in Hv.
  destruct (getTokenFromRequest c r) as [q|]; [|by simplify_eq].
  destruct (String.eqb q ""); [by simplify_eq|].
  destruct (decodeRequestToken q) as [q' []]; [| |by simplify_eq];
    (destruct (getSessionID c r) as [[i|] m]; [|by simplify_eq];
     destruct (mem_Get now s i) as [s2 r2] eqn:Hg;
     destruct (alive_get _ _ _ _ _ _ _ _ Ha Hnow Hg) as (Ha' & HL' & _);
     destruct r2; [destruct (ValidateToken q' _)|]; by simplify_eq).
Qed.

Lemma settled_step L l w i now a w' :
  settled L l w -> quiet L (i, now, a) -> step c w i now a = Some w' -> settled L l w'.
Proof.
  intros Hw [Hnow Hq]. cbn in Hnow, Hq. pose proof Hw as (Ha & HL & Hrot & _).
  assert (Hnow' : within (st w) T now) by (unfold within; lia).
  assert (Hsame : forall cs es, (Rotating id ∈ cs -> Rotating id ∈ calls w) ->
    (forall t', EToken id t' ∈ es -> t' = t) -> settled L l (mkWorld (st w) cs (es ++ log w)))
    by (intros; by apply settled_with).
  assert (Hnone : forall t', EToken id t' ∈ ([] : list event) -> t' = t) by by intros t' ?%not_elem_of_nil.
  unfold step. destruct (calls w !! i) as [cl|] eqn:Hcl; [|done]. cbn [mbind option_bind].
  destruct cl as [|i0|i0], a as [r|i1|rnd|old new|rnd|i1|r|]; try done;
    try (intros [= <-]; apply (settled_with L l w _ _ []); [done|by apply alive_cleanup|done|done|done]).
  - destruct (isSafeMethod (Method r)).
    + destruct (xsrf_session c r); intros [= <-]; [by apply settled_read|done].
    + unfold protect_unsafe. destruct (isExcluded c r), (IsTestingEnv (Env c));
        try (intros [= <-]; apply (Hsame _ [_]); [done|]; by intros t' ?%list_elem_of_singleton).
      destruct (validateToken c now (st w) r) as [[s m] v] eqn:Hv.
      destruct (validate_alive _ _ _ _ _ _ Ha Hnow' Hv) as [Ha' HL'].
      destruct v as [[i2 t2]|e]; intros [= <-]; apply (settled_with L l w _ _ [_]);
        try done; try congruence; by intros t' ?%list_elem_of_singleton.
  - intros [= <-]. by apply settled_read.
  - cbn in Hq. apply orb_false_iff in Hq as [Hold%String.eqb_neq Hnew%String.eqb_neq].
    destruct (String.eqb new ""); [by intros [= <-]|]. unfold RotateToken_retire.
    assert (Hc : Rotating id ∈ (<[i := Rotating new]> (calls w)) -> Rotating id ∈ calls w)
      by (apply rotating_insert; congruence).
    destruct (negb _ && negb _); intros [= <-]; [|by apply (Hsame _ [])].
    apply (settled_with L l w _ _ [_]); [done|by apply alive_delete|done|done|]. by intros t' ?%list_elem_of_singleton.
  - cbn in Hq. apply String.eqb_neq in Hq. unfold RevokeToken.
    destruct (String.eqb i1 ""); [by intros [= <-]; apply (Hsame _ [])|]. intros [= <-].
    apply (settled_with L l w _ _ [_]); [done|by apply alive_delete|done|done|]. by intros t' ?%list_elem_of_singleton.
  - cbn in Hq. destruct (getSessionID c r) as [[i1|] m] eqn:Hi; cbn [fst]; intros [= <-]; [|done].
    apply getSessionID_ok in Hi as [Hi _]. rewrite Hi in Hq. apply String.eqb_neq in Hq.
    apply (Hsame _ []); [|done]. apply rotating_insert. congruence.
  - unfold GetToken_mint. destruct (GenerateToken rnd) as [cand|];
      [|intros [= <-]; apply (Hsame _ []); [by apply rotating_insert|done]].
    change store_LoadOrStore with mem_LoadOrStore.
    destruct (mem_LoadOrStore now (st w) i0 cand) as [s r] eqn:Hl.
    destruct (alive_load _ _ _ _ _ _ _ _ _ Ha Hnow' Hl) as (Ha' & HL' & Hr).
    assert (Hread : forall t1 b, r = Ok (t1, b) -> forall t', EToken id t' ∈ [EToken i0 t1] -> t' = t).
    { intros t1 b -> t' [= <- <-]%list_elem_of_singleton. specialize (Hr eq_refl). congruence. }
    destruct r as [[t1 []]|e]; intros [= <-].
    + apply (settled_with L l w _ _ [_]); [done|done|congruence|by apply rotating_insert|by apply (Hread _ true)].
    + apply (settled_with L l w _ _ [_; _]); [done|done|congruence|by apply rotating_insert|].
      intros t' [Ht|Ht%list_elem_of_singleton]%elem_of_cons; [|done].
      apply (Hread _ false eq_refl). rewrite <- Ht. by apply list_elem_of_singleton.
    + apply (settled_with L l w _ _ []); [done|done|congruence|by apply rotating_insert|done].
  - assert (Hne : i0 <> id) by (intros ->; apply Hrot; by eapply list_elem_of_lookup_2).
    unfold RotateToken_set. destruct (GenerateToken rnd) as [t1|];
      [|intros [= <-]; apply (Hsame _ []); [by apply rotating_insert|done]].
    intros [= <-]. apply (settled_with L l w _ _ [_]); [done| |done|by apply rotating_insert|].
    + by apply alive_insert.
    + by intros t' ?%list_elem_of_singleton.
Qed.

Lemma settled_steps L l ls w w' :
  settled L l w -> Forall (quiet L) ls -> steps c w ls = Some w' -> settled L l w'.
Proof.
  revert w. induction ls as [|[[i now] a] ls IH]; cbn [steps]; intros w Hw Hq; [by intros [= <-]|].
  inversion Hq as [|? ? Hq1 Hq2]; subst.
  destruct (step c w i now a) as [w2|] eqn:Hs; [|done]. cbn. apply IH; [|done]. by eapply settled_step.
Qed.
End Runs.

(** [GetToken] returned [t] for [id], by its read or by its mint. *)
Definition handed_out (s s' : MemoryStore) (now : Z) (id t : string) : Prop :=
  GetToken_read now s id = (s', Ok (Some t)) \/
  exists rnd b, GetToken_mint now s id rnd = (s', Ok (t, b)).

Lemma handed_alive s s' now id t :
  handed_out s s' now id t -> alive s' id t (now + idleLifetime s) /\ idleLifetime s' = idleLifetime s.
Proof.
  unfold handed_out, GetToken_read, GetToken_mint.
  change store_Get with mem_Get. change store_LoadOrStore with mem_LoadOrStore.
  assert (Hins : forall e, alive (with_tokens s (<[id := mkEntry e (now + idleLifetime s)]> (tokens s))) id e
    (now + idleLifetime s)) by (intros e; eexists; cbn; rewrite lookup_insert_eq; split; [done|cbn; split; [done|lia]]).
  intros [Hr|(rnd & b & Hm)].
  - unfold mem_Get in Hr. repeat (case_match; try discriminate); simplify_eq. split; [apply Hins|done].
  - destruct (GenerateToken rnd) as [cand|]; [|done]. unfold mem_LoadOrStore in Hm.
    repeat (case_match; try discriminate); simplify_eq; (split; [apply Hins|done]).
Qed.

(** A request that carries the XSRF-TOKEN cookie in its header. *)
Definition echoes (c : Config) (r : request) (id v : string) : Prop :=
  isExcluded c r = false /\ IsTestingEnv (Env c) = false /\ SessionIDResolver c r = Ok id /\ id <> "" /\
  Header r (HeaderName c) = "" /\ Header r xsrfHeaderName = v.

Lemma echoed_token c r id v n t :
  echoes c r id v -> String.length t = encodedTokenLength -> String.length n = encodedTokenLength ->
  xsrf_cookie (Some n) t = Some v ->
  exists m, getTokenFromRequest c r = Ok m /\ String.eqb m "" = false /\ decodeRequestToken m = (t, encodingMasked).
Proof.
  intros (_ & _ & _ & _ & Hh & Hx) Ht Hn. unfold xsrf_cookie, MaskToken. rewrite Ht, Nat.eqb_refl.
  cbn [negb mbind option_bind]. intros Hv%Some_inj. set (m := EncodeToString _) in Hv. exists m.
  pose proof (decode_masked n t Hn Ht) as Hd. fold m in Hd.
  assert (Hne : String.eqb m "" = false) by (destruct (String.eqb_spec m "") as [E|]; [rewrite E in Hd; by vm_compute in Hd|done]).
  split_and!; [|done|done]. unfold getTokenFromRequest. rewrite Hh, Hx, <- Hv, QueryUnescape_QueryEscape, Hne. done.
Qed.

Lemma echo_accepted c r id v n t now s :
  SingleUse c = false -> echoes c r id v -> String.length t = encodedTokenLength -> String.length n = encodedTokenLength ->
  xsrf_cookie (Some n) t = Some v -> forall s', mem_Get now s id = (s', Ok t) ->
  protect_unsafe c now s r = (s', false, Accepted id t).
Proof.
  intros Hu He Ht Hn Hv s' Hg. destruct (echoed_token _ _ _ _ _ _ He Ht Hn Hv) as (m & Hm & Hne & Hd).
  destruct He as (Hex & Hte & Hr & Hid & _). unfold protect_unsafe, validateToken, getSessionID.
  rewrite Hex, Hte, Hm, Hne, Hd, Hr, Hu. destruct (String.eqb_spec id "") as [|_]; [done|].
  change store_Get with mem_Get. rewrite Hg. unfold ValidateToken. by rewrite String.eqb_refl.
Qed.

(** C32: with the in-memory store, when tokens are reusable, once a reader was handed a session's token,
    then for one idle lifetime, while nothing rotates, refreshes or revokes
    the session's token: every reader that asks for it meanwhile, in any
    interleaving, is handed the same token, and a request of the session that
    echoes the cookie made from it is accepted. *)
Theorem tokens_last_until_replaced c s s' now0 id t cs l ls w :
  SingleUse c = false -> handed_out s s' now0 id t -> Rotating id ∉ cs ->
  Forall (quiet c id (now0 + idleLifetime s) (idleLifetime s)) ls ->
  steps c (mkWorld s' cs l) ls = Some w ->
  (forall l' t', log w = l' ++ l -> EToken id t' ∈ l' -> t' = t) /\
  (forall r n v now, echoes c r id v -> String.length t = encodedTokenLength -> String.length n = encodedTokenLength ->
     xsrf_cookie (Some n) t = Some v -> now0 <= now <= now0 + idleLifetime s ->
     exists s2, protect_unsafe c now (st w) r = (s2, false, Accepted id t)).
Proof.
  intros Hu Hh Hrot Hq Hst. destruct (handed_alive _ _ _ _ _ Hh) as [Ha HL].
  assert (H0 : settled id t (now0 + idleLifetime s) (idleLifetime s) l (mkWorld s' cs l)).
  { split_and!; [done|done|done|]. exists []. split; [done|]. by intros t' ?%not_elem_of_nil. }
  destruct (settled_steps c id t _ Hu _ _ _ _ _ H0 Hq Hst) as (Ha' & HL' & _ & l' & Hl & Ht). split.
  - intros l2 t' Hl2. rewrite Hl in Hl2. apply app_inv_tail in Hl2 as <-. apply Ht.
  - intros r n v now He Hlt Hln Hv Hnow.
    destruct (mem_Get now (st w) id) as [s2 q] eqn:Hg.
    assert (Hw : within (st w) (now0 + idleLifetime s) now) by (unfold within; lia).
    destruct (alive_get _ _ _ _ _ _ _ _ Ha' Hw Hg) as (_ & _ & Hq').
    rewrite (Hq' eq_refl) in Hg. exists s2. by eapply echo_accepted.
Qed.

(** ** Witness *)

(** Two tabs of one session open at once; the second tab's cookie is echoed. *)
Definition two_tabs : list (nat * Z * action) :=
  [(1%nat, 2, AMint (Some "ffffffffffffffffffffffffffffffff")); (0%nat, 3, AGetToken "sid")].

Definition after_mint : MemoryStore := fst (mem_LoadOrStore 1 (NewMemoryStore 0) "sid" token_a).

Definition tabs_open : world MemoryStore :=
  default (begin after_mint 0) (steps (test_config false) (mkWorld after_mint [Free; Minting "sid"] []) two_tabs).

Definition nonce_a : string := "0123456789abcdef0123456789ABCDEF0123456789+-".

Definition cookie_a : string := default "" (xsrf_cookie (Some nonce_a) token_a).

Definition echo_post : request :=
  mkRequest "POST" "/orders" (fun h => if String.eqb h "X-XSRF-TOKEN" then cookie_a else "") None NoBody.

Lemma tokens_last_until_replaced_witness :
  log tabs_open = [EToken "sid" token_a; EToken "sid" token_a] /\
  exists s2, protect_unsafe (test_config false) 9 (st tabs_open) echo_post = (s2, false, Accepted "sid" token_a).
Proof.
  split; [vm_compute; reflexivity|].
  assert (Hq : Forall (quiet (test_config false) "sid" (1 + 24 * HOUR) (24 * HOUR)) two_tabs).
  { repeat constructor; cbn; unfold HOUR, MINUTE, SECOND; lia. }
  refine (proj2 (tokens_last_until_replaced (test_config false) (NewMemoryStore 0) after_mint 1 "sid" token_a
    [Free; Minting "sid"] [] two_tabs tabs_open eq_refl _ _ Hq _) echo_post nonce_a cookie_a 9 _ eq_refl eq_refl _ _).
  - right. exists (Some "0123456789abcdef0123456789abcdef"), false. reflexivity.
  - by intros [[=]|[[=]|?%not_elem_of_nil]%elem_of_cons]%elem_of_cons.
  - vm_compute. reflexivity.
  - split_and!; reflexivity || discriminate.
  - vm_compute. reflexivity.
  - cbn. unfold HOUR, MINUTE, SECOND. lia.
Defined.
