(* ===== verification/CsrfCache.v ===== *)
(** * The CSRF token cache of a request (csrf/request_token.go, internal/buildonce)

    [requestTokenState] keeps the masked token of the session a request is
    served under.  Goroutines of the request read it ([tokenFor]), the first
    reader of a session loads it from the store under a build of its own
    ([buildonce.Group.Do]), and a rotation replaces it
    ([replaceAfterRotation]).  Every section under a mutex and every call of
    the store is one step; the goroutines interleave between steps.  A request
    is short: the store (in memory) is read at one time, and [gen] counts in
    the naturals.  Rotations of one request are one at a time, as under the
    session's gate. *)

From S2P Require Import Prelude GoStrings WebEncoding Csrf CsrfSpec CsrfTokens.
From Stdlib Require Import Ascii String.

Local Open Scope string_scope.
Local Open Scope list_scope.

(** [requestTokenState]: the cached pair; the error is only its presence. *)
Record requestTokenState := mkState {
  loaded : bool;
  sessionID : string;
  token : string;
  failed : bool;
  gen : nat
}.

(** What a load or a read returns: the masked token, or an error. *)
Definition outcome : Type := option string.

Definition cached (s : requestTokenState) : outcome := if failed s then None else Some (token s).

Definition hit (s : requestTokenState) (id : string) : bool := loaded s && String.eqb (sessionID s) id.

Definition cachedFor (s : requestTokenState) (id : string) : option string :=
  if negb (hit s id) || failed s || String.eqb (token s) "" then None else Some (token s).

Definition store_pair (s : requestTokenState) (id : string) (r : outcome) : requestTokenState :=
  mkState true id (default "" r) (if r then false else true) (S (gen s)).

(** A build of [buildonce.Group]: running, or its result. *)
Definition build := option outcome.

(** A reader of [tokenFor]; [b] names its build. *)
Inductive reader :=
  | Reading
  | Start (id : string)
  | Enter (id : string)                                  (* at [loads.Do] *)
  | Wait (b : nat)                                       (* waits for another's build *)
  | Check (id : string) (b : nat)                        (* the build's first section *)
  | Load (id : string) (b g : nat)                       (* at [Store.Get] *)
  | Mint (id : string) (b g : nat)                       (* at [Store.LoadOrStore] *)
  | Publish (id : string) (b g : nat) (r : option string)
  | Finish (id : string) (b : nat) (r : outcome).

Inductive rotation :=
  | NoRotation
  | ToSet (oldID newID : string)
  | ToReplace (oldID newID t : string).

Inductive event :=
  | ERead (r : outcome)
  | ELeftAlone                (* a rotation left the cache of a third session alone *)
  | EAborted.                 (* a rotation ended before it stored a token *)

Record world := mkWorld {
  store : MemoryStore;
  state : requestTokenState;
  running : gmap string nat;          (* [Group.calls] *)
  builds : list build;
  readers : list reader;
  rot : rotation;
  events : list event
}.

Inductive action :=
  | ARead (id : string)
  | AGo                               (* the reader's next section or store call *)
  | ADraw (rnd : option string)       (* one that takes random bytes *)
  | ACancel                           (* the waiter's context ends *)
  | ARotate (oldID newID : string)
  | ARotateSet (rnd : option string)
  | AReplace (nonce : option string).

(** ** tokenFor *)

Section Steps.
Variable now : Z.

Definition set_reader (w : world) (i : nat) (r : reader) : world :=
  mkWorld (store w) (state w) (running w) (builds w) (<[i := r]> (readers w)) (rot w) (events w).
Definition set_state (w : world) (s : requestTokenState) : world :=
  mkWorld (store w) s (running w) (builds w) (readers w) (rot w) (events w).
Definition set_store (w : world) (s : MemoryStore) : world :=
  mkWorld s (state w) (running w) (builds w) (readers w) (rot w) (events w).
Definition say (w : world) (e : event) : world :=
  mkWorld (store w) (state w) (running w) (builds w) (readers w) (rot w) (e :: events w).
Definition returns (w : world) (i : nat) (r : outcome) : world := say (set_reader w i Reading) (ERead r).

(** The first section of [tokenFor]. *)
Definition tokenFor (w : world) (i : nat) (id : string) : world :=
  let s := state w in
  if hit s id then returns w i (cached s)
  else if String.eqb id "" then returns (set_state w (store_pair s "" (Some ""))) i (Some "")
  else set_reader w i (Enter id).

(** [Group.Do]: joins the running build of the key or starts one. *)
Definition Do (w : world) (i : nat) (id : string) : world :=
  match running w !! id with
  | Some b => set_reader w i (Wait b)
  | None =>
      let b := List.length (builds w) in
      set_reader (mkWorld (store w) (state w) (<[id := b]> (running w)) (builds w ++ [None])
                    (readers w) (rot w) (events w)) i (Check id b)
  end.

Definition finish (w : world) (i : nat) (id : string) (b : nat) (r : outcome) : world :=
  let running' := if decide (running w !! id = Some b) then delete id (running w) else running w in
  returns (mkWorld (store w) (state w) running' (<[b := Some r]> (builds w)) (readers w) (rot w) (events w)) i r.

(** The last section of a build: [r] is the token the store holds. *)
Definition publish_load (w : world) (i : nat) (id : string) (b g : nat) (r nonce : option string) : world :=
  let r := t ← r; MaskToken nonce t in
  let s := state w in
  if negb (gen s =? g)%nat
  then set_reader w i (Finish id b (if hit s id then cached s else r))
  else set_reader (set_state w (store_pair s id r)) i (Finish id b r).

Definition reader_step (w : world) (i : nat) (a : action) (r : reader) : option world :=
  match r, a with
  | Reading, ARead id => Some (set_reader w i (Start id))
  | Start id, AGo => Some (tokenFor w i id)
  | Enter id, AGo => Some (Do w i id)
  | Wait b, AGo => match builds w !! b with Some (Some r) => Some (returns w i r) | _ => None end
  | Wait b, ACancel => Some (returns w i None)
  | Check id b, AGo =>
      if hit (state w) id then Some (set_reader w i (Finish id b (cached (state w))))
      else Some (set_reader w i (Load id b (gen (state w))))
  | Load id b g, AGo =>
      match GetToken_read now (store w) id with
      | (s, Ok (Some t)) => Some (set_reader (set_store w s) i (Publish id b g (Some t)))
      | (s, Ok None) => Some (set_reader (set_store w s) i (Mint id b g))
      | (s, Err _) => Some (set_reader (set_store w s) i (Publish id b g None))
      end
  | Mint id b g, ADraw rnd =>
      match GetToken_mint now (store w) id rnd with
      | (s, Ok (t, _)) => Some (set_reader (set_store w s) i (Publish id b g (Some t)))
      | (s, Err _) => Some (set_reader (set_store w s) i (Publish id b g None))
      end
  | Publish id b g r, ADraw nonce => Some (publish_load w i id b g r nonce)
  | Finish id b r, AGo => Some (finish w i id b r)
  | _, _ => None
  end.

(** ** Rotations *)

Definition replaceAfterRotation (s : requestTokenState) (oldID newID t : string) (nonce : option string)
  : requestTokenState * bool :=
  if loaded s && negb (String.eqb (sessionID s) oldID) && negb (String.eqb (sessionID s) newID) then (s, false)
  else match MaskToken nonce t with
       | None => (mkState false "" "" false (S (gen s)), true)
       | Some masked => (mkState true newID masked false (S (gen s)), true)
       end.

Definition set_rot (w : world) (r : rotation) : world :=
  mkWorld (store w) (state w) (running w) (builds w) (readers w) r (events w).

Definition rotation_step (w : world) (a : action) : option world :=
  match rot w, a with
  | NoRotation, ARotate oldID newID =>
      if String.eqb newID "" then Some w
      else let '(s, _) := RotateToken_retire (store w) oldID newID in
           Some (set_rot (set_store w s) (ToSet oldID newID))
  | ToSet oldID newID, ARotateSet rnd =>
      match RotateToken_set now (store w) newID rnd with
      | (s, Ok t) => Some (set_rot (set_store w s) (ToReplace oldID newID t))
      | (s, Err _) => Some (say (set_rot (set_store w s) NoRotation) EAborted)
      end
  | ToReplace oldID newID t, AReplace nonce =>
      let '(s, done) := replaceAfterRotation (state w) oldID newID t nonce in
      let w := set_rot (set_state w s) NoRotation in
      Some (if done then w else say w ELeftAlone)
  | _, _ => None
  end.

Definition step (w : world) (i : nat) (a : action) : option world :=
  match a with
  | ARotate _ _ | ARotateSet _ | AReplace _ => rotation_step w a
  | _ => r ← readers w !! i; reader_step w i a r
  end.

Fixpoint steps (w : world) (ls : list (nat * action)) : option world :=
  match ls with
  | [] => Some w
  | (i, a) :: ls => w' ← step w i a; steps w' ls
  end.

End Steps.

Definition start (s : MemoryStore) (k : nat) : world :=
  mkWorld s (mkState false "" "" false 0) ∅ [] (replicate k Reading) NoRotation [].

(** ** The cached token is the stored one *)

Section Cache.
Variable now : Z.

Definition touched (r : rotation) (id : string) : Prop :=
  match r with
  | NoRotation => False
  | ToSet o n | ToReplace o n _ => id = o \/ id = n
  end.

(** The store holds [t] for [id], unless the rotation under way changes it. *)
Definition fits (s : MemoryStore) (r : rotation) (id t : string) : Prop := alive s id t now \/ touched r id.

Definition cache_ok (F : string -> string -> Prop) (s : requestTokenState) : Prop :=
  loaded s = true -> failed s = false -> sessionID s <> "" ->
  exists n t, MaskToken n t = Some (token s) /\ F (sessionID s) t.

Definition reader_ok (g0 : nat) (F : string -> string -> Prop) (r : reader) : Prop :=
  match r with
  | Load _ _ g | Mint _ _ g => (g <= g0)%nat
  | Publish id _ g o => (g <= g0)%nat /\ (g = g0 -> forall t, o = Some t -> F id t)
  | _ => True
  end.

Record inv (s : MemoryStore) (c : requestTokenState) (rs : list reader) (r : rotation) : Prop := {
  inv_life : (0 <= idleLifetime s)%Z;
  inv_cache : cache_ok (fits s r) c;
  inv_readers : Forall (reader_ok (gen c) (fits s r)) rs;
  inv_set : match r with ToReplace _ n t => alive s n t now | _ => True end
}.

Definition clean (es : list event) : Prop := ELeftAlone ∉ es /\ EAborted ∉ es.
Definition good (w : world) : Prop := clean (events w) -> inv (store w) (state w) (readers w) (rot w).

Lemma cache_ok_mono (F F' : string -> string -> Prop) s :
  (forall id t, F id t -> F' id t) -> cache_ok F s -> cache_ok F' s.
Proof. intros HF Hc H1 H2 H3. destruct (Hc H1 H2 H3) as (n & t & Hm & Hf). eauto. Qed.

Lemma reader_ok_mono g0 (F F' : string -> string -> Prop) r :
  (forall id t, F id t -> F' id t) -> reader_ok g0 F r -> reader_ok g0 F' r.
Proof. intros HF. destruct r; cbn; intuition. Qed.

Lemma reader_ok_next g0 (F F' : string -> string -> Prop) r : reader_ok g0 F r -> reader_ok (S g0) F' r.
Proof. destruct r; cbn; lia. Qed.

(** Changing the store, or the rotation, so that what fitted still fits. *)
Lemma inv_store s c rs r s' r' :
  inv s c rs r -> (0 <= idleLifetime s')%Z -> (forall id t, fits s r id t -> fits s' r' id t) ->
  match r' with ToReplace _ n t => alive s' n t now | _ => True end -> inv s' c rs r'.
Proof.
  intros [H1 H2 H3 H4] HL HF HS. split; [done|by eapply cache_ok_mono| |done].
  eapply Forall_impl; [exact H3|]. intros x. by apply reader_ok_mono.
Qed.

Lemma inv_reader s c rs r i x :
  inv s c rs r -> reader_ok (gen c) (fits s r) x -> inv s c (<[i := x]> rs) r.
Proof. intros [H1 H2 H3 H4] Hx. split; [done|done| |done]. by apply Forall_insert. Qed.

(** A new cached pair under the next generation. *)
Lemma inv_state s c rs r r' c' :
  inv s c rs r -> gen c' = S (gen c) -> cache_ok (fits s r') c' ->
  match r' with ToReplace _ n t => alive s n t now | _ => True end -> inv s c' rs r'.
Proof.
  intros [H1 H2 H3 H4] Hg Hc Hr. split; [done|done| |done]. rewrite Hg.
  eapply Forall_impl; [exact H3|]. intros x. apply reader_ok_next.
Qed.

Lemma within_now s : (0 <= idleLifetime s)%Z -> within s now now.
Proof. unfold within. lia. Qed.

Lemma alive_le s id t T : (now <= T)%Z -> alive s id t T -> alive s id t now.
Proof. intros HT (e & He & Ht & Hx). exists e. split_and!; [done|done|lia]. Qed.

(** A read or a mint of the store keeps every token it holds. *)
Lemma read_fits s id s' r rt i t :
  (0 <= idleLifetime s)%Z -> GetToken_read now s id = (s', r) -> fits s rt i t -> fits s' rt i t.
Proof.
  intros HL Hg [Ha|]; [|by right]. left. unfold GetToken_read in Hg. change store_Get with mem_Get in Hg.
  destruct (mem_Get now s id) as [s2 q] eqn:E.
  assert (s2 = s') as -> by (destruct q as [|[]]; by simplify_eq).
  by eapply alive_get; [|apply within_now|].
Qed.

Lemma read_life s id s' r : GetToken_read now s id = (s', r) -> idleLifetime s' = idleLifetime s.
Proof.
  unfold GetToken_read. change store_Get with mem_Get. unfold mem_Get.
  repeat (case_match; try discriminate); intros; by simplify_eq.
Qed.

Lemma mint_fits s id rnd s' r rt i t :
  (0 <= idleLifetime s)%Z -> GetToken_mint now s id rnd = (s', r) -> fits s rt i t -> fits s' rt i t.
Proof.
  intros HL Hg [Ha|]; [|by right]. left. unfold GetToken_mint in Hg.
  destruct (GenerateToken rnd) as [cand|]; [|by simplify_eq].
  change store_LoadOrStore with mem_LoadOrStore in Hg.
  destruct (mem_LoadOrStore now s id cand) as [s2 q] eqn:E.
  assert (s2 = s') as -> by (destruct q; by simplify_eq).
  by eapply alive_load; [|apply within_now|].
Qed.

Lemma mint_life s id rnd s' r : GetToken_mint now s id rnd = (s', r) -> idleLifetime s' = idleLifetime s.
Proof.
  unfold GetToken_mint. change store_LoadOrStore with mem_LoadOrStore. unfold mem_LoadOrStore.
  repeat (case_match; try discriminate); intros; by simplify_eq.
Qed.

Lemma handed_fits s s' id t rt :
  (0 <= idleLifetime s)%Z -> handed_out s s' now id t -> fits s' rt id t.
Proof. intros HL [Ha _]%handed_alive. left. eapply alive_le; [|exact Ha]. lia. Qed.

(** The store's part of a reader's step. *)
Lemma inv_read w id s' q :
  inv (store w) (state w) (readers w) (rot w) -> GetToken_read now (store w) id = (s', q) ->
  inv s' (state w) (readers w) (rot w).
Proof.
  intros Hi Hg. pose proof (inv_life _ _ _ _ Hi) as HL.
  apply (inv_store _ _ _ _ _ _ Hi); [by rewrite (read_life _ _ _ _ Hg)|by intros; eapply read_fits|].
  pose proof (inv_set _ _ _ _ Hi) as Hs. destruct (rot w) as [| |o n t]; [done..|].
  destruct (read_fits _ _ _ _ NoRotation n t HL Hg) as [|[]]; [by left|done].
Qed.

Lemma inv_mint w id rnd s' q :
  inv (store w) (state w) (readers w) (rot w) -> GetToken_mint now (store w) id rnd = (s', q) ->
  inv s' (state w) (readers w) (rot w).
Proof.
  intros Hi Hg. pose proof (inv_life _ _ _ _ Hi) as HL.
  apply (inv_store _ _ _ _ _ _ Hi); [by rewrite (mint_life _ _ _ _ _ Hg)|by intros; eapply mint_fits|].
  pose proof (inv_set _ _ _ _ Hi) as Hs. destruct (rot w) as [| |o n t]; [done..|].
  destruct (mint_fits _ _ _ _ _ NoRotation n t HL Hg) as [|[]]; [by left|done].
Qed.

Lemma inv_publish w i id b g r nonce :
  inv (store w) (state w) (readers w) (rot w) -> readers w !! i = Some (Publish id b g r) ->
  let w' := publish_load w i id b g r nonce in
  inv (store w') (state w') (readers w') (rot w') /\ events w' = events w.
Proof.
  intros Hi Hr w'. subst w'. unfold publish_load.
  destruct (Nat.eqb_spec (gen (state w)) g) as [Hg|]; cbn -[MaskToken]; (split; [|done]); apply inv_reader; try done.
  eapply inv_state; [exact Hi|done| |apply Hi]. intros _ Hf _. cbn -[MaskToken] in *.
  destruct r as [t|]; cbn -[MaskToken] in *; [|done].
  destruct (MaskToken nonce t) as [m|] eqn:Hm; [|done]. exists nonce, t. split; [done|].
  pose proof (Forall_lookup_1 _ _ _ _ (inv_readers _ _ _ _ Hi) Hr) as [_ Hok]. by apply Hok.
Qed.

Lemma good_reader w i a w' r :
  good w -> readers w !! i = Some r -> reader_step now w i a r = Some w' -> good w'.
Proof.
  intros Hw Hr Hs Hc.
  assert (Hev : clean (events w)).
  { destruct r, a; cbn in Hs; unfold tokenFor, Do, finish, publish_load in Hs;
      repeat (case_match; try discriminate); simplify_eq; cbn in Hc; try exact Hc;
      destruct Hc as [Hc1 Hc2]; split; set_solver. }
  specialize (Hw Hev). pose proof Hw as [H1 H2 H3 H4].
  destruct r as [|id|id|b|id b|id b g|id b g|id b g r|id b r], a; cbn in Hs; try done.
  - simplify_eq. by apply inv_reader.
  - simplify_eq. unfold tokenFor. destruct (hit (state w) id); [by apply inv_reader|].
    destruct (String.eqb id ""); [|by apply inv_reader]. apply inv_reader; [|done].
    eapply inv_state; [exact Hw|done| |apply Hw]. by intros _ _ [].
  - simplify_eq. unfold Do. destruct (running w !! id); by apply inv_reader.
  - destruct (builds w !! b) as [[r|]|]; try done. apply Some_inj in Hs as <-. by apply inv_reader.
  - simplify_eq. by apply inv_reader.
  - destruct (hit (state w) id); apply Some_inj in Hs as <-; (apply inv_reader; [done|]); [done|]. cbn. lia.
  - pose proof (Forall_lookup_1 _ _ _ _ H3 Hr) as Hg. cbn in Hg.
    destruct (GetToken_read now (store w) id) as [s q] eqn:E. pose proof (inv_read _ _ _ _ Hw E) as Hi.
    destruct q as [[t|]|]; apply Some_inj in Hs as <-; (apply inv_reader; [done|]); cbn; try done.
    split; [done|]. intros _ t' [= <-]. eapply handed_fits; [exact H1|by left].
  - pose proof (Forall_lookup_1 _ _ _ _ H3 Hr) as Hg. cbn in Hg.
    destruct (GetToken_mint now (store w) id rnd) as [s q] eqn:E. pose proof (inv_mint _ _ _ _ _ Hw E) as Hi.
    destruct q as [[t b']|]; apply Some_inj in Hs as <-; (apply inv_reader; [done|]); cbn; try done.
    split; [done|]. intros _ t' [= <-]. eapply handed_fits; [exact H1|]. right. by exists rnd, b'.
  - simplify_eq. by apply inv_publish.
  - simplify_eq. by apply inv_reader.
Qed.

Lemma good_rotation w a w' : good w -> rotation_step now w a = Some w' -> good w'.
Proof.
  intros Hw Hs Hc. unfold rotation_step in Hs. destruct (rot w) as [|o n|o n t] eqn:Er, a; try done.
  - destruct (String.eqb newID ""); simplify_eq; [by apply Hw|]. rename oldID into o, newID into n.
    unfold RotateToken_retire in *. change (store_Delete (S := MemoryStore)) with mem_Delete in *. cbn [mem_Delete] in *.
    destruct (negb _ && negb _) eqn:E; simplify_eq; specialize (Hw Hc); rewrite Er in Hw; cbn in *.
    + apply (inv_store _ _ _ _ _ _ Hw); [apply Hw| |done]. intros i t [Ha|[]].
      destruct (String.eqb_spec i o) as [->|]; [by right; left|]. left. by apply alive_delete.
    + apply (inv_store _ _ _ _ _ _ Hw); [apply Hw| |done]. intros i t [Ha|[]]. by left.
  - unfold RotateToken_set in Hs. destruct (GenerateToken rnd) as [t|]; simplify_eq;
      [|exfalso; destruct Hc as [_ Hc]; apply Hc; left].
    change (store_Set (S := MemoryStore)) with mem_Set in Hs. cbn [mem_Set] in Hs. apply Some_inj in Hs as <-.
    specialize (Hw Hc). rewrite Er in Hw. cbn in *. pose proof (inv_life _ _ _ _ Hw) as HL.
    apply (inv_store _ _ _ _ _ _ Hw); [done| |].
    + intros i t' [Ha|Ht]; [|by right]. destruct (String.eqb_spec i n) as [->|Hne]; [by right; right|].
      left. apply alive_insert; [done|]. by intros <-.
    + eexists. cbn. rewrite lookup_insert_eq. split; [done|]. cbn. split; [done|lia].
  - unfold replaceAfterRotation in Hs.
    destruct (loaded (state w) && _ && _); simplify_eq; [exfalso; destruct Hc as [Hc _]; apply Hc; left|].
    destruct (MaskToken nonce t) as [m|] eqn:Hm; simplify_eq; specialize (Hw Hc); rewrite Er in Hw; cbn in *;
      (eapply inv_state; [exact Hw|done| |done]); intros ???; [|done].
    exists nonce, t. split; [done|]. left. apply Hw.
Qed.

Lemma good_steps ls w w' : good w -> steps now w ls = Some w' -> good w'.
Proof.
  revert w. induction ls as [|[i a] ls IH]; cbn [steps]; intros w Hw; [by intros [= <-]|].
  destruct (step now w i a) as [w2|] eqn:Hs; [|done]. cbn. apply IH. unfold step in Hs.
  destruct a; try (by eapply good_rotation);
    (destruct (readers w !! i) as [r|] eqn:Hr; [|done]; by eapply good_reader).
Qed.
End Cache.

(** C33: in every interleaving of a request's readers and rotations, when no
    rotation is under way, the token the request hands out of its cache
    unmasks to the token the store holds for that session, and is accepted
    with it; unless a rotation failed, or met the cache of a third session. *)
Theorem cached_token_is_the_stored_one now s k ls w id m :
  (0 <= idleLifetime s)%Z -> steps now (start s k) ls = Some w -> rot w = NoRotation -> clean (events w) ->
  id <> "" -> cachedFor (state w) id = Some m ->
  exists n t, MaskToken n t = Some m /\ snd (GetToken_read now (store w) id) = Ok (Some t).
Proof.
  intros HL Hst Hr Hc Hid Hm.
  assert (H0 : good now (start s k)).
  { intros _. split; [done|done| |done]. by apply Forall_replicate. }
  pose proof (good_steps now _ _ _ H0 Hst Hc) as Hi. rewrite Hr in Hi.
  unfold cachedFor, hit in Hm. destruct (loaded (state w)) eqn:El; [|done]. cbn in Hm.
  destruct (String.eqb_spec (sessionID (state w)) id) as [He|]; [|done]. cbn in Hm.
  destruct (failed (state w)) eqn:Ef; [done|]. cbn in Hm.
  destruct (String.eqb (token (state w)) ""); [done|]. apply Some_inj in Hm as <-. subst id.
  destruct (inv_cache _ _ _ _ _ Hi El Ef Hid) as (n & t & Hmask & [Ha|[]]). exists n, t. split; [done|].
  unfold GetToken_read. change store_Get with mem_Get.
  destruct (mem_Get now (store w) (sessionID (state w))) as [s2 q] eqn:E.
  destruct (alive_get _ _ _ _ _ _ _ _ Ha (within_now _ _ (inv_life _ _ _ _ _ Hi)) E) as (_ & _ & Hq).
  by rewrite (Hq eq_refl).
Qed.

(** ** Witness *)

Local Open Scope Z_scope.

Definition rnd_a : option string := Some "0123456789abcdef0123456789abcdef".
Definition rnd_b : option string := Some "ffffffffffffffffffffffffffffffff".

(** A reader of session [id] up to the publication of what it loaded. *)
Definition load_of (i : nat) (id : string) (rnd : option string) : list (nat * action) :=
  [(i, ARead id); (i, AGo); (i, AGo); (i, AGo); (i, AGo); (i, ADraw rnd)].

(** A load overtaken by a rotation that keeps the id: the load publishes
    nothing. *)
Definition overtaken : list (nat * action) :=
  load_of 0 "sid" rnd_a ++
  [(0%nat, ARotate "sid" "sid"); (0%nat, ARotateSet rnd_b); (0%nat, AReplace (Some nonce_a));
   (0%nat, ADraw (Some nonce_a)); (0%nat, AGo)].

Definition after_overtaken : world :=
  default (start (NewMemoryStore 0) 0) (steps 5 (start (NewMemoryStore 0) 1) overtaken).

Lemma cached_token_is_the_stored_one_witness :
  exists m n t, cachedFor (state after_overtaken) "sid" = Some m /\ MaskToken n t = Some m /\
    snd (GetToken_read 5 (store after_overtaken) "sid") = Ok (Some t).
Proof.
  destruct (cachedFor (state after_overtaken) "sid") as [m|] eqn:Hm; [|vm_compute in Hm; discriminate Hm].
  destruct (cached_token_is_the_stored_one 5 (NewMemoryStore 0) 1 overtaken after_overtaken "sid" m) as (n & t & H1 & H2).
  - vm_compute. discriminate.
  - vm_compute. reflexivity.
  - vm_compute. reflexivity.
  - split; vm_compute; intros H; repeat (apply elem_of_cons in H as [H|H]; [discriminate H|]); by apply not_elem_of_nil in H.
  - discriminate.
  - exact Hm.
  - exists m, n, t. split; [reflexivity|]. split; [exact H1|exact H2].
Defined.

(** A cache loaded for a third session is left alone by a rotation, and then a
    load of the rotated session that began before it publishes the token the
    rotation replaced: the generation was not counted. *)
Definition stale : list (nat * action) :=
  load_of 0 "one" rnd_a ++ [(0%nat, ADraw (Some nonce_a)); (0%nat, AGo)] ++
  load_of 1 "two" rnd_a ++
  [(0%nat, ARotate "two" "two"); (0%nat, ARotateSet rnd_b); (0%nat, AReplace (Some nonce_a));
   (1%nat, ADraw (Some nonce_a)); (1%nat, AGo)].

Lemma rotation_overwritten_by_stale_load :
  exists w m t, steps 5 (start (NewMemoryStore 0) 2) stale = Some w /\ rot w = NoRotation /\
    cachedFor (state w) "two" = Some m /\ GetToken_read 5 (store w) "two" = (fst (mem_Get 5 (store w) "two"), Ok (Some t)) /\
    UnmaskToken m <> t.
Proof.
  destruct (steps 5 (start (NewMemoryStore 0) 2) stale) as [w|] eqn:Hw; [|vm_compute in Hw; discriminate Hw].
  exists w, (default "" (cachedFor (state w) "two")), (EncodeToString "ffffffffffffffffffffffffffffffff").
  vm_compute in Hw. apply Some_inj in Hw as <-. split_and!; [reflexivity..|]. vm_compute. discriminate.
Qed.
