(* ===== verification/Totp.v ===== *)
(** * One-time passwords and recovery codes (auth/totp.go)

    HMAC-SHA1 and the base32 decoders are arguments: nothing below depends on
    what they compute.  [None] is a panic (a division by zero), which
    [generateCode] can meet; random bytes are inputs.  The scans that must not
    branch on secrets are written with masks, as in the code, and proved equal
    to the search they stand for. *)

From S2P Require Import Prelude GoStrings WebEncoding.
From Stdlib Require Import Ascii String Sorted.
From stdpp Require Import list_numbers.

Local Open Scope string_scope.
Local Open Scope list_scope.
Local Open Scope Z_scope.

(** ** Configuration *)

Record TOTPConfig := mkTOTP { Digits : Z; Period : Z; Skew : Z }.

Definition NewTOTP (c : TOTPConfig) : TOTPConfig :=
  mkTOTP (if Digits c <=? 0 then 6 else Digits c) (if Period c <=? 0 then 30 else Period c)
    (if Skew c <? 0 then 0 else Skew c).

(** ** Selection without branches *)

(** crypto/subtle. *)
Definition ConstantTimeSelect (v x y : Z) : Z := Z.lor (Z.land (Z.lnot (v - 1)) x) (Z.land (v - 1) y).
Definition ConstantTimeCompare (x y : string) : Z := if String.eqb x y then 1 else 0.

Definition constantTimeSelectInt64 (v x y : Z) : Z :=
  let mask := - Z.land v 1 in
  Z.lor (Z.land x mask) (Z.land y (Z.lnot mask)).

(** The loop of the scans: [xs] pairs each candidate with whether it matches,
    as a byte. *)
Fixpoint scan (select : Z -> Z -> Z -> Z) (xs : list (Z * Z)) (matched sel : Z) : Z * Z :=
  match xs with
  | [] => (matched, sel)
  | (x, eq) :: xs =>
      let notYet := 1 - matched in
      let updateNow := Z.land eq notYet in
      scan select xs (Z.lor matched eq) (select updateNow x sel)
  end.

(** ** Codes *)

Section Hmac.
Variable hmac_sha1 : string -> string -> string.
Variables base32_nopad base32_pad : string -> option string.

(** [binary.BigEndian.PutUint64] of [uint64(step)]. *)
Definition counter_bytes (step : Z) : string :=
  let u := step `mod` two64 in
  let b k := byte_of (Z.shiftr u k) in
  String (b 56) (String (b 48) (String (b 40) (String (b 32)
    (String (b 24) (String (b 16) (String (b 8) (String (b 0) ""))))))).

Definition byte_at (s : string) (i : nat) : Z := match String.get i s with Some c => byte_val c | None => 0 end.

Definition two32 : Z := 4294967296.

(** The loop [mod *= 10] on 32 bits. *)
Definition pow10 (digits : nat) : Z := Nat.iter digits (fun m => (m * 10) `mod` two32) 1.

(** The digits, from the last to the first. *)
Fixpoint write_digits (n : nat) (value : Z) (out : string) : string :=
  match n with
  | O => out
  | S n => write_digits n (value / 10) (String (byte_of (48 + value `mod` 10)) out)
  end.

Definition truncated (sum : string) : Z :=
  let offset := Z.to_nat (Z.land (byte_at sum (String.length sum - 1)) 15) in
  Z.lor (Z.lor (Z.lor (Z.shiftl (Z.land (byte_at sum offset) 127) 24)
                      (Z.shiftl (byte_at sum (offset + 1)) 16))
               (Z.shiftl (byte_at sum (offset + 2)) 8))
        (byte_at sum (offset + 3)).

Definition generateCode (key : string) (step digits : Z) : option string :=
  let binCode := truncated (hmac_sha1 key (counter_bytes step)) in
  let mod_ := pow10 (Z.to_nat digits) in
  if mod_ =? 0 then None
  else Some (write_digits (Z.to_nat digits) (binCode `mod` mod_) "").

Definition decodeSecret (secret : string) : option string :=
  let upper := ReplaceAll (to_upper (trim_space secret)) " " "" in
  match base32_nopad upper with Some b => Some b | None => base32_pad upper end.

(** The steps of the window, in the order of the loop. *)
Definition window (c : TOTPConfig) (now : Z) : list Z :=
  (fun o => wrap64 (Z.quot now (Period c) + o)) <$> seqZ (- Skew c) (2 * Skew c + 1).

(** Each step with whether its code is the supplied one. *)
Definition compare_all (c : TOTPConfig) (key code : string) (steps : list Z) : option (list (Z * Z)) :=
  mapM (fun s =>
    expected ← generateCode key s (Digits c);
    Some (s, if (String.length expected =? String.length code)%nat then ConstantTimeCompare expected code else 0)) steps.

(** [now] is [time.Now().Unix()]. *)
Definition Verify (c : TOTPConfig) (now : Z) (secret code : string) : option bool :=
  if String.eqb code "" || String.eqb secret "" then Some false
  else match decodeSecret secret with
       | None => Some false
       | Some key =>
           xs ← compare_all c key code (window c now);
           Some (fold_left (fun m x => Z.lor m (snd x)) xs 0 =? 1)
       end.

Definition VerifyAndConsume (c : TOTPConfig) (now : Z) (secret code : string) (lastUsedStep : Z) : option (bool * Z) :=
  if String.eqb code "" || String.eqb secret "" then Some (false, 0)
  else match decodeSecret secret with
       | None => Some (false, 0)
       | Some key =>
           xs ← compare_all c key code (window c now);
           let '(matched, matchedStep) := scan constantTimeSelectInt64 xs 0 0 in
           if negb (matched =? 1) then Some (false, 0)
           else if matchedStep <=? lastUsedStep then Some (false, 0)
           else Some (true, matchedStep)
       end.

(** A user's attempts: each at its time, with the step persisted by the last
    one that passed. *)
Fixpoint attempts (c : TOTPConfig) (secret : string) (last : Z) (ls : list (Z * string)) : option (list (Z * (Z * string))) :=
  match ls with
  | [] => Some []
  | (now, code) :: ls =>
      r ← VerifyAndConsume c now secret code last;
      match r with
      | (true, s) => rest ← attempts c secret s ls; Some ((s, (now, code)) :: rest)
      | (false, _) => attempts c secret last ls
      end
  end.

End Hmac.

(** ** Recovery codes *)

Definition numbered {A} (l : list A) : list (Z * A) := zip (Z.of_nat <$> seq 0 (List.length l)) l.

(** [append(stored[:i], stored[i+1:]...)] *)
Definition remove_at {A} (i : Z) (l : list A) : list A := take (Z.to_nat i) l ++ drop (Z.to_nat (i + 1)) l.

Definition ConsumeRecoveryCode (stored : list string) (supplied : string) : bool * list string :=
  if (List.length stored =? 0)%nat || String.eqb supplied "" then (false, stored)
  else
    let xs := (fun '(i, code) =>
      (i, if (String.length code =? String.length supplied)%nat then ConstantTimeCompare code supplied else 0))
      <$> numbered stored in
    let '(matched, matchIndex) := scan ConstantTimeSelect xs 0 (-1) in
    if negb (matched =? 1) then (false, stored) else (true, remove_at matchIndex stored).

(** [verify supplied hashed] is the hasher's; [None] is an error. *)
Definition ConsumeRecoveryCodeHashed (verify : option (string -> string -> bool)) (stored : list string) (supplied : string)
  : option (bool * list string) :=
  match verify with
  | None => None
  | Some v =>
      if String.eqb supplied "" then None
      else if (List.length stored =? 0)%nat then Some (false, stored)
      else
        let xs := (fun '(i, hashed) => (i, if v supplied hashed then 1 else 0)) <$> numbered stored in
        let '(matched, matchIndex) := scan ConstantTimeSelect xs 0 (-1) in
        Some (if negb (matched =? 1) then (false, stored) else (true, remove_at matchIndex stored))
  end.

Definition recoveryCodeAlphabet : string := "ABCDEFGHJKMNPQRSTUVWXYZ23456789".

Definition alphaLen : Z := Z.of_nat (String.length recoveryCodeAlphabet).
Definition limit : Z := 256 - 256 `mod` alphaLen.

(** The character a random byte picks, if it is not rejected. *)
Definition pick (b : Z) : option ascii :=
  if limit <=? b then None else String.get (Z.to_nat (b `mod` alphaLen)) recoveryCodeAlphabet.

(** One code from the random bytes [bs], with the bytes of the last buffer
    that are left over dropped; [None] when they run out first. *)
Fixpoint pick_all (n : nat) (bs : list Z) : option string :=
  match n, bs with
  | O, _ => Some ""
  | _, [] => None
  | S n', b :: bs =>
      match pick b with
      | Some ch => String ch <$> pick_all n' bs
      | None => pick_all n bs
      end
  end.

Definition generateRecoveryCode (bs : list Z) : option string :=
  picked ← pick_all 8 bs; Some (str_take 4 picked +:+ "-" +:+ str_drop 4 picked).

(** [GenerateRecoveryCodes]: each code from random bytes of its own. *)
Definition GenerateRecoveryCodes (n : Z) (bss : list (list Z)) : option (list string) :=
  if n <=? 0 then None else mapM generateRecoveryCode (take (Z.to_nat n) bss).

(** ** The scans find the first match *)

(** The search the scans stand for. *)
Fixpoint first_match (xs : list (Z * Z)) : option Z :=
  match xs with
  | [] => None
  | (x, eq) :: xs => if eq =? 1 then Some x else first_match xs
  end.

Lemma select_int64 x y : constantTimeSelectInt64 1 x y = x /\ constantTimeSelectInt64 0 x y = y.
Proof.
  unfold constantTimeSelectInt64. cbn. split.
  - by rewrite Z.land_m1_r, Z.land_0_r, Z.lor_0_r.
  - by rewrite Z.land_0_r, Z.land_m1_r.
Qed.

Lemma select_int x y : ConstantTimeSelect 1 x y = x /\ ConstantTimeSelect 0 x y = y.
Proof.
  unfold ConstantTimeSelect. split.
  - change (Z.lnot (1 - 1)) with (-1). change (1 - 1) with 0. by rewrite Z.land_m1_l, Z.land_0_l, Z.lor_0_r.
  - change (Z.lnot (0 - 1)) with 0. change (0 - 1) with (-1). by rewrite Z.land_m1_l, Z.land_0_l.
Qed.

Lemma scan_done select xs sel :
  (forall x y, select 1 x y = x /\ select 0 x y = y) -> Forall (fun x => snd x = 0 \/ snd x = 1) xs ->
  scan select xs 1 sel = (1, sel).
Proof.
  intros Hsel Hxs. revert sel. induction Hxs as [|[x eq] xs Hx _ IH]; intros sel; [done|]. cbn [scan snd] in *.
  replace (Z.land eq (1 - 1)) with 0 by (by rewrite Z.land_0_r). rewrite (proj2 (Hsel x sel)).
  by destruct Hx as [-> | ->]; apply IH.
Qed.

Lemma scan_first select xs sel :
  (forall x y, select 1 x y = x /\ select 0 x y = y) -> Forall (fun x => snd x = 0 \/ snd x = 1) xs ->
  scan select xs 0 sel = match first_match xs with Some x => (1, x) | None => (0, sel) end.
Proof.
  intros Hsel Hxs. induction Hxs as [|[x eq] xs Hx Hxs IH]; [done|]. cbn [scan first_match snd] in *.
  destruct Hx as [-> | ->].
  - change (Z.land 0 (1 - 0)) with 0. change (Z.lor 0 0) with 0. by rewrite (proj2 (Hsel x sel)).
  - change (Z.land 1 (1 - 0)) with 1. change (Z.lor 0 1) with 1.
    rewrite (proj1 (Hsel x sel)). by apply scan_done.
Qed.

Lemma compare_bit a b : ConstantTimeCompare a b = 0 \/ ConstantTimeCompare a b = 1.
Proof. unfold ConstantTimeCompare. destruct (String.eqb a b); auto. Qed.

(** A comparison guarded by the lengths is equality. *)
Lemma guarded_compare a b :
  (if (String.length a =? String.length b)%nat then ConstantTimeCompare a b else 0) = if String.eqb a b then 1 else 0.
Proof.
  unfold ConstantTimeCompare. destruct (String.eqb_spec a b) as [->|]; [by rewrite Nat.eqb_refl|].
  by destruct (_ =? _)%nat.
Qed.

Section Search.
Variable hmac_sha1 : string -> string -> string.
Variables base32_nopad base32_pad : string -> option string.

(** The first step whose code is the supplied one. *)
Fixpoint find_step (key code : string) (digits : Z) (steps : list Z) : option Z :=
  match steps with
  | [] => None
  | s :: steps =>
      if decide (generateCode hmac_sha1 key s digits = Some code) then Some s else find_step key code digits steps
  end.

Lemma compare_all_spec c key code steps xs :
  compare_all hmac_sha1 c key code steps = Some xs ->
  Forall (fun x => snd x = 0 \/ snd x = 1) xs /\ first_match xs = find_step key code (Digits c) steps.
Proof.
  unfold compare_all. intros Hm%mapM_Some. induction Hm as [|s [x eq] steps xs Hs _ [IH1 IH2]]; [done|].
  destruct (generateCode hmac_sha1 key s (Digits c)) as [e|] eqn:He; [|done].
  cbn [mbind option_bind] in Hs. rewrite guarded_compare in Hs. simplify_eq.
  cbn [first_match find_step]. rewrite He. destruct (String.eqb_spec e code) as [->|Hne].
  - rewrite decide_True by done. split; [|done]. constructor; [by right|done].
  - rewrite decide_False by congruence. split; [|done]. constructor; [by left|done].
Qed.

Lemma find_step_some key code digits steps s :
  find_step key code digits steps = Some s -> s ∈ steps /\ generateCode hmac_sha1 key s digits = Some code.
Proof.
  induction steps as [|x steps IH]; cbn; [done|]. case_decide as Hd.
  - intros [= ->]. split; [left|done].
  - intros [Hin He]%IH. split; [by right|done].
Qed.

(** [generateCode] does not panic for the configured number of digits. *)
Lemma compare_all_total c key code steps :
  pow10 (Z.to_nat (Digits c)) <> 0 -> is_Some (compare_all hmac_sha1 c key code steps).
Proof.
  intros Hd. unfold compare_all. apply mapM_is_Some. apply Forall_forall. intros s _. unfold generateCode.
  destruct (Z.eqb_spec (pow10 (Z.to_nat (Digits c))) 0); [done|]. cbn. eauto.
Qed.
End Search.

(** ** Decimal codes *)

Lemma digit_of_byte d : 0 <= d < 10 -> digit_val (byte_of (48 + d)) = Some d.
Proof.
  intros Hd. unfold digit_val. rewrite byte_val_of. change 255 with (Z.ones 8).
  rewrite Z.land_ones, Z.mod_small by lia.
  rewrite (proj2 (Z.leb_le 48 (48 + d))), (proj2 (Z.leb_le (48 + d) 57)) by lia. cbn [andb]. f_equal. lia.
Qed.

Lemma length_write_digits n v out : String.length (write_digits n v out) = (n + String.length out)%nat.
Proof. revert v out. induction n as [|n IH]; intros v out; [done|]. cbn [write_digits]. rewrite IH. cbn. lia. Qed.

Lemma digits_val_write n v out :
  0 <= v < 10 ^ Z.of_nat n -> digits_val 0 (write_digits n v out) = digits_val v out.
Proof.
  revert v out. induction n as [|n IH]; intros v out Hv.
  - change (10 ^ Z.of_nat 0) with 1 in Hv. cbn. f_equal. lia.
  - rewrite Nat2Z.inj_succ, Z.pow_succ_r in Hv by lia. cbn [write_digits].
    pose proof (Z.mod_pos_bound v 10 ltac:(lia)). pose proof (Z.div_mod v 10 ltac:(lia)).
    rewrite IH by (split; [apply Z.div_pos; lia|apply Z.div_lt_upper_bound; lia]).
    cbn [digits_val]. rewrite digit_of_byte by lia. f_equal. lia.
Qed.

(** [mod] is the power of ten while it fits 32 bits, and zero once thirty-two
    factors two are in it. *)
Lemma pow10_mod n : pow10 n = 10 ^ Z.of_nat n `mod` two32.
Proof.
  induction n as [|n IH]; [done|]. change (pow10 (S n)) with ((pow10 n * 10) `mod` two32).
  rewrite IH, Nat2Z.inj_succ, Z.pow_succ_r by lia. rewrite Zmult_mod_idemp_l. f_equal. lia.
Qed.

Lemma pow10_small n : (n <= 9)%nat -> pow10 n = 10 ^ Z.of_nat n.
Proof.
  intros Hn. rewrite pow10_mod. apply Z.mod_small. split; [apply Z.pow_nonneg; lia|].
  apply Z.le_lt_trans with (10 ^ 9); [apply Z.pow_le_mono_r; lia|done].
Qed.

Lemma pow10_large n : (32 <= n)%nat -> pow10 n = 0.
Proof.
  intros Hn. rewrite pow10_mod. replace (Z.of_nat n) with (32 + Z.of_nat (n - 32)) by lia.
  rewrite Z.pow_add_r by lia. change (10 ^ 32) with (5 ^ 32 * two32).
  rewrite <- Z.mul_assoc, (Z.mul_comm two32), Z.mul_assoc. apply Z.mod_mul. done.
Qed.

Lemma byte_at_range s i : 0 <= byte_at s i < 256.
Proof. unfold byte_at. destruct (String.get i s); [apply byte_val_range|lia]. Qed.

Lemma truncated_range sum : 0 <= truncated sum < 2147483648.
Proof.
  unfold truncated. set (o := Z.to_nat _).
  pose proof (byte_at_range sum (o + 1)). pose proof (byte_at_range sum (o + 2)). pose proof (byte_at_range sum (o + 3)).
  assert (0 <= Z.land (byte_at sum o) 127 < 128)
    by (change 127 with (Z.ones 7); rewrite Z.land_ones by lia; apply Z.mod_pos_bound; lia).
  rewrite <- !Z.lor_assoc, (lor_shiftl _ (byte_at sum (o + 3)) 8), (lor_shiftl _ _ 16), (lor_shiftl _ _ 24) by lia.
  lia.
Qed.

(** C35: with one to nine digits configured, the code of a step is exactly that
    many decimal digits and reads as the truncated HMAC (31 bits) modulo that
    power of ten, with leading zeros kept; with thirty-two or more the modulus
    wraps to zero and the computation panics. *)
Theorem codes_are_zero_padded_decimals hmac_sha1 key step digits :
  (1 <= digits <= 9 ->
   exists code, generateCode hmac_sha1 key step digits = Some code /\
     String.length code = Z.to_nat digits /\ 0 <= truncated (hmac_sha1 key (counter_bytes step)) < 2147483648 /\
     digits_val 0 code = Some (truncated (hmac_sha1 key (counter_bytes step)) `mod` 10 ^ digits)) /\
  (32 <= digits -> generateCode hmac_sha1 key step digits = None).
Proof.
  unfold generateCode. split; intros Hd.
  - rewrite pow10_small, Z2Nat.id by lia.
    destruct (Z.eqb_spec (10 ^ digits) 0) as [Hz|_]; [pose proof (Z.pow_pos_nonneg 10 digits); lia|].
    eexists. split_and!; [done|by rewrite length_write_digits, Nat.add_0_r|apply truncated_range..|].
    rewrite digits_val_write; [done|]. rewrite Z2Nat.id by lia. apply Z.mod_pos_bound. apply Z.pow_pos_nonneg; lia.
  - by rewrite pow10_large by lia.
Qed.

(** ** Verification *)

Section Verification.
Variable hmac_sha1 : string -> string -> string.
Variables base32_nopad base32_pad : string -> option string.

(** What the code stands for: the first step of the window, oldest first,
    whose code is the supplied one. *)
Definition matching_step (c : TOTPConfig) (now : Z) (secret code : string) : option Z :=
  if String.eqb code "" || String.eqb secret "" then None
  else key ← decodeSecret base32_nopad base32_pad secret; find_step hmac_sha1 key code (Digits c) (window c now).

Lemma consume_matching c now secret code last r :
  VerifyAndConsume hmac_sha1 base32_nopad base32_pad c now secret code last = Some r ->
  r = match matching_step c now secret code with
      | Some s => if s <=? last then (false, 0) else (true, s)
      | None => (false, 0)
      end.
Proof.
  unfold VerifyAndConsume, matching_step. destruct (_ || _); [by intros [= <-]|].
  destruct (decodeSecret _ _ secret) as [key|]; cbn [mbind option_bind]; [|by intros [= <-]].
  destruct (compare_all hmac_sha1 c key code (window c now)) as [xs|] eqn:Hx; [|done]. cbn [mbind option_bind].
  destruct (compare_all_spec _ _ _ _ _ _ Hx) as [Hb Hf].
  rewrite scan_first by (try done; apply select_int64). rewrite Hf.
  destruct (find_step _ _ _ _ _) as [s|]; cbn [negb Z.eqb Pos.eqb]; [|by intros [= <-]].
  by destruct (s <=? last); intros [= <-].
Qed.

Lemma or_bits xs m :
  Forall (fun x => snd x = 0 \/ snd x = 1) xs -> m = 0 \/ m = 1 ->
  fold_left (fun m x => Z.lor m (snd x)) xs m = if decide (m = 1) then 1 else
    match first_match xs with Some _ => 1 | None => 0 end.
Proof.
  intros Hxs. revert m. induction Hxs as [|[x e] xs Hx _ IH]; intros m Hm.
  - by destruct Hm as [-> | ->].
  - cbn [fold_left snd first_match] in *. destruct Hm as [-> | ->], Hx as [-> | ->]; rewrite IH by (cbn; auto); done.
Qed.

(** while codes can be computed, the branch-free scans compute what they
    stand for: [VerifyAndConsume] finds the first step of the window whose
    code is the supplied one and accepts it exactly when it is later than the
    last one used, and [Verify] accepts exactly when there is such a step. *)
Theorem scans_find_the_first_match c now secret code last :
  pow10 (Z.to_nat (Digits c)) <> 0 ->
  VerifyAndConsume hmac_sha1 base32_nopad base32_pad c now secret code last =
    Some (match matching_step c now secret code with
          | Some s => if s <=? last then (false, 0) else (true, s)
          | None => (false, 0)
          end) /\
  Verify hmac_sha1 base32_nopad base32_pad c now secret code =
    Some (match matching_step c now secret code with Some _ => true | None => false end).
Proof.
  intros Hp.
  assert (Hs : is_Some (VerifyAndConsume hmac_sha1 base32_nopad base32_pad c now secret code last)).
  { unfold VerifyAndConsume. destruct (_ || _); [eauto|]. destruct (decodeSecret _ _ secret) as [key|]; [|eauto].
    destruct (compare_all_total hmac_sha1 c key code (window c now) Hp) as [xs ->]. cbn.
    destruct (scan _ xs 0 0). destruct (negb _); [eauto|]. destruct (_ <=? _); eauto. }
  destruct Hs as [r Hr]. split; [by rewrite <- (consume_matching _ _ _ _ _ _ Hr)|].
  unfold Verify, matching_step. destruct (_ || _); [done|].
  destruct (decodeSecret _ _ secret) as [key|]; cbn [mbind option_bind]; [|done].
  destruct (compare_all_total hmac_sha1 c key code (window c now) Hp) as [xs Hx]. rewrite Hx. cbn [mbind option_bind].
  destruct (compare_all_spec _ _ _ _ _ _ Hx) as [Hb <-]. rewrite or_bits by auto. cbn.
  by destruct (first_match xs).
Qed.

(** C34: over any sequence of attempts of a user that persists the step of each
    accepted one: the accepted steps strictly increase from the last one used,
    so no step's code is accepted twice, and each was in the window of its
    attempt with the supplied code as its code. *)
Theorem accepted_steps_increase c secret last ls acc :
  attempts hmac_sha1 base32_nopad base32_pad c secret last ls = Some acc ->
  StronglySorted Z.lt (last :: (fst <$> acc)) /\
  forall s now code, (s, (now, code)) ∈ acc ->
    (now, code) ∈ ls /\ s ∈ window c now /\
    exists key, decodeSecret base32_nopad base32_pad secret = Some key /\
      generateCode hmac_sha1 key s (Digits c) = Some code.
Proof.
  revert last acc. induction ls as [|[now code] ls IH]; intros last acc; cbn [attempts].
  - intros [= <-]. split; [repeat constructor|]. by intros s now code ?%not_elem_of_nil.
  - destruct (VerifyAndConsume _ _ _ c now secret code last) as [r|] eqn:Hv; [|done]. cbn [mbind option_bind].
    apply consume_matching in Hv. destruct (matching_step c now secret code) as [s|] eqn:Hm.
    + destruct (Z.leb_spec s last) as [|Hlt]; subst r.
      * intros [Hs Hall]%IH. split; [done|]. intros s' n' c' Hin. destruct (Hall _ _ _ Hin) as (? & ?). split; [by right|done].
      * destruct (attempts _ _ _ c secret s ls) as [rest|] eqn:Ha; [|done]. intros [= <-].
        destruct (IH _ _ Ha) as [Hs Hall]. split.
        -- inversion Hs as [|? ? Hs' Hf]; subst. constructor; [done|]. cbn. constructor; [done|].
           eapply Forall_impl; [exact Hf|]. intros x Hx. cbn in Hx. lia.
        -- intros s' n' c' [[= -> -> ->]|Hin]%elem_of_cons.
           ++ unfold matching_step in Hm. destruct (_ || _); [done|].
              destruct (decodeSecret _ _ secret) as [key|]; [|done]. cbn in Hm.
              apply find_step_some in Hm as [Hw Hg]. split_and!; [left|done|by exists key].
           ++ destruct (Hall _ _ _ Hin) as (? & ?). split; [by right|done].
    + subst r. intros [Hs Hall]%IH. split; [done|]. intros s' n' c' Hin.
      destruct (Hall _ _ _ Hin) as (? & ?). split; [by right|done].
Qed.
End Verification.

(** ** Recovery codes *)

(** The scan of a numbered list finds the first element with the property. *)
Lemma first_match_from {A} (p : A -> bool) (l : list A) k :
  first_match ((fun '(i, a) => (i, if p a then 1 else 0)) <$> zip (Z.of_nat <$> seq k (List.length l)) l) =
  (fun x => Z.of_nat (k + fst x)) <$> list_find (fun a => p a = true) l.
Proof.
  revert k. induction l as [|a l IH]; intros k; [done|]. cbn [List.length seq zip zip_with fmap list_fmap first_match].
  cbn [list_find]. destruct (p a) eqn:Hp.
  - rewrite decide_True by done. cbn. by rewrite Nat.add_0_r.
  - rewrite decide_False by done. cbn [Z.eqb]. rewrite IH, <- option_fmap_compose.
    destruct (list_find _ l) as [[j x]|]; cbn; [|done]. do 2 f_equal. lia.
Qed.

Lemma scan_numbered {A} (p : A -> bool) (l : list A) :
  scan ConstantTimeSelect ((fun '(i, a) => (i, if p a then 1 else 0)) <$> numbered l) 0 (-1) =
  match list_find (fun a => p a = true) l with Some (i, _) => (1, Z.of_nat i) | None => (0, -1) end.
Proof.
  rewrite scan_first; [|apply select_int|].
  - unfold numbered. rewrite first_match_from. by destruct (list_find _ l) as [[j x]|].
  - apply Forall_fmap, Forall_forall. intros [i a] _. cbn. destruct (p a); auto.
Qed.

Lemma remove_found {A} (p : A -> Prop) `{forall x, Decision (p x)} (l l1 l2 : list A) a :
  l = l1 ++ a :: l2 -> p a -> Forall (fun x => ~ p x) l1 ->
  list_find p l = Some (List.length l1, a) /\ remove_at (Z.of_nat (List.length l1)) l = l1 ++ l2.
Proof.
  intros -> Ha Hl. split.
  - apply list_find_Some. split_and!; [by rewrite list_lookup_middle|done|].
    intros j y Hj Hlt. rewrite lookup_app_l in Hj by done. by eapply Forall_lookup_1 in Hl.
  - unfold remove_at. replace (Z.to_nat (Z.of_nat (List.length l1) + 1)) with (S (List.length l1)) by lia.
    rewrite Nat2Z.id, take_app_length. f_equal.
    replace (S (List.length l1)) with (List.length l1 + 1)%nat by lia. by rewrite <- drop_drop, drop_app_length.
Qed.

Lemma consume_hashed v stored supplied :
  supplied <> "" ->
  ConsumeRecoveryCodeHashed (Some v) stored supplied =
  Some (match list_find (fun h => v supplied h = true) stored with
        | Some (i, _) => (true, remove_at (Z.of_nat i) stored)
        | None => (false, stored)
        end).
Proof.
  intros Hs. unfold ConsumeRecoveryCodeHashed. destruct (String.eqb_spec supplied ""); [done|].
  destruct stored as [|h t] eqn:E; [done|]. rewrite <- E. destruct (Nat.eqb_spec (List.length stored) 0); [by subst|].
  rewrite (scan_numbered (v supplied)). by destruct (list_find _ stored) as [[j x]|].
Qed.

(** The plain codes are the hashed ones with equality for the hasher. *)
Lemma consume_plain stored supplied :
  supplied <> "" ->
  Some (ConsumeRecoveryCode stored supplied) =
  ConsumeRecoveryCodeHashed (Some (fun s h => String.eqb h s)) stored supplied.
Proof.
  intros Hs. unfold ConsumeRecoveryCode, ConsumeRecoveryCodeHashed. destruct (String.eqb_spec supplied ""); [done|].
  rewrite orb_false_r. destruct (List.length stored =? 0)%nat; [done|].
  erewrite (list_fmap_ext _ (fun '(i, h) => (i, if String.eqb h supplied then 1 else 0))).
  2:{ intros i [j h] _. by rewrite guarded_compare. }
  destruct (scan _ _ _ _) as [m i]. by destruct (negb _).
Qed.

(** a recovery code is spent once: against hashed codes, a supplied code
    that the hasher accepts for some stored hash consumes exactly the first
    such hash and keeps the others in order, and one it accepts for none
    leaves them all; stored plain codes behave the same with equality. *)
Theorem recovery_codes_are_single_use (v : string -> string -> bool) supplied :
  supplied <> "" ->
  (forall stored, Forall (fun h => v supplied h = false) stored ->
     ConsumeRecoveryCodeHashed (Some v) stored supplied = Some (false, stored)) /\
  (forall l1 h l2, Forall (fun h => v supplied h = false) l1 -> v supplied h = true ->
     ConsumeRecoveryCodeHashed (Some v) (l1 ++ h :: l2) supplied = Some (true, l1 ++ l2)) /\
  (forall stored, supplied ∉ stored -> ConsumeRecoveryCode stored supplied = (false, stored)) /\
  (forall l1 l2, supplied ∉ l1 -> ConsumeRecoveryCode (l1 ++ supplied :: l2) supplied = (true, l1 ++ l2)).
Proof.
  intros Hs.
  assert (Hno : forall (w : string -> string -> bool) stored, Forall (fun h => w supplied h = false) stored ->
    ConsumeRecoveryCodeHashed (Some w) stored supplied = Some (false, stored)).
  { intros w stored Hf. rewrite consume_hashed by done.
    rewrite (proj2 (list_find_None _ _)); [done|]. eapply Forall_impl; [exact Hf|]. intros x Hx. by rewrite Hx. }
  assert (Hyes : forall (w : string -> string -> bool) l1 h l2, Forall (fun h => w supplied h = false) l1 ->
    w supplied h = true -> ConsumeRecoveryCodeHashed (Some w) (l1 ++ h :: l2) supplied = Some (true, l1 ++ l2)).
  { intros w l1 h l2 Hf Hh. rewrite consume_hashed by done.
    destruct (remove_found (fun h => w supplied h = true) (l1 ++ h :: l2) l1 l2 h) as [-> ->]; try done.
    eapply Forall_impl; [exact Hf|]. intros x Hx. by rewrite Hx. }
  assert (Hne : forall l, supplied ∉ l -> Forall (fun h => String.eqb h supplied = false) l).
  { intros l Hl. apply Forall_forall. intros x Hx. apply String.eqb_neq. by intros ->. }
  split_and!; [apply Hno|apply Hyes| |].
  - intros stored Hin. apply Some_inj. rewrite consume_plain by done. by apply Hno, Hne.
  - intros l1 l2 Hin. apply Some_inj. rewrite consume_plain by done. apply Hyes; [by apply Hne|]. apply String.eqb_refl.
Qed.

(** Every character of a recovery code is equally likely: eight of the bytes
    pick it, and the eight bytes that would favour some are rejected. *)
Lemma recovery_characters_are_uniform :
  forallb (fun ch => (List.length (List.filter (fun b =>
      match pick (Z.of_nat b) with Some c => Ascii.eqb c ch | None => false end) (seq 0 256)) =? 8)%nat)
    (list_ascii_of_string recoveryCodeAlphabet) = true /\
  List.length (List.filter (fun b => match pick (Z.of_nat b) with Some _ => false | None => true end) (seq 0 256)) = 8%nat.
Proof. vm_compute. split; reflexivity. Qed.

(** ** Witnesses *)

(** An HMAC that returns its counter and key, for concrete runs. *)
Definition echo_key_hmac (key msg : string) : string := str_drop 4 msg +:+ key +:+ "0123456789ab" +:+ String (byte_of 0) "".
Definition as_is (s : string) : option string := Some s.
Definition six : TOTPConfig := NewTOTP (mkTOTP 0 0 1).

Lemma codes_are_zero_padded_decimals_witness :
  exists code, generateCode echo_key_hmac "k" 7 6 = Some code /\ String.length code = 6%nat.
Proof.
  destruct (proj1 (codes_are_zero_padded_decimals echo_key_hmac "k" 7 6) ltac:(lia)) as (code & H1 & H2 & _).
  exact (ex_intro _ code (conj H1 H2)).
Defined.

Definition code_at (step : Z) : string := default "" (generateCode echo_key_hmac "SECRET" step 6).

Lemma scans_find_the_first_match_witness :
  VerifyAndConsume echo_key_hmac as_is as_is six 3000 "secret" (code_at 101) 99 = Some (true, 101).
Proof.
  rewrite (proj1 (scans_find_the_first_match echo_key_hmac as_is as_is six 3000 "secret" (code_at 101) 99 ltac:(vm_compute; discriminate))).
  vm_compute. reflexivity.
Defined.

(** A code is used, replayed, and followed by the next step's. *)
Lemma accepted_steps_increase_witness :
  exists acc, attempts echo_key_hmac as_is as_is six "secret" 0
    [(3000, code_at 100); (3001, code_at 100); (3002, "nonsense"); (3010, code_at 101)] = Some acc /\
    (fst <$> acc) = [100; 101] /\ StronglySorted Z.lt (0 :: (fst <$> acc)).
Proof.
  destruct (attempts echo_key_hmac as_is as_is six "secret" 0
    [(3000, code_at 100); (3001, code_at 100); (3002, "nonsense"); (3010, code_at 101)]) as [acc|] eqn:Ha;
    [|vm_compute in Ha; discriminate Ha].
  exists acc. split; [reflexivity|]. split; [vm_compute in Ha; apply Some_inj in Ha as <-; reflexivity|].
  exact (proj1 (accepted_steps_increase echo_key_hmac as_is as_is six "secret" 0 _ acc Ha)).
Defined.

Lemma recovery_codes_are_single_use_witness :
  ConsumeRecoveryCode ["AAAA-BBBB"; "CCCC-DDDD"] "CCCC-DDDD" = (true, ["AAAA-BBBB"]).
Proof.
  apply (proj2 (proj2 (proj2 (recovery_codes_are_single_use String.eqb "CCCC-DDDD" ltac:(discriminate)))) ["AAAA-BBBB"] []).
  vm_compute. intros H. apply list_elem_of_singleton in H. discriminate H.
Defined.

(** Ten digits are too many for 32 bits: the code is not the truncated value
    any more. *)
Lemma ten_digits_wrap : pow10 10 = 1410065408 /\ pow10 10 <> 10 ^ 10.
Proof. split; vm_compute; [reflexivity|discriminate]. Qed.
