(* ===== verification/Crypto.v ===== *)
(** * Encryption (crypto/crypto.go, crypto/compare.go, crypto/drivers/aes.go)

    The AES driver: padding, encrypt-then-MAC in CBC mode, GCM, additional
    authenticated data, the versioned envelope, key rotation and the
    construction of a driver from a configuration.  CBC chaining is modelled;
    the AES permutation, GCM, HMAC-SHA256, HKDF and encoding/json are the
    class [Primitives].  A byte slice is a string.  Random bytes are arguments,
    [None] when the source fails.  A call that would panic returns [Panic].
    What a decryption logs and dispatches about a legacy payload is the state
    [Legacy]; debug lines are not modelled. *)

From S2P Require Import Prelude GoStrings WebEncoding.
From Stdlib Require Import Ascii String.
Local Open Scope string_scope.
Local Open Scope list_scope.
Local Open Scope Z_scope.
Local Open Scope go_scope.

(** The sentinels; an error that wraps one is that one.  [ErrOther] is an
    error of a library passed on. *)
Inductive CryptoError :=
  | ErrInvalidKey | ErrInvalidCipher | ErrInvalidKeyLength | ErrInvalidPreviousKey
  | ErrInvalidPayload | ErrDecrypt | ErrAADMismatch | ErrLegacyPayloadDisabled
  | ErrOther | Panic.

#[export] Instance CryptoError_eq_dec : EqDecision CryptoError.
Proof. solve_decision. Defined.

Record Payload := mkPayload { IV : string; Value : string; MAC : string; Tag : string }.

Class Primitives := {
  aes_encrypt : string -> string -> string;                    (** key, block *)
  aes_decrypt : string -> string -> string;
  gcm_seal : string -> string -> string -> string -> string;   (** key, nonce, plaintext, additional data *)
  gcm_open : string -> string -> string -> string -> option string;
  hmac_sha256 : string -> string -> string;                    (** key, message *)
  hkdf_sha256 : string -> string -> string -> nat -> option string; (** master, salt, info, length *)
  json_marshal : option Payload -> option string;
  json_unmarshal : string -> option Payload
}.

Definition len (s : string) : Z := Z.of_nat (String.length s).

(** ** crypto/aes, crypto/cipher *)

Definition BlockSize : Z := 16.
Definition NonceSize : Z := 12.
Definition Overhead : Z := 16.
(** The longest plaintext GCM takes: 2^32 - 2 blocks. *)
Definition gcm_limit : Z := (2 ^ 32 - 2) * BlockSize.

Definition NewCipher (key : string) : result CryptoError string :=
  if (len key =? 16) || (len key =? 24) || (len key =? 32) then Ok key else Err ErrOther.

Definition TrimPrefix (s p : string) : string :=
  if has_prefix p s then str_drop (String.length p) s else s.

Fixpoint fill (n : nat) (c : ascii) : string :=
  match n with O => EmptyString | S n => String c (fill n c) end.

Fixpoint last_byte (s : string) : Z :=
  match s with
  | EmptyString => 0
  | String c EmptyString => byte_val c
  | String _ s' => last_byte s'
  end.

(** [binary.BigEndian.PutUint64]. *)
Definition be64 (v : Z) : string :=
  String (byte_of (Z.shiftr v 56)) (String (byte_of (Z.shiftr v 48)) (String (byte_of (Z.shiftr v 40))
  (String (byte_of (Z.shiftr v 32)) (String (byte_of (Z.shiftr v 24)) (String (byte_of (Z.shiftr v 16))
  (String (byte_of (Z.shiftr v 8)) (String (byte_of v) ""))))))).

Section crypto.
Context {PR : Primitives}.

Fixpoint cbc_encrypt (key prev : string) (n : nat) (s : string) : string :=
  match n with
  | O => ""
  | S n =>
      let c := aes_encrypt key (xor_bytes prev (str_take 16 s)) in
      c +:+ cbc_encrypt key c n (str_drop 16 s)
  end.

Fixpoint cbc_decrypt (key prev : string) (n : nat) (s : string) : string :=
  match n with
  | O => ""
  | S n =>
      let c := str_take 16 s in
      xor_bytes prev (aes_decrypt key c) +:+ cbc_decrypt key c n (str_drop 16 s)
  end.

(** [NewCBCEncrypter(block, iv).CryptBlocks] and its inverse: both panic on an
    iv or an input of the wrong length. *)
Definition CryptBlocks (crypt : string -> string -> nat -> string -> string) (key iv s : string) :
    result CryptoError string :=
  if negb (len iv =? BlockSize) then Err Panic
  else if negb (len s mod BlockSize =? 0) then Err Panic
  else Ok (crypt key iv (Z.to_nat (len s / BlockSize)) s).

Definition gcm_Seal (key nonce plaintext aad : string) : result CryptoError string :=
  if negb (len nonce =? NonceSize) then Err Panic
  else if gcm_limit <? len plaintext then Err Panic
  else Ok (gcm_seal key nonce plaintext aad).

Definition gcm_Open (key nonce ciphertext aad : string) : result CryptoError string :=
  if negb (len nonce =? NonceSize) then Err Panic
  else if len ciphertext <? Overhead then Err ErrOther
  else if gcm_limit + Overhead <? len ciphertext then Err ErrOther
  else match gcm_open key nonce ciphertext aad with Some p => Ok p | None => Err ErrOther end.

(** ** drivers/aes.go: padding, MACs, envelopes *)

Definition v1Sentinel : string := "v1:".

Definition pkcs7Pad (data : string) (blockSize : Z) : string :=
  let padding := blockSize - len data mod blockSize in
  data +:+ fill (Z.to_nat padding) (byte_of padding).

Definition pkcs7Unpad (data : string) : option string :=
  if len data =? 0 then None
  else
    let padding := last_byte data in
    if (padding =? 0) || (BlockSize <? padding) || (len data <? padding) then None
    else
      let n := (String.length data - Z.to_nat padding)%nat in
      if negb (String.eqb (str_drop n data) (fill (Z.to_nat padding) (byte_of padding))) then None
      else Some (str_take n data).

Definition secureCompare (a b : string) : bool := String.eqb a b.

Definition nul : string := String (ascii_of_nat 0) "".
Definition macDomainPrefix : string := "velocity" +:+ nul.
Definition macAADDomainPrefix : string := "velocity-aad" +:+ nul.

Definition computeMACWith (iv ct hmacKey : string) : string :=
  Std_EncodeToString (hmac_sha256 hmacKey (macDomainPrefix +:+ iv +:+ ct)).

Definition computeMACWithAAD (iv ct aad hmacKey : string) : string :=
  if len aad =? 0 then computeMACWith iv ct hmacKey
  else Std_EncodeToString (hmac_sha256 hmacKey (macAADDomainPrefix +:+ be64 (len aad) +:+ aad +:+ iv +:+ ct)).

Definition computeLegacyMACWith (valueB64 ivB64 hmacKey : string) : string :=
  Std_EncodeToString (hmac_sha256 hmacKey ("base64:" +:+ valueB64 +:+ "." +:+ ivB64)).

Definition jsonSafeByte (c : ascii) : bool :=
  let v := byte_val c in
  ((65 <=? v) && (v <=? 90)) || ((97 <=? v) && (v <=? 122)) || ((48 <=? v) && (v <=? 57))
  || Ascii.eqb c "+" || Ascii.eqb c "/" || Ascii.eqb c "=" || Ascii.eqb c "-" || Ascii.eqb c "_".
Definition jsonSafeBase64 (s : string) : bool := all_bytes jsonSafeByte s.

Definition dquote : string := String (ascii_of_nat 34) "".
Definition quoted (s : string) : string := dquote +:+ s +:+ dquote.

(** The hand-built JSON of the fast path. *)
Definition payload_json (p : Payload) : string :=
  "{" +:+ quoted "iv" +:+ ":" +:+ quoted (IV p) +:+ "," +:+ quoted "value" +:+ ":" +:+ quoted (Value p)
  +:+ (if String.eqb (MAC p) "" then "" else "," +:+ quoted "mac" +:+ ":" +:+ quoted (MAC p))
  +:+ (if String.eqb (Tag p) "" then "" else "," +:+ quoted "tag" +:+ ":" +:+ quoted (Tag p))
  +:+ "}".

Definition payload_safe (p : Payload) : bool :=
  jsonSafeBase64 (IV p) && jsonSafeBase64 (Value p) && jsonSafeBase64 (MAC p) && jsonSafeBase64 (Tag p).

(** [p] may be nil. *)
Definition SerializePayload (p : option Payload) : result CryptoError string :=
  let slow := match json_marshal p with Some data => Ok (EncodeToString data) | None => Err ErrOther end in
  match p with
  | Some q => if payload_safe q then Ok (EncodeToString (payload_json q)) else slow
  | None => slow
  end.

Definition decodeEnvelope (encoded : string) : result CryptoError Payload :=
  match match DecodeString encoded with Some data => Some data | None => Std_DecodeString encoded end with
  | None => Err ErrInvalidPayload
  | Some data => match json_unmarshal data with Some p => Ok p | None => Err ErrInvalidPayload end
  end.

Definition DeserializePayload (encoded : string) : result CryptoError Payload :=
  decodeEnvelope (TrimPrefix encoded v1Sentinel).

Definition splitVersion (payload : string) : Z * string :=
  if has_prefix v1Sentinel payload then (1, str_drop (String.length v1Sentinel) payload) else (0, payload).

(** ** The driver *)

Record AESDriver := mkAESDriver {
  key : string;
  hmacKey : string;
  previousKeys : list string;
  cipher : string;
  keySize : Z;
  v0Disabled : bool;
  debugDecrypt : bool
}.

Definition AESOption : Type := AESDriver -> AESDriver.
Definition WithV0Disabled (disabled : bool) : AESOption := fun d =>
  mkAESDriver (key d) (hmacKey d) (previousKeys d) (cipher d) (keySize d) disabled (debugDecrypt d).
Definition WithDecryptDebug (enabled : bool) : AESOption := fun d =>
  mkAESDriver (key d) (hmacKey d) (previousKeys d) (cipher d) (keySize d) (v0Disabled d) enabled.

Definition KeySize (cipher : string) : result CryptoError Z :=
  if String.eqb cipher "AES-128-CBC" || String.eqb cipher "AES-128-GCM" then Ok 16
  else if String.eqb cipher "AES-192-CBC" || String.eqb cipher "AES-192-GCM" then Ok 24
  else if String.eqb cipher "AES-256-CBC" || String.eqb cipher "AES-256-GCM" then Ok 32
  else Err ErrInvalidCipher.

Definition hkdfSalt : string := "velocity-framework-hkdf-salt-v1".

Definition deriveSubkey (master : string) (size : Z) (info : string) : result CryptoError string :=
  match hkdf_sha256 master hkdfSalt info (Z.to_nat size) with Some out => Ok out | None => Err ErrOther end.

Definition NewAESDriver (masterKey : string) (previous : list string) (cipherName : string)
    (opts : list AESOption) : result CryptoError AESDriver :=
  let d := fold_left (fun d o => o d) opts (mkAESDriver "" "" previous (to_upper cipherName) 0 false false) in
  size <-! KeySize (cipher d);;
  if negb (len masterKey =? size) then Err ErrInvalidKeyLength
  else if negb (forallb (fun pk => len pk =? size) previous) then Err ErrInvalidPreviousKey
  else
    encKey <-! deriveSubkey masterKey size "encryption";;
    hk <-! deriveSubkey masterKey 32 "hmac";;
    Ok (mkAESDriver encKey hk (previousKeys d) (cipher d) size (v0Disabled d) (debugDecrypt d)).

Definition isGCM (d : AESDriver) : bool := contains_str "GCM" (cipher d).

(** The AEAD of a key is the key, once [NewCipher] took it. *)
Definition primaryGCM (d : AESDriver) : result CryptoError string := NewCipher (key d).
Definition gcmForKey (d : AESDriver) (k : string) : result CryptoError string :=
  if String.eqb k (key d) then primaryGCM d else NewCipher k.

(** [io.ReadFull(rand.Reader, ...)]. *)
Definition read_random (rnd : option string) : result CryptoError string :=
  match rnd with Some b => Ok b | None => Err ErrOther end.

Definition encryptCBC (d : AESDriver) (rnd : option string) (plaintext aad : string) : result CryptoError string :=
  block <-! NewCipher (key d);;
  iv <-! read_random rnd;;
  let plaintext := pkcs7Pad plaintext BlockSize in
  ciphertext <-! CryptBlocks cbc_encrypt block iv plaintext;;
  let mac := computeMACWithAAD iv ciphertext aad (hmacKey d) in
  let p := mkPayload (Std_EncodeToString iv) (Std_EncodeToString ciphertext) mac "" in
  env <-! SerializePayload (Some p);;
  Ok (v1Sentinel +:+ env).

Definition encryptGCMWithAAD (d : AESDriver) (rnd : option string) (plaintext aad : string) :
    result CryptoError string :=
  gcm <-! primaryGCM d;;
  nonce <-! read_random rnd;;
  ciphertext <-! gcm_Seal gcm nonce plaintext aad;;
  let tagStart := Z.to_nat (len ciphertext - Overhead) in
  let tag := str_drop tagStart ciphertext in
  let ciphertext := str_take tagStart ciphertext in
  let p := mkPayload (Std_EncodeToString nonce) (Std_EncodeToString ciphertext) "" (Std_EncodeToString tag) in
  env <-! SerializePayload (Some p);;
  Ok (v1Sentinel +:+ env).

(** encryptGCM is the same code with nil for the additional data. *)
Definition encryptGCM (d : AESDriver) (rnd : option string) (plaintext : string) : result CryptoError string :=
  gcm <-! primaryGCM d;;
  nonce <-! read_random rnd;;
  ciphertext <-! gcm_Seal gcm nonce plaintext "";;
  let tagStart := Z.to_nat (len ciphertext - Overhead) in
  let tag := str_drop tagStart ciphertext in
  let ciphertext := str_take tagStart ciphertext in
  let p := mkPayload (Std_EncodeToString nonce) (Std_EncodeToString ciphertext) "" (Std_EncodeToString tag) in
  env <-! SerializePayload (Some p);;
  Ok (v1Sentinel +:+ env).

Definition EncryptBytes (d : AESDriver) (rnd : option string) (plaintext : string) : result CryptoError string :=
  if isGCM d then encryptGCM d rnd plaintext else encryptCBC d rnd plaintext "".
Definition Encrypt := EncryptBytes.

Definition EncryptBytesWithAAD (d : AESDriver) (rnd : option string) (plaintext aad : string) :
    result CryptoError string :=
  if isGCM d then encryptGCMWithAAD d rnd plaintext aad else encryptCBC d rnd plaintext aad.

(** A base64 field, with the error its decoding failure becomes. *)
Definition b64_field (e : CryptoError) (s : string) : result CryptoError string :=
  match Std_DecodeString s with Some b => Ok b | None => Err e end.

Definition decryptCBCWithKey (p : Payload) (encKey hmacKey : string) (version : Z) (aad : string) :
    result CryptoError string :=
  if String.eqb (MAC p) "" then Err ErrDecrypt
  else
    iv <-! b64_field ErrDecrypt (IV p);;
    ciphertext <-! b64_field ErrDecrypt (Value p);;
    expectedMAC <-!
      (if version =? 1 then Ok (computeMACWithAAD iv ciphertext aad hmacKey)
       else if version =? 0 then
         if 0 <? len aad then Err ErrDecrypt else Ok (computeLegacyMACWith (Value p) (IV p) hmacKey)
       else Err ErrDecrypt);;
    if negb (secureCompare (MAC p) expectedMAC) then Err ErrDecrypt
    else if negb (len iv =? BlockSize) then Err ErrDecrypt
    else if (len ciphertext =? 0) || negb (len ciphertext mod BlockSize =? 0) then Err ErrDecrypt
    else match NewCipher encKey with
         | Err _ => Err ErrDecrypt
         | Ok block =>
             plaintext <-! CryptBlocks cbc_decrypt block iv ciphertext;;
             match pkcs7Unpad plaintext with Some data => Ok data | None => Err ErrDecrypt end
         end.

Definition decryptGCMWithKey (d : AESDriver) (p : Payload) (k : string) : result CryptoError string :=
  nonce <-! b64_field ErrDecrypt (IV p);;
  ciphertext <-! b64_field ErrDecrypt (Value p);;
  tag <-! b64_field ErrDecrypt (Tag p);;
  let ciphertext := ciphertext +:+ tag in
  match gcmForKey d k with
  | Err _ => Err ErrDecrypt
  | Ok gcm =>
      if negb (len nonce =? NonceSize) then Err ErrDecrypt
      else if len ciphertext <? Overhead then Err ErrInvalidPayload
      else match gcm_Open gcm nonce ciphertext "" with
           | Err Panic => Err Panic
           | Err _ => Err ErrDecrypt
           | Ok plaintext => Ok plaintext
           end
  end.

Definition decryptGCMWithAAD (d : AESDriver) (p : Payload) (k aad : string) : result CryptoError string :=
  nonce <-! b64_field ErrOther (IV p);;
  ciphertext <-! b64_field ErrOther (Value p);;
  tag <-! b64_field ErrOther (Tag p);;
  let ciphertext := ciphertext +:+ tag in
  gcm <-! gcmForKey d k;;
  if negb (len nonce =? NonceSize) then Err ErrInvalidPayload
  else if len ciphertext <? Overhead then Err ErrInvalidPayload
  else gcm_Open gcm nonce ciphertext aad.

Definition decryptWithKeys (d : AESDriver) (p : Payload) (encKey hmacKey : string) (version : Z) :
    result CryptoError string :=
  if isGCM d then decryptGCMWithKey d p encKey else decryptCBCWithKey p encKey hmacKey version "".

Definition decryptWithKeysAAD (d : AESDriver) (p : Payload) (encKey hmacKey aad : string) :
    result CryptoError string :=
  if isGCM d then decryptGCMWithAAD d p encKey aad else decryptCBCWithKey p encKey hmacKey 1 aad.

(** What was written about legacy payloads: the one warning and the event of
    each (dispatched when a dispatcher is installed). *)
Record Legacy := mkLegacy { legacyWarned : bool; warnings : nat; legacyEvents : list string }.

Definition noteLegacyIfV0 (d : AESDriver) (version : Z) (w : Legacy) : Legacy :=
  if negb (version =? 0) then w
  else mkLegacy true (if legacyWarned w then warnings w else S (warnings w)) (legacyEvents w ++ [cipher d]).

(** The loop over the previous keys; [None]: every one was tried. *)
Fixpoint try_previous (d : AESDriver) (p : Payload) (version : Z) (keys : list string) :
    option (result CryptoError string) :=
  match keys with
  | [] => None
  | masterKey :: keys =>
      match deriveSubkey masterKey (keySize d) "encryption", deriveSubkey masterKey 32 "hmac" with
      | Ok encKey, Ok hk =>
          match decryptWithKeys d p encKey hk version with
          | Ok plaintext => Some (Ok plaintext)
          | Err Panic => Some (Err Panic)
          | Err _ => try_previous d p version keys
          end
      | _, _ => try_previous d p version keys
      end
  end.

Definition DecryptBytes (d : AESDriver) (payload : string) (w : Legacy) : result CryptoError string * Legacy :=
  if String.eqb payload "" then (Err ErrInvalidPayload, w)
  else
    let '(version, envelope) := splitVersion payload in
    if (version =? 0) && v0Disabled d then (Err ErrLegacyPayloadDisabled, w)
    else match decodeEnvelope envelope with
         | Err e => (Err e, w)
         | Ok p =>
             match decryptWithKeys d p (key d) (hmacKey d) version with
             | Ok plaintext => (Ok plaintext, noteLegacyIfV0 d version w)
             | Err Panic => (Err Panic, w)
             | Err ErrInvalidPayload => (Err ErrInvalidPayload, w)
             | Err _ =>
                 match try_previous d p version (previousKeys d) with
                 | Some (Ok plaintext) => (Ok plaintext, noteLegacyIfV0 d version w)
                 | Some (Err e) => (Err e, w)
                 | None => (Err ErrDecrypt, w)
                 end
             end
         end.
Definition Decrypt := DecryptBytes.

Fixpoint try_previous_aad (d : AESDriver) (p : Payload) (aad : string) (keys : list string) :
    result CryptoError string :=
  match keys with
  | [] => Err ErrAADMismatch
  | masterKey :: keys =>
      match deriveSubkey masterKey (keySize d) "encryption", deriveSubkey masterKey 32 "hmac" with
      | Ok encKey, Ok hk =>
          match decryptWithKeysAAD d p encKey hk aad with
          | Ok plaintext => Ok plaintext
          | Err Panic => Err Panic
          | Err ErrInvalidPayload => Err ErrInvalidPayload
          | Err _ => try_previous_aad d p aad keys
          end
      | _, _ => try_previous_aad d p aad keys
      end
  end.

Definition DecryptBytesWithAAD (d : AESDriver) (payload aad : string) : result CryptoError string :=
  if String.eqb payload "" then Err ErrInvalidPayload
  else
    let '(version, envelope) := splitVersion payload in
    if negb (version =? 1) then Err ErrInvalidPayload
    else
      p <-! decodeEnvelope envelope;;
      match decryptWithKeysAAD d p (key d) (hmacKey d) aad with
      | Ok plaintext => Ok plaintext
      | Err Panic => Err Panic
      | Err ErrInvalidPayload => Err ErrInvalidPayload
      | Err _ => try_previous_aad d p aad (previousKeys d)
      end.

(** [rnd n]: the [n] bytes read. *)
Definition GenerateKey (d : AESDriver) (rnd : Z -> option string) : result CryptoError string :=
  k <-! read_random (rnd (keySize d));;
  Ok ("base64:" +:+ Std_EncodeToString k).

(** ** crypto.go, compare.go *)

Record Config := mkConfig {
  Cipher : string;
  Debug : bool;
  DisableV0 : bool;
  Key : string;
  PreviousKeys : list string
}.

Definition normalizeCipher (cipher : string) : string :=
  to_upper (if String.eqb cipher "" then "AES-256-GCM" else cipher).

Definition parseKey (keyStr : string) : result CryptoError string :=
  if String.eqb keyStr "" then Err ErrInvalidKey
  else if has_prefix "base64:" keyStr then
    match Std_DecodeString (TrimPrefix keyStr "base64:") with Some k => Ok k | None => Err ErrOther end
  else Ok keyStr.

Fixpoint validatePreviousKeys (prev : list string) (keySize : Z) : result CryptoError (list string) :=
  match prev with
  | [] => Ok []
  | k :: prev =>
      if String.eqb k "" then validatePreviousKeys prev keySize
      else match parseKey k with
           | Err _ => Err ErrInvalidPreviousKey
           | Ok prevKey =>
               if negb (len prevKey =? keySize) then Err ErrInvalidPreviousKey
               else parsed <-! validatePreviousKeys prev keySize;; Ok (prevKey :: parsed)
           end
  end.

(** [Ok tt] is a nil error. *)
Definition Validate (c : Config) : result CryptoError unit :=
  if String.eqb (Key c) "" then Err ErrInvalidKey
  else
    let cipher := normalizeCipher (Cipher c) in
    want <-! KeySize cipher;;
    raw <-! parseKey (Key c);;
    if negb (len raw =? want) then Err ErrInvalidKeyLength
    else _ <-! validatePreviousKeys (PreviousKeys c) want;; Ok tt.

Definition newDriver (c : Config) : result CryptoError AESDriver :=
  key <-! parseKey (Key c);;
  let cipher := normalizeCipher (Cipher c) in
  keySize <-! KeySize cipher;;
  previousKeys <-! validatePreviousKeys (PreviousKeys c) keySize;;
  NewAESDriver key previousKeys cipher [WithV0Disabled (DisableV0 c); WithDecryptDebug (Debug c)].

Definition NewEncryptor (c : Config) : result CryptoError AESDriver :=
  _ <-! Validate c;; newDriver c.

Definition Equal (a b : string) : bool := String.eqb a b.
Definition EqualString (a b : string) : bool := String.eqb a b.

End crypto.
