(* ===== verification/CryptoSpec.v ===== *)
(** * Encryption: what opens, and with which errors

    What was sealed opens again, under the current or a rotated-out key; in
    CBC mode nothing opens that was not sealed, with the same additional data,
    under a configured key; and a refusal depends on the shape of the payload
    only, not on the keys.  The AES driver is an instance of the encryptor the
    queue seals its payloads with (QueuePayload.v). *)

From S2P Require Import Prelude GoStrings QueuePayload WebEncoding Crypto.
From Stdlib Require Import Ascii String.
Local Open Scope string_scope.
Local Open Scope list_scope.
Local Open Scope Z_scope.

(** ** What the driver relies on *)

(** A cipher decrypts what it encrypted, a MAC has 32 bytes and HKDF delivers what was asked of it
    (up to its limit of 255 blocks); encoding/json reads an object of plain
    strings. *)
Class PrimitiveLaws (PR : Primitives) : Prop := {
  aes_inverse k b : String.length b = 16%nat -> aes_decrypt k (aes_encrypt k b) = b;
  aes_block k b : String.length b = 16%nat -> String.length (aes_encrypt k b) = 16%nat;
  gcm_inverse k n p a : gcm_open k n (gcm_seal k n p a) a = Some p;
  gcm_length k n p a : String.length (gcm_seal k n p a) = (String.length p + 16)%nat;
  hmac_length k m : String.length (hmac_sha256 k m) = 32%nat;
  hkdf_delivers m s i n : (n <= 255 * 32)%nat ->
    exists out, hkdf_sha256 m s i n = Some out /\ String.length out = n;
  json_reads p : payload_safe p = true -> json_unmarshal (payload_json p) = Some p
}.

(** ** Padding *)

Lemma length_fill n c : String.length (fill n c) = n.
Proof. induction n as [|n IH]; cbn; congruence. Qed.

Lemma last_byte_fill s n c : last_byte (s +:+ fill (S n) c) = byte_val c.
Proof.
  assert (Hne : forall s, s +:+ fill (S n) c <> "") by (intros [|??]; done).
  induction s as [|x s IH].
  - cbn [String.append]. induction n as [|n IHn]; [done|]. cbn [fill] in *.
    change (last_byte (String c (fill n c)) = byte_val c). apply IHn. intros [|??]; done.
  - cbn [String.append last_byte]. destruct (s +:+ fill (S n) c) eqn:E; [by destruct (Hne s)|done].
Qed.

Lemma byte_val_small v : 0 <= v < 256 -> byte_val (byte_of v) = v.
Proof. intros H. rewrite byte_val_of. change 255 with (Z.ones 8). rewrite Z.land_ones by lia. apply Z.mod_small. lia. Qed.

Lemma length_pad s : exists n, String.length (pkcs7Pad s BlockSize) = (16 * S n)%nat.
Proof.
  unfold pkcs7Pad, len, BlockSize. rewrite length_append, length_fill.
  exists (Z.to_nat (Z.of_nat (String.length s) / 16)).
  pose proof (Z.mod_pos_bound (Z.of_nat (String.length s)) 16 ltac:(lia)).
  pose proof (Z.div_mod (Z.of_nat (String.length s)) 16 ltac:(lia)).
  pose proof (Z.div_pos (Z.of_nat (String.length s)) 16 ltac:(lia) ltac:(lia)). lia.
Qed.

Lemma unpad_pad s : pkcs7Unpad (pkcs7Pad s BlockSize) = Some s.
Proof.
  unfold pkcs7Unpad, pkcs7Pad, BlockSize. set (pad := 16 - len s mod 16).
  assert (Hp : 0 < pad <= 16)
    by (subst pad; pose proof (Z.mod_pos_bound (len s) 16 ltac:(lia)); lia).
  clearbody pad. destruct (Z.to_nat pad) as [|n] eqn:En; [lia|].
  rewrite last_byte_fill, byte_val_small by lia.
  assert (Hl : String.length (s +:+ fill (S n) (byte_of pad)) = (String.length s + S n)%nat)
    by (by rewrite length_append, length_fill).
  unfold len. rewrite Hl, En.
  rewrite (proj2 (Z.eqb_neq _ 0)), (proj2 (Z.eqb_neq pad 0)), (proj2 (Z.ltb_ge _ _)), (proj2 (Z.ltb_ge _ _)) by lia.
  cbn [orb]. replace (String.length s + S n - S n)%nat with (String.length s) by lia.
  by rewrite str_drop_app, String.eqb_refl, str_take_app.
Qed.

Section laws.
Context {PR : Primitives} {PL : PrimitiveLaws PR}.

(** ** CBC *)

Lemma length_cbc k iv n s :
  String.length iv = 16%nat -> String.length s = (16 * n)%nat ->
  String.length (cbc_encrypt k iv n s) = (16 * n)%nat.
Proof.
  revert iv s. induction n as [|n IH]; intros iv s Hiv Hs; [done|]. cbn [cbc_encrypt].
  assert (Hb : String.length (aes_encrypt k (xor_bytes iv (str_take 16 s))) = 16%nat).
  { apply aes_block. rewrite xor_bytes_length; [done|]. rewrite length_str_take by lia. done. }
  rewrite length_append, Hb, IH; [lia|done|]. rewrite length_str_drop. lia.
Qed.

Lemma cbc_inverse k iv n s :
  String.length iv = 16%nat -> String.length s = (16 * n)%nat ->
  cbc_decrypt k iv n (cbc_encrypt k iv n s) = s.
Proof.
  revert iv s. induction n as [|n IH]; intros iv s Hiv Hs; [by destruct s|].
  cbn [cbc_encrypt cbc_decrypt]. set (c := aes_encrypt k (xor_bytes iv (str_take 16 s))).
  assert (Ht : String.length (str_take 16 s) = 16%nat) by (rewrite length_str_take by lia; done).
  assert (Hx : String.length (xor_bytes iv (str_take 16 s)) = 16%nat) by (by rewrite xor_bytes_length by congruence).
  assert (Hb : String.length c = 16%nat) by (by apply aes_block).
  rewrite <- Hb, str_take_app, str_drop_app. rewrite Hb.
  rewrite IH by (rewrite ?length_str_drop; lia). subst c. rewrite aes_inverse by done.
  rewrite xor_bytes_cancel by congruence. apply str_take_drop.
Qed.

(** [CryptBlocks] on whole blocks. *)
Lemma CryptBlocks_blocks f k iv s n :
  String.length iv = 16%nat -> String.length s = (16 * n)%nat -> CryptBlocks f k iv s = Ok (f k iv n s).
Proof.
  intros Hiv Hs. unfold CryptBlocks, len, BlockSize. rewrite Hiv, Hs. cbn [Z.of_nat Z.eqb negb].
  change (Z.of_nat 16 =? 16) with true. cbn [negb].
  replace (Z.of_nat (16 * n)) with (Z.of_nat n * 16) by lia. rewrite Z.mod_mul, Z.div_mul by lia.
  cbn [Z.eqb negb]. by rewrite Nat2Z.id.
Qed.

(** ** Envelopes *)

Lemma std_safe s : jsonSafeBase64 (Std_EncodeToString s) = true.
Proof. apply Std_encode_bytes; vm_compute; reflexivity. Qed.

Lemma envelope_round_trip p :
  payload_safe p = true ->
  exists env, SerializePayload (Some p) = Ok env /\ decodeEnvelope env = Ok p.
Proof.
  intros H. exists (EncodeToString (payload_json p)). cbn [SerializePayload]. rewrite H. split; [done|].
  unfold decodeEnvelope. rewrite DecodeString_EncodeToString. by rewrite json_reads.
Qed.

Lemma splitVersion_v1 env : splitVersion (v1Sentinel +:+ env) = (1, env).
Proof. reflexivity. Qed.

(** ** Drivers *)

Definition subkey (master : string) (size : Z) (info : string) : string :=
  default "" (hkdf_sha256 master hkdfSalt info (Z.to_nat size)).

Lemma deriveSubkey_ok m size i :
  0 <= size <= 32 -> deriveSubkey m size i = Ok (subkey m size i) /\ len (subkey m size i) = size.
Proof.
  intros H. unfold deriveSubkey, subkey, len.
  destruct (hkdf_delivers m hkdfSalt i (Z.to_nat size)) as (out & -> & Hl); [lia|]. cbn. split; [done|lia].
Qed.

Lemma KeySize_ok c size :
  KeySize c = Ok size -> (size = 16 \/ size = 24 \/ size = 32) /\ to_upper c = c.
Proof.
  unfold KeySize. intros H.
  repeat match type of H with (if String.eqb ?a ?b || String.eqb ?a ?b' then _ else _) = _ =>
    destruct (String.eqb_spec a b) as [->|_];
    [|destruct (String.eqb_spec a b') as [->|_]]; cbn [orb] in H end;
  simplify_eq; split; auto.
Qed.

(** The raw keys of a configuration, the current one first. *)
Definition masters (c : Config) : list string :=
  match parseKey (Key c), KeySize (normalizeCipher (Cipher c)) with
  | Ok m, Ok size => match validatePreviousKeys (PreviousKeys c) size with Ok prev => m :: prev | Err _ => [] end
  | _, _ => []
  end.

Definition driver_of (c : Config) (m : string) (prev : list string) (size : Z) : AESDriver :=
  mkAESDriver (subkey m size "encryption") (subkey m 32 "hmac") prev (normalizeCipher (Cipher c)) size
    (DisableV0 c) (Debug c).

Lemma previous_sizes prev size parsed :
  validatePreviousKeys prev size = Ok parsed -> forallb (fun pk => len pk =? size) parsed = true.
Proof.
  revert parsed. induction prev as [|k prev IH]; cbn; intros parsed; [by intros <-%Ok_inj|].
  case_match; [auto|]. destruct (parseKey k) as [pk|]; [|done].
  destruct (len pk =? size) eqn:E; [|done]. cbn [negb].
  destruct (validatePreviousKeys prev size) as [l|]; [|done]. cbn. intros <-%Ok_inj. cbn. rewrite E. by apply IH.
Qed.

(** A configuration that validates is a driver, and no other is. *)
Lemma Validate_iff c :
  match Validate c with
  | Ok _ => exists m prev size, parseKey (Key c) = Ok m /\ KeySize (normalizeCipher (Cipher c)) = Ok size
      /\ validatePreviousKeys (PreviousKeys c) size = Ok prev
      /\ masters c = m :: prev /\ NewEncryptor c = Ok (driver_of c m prev size)
  | Err e => NewEncryptor c = Err e
  end.
Proof.
  unfold NewEncryptor. destruct (Validate c) as [[]|e] eqn:Ev; [|done]. unfold Validate in Ev. cbn [res_bind].
  unfold newDriver, masters.
  destruct (String.eqb (Key c) "") eqn:Ek; [done|]. destruct (KeySize _) as [size|] eqn:Es; [|done].
  cbn [res_bind] in Ev. destruct (parseKey (Key c)) as [m|] eqn:Em; [|done]. cbn [res_bind] in Ev.
  destruct (len m =? size) eqn:El; [|done]. cbn [negb] in Ev.
  destruct (validatePreviousKeys _ size) as [prev|] eqn:Ep; [|done].
  exists m, prev, size. split_and!; try done. cbn [res_bind]. rewrite Ep. cbn [res_bind]. destruct (KeySize_ok _ _ Es) as [Hsize Hup].
  unfold NewAESDriver. cbn -[KeySize forallb len deriveSubkey normalizeCipher to_upper]. rewrite Hup, Es. cbn [res_bind].
  rewrite El, (previous_sizes _ _ _ Ep). cbn [negb].
  rewrite (proj1 (deriveSubkey_ok m size "encryption" ltac:(lia))), (proj1 (deriveSubkey_ok m 32 "hmac" ltac:(lia))).
  done.
Qed.

Lemma NewEncryptor_inv c d :
  NewEncryptor c = Ok d -> exists m prev size,
    masters c = m :: prev /\ (size = 16 \/ size = 24 \/ size = 32) /\ d = driver_of c m prev size
    /\ KeySize (normalizeCipher (Cipher c)) = Ok size.
Proof.
  intros H. pose proof (Validate_iff c) as Hv. destruct (Validate c) as [[]|e]; [|congruence].
  destruct Hv as (m & prev & size & _ & Hs & _ & Hm & Hd). exists m, prev, size.
  split_and!; [done|by destruct (KeySize_ok _ _ Hs)|congruence|done].
Qed.

Lemma NewCipher_subkey m size i :
  size = 16 \/ size = 24 \/ size = 32 -> NewCipher (subkey m size i) = Ok (subkey m size i).
Proof.
  intros H. unfold NewCipher. rewrite (proj2 (deriveSubkey_ok m size i ltac:(lia))).
  by destruct H as [->|[->| ->]].
Qed.

Lemma gcmForKey_eq d k : gcmForKey d k = NewCipher k.
Proof. unfold gcmForKey, primaryGCM. by destruct (String.eqb_spec k (key d)) as [->|]. Qed.

(** ** The messages a MAC is computed over *)

Definition mac_input (iv ct aad : string) : string :=
  if len aad =? 0 then macDomainPrefix +:+ iv +:+ ct
  else macAADDomainPrefix +:+ be64 (len aad) +:+ aad +:+ iv +:+ ct.

Lemma computeMAC_input iv ct aad hk :
  computeMACWithAAD iv ct aad hk = Std_EncodeToString (hmac_sha256 hk (mac_input iv ct aad)).
Proof. unfold computeMACWithAAD, mac_input. by case_match. Qed.

Lemma Std_Encode_inj s t : Std_EncodeToString s = Std_EncodeToString t -> s = t.
Proof.
  intros H. apply (f_equal Std_DecodeString) in H. rewrite !Std_DecodeString_EncodeToString in H. by apply Some_inj in H.
Qed.

Lemma mac_nonempty k m : String.eqb (Std_EncodeToString (hmac_sha256 k m)) "" = false.
Proof.
  apply String.eqb_neq. intros H. change "" with (Std_EncodeToString "") in H. apply Std_Encode_inj in H.
  pose proof (hmac_length k m) as Hl. by rewrite H in Hl.
Qed.

(** ** What one key makes of a payload *)

(** The plaintext of blocks that carry the right MAC. *)
Definition cbc_plaintext (ek iv ct : string) : result CryptoError string :=
  if negb (len iv =? BlockSize) then Err Crypto.ErrDecrypt
  else if (len ct =? 0) || negb (len ct mod BlockSize =? 0) then Err Crypto.ErrDecrypt
  else match NewCipher ek with
       | Err _ => Err Crypto.ErrDecrypt
       | Ok block => match pkcs7Unpad (cbc_decrypt block iv (Z.to_nat (len ct / BlockSize)) ct) with
                     | Some data => Ok data | None => Err Crypto.ErrDecrypt
                     end
       end.

Lemma decryptCBC_v1 iv ct tag ek hk aad msg hk' :
  let p := Crypto.mkPayload (Std_EncodeToString iv) (Std_EncodeToString ct) (Std_EncodeToString (hmac_sha256 hk' msg)) tag in
  decryptCBCWithKey p ek hk 1 aad =
    if decide (hmac_sha256 hk' msg = hmac_sha256 hk (mac_input iv ct aad)) then cbc_plaintext ek iv ct
    else Err Crypto.ErrDecrypt.
Proof.
  cbn zeta. unfold decryptCBCWithKey, b64_field, cbc_plaintext. cbn [MAC IV Value].
  rewrite mac_nonempty, !Std_DecodeString_EncodeToString. cbn [res_bind Z.eqb Pos.eqb]. rewrite computeMAC_input.
  unfold secureCompare. case_decide as Hm.
  - rewrite Hm, String.eqb_refl. cbn [negb]. destruct (len iv =? BlockSize) eqn:Ei; [|done]. cbn [negb].
    destruct (len ct =? 0) eqn:E0; [done|]. cbn [orb]. destruct (len ct mod BlockSize =? 0) eqn:E1; [|done]. cbn [negb].
    destruct (NewCipher ek); [|done]. unfold CryptBlocks. by rewrite Ei, E1.
  - rewrite (proj2 (String.eqb_neq _ _)); [done|]. intros H. by apply Std_Encode_inj in H.
Qed.

Lemma cbc_plaintext_inverse ek iv pt n :
  NewCipher ek = Ok ek -> String.length iv = 16%nat -> String.length (pkcs7Pad pt BlockSize) = (16 * S n)%nat ->
  cbc_plaintext ek iv (cbc_encrypt ek iv (S n) (pkcs7Pad pt BlockSize)) = Ok pt.
Proof.
  intros Hc Hiv Hn. unfold cbc_plaintext, len, BlockSize in *. rewrite (length_cbc ek iv (S n)) by done.
  rewrite Hiv, Hc. change (Z.of_nat 16 =? 16) with true. cbn [negb].
  replace (Z.of_nat (16 * S n)) with (Z.of_nat (S n) * 16) by lia. rewrite Z.mod_mul, Z.div_mul by lia.
  rewrite (proj2 (Z.eqb_neq _ 0)) by lia. cbn [orb negb Z.eqb]. rewrite Nat2Z.id.
  rewrite cbc_inverse by done. change 16 with BlockSize. by rewrite unpad_pad.
Qed.

Lemma encryptCBC_ok d iv pt aad :
  NewCipher (key d) = Ok (key d) -> String.length iv = 16%nat ->
  exists n env, String.length (pkcs7Pad pt BlockSize) = (16 * S n)%nat
    /\ encryptCBC d (Some iv) pt aad = Ok (v1Sentinel +:+ env)
    /\ let ct := cbc_encrypt (key d) iv (S n) (pkcs7Pad pt BlockSize) in
       decodeEnvelope env = Ok (Crypto.mkPayload (Std_EncodeToString iv) (Std_EncodeToString ct)
         (Std_EncodeToString (hmac_sha256 (hmacKey d) (mac_input iv ct aad))) "").
Proof.
  intros Hc Hiv. destruct (length_pad pt) as [n Hn]. exists n. unfold encryptCBC. rewrite Hc. cbn [res_bind read_random].
  rewrite (CryptBlocks_blocks _ _ _ _ (S n)) by done. cbn [res_bind]. rewrite computeMAC_input.
  set (ct := cbc_encrypt _ _ _ _). 
  destruct (envelope_round_trip (Crypto.mkPayload (Std_EncodeToString iv) (Std_EncodeToString ct)
         (Std_EncodeToString (hmac_sha256 (hmacKey d) (mac_input iv ct aad))) "")) as (env & Hs & Hd).
  { unfold payload_safe. cbn [IV Value MAC Tag]. by rewrite !std_safe. }
  exists env. rewrite Hs. done.
Qed.

Lemma encryptGCM_ok d iv pt aad :
  NewCipher (key d) = Ok (key d) -> String.length iv = 12%nat -> len pt <= gcm_limit ->
  exists env ct tag, encryptGCMWithAAD d (Some iv) pt aad = Ok (v1Sentinel +:+ env)
    /\ gcm_seal (key d) iv pt aad = ct +:+ tag /\ len (ct +:+ tag) = len pt + Overhead
    /\ decodeEnvelope env = Ok (Crypto.mkPayload (Std_EncodeToString iv) (Std_EncodeToString ct) ""
         (Std_EncodeToString tag)).
Proof.
  intros Hc Hiv Hl. unfold encryptGCMWithAAD, primaryGCM. rewrite Hc. cbn [res_bind read_random].
  unfold gcm_Seal. unfold len at 1. rewrite Hiv. change (negb (Z.of_nat 12 =? NonceSize)) with false. cbn iota.
  rewrite (proj2 (Z.ltb_ge _ _)) by done. cbn [res_bind].
  set (c := gcm_seal _ _ _ _). set (n := Z.to_nat (len c - Overhead)).
  destruct (envelope_round_trip (Crypto.mkPayload (Std_EncodeToString iv) (Std_EncodeToString (str_take n c)) ""
         (Std_EncodeToString (str_drop n c)))) as (env & Hs & Hd).
  { unfold payload_safe. cbn [IV Value MAC Tag]. by rewrite !std_safe. }
  exists env, (str_take n c), (str_drop n c). rewrite Hs, str_take_drop. split_and!; try done.
  unfold len, c, Overhead. rewrite gcm_length. lia.
Qed.

Lemma decryptGCM_sealed d k iv ct tag m aad :
  NewCipher k = Ok k -> String.length iv = 12%nat -> Overhead <= len (ct +:+ tag) <= gcm_limit + Overhead ->
  let p := Crypto.mkPayload (Std_EncodeToString iv) (Std_EncodeToString ct) m (Std_EncodeToString tag) in
  decryptGCMWithAAD d p k aad = match gcm_open k iv (ct +:+ tag) aad with Some x => Ok x | None => Err ErrOther end
  /\ decryptGCMWithKey d p k = match gcm_open k iv (ct +:+ tag) "" with Some x => Ok x | None => Err Crypto.ErrDecrypt end.
Proof.
  intros Hk Hiv Hl. cbn zeta. unfold decryptGCMWithAAD, decryptGCMWithKey, b64_field. cbn [IV Value Tag].
  rewrite !Std_DecodeString_EncodeToString. cbn [res_bind]. rewrite gcmForKey_eq, Hk. cbn [res_bind].
  unfold gcm_Open. assert (Hn : negb (len iv =? NonceSize) = false) by (unfold len; by rewrite Hiv).
  rewrite Hn. rewrite !(proj2 (Z.ltb_ge (len _) _)), !(proj2 (Z.ltb_ge (_ + _) _)) by lia.
  split; [done|]. by destruct (gcm_open k iv (ct +:+ tag) "").
Qed.

(** ** Rotation *)

(** What the keys of one master make of a payload, with and without
    additional data. *)
Definition opens (d : AESDriver) (p : Crypto.Payload) (m aad : string) : result CryptoError string :=
  decryptWithKeysAAD d p (subkey m (keySize d) "encryption") (subkey m 32 "hmac") aad.
Definition opens_plain (d : AESDriver) (p : Crypto.Payload) (version : Z) (m : string) : result CryptoError string :=
  decryptWithKeys d p (subkey m (keySize d) "encryption") (subkey m 32 "hmac") version.

(** A failure after which the next key is tried. *)
Definition passed_over (r : result CryptoError string) : Prop :=
  exists e, r = Err e /\ e <> Panic /\ e <> ErrInvalidPayload.

Lemma try_aad_step d p aad m keys :
  0 <= keySize d <= 32 ->
  try_previous_aad d p aad (m :: keys) =
    match opens d p m aad with
    | Ok plaintext => Ok plaintext
    | Err Panic => Err Panic
    | Err ErrInvalidPayload => Err ErrInvalidPayload
    | Err _ => try_previous_aad d p aad keys
    end.
Proof.
  intros H. cbn [try_previous_aad]. rewrite (proj1 (deriveSubkey_ok m (keySize d) "encryption" H)).
  by rewrite (proj1 (deriveSubkey_ok m 32 "hmac" ltac:(lia))).
Qed.

Lemma try_step d p version m keys :
  0 <= keySize d <= 32 ->
  try_previous d p version (m :: keys) =
    match opens_plain d p version m with
    | Ok plaintext => Some (Ok plaintext)
    | Err Panic => Some (Err Panic)
    | Err _ => try_previous d p version keys
    end.
Proof.
  intros H. cbn [try_previous]. rewrite (proj1 (deriveSubkey_ok m (keySize d) "encryption" H)).
  by rewrite (proj1 (deriveSubkey_ok m 32 "hmac" ltac:(lia))).
Qed.

(** The keys before the right one are passed over. *)
Lemma try_aad_finds d p aad before m after pt :
  0 <= keySize d <= 32 -> opens d p m aad = Ok pt ->
  (forall m', m' ∈ before -> m' <> m -> passed_over (opens d p m' aad)) ->
  try_previous_aad d p aad (before ++ m :: after) = Ok pt.
Proof.
  intros Hk Ho Hf. induction before as [|m' before IH]; cbn [app]; rewrite try_aad_step by done; [by rewrite Ho|].
  destruct (decide (m' = m)) as [->|Hne]; [by rewrite Ho|].
  destruct (Hf m') as (e & -> & H1 & H2); [by left|done|].
  rewrite IH by (intros; apply Hf; [by right|done]). by destruct e.
Qed.

Lemma try_finds d p version before m after pt :
  0 <= keySize d <= 32 -> opens_plain d p version m = Ok pt ->
  (forall m', m' ∈ before -> m' <> m -> passed_over (opens_plain d p version m')) ->
  try_previous d p version (before ++ m :: after) = Some (Ok pt).
Proof.
  intros Hk Ho Hf. induction before as [|m' before IH]; cbn [app]; rewrite try_step by done; [by rewrite Ho|].
  destruct (decide (m' = m)) as [->|Hne]; [by rewrite Ho|].
  destruct (Hf m') as (e & -> & H1 & H2); [by left|done|].
  rewrite IH by (intros; apply Hf; [by right|done]). by destruct e.
Qed.

Lemma sizes_bound size : size = 16 \/ size = 24 \/ size = 32 -> 0 <= size <= 32.
Proof. lia. Qed.

(** A decryption tries the masters in the order of the configuration. *)
Lemma DecryptAAD_tries c m prev size payload env p aad :
  size = 16 \/ size = 24 \/ size = 32 -> payload <> "" -> splitVersion payload = (1, env) ->
  decodeEnvelope env = Ok p ->
  let d := driver_of c m prev size in
  DecryptBytesWithAAD d payload aad = try_previous_aad d p aad (m :: prev).
Proof.
  intros Hs Hne Hv Hp d. rewrite try_aad_step by (by apply sizes_bound).
  unfold DecryptBytesWithAAD. apply String.eqb_neq in Hne. rewrite Hne, Hv. cbn [Z.eqb Pos.eqb negb]. by rewrite Hp.
Qed.

Lemma Decrypt_tries c m prev size payload env version p w :
  size = 16 \/ size = 24 \/ size = 32 -> payload <> "" -> splitVersion payload = (version, env) ->
  (version =? 0) && DisableV0 c = false -> decodeEnvelope env = Ok p ->
  let d := driver_of c m prev size in
  opens_plain d p version m <> Err ErrInvalidPayload ->
  DecryptBytes d payload w =
    match try_previous d p version (m :: prev) with
    | Some (Ok plaintext) => (Ok plaintext, noteLegacyIfV0 d version w)
    | Some (Err e) => (Err e, w)
    | None => (Err Crypto.ErrDecrypt, w)
    end.
Proof.
  intros Hs Hne Hv H0 Hp d Ho. rewrite try_step by (by apply sizes_bound).
  unfold DecryptBytes. apply String.eqb_neq in Hne. rewrite Hne, Hv. cbn [v0Disabled d driver_of].
  rewrite H0, Hp. change (decryptWithKeys d p (key d) (hmacKey d) version) with (opens_plain d p version m).
  destruct (opens_plain d p version m) as [|[]]; done.
Qed.

(** One call of EncryptBytesWithAAD in CBC mode, and the message it
    authenticates. *)
Record Sealing := mkSealing { s_master : string; s_iv : string; s_plain : string; s_aad : string }.

Definition sealed_blocks (size : Z) (e : Sealing) : string :=
  let padded := pkcs7Pad (s_plain e) BlockSize in
  cbc_encrypt (subkey (s_master e) size "encryption") (s_iv e) (Z.to_nat (len padded / BlockSize)) padded.
Definition sealed_message (size : Z) (e : Sealing) : string := mac_input (s_iv e) (sealed_blocks size e) (s_aad e).

Definition sealing_ok (e : Sealing) : Prop := String.length (s_iv e) = 16%nat /\ len (s_aad e) < two63.

Lemma blocks_count pt n :
  String.length (pkcs7Pad pt BlockSize) = (16 * n)%nat -> Z.to_nat (len (pkcs7Pad pt BlockSize) / BlockSize) = n.
Proof.
  intros H. unfold len. rewrite H. unfold BlockSize. replace (Z.of_nat (16 * n)) with (Z.of_nat n * 16) by lia.
  rewrite Z.div_mul by lia. apply Nat2Z.id.
Qed.

(** The keys of [m'] do not accept what the keys of [m] made of this plaintext
    with this nonce and additional data: in CBC the two MACs of its message
    differ, in GCM its tag fails. *)
Definition rejects (d : AESDriver) (m m' iv pt aad : string) : Prop :=
  if isGCM d then
    gcm_open (subkey m' (keySize d) "encryption") iv (gcm_seal (subkey m (keySize d) "encryption") iv pt aad) aad = None
  else
    let msg := sealed_message (keySize d) (mkSealing m iv pt aad) in
    hmac_sha256 (subkey m' 32 "hmac") msg <> hmac_sha256 (subkey m 32 "hmac") msg.

(** Random bytes of the length the mode reads, and a plaintext it takes. *)
Definition takes (d : AESDriver) (iv pt : string) : Prop :=
  if isGCM d then String.length iv = 12%nat /\ len pt <= gcm_limit else String.length iv = 16%nat.

(** What a driver seals, a driver of the same cipher opens with the keys of
    the sealing master, and passes over with keys that reject it. *)
Lemma seal_opens c m prev size d iv pt aad :
  size = 16 \/ size = 24 \/ size = 32 -> cipher d = normalizeCipher (Cipher c) -> keySize d = size ->
  takes d iv pt ->
  exists env p, EncryptBytesWithAAD (driver_of c m prev size) (Some iv) pt aad = Ok (v1Sentinel +:+ env)
    /\ decodeEnvelope env = Ok p
    /\ opens d p m aad = Ok pt /\ (aad = "" -> opens_plain d p 1 m = Ok pt)
    /\ forall m', rejects d m m' iv pt aad -> passed_over (opens d p m' aad) /\ (aad = "" -> passed_over (opens_plain d p 1 m')).
Proof.
  intros Hs Hc Hk Ht. set (d1 := driver_of c m prev size).
  assert (Hg : isGCM d1 = isGCM d) by (unfold isGCM; by rewrite Hc).
  assert (Hkey : NewCipher (key d1) = Ok (key d1)) by (by apply NewCipher_subkey).
  unfold takes in Ht. unfold rejects, EncryptBytesWithAAD, opens, opens_plain, decryptWithKeys, decryptWithKeysAAD.
  rewrite Hg, Hk. destruct (isGCM d).
  - destruct Ht as [Hiv Hl]. destruct (encryptGCM_ok d1 iv pt aad) as (env & ct & tag & He & Hseal & Hlen & Hd); [done..|].
    exists env, (Crypto.mkPayload (Std_EncodeToString iv) (Std_EncodeToString ct) "" (Std_EncodeToString tag)).
    assert (Hrange : Overhead <= len (ct +:+ tag) <= gcm_limit + Overhead)
      by (rewrite Hlen; unfold len, Overhead in *; lia).
    pose proof (fun m' aad => decryptGCM_sealed d _ iv ct tag "" aad
      (NewCipher_subkey m' size "encryption" Hs) Hiv Hrange) as Hopen.
    cbn zeta in Hopen. split_and!; try done.
    + rewrite (proj1 (Hopen m aad)), <- Hseal. cbn [key d1 driver_of]. by rewrite gcm_inverse.
    + intros ->. rewrite (proj2 (Hopen m "")), <- Hseal. cbn [key d1 driver_of]. by rewrite gcm_inverse.
    + intros m' Hf. rewrite (proj1 (Hopen m' aad)), <- Hseal. cbn [key d1 driver_of]. rewrite Hf.
      split; [by eexists|]. intros ->. rewrite (proj2 (Hopen m' "")), <- Hseal. cbn [key d1 driver_of].
      rewrite Hf. by eexists.
  - destruct (encryptCBC_ok d1 iv pt aad) as (n & env & Hn & He & Hd); [done..|]. cbn zeta in Hd.
    unfold sealed_message, sealed_blocks. cbn [s_master s_iv s_plain s_aad]. rewrite (blocks_count pt (S n) Hn).
    eexists env, _. split_and!; [done|exact Hd|..].
    + rewrite decryptCBC_v1, decide_True by done. by apply cbc_plaintext_inverse.
    + intros ->. rewrite decryptCBC_v1, decide_True by done. by apply cbc_plaintext_inverse.
    + intros m' Hf. rewrite !decryptCBC_v1, !decide_False by (intros H; by apply Hf).
      split; [by eexists|]. intros ->. rewrite decide_False; [by eexists|]. intros H. by apply Hf.
Qed.

Lemma EncryptBytes_no_aad d rnd pt : EncryptBytes d rnd pt = EncryptBytesWithAAD d rnd pt "".
Proof. unfold EncryptBytes, EncryptBytesWithAAD. by destruct (isGCM d). Qed.

Lemma masters_parse c m prev size k :
  masters c = m :: prev -> parseKey (Key c) = Ok k -> KeySize (normalizeCipher (Cipher c)) = Ok size -> m = k.
Proof. unfold masters. intros H Hk Hs. rewrite Hk, Hs in H. destruct (validatePreviousKeys _ _); by simplify_eq. Qed.

(** C38: what one configuration seals, every configuration of the same cipher
    that still lists the sealing key opens to the same plaintext, with the same
    additional data; without additional data the plain decryption does too and
    notes no legacy payload.  Where the sealing key is still the current one
    nothing more is assumed; where it is a previous one, the keys tried before
    it must not accept this very payload ([rejects]: in CBC its message has
    another MAC under them, in GCM its tag fails under them).  Sealing succeeds
    whenever the random source delivers the bytes the mode reads and, in GCM,
    the plaintext is within the limit of the mode, 2^36 - 32 bytes ([takes]);
    beyond it crypto/cipher panics. *)
Theorem sealed_data_opens_across_rotation c c' d d' before m after iv pt aad w :
  NewEncryptor c = Ok d -> NewEncryptor c' = Ok d' ->
  normalizeCipher (Cipher c) = normalizeCipher (Cipher c') ->
  parseKey (Key c) = Ok m -> masters c' = before ++ m :: after ->
  (forall m', m' ∈ before -> m' <> m -> rejects d m m' iv pt aad) ->
  takes d iv pt ->
  exists payload, EncryptBytesWithAAD d (Some iv) pt aad = Ok payload
    /\ DecryptBytesWithAAD d' payload aad = Ok pt
    /\ (aad = "" -> EncryptBytes d (Some iv) pt = Ok payload /\ DecryptBytes d' payload w = (Ok pt, w)).
Proof.
  intros Hd Hd' Hcip Hm Hin Hf Ht.
  destruct (NewEncryptor_inv c d Hd) as (m0 & prev & size & Hms & Hs & -> & Hks).
  rewrite (masters_parse c m0 prev size m Hms Hm Hks) in *.
  destruct (NewEncryptor_inv c' d' Hd') as (m1 & prev' & size' & Hms' & Hs' & -> & Hks').
  assert (size' = size) as -> by (rewrite Hcip in Hks; congruence).
  destruct (seal_opens c m prev size (driver_of c' m1 prev' size) iv pt aad) as
    (env & p & He & Hp & Ho & Hop & Hfor); [done|done|done|unfold takes, isGCM in *; cbn [cipher driver_of] in *; by rewrite <- Hcip|].
  assert (Hrej : forall m', m' ∈ before -> m' <> m -> rejects (driver_of c' m1 prev' size) m m' iv pt aad).
  { intros m' H1 H2. specialize (Hf m' H1 H2). unfold rejects, isGCM in *. cbn [cipher keySize driver_of] in *.
    by rewrite <- Hcip. }
  rewrite Hms' in Hin. exists (v1Sentinel +:+ env). split_and!; [done|..].
  - rewrite (DecryptAAD_tries c' m1 prev' size (v1Sentinel +:+ env) env p aad) by done. rewrite Hin.
    apply try_aad_finds; [by apply sizes_bound|done..|]. intros m' Hm' Hne. by apply Hfor, Hrej.
  - intros ->. rewrite EncryptBytes_no_aad. split; [done|].
    assert (Hpass : forall m', m' ∈ before -> m' <> m ->
      passed_over (opens_plain (driver_of c' m1 prev' size) p 1 m')) by (intros m' Hm' Hne; by apply Hfor; [apply Hrej|]).
    rewrite (Decrypt_tries c' m1 prev' size (v1Sentinel +:+ env) env 1 p w); [|done..|].
    + rewrite Hin. by rewrite (try_finds _ _ _ before m after pt); [|apply sizes_bound|auto..].
    + destruct (decide (m1 = m)) as [->|Hne]; [by rewrite Hop|].
      destruct before as [|b before]; cbn in Hin; [by injection Hin as -> _|]. injection Hin as -> _.
      destruct (Hpass b) as (e & -> & _ & He'); [by left|done|congruence].
Qed.

(** ** The framing of a MAC *)






(** ** What opens was sealed *)





(** The record is what the driver does. *)
Lemma sealing_recorded c m prev size e :
  size = 16 \/ size = 24 \/ size = 32 -> isGCM (driver_of c m prev size) = false -> sealing_ok e -> s_master e = m ->
  exists env p, EncryptBytesWithAAD (driver_of c m prev size) (Some (s_iv e)) (s_plain e) (s_aad e) = Ok (v1Sentinel +:+ env)
    /\ decodeEnvelope env = Ok p
    /\ MAC p = Std_EncodeToString (hmac_sha256 (subkey m 32 "hmac") (sealed_message size e)).
Proof.
  intros Hs Hg [Hiv _] <-. set (d := driver_of c (s_master e) prev size).
  destruct (encryptCBC_ok d (s_iv e) (s_plain e) (s_aad e)) as (n & env & Hn & He & Hd);
    [by apply NewCipher_subkey|done|].
  exists env. eexists. split_and!; [unfold EncryptBytesWithAAD, d; by rewrite Hg|exact Hd|].
  unfold sealed_message, sealed_blocks. cbn [MAC hmacKey key d driver_of]. by rewrite (blocks_count _ (S n)).
Qed.




(** CBC has one error: it tells nothing about the stage that failed. *)
Lemma decryptCBC_one_error p ek hk version aad :
  match decryptCBCWithKey p ek hk version aad with Ok _ => True | Err e => e = Crypto.ErrDecrypt end.
Proof.
  unfold decryptCBCWithKey, b64_field, CryptBlocks.
  destruct (String.eqb (MAC p) ""); [done|]. destruct (Std_DecodeString (IV p)) as [iv|]; [|done]. cbn [res_bind].
  destruct (Std_DecodeString (Value p)) as [ct|]; [|done]. cbn [res_bind].
  match goal with |- context [res_bind ?e _] =>
    assert (He : forall x, e = Err x -> x = Crypto.ErrDecrypt)
      by (destruct (version =? 1), (version =? 0), (0 <? len aad); congruence);
    destruct e as [mac|x]; [|by apply He] end.
  cbn [res_bind]. destruct (secureCompare (MAC p) mac); [|done]. cbn [negb].
  destruct (len iv =? BlockSize); [|done]. cbn [negb].
  destruct (len ct =? 0); [done|]. cbn [orb]. destruct (len ct mod BlockSize =? 0); [|done]. cbn [negb].
  destruct (NewCipher ek); [|done]. cbn [res_bind]. by destruct (pkcs7Unpad _).
Qed.



(** ** Refusals *)

(** The decoded nonce and the length of ciphertext and tag, when the three
    fields of a GCM payload decode. *)
Definition gcm_shape (p : Crypto.Payload) : option (string * Z) :=
  n ← Std_DecodeString (IV p); c ← Std_DecodeString (Value p); t ← Std_DecodeString (Tag p); Some (n, len (c +:+ t)).

Definition short_tag (p : Crypto.Payload) : bool :=
  match gcm_shape p with Some (n, l) => (len n =? NonceSize) && (l <? Overhead) | None => false end.
Definition malformed (p : Crypto.Payload) : bool :=
  match gcm_shape p with Some (n, l) => negb (len n =? NonceSize) || (l <? Overhead) | None => false end.

(** The error of a refused payload, as a function of the payload. *)
Definition refusal (gcm disabled : bool) (payload : string) : CryptoError :=
  if String.eqb payload "" then ErrInvalidPayload
  else if ((splitVersion payload).1 =? 0) && disabled then ErrLegacyPayloadDisabled
  else match decodeEnvelope (splitVersion payload).2 with
       | Err _ => ErrInvalidPayload
       | Ok p => if gcm && short_tag p then ErrInvalidPayload else Crypto.ErrDecrypt
       end.

Definition refusal_aad (gcm : bool) (payload : string) : CryptoError :=
  if String.eqb payload "" then ErrInvalidPayload
  else if negb ((splitVersion payload).1 =? 1) then ErrInvalidPayload
  else match decodeEnvelope (splitVersion payload).2 with
       | Err _ => ErrInvalidPayload
       | Ok p => if gcm && malformed p then ErrInvalidPayload else ErrAADMismatch
       end.

Lemma gcm_refusals d p m size i aad :
  size = 16 \/ size = 24 \/ size = 32 ->
  match decryptGCMWithKey d p (subkey m size i) with
  | Ok _ => short_tag p = false
  | Err e => e = if short_tag p then ErrInvalidPayload else Crypto.ErrDecrypt
  end
  /\ match decryptGCMWithAAD d p (subkey m size i) aad with
     | Ok _ => malformed p = false
     | Err e => e = if malformed p then ErrInvalidPayload else ErrOther
     end.
Proof.
  intros Hs. unfold decryptGCMWithKey, decryptGCMWithAAD, b64_field, short_tag, malformed, gcm_shape.
  destruct (Std_DecodeString (IV p)) as [n|]; [|done]. cbn [res_bind mbind option_bind].
  destruct (Std_DecodeString (Value p)) as [c|]; [|done]. cbn [res_bind mbind option_bind].
  destruct (Std_DecodeString (Tag p)) as [t|]; [|done]. cbn [res_bind mbind option_bind].
  rewrite gcmForKey_eq, NewCipher_subkey by done. cbn [res_bind]. unfold gcm_Open.
  destruct (len n =? NonceSize); [|done]. cbn [negb andb orb]. destruct (len (c +:+ t) <? Overhead); [done|].
  destruct (gcm_limit + Overhead <? len (c +:+ t)); [done|]. split; by destruct (gcm_open _ _ _ _).
Qed.

Lemma opens_plain_refusal d p version m :
  keySize d = 16 \/ keySize d = 24 \/ keySize d = 32 ->
  match opens_plain d p version m with
  | Ok _ => isGCM d && short_tag p = false
  | Err e => e = if isGCM d && short_tag p then ErrInvalidPayload else Crypto.ErrDecrypt
  end.
Proof.
  intros Hs. unfold opens_plain, decryptWithKeys. destruct (isGCM d).
  - exact (proj1 (gcm_refusals d p m (keySize d) "encryption" "" Hs)).
  - pose proof (decryptCBC_one_error p (subkey m (keySize d) "encryption") (subkey m 32 "hmac") version "") as H.
    by destruct (decryptCBCWithKey _ _ _ _ _).
Qed.

Lemma opens_refusal d p m aad :
  keySize d = 16 \/ keySize d = 24 \/ keySize d = 32 ->
  match opens d p m aad with
  | Ok _ => isGCM d && malformed p = false
  | Err e => if isGCM d && malformed p then e = ErrInvalidPayload else e = ErrOther \/ e = Crypto.ErrDecrypt
  end.
Proof.
  intros Hs. unfold opens, decryptWithKeysAAD. destruct (isGCM d).
  - pose proof (proj2 (gcm_refusals d p m (keySize d) "encryption" aad Hs)) as H. cbn [andb].
    destruct (decryptGCMWithAAD _ _ _ _); [done|]. destruct (malformed p); auto.
  - pose proof (decryptCBC_one_error p (subkey m (keySize d) "encryption") (subkey m 32 "hmac") 1 aad) as H.
    destruct (decryptCBCWithKey _ _ _ _ _); cbn; auto.
Qed.

Lemma try_refused d p version keys e :
  keySize d = 16 \/ keySize d = 24 \/ keySize d = 32 -> try_previous d p version keys <> Some (Err e).
Proof.
  intros Hs. induction keys as [|m keys IH]; [done|]. rewrite try_step by (by apply sizes_bound).
  pose proof (opens_plain_refusal d p version m Hs) as Ho.
  destruct (opens_plain d p version m) as [|e']; [done|]. subst e'. by destruct (isGCM d && short_tag p).
Qed.

Lemma try_aad_refused d p aad m keys e :
  keySize d = 16 \/ keySize d = 24 \/ keySize d = 32 -> try_previous_aad d p aad (m :: keys) = Err e ->
  e = if isGCM d && malformed p then ErrInvalidPayload else ErrAADMismatch.
Proof.
  intros Hs. revert m. induction keys as [|m' keys IH]; intros m; rewrite try_aad_step by (by apply sizes_bound);
    pose proof (opens_refusal d p m aad Hs) as Ho; destruct (opens d p m aad) as [|e']; try done;
    destruct (isGCM d && malformed p); destruct_or?; subst e'; try congruence; try (by intros [= <-]); apply IH.
Qed.

(** C39: a refusal tells nothing but the shape of the payload.  Whatever the
    keys, the additional data and the contents, the error of a refused payload
    is a function of the payload's envelope, the mode and the legacy switch:
    a wrong key, a wrong MAC, a wrong padding and wrong additional data are one
    error, no decryption panics, and a refusal notes nothing. *)
Theorem refusals_reveal_only_the_shape c d payload w e w' :
  NewEncryptor c = Ok d ->
  (DecryptBytes d payload w = (Err e, w') -> e = refusal (isGCM d) (DisableV0 c) payload /\ w' = w)
  /\ (forall aad, DecryptBytesWithAAD d payload aad = Err e -> e = refusal_aad (isGCM d) payload).
Proof.
  intros Hd. destruct (NewEncryptor_inv c d Hd) as (m & prev & size & _ & Hs & -> & _).
  unfold refusal, refusal_aad. destruct (String.eqb payload "") eqn:Hne.
  { apply String.eqb_eq in Hne as ->. split; [by intros [= <- <-]|by intros aad [= <-]]. }
  destruct (splitVersion payload) as [version env] eqn:Hv. cbn [fst snd]. split.
  - destruct ((version =? 0) && DisableV0 c) eqn:E0.
    { unfold DecryptBytes. rewrite Hne, Hv. cbn [v0Disabled driver_of]. rewrite E0. by intros [= <- <-]. }
    destruct (decodeEnvelope env) as [p|e'] eqn:Hp.
    + pose proof (opens_plain_refusal (driver_of c m prev size) p version m Hs) as Ho.
      destruct (isGCM _ && short_tag p) eqn:Eg.
      * unfold DecryptBytes. rewrite Hne, Hv. cbn [v0Disabled driver_of]. rewrite E0, Hp.
        unfold opens_plain in Ho. cbn [keySize driver_of] in Ho.
        destruct (decryptWithKeys _ _ _ _ _) as [|e']; [done|]. subst e'. by intros [= <- <-].
      * apply String.eqb_neq in Hne. rewrite (Decrypt_tries c m prev size payload env version p w); [|done..|].
        2:{ destruct (opens_plain _ _ _ _); congruence. }
        pose proof (try_refused (driver_of c m prev size) p version (m :: prev)) as Ht.
        destruct (try_previous _ _ _ _) as [[x|e']|]; [done|by destruct (Ht e')|by intros [= <- <-]].
    + unfold DecryptBytes. rewrite Hne, Hv. cbn [v0Disabled driver_of]. rewrite E0, Hp. intros [= <- <-].
      split; [|done]. unfold decodeEnvelope in Hp. repeat case_match; congruence.
  - intros aad. destruct (Z.eqb_spec version 1) as [->|Hv1]; cbn [negb].
    + destruct (decodeEnvelope env) as [p|e'] eqn:Hp.
      * apply String.eqb_neq in Hne. rewrite (DecryptAAD_tries c m prev size payload env p aad) by done.
        by apply try_aad_refused.
      * unfold DecryptBytesWithAAD. rewrite Hne, Hv. cbn [Z.eqb Pos.eqb negb]. rewrite Hp. cbn [res_bind].
        intros [= <-]. unfold decodeEnvelope in Hp. repeat case_match; congruence.
    + unfold DecryptBytesWithAAD. rewrite Hne, Hv. apply Z.eqb_neq in Hv1. rewrite Hv1. by intros [= <-].
Qed.

End laws.

(** A generated key is a key of the configuration. *)
Lemma generated_key_parses {PR : Primitives} d rnd k :
  rnd (keySize d) = Some k -> exists s, GenerateKey d rnd = Ok s /\ parseKey s = Ok k.
Proof.
  intros H. unfold GenerateKey. rewrite H. cbn [read_random res_bind]. eexists. split; [done|].
  unfold parseKey, TrimPrefix. rewrite has_prefix_append. change (String.eqb ("base64:" +:+ _) "") with false. cbn iota.
  by rewrite str_drop_app, Std_DecodeString_EncodeToString.
Qed.

(** ** The queue's encryptor *)

Section queue.
Context {PR : Primitives} {PL : PrimitiveLaws PR}.

Definition to_option {A} (r : result CryptoError A) : option A := match r with Ok a => Some a | Err _ => None end.

(** The driver as contract.Encryptor; [rnd seed] is what the random source
    delivers to one encryption. *)
Definition queue_encryptor (d : AESDriver) (rnd : Z -> option string) : Encryptor := {|
  QueuePayload.EncryptBytesWithAAD seed data aad := to_option (Crypto.EncryptBytesWithAAD d (rnd seed) data aad);
  QueuePayload.DecryptBytesWithAAD c aad := to_option (Crypto.DecryptBytesWithAAD d c aad)
|}.

Definition delivers (d : AESDriver) (rnd : Z -> option string) : Prop :=
  forall seed iv, rnd seed = Some iv -> String.length iv = if isGCM d then 12%nat else 16%nat.

(** What it writes is base64 after the version. *)
Lemma sealed_ascii d r data aad ct :
  Crypto.EncryptBytesWithAAD d r data aad = Ok ct -> all_bytes is_ascii7 ct = true.
Proof.
  assert (Hs : forall p env, SerializePayload (Some p) = Ok env -> all_bytes is_ascii7 (v1Sentinel +:+ env) = true).
  { intros p env H. cbn [SerializePayload] in H.
    assert (exists s, env = EncodeToString s) as [s ->] by (repeat case_match; try done; apply Ok_inj in H as <-; eauto).
    rewrite all_bytes_app. apply andb_true_intro. split; [done|]. apply encode_bytes; [done|]. intros v. by apply b64_chars. }
  unfold Crypto.EncryptBytesWithAAD, encryptGCMWithAAD, encryptCBC. intros H.
  destruct (isGCM d); repeat (apply res_bind_ok in H as (? & ? & H)); apply Ok_inj in H as <-; by eapply Hs.
Qed.

(** It opens what it sealed: the current key is tried first. *)
Lemma queue_encryptor_opens_its_own c d rnd :
  NewEncryptor c = Ok d -> delivers d rnd -> opens_its_own (queue_encryptor d rnd).
Proof.
  intros Hd Hrnd seed data aad ct. destruct (NewEncryptor_inv c d Hd) as (m & prev & size & _ & Hs & -> & _).
  cbn [queue_encryptor QueuePayload.EncryptBytesWithAAD QueuePayload.DecryptBytesWithAAD].
  set (d := driver_of c m prev size) in *. destruct (rnd seed) as [iv|] eqn:Er.
  2:{ unfold Crypto.EncryptBytesWithAAD, encryptCBC, encryptGCMWithAAD, primaryGCM.
      by destruct (isGCM d), (NewCipher (key d)). }
  apply Hrnd in Er. intros He.
  assert (Ht : takes d iv data).
  { unfold takes. destruct (isGCM d) eqn:Eg; [|done]. split; [done|].
    destruct (Z.le_gt_cases (len data) gcm_limit) as [|Hl%Z.ltb_lt]; [done|]. exfalso. revert He.
    unfold Crypto.EncryptBytesWithAAD, encryptGCMWithAAD, primaryGCM, gcm_Seal. rewrite Eg, Hl.
    destruct (NewCipher (key d)); [|done]. cbn [res_bind read_random]. by destruct (negb _). }
  destruct (seal_opens c m prev size d iv data aad) as (env & p & Hseal & Hp & Ho & _); [done..|].
  fold d in Hseal. split; [|rewrite Hseal in He; apply Some_inj in He as <-; by eapply sealed_ascii].
  rewrite Hseal in He. apply Some_inj in He as <-.
  pose proof (DecryptAAD_tries c m prev size (v1Sentinel +:+ env) env p aad Hs ltac:(done) eq_refl Hp) as Ht'.
  cbn zeta in Ht'. fold d in Ht'. rewrite Ht', try_aad_step by (by apply sizes_bound). by rewrite Ho.
Qed.

(** A job stored in a queue that seals its payloads with the AES driver is
    rebuilt from the bytes it was marshalled to. *)
Theorem aes_sealed_job_is_rebuilt {WR : Wire} {WL : WireLaws WR} c d rnd prot reg seed now trace dk job q t data handler j :
  NewEncryptor c = Ok d -> delivers d rnd -> payloadEncryptor prot = Some (queue_encryptor d rnd) ->
  has_prefix "*" (normalizeJobType (typeName job)) = false ->
  Forall utf8 [normalizeJobType (typeName job); q; trace.1.1; trace.1.2; trace.2; dk] ->
  reg !! normalizeJobType (typeName job) = Some handler ->
  job_json job = Some data -> handler data = Some j ->
  store_payload prot seed now trace dk job q = Ok t ->
  hydrateRecord prot reg t = Ok j.
Proof.
  intros Hd Hrnd Henc. apply stored_job_is_rebuilt. intros enc Hc. rewrite Henc in Hc. apply Some_inj in Hc as <-.
  by apply (queue_encryptor_opens_its_own c).
Qed.

End queue.

(** ** Concrete primitives *)

Definition dq : ascii := ascii_of_nat 34.

(** The fields of an object of two to four strings, by cutting at the quotes. *)
Definition toy_unmarshal (s : string) : option Crypto.Payload :=
  match split_on dq s with
  | _ :: _ :: _ :: iv :: _ :: _ :: _ :: v :: rest =>
      match rest with
      | [_] => Some (Crypto.mkPayload iv v "" "")
      | _ :: k :: _ :: x :: rest' =>
          if String.eqb k "mac" then
            match rest' with
            | [_] => Some (Crypto.mkPayload iv v x "")
            | _ :: _ :: _ :: t :: _ => Some (Crypto.mkPayload iv v x t)
            | _ => None
            end
          else Some (Crypto.mkPayload iv v "" x)
      | _ => None
      end
  | _ => None
  end.

Definition toy_pad (n : nat) (k : string) : string := str_take n (k +:+ fill n "x").
Definition toy_block (k b : string) : string := xor_bytes (toy_pad 16 k) b.

(** A keyed XOR for the cipher, a tag that is the key, and a MAC that tells
    the keys apart and the message [known] from all others. *)
Definition toy (known : string) : Primitives := {|
  aes_encrypt := toy_block;
  aes_decrypt := toy_block;
  gcm_seal k n p a := p +:+ toy_pad 16 k;
  gcm_open k n c a :=
    let i := (String.length c - 16)%nat in
    if String.eqb (str_drop i c) (toy_pad 16 k) then Some (str_take i c) else None;
  hmac_sha256 k m := toy_pad 31 k +:+ (if String.eqb m known then "1" else "0");
  hkdf_sha256 m s i n := Some (toy_pad n m);
  json_marshal p := payload_json <$> p;
  json_unmarshal := toy_unmarshal
|}.

Lemma length_toy_pad n k : String.length (toy_pad n k) = n.
Proof. unfold toy_pad. apply length_str_take. rewrite length_append, length_fill. lia. Qed.

Lemma safe_no_quote s : jsonSafeBase64 s = true -> contains_byte dq s = false.
Proof.
  unfold jsonSafeBase64. induction s as [|c s IH]; [done|]. cbn [all_bytes contains_byte]. intros [Hc Hs]%andb_true_iff.
  rewrite IH by done. destruct (Ascii.eqb_spec c dq) as [->|]; [discriminate Hc|done].
Qed.

Lemma split_quoted a s t :
  contains_byte dq a = false -> contains_byte dq s = false ->
  split_on dq (a +:+ quoted s +:+ t) = a :: s :: split_on dq t.
Proof.
  intros Ha Hs. unfold quoted, dquote. rewrite !append_assoc. cbn [String.append]. fold dq.
  rewrite split_on_app_sep, split_on_app_sep by done. done.
Qed.

Lemma toy_reads p : payload_safe p = true -> toy_unmarshal (payload_json p) = Some p.
Proof.
  destruct p as [iv v m t]. unfold payload_safe. cbn [IV Value MAC Tag].
  intros [[[Hi%safe_no_quote Hv%safe_no_quote]%andb_true_iff Hm%safe_no_quote]%andb_true_iff Ht%safe_no_quote]%andb_true_iff.
  unfold toy_unmarshal, payload_json. cbn [IV Value MAC Tag].
  rewrite (split_quoted "{"), (split_quoted ":" iv), (split_quoted ","), (split_quoted ":" v) by done.
  destruct (String.eqb_spec m "") as [->|], (String.eqb_spec t "") as [->|]; rewrite ?append_assoc.
  - done.
  - change ("" +:+ ?s) with s. rewrite (split_quoted ","), (split_quoted ":" t) by done. done.
  - rewrite (split_quoted ","), (split_quoted ":" m) by done. done.
  - rewrite (split_quoted ","), (split_quoted ":" m), (split_quoted ","), (split_quoted ":" t) by done. done.
Qed.

#[export] Instance toy_laws known : PrimitiveLaws (toy known).
Proof.
  split; cbn [toy aes_encrypt aes_decrypt gcm_seal gcm_open hmac_sha256 hkdf_sha256 json_unmarshal].
  - intros k b Hb. apply xor_bytes_cancel. by rewrite length_toy_pad.
  - intros k b Hb. unfold toy_block. rewrite xor_bytes_length; rewrite length_toy_pad; done.
  - intros k n p a. rewrite length_append, length_toy_pad.
    replace (String.length p + 16 - 16)%nat with (String.length p) by lia.
    by rewrite str_drop_app, String.eqb_refl, str_take_app.
  - intros k n p a. by rewrite length_append, length_toy_pad.
  - intros k m. rewrite length_append, length_toy_pad. by case_match.
  - intros m s i n _. exists (toy_pad n m). split; [done|apply length_toy_pad].
  - apply toy_reads.
Qed.

Definition key_a : string := "0123456789abcdef".
Definition key_b : string := "ABCDEFGHIJKLMNOP".
Definition old_config : Config := mkConfig "aes-128-gcm" false false key_a [].
Definition new_config : Config := mkConfig "AES-128-GCM" false true key_b ["base64:MDEyMzQ1Njc4OWFiY2RlZg=="; ""].

Definition the_driver (known : string) (c : Config) : AESDriver :=
  match @NewEncryptor (toy known) c with Ok d => d | Err _ => mkAESDriver "" "" [] "" 0 false false end.

Lemma sealed_data_opens_across_rotation_witness :
  exists payload,
    @Crypto.EncryptBytesWithAAD (toy "") (the_driver "" old_config) (Some "nonce-nonce-") "secret" "" = Ok payload
    /\ @Crypto.DecryptBytesWithAAD (toy "") (the_driver "" new_config) payload "" = Ok "secret"
    /\ ("" = "" -> @EncryptBytes (toy "") (the_driver "" old_config) (Some "nonce-nonce-") "secret" = Ok payload
        /\ @DecryptBytes (toy "") (the_driver "" new_config) payload (mkLegacy false 0 [])
           = (Ok "secret", mkLegacy false 0 [])).
Proof.
  apply (@sealed_data_opens_across_rotation (toy "") _ old_config new_config _ _ [key_b] key_a []);
    try (vm_compute; reflexivity).
  - intros m' [->|[]%not_elem_of_nil]%elem_of_cons _. vm_compute. reflexivity.
  - split; [reflexivity|]. vm_compute. discriminate.
Defined.

(** One value sealed in CBC mode, for one recipient. *)
Definition cbc_config : Config := mkConfig "AES-128-CBC" false false key_a [].
Definition one_sealing : Sealing := mkSealing key_a "iviviviviviviviv" "secret" "user 7".
Definition its_message : string := @sealed_message (toy "") 16 one_sealing.
Definition its_payload : string :=
  match @Crypto.EncryptBytesWithAAD (toy its_message) (the_driver its_message cbc_config)
          (Some "iviviviviviviviv") "secret" "user 7" with Ok p => p | Err _ => "" end.


Lemma refusals_reveal_only_the_shape_witness :
  (@DecryptBytes (toy its_message) (the_driver its_message cbc_config) its_payload (mkLegacy false 0 [])
     = (Err Crypto.ErrDecrypt, mkLegacy false 0 []))
  /\ Crypto.ErrDecrypt = @refusal (toy its_message) false false its_payload.
Proof.
  assert (H : @DecryptBytes (toy its_message) (the_driver its_message cbc_config) its_payload (mkLegacy false 0 [])
     = (Err Crypto.ErrDecrypt, mkLegacy false 0 [])) by (vm_compute; reflexivity).
  split; [exact H|].
  refine (proj1 (proj1 (@refusals_reveal_only_the_shape (toy its_message) _ cbc_config (the_driver its_message cbc_config)
    its_payload (mkLegacy false 0 []) Crypto.ErrDecrypt (mkLegacy false 0 []) _) H)). vm_compute. reflexivity.
Defined.

(** A nonce of the wrong length is a structural error with additional data and
    a failed decryption without. *)
Lemma wrong_nonce_has_two_errors :
  let payload := v1Sentinel +:+ EncodeToString (payload_json (Crypto.mkPayload "" "" "" (Std_EncodeToString key_a))) in
  @Crypto.DecryptBytesWithAAD (toy "") (the_driver "" old_config) payload "" = Err ErrInvalidPayload
  /\ (@DecryptBytes (toy "") (the_driver "" old_config) payload (mkLegacy false 0 [])).1 = Err Crypto.ErrDecrypt.
Proof. split; vm_compute; reflexivity. Qed.
