(* ===== verification/Jwt.v ===== *)
(** * JSON web tokens (auth/jwt.go)

    The manager's configuration, minting, validation, refresh and sign-out,
    with the in-memory blacklist and refresh-generation stores.  The token
    library (github.com/golang-jwt/jwt) and fmt's rendering of identifiers are
    the class [JwtLib]; the blacklist is the interface [BlacklistStore], a
    class of operations the manager calls.

    Many calls share the stores.  A refresh or a sign-out is a state machine
    whose steps are its store calls, its clock readings and the application's
    user lookup, so calls interleave everywhere the code runs user code.  A
    store's failure, the user store's answer and random bytes are inputs of a
    step ([Env]).  Times are instants in nanoseconds. *)

From S2P Require Import Prelude GoStrings WebEncoding.
From Stdlib Require Import Ascii String.
Local Open Scope string_scope.
Local Open Scope list_scope.
Local Open Scope Z_scope.
Local Open Scope go_scope.

Inductive JwtError :=
  | ErrUnsupportedSigningMethod | ErrRefreshGenerationStale | ErrRefreshTokenUsed | ErrTokenClaimMissing
  | errTokenRevoked | ErrBlacklistUnavailable | ErrTokenExpired | errNotAccessToken | errNotRefreshToken
  | ErrGenerationUnavailable | ErrUserNotFound | ErrUserStore | ErrUnreadable | ErrRandom | ErrConfig
  | ErrAlgorithm | ErrToken.

#[export] Instance JwtError_eq_dec : EqDecision JwtError.
Proof. solve_decision. Defined.

(** A value of type [interface{}] used as an identifier: JSON numbers are read
    back as [float64]. *)
Inductive Identifier := IDNil | IDString (s : string) | IDInt (n : Z) | IDFloat (n : Z) | IDOther (text : string).

Record Claims := mkClaims {
  ID : string;
  Subject : string;
  IssuedAt : option Z;
  ExpiresAt : option Z;
  NotBefore : option Z;
  Issuer : string;
  Audience : list string;
  UserID : Identifier;
  Email : string;
  Role : string;
  TokenType : string;
  RefreshGeneration : Z
}.

(** The library's errors: jwt.ErrTokenExpired, and the others. *)
Inductive LibError := LibExpired | LibOther.

Class JwtLib := {
  PrivateKey : Type;
  PublicKey : Type;
  (** options, key function, clock, token *)
  ParseWithClaims : (list string * option string * option string) ->
    (string -> result JwtError (list (string + PublicKey))) -> Z -> string -> result LibError Claims;
  ParseUnverified : string -> option Claims;
  SignedString : string -> string + PrivateKey -> Claims -> option string;
  NewNumericDate : Z -> Z;
  fmt_v : Identifier -> string
}.

(** ** BlacklistStore *)

(** The calls the manager makes, at an instant of the store's clock, and what
    the store does on its own ([bl_act]: dropping what has expired). *)
Class BlacklistStore (S : Type) := {
  bl_Action : Type;
  bl_Add : Z -> string -> Z -> S -> bool * S;
  bl_IsBlacklisted : Z -> string -> S -> bool;
  bl_act : Z -> bl_Action -> S -> S
}.

(** [entries]: the expiry of each id. *)
Definition NewInMemoryBlacklistStore : gmap string Z := ∅.

Definition mem_Add (now : Z) (jti : string) (expiresAt : Z) (s : gmap string Z) : bool * gmap string Z :=
  if negb (now <? expiresAt) then (false, s)
  else match s !! jti with
       | Some current =>
           if negb (current <? now) then (false, if current <? expiresAt then <[jti := expiresAt]> s else s)
           else (true, <[jti := expiresAt]> s)
       | None => (true, <[jti := expiresAt]> s)
       end.

(** IsBlacklisted reads the entry and the clock; an expired entry it has read
    ([expiresAt]) is dropped in a second section, if it is still the same. *)
Definition mem_IsBlacklisted (now : Z) (jti : string) (s : gmap string Z) : bool :=
  match s !! jti with None => false | Some expiresAt => negb (expiresAt <? now) end.

Inductive MemAction := Cleanup | DropExpired (jti : string) (expiresAt : Z).

Definition mem_Cleanup (now : Z) (s : gmap string Z) : gmap string Z :=
  filter (fun kv : string * Z => negb (kv.2 <? now) = true) s.

(** The clock was read before [now], so the test holds at [now]. *)
Definition mem_drop (now : Z) (jti : string) (expiresAt : Z) (s : gmap string Z) : gmap string Z :=
  if expiresAt <? now then
    match s !! jti with
    | Some current => if current =? expiresAt then delete jti s else s
    | None => s
    end
  else s.

#[export] Instance mem_blacklist : BlacklistStore (gmap string Z) := {|
  bl_Action := MemAction;
  bl_Add := mem_Add;
  bl_IsBlacklisted := mem_IsBlacklisted;
  bl_act now a := match a with Cleanup => mem_Cleanup now | DropExpired jti e => mem_drop now jti e end
|}.

(** ** InMemoryRefreshGenerationStore *)

(** [counts]: the generation of each user. *)
Definition Current (userID : string) (g : gmap string Z) : Z :=
  if String.eqb userID "" then 0 else default 0 (g !! userID).

Definition Bump (userID : string) (g : gmap string Z) : Z * gmap string Z :=
  if String.eqb userID "" then (0, g)
  else let n := wrap64 (default 0 (g !! userID) + 1) in (n, <[userID := n]> g).

Section jwt.
Context {JL : JwtLib}.

(** ** Configuration *)

(** [BlacklistStore]: whether one is given. *)
Record JWTConfig := mkJWTConfig {
  Algorithm : string;
  ConfigAudience : string;
  BlacklistEnabled : bool;
  HasBlacklistStore : bool;
  ConfigIssuer : string;
  PreviousRSAPublicKeys : list (option PublicKey);
  PreviousSecrets : list string;
  RefreshTTL : Z;
  RSAPrivateKey : option PrivateKey;
  RSAPublicKey : option PublicKey;
  Secret : string;
  TTL : Z
}.

Definition allowedJWTAlgorithms : list string := ["HS256"; "HS384"; "HS512"; "RS256"; "RS384"; "RS512"].
Definition is_allowed (alg : string) : bool := existsb (String.eqb alg) allowedJWTAlgorithms.

Definition isHMACAlgorithm (alg : string) : bool :=
  String.eqb alg "HS256" || String.eqb alg "HS384" || String.eqb alg "HS512".
Definition isRSAAlgorithm (alg : string) : bool :=
  String.eqb alg "RS256" || String.eqb alg "RS384" || String.eqb alg "RS512".

Definition short_secret (s : string) : bool := Z.of_nat (String.length s) <? 32.

(** [true]: no error. *)
Definition Validate (c : JWTConfig) : bool :=
  let alg := if String.eqb (Algorithm c) "" then "HS256" else Algorithm c in
  is_allowed alg
  && negb (TTL c <=? 0)
  && (if isHMACAlgorithm alg then
        negb (String.eqb (Secret c) "") && negb (short_secret (Secret c))
        && forallb (fun prev => negb (String.eqb prev "") && negb (short_secret prev) && negb (String.eqb prev (Secret c)))
             (PreviousSecrets c)
        && match PreviousRSAPublicKeys c with [] => true | _ => false end
      else true)
  && (if isRSAAlgorithm alg then
        bool_decide (is_Some (RSAPrivateKey c)) && bool_decide (is_Some (RSAPublicKey c))
        && forallb (fun prev => match prev with Some _ => true | None => false end) (PreviousRSAPublicKeys c)
        && match PreviousSecrets c with [] => true | _ => false end
      else true)
  && negb (BlacklistEnabled c && negb (HasBlacklistStore c)).

(** The manager is its configuration; the stores are shared state. *)
Definition NewJWTManager (c : JWTConfig) : result JwtError JWTConfig :=
  let c := mkJWTConfig (if String.eqb (Algorithm c) "" then "HS256" else Algorithm c) (ConfigAudience c)
             (BlacklistEnabled c) (HasBlacklistStore c) (ConfigIssuer c) (PreviousRSAPublicKeys c) (PreviousSecrets c)
             (if RefreshTTL c =? 0 then 20160 else RefreshTTL c) (RSAPrivateKey c) (RSAPublicKey c) (Secret c)
             (if TTL c =? 0 then 60 else TTL c) in
  if Validate c then Ok c else Err ErrConfig.

(** ** Keys and minting *)

Definition signingKey (j : JWTConfig) : option (string + PrivateKey) :=
  if isRSAAlgorithm (Algorithm j) then inr <$> RSAPrivateKey j else Some (inl (Secret j)).

(** The keys in the order they are tried; a nil key is dropped. *)
Definition verificationKey (j : JWTConfig) : list (string + PublicKey) :=
  if isRSAAlgorithm (Algorithm j) then omap (fun k => inr <$> k) (RSAPublicKey j :: PreviousRSAPublicKeys j)
  else inl <$> (Secret j :: PreviousSecrets j).

Definition getSigningMethod (j : JWTConfig) : result JwtError string :=
  if is_allowed (Algorithm j) then Ok (Algorithm j) else Err ErrUnsupportedSigningMethod.

Definition generateJTI (rnd : option string) : result JwtError string :=
  match rnd with Some b => Ok (EncodeToString b) | None => Err ErrRandom end.

Definition minute : Z := 60000000000.
Definition ttl_duration (minutes : Z) : Z := wrap64 (minutes * minute).

Definition sign_claims (j : JWTConfig) (claims : Claims) : result JwtError string :=
  alg <-! getSigningMethod j;;
  match signingKey j with
  | Some k => match SignedString alg k claims with Some t => Ok t | None => Err ErrToken end
  | None => Err ErrToken
  end.

Definition audience_of (j : JWTConfig) : list string :=
  if String.eqb (ConfigAudience j) "" then [] else [ConfigAudience j].

(** A custom claim: its key and, when the value is one, its string.  Keys are
    distinct: the claims are a map. *)
Definition set_custom (claims : Claims) (kv : string * option string) : Claims :=
  match kv with
  | (k, Some v) =>
      if String.eqb k "email" then
        mkClaims (ID claims) (Subject claims) (IssuedAt claims) (ExpiresAt claims) (NotBefore claims) (Issuer claims)
          (Audience claims) (UserID claims) v (Role claims) (TokenType claims) (RefreshGeneration claims)
      else if String.eqb k "role" then
        mkClaims (ID claims) (Subject claims) (IssuedAt claims) (ExpiresAt claims) (NotBefore claims) (Issuer claims)
          (Audience claims) (UserID claims) (Email claims) v (TokenType claims) (RefreshGeneration claims)
      else claims
  | (_, None) => claims
  end.

Definition signAccessToken (j : JWTConfig) (now : Z) (rnd : option string) (id : Identifier) (subject : string)
    (custom : list (string * option string)) : result JwtError string :=
  let expiresAt := now + ttl_duration (TTL j) in
  jti <-! generateJTI rnd;;
  let claims := mkClaims jti subject (Some (NewNumericDate now)) (Some (NewNumericDate expiresAt))
    (Some (NewNumericDate now)) (ConfigIssuer j) (audience_of j) id "" "" "access" 0 in
  sign_claims j (fold_left set_custom custom claims).

(** identity.Snapshot's answer for the user: the identifier and its text. *)
Definition GenerateToken (j : JWTConfig) (now : Z) (rnd : option string) (user : option (Identifier * string))
    (custom : list (string * option string)) : result JwtError string :=
  match user with
  | None => Err ErrUnreadable
  | Some (id, subject) => signAccessToken j now rnd id subject custom
  end.

(** [fault]: the generation store fails; the token then carries 0. *)
Definition GenerateRefreshToken (j : JWTConfig) (now : Z) (rnd : option string) (user : option (Identifier * string))
    (fault : bool) (g : gmap string Z) : result JwtError string :=
  match user with
  | None => Err ErrUnreadable
  | Some (id, userID) =>
      let expiresAt := now + ttl_duration (RefreshTTL j) in
      jti <-! generateJTI rnd;;
      let generation := if fault then 0 else Current userID g in
      sign_claims j (mkClaims jti userID (Some (NewNumericDate now)) (Some (NewNumericDate expiresAt))
        (Some (NewNumericDate now)) (ConfigIssuer j) (audience_of j) id "" "" "refresh" generation)
  end.

(** ** Verification *)

Definition keyFunc (j : JWTConfig) (alg : string) : result JwtError (list (string + PublicKey)) :=
  if String.eqb alg "none" || String.eqb alg "" then Err ErrAlgorithm
  else if negb (is_allowed alg) then Err ErrAlgorithm
  else if isHMACAlgorithm (Algorithm j) && negb (isHMACAlgorithm alg) then Err ErrAlgorithm
  else if isRSAAlgorithm (Algorithm j) && negb (isRSAAlgorithm alg) then Err ErrAlgorithm
  else if negb (String.eqb alg (Algorithm j)) then Err ErrAlgorithm
  else Ok (verificationKey j).

Definition parser_options (j : JWTConfig) : list string * option string * option string :=
  ([Algorithm j],
   (if String.eqb (ConfigIssuer j) "" then None else Some (ConfigIssuer j)),
   (if String.eqb (ConfigAudience j) "" then None else Some (ConfigAudience j))).

Definition verifyToken (j : JWTConfig) (now : Z) (tokenString : string) : result JwtError Claims :=
  match ParseWithClaims (parser_options j) (keyFunc j) now tokenString with
  | Err LibExpired => Err ErrTokenExpired
  | Err LibOther => Err ErrToken
  | Ok claims =>
      match ExpiresAt claims with
      | None => Err ErrTokenClaimMissing
      | Some _ => if String.eqb (ID claims) "" then Err ErrTokenClaimMissing else Ok claims
      end
  end.

(** [claims.ExpiresAt.Time]: verified claims carry it. *)
Definition expiry (claims : Claims) : Z := default 0 (ExpiresAt claims).

Definition checkExpiry (now : Z) (claims : Claims) : option JwtError :=
  if negb (now <? expiry claims) then Some ErrTokenExpired else None.

Definition ParseTokenWithoutValidation (tokenString : string) : result JwtError Claims :=
  match ParseUnverified tokenString with Some c => Ok c | None => Err ErrToken end.

(** The user's key of the generation store. *)
Definition refresh_user (claims : Claims) : string :=
  match UserID claims with
  | IDString s => if String.eqb s "" then fmt_v (UserID claims) else s
  | id => fmt_v id
  end.

Definition sign_out_user (claims : Claims) : string :=
  match UserID claims with
  | IDNil => ""
  | IDString s => if String.eqb s "" then fmt_v (UserID claims) else s
  | id => fmt_v id
  end.

(** The zero [time.Time]. *)
Definition zero_time : Z := -62135596800 * 1000000000.

Definition blacklistExpiry (j : JWTConfig) (now expiresAt : Z) : Z :=
  if negb (expiresAt =? zero_time) then expiresAt else now + ttl_duration (TTL j).

(** ** Shared state and the calls on it *)

Context {S : Type} {BS : BlacklistStore S}.

(** What a step meets: the failure of a blacklist call (an error or a panic;
    [Some applied]: an Add may have taken effect), of the generation store,
    the user store's answer ([None]: an error; nil; or a user with the
    identifier read from it), the random bytes of a token id. *)
Record Env := mkEnv {
  e_blacklist : option bool;
  e_generation : bool;
  e_user : option (option (option (Identifier * string)));
  e_random : option string
}.

(** The clock and the stores; [added] is a ghost: the ids an Add put on the
    blacklist. *)
Record Stores := mkStores { now : Z; blacklist : S; generations : gmap string Z; added : list string }.

Definition blacklistAdd (e : Env) (jti : string) (expiresAt : Z) (s : Stores) : result JwtError bool * Stores :=
  let '(ok, b) := bl_Add (now s) jti expiresAt (blacklist s) in
  let landed := mkStores (now s) b (generations s) (if ok then jti :: added s else added s) in
  match e_blacklist e with
  | None => (Ok ok, landed)
  | Some applied => (Err ErrBlacklistUnavailable, if applied then landed else s)
  end.

(** [IsBlacklisted] of the manager; the store's answer, or its failure. *)
Definition IsBlacklisted (j : JWTConfig) (e : Env) (jti : string) (s : Stores) : result JwtError bool :=
  if negb (BlacklistEnabled j) then Ok false
  else match e_blacklist e with
       | Some _ => Err ErrBlacklistUnavailable
       | None => Ok (bl_IsBlacklisted (now s) jti (blacklist s))
       end.

Definition RevokeToken (j : JWTConfig) (e : Env) (jti : string) (expiresAt : option Z) (s : Stores) :
    option JwtError * Stores :=
  if negb (BlacklistEnabled j) then (None, s)
  else match blacklistAdd e jti (blacklistExpiry j (now s) (default zero_time expiresAt)) s with
       | (Ok _, s') => (None, s')
       | (Err x, s') => (Some x, s')
       end.

Definition BumpRefreshGeneration (e : Env) (userID : string) (s : Stores) : option JwtError * Stores :=
  if String.eqb userID "" then (None, s)
  else if e_generation e then (Some ErrGenerationUnavailable, s)
  else (None, mkStores (now s) (blacklist s) (Bump userID (generations s)).2 (added s)).

Definition checkRefreshGeneration (e : Env) (userID : string) (claims : Claims) (s : Stores) : option JwtError :=
  if e_generation e then Some ErrGenerationUnavailable
  else if RefreshGeneration claims <? Current userID (generations s) then Some ErrRefreshGenerationStale
  else None.

(** Where a RefreshToken call stands: the step it takes next. *)
Inductive RefreshPc :=
  | RVerify                                            (** the token itself *)
  | RListed (c : Claims)                               (** the blacklist read *)
  | RLapsed (c : Claims)                               (** the expiry after it *)
  | RGeneration (c : Claims)
  | RLookup (c : Claims)                               (** the user and its identity *)
  | RDecide (c : Claims) (id : Identifier) (subject : string)   (** the generation again *)
  | RExpiry (c : Claims) (id : Identifier) (subject : string)   (** the expiry again *)
  | RConsume (c : Claims) (id : Identifier) (subject : string)
  | RRefused (c : Claims)                              (** names the refusal of a consume *)
  | RSign (c : Claims) (id : Identifier) (subject : string)
  | RDone (r : result JwtError string).

(** After ValidateToken. *)
Definition refresh_typed (c : Claims) : RefreshPc :=
  if negb (String.eqb (TokenType c) "refresh") then RDone (Err errNotRefreshToken) else RGeneration c.

Definition refresh_step (j : JWTConfig) (token : string) (e : Env) (pc : RefreshPc) (s : Stores) : RefreshPc * Stores :=
  match pc with
  | RVerify =>
      match verifyToken j (now s) token with
      | Err x => (RDone (Err x), s)
      | Ok c => (if BlacklistEnabled j then RListed c else refresh_typed c, s)
      end
  | RListed c =>
      match IsBlacklisted j e (ID c) s with
      | Err x => (RDone (Err x), s)
      | Ok true => (RDone (Err ErrRefreshTokenUsed), s)
      | Ok false => (RLapsed c, s)
      end
  | RLapsed c => match checkExpiry (now s) c with Some x => (RDone (Err x), s) | None => (refresh_typed c, s) end
  | RGeneration c =>
      match checkRefreshGeneration e (refresh_user c) c s with
      | Some x => (RDone (Err x), s)
      | None => (RLookup c, s)
      end
  | RLookup c =>
      match e_user e with
      | None => (RDone (Err ErrUserStore), s)
      | Some None => (RDone (Err ErrUserNotFound), s)
      | Some (Some None) => (RDone (Err ErrUnreadable), s)
      | Some (Some (Some (id, subject))) => (RDecide c id subject, s)
      end
  | RDecide c id subject =>
      match checkRefreshGeneration e (refresh_user c) c s with
      | Some x => (RDone (Err x), s)
      | None => (RExpiry c id subject, s)
      end
  | RExpiry c id subject =>
      if negb (now s <? expiry c) then (RDone (Err ErrTokenExpired), s)
      else (if BlacklistEnabled j then RConsume c id subject else RSign c id subject, s)
  | RConsume c id subject =>
      match blacklistAdd e (ID c) (blacklistExpiry j (now s) (expiry c)) s with
      | (Err x, s') => (RDone (Err x), s')
      | (Ok true, s') => (RSign c id subject, s')
      | (Ok false, s') => (RRefused c, s')
      end
  | RRefused c =>
      (RDone (Err (if negb (now s <? expiry c) then ErrTokenExpired else ErrRefreshTokenUsed)), s)
  | RSign c id subject => (RDone (signAccessToken j (now s) (e_random e) id subject []), s)
  | RDone r => (RDone r, s)
  end.

(** Where a SignOutToken call stands; it returns the claims (nil when the
    token signs nobody out) and the errors of its two writes. *)
Inductive SignOutPc :=
  | OVerify
  | OGeneration (c : Claims)
  | ORevoke (c : Claims)
  | OBump (c : Claims) (revokeErr : option JwtError)
  | ODone (c : option Claims) (errs : list JwtError).

Definition sign_out_step (j : JWTConfig) (token : string) (e : Env) (pc : SignOutPc) (s : Stores) : SignOutPc * Stores :=
  match pc with
  | OVerify =>
      match verifyToken j (now s) token with
      | Err x => (ODone None [x], s)
      | Ok c => (if String.eqb (TokenType c) "refresh" then OGeneration c else ORevoke c, s)
      end
  | OGeneration c =>
      match checkRefreshGeneration e (sign_out_user c) c s with
      | Some ErrRefreshGenerationStale => (ODone None [ErrRefreshGenerationStale], s)
      | Some x => (ODone (Some c) [x], s)
      | None => (ORevoke c, s)
      end
  | ORevoke c => let '(err, s') := RevokeToken j e (ID c) (Some (expiry c)) s in (OBump c err, s')
  | OBump c revokeErr =>
      let '(bumpErr, s') :=
        if String.eqb (sign_out_user c) "" then (None, s) else BumpRefreshGeneration e (sign_out_user c) s in
      (ODone (Some c) (option_list revokeErr ++ option_list bumpErr), s')
  | ODone c errs => (ODone c errs, s)
  end.

(** Where a ValidateToken or ValidateAccessToken call stands. *)
Inductive ValidatePc := VVerify | VListed (c : Claims) | VLapsed (c : Claims) | VDone (r : result JwtError Claims).

Definition validate_step (j : JWTConfig) (token : string) (e : Env) (pc : ValidatePc) (s : Stores) : ValidatePc :=
  match pc with
  | VVerify =>
      match verifyToken j (now s) token with
      | Err x => VDone (Err x)
      | Ok c => if BlacklistEnabled j then VListed c else VDone (Ok c)
      end
  | VListed c =>
      match IsBlacklisted j e (ID c) s with
      | Err x => VDone (Err x)
      | Ok true => VDone (Err errTokenRevoked)
      | Ok false => VLapsed c
      end
  | VLapsed c => match checkExpiry (now s) c with Some x => VDone (Err x) | None => VDone (Ok c) end
  | VDone r => VDone r
  end.

Definition ValidateAccessToken (r : result JwtError Claims) : result JwtError Claims :=
  claims <-! r;;
  if negb (String.eqb (TokenType claims) "access") then Err errNotAccessToken else Ok claims.

(** ** Interleavings *)

Inductive Call :=
  | Refreshing (j : JWTConfig) (token : string) (pc : RefreshPc)
  | SigningOut (j : JWTConfig) (token : string) (pc : SignOutPc)
  | Validating (j : JWTConfig) (token : string) (pc : ValidatePc).

Definition call_step (e : Env) (c : Call) (s : Stores) : Call * Stores :=
  match c with
  | Refreshing j t pc => let '(pc', s') := refresh_step j t e pc s in (Refreshing j t pc', s')
  | SigningOut j t pc => let '(pc', s') := sign_out_step j t e pc s in (SigningOut j t pc', s')
  | Validating j t pc => (Validating j t (validate_step j t e pc s), s)
  end.

(** A call moves, starts, the application revokes an id or all of a user's
    refresh tokens, the store drops what has expired, time passes. *)
Inductive Move :=
  | MStep (i : nat) (e : Env)
  | MRefresh (j : JWTConfig) (token : string)
  | MSignOut (j : JWTConfig) (token : string)
  | MValidate (j : JWTConfig) (token : string)
  | MRevoke (j : JWTConfig) (e : Env) (jti : string) (expiresAt : option Z)
  | MBump (e : Env) (userID : string)
  | MStore (a : bl_Action)
  | MTick (d : nat).

Record World := mkWorld { stores : Stores; calls : list Call }.

Definition move (m : Move) (w : World) : World :=
  match m with
  | MStep i e =>
      match calls w !! i with
      | None => w
      | Some c => let '(c', s') := call_step e c (stores w) in mkWorld s' (<[i := c']> (calls w))
      end
  | MRefresh j t => mkWorld (stores w) (calls w ++ [Refreshing j t RVerify])
  | MSignOut j t => mkWorld (stores w) (calls w ++ [SigningOut j t OVerify])
  | MValidate j t => mkWorld (stores w) (calls w ++ [Validating j t VVerify])
  | MRevoke j e jti exp => mkWorld (RevokeToken j e jti exp (stores w)).2 (calls w)
  | MBump e u => mkWorld (BumpRefreshGeneration e u (stores w)).2 (calls w)
  | MStore a =>
      let s := stores w in
      mkWorld (mkStores (now s) (bl_act (now s) a (blacklist s)) (generations s) (added s)) (calls w)
  | MTick d =>
      let s := stores w in
      mkWorld (mkStores (now s + Z.of_nat d) (blacklist s) (generations s) (added s)) (calls w)
  end.

Definition moves (ms : list Move) (w : World) : World := fold_left (fun w m => move m w) ms w.

End jwt.
