(* ===== verification/JwtSpec.v ===== *)
(** * JSON web tokens: one refresh per token, none after a sign-out

    Invariants of Jwt.v's interleavings, by induction on the moves: of the
    calls that present one refresh token to managers with a blacklist at most
    one is issued an access token, against the interface of the blacklist; and
    once a user's generation is bumped, no call that has not taken its final
    decision issues anything for an older token. *)

From S2P Require Import Prelude GoStrings WebEncoding Jwt.
From Stdlib Require Import Ascii String.
Local Open Scope string_scope.
Local Open Scope list_scope.
Local Open Scope Z_scope.

(** ** What the manager relies on *)

(** The library returns the claims the token carries, of a token signed with
    one of the keys the key function gave for its algorithm. *)
Class JwtLaws (JL : JwtLib) : Type := {
  signed_by : string -> string + PublicKey -> string -> Prop;
  parse_reads o f t0 t c : ParseWithClaims o f t0 t = Ok c -> ParseUnverified t = Some c;
  parse_verifies o f t0 t c : ParseWithClaims o f t0 t = Ok c ->
    exists alg ks k, alg ∈ o.1.1 /\ f alg = Ok ks /\ k ∈ ks /\ signed_by alg k t
}.

(** What the documentation of BlacklistStore asks: an entry lives until its
    expiry and is never shortened, an id with a live entry is not added again,
    a deadline that has passed adds nothing. *)
Class BlacklistLaws (S : Type) {BS : BlacklistStore S} : Type := {
  lives_until : string -> Z -> S -> Prop;
  mentions : string -> S -> Prop;
  add_true now jti e s : (bl_Add now jti e s).1 = true -> now < e /\ lives_until jti e (bl_Add now jti e s).2;
  add_false now jti e s : (bl_Add now jti e s).1 = false -> e <= now \/ mentions jti s;
  add_live now jti e0 e s : lives_until jti e0 s -> now <= e0 -> (bl_Add now jti e s).1 = false;
  add_keeps now jti e j e0 s : lives_until j e0 s -> now <= e0 -> lives_until j e0 (bl_Add now jti e s).2;
  act_keeps now a j e0 s : lives_until j e0 s -> now <= e0 -> lives_until j e0 (bl_act now a s);
  has_mentions now jti s : bl_IsBlacklisted now jti s = true -> mentions jti s;
  add_mentions now jti e j s : mentions j (bl_Add now jti e s).2 ->
    mentions j s \/ j = jti /\ (bl_Add now jti e s).1 = true;
  act_mentions now a j s : mentions j (bl_act now a s) -> mentions j s
}.

Lemma mem_Add_true now jti e s :
  (mem_Add now jti e s).1 = true -> now < e /\ (mem_Add now jti e s).2 = <[jti := e]> s.
Proof.
  unfold mem_Add. destruct (Z.ltb_spec now e); [|done]. cbn [negb].
  destruct (s !! jti) as [c|]; [destruct (c <? now)|]; done.
Qed.

(** The store in memory keeps them. *)
#[export] Program Instance mem_laws : BlacklistLaws (gmap string Z) := {|
  lives_until j e s := exists c, s !! j = Some c /\ e <= c;
  mentions j s := is_Some (s !! j)
|}.
Next Obligation.
  cbn. intros now jti e s [H ->]%mem_Add_true. split; [done|]. exists e. by rewrite lookup_insert_eq.
Qed.
Next Obligation.
  cbn. unfold mem_Add. intros now jti e s. destruct (Z.ltb_spec now e); [|by left]. cbn [negb].
  destruct (s !! jti) as [c|] eqn:E; [|done]. eauto.
Qed.
Next Obligation.
  cbn. unfold mem_Add. intros now jti e0 e s (c & Hc & Hle) Hn. destruct (now <? e); [|done]. cbn [negb]. rewrite Hc.
  by rewrite (proj2 (Z.ltb_ge c now)) by lia.
Qed.
Next Obligation.
  cbn. unfold mem_Add. intros now jti e j e0 s (c & Hc & Hle) Hn. destruct (now <? e); [|by exists c]. cbn [negb].
  destruct (decide (j = jti)) as [->|Hne].
  - rewrite Hc, (proj2 (Z.ltb_ge c now)) by lia. cbn [negb snd]. destruct (Z.ltb_spec c e); [|by exists c].
    exists e. rewrite lookup_insert_eq. split; [done|lia].
  - exists c. split; [|done]. destruct (s !! jti) as [c'|]; repeat case_match; cbn [negb snd]; by rewrite ?lookup_insert_ne.
Qed.
Next Obligation.
  cbn. intros now [|jti e] j e0 s (c & Hc & Hle) Hn; exists c; (split; [|done]).
  - unfold mem_Cleanup. apply map_lookup_filter_Some. split; [done|]. cbn. by rewrite (proj2 (Z.ltb_ge c now)) by lia.
  - unfold mem_drop. destruct (Z.ltb_spec e now); [|done]. destruct (decide (j = jti)) as [->|Hne].
    + rewrite Hc. destruct (Z.eqb_spec c e); [lia|done].
    + destruct (s !! jti) as [c'|]; [|done]. destruct (c' =? e); [|done]. by rewrite lookup_delete_ne.
Qed.
Next Obligation. cbn. unfold mem_IsBlacklisted. intros now jti s. destruct (s !! jti); [eauto|done]. Qed.
Next Obligation.
  cbn. unfold mem_Add. intros now jti e j s. destruct (now <? e); cbn [negb]; [|by left].
  destruct (decide (j = jti)) as [->|Hne].
  - destruct (s !! jti) as [c|] eqn:E; [eauto|]. by right.
  - destruct (s !! jti) as [c'|]; repeat case_match; cbn [negb snd]; rewrite ?lookup_insert_ne by done; by left.
Qed.
Next Obligation.
  cbn. intros now [|jti e] j s.
  - unfold mem_Cleanup. intros [x Hx]. apply map_lookup_filter_Some in Hx as [Hx _]. eauto.
  - unfold mem_drop. destruct (e <? now); [|done]. destruct (s !! jti) as [c'|] eqn:E; [|done].
    destruct (c' =? e); [|done]. intros [x Hx]. apply lookup_delete_Some in Hx as [_ Hx]. eauto.
Qed.

Section laws.
Context {JL : JwtLib} {JW : JwtLaws JL} {S : Type} {BS : BlacklistStore S} {BL : BlacklistLaws S}.

(** ** Verified tokens *)

Lemma verified_claims j t0 t c : verifyToken j t0 t = Ok c -> ParseUnverified t = Some c.
Proof.
  unfold verifyToken. destruct (ParseWithClaims _ _ _ _) as [c'|[]] eqn:E; [|done..].
  apply parse_reads in E. repeat case_match; congruence.
Qed.

(** A verified token is signed with a configured key, under the configured
    algorithm and no other. *)
Lemma verified_signed j t0 t c :
  verifyToken j t0 t = Ok c -> exists k, k ∈ verificationKey j /\ signed_by (Algorithm j) k t.
Proof.
  unfold verifyToken. destruct (ParseWithClaims _ _ _ _) as [c'|[]] eqn:E; [|done..]. intros _.
  apply parse_verifies in E as (alg & ks & k & Halg & Hf & Hk & Hs).
  apply elem_of_cons in Halg as [->|[]%not_elem_of_nil].
  unfold keyFunc in Hf. repeat case_match; try done. apply Ok_inj in Hf as <-. eauto.
Qed.

(** ** What the stores keep *)

Record kept (s s' : @Stores S) : Prop := mkKept {
  k_now : now s <= now s';
  k_added : added s ⊆ added s';
  k_mentions : (forall x, mentions x (blacklist s) -> x ∈ added s) -> forall x, mentions x (blacklist s') -> x ∈ added s';
  k_lives x e : lives_until x e (blacklist s) -> now s' <= e -> lives_until x e (blacklist s')
}.

Lemma stores_kept_refl s : kept s s.
Proof. by split; auto. Qed.

Lemma blacklistAdd_kept e jti exp s : kept s (blacklistAdd e jti exp s).2.
Proof.
  unfold blacklistAdd. pose proof (add_mentions (now s) jti exp) as Hm. pose proof (add_keeps (now s) jti exp) as Hk.
  destruct (bl_Add (now s) jti exp (blacklist s)) as [ok b] eqn:E.
  assert (Hl : kept s (mkStores (now s) b (generations s) (if ok then jti :: added s else added s))).
  { split; cbn [now added blacklist]; [done|destruct ok; set_solver| |].
    - intros H x Hx. specialize (Hm x (blacklist s)). rewrite E in Hm. destruct (Hm Hx) as [Hy|[-> Hy]].
      + apply H in Hy. destruct ok; [by right|done].
      + cbn in Hy. subst ok. by left.
    - intros x e0 H1 H2. specialize (Hk x e0 (blacklist s) H1 H2). by rewrite E in Hk. }
  destruct (e_blacklist e) as [[]|]; [done|apply stores_kept_refl|done].
Qed.

Lemma RevokeToken_kept j e jti exp s : kept s (RevokeToken j e jti exp s).2.
Proof.
  unfold RevokeToken. destruct (BlacklistEnabled j); [|apply stores_kept_refl]. cbn [negb].
  pose proof (blacklistAdd_kept e jti (blacklistExpiry j (now s) (default zero_time exp)) s) as H.
  by destruct (blacklistAdd _ _ _ _) as [[] s'].
Qed.

Lemma Bump_kept e u s : kept s (BumpRefreshGeneration e u s).2.
Proof. unfold BumpRefreshGeneration. repeat case_match; cbn; try apply stores_kept_refl. by split; auto. Qed.

Lemma refresh_kept j t e pc s : kept s (refresh_step j t e pc s).2.
Proof.
  destruct pc; cbn [refresh_step]; try (repeat case_match; apply stores_kept_refl).
  pose proof (blacklistAdd_kept e (ID c) (blacklistExpiry j (now s) (expiry c)) s) as H.
  by destruct (blacklistAdd _ _ _ _) as [[[]|] s'].
Qed.

Lemma sign_out_kept j t e pc s : kept s (sign_out_step j t e pc s).2.
Proof.
  destruct pc; cbn [sign_out_step]; try (repeat case_match; apply stores_kept_refl).
  - pose proof (RevokeToken_kept j e (ID c) (Some (expiry c)) s) as H. by destruct (RevokeToken _ _ _ _ _).
  - destruct (String.eqb _ ""); [apply stores_kept_refl|].
    pose proof (Bump_kept e (sign_out_user c) s) as H. by destruct (BumpRefreshGeneration _ _ _).
Qed.

(** ** Calls *)

(** The claims a refresh works with are those of its token, and what its
    refusals rest on. *)
Definition refresh_ok (s : @Stores S) (j : JWTConfig) (t : string) (pc : RefreshPc) : Prop :=
  match pc with
  | RVerify | RDone (Ok _) => True
  | RListed c | RLapsed c | RGeneration c | RLookup c | RDecide c _ _ | RExpiry c _ _ | RSign c _ _ =>
      ParseUnverified t = Some c
  | RConsume c _ _ => ParseUnverified t = Some c /\ 0 < expiry c
  | RRefused c => ParseUnverified t = Some c /\ (expiry c <= now s \/ ID c ∈ added s)
  | RDone (Err x) => x = ErrRefreshTokenUsed -> exists c, ParseUnverified t = Some c /\ ID c ∈ added s
  end.

Definition call_ok (s : @Stores S) (c : Call) : Prop :=
  match c with Refreshing j t pc => refresh_ok s j t pc | _ => True end.

Lemma refresh_ok_mono s s' j t pc : kept s s' -> refresh_ok s j t pc -> refresh_ok s' j t pc.
Proof.
  intros [Hn Ha _ _]. destruct pc as [| | | | | | | |c| |[|x]]; cbn; try done.
  - intros [H1 [H2|H2]]; split; [done|left; lia|done|right; by apply Ha].
  - intros H Hx. destruct (H Hx) as (c & Hc & Hin). exists c. split; [done|by apply Ha].
Qed.

Definition sound (s : @Stores S) : Prop := 0 <= now s /\ forall x, mentions x (blacklist s) -> x ∈ added s.

Lemma sound_kept s s' : kept s s' -> sound s -> sound s'.
Proof. intros [Hn _ Hm _] [H0 H]. split; [lia|auto]. Qed.

(** The expiry that is consumed is the token's own. *)
Lemma consumed_expiry j t0 c : 0 < expiry c -> blacklistExpiry j t0 (expiry c) = expiry c.
Proof.
  intros H. unfold blacklistExpiry. destruct (Z.eqb_spec (expiry c) zero_time) as [E|]; [|done].
  exfalso. rewrite E in H. vm_compute in H. discriminate H.
Qed.

Lemma typed_ok s j t c : ParseUnverified t = Some c -> refresh_ok s j t (refresh_typed c).
Proof. intros H. unfold refresh_typed. by destruct (negb _). Qed.

Lemma refresh_step_ok j t e pc s :
  sound s -> refresh_ok s j t pc -> let '(pc', s') := refresh_step j t e pc s in refresh_ok s' j t pc'.
Proof.
  intros [H0 Hm] Hok. destruct pc as [|c|c|c|c|c id sub|c id sub|c id sub|c|c id sub|r]; cbn [refresh_step].
  - destruct (verifyToken j (now s) t) as [c|x] eqn:E.
    + apply verified_claims in E. destruct (BlacklistEnabled j); [done|by apply typed_ok].
    + unfold verifyToken in E. cbn. intros ->. repeat case_match; congruence.
  - unfold IsBlacklisted. destruct (BlacklistEnabled j); [|done]. cbn [negb].
    destruct (e_blacklist e); [done|]. destruct (bl_IsBlacklisted _ _ _) eqn:E; [|done].
    intros _. exists c. split; [done|]. by apply has_mentions, Hm in E.
  - unfold checkExpiry. destruct (negb _); [done|by apply typed_ok].
  - unfold checkRefreshGeneration. destruct (e_generation e); [done|].
    by destruct (RefreshGeneration c <? Current (refresh_user c) (generations s)).
  - destruct (e_user e) as [[[[??]|]|]|]; done.
  - unfold checkRefreshGeneration. destruct (e_generation e); [done|].
    by destruct (RefreshGeneration c <? Current (refresh_user c) (generations s)).
  - destruct (Z.ltb_spec (now s) (expiry c)); [|done]. cbn [negb]. destruct (BlacklistEnabled j); [|done].
    split; [done|lia].
  - destruct Hok as [Hc He]. rewrite consumed_expiry by done. unfold blacklistAdd.
    pose proof (add_false (now s) (ID c) (expiry c) (blacklist s)) as Hf.
    destruct (bl_Add _ _ _ _) as [ok b]. destruct (e_blacklist e); [done|]. destruct ok; [done|].
    split; [done|]. cbn. destruct (Hf eq_refl) as [|Hx]; [by left|]. right. by apply Hm.
  - destruct Hok as [Hc Hr]. cbn. destruct (Z.ltb_spec (now s) (expiry c)); cbn [negb]; [|done].
    intros _. exists c. split; [done|]. destruct Hr; [lia|done].
  - cbn. destruct (signAccessToken _ _ _ _ _ _) as [|x] eqn:E; [done|]. intros ->. exfalso.
    revert E. unfold signAccessToken, generateJTI, sign_claims, getSigningMethod. repeat case_match; cbn [res_bind]; repeat case_match; done.
  - done.
Qed.

(** ** Spending a token *)

(** 1 for a call, of a manager with a blacklist, that presents the token and
    has been or is about to be issued an access token for it. *)
Definition granted (T : string) (c : Call) : nat :=
  match c with
  | Refreshing j t pc =>
      if String.eqb t T && BlacklistEnabled j then
        match pc with RSign _ _ _ | RDone (Ok _) => 1 | _ => 0 end
      else 0
  | _ => 0
  end.

Definition grants (T : string) (w : @World JL S) : nat := sum_list_with (granted T) (calls w).

(** A granted token is on the blacklist until it has expired. *)
Definition covered (T : string) (s : @Stores S) : Prop :=
  forall c, ParseUnverified T = Some c -> expiry c < now s \/ lives_until (ID c) (expiry c) (blacklist s).

Definition spent (T : string) (w : @World JL S) : Prop :=
  (grants T w <= 1)%nat /\ (grants T w = 1%nat -> covered T (stores w)).

Lemma covered_kept T s s' : kept s s' -> covered T s -> covered T s'.
Proof.
  intros [Hn _ _ Hl] H c Hc. destruct (H c Hc) as [Hx|Hx]; [left; lia|].
  destruct (Z.lt_ge_cases (expiry c) (now s')); [by left|right; by apply Hl].
Qed.

(** The one step that grants: an Add that was answered with true. *)
Lemma refresh_grants T j t e pc s :
  let '(pc', s') := refresh_step j t e pc s in
  (granted T (Refreshing j t pc') <= granted T (Refreshing j t pc))%nat
  \/ t = T /\ granted T (Refreshing j t pc) = 0%nat /\ granted T (Refreshing j t pc') = 1%nat
     /\ exists c id sub, pc = RConsume c id sub
        /\ (bl_Add (now s) (ID c) (blacklistExpiry j (now s) (expiry c)) (blacklist s)).1 = true
        /\ blacklist s' = (bl_Add (now s) (ID c) (blacklistExpiry j (now s) (expiry c)) (blacklist s)).2.
Proof.
  cbn [granted]. destruct (String.eqb_spec t T) as [->|]; cbn [andb]; [|by destruct (refresh_step _ _ _ _ _); left].
  destruct (BlacklistEnabled j) eqn:Eb; [|by destruct (refresh_step _ _ _ _ _); left].
  destruct pc as [|c|c|c|c|c id sub|c id sub|c id sub|c|c id sub|r]; cbn [refresh_step]; rewrite ?Eb;
    try (unfold refresh_typed; repeat case_match; simplify_eq; left; cbn; lia).
  unfold blacklistAdd. destruct (bl_Add _ _ _ _) as [ok b] eqn:Ea. destruct (e_blacklist e); [by left|].
  destruct ok; [|by left]. right. split_and!; try done. exists c, id, sub. by rewrite Ea.
Qed.

Lemma spent_step T w i j t e pc :
  calls w !! i = Some (Refreshing j t pc) -> sound (stores w) -> refresh_ok (stores w) j t pc -> spent T w ->
  let '(pc', s') := refresh_step j t e pc (stores w) in spent T (mkWorld s' (<[i := Refreshing j t pc']> (calls w))).
Proof.
  intros Hi Hs Hok [H1 Hc]. pose proof (refresh_grants T j t e pc (stores w)) as Hg.
  pose proof (refresh_kept j t e pc (stores w)) as Hk. destruct (refresh_step _ _ _ _ _) as [pc' s']. cbn [snd] in Hk.
  unfold spent, grants in *. cbn [calls stores]. rewrite (sum_list_with_insert _ _ _ _ _ Hi).
  pose proof (sum_list_with_lookup (granted T) _ _ _ Hi) as Hle.
  destruct Hg as [Hg|(-> & H0 & H1' & c & id & sub & -> & Hadd & Hb)].
  - split; [lia|]. intros Hn. apply (covered_kept T (stores w)); [done|]. apply Hc. lia.
  - destruct Hok as [Hclaims Hexp]. rewrite consumed_expiry in Hadd, Hb by done.
    destruct (add_true _ _ _ _ Hadd) as [Hnow Hlive].
    assert (Hzero : sum_list_with (granted T) (calls w) = 0%nat).
    { destruct (sum_list_with (granted T) (calls w)) as [|[|n]]; [done| |lia].
      destruct (Hc eq_refl c Hclaims) as [Hx|Hx]; [lia|].
      rewrite (add_live _ _ _ (expiry c) _ Hx) in Hadd; [done|lia]. }
    rewrite Hzero, H0, H1'. split; [lia|]. intros _ c' Hc'. right. rewrite Hb. by simplify_eq.
Qed.

Definition good (T : string) (w : @World JL S) : Prop :=
  sound (stores w) /\ Forall (call_ok (stores w)) (calls w) /\ spent T w.

Lemma calls_ok_kept s s' l : kept s s' -> Forall (call_ok s) l -> Forall (call_ok s') l.
Proof. intros Hk Hl. eapply Forall_impl; [exact Hl|]. intros [j t pc|j t pc|j t pc]; cbn; [by apply refresh_ok_mono|done..]. Qed.

Lemma good_stores T w s' : kept (stores w) s' -> good T w -> good T (mkWorld s' (calls w)).
Proof.
  intros Hk (Hs & Hc & H1 & H2). split_and!; [by eapply sound_kept|by eapply calls_ok_kept|]. split; [done|].
  intros Hn. eapply covered_kept; [done|]. by apply H2.
Qed.

Lemma good_call T w c : granted T c = 0%nat -> call_ok (stores w) c -> good T w -> good T (mkWorld (stores w) (calls w ++ [c])).
Proof.
  intros Hg Hc (Hs & Ho & H). split_and!; [done|by apply Forall_app; split; [|constructor]|].
  unfold spent, grants in *. cbn [calls stores]. rewrite sum_list_with_app. cbn. rewrite Hg, !Nat.add_0_r. done.
Qed.

Lemma good_quiet T w i c c' s' :
  calls w !! i = Some c -> granted T c = 0%nat -> granted T c' = 0%nat -> call_ok s' c' -> kept (stores w) s' ->
  good T w -> good T (mkWorld s' (<[i := c']> (calls w))).
Proof.
  intros Hi Hc Hc' Hok Hk Hg. apply (good_stores T w s' Hk) in Hg as (Hs & Ho & H). split_and!; [done|by apply Forall_insert|].
  unfold spent, grants in *. cbn [calls stores] in *. rewrite (sum_list_with_insert _ _ _ _ _ Hi), Hc, Hc'.
  by rewrite Nat.sub_0_r, Nat.add_0_r.
Qed.

Lemma good_move T m w : good T w -> good T (move m w).
Proof.
  intros Hg. destruct m as [i e|j t|j t|j t|j e jti exp|e u|a|d]; cbn [move].
  - destruct (calls w !! i) as [c|] eqn:Hi; [|done]. destruct c as [j t pc|j t pc|j t pc]; cbn [call_step].
    + destruct Hg as (Hs & Ho & Hsp). pose proof (Forall_lookup_1 _ _ _ _ Ho Hi) as Hok. cbn in Hok.
      pose proof (spent_step T w i j t e pc Hi Hs Hok Hsp) as H1. pose proof (refresh_step_ok j t e pc _ Hs Hok) as H2.
      pose proof (refresh_kept j t e pc (stores w)) as Hk. destruct (refresh_step _ _ _ _ _) as [pc' s']. cbn [snd] in Hk.
      split_and!; [by eapply sound_kept|apply Forall_insert; [by eapply calls_ok_kept|done]|done..].
    + pose proof (sign_out_kept j t e pc (stores w)) as Hk. destruct (sign_out_step _ _ _ _ _) as [pc' s'].
      by apply (good_quiet T w i (SigningOut j t pc)).
    + apply (good_quiet T w i (Validating j t pc)); done || apply stores_kept_refl.
  - apply good_call; [cbn; by destruct (_ && _)|done|done].
  - by apply good_call.
  - by apply good_call.
  - apply good_stores; [apply RevokeToken_kept|done].
  - apply good_stores; [apply Bump_kept|done].
  - apply good_stores; [|done]. split; cbn; [done|done| |].
    + intros H x Hx. apply H. by apply act_mentions in Hx.
    + intros x e Hx He. by apply act_keeps.
  - apply good_stores; [|done]. split; cbn; [lia|done|done|done].
Qed.

Lemma good_moves T ms w : good T w -> good T (moves ms w).
Proof. revert w. induction ms as [|m ms IH]; intros w Hg; [done|]. by apply IH, good_move. Qed.

(** No call yet, at a time after 1970, and a blacklist that holds only ids
    that were added to it. *)
Definition fresh (w : @World JL S) : Prop := calls w = [] /\ sound (stores w).

Lemma fresh_good T w : fresh w -> good T w.
Proof.
  destruct w as [s cs]. intros [Hc Hs]. cbn in Hc. subst cs. split_and!; [done|constructor|]. split; [cbn; lia|done].
Qed.

(** C12: a refresh token is spent once.  In every interleaving of refreshes,
    sign-outs, validations, revocations, store clean-ups and store failures,
    with calls of any managers that share a blacklist, at most one of the calls
    presenting one token to a manager with a blacklist is issued an access
    token; and a call is told the token was used only when its id was put on
    the blacklist, by a refresh or a revocation, never for an outage or an
    expiry. *)
Theorem refresh_token_is_spent_once T ms w :
  fresh w ->
  (grants T (moves ms w) <= 1)%nat
  /\ forall i j, calls (moves ms w) !! i = Some (Refreshing j T (RDone (Err ErrRefreshTokenUsed))) ->
     exists c, ParseUnverified T = Some c /\ ID c ∈ added (stores (moves ms w)).
Proof.
  intros Hw. destruct (good_moves T ms w (fresh_good T w Hw)) as (_ & Hc & Hs & _). split; [done|].
  intros i j Hi. exact (Forall_lookup_1 _ _ _ _ Hc Hi eq_refl).
Qed.

(** ** Generations *)

Lemma Current_Bump u v g :
  in_int64 (Current u g + 1) -> Current u g <= Current u (Bump v g).2 <= Current u g + 1.
Proof.
  intros Hr. unfold Bump. destruct (String.eqb v "") eqn:Ev; cbn [snd]; [lia|]. revert Hr. unfold Current.
  destruct (String.eqb u ""); [lia|]. destruct (decide (u = v)) as [->|Hne].
  - rewrite lookup_insert_eq. intros Hr. cbn [default from_option]. rewrite wrap64_small by done. unfold id. lia.
  - rewrite lookup_insert_ne by done. lia.
Qed.

(** A move bumps a user's generation once at most. *)
Definition bumped (u : string) (s s' : @Stores S) : Prop :=
  in_int64 (Current u (generations s) + 1) ->
  Current u (generations s) <= Current u (generations s') <= Current u (generations s) + 1.

Lemma bumped_same u s s' : generations s' = generations s -> bumped u s s'.
Proof. intros H _. rewrite H. lia. Qed.

Lemma blacklistAdd_generations e jti exp s : generations (blacklistAdd e jti exp s).2 = generations s.
Proof. unfold blacklistAdd. destruct (bl_Add _ _ _ _). by destruct (e_blacklist e) as [[]|]. Qed.

Lemma RevokeToken_generations j e jti exp s : generations (RevokeToken j e jti exp s).2 = generations s.
Proof.
  unfold RevokeToken. destruct (BlacklistEnabled j); [|done]. cbn [negb].
  rewrite <- (blacklistAdd_generations e jti (blacklistExpiry j (now s) (default zero_time exp)) s).
  by destruct (blacklistAdd _ _ _ _) as [[] s'].
Qed.

Lemma refresh_generations j t e pc s : generations (refresh_step j t e pc s).2 = generations s.
Proof.
  destruct pc; cbn [refresh_step]; try (by repeat case_match).
  rewrite <- (blacklistAdd_generations e (ID c) (blacklistExpiry j (now s) (expiry c)) s).
  by destruct (blacklistAdd _ _ _ _) as [[[]|] s'].
Qed.

Lemma Bump_bumped u e v s : bumped u s (BumpRefreshGeneration e v s).2.
Proof.
  unfold BumpRefreshGeneration. destruct (String.eqb v ""); [by apply bumped_same|].
  destruct (e_generation e); [by apply bumped_same|]. intros Hr. by apply Current_Bump.
Qed.

Lemma sign_out_bumped u j t e pc s : bumped u s (sign_out_step j t e pc s).2.
Proof.
  destruct pc; cbn [sign_out_step]; try (repeat case_match; by apply bumped_same).
  - pose proof (RevokeToken_generations j e (ID c) (Some (expiry c)) s) as H.
    destruct (RevokeToken _ _ _ _ _). by apply bumped_same.
  - destruct (String.eqb _ ""); [by apply bumped_same|].
    pose proof (Bump_bumped u e (sign_out_user c) s) as H. by destruct (BumpRefreshGeneration _ _ _).
Qed.

Lemma move_bumped u m (w : @World JL S) : bumped u (stores w) (stores (move m w)).
Proof.
  destruct m as [i e|j t|j t|j t|j e jti exp|e v|a|d]; cbn [move stores]; try by apply bumped_same.
  - destruct (calls w !! i) as [[j t pc|j t pc|j t pc]|]; [..|by apply bumped_same]; cbn [call_step].
    + pose proof (refresh_generations j t e pc (stores w)) as H. destruct (refresh_step _ _ _ _ _). by apply bumped_same.
    + pose proof (sign_out_bumped u j t e pc (stores w)) as H. by destruct (sign_out_step _ _ _ _ _).
    + by apply bumped_same.
  - apply bumped_same, RevokeToken_generations.
  - apply Bump_bumped.
Qed.

(** Past the final decision, on the way to an access token. *)
Definition decided (pc : RefreshPc) : bool :=
  match pc with RExpiry _ _ _ | RConsume _ _ _ | RSign _ _ _ | RDone (Ok _) => true | _ => false end.

Definition stale (c : Claims) (s : @Stores S) : Prop :=
  RefreshGeneration c < Current (refresh_user c) (generations s).

Lemma undecided_step T c j e pc s :
  ParseUnverified T = Some c -> refresh_ok s j T pc -> stale c s ->
  decided (refresh_step j T e pc s).1 = true -> decided pc = true.
Proof.
  intros Hc Hok Hst. destruct pc as [|c'|c'|c'|c'|c' id sub|c' id sub|c' id sub|c'|c' id sub|r]; cbn [refresh_step];
    try done; try (unfold refresh_typed; repeat case_match; done).
  cbn in Hok. assert (c' = c) as -> by congruence. unfold checkRefreshGeneration.
  destruct (e_generation e); [done|]. apply Z.ltb_lt in Hst. by rewrite Hst.
Qed.

Lemma decided_move T c m w i j pc :
  ParseUnverified T = Some c -> good T w -> stale c (stores w) ->
  calls (move m w) !! i = Some (Refreshing j T pc) -> decided pc = true ->
  exists pc0, calls w !! i = Some (Refreshing j T pc0) /\ decided pc0 = true.
Proof.
  intros Hc Hg Hst Hi Hd.
  assert (Hnew : forall x, calls (move m w) = calls w ++ [x] -> x <> Refreshing j T pc ->
    exists pc0, calls w !! i = Some (Refreshing j T pc0) /\ decided pc0 = true).
  { intros x Hx Hne. rewrite Hx in Hi. apply lookup_app_Some in Hi as [|[_ Hi]]; [by eauto|].
    destruct (i - _)%nat; [|done]. cbn in Hi. congruence. }
  destruct m as [k e|j' t|j' t|j' t|j' e jti exp|e v|a|d]; try (by eauto);
    try (by eapply Hnew; [done|]; intros [=]; subst; discriminate Hd).
  cbn [move] in Hi. destruct (calls w !! k) as [x|] eqn:Hk; [|by eauto].
  destruct (call_step e x (stores w)) as [x' s'] eqn:Ex. cbn [calls] in Hi.
  apply list_lookup_insert_Some in Hi as [(-> & -> & _)|[_ Hi]]; [|by eauto].
  destruct x as [j0 t pc0|j0 t pc0|j0 t pc0]; cbn [call_step] in Ex;
    [|by destruct (sign_out_step _ _ _ _ _); simplify_eq|by simplify_eq].
  destruct (refresh_step j0 t e pc0 (stores w)) as [pc1 s1] eqn:Er. simplify_eq. exists pc0. split; [done|].
  destruct Hg as (_ & Ho & _). pose proof (Forall_lookup_1 _ _ _ _ Ho Hk) as Hok.
  apply (undecided_step T c j e pc0 (stores w)); [done..|]. by rewrite Er.
Qed.

Lemma decided_moves T c ms w i j pc :
  ParseUnverified T = Some c -> in_int64 (RefreshGeneration c) -> good T w -> stale c (stores w) ->
  Current (refresh_user c) (generations (stores w)) + Z.of_nat (List.length ms) < two63 ->
  calls (moves ms w) !! i = Some (Refreshing j T pc) -> decided pc = true ->
  exists pc0, calls w !! i = Some (Refreshing j T pc0) /\ decided pc0 = true.
Proof.
  intros Hc Hr. revert w. induction ms as [|m ms IH]; intros w Hg Hst Hb Hi Hd; [by eauto|].
  cbn [List.length] in Hb. unfold stale in Hst.
  pose proof (move_bumped (refresh_user c) m w) as Hm. unfold bumped, in_int64 in *.
  specialize (Hm ltac:(lia)).
  destruct (IH (move m w)) as (pc0 & Hi0 & Hd0); [by apply good_move|unfold stale; lia|lia|done..|].
  by eapply decided_move.
Qed.

(** C40: a sign-out ends the refresh tokens issued before it.  Once the user's
    generation is above a token's (a sign-out or an administrator bumped it),
    only calls that had already taken their final decision for that token can
    still be issued an access token; every other call presenting it, started
    before or after the bump and however it interleaves, is issued nothing,
    blacklist or not.  (The counter is 64 bits wide.) *)
Theorem stale_tokens_mint_nothing T c ms0 ms w i j token :
  fresh w -> ParseUnverified T = Some c -> in_int64 (RefreshGeneration c) ->
  stale c (stores (moves ms0 w)) ->
  Current (refresh_user c) (generations (stores (moves ms0 w))) + Z.of_nat (List.length ms) < two63 ->
  calls (moves ms (moves ms0 w)) !! i = Some (Refreshing j T (RDone (Ok token))) ->
  exists pc, calls (moves ms0 w) !! i = Some (Refreshing j T pc) /\ decided pc = true.
Proof.
  intros Hw Hc Hr Hst Hb Hi. by eapply decided_moves; [done|done|apply good_moves, fresh_good|..].
Qed.

End laws.

(** ** A concrete library *)

(** [float64]'s [%v] at a whole number: the shortest digits, with an exponent
    from seven digits on. *)
Fixpoint strip_zeros (s : string) : string :=
  match s with
  | EmptyString => EmptyString
  | String c s' =>
      match strip_zeros s' with
      | EmptyString => if Ascii.eqb c "0" then EmptyString else String c EmptyString
      | r => String c r
      end
  end.

Definition float_v (n : Z) : string :=
  let s := itoa n in
  if n <? 1000000 then s
  else
    let digits := strip_zeros s in
    let exp := itoa (Z.of_nat (String.length s) - 1) in
    str_take 1 digits +:+ (if (String.length digits <=? 1)%nat then "" else "." +:+ str_drop 1 digits)
    +:+ "e+" +:+ (if (String.length exp <=? 1)%nat then "0" +:+ exp else exp).

Definition write_id (id : Identifier) : string :=
  match id with
  | IDNil => "z" | IDString s => "s" +:+ s | IDInt n | IDFloat n => "n" +:+ itoa n | IDOther t => "s" +:+ t
  end.

Definition read_id (s : string) : Identifier :=
  match s with
  | String "n" r => match Atoi r with Some n => IDFloat n | None => IDNil end
  | String "s" r => IDString r
  | _ => IDNil
  end.

(** A token is the key it was signed with and its claims, as text. *)
Definition write_token (k : string) (c : Claims) : string :=
  join "|" [k; ID c; Subject c; itoa (expiry c); write_id (UserID c); TokenType c; itoa (RefreshGeneration c)].

Definition read_token (t : string) : option (string * Claims) :=
  match split_on "|" t with
  | [k; id; sub; exp; uid; ty; gen] =>
      e ← Atoi exp; g ← Atoi gen;
      Some (k, mkClaims id sub None (Some e) None "" [] (read_id uid) "" "" ty g)
  | _ => None
  end.

Definition toy_jwt : JwtLib := {|
  PrivateKey := unit;
  PublicKey := unit;
  ParseWithClaims o f t0 t :=
    if negb (existsb (String.eqb "HS256") o.1.1) then Err LibOther
    else match read_token t, f "HS256" with
         | Some (k, c), Ok ks =>
             if negb (existsb (fun k' => match k' with inl s => String.eqb s k | inr _ => false end) ks) then Err LibOther
             else if t0 <? expiry c then Ok c else Err LibExpired
         | _, _ => Err LibOther
         end;
  ParseUnverified t := snd <$> read_token t;
  SignedString alg k c := match k with inl s => Some (write_token s c) | inr _ => None end;
  NewNumericDate t := t / 1000000000 * 1000000000;
  fmt_v id := match id with
              | IDNil => "<nil>" | IDString s => s | IDInt n => itoa n | IDFloat n => float_v n | IDOther t => t
              end
|}.

#[export] Program Instance toy_jwt_laws : JwtLaws toy_jwt := {|
  signed_by alg k t := exists s c, k = inl s /\ read_token t = Some (s, c)
|}.
Next Obligation.
  cbn. intros o f t0 t c. destruct (negb _); [done|]. destruct (read_token t) as [[k c']|]; [|done].
  destruct (f "HS256") as [ks|]; [|done]. destruct (negb _); [done|]. destruct (t0 <? expiry c'); [|done].
  by intros ->%Ok_inj.
Qed.
Next Obligation.
  cbn [ParseWithClaims toy_jwt]. intros o f t0 t c. destruct (existsb (String.eqb "HS256") o.1.1) eqn:Ea; [|done]. cbn [negb].
  destruct (read_token t) as [[k c']|] eqn:Et; [|done]. destruct (f "HS256") as [ks|] eqn:Ef; [|done].
  match goal with |- context [existsb ?p ks] => destruct (existsb p ks) eqn:Ek end; [|done]. intros _. exists "HS256", ks, (inl k).
  apply existsb_exists in Ea as (x & Hx & <-%String.eqb_eq). apply existsb_exists in Ek as ([s|] & Hs & E); [|done].
  apply String.eqb_eq in E as ->. apply list_elem_of_In in Hx, Hs. eauto 8.
Qed.

Definition api : @JWTConfig toy_jwt :=
  mkJWTConfig "HS256" "" true true "" [] [] 20160 None None "0123456789abcdef0123456789abcdef" 60.

Definition start : @World toy_jwt (gmap string Z) := mkWorld (mkStores 1700000000000000000 ∅ ∅ []) [].

Lemma start_fresh : fresh start.
Proof. split; [done|]. split; [done|]. cbn. intros x [y Hy]. by rewrite lookup_empty in Hy. Qed.

(** User [n], its refresh token at the present generation, and a step that
    finds the user. *)
Definition user (n : Z) : option (Identifier * string) := Some (IDInt n, itoa n).
Definition token_of (n : Z) (jti : string) (w : @World toy_jwt (gmap string Z)) : string :=
  match GenerateRefreshToken api (now (stores w)) (Some jti) (user n) false (generations (stores w)) with
  | Ok t => t | Err _ => "" end.
Definition finds (n : Z) : Env := mkEnv None false (Some (Some (user n))) (Some "access").
Definition steps_of (i n : nat) (u : Z) : list (@Move toy_jwt (gmap string Z) _) := replicate n (MStep i (finds u)).

(** Two calls race for one token: both are past every check when one consumes. *)
Definition race : list (@Move toy_jwt (gmap string Z) _) :=
  [MRefresh api (token_of 7 "one" start); MRefresh api (token_of 7 "one" start)]
  ++ steps_of 0 7 7 ++ steps_of 1 7 7 ++ steps_of 1 1 7 ++ steps_of 0 4 7 ++ steps_of 1 4 7.

Lemma refresh_token_is_spent_once_witness :
  grants (token_of 7 "one" start) (moves race start) = 1%nat
  /\ (grants (token_of 7 "one" start) (moves race start) <= 1)%nat
  /\ exists c, @ParseUnverified toy_jwt (token_of 7 "one" start) = Some c /\ ID c ∈ added (stores (moves race start)).
Proof.
  destruct (refresh_token_is_spent_once (token_of 7 "one" start) race start start_fresh) as [H1 H2].
  split; [vm_compute; reflexivity|]. split; [exact H1|]. apply (H2 0%nat api).
  vm_cast_no_check (eq_refl (Some (@Refreshing toy_jwt api (token_of 7 "one" start) (RDone (Err ErrRefreshTokenUsed))))).
Defined.

(** The bump comes between the final decision and the consume. *)
Definition before : list (@Move toy_jwt (gmap string Z) _) :=
  [MRefresh api (token_of 7 "one" start)] ++ steps_of 0 6 7 ++ [MBump (finds 7) "7"].

(** The access token call [i] was issued. *)
Definition minted (w : @World toy_jwt (gmap string Z)) (i : nat) : string :=
  match calls w !! i with Some (Refreshing _ _ (RDone (Ok t))) => t | _ => "" end.

Definition claims_of (t : string) : Claims :=
  match read_token t with Some (_, c) => c | None => mkClaims "" "" None None None "" [] IDNil "" "" "" 0 end.

Lemma stale_tokens_mint_nothing_witness :
  exists pc, calls (moves before start) !! 0%nat = Some (Refreshing api (token_of 7 "one" start) pc) /\ decided pc = true.
Proof.
  pose (T := token_of 7 "one" start). pose (w := moves (steps_of 0 3 7) (moves before start)).
  assert (Hc : @ParseUnverified toy_jwt T = Some (claims_of T)) by (vm_compute; reflexivity).
  assert (Hdone : calls w !! 0%nat = Some (Refreshing api T (RDone (Ok (minted w 0)))))
    by (vm_cast_no_check (eq_refl (Some (@Refreshing toy_jwt api T (RDone (Ok (minted w 0))))))).
  refine (stale_tokens_mint_nothing T (claims_of T) before (steps_of 0 3 7) start 0%nat api (minted w 0)
    start_fresh Hc _ _ _ Hdone).
  - split; [vm_compute; discriminate|vm_compute; reflexivity].
  - vm_compute. reflexivity.
  - vm_compute. reflexivity.
Defined.

(** ** Numeric identifiers

    A token's uid is read back as a float64, so from a million on its text is
    not the user's: the generation is read under one key when a token is
    issued or all of a user's are revoked, and under another when one is
    refreshed or signed out. *)

Definition million : Z := 1000000.

(** Revoking all refresh tokens of such a user revokes none. *)
Lemma revocation_misses_large_ids :
  let w := moves ([MBump (finds million) "1000000"; MRefresh api (token_of million "one" start)]
      ++ steps_of 0 9 million) start in
  calls w !! 0%nat = Some (Refreshing api (token_of million "one" start) (RDone (Ok (minted w 0)))).
Proof.
  intros w. vm_cast_no_check (eq_refl (Some (@Refreshing toy_jwt api (token_of million "one" start) (RDone (Ok (minted w 0)))))).
Qed.

(** After a sign-out, the tokens of the next login are stale at once. *)
Lemma sign_out_locks_out_large_ids :
  let w := moves ([MSignOut api (token_of million "one" start)] ++ steps_of 0 4 million) start in
  calls (moves ([MRefresh api (token_of million "two" w)] ++ steps_of 1 9 million) w) !! 1%nat
  = Some (Refreshing api (token_of million "two" w) (RDone (Err ErrRefreshGenerationStale))).
Proof.
  intros w. vm_cast_no_check (eq_refl (Some (@Refreshing toy_jwt api (token_of million "two" w)
    (RDone (Err ErrRefreshGenerationStale))))).
Qed.
