(* ===== verification/Webhook.v ===== *)
(** * Webhook signatures (webhook/signer.go, verifier.go, errors.go, drivers/nonce/memory.go)

    Signing a payload with a timestamp, parsing the signature header,
    verification with its freshness window, and the in-memory store of nonces
    behind replay rejection.  The MAC ([Algorithm]) is a parameter.  Times are
    instants in nanoseconds; [Sub] saturates and negation wraps as Go's
    [time.Duration] does.  RetryPolicy, which computes in float64, is not
    modelled. *)

From S2P Require Import Prelude GoStrings WebEncoding.
From Stdlib Require Import Ascii String.
Local Open Scope string_scope.
Local Open Scope list_scope.
Local Open Scope Z_scope.
Local Open Scope go_scope.

Inductive WebhookError :=
  | ErrSignatureMismatch | ErrTimestampOutOfTolerance | ErrReplay | ErrMalformedHeader
  | ErrMissingSecret | ErrNoAlgorithm | ErrNonceStore.

(** ** What the code uses of the standard library *)

Definition hex_byte (n : nat) : ascii := if (n <? 10)%nat then ascii_of_nat (48 + n) else ascii_of_nat (87 + n).

Fixpoint hex_encode (s : string) : string :=
  match s with
  | EmptyString => EmptyString
  | String b s' => String (hex_byte (nat_of_ascii b / 16)) (String (hex_byte (nat_of_ascii b mod 16)) (hex_encode s'))
  end.

(** hex.DecodeString: digits of either case. *)
Fixpoint hex_decode (s : string) : option string :=
  match s with
  | EmptyString => Some EmptyString
  | String a (String b s') =>
      match unhex a, unhex b with
      | Some h, Some l => String (ascii_of_nat (16 * h + l)) <$> hex_decode s'
      | _, _ => None
      end
  | _ => None
  end.

Definition FormatInt (n : Z) : string := if n <? 0 then "-" +:+ itoa (- n) else itoa n.

(** [time.Unix(sec, 0)] keeps its seconds since year one in an int64. *)
Definition unixToInternal : Z := 62135596800.
Definition second : Z := 1000000000.
Definition time_Unix (sec : Z) : Z := (wrap64 (sec + unixToInternal) - unixToInternal) * second.
Definition Unix (t : Z) : Z := t / second.

(** [t.Sub(u)]. *)
Definition Sub (t u : Z) : Z :=
  if t - u <? - two63 then - two63 else if two63 <=? t - u then two63 - 1 else t - u.

(** ** drivers/nonce/memory.go *)

(** [items]: the expiry of each nonce. *)
Definition CheckAndMark (now : Z) (nonce : string) (ttl : Z) (items : gmap string Z) : bool * gmap string Z :=
  match items !! nonce with
  | Some exp => if negb (exp <? now) then (true, items) else (false, <[nonce := now + ttl]> items)
  | None => (false, <[nonce := now + ttl]> items)
  end.

Definition seen (now : Z) (nonce : string) (items : gmap string Z) : bool :=
  match items !! nonce with Some exp => negb (exp <? now) | None => false end.

Definition collect (now : Z) (items : gmap string Z) : gmap string Z :=
  filter (fun kv : string * Z => negb (kv.2 <? now) = true) items.

(** ** signer.go *)

Section webhook.
(** Secret and payload. *)
Variable mac : string -> string -> string.

Record Signer := mkSigner { s_hasAlgorithm : bool; s_Secret : string }.
Definition NewSigner (secret : string) : Signer := mkSigner true secret.

Definition framed (ts payload : string) : string := ts +:+ "." +:+ payload.

Definition Sign (s : Signer) (now : Z) (payload : string) : result WebhookError (string * string) :=
  if negb (s_hasAlgorithm s) then Err ErrNoAlgorithm
  else if String.eqb (s_Secret s) "" then Err ErrMissingSecret
  else
    let ts := FormatInt (Unix now) in
    Ok (hex_encode (mac (s_Secret s) (framed ts payload)), ts).

Definition Header (s : Signer) (now : Z) (payload : string) : result WebhookError string :=
  sig <-! Sign s now payload;;
  Ok ("t=" +:+ sig.2 +:+ ",v1=" +:+ sig.1).

(** ** verifier.go *)

(** [v_Nonces]: whether a store is set. *)
Record Verifier := mkVerifier {
  v_hasAlgorithm : bool;
  v_Secret : string;
  v_Tolerance : Z;
  v_DisableTimestampCheck : bool;
  v_Nonces : bool
}.

Definition defaultTolerance : Z := 300 * second.
Definition NewVerifier (secret : string) : Verifier := mkVerifier true secret defaultTolerance false false.

Definition tolerance (v : Verifier) : Z := if 0 <? v_Tolerance v then v_Tolerance v else defaultTolerance.

(** The state of parseHeader's loop: the timestamp and the signature found. *)
Fixpoint parse_parts (parts : list string) (ts : option Z) (sig : option string) :
    result WebhookError (option Z * option string) :=
  match parts with
  | [] => Ok (ts, sig)
  | part :: parts =>
      let part := trim_space part in
      match index_byte "=" part with
      | None => Err ErrMalformedHeader
      | Some eq =>
          if (eq =? 0)%nat || (S eq =? String.length part)%nat then Err ErrMalformedHeader
          else
            let key := str_take eq part in
            let val := str_drop (S eq) part in
            if String.eqb key "t" then
              match Atoi val with
              | None => Err ErrMalformedHeader
              | Some n => parse_parts parts (Some n) sig
              end
            else if String.eqb key "v1" then
              if (String.length val =? 0)%nat || negb (Nat.even (String.length val)) then Err ErrMalformedHeader
              else parse_parts parts ts (Some val)
            else parse_parts parts ts sig
      end
  end.

Definition parseHeader (header : string) : result WebhookError (Z * string) :=
  if String.eqb header "" then Err ErrMalformedHeader
  else
    found <-! parse_parts (split_on "," header) None None;;
    match found with (Some ts, Some sig) => Ok (ts, sig) | _ => Err ErrMalformedHeader end.

(** The freshness check; [now] is the verifier's clock. *)
Definition fresh_enough (v : Verifier) (now ts : Z) : bool :=
  let delta := Sub now (time_Unix ts) in
  let delta := if delta <? 0 then wrap64 (- delta) else delta in
  negb (tolerance v <? delta).

(** The verification, with the store's clock [mnow] and its failure. *)
Definition VerifyContext (v : Verifier) (now mnow : Z) (fault : bool) (payload header : string)
    (items : gmap string Z) : result WebhookError unit * gmap string Z :=
  if negb (v_hasAlgorithm v) then (Err ErrNoAlgorithm, items)
  else if String.eqb (v_Secret v) "" then (Err ErrMissingSecret, items)
  else match parseHeader header with
       | Err e => (Err e, items)
       | Ok (ts, sigHex) =>
           if negb (v_DisableTimestampCheck v) && negb (fresh_enough v now ts) then (Err ErrTimestampOutOfTolerance, items)
           else match hex_decode sigHex with
                | None => (Err ErrMalformedHeader, items)
                | Some supplied =>
                    let expected := mac (v_Secret v) (framed (FormatInt ts) payload) in
                    if negb (String.eqb expected supplied) then (Err ErrSignatureMismatch, items)
                    else if v_Nonces v then
                      if fault then (Err ErrNonceStore, items)
                      else match CheckAndMark mnow sigHex (tolerance v) items with
                           | (true, items') => (Err ErrReplay, items')
                           | (false, items') => (Ok tt, items')
                           end
                    else (Ok tt, items)
                end
       end.
Definition Verify := VerifyContext.

(** ** Theorems *)

Lemma hex_byte_unhex n : (n < 16)%nat -> unhex (hex_byte n) = Some n.
Proof.
  intros H. assert (Hall : forallb (fun n => bool_decide (unhex (hex_byte n) = Some n)) (seq 0 16) = true) by (vm_compute; reflexivity).
  rewrite forallb_forall in Hall. apply (bool_decide_eq_true_1 _), Hall, in_seq. lia.
Qed.

Lemma hex_round_trip s : hex_decode (hex_encode s) = Some s.
Proof.
  induction s as [|c s IH]; [done|]. cbn [hex_encode hex_decode].
  pose proof (nat_ascii_bounded c) as Hc.
  rewrite !hex_byte_unhex by (try apply Nat.Div0.div_lt_upper_bound; try apply Nat.mod_upper_bound; lia).
  rewrite IH, <- Nat.div_mod_eq, ascii_nat_embedding. done.
Qed.

Lemma FormatInt_no_dot n : contains_byte "." (FormatInt n) = false.
Proof.
  unfold FormatInt. destruct (Z.ltb_spec n 0); [|by apply itoa_free].
  cbn [String.append contains_byte]. by rewrite itoa_free by (done || lia).
Qed.

Lemma FormatInt_inj n m : FormatInt n = FormatInt m -> n = m.
Proof.
  assert (Hpos : forall a b, 0 <= a -> 0 <= b -> itoa a = itoa b -> a = b).
  { intros a b Ha Hb H. apply (f_equal (digits_val 0)) in H. rewrite !digits_val_itoa_all in H by done. congruence. }
  assert (Hsign : forall a b, 0 <= b -> "-" +:+ a <> itoa b).
  { intros a b Hb H. pose proof (itoa_digits b Hb) as Hd. by rewrite <- H in Hd. }
  unfold FormatInt. destruct (Z.ltb_spec n 0), (Z.ltb_spec m 0); intros H'.
  - apply (f_equal (str_drop 1)) in H'. cbn [String.append str_drop] in H'. apply Hpos in H'; lia.
  - by apply Hsign in H'; [|lia].
  - symmetry in H'. by apply Hsign in H'; [|lia].
  - by apply Hpos.
Qed.

(** The signed message determines the timestamp and the payload. *)
Lemma framed_inj ts p ts' p' : framed (FormatInt ts) p = framed (FormatInt ts') p' -> ts = ts' /\ p = p'.
Proof.
  unfold framed. change ("." +:+ p) with (String "." p). change ("." +:+ p') with (String "." p').
  intros H. apply append_sep_inj in H as [H ->]; [|apply FormatInt_no_dot..]. split; [by apply FormatInt_inj|done].
Qed.

(** What a freshness check promises, for timestamps within 292 years. *)
Lemma fresh_enough_spec v now ts :
  Z.abs (now - ts * second) < two63 -> - two63 <= ts + unixToInternal < two63 -> 
  fresh_enough v now ts = true <-> Z.abs (now - ts * second) <= tolerance v.
Proof.
  intros Hr Hts. unfold fresh_enough, time_Unix. rewrite wrap64_small by (unfold in_int64; lia).
  replace (ts + unixToInternal - unixToInternal) with ts by lia.
  assert (Hs : Sub now (ts * second) = now - ts * second).
  { unfold Sub. rewrite (proj2 (Z.ltb_ge _ _)), (proj2 (Z.leb_gt _ _)) by lia. done. }
  rewrite Hs, negb_true_iff, Z.ltb_ge. destruct (Z.ltb_spec (now - ts * second) 0).
  - rewrite wrap64_small by (unfold in_int64; lia). lia.
  - lia.
Qed.

(** An accepted delivery was signed: when the presented MAC is not forged, the
    payload and its timestamp are those of one signing under the secret, and
    with the timestamp check on (and a timestamp within the range of a
    Duration) it was signed within the tolerance. *)
Theorem verified_delivery_was_signed v now mnow fault payload header items items' (log : list (Z * string)) :
  VerifyContext v now mnow fault payload header items = (Ok tt, items') ->
  (forall m s, hex_decode s = Some (mac (v_Secret v) m) -> (exists ts, parseHeader header = Ok (ts, s)) ->
     exists e, e ∈ log /\ m = framed (FormatInt e.1) e.2) ->
  exists ts, (ts, payload) ∈ log
    /\ (v_DisableTimestampCheck v = false -> Z.abs (now - ts * second) < two63 ->
        - two63 <= ts + unixToInternal < two63 -> Z.abs (now - ts * second) <= tolerance v).
Proof.
  intros H Hf. unfold VerifyContext in H. destruct (negb (v_hasAlgorithm v)); [done|].
  destruct (String.eqb (v_Secret v) ""); [done|]. destruct (parseHeader header) as [[ts sig]|] eqn:Ep; [|done].
  destruct (negb (v_DisableTimestampCheck v) && negb (fresh_enough v now ts)) eqn:Et; [done|].
  destruct (hex_decode sig) as [supplied|] eqn:Es; [|done].
  destruct (String.eqb_spec (mac (v_Secret v) (framed (FormatInt ts) payload)) supplied) as [Em|]; [|done].
  destruct (Hf (framed (FormatInt ts) payload) sig) as ([ts' p'] & He & Hm); [by rewrite Em|by exists ts|].
  cbn [fst snd] in Hm. apply framed_inj in Hm as [<- <-]. exists ts. split; [done|]. intros Hd Hr Hi.
  rewrite Hd in Et. cbn [negb andb] in Et. apply negb_false_iff in Et. by apply (fresh_enough_spec v now ts Hr Hi).
Qed.

Lemma length_hex s : String.length (hex_encode s) = (2 * String.length s)%nat.
Proof. induction s as [|c s IH]; cbn [hex_encode String.length]; lia. Qed.

Lemma hex_plain s : all_bytes (fun c => is_plain c && negb (Ascii.eqb c ",")) (hex_encode s) = true.
Proof.
  assert (Hall : forallb (fun n => is_plain (hex_byte n) && negb (Ascii.eqb (hex_byte n) ",")) (seq 0 16) = true)
    by (vm_compute; reflexivity).
  rewrite forallb_forall in Hall.
  induction s as [|c s IH]; [done|]. cbn [hex_encode all_bytes]. pose proof (nat_ascii_bounded c) as Hc.
  rewrite IH, !Hall; [done|apply in_seq; split; [lia|]..].
  - apply Nat.mod_upper_bound. lia.
  - apply Nat.Div0.div_lt_upper_bound. lia.
Qed.

Lemma all_bytes_free p c s : p c = false -> all_bytes p s = true -> contains_byte c s = false.
Proof.
  intros Hp. induction s as [|a s IH]; [done|]. cbn. intros [Ha Hs]%andb_true_iff. rewrite IH by done.
  destruct (Ascii.eqb_spec a c) as [->|]; [congruence|done].
Qed.

Lemma parse_signed ts sig :
  0 <= ts < two63 -> sig <> "" ->
  parseHeader ("t=" +:+ itoa ts +:+ ",v1=" +:+ hex_encode sig) = Ok (ts, hex_encode sig).
Proof.
  intros Hts Hsig. pose proof (hex_plain sig) as Hh.
  assert (Hpl : all_bytes is_plain (hex_encode sig) = true)
    by (eapply all_bytes_impl; [|exact Hh]; by intros a [? _]%andb_true_iff).
  assert (Hfree : contains_byte "," (hex_encode sig) = false) by (by apply (all_bytes_free (fun c => is_plain c && negb (Ascii.eqb c ",")))).
  unfold parseHeader. change (String.eqb ("t=" +:+ _) "") with false. cbn iota.
  replace ("t=" +:+ itoa ts +:+ ",v1=" +:+ hex_encode sig) with (("t=" +:+ itoa ts) +:+ String "," ("v1=" +:+ hex_encode sig))
    by (by rewrite append_assoc).
  rewrite split_on_app_sep by (cbn [String.append contains_byte]; by rewrite itoa_free by (done || lia)).
  rewrite split_on_no_sep by (cbn [String.append contains_byte]; by rewrite Hfree).
  cbn [parse_parts]. rewrite !trim_space_plain
    by (cbn [String.append all_bytes]; rewrite ?Hpl, ?itoa_plain by lia; done).
  cbn [String.append index_byte Ascii.eqb Bool.eqb fmap option_fmap option_map String.length str_take str_drop].
  destruct (itoa_cons ts) as (a & r & Hr). rewrite Hr. cbn [String.length Nat.eqb orb]. rewrite <- Hr.
  change (String.eqb "t" "t") with true. cbn iota. rewrite Atoi_itoa by done.
  change (String.eqb "v1" "t") with false. change (String.eqb "v1" "v1") with true. cbn iota.
  rewrite length_hex, Nat.even_mul. destruct sig as [|b sig]; [done|].
  by cbn -[hex_encode Nat.even].
Qed.

(** What is signed verifies, for the payload it was signed for, as long as the
    receiver's clock is within the tolerance of the signer's second. *)
Theorem signed_delivery_verifies s v now now' mnow fault payload items :
  s_hasAlgorithm s = true -> s_Secret s <> "" -> v_hasAlgorithm v = true -> v_Secret v = s_Secret s ->
  v_Nonces v = false -> (forall p, mac (s_Secret s) p <> "") ->
  0 <= Unix now < two63 - unixToInternal -> Z.abs (now' - Unix now * second) < two63 ->
  Z.abs (now' - Unix now * second) <= tolerance v ->
  exists h, Header s now payload = Ok h /\ VerifyContext v now' mnow fault payload h items = (Ok tt, items).
Proof.
  intros Ha Hk Hva Hvk Hn Hmac Hu Hr Ht. unfold Header, Sign. apply String.eqb_neq in Hk. rewrite Ha, Hk. cbn [negb res_bind fst snd].
  assert (Hf : FormatInt (Unix now) = itoa (Unix now)) by (unfold FormatInt; by rewrite (proj2 (Z.ltb_ge _ _)) by lia).
  eexists. split; [done|]. unfold VerifyContext. rewrite Hva, Hvk, Hk, Hf. cbn [negb].
  rewrite parse_signed by (done || unfold unixToInternal in *; lia).
  rewrite (proj2 (fresh_enough_spec v now' (Unix now) Hr ltac:(unfold unixToInternal, two63 in *; lia)) Ht).
  rewrite andb_false_r, hex_round_trip, Hf, String.eqb_refl, Hn. done.
Qed.

(** Within the lifetime of its nonce, a delivery is accepted once. *)
Lemma nonce_is_accepted_once t0 nonce ttl items now :
  (CheckAndMark t0 nonce ttl items).1 = false -> now <= t0 + ttl ->
  (CheckAndMark now nonce ttl (CheckAndMark t0 nonce ttl items).2).1 = true.
Proof.
  unfold CheckAndMark at 1. intros H Hn.
  assert (Hi : (CheckAndMark t0 nonce ttl items).2 !! nonce = Some (t0 + ttl)).
  { unfold CheckAndMark. destruct (items !! nonce) as [exp|]; [destruct (exp <? t0)|]; cbn [negb snd] in *;
      try done; by rewrite lookup_insert_eq. }
  unfold CheckAndMark at 1. rewrite Hi. by rewrite (proj2 (Z.ltb_ge _ _)) by lia.
Qed.

End webhook.

(** ** What replay rejection does not reject *)

Definition toy_mac (secret payload : string) : string := secret +:+ payload.
Definition guard : Verifier := mkVerifier true "key" defaultTolerance false true.
Definition signed_header (now : Z) : string :=
  match Header toy_mac (NewSigner "key") now "pay" with Ok h => h | Err _ => "" end.
Definition start_time : Z := 1700000000 * second.

(** The nonce is the hexadecimal text as it was sent: the same signature with a
    digit in the other case is another nonce. *)
Lemma replay_in_upper_case :
  let h := signed_header start_time in
  let h' := "t=1700000000,v1=6B6579313730303030303030302e706179" in
  let r := VerifyContext toy_mac guard start_time start_time false "pay" h ∅ in
  h = "t=1700000000,v1=6b6579313730303030303030302e706179"
  /\ r.1 = Ok tt
  /\ (VerifyContext toy_mac guard start_time start_time false "pay" h r.2).1 = Err ErrReplay
  /\ (VerifyContext toy_mac guard start_time start_time false "pay" h' r.2).1 = Ok tt.
Proof. vm_compute. split_and!; reflexivity. Qed.

(** A signature of a signer whose clock is ahead outlives its nonce: it stays
    fresh for twice the tolerance. *)
Lemma replay_of_early_signature :
  let h := signed_header (start_time + defaultTolerance) in
  let later := start_time + defaultTolerance + 1 in
  let r := VerifyContext toy_mac guard start_time start_time false "pay" h ∅ in
  r.1 = Ok tt /\ (VerifyContext toy_mac guard later later false "pay" h r.2).1 = Ok tt.
Proof. vm_compute. split; reflexivity. Qed.

(** A timestamp more than 292 years ahead passes the freshness check: the
    difference saturates at the least Duration, whose negation is itself. *)
Lemma far_future_is_fresh : fresh_enough guard start_time 100000000000 = true.
Proof. vm_compute. reflexivity. Qed.
