(* ===== verification/Collect.v ===== *)
(** * Operations on slices (collect/collect.go, collection.go)

    A slice is a list: every function copies what it returns, so nothing is
    shared between its argument and its result.  Loops that append to a result
    are folds over it.  A comparable type has decidable equality ([==] on a
    float64 NaN, which differs from itself, is outside the model), an ordered
    one its [<].  [None] is a panic.

    slices.SortStableFunc is the stable sort; for a comparison that is no strict
    weak order its result is not specified, and nothing is claimed. *)

From S2P Require Import Prelude.
Local Open Scope list_scope.
Local Open Scope Z_scope.

(** slices.SortStableFunc: an element goes before those that were behind it
    and do not compare below it. *)
Fixpoint sort_insert {T} (cmp : T -> T -> Z) (x : T) (l : list T) : list T :=
  match l with
  | [] => [x]
  | y :: l' => if cmp y x <? 0 then y :: sort_insert cmp x l' else x :: l
  end.
Definition SortStableFunc {T} (cmp : T -> T -> Z) (l : list T) : list T := foldr (sort_insert cmp) [] l.

(** ** collect.go *)

Section collect.
Context {T : Type}.
Implicit Types (items : list T) (fn : T -> bool).

Definition Filter items fn : list T := fold_left (fun result item => if fn item then result ++ [item] else result) items [].
Definition Reject items fn : list T :=
  fold_left (fun result item => if negb (fn item) then result ++ [item] else result) items [].
Definition Map {R} items (fn : T -> R) : list R := fn <$> items.
Definition Reduce {R} items (initial : R) (fn : R -> T -> R) : R := fold_left fn items initial.

(** The calls of [fn], in order; [E] is what a call does. *)
Definition Each {E} items (fn : T -> E) : list E := fn <$> items.

Fixpoint Contains items fn : bool :=
  match items with [] => false | item :: items => if fn item then true else Contains items fn end.
Fixpoint Every items fn : bool :=
  match items with [] => true | item :: items => if negb (fn item) then false else Every items fn end.
Fixpoint None' items fn : bool :=
  match items with [] => true | item :: items => if fn item then false else None' items fn end.

Fixpoint First items fn : option T :=
  match items with [] => None | item :: items => if fn item then Some item else First items fn end.
Definition Last items fn : option T := First (reverse items) fn.
Definition FirstWhere := First.

Definition CountBy items fn : Z := fold_left (fun count item => if fn item then count + 1 else count) items 0.

Definition Reverse items : list T := reverse items.

Definition UniqueBy `{Countable K} items (fn : T -> K) : list T :=
  (fold_left (fun '(seen, result) item =>
     if bool_decide (fn item ∈ seen) then (seen, result) else ({[fn item]} ∪ seen, result ++ [item]))
   items ((∅ : gset K), [])).2.

Definition by_key {K} (lt : K -> K -> bool) (fn : T -> K) (a b : T) : Z :=
  if lt (fn a) (fn b) then -1 else if lt (fn b) (fn a) then 1 else 0.
Definition SortBy {K} (lt : K -> K -> bool) items (fn : T -> K) : list T := SortStableFunc (by_key lt fn) items.
Definition SortByDesc {K} (lt : K -> K -> bool) items (fn : T -> K) : list T :=
  SortStableFunc (by_key (fun x y => lt y x) fn) items.
Definition Sort items (less : T -> T -> bool) : list T :=
  SortStableFunc (fun a b => if less a b then -1 else if less b a then 1 else 0) items.

Definition GroupBy `{Countable K} items (fn : T -> K) : gmap K (list T) :=
  fold_left (fun result item => <[fn item := default [] (result !! fn item) ++ [item]]> result) items ∅.
Definition KeyBy `{Countable K} items (fn : T -> K) : gmap K T :=
  fold_left (fun result item => <[fn item := item]> result) items ∅.

(** The loop of Chunk: [fuel] bounds its turns. *)
Fixpoint chunk_loop (fuel : nat) items (size : nat) : list (list T) :=
  match fuel, items with
  | O, _ | _, [] => []
  | S fuel, _ => take size items :: chunk_loop fuel (drop size items) size
  end.

(** A nil result is [Some None]; the capacity asked of make is computed in
    64 bits, and a negative one panics. *)
Definition Chunk items (size : Z) : option (option (list (list T))) :=
  if size <=? 0 then Some None
  else if Z.quot (wrap64 (Z.of_nat (length items) + size - 1)) size <? 0 then None
  else Some (Some (chunk_loop (length items) items (Z.to_nat size))).

Definition FlatMap {R} items (fn : T -> list R) : list R := fold_left (fun result item => result ++ fn item) items [].

Definition Take items (n : Z) : list T :=
  if n <=? 0 then [] else take (Z.to_nat (Z.min n (Z.of_nat (length items)))) items.
Definition Skip items (n : Z) : list T :=
  if n <=? 0 then items else if Z.of_nat (length items) <=? n then [] else drop (Z.to_nat n) items.
Definition Pluck {R} items (fn : T -> R) : list R := Map items fn.

(** [F] with [add]: float64 and its sum. *)
Definition Sum {F} (add : F -> F -> F) (zero : F) items (fn : T -> F) : F :=
  fold_left (fun total item => add total (fn item)) items zero.

Definition Min {K} (lt : K -> K -> bool) items (fn : T -> K) : option T :=
  match items with
  | [] => None
  | first :: items =>
      Some (fold_left (fun '(minItem, minKey) item => if lt (fn item) minKey then (item, fn item) else (minItem, minKey))
              items (first, fn first)).1
  end.
Definition Max {K} (lt : K -> K -> bool) items (fn : T -> K) : option T :=
  match items with
  | [] => None
  | first :: items =>
      Some (fold_left (fun '(maxItem, maxKey) item => if lt maxKey (fn item) then (item, fn item) else (maxItem, maxKey))
              items (first, fn first)).1
  end.

Definition Partition items fn : list T * list T :=
  fold_left (fun '(pass, fail) item => if fn item then (pass ++ [item], fail) else (pass, fail ++ [item])) items ([], []).

Definition Zip {U R} items (b : list U) (fn : T -> U -> R) : list R := zip_with fn items b.

Definition Pop items : list T * option T :=
  match last items with None => ([], None) | Some x => (take (length items - 1) items, Some x) end.
Definition Push items (more : list T) : list T := items ++ more.
Definition When items (condition : bool) (fn : list T -> list T) : list T := if condition then fn items else items.

(** The swaps rand.Shuffle makes. *)
Definition swap (i j : nat) items : list T :=
  match items !! i, items !! j with Some x, Some y => <[i := y]> (<[j := x]> items) | _, _ => items end.
Definition Shuffle (swaps : list (nat * nat)) items : list T :=
  fold_left (fun result '(i, j) => swap i j result) swaps items.
End collect.

Definition Flatten {T} (items : list (list T)) : list T := fold_left (fun result group => result ++ group) items [].
Definition Times {T} (n : Z) (fn : Z -> T) : list T :=
  if n <=? 0 then [] else fn <$> seqZ 0 n.

Section comparable.
Context `{Countable T}.

Definition Unique (items : list T) : list T := UniqueBy items (fun x => x).
Definition set_of (b : list T) : gset T := fold_left (fun set item => {[item]} ∪ set) b ∅.
Definition Intersect (a b : list T) : list T :=
  fold_left (fun result item => if bool_decide (item ∈ set_of b) then result ++ [item] else result) a [].
Definition Diff (a b : list T) : list T :=
  fold_left (fun result item => if negb (bool_decide (item ∈ set_of b)) then result ++ [item] else result) a [].
End comparable.

(** ** collection.go *)

(** A collection is its items; it is never changed. *)
Record Collection (T : Type) := mkCollection { items : list T }.
Arguments mkCollection {T} items.
Arguments items {T} c.

Definition From {T} (l : list T) : Collection T := mkCollection l.
Definition All {T} (c : Collection T) : list T := items c.
Definition Count {T} (c : Collection T) : Z := Z.of_nat (length (items c)).
Definition IsEmpty {T} (c : Collection T) : bool := Count c =? 0.
Definition IsNotEmpty {T} (c : Collection T) : bool := 0 <? Count c.

(** The methods that return a collection. *)
Inductive Method (T : Type) :=
  | CFilter (fn : T -> bool) | CReject (fn : T -> bool) | CReverse | CSort (less : T -> T -> bool)
  | CTake (n : Z) | CSkip (n : Z) | CShuffle (swaps : list (nat * nat)) | CPop | CPush (more : list T)
  | CWhen (condition : bool) (fn : list T -> list T).
Arguments CFilter {T}. Arguments CReject {T}. Arguments CReverse {T}. Arguments CSort {T}. Arguments CTake {T}.
Arguments CSkip {T}. Arguments CShuffle {T}. Arguments CPop {T}. Arguments CPush {T}. Arguments CWhen {T}.

Definition call {T} (m : Method T) (c : Collection T) : Collection T :=
  mkCollection (match m with
    | CFilter fn => Filter (items c) fn
    | CReject fn => Reject (items c) fn
    | CReverse => Reverse (items c)
    | CSort less => Sort (items c) less
    | CTake n => Take (items c) n
    | CSkip n => Skip (items c) n
    | CShuffle swaps => Shuffle swaps (items c)
    | CPop => (Pop (items c)).1
    | CPush more => Push (items c) more
    | CWhen condition fn => When (items c) condition fn
    end).

(** ** Theorems *)

Section theorems.
Context {T : Type}.
Implicit Types (l : list T).

Lemma fold_append (p : T -> bool) l acc :
  fold_left (fun result item => if p item then result ++ [item] else result) l acc = acc ++ List.filter p l.
Proof.
  revert acc. induction l as [|x l IH]; intros acc; cbn; [by rewrite app_nil_r|]. rewrite IH.
  destruct (p x); [by rewrite <- app_assoc|done].
Qed.

Lemma Filter_filter l fn : Filter l fn = List.filter fn l.
Proof. apply fold_append. Qed.
Lemma Reject_filter l fn : Reject l fn = List.filter (fun x => negb (fn x)) l.
Proof. apply (fold_append (fun x => negb (fn x))). Qed.

(** Partition is Filter and Reject, and loses nothing. *)
Lemma Partition_splits l fn :
  Partition l fn = (Filter l fn, Reject l fn) /\ l ≡ₚ (Partition l fn).1 ++ (Partition l fn).2.
Proof.
  rewrite Filter_filter, Reject_filter. unfold Partition.
  assert (H : forall a b, fold_left (fun '(pass, fail) item => if fn item then (pass ++ [item], fail) else (pass, fail ++ [item])) l (a, b)
    = (a ++ List.filter fn l, b ++ List.filter (fun x => negb (fn x)) l)).
  { induction l as [|x l IH]; intros a b; cbn; [by rewrite !app_nil_r|].
    destruct (fn x); cbn; rewrite IH; by rewrite <- app_assoc. }
  rewrite H. split; [done|]. cbn. clear H. induction l as [|x l IH]; [done|]. cbn.
  destruct (fn x); cbn; [by f_equiv|]. by rewrite IH at 1; rewrite Permutation_middle.
Qed.

(** *** Sorting *)

Class StrictWeak (less : T -> T -> bool) : Prop := {
  sw_irr x : less x x = false;
  sw_trans x y z : less x y = true -> less y z = true -> less x z = true;
  sw_split x y z : less x z = true -> less x y = true \/ less y z = true
}.

Definition same_place (less : T -> T -> bool) (x y : T) : bool := negb (less x y) && negb (less y x).

Section sort.
Context (less : T -> T -> bool) {SW : StrictWeak less}.
Let cmp (a b : T) : Z := if less a b then -1 else if less b a then 1 else 0.
Let below (a b : T) : Prop := less b a = false.

Lemma cmp_less a b : (cmp a b <? 0) = less a b.
Proof using Type. unfold cmp. by destruct (less a b), (less b a). Qed.

Lemma below_trans x y z : below x y -> below y z -> below x z.
Proof using SW.
  unfold below. intros H1 H2. destruct (less z x) eqn:E; [|done]. destruct (sw_split z y x E); congruence.
Qed.

Lemma less_asym x y : less x y = true -> less y x = false.
Proof using SW.
  intros H. destruct (less y x) eqn:E; [|done]. pose proof (sw_trans x y x H E). pose proof (sw_irr (less := less) x). congruence.
Qed.

Lemma sort_insert_perm x l : sort_insert cmp x l ≡ₚ x :: l.
Proof using Type. induction l as [|y l IH]; cbn; [done|]. destruct (cmp y x <? 0); [|done]. rewrite IH. constructor. Qed.

Lemma sort_insert_sorted x l : StronglySorted below l -> StronglySorted below (sort_insert cmp x l).
Proof using SW.
  induction 1 as [|y l Hl IH Hy]; cbn; [by repeat constructor|]. rewrite cmp_less. destruct (less y x) eqn:E.
  - constructor; [done|]. rewrite sort_insert_perm. constructor; [by apply less_asym|done].
  - constructor; [by constructor|]. constructor; [done|]. eapply Forall_impl; [exact Hy|]. intros z. by apply below_trans.
Qed.

(** The elements in one place keep their order. *)
Lemma sort_insert_stable x l v :
  List.filter (same_place less v) (sort_insert cmp x l) = List.filter (same_place less v) (x :: l).
Proof using SW.
  induction l as [|y l IH]; [done|]. cbn [sort_insert]. rewrite cmp_less. destruct (less y x) eqn:E; [|done].
  cbn [List.filter]. rewrite IH. cbn [List.filter]. unfold same_place.
  destruct (less v y) eqn:E1, (less y v) eqn:E2, (less v x) eqn:E3, (less x v) eqn:E4; cbn; try done. exfalso.
  destruct (sw_split y v x E); congruence.
Qed.

(** Sort with a strict weak order returns the items, in order, those in one
    place in the order they came in. *)
Theorem sort_is_sorted_and_stable l :
  Sort l less ≡ₚ l /\ StronglySorted below (Sort l less)
  /\ forall v, List.filter (same_place less v) (Sort l less) = List.filter (same_place less v) l.
Proof using SW.
  unfold Sort, SortStableFunc. change (fun a b : T => if less a b then -1 else if less b a then 1 else 0) with cmp.
  induction l as [|x l (IH1 & IH2 & IH3)]; cbn [foldr]; [split_and!; by constructor|]. split_and!.
  - by rewrite sort_insert_perm, IH1.
  - by apply sort_insert_sorted.
  - intros v. rewrite sort_insert_stable. cbn. by rewrite IH3.
Qed.
End sort.

(** *** Chunks *)

Lemma chunk_loop_concat fuel l n : (0 < n)%nat -> (length l <= fuel)%nat -> concat (chunk_loop fuel l n) = l.
Proof.
  intros Hn. revert l. induction fuel as [|fuel IH]; intros [|x l] Hl; cbn [chunk_loop length] in *; try done; [lia|].
  cbn [concat]. rewrite IH; [apply take_drop|]. rewrite length_drop. cbn. lia.
Qed.

Lemma chunk_loop_sizes fuel l n i c :
  (0 < n)%nat -> chunk_loop fuel l n !! i = Some c ->
  (0 < length c <= n)%nat /\ (is_Some (chunk_loop fuel l n !! S i) -> length c = n).
Proof.
  intros Hn. revert l i. induction fuel as [|fuel IH]; intros [|x l] i; cbn [chunk_loop]; try done.
  destruct i as [|i]; cbn [lookup list_lookup]; [|by apply IH]. intros [= <-].
  rewrite length_take. cbn [length]. split; [lia|]. intros [c' Hc'].
  destruct fuel as [|fuel]; [by destruct (drop n (x :: l))|].
  destruct (drop n (x :: l)) as [|y r] eqn:E; [done|]. pose proof (length_drop (x :: l) n) as Hl. rewrite E in Hl. cbn in Hl. lia.
Qed.

(** The chunks of a slice, joined, are the slice; each is nonempty and, but
    for the last, of the size asked for. *)
Theorem chunks_rejoin l size :
  0 < size -> Z.of_nat (length l) + size - 1 < two63 ->
  exists chunks, Chunk l size = Some (Some chunks) /\ Flatten chunks = l
    /\ forall i c, chunks !! i = Some c ->
       0 < Z.of_nat (length c) <= size /\ (is_Some (chunks !! S i) -> Z.of_nat (length c) = size).
Proof.
  intros Hs Hb. unfold Chunk. rewrite (proj2 (Z.leb_gt _ _)) by lia.
  rewrite wrap64_small by (unfold in_int64, two63 in *; lia).
  rewrite (proj2 (Z.ltb_ge _ _)) by (apply Z.quot_pos; lia). eexists. split; [done|]. split.
  - unfold Flatten. assert (Hf : forall (ls : list (list T)) acc, fold_left (fun r g => r ++ g) ls acc = acc ++ concat ls).
    { induction ls as [|g ls IH]; intros acc; cbn; [by rewrite app_nil_r|]. by rewrite IH, <- app_assoc. }
    rewrite Hf. apply chunk_loop_concat; lia.
  - intros i c Hc. apply chunk_loop_sizes in Hc as [H1 H2]; [|lia]. split; [lia|]. intros H%H2. lia.
Qed.

(** A size near the largest int overflows the capacity, and make panics. *)
Lemma huge_chunks_panic (x y : T) : Chunk [x; y] (two63 - 1) = None.
Proof. reflexivity. Qed.

(** *** Grouping *)

Lemma GroupBy_groups `{Countable K} l (fn : T -> K) k :
  GroupBy l fn !! k = match List.filter (fun x => bool_decide (fn x = k)) l with [] => None | g => Some g end.
Proof.
  unfold GroupBy. assert (Hg : forall acc : gmap K (list T),
    fold_left (fun result item => <[fn item := default [] (result !! fn item) ++ [item]]> result) l acc !! k
    = match List.filter (fun x => bool_decide (fn x = k)) l with [] => acc !! k | g => Some (default [] (acc !! k) ++ g) end).
  { induction l as [|x l IH]; intros acc; [done|]. cbn [fold_left List.filter]. rewrite IH.
    destruct (decide (fn x = k)) as [<-|Hne].
    - rewrite bool_decide_eq_true_2, lookup_insert_eq by done. cbn [default from_option]. unfold id.
      destruct (List.filter _ l); [done|]. by rewrite <- app_assoc.
    - rewrite bool_decide_eq_false_2, lookup_insert_ne by done. done. }
  rewrite Hg, lookup_empty. by destruct (List.filter _ l).
Qed.

(** *** Uniqueness *)

(** UniqueBy keeps one item of each key, in order. *)
Lemma UniqueBy_spec `{Countable K} l (fn : T -> K) :
  NoDup (fn <$> UniqueBy l fn) /\ (forall k, k ∈ fn <$> UniqueBy l fn <-> k ∈ fn <$> l)
  /\ sublist (UniqueBy l fn) l.
Proof.
  unfold UniqueBy. assert (Hu : forall (seen : gset K) res, NoDup (fn <$> res) -> (forall k, k ∈ fn <$> res <-> k ∈ seen) ->
    let r := (fold_left (fun '(seen, result) item =>
       if bool_decide (fn item ∈ seen) then (seen, result) else ({[fn item]} ∪ seen, result ++ [item])) l (seen, res)).2 in
    NoDup (fn <$> r) /\ (forall k, k ∈ fn <$> r <-> k ∈ seen \/ k ∈ fn <$> l)
    /\ exists s, r = res ++ s /\ sublist s l).
  { induction l as [|x l IH]; intros seen res Hnd Hs; cbn [fold_left snd].
    - split_and!; [done|intros k; rewrite Hs; cbn; set_solver|exists []; by rewrite app_nil_r].
    - case_bool_decide as Hx.
      + destruct (IH seen res Hnd Hs) as (H1 & H2 & s & H3 & H4). split_and!; [done| |exists s; split; [done|by constructor]].
        intros k. rewrite H2. cbn. rewrite elem_of_cons. split; [tauto|]. intros [|[->|]]; auto.
      + destruct (IH ({[fn x]} ∪ seen) (res ++ [x])) as (H1 & H2 & s & H3 & H4).
        * rewrite fmap_app. apply NoDup_app. split_and!; [done| |apply NoDup_singleton].
          intros k Hk. cbn. rewrite list_elem_of_singleton. intros ->. by apply Hx, Hs.
        * intros k. rewrite fmap_app, elem_of_app, Hs. cbn. rewrite list_elem_of_singleton. set_solver.
        * split_and!; [done| |exists (x :: s); rewrite H3, <- app_assoc; split; [done|by constructor]].
          intros k. rewrite H2. cbn. rewrite elem_of_cons. set_solver. }
  destruct (Hu ∅ []) as (H1 & H2 & s & H3 & H4); [constructor|set_solver|]. split_and!; [done| |by rewrite H3].
  intros k. rewrite H2. set_solver.
Qed.

(** *** Extremes *)

(** Min returns an item with the least key. *)
Lemma Min_least {K} (lt : K -> K -> bool) (fn : T -> K) x l :
  (forall a b c, lt a c = true -> lt a b = true \/ lt b c = true) -> (forall a b, lt a b = true -> lt b a = false) ->
  exists m, Min lt (x :: l) fn = Some m /\ m ∈ x :: l /\ Forall (fun y => lt (fn y) (fn m) = false) (x :: l).
Proof.
  intros Hsplit Hasym. assert (Hirr : forall a, lt a a = false).
  { intros a. destruct (lt a a) eqn:E; [|done]. by rewrite (Hasym _ _ E) in E. }
  unfold Min. eexists. split; [done|].
  assert (Hm : forall m, let r := fold_left (fun '(minItem, minKey) item =>
      if lt (fn item) minKey then (item, fn item) else (minItem, minKey)) l (m, fn m) in
    r.2 = fn r.1 /\ r.1 ∈ m :: l /\ Forall (fun y => lt (fn y) (fn r.1) = false) (m :: l)).
  { induction l as [|y l IH]; intros m; cbn [fold_left].
    - split_and!; [done|by left|by constructor].
    - destruct (lt (fn y) (fn m)) eqn:E.
      + destruct (IH y) as (H1 & H2 & H3). split_and!; [done|by right|]. constructor; [|done].
        apply Forall_cons in H3 as [H3y H3l]. destruct (lt (fn m) _) eqn:E2; [|done].
        destruct (Hsplit _ (fn y) _ E2) as [E3|]; [|congruence]. by rewrite (Hasym _ _ E) in E3.
      + destruct (IH m) as (H1 & H2 & H3). split_and!; [exact H1| |].
        { apply elem_of_cons in H2 as [H2|H2]; apply elem_of_cons; [by left|right; apply elem_of_cons; by right]. }
        apply Forall_cons in H3 as [H3m H3l]. constructor; [done|]. constructor; [|done].
        match goal with |- ?b = false => destruct b eqn:E2; [|done] end. exfalso.
        destruct (Hsplit _ (fn m) _ E2); congruence. }
  by destruct (Hm x) as (_ & H2 & H3).
Qed.
End theorems.
