(* ===== verification/ValidationRules.v ===== *)
(** * The validation rules (validation/rules, validation/rules.go)

    A value is what a decoded request holds: the dynamic types the rules
    switch on, [VOther] for any other.  Maps are association lists with
    distinct keys.  A rule returns the message of its failure.  float64 is
    Stdlib's binary64 ([spec_float]).  [fmt]'s rendering of composite values,
    [strconv.ParseFloat], the Unicode tables and the rules that need a mail,
    URL, date, regular expression or file parser are arguments. *)

From S2P Require Import Prelude GoStrings IpClass NetAddr.
From Stdlib Require Import Ascii String Floats.SpecFloat.

Local Open Scope string_scope.
Local Open Scope list_scope.
Local Open Scope Z_scope.

(** ** Values *)

Inductive int_kind := KInt | KInt8 | KInt16 | KInt32 | KInt64 | KUint | KUint8 | KUint16 | KUint32 | KUint64.
#[export] Instance int_kind_eq_dec : EqDecision int_kind.
Proof. solve_decision. Defined.

Inductive value :=
  | VNil
  | VString (s : string)
  | VBool (b : bool)
  | VInt (k : int_kind) (z : Z)
  | VFloat32 (f : spec_float)
  | VFloat64 (f : spec_float)
  | VList (l : list value)             (* []interface{} *)
  | VStrings (l : list string)
  | VInts (l : list Z)
  | VFloats (l : list spec_float)
  | VMap (m : list (string * value))   (* map[string]interface{} *)
  | VOther (n : nat).

Abbreviation data_map := (list (string * value)).

Fixpoint assoc {A} (k : string) (m : list (string * A)) : option A :=
  match m with
  | [] => None
  | (k', a) :: m => if String.eqb k k' then Some a else assoc k m
  end.

(** [data[k]]: nil when the key is missing. *)
Definition index (m : data_map) (k : string) : value := default VNil (assoc k m).

(** [reflect.DeepEqual]. *)
Fixpoint DeepEqual (v w : value) {struct v} : bool :=
  match v, w with
  | VNil, VNil => true
  | VString a, VString b => String.eqb a b
  | VBool a, VBool b => Bool.eqb a b
  | VInt k a, VInt k' b => bool_decide (k = k') && (a =? b)
  | VFloat32 a, VFloat32 b | VFloat64 a, VFloat64 b => SFeqb a b
  | VList a, VList b =>
      (fix all a b := match a, b with
                      | [], [] => true
                      | x :: a, y :: b => DeepEqual x y && all a b
                      | _, _ => false
                      end) a b
  | VStrings a, VStrings b => bool_decide (a = b)
  | VInts a, VInts b => bool_decide (a = b)
  | VFloats a, VFloats b =>
      (fix all a b := match a, b with
                      | [], [] => true
                      | x :: a, y :: b => SFeqb x y && all a b
                      | _, _ => false
                      end) a b
  | VMap a, VMap b =>
      (List.length a =? List.length b)%nat &&
      (fix all a := match a with
                    | [] => true
                    | (k, x) :: a => match assoc k b with Some y => DeepEqual x y | None => false end && all a
                    end) a
  | VOther a, VOther b => (a =? b)%nat
  | _, _ => false
  end.

(** A rule: the field, its value, the parameters, the input; the message of
    the failure. *)
Definition RuleHandler : Type := string -> value -> list string -> option data_map -> option string.

(** [data[k]] with whether the key is there; a nil map has no keys. *)
Definition lookup_in (data : option data_map) (k : string) : option value := m ← data; assoc k m.

Definition the (field rest : string) : string := "The " +:+ field +:+ " field " +:+ rest.
Definition itoaZ (n : Z) : string := if n <? 0 then "-" +:+ itoa (- n) else itoa n.

(** ** Presence (validation/rules.go, rules/conditional.go) *)

Definition checkRequired (field : string) (v : value) : option string :=
  match v with
  | VNil | VString "" | VList [] | VStrings [] | VMap [] => Some (the field "is required.")
  | _ => None
  end.

Definition requiredRule : RuleHandler := fun field v _ _ => checkRequired field v.
Definition nullableRule : RuleHandler := fun _ _ _ _ => None.
Definition filledRule : RuleHandler := fun field v _ _ =>
  match v with
  | VString "" | VList [] => Some (the field "must not be empty when present.")
  | _ => None
  end.

(** The walk of a dotted path, down to the map of its last part. *)
Fixpoint walk (m : data_map) (parts : list string) : option (data_map * string) :=
  match parts with
  | [] => None
  | [p] => Some (m, p)
  | p :: ps => match index m p with VMap m' => walk m' ps | _ => None end
  end.

Definition getFieldValue (m : data_map) (field : string) : value :=
  match walk m (split_on "." field) with Some (m', p) => index m' p | None => VNil end.

Definition fieldExists (m : data_map) (field : string) : bool :=
  match walk m (split_on "." field) with
  | Some (m', p) => match assoc p m' with Some _ => true | None => false end
  | None => false
  end.

Definition presentRule : RuleHandler := fun field _ _ data =>
  match data with
  | Some m => if negb (fieldExists m field) then Some (the field "must be present.") else None
  | None => None
  end.

(** ** Types (rules/numeric.go, rules/string.go) *)

Definition StringRule : RuleHandler := fun field v _ _ =>
  match v with VNil | VString _ => None | _ => Some (the field "must be a string.") end.

(** [f == float64(int64(f))]: a whole number within int64. *)
Definition is_whole (f : spec_float) : bool :=
  match f with
  | S754_zero _ => true
  | S754_finite s m e =>
      let n := if s then - Z.pos m else Z.pos m in
      let v := if e <? 0 then Z.quot n (2 ^ (- e)) else n * 2 ^ e in
      (if e <? 0 then n mod 2 ^ (- e) =? 0 else true) && (- two63 <=? v) && (v <? two63)
  | _ => false
  end.

Definition IntegerRule : RuleHandler := fun field v _ _ =>
  let bad := Some (the field "must be an integer.") in
  match v with
  | VNil | VInt _ _ => None
  | VFloat32 f | VFloat64 f => if is_whole f then None else bad
  | VString s => match Atoi s with Some _ => None | None => bad end
  | _ => bad
  end.

Definition BooleanRule : RuleHandler := fun field v _ _ =>
  let bad := Some (the field "must be a boolean.") in
  match v with
  | VNil | VBool _ => None
  | VString s => if existsb (String.eqb s) ["true"; "false"; "1"; "0"; "yes"; "no"] then None else bad
  | VInt KInt z => if (z =? 0) || (z =? 1) then None else bad
  | _ => bad
  end.

Definition ArrayRule : RuleHandler := fun field v _ _ =>
  match v with
  | VNil | VList _ | VStrings _ | VInts _ | VFloats _ => None
  | _ => Some (the field "must be an array.")
  end.

(** A rule on a string that matches a character class throughout, [^[...]+$]. *)
Definition class_rule (p : ascii -> bool) (msg : string) : RuleHandler := fun field v _ _ =>
  match v with
  | VNil => None
  | VString s => if negb (String.eqb s "") && all_bytes p s then None else Some (the field msg)
  | _ => Some (the field "must be a string.")
  end.

Definition is_letter (c : ascii) : bool :=
  let v := byte_val c in ((65 <=? v) && (v <=? 90)) || ((97 <=? v) && (v <=? 122)).
Definition AlphaRule : RuleHandler := class_rule is_letter "must contain only alphabetic characters.".
Definition AlphaDashRule : RuleHandler :=
  class_rule (fun c => is_letter c || is_digit c || Ascii.eqb c "_" || Ascii.eqb c "-")
    "must contain only letters, numbers, dashes, and underscores.".
Definition AlphaNumRule : RuleHandler :=
  class_rule (fun c => is_letter c || is_digit c) "must contain only letters and numbers.".

(** ** Sizes (rules/string.go) *)

(** [float64(n)]. *)
Definition of_int (n : Z) : spec_float := binary_normalize 53 1024 n 0 false.

(** What [min] and [max] compare, and the words of the message. *)
Inductive measure := MLen (n : Z) | MInt (n : Z) | MFloat (f : spec_float) | MItems (n : Z).

Definition measured (v : value) : option measure :=
  match v with
  | VString s => Some (MLen (Z.of_nat (String.length s)))
  | VInt KInt z => Some (MInt z)
  | VFloat64 f => Some (MFloat f)
  | VList l => Some (MItems (Z.of_nat (List.length l)))
  | VStrings l => Some (MItems (Z.of_nat (List.length l)))
  | _ => None
  end.

Definition MinRule : RuleHandler := fun field v params _ =>
  match v with VNil => None | _ =>
  match params with
  | [p] =>
      match Atoi p with
      | None => Some "The min parameter must be a number."
      | Some min =>
          match measured v with
          | Some (MLen n) => if n <? min then Some (the field ("must be at least " +:+ itoaZ min +:+ " characters.")) else None
          | Some (MInt n) => if n <? min then Some (the field ("must be at least " +:+ itoaZ min +:+ ".")) else None
          | Some (MFloat f) => if SFltb f (of_int min) then Some (the field ("must be at least " +:+ itoaZ min +:+ ".")) else None
          | Some (MItems n) => if n <? min then Some (the field ("must have at least " +:+ itoaZ min +:+ " items.")) else None
          | None => Some (the field "type is not supported for the min rule.")
          end
      end
  | _ => Some "The min rule requires 1 parameter."
  end end.

Definition MaxRule : RuleHandler := fun field v params _ =>
  match v with VNil => None | _ =>
  match params with
  | [p] =>
      match Atoi p with
      | None => Some "The max parameter must be a number."
      | Some max =>
          match measured v with
          | Some (MLen n) => if max <? n then Some (the field ("must not exceed " +:+ itoaZ max +:+ " characters.")) else None
          | Some (MInt n) => if max <? n then Some (the field ("must not exceed " +:+ itoaZ max +:+ ".")) else None
          | Some (MFloat f) => if SFltb (of_int max) f then Some (the field ("must not exceed " +:+ itoaZ max +:+ ".")) else None
          | Some (MItems n) => if max <? n then Some (the field ("must not have more than " +:+ itoaZ max +:+ " items.")) else None
          | None => Some (the field "type is not supported for the max rule.")
          end
      end
  | _ => Some "The max rule requires 1 parameter."
  end end.

Definition SizeRule : RuleHandler := fun field v params _ =>
  match v with VNil => None | _ =>
  match params with
  | [p] =>
      match Atoi p with
      | None => Some "The size parameter must be a number."
      | Some size =>
          match measured v with
          | Some (MLen n) => if n =? size then None else Some (the field ("must be exactly " +:+ itoaZ size +:+ " characters."))
          | Some (MInt n) => if n =? size then None else Some (the field ("must be exactly " +:+ itoaZ size +:+ "."))
          | Some (MItems n) => if n =? size then None else Some (the field ("must have exactly " +:+ itoaZ size +:+ " items."))
          | _ => Some (the field "type is not supported for the size rule.")
          end
      end
  | _ => Some "The size rule requires 1 parameter."
  end end.

Definition BetweenRule : RuleHandler := fun field v params _ =>
  match v with VNil => None | _ =>
  match params with
  | [p; q] =>
      match Atoi p, Atoi q with
      | Some min, Some max =>
          let range := itoaZ min +:+ " and " +:+ itoaZ max in
          let inside n := (min <=? n) && (n <=? max) in
          match v with
          | VString s =>
              match Atoi s with
              | Some n => if inside n then None else Some (the field ("must be between " +:+ range +:+ "."))
              | None => if inside (Z.of_nat (String.length s)) then None
                        else Some (the field ("must be between " +:+ range +:+ " characters."))
              end
          | VInt KInt n => if inside n then None else Some (the field ("must be between " +:+ range +:+ "."))
          | VFloat64 f =>
              if SFltb f (of_int min) || SFltb (of_int max) f then Some (the field ("must be between " +:+ range +:+ ".")) else None
          | VList l => if inside (Z.of_nat (List.length l)) then None
                       else Some (the field ("must have between " +:+ range +:+ " items."))
          | _ => Some (the field "type is not supported for the between rule.")
          end
      | _, _ => Some "The between parameters must be numbers."
      end
  | _ => Some "The between rule requires 2 parameters."
  end end.

(** ** Comparisons (rules/comparison.go) *)

Definition SameRule : RuleHandler := fun field v params data =>
  match v with VNil => None | _ =>
  match params with
  | [other] =>
      let bad := Some (the field ("must match " +:+ other +:+ ".")) in
      match lookup_in data other with
      | None => bad
      | Some w => if DeepEqual v w then None else bad
      end
  | _ => Some "The same rule requires 1 parameter."
  end end.

Definition DifferentRule : RuleHandler := fun field v params data =>
  match v with VNil => None | _ =>
  match params with
  | [other] =>
      match lookup_in data other with
      | None => None
      | Some w => if DeepEqual v w then Some (the field ("must be different from " +:+ other +:+ ".")) else None
      end
  | _ => Some "The different rule requires 1 parameter."
  end end.

Definition ConfirmedRule : RuleHandler := fun field v _ data =>
  match v with VNil => None | _ =>
  let bad := Some ("The " +:+ field +:+ " confirmation does not match.") in
  match lookup_in data (field +:+ "_confirmation") with
  | None => bad
  | Some w => if DeepEqual v w then None else bad
  end end.

Definition AcceptedRule : RuleHandler := fun field v _ _ =>
  let bad := Some (the field "must be accepted.") in
  match v with
  | VBool b => if b then None else bad
  | VString s => if existsb (String.eqb (to_lower s)) ["yes"; "on"; "1"; "true"] then None else bad
  | VInt KInt z => if z =? 1 then None else bad
  | _ => bad
  end.

(** ** Formats (rules/network.go, rules/format.go, rules/string_match.go) *)

Definition IPRule : RuleHandler := fun field v _ _ =>
  let bad := Some (the field "must be a valid IP address.") in
  match v with
  | VNil => None
  | VString s => if String.eqb s "" then bad else match ParseIP s with Some _ => None | None => bad end
  | _ => bad
  end.

Definition IPv4Rule : RuleHandler := fun field v _ _ =>
  let bad := Some (the field "must be a valid IPv4 address.") in
  match v with
  | VNil => None
  | VString s =>
      if String.eqb s "" then bad
      else match ParseIP s with Some ip => match To4 ip with Some _ => None | None => bad end | None => bad end
  | _ => bad
  end.

Definition IPv6Rule : RuleHandler := fun field v _ _ =>
  let bad := Some (the field "must be a valid IPv6 address.") in
  match v with
  | VNil => None
  | VString s =>
      if String.eqb s "" then bad
      else match ParseIP s with Some ip => match To4 ip with Some _ => bad | None => None end | None => bad end
  | _ => bad
  end.

Definition is_hex (c : ascii) : bool := match unhex c with Some _ => true | None => false end.

(** [uuidRegex]: groups of 8, 4, 4, 4 and 12 hexadecimal digits. *)
Definition is_uuid (s : string) : bool :=
  let groups := split_on "-" s in
  forallb (all_bytes is_hex) groups && bool_decide (map String.length groups = [8; 4; 4; 4; 12]%nat).

Definition UUIDRule : RuleHandler := fun field v _ _ =>
  let bad := Some (the field "must be a valid UUID.") in
  match v with VNil => None | VString s => if is_uuid s then None else bad | _ => bad end.

(** [ulidRegex]: 26 of Crockford's characters. *)
Definition is_crockford (c : ascii) : bool :=
  is_digit c || existsb (Ascii.eqb c) (list_ascii_of_string "ABCDEFGHJKMNPQRSTVWXYZ").

Definition ULIDRule : RuleHandler := fun field v _ _ =>
  let bad := Some (the field "must be a valid ULID.") in
  match v with
  | VNil => None
  | VString s =>
      let u := to_upper s in
      if (String.length u =? 26)%nat && all_bytes is_crockford u then None else bad
  | _ => bad
  end.

Definition StartsWithRule : RuleHandler := fun field v params _ =>
  match v with VNil => None | _ =>
  match params with
  | [] => Some "The starts_with rule requires at least 1 parameter."
  | _ =>
      match v with
      | VString s =>
          if existsb (fun p => negb (String.eqb p "") && has_prefix p s) params then None
          else Some (the field ("must start with one of the following: " +:+ join ", " params +:+ "."))
      | _ => Some (the field "must be a string.")
      end
  end end.

Definition has_suffix (p s : string) : bool :=
  (String.length p <=? String.length s)%nat && String.eqb (str_drop (String.length s - String.length p) s) p.

Definition EndsWithRule : RuleHandler := fun field v params _ =>
  match v with VNil => None | _ =>
  match params with
  | [] => Some "The ends_with rule requires at least 1 parameter."
  | _ =>
      match v with
      | VString s =>
          if existsb (fun p => negb (String.eqb p "") && has_suffix p s) params then None
          else Some (the field ("must end with one of the following: " +:+ join ", " params +:+ "."))
      | _ => Some (the field "must be a string.")
      end
  end end.

(** ** Rules over the libraries' arguments *)

Section Libraries.
Variable show_composite : value -> string.            (* [%v] of what is not a string, bool or integer *)
Variable ParseFloat : string -> option spec_float.
Variable formatFloat : spec_float -> string.
Variable Quote : string -> string.                    (* [%q] *)
Variables IsUpper IsLower IsDigit IsPunct IsSymbol : Z -> bool.   (* package unicode *)

Definition Sprint (v : value) : string :=
  match v with
  | VString s => s
  | VBool b => if b then "true" else "false"
  | VInt _ z => itoaZ z
  | VNil => "<nil>"
  | _ => show_composite v
  end.

Definition NumericRule : RuleHandler := fun field v _ _ =>
  let bad := Some (the field "must be numeric.") in
  match v with
  | VNil | VInt _ _ | VFloat32 _ | VFloat64 _ => None
  | VString s => match ParseFloat s with Some _ => None | None => bad end
  | _ => bad
  end.

Definition InRule : RuleHandler := fun field v params _ =>
  match v with VNil => None | _ =>
  match params with
  | [] => Some "The in rule requires at least 1 parameter."
  | _ => if existsb (String.eqb (Sprint v)) params then None
         else Some ("The selected " +:+ field +:+ " is invalid.")
  end end.

Definition NotInRule : RuleHandler := fun field v params _ =>
  match v with VNil => None | _ =>
  match params with
  | [] => Some "The not_in rule requires at least 1 parameter."
  | _ => if existsb (String.eqb (Sprint v)) params then Some ("The selected " +:+ field +:+ " is invalid.")
         else None
  end end.

Definition RequiredIfRule : RuleHandler := fun field v params data =>
  match params with
  | other :: expected :: _ =>
      match lookup_in data other with
      | None => None
      | Some w => if String.eqb (Sprint w) expected then checkRequired field v else None
      end
  | _ => Some "The required_if rule requires at least 2 parameters."
  end.

Definition RequiredUnlessRule : RuleHandler := fun field v params data =>
  match params with
  | other :: exempt :: _ =>
      match lookup_in data other with
      | Some w => if String.eqb (Sprint w) exempt then None else checkRequired field v
      | None => checkRequired field v
      end
  | _ => Some "The required_unless rule requires at least 2 parameters."
  end.

Definition has_key (data : option data_map) (k : string) : bool :=
  match lookup_in data k with Some _ => true | None => false end.

Definition RequiredWithRule : RuleHandler := fun field v params data =>
  match params with
  | [] => Some "The required_with rule requires at least 1 parameter."
  | _ => if existsb (has_key data) params then checkRequired field v else None
  end.

Definition RequiredWithoutRule : RuleHandler := fun field v params data =>
  match params with
  | [] => Some "The required_without rule requires at least 1 parameter."
  | _ => if existsb (fun k => negb (has_key data k)) params then checkRequired field v else None
  end.

(** rules/numeric_compare.go. *)
Definition toFloat (v : value) : option spec_float :=
  match v with
  | VInt (KInt | KInt32 | KInt64 | KUint | KUint32 | KUint64) z => Some (of_int z)
  | VFloat32 f | VFloat64 f => Some f
  | VString s => ParseFloat s
  | _ => None
  end.

Definition resolveThreshold (raw : string) (data : option data_map) : option spec_float :=
  match ParseFloat raw with
  | Some f => Some f
  | None => w ← lookup_in data raw; toFloat w
  end.

Definition compareNumeric (rule : string) (cmp : spec_float -> spec_float -> bool) (phrase : string) : RuleHandler :=
  fun field v params data =>
  match v with VNil => None | _ =>
  match params with
  | p :: _ =>
      if String.eqb p "" then Some ("The " +:+ rule +:+ " rule requires 1 parameter.")
      else match toFloat v with
           | None => Some (the field "must be numeric.")
           | Some a =>
               match resolveThreshold p data with
               | None => Some ("The " +:+ rule +:+ " rule parameter " +:+ Quote p +:+ " must be numeric or an existing numeric field.")
               | Some t => if cmp a t then None
                           else Some (the field ("must be " +:+ phrase +:+ " " +:+ formatFloat t +:+ "."))
               end
           end
  | [] => Some ("The " +:+ rule +:+ " rule requires 1 parameter.")
  end end.

Definition GtRule : RuleHandler := compareNumeric "gt" (fun a b => SFltb b a) "greater than".
Definition GteRule : RuleHandler := compareNumeric "gte" (fun a b => SFleb b a) "greater than or equal to".
Definition LtRule : RuleHandler := compareNumeric "lt" SFltb "less than".
Definition LteRule : RuleHandler := compareNumeric "lte" SFleb "less than or equal to".

(** Ranging over a string: its runes, with U+FFFD for a byte that starts
    none. *)
Definition rune_bounds (b : Z) : option (nat * Z * Z * Z) :=   (* tail bytes, lead bits, range of the second *)
  if (0xC2 <=? b) && (b <=? 0xDF) then Some (1%nat, b - 0xC0, 0x80, 0xBF)
  else if b =? 0xE0 then Some (2%nat, 0, 0xA0, 0xBF)
  else if (0xE1 <=? b) && (b <=? 0xEF) then Some (2%nat, b - 0xE0, 0x80, if b =? 0xED then 0x9F else 0xBF)
  else if b =? 0xF0 then Some (3%nat, 0, 0x90, 0xBF)
  else if (0xF1 <=? b) && (b <=? 0xF4) then Some (3%nat, b - 0xF0, 0x80, if b =? 0xF4 then 0x8F else 0xBF)
  else None.

Fixpoint tail_bytes (n : nat) (acc lo hi : Z) (s : list Z) : option Z :=
  match n, s with
  | O, _ => Some acc
  | S n, b :: s => if (lo <=? b) && (b <=? hi) then tail_bytes n (acc * 64 + (b - 0x80)) 0x80 0xBF s else None
  | S _, [] => None
  end.

Fixpoint runes_from (skip : nat) (s : list Z) : list Z :=
  match s with
  | [] => []
  | b :: r =>
      match skip with
      | S k => runes_from k r
      | O =>
          if b <? 0x80 then b :: runes_from 0 r
          else match rune_bounds b with
               | Some (n, lead, lo, hi) =>
                   match tail_bytes n lead lo hi r with
                   | Some c => c :: runes_from n r
                   | None => 0xFFFD :: runes_from 0 r
                   end
               | None => 0xFFFD :: runes_from 0 r
               end
      end
  end.

Definition runes (s : string) : list Z := runes_from 0 (byte_val <$> list_ascii_of_string s).

(** [PasswordRule]: the floors, then the four classes. *)
Record floors := mkFloors { minLen : Z; requireMixed : bool; requireNum : bool; requireSymbol : bool }.

Definition positive (p : string) : option Z := n ← Atoi p; if 0 <? n then Some n else None.

Definition read_param (f : floors) (p : string) : floors :=
  let p := trim_space p in
  let length_to o := match o with Some n => mkFloors n (requireMixed f) (requireNum f) (requireSymbol f) | None => f end in
  if String.eqb p "" then f
  else if String.eqb p "mixed" then mkFloors (minLen f) true (requireNum f) (requireSymbol f)
  else if String.eqb p "num" || String.eqb p "numbers" then mkFloors (minLen f) (requireMixed f) true (requireSymbol f)
  else if String.eqb p "symbol" || String.eqb p "symbols" then mkFloors (minLen f) (requireMixed f) (requireNum f) true
  else if has_prefix "length:" p then length_to (positive (str_drop 7 p))
  else length_to (positive p).

Definition floors_of (params : list string) : floors :=
  match params with
  | [p] => match positive p with
           | Some n => mkFloors n true true true
           | None => fold_left read_param params (mkFloors 8 true true true)
           end
  | _ => fold_left read_param params (mkFloors 8 true true true)
  end.

(** The switch of the loop: the first class a rune is in. *)
Definition class_of (r : Z) : nat :=
  if IsUpper r then 1 else if IsLower r then 2 else if IsDigit r then 3 else if IsPunct r || IsSymbol r then 4 else 0.

Definition has_class (n : nat) (rs : list Z) : bool := existsb (fun r => class_of r =? n)%nat rs.

Definition PasswordRule : RuleHandler := fun field v params _ =>
  match v with
  | VString s =>
      if String.eqb s "" then Some (the field "is required.")
      else
        let f := floors_of params in
        let rs := runes s in
        if Z.of_nat (String.length s) <? minLen f
        then Some (the field ("must be at least " +:+ itoaZ (minLen f) +:+ " characters."))
        else if requireMixed f && (negb (has_class 1 rs) || negb (has_class 2 rs))
        then Some (the field "must contain at least one uppercase and one lowercase letter.")
        else if requireNum f && negb (has_class 3 rs) then Some (the field "must contain at least one number.")
        else if requireSymbol f && negb (has_class 4 rs) then Some (the field "must contain at least one symbol.")
        else None
  | _ => Some (the field "is required.")
  end.

(** ** builtinRules *)

(** The rules whose parsers are arguments, by name. *)
Variable parser_rules : string -> RuleHandler.

Definition parser_rule_names : list string :=
  ["email"; "url"; "url_public"; "date"; "date_format"; "timezone"; "regex"; "json"; "file"; "mimes"; "image"].

Definition builtinRules : list (string * RuleHandler) :=
  [("required", requiredRule); ("nullable", nullableRule); ("filled", filledRule); ("present", presentRule);
   ("string", StringRule); ("integer", IntegerRule); ("numeric", NumericRule); ("boolean", BooleanRule); ("array", ArrayRule);
   ("alpha", AlphaRule); ("alpha_dash", AlphaDashRule); ("alpha_num", AlphaNumRule);
   ("min", MinRule); ("max", MaxRule); ("size", SizeRule); ("between", BetweenRule);
   ("same", SameRule); ("different", DifferentRule); ("in", InRule); ("not_in", NotInRule);
   ("confirmed", ConfirmedRule); ("accepted", AcceptedRule);
   ("required_if", RequiredIfRule); ("required_unless", RequiredUnlessRule);
   ("required_with", RequiredWithRule); ("required_without", RequiredWithoutRule);
   ("ip", IPRule); ("ipv4", IPv4Rule); ("ipv6", IPv6Rule); ("uuid", UUIDRule); ("ulid", ULIDRule);
   ("starts_with", StartsWithRule); ("ends_with", EndsWithRule); ("password", PasswordRule);
   ("gt", GtRule); ("gte", GteRule); ("lt", LtRule); ("lte", LteRule)]
  ++ ((fun n => (n, parser_rules n)) <$> parser_rule_names).

End Libraries.
