(* ===== verification/Validation.v ===== *)
(** * The validation engine (validation/validator.go, normalize.go, typed_engine.go, rules.go)

    A rule set maps fields to rule values; it is normalised (every rule value
    checked, the handlers it carries collected), every name is resolved, and
    then each field's rules run in order until one fails.  Go iterates its
    maps in any order: a rule set is a list here, and what is proved does not
    depend on the order.  A rule value is what the engine asks of it; its
    identity is [rv_id], [None] for one Go cannot compare. *)

From S2P Require Import Prelude GoStrings ValidationRules.
From Stdlib Require Import Ascii String Permutation.

Local Open Scope string_scope.
Local Open Scope list_scope.
Local Open Scope go_scope.

(** ** Rule values and rule sets *)

Record ValidationRule := mkRule {
  rv_id : option nat;
  rv_nil : bool;                       (* nil or a typed nil *)
  rv_check : option nat;               (* the error of [validateRule], if it has one *)
  rv_name : string;
  rv_params : list string;
  rv_handler : option RuleHandler;
  rv_carries : bool                    (* a [handlerCarrier] *)
}.

Abbreviation rule_set := (list (string * list ValidationRule)).

Record parsedRule := mkParsed { pr_name : string; pr_params : list string }.

Record carriedRule := mkCarried { cr_handler : RuleHandler; cr_source : ValidationRule }.

Record normalizedRuleSet := mkNormalized {
  fields : list (string * list parsedRule);
  custom : list (string * carriedRule)
}.

(** Why a rule set cannot run. *)
Inductive invalid :=
  | RuleIsNil (field : string) (i : nat)
  | RuleCheck (field : string) (i e : nat)
  | RuleUnnamed (field : string) (i : nat)
  | NilHandler (name field : string)
  | ShadowsBuiltin (name field : string)
  | TwoValues (name : string)
  | Unresolved (field name : string) (database : bool)
  | RegisterNil (name : string)
  | RegisterTaken (name : string)
  | ShadowsExtra (name : string)
  | UnsupportedData.

Definition sameRuleValue (a b : ValidationRule) : bool :=
  match rv_id a, rv_id b with Some i, Some j => (i =? j)%nat | _, _ => false end.

Section Engine.
Variable builtinRules : list (string * RuleHandler).

Definition dbRuleNames : list string := ["unique"; "exists"].

Definition is_builtin (name : string) : bool :=
  match assoc name builtinRules with Some _ => true | None => false end.

Definition isReservedRuleName (name : string) : bool := is_builtin name || existsb (String.eqb name) dbRuleNames.

(** ** Normalisation *)

Definition carry (cs : list (string * carriedRule)) (field : string) (r : ValidationRule) (h : RuleHandler)
  : result invalid (list (string * carriedRule)) :=
  if isReservedRuleName (rv_name r) then Err (ShadowsBuiltin (rv_name r) field)
  else match assoc (rv_name r) cs with
       | Some existing => if sameRuleValue (cr_source existing) r then Ok cs else Err (TwoValues (rv_name r))
       | None => Ok ((rv_name r, mkCarried h r) :: cs)
       end.

(** One rule value of a field. *)
Definition normalize_rule (cs : list (string * carriedRule)) (field : string) (i : nat) (r : ValidationRule)
  : result invalid (list (string * carriedRule) * parsedRule) :=
  if rv_nil r then Err (RuleIsNil field i)
  else match rv_check r with
       | Some e => Err (RuleCheck field i e)
       | None =>
           if String.eqb (rv_name r) "" then Err (RuleUnnamed field i)
           else match rv_handler r with
                | None => if rv_carries r then Err (NilHandler (rv_name r) field)
                          else Ok (cs, mkParsed (rv_name r) (rv_params r))
                | Some h => cs <-! carry cs field r h ;; Ok (cs, mkParsed (rv_name r) (rv_params r))
                end
       end.

Fixpoint normalize_field (cs : list (string * carriedRule)) (field : string) (i : nat) (rs : list ValidationRule)
  : result invalid (list (string * carriedRule) * list parsedRule) :=
  match rs with
  | [] => Ok (cs, [])
  | r :: rs =>
      x <-! normalize_rule cs field i r ;;
      let '(cs, p) := x in
      y <-! normalize_field cs field (S i) rs ;;
      let '(cs, ps) := y in Ok (cs, p :: ps)
  end.

Fixpoint normalize_from (n : normalizedRuleSet) (rs : rule_set) : result invalid normalizedRuleSet :=
  match rs with
  | [] => Ok n
  | (field, frs) :: rs =>
      x <-! normalize_field (custom n) field 0 frs ;;
      let '(cs, ps) := x in
      normalize_from (mkNormalized (fields n ++ [(field, ps)]) cs) rs
  end.

Definition normalizeRuleSet (rs : rule_set) : result invalid normalizedRuleSet :=
  normalize_from (mkNormalized [] []) rs.

(** ** The registry of a validator *)

Abbreviation registry := (list (string * RuleHandler)).

(** [register]: a handler may be nil. *)
Definition register (reg : registry) (name : string) (h : option RuleHandler) : result invalid registry :=
  match h with
  | None => Err (RegisterNil name)
  | Some h =>
      if is_builtin name then Err (RegisterTaken name)
      else match assoc name reg with
           | Some _ => Err (RegisterTaken name)
           | None => Ok ((name, h) :: reg)
           end
  end.

Definition get (reg : registry) (name : string) : option RuleHandler :=
  match assoc name reg with Some h => Some h | None => assoc name builtinRules end.

Definition resolve (reg : registry) (cs : list (string * carriedRule)) (name : string) : option RuleHandler :=
  match assoc name cs with Some c => Some (cr_handler c) | None => get reg name end.

(** [checkResolvable]: the first unresolvable name. *)
Definition unresolved_in (reg : registry) (cs : list (string * carriedRule)) (field : string) (ps : list parsedRule)
  : option invalid :=
  p ← List.find (fun p => match resolve reg cs (pr_name p) with Some _ => false | None => true end) ps;
  Some (Unresolved field (pr_name p) (existsb (String.eqb (pr_name p)) dbRuleNames)).

Fixpoint checkResolvable (reg : registry) (cs : list (string * carriedRule)) (fs : list (string * list parsedRule))
  : option invalid :=
  match fs with
  | [] => None
  | (field, ps) :: fs =>
      match unresolved_in reg cs field ps with Some e => Some e | None => checkResolvable reg cs fs end
  end.

(** ** Evaluation *)

Abbreviation Messages := (string -> string -> option string).   (* by field and rule *)

Definition isNullableEmpty (v : value) : bool := match v with VNil | VString "" => true | _ => false end.
Definition rulesContainNullable (ps : list parsedRule) : bool := existsb (fun p => String.eqb (pr_name p) "nullable") ps.

Section Run.
Variables (reg : registry) (cs : list (string * carriedRule)) (messages : Messages).

Definition validateField (field : string) (v : value) (p : parsedRule) (data : option data_map) : option string :=
  match resolve reg cs (pr_name p) with
  | None => Some ("unknown validation rule: " +:+ pr_name p)
  | Some h =>
      e ← h field v (pr_params p) data;
      Some (default e (messages field (pr_name p)))
  end.

(** The first rule that fails, with its message. *)
Fixpoint first_failure (field : string) (v : value) (ps : list parsedRule) (data : option data_map) : option (string * string) :=
  match ps with
  | [] => None
  | p :: ps =>
      match validateField field v p data with
      | Some e => Some (e, pr_name p)
      | None => first_failure field v ps data
      end
  end.

(** [ValidatedData]: the values, the messages and the failed rules by field. *)
Record ValidatedData := mkValidated {
  vd_data : gmap string value;
  vd_errors : gmap string (list string);
  vd_rules : gmap string (list string)
}.

Definition NewValidatedData : ValidatedData := mkValidated ∅ ∅ ∅.

Definition addError (vd : ValidatedData) (field message rule : string) : ValidatedData :=
  mkValidated (vd_data vd)
    (<[field := default [] (vd_errors vd !! field) ++ [message]]> (vd_errors vd))
    (<[field := default [] (vd_rules vd !! field) ++ [rule]]> (vd_rules vd)).

Definition set_value (vd : ValidatedData) (field : string) (v : value) : ValidatedData :=
  mkValidated (<[field := v]> (vd_data vd)) (vd_errors vd) (vd_rules vd).

Definition validateFieldRules (data : data_map) (vd : ValidatedData) (f : string * list parsedRule) : ValidatedData :=
  let '(field, ps) := f in
  let v := getFieldValue data field in
  if rulesContainNullable ps && isNullableEmpty v then set_value vd field v
  else
    let vd := match first_failure field v ps (Some data) with
              | Some (e, rule) => addError vd field e rule
              | None => vd
              end in
    match vd_errors vd !! field with Some _ => vd | None => set_value vd field v end.

Definition validate_fields (data : data_map) (fs : list (string * list parsedRule)) : ValidatedData :=
  fold_left (validateFieldRules data) fs NewValidatedData.

End Run.

(** ** Entry points *)

(** The data a validator is handed: the two kinds of map it takes, or a value
    of another type. *)
Inductive input := MapData (m : data_map) | StringMap (m : list (string * string)) | OtherData.

Definition toMap (data : input) : result invalid data_map :=
  match data with
  | MapData m => Ok m
  | StringMap m => Ok ((fun kv => (kv.1, VString kv.2)) <$> m)
  | OtherData => Err UnsupportedData
  end.

Definition validateNormalized (reg : registry) (messages : Messages) (data : input) (n : normalizedRuleSet)
  : result invalid ValidatedData :=
  match checkResolvable reg (custom n) (fields n) with
  | Some e => Err e
  | None => dataMap <-! toMap data ;; Ok (validate_fields reg (custom n) messages dataMap (fields n))
  end.

Definition Validate (messages : Messages) (data : input) (rs : rule_set) : result invalid ValidatedData :=
  n <-! normalizeRuleSet rs ;; validateNormalized [] messages data n.

(** The error of a single value. *)
Definition ValidateValue (messages : Messages) (v : value) (rs : list ValidationRule) : result invalid (option string) :=
  n <-! normalizeRuleSet [("value", rs)] ;;
  match checkResolvable [] (custom n) (fields n) with
  | Some e => Err e
  | None =>
      let ps := default [] (assoc "value" (fields n)) in
      if rulesContainNullable ps && isNullableEmpty v then Ok None
      else Ok (fst <$> first_failure [] (custom n) messages "value" v ps None)
  end.

Fixpoint register_all (reg : registry) (cs : list (string * carriedRule)) (extra : list (string * option RuleHandler))
  : result invalid registry :=
  match extra with
  | [] => Ok reg
  | (name, h) :: extra =>
      reg <-! register reg name h ;;
      match assoc name cs with
      | Some _ => Err (ShadowsExtra name)
      | None => register_all reg cs extra
      end
  end.

(** [CheckDataWithRules]: the messages by field. *)
Definition runNormalized (messages : Messages) (data : data_map) (n : normalizedRuleSet) (extra : list (string * option RuleHandler))
  : result invalid (gmap string (list string)) :=
  reg <-! register_all [] (custom n) extra ;;
  vd <-! validateNormalized reg messages (MapData data) n ;; Ok (vd_errors vd).

Definition CheckDataWithRules (messages : Messages) (data : data_map) (rs : rule_set) (extra : list (string * option RuleHandler))
  : result invalid (gmap string (list string)) :=
  n <-! normalizeRuleSet rs ;; runNormalized messages data n extra.

End Engine.
