(* ===== verification/ValidationSpec.v ===== *)
(** * The validation engine: what it accepts

    The outcome of a field, the outcome of a rule set as a function of its
    fields, and its independence of the order in which Go iterates them. *)

From S2P Require Import Prelude GoStrings ValidationRules Validation.
From Stdlib Require Import Ascii String.

Local Open Scope string_scope.
Local Open Scope list_scope.
Local Open Scope go_scope.

Section Spec.
Variable builtinRules : list (string * RuleHandler).

Abbreviation resolve := (resolve builtinRules).
Abbreviation carried := (list (string * carriedRule)).

Definition parse (r : ValidationRule) : parsedRule := mkParsed (rv_name r) (rv_params r).

(** ** Fields *)

(** What a field's rules come to: the message and the name of the first one
    that fails. *)
Definition outcome reg cs (messages : string -> string -> option string) (data : data_map) (f : string * list parsedRule)
  : option (string * string) :=
  let v := getFieldValue data f.1 in
  if rulesContainNullable f.2 && isNullableEmpty v then None
  else first_failure builtinRules reg cs messages f.1 v f.2 (Some data).

Definition passed reg cs messages data f : option (string * value) :=
  match outcome reg cs messages data f with None => Some (f.1, getFieldValue data f.1) | Some _ => None end.
Definition message_of reg cs messages data f : option (string * list string) :=
  x ← outcome reg cs messages data f; Some (f.1, [x.1]).
Definition rule_of reg cs messages data f : option (string * list string) :=
  x ← outcome reg cs messages data f; Some (f.1, [x.2]).

Lemma omap_keys {A B} (g : string * A -> option (string * B)) (l : list (string * A)) k :
  (forall x y, g x = Some y -> y.1 = x.1) -> k ∈ (omap g l).*1 -> k ∈ l.*1.
Proof.
  intros Hg (y & -> & (x & Hx & Hy)%list_elem_of_omap)%list_elem_of_fmap. rewrite (Hg _ _ Hy).
  apply list_elem_of_fmap. eauto.
Qed.

Lemma passed_key reg cs messages data x y : passed reg cs messages data x = Some y -> y.1 = x.1.
Proof. unfold passed. destruct (outcome _ _ _ _ _); by intros [= <-]. Qed.
Lemma message_key reg cs messages data x y : message_of reg cs messages data x = Some y -> y.1 = x.1.
Proof. unfold message_of. destruct (outcome _ _ _ _ _); cbn; by intros [= <-]. Qed.
Lemma rule_key reg cs messages data x y : rule_of reg cs messages data x = Some y -> y.1 = x.1.
Proof. unfold rule_of. destruct (outcome _ _ _ _ _); cbn; by intros [= <-]. Qed.

Lemma map_snoc {A B} (g : string * A -> option (string * B)) (l : list (string * A)) x :
  (forall x y, g x = Some y -> y.1 = x.1) -> x.1 ∉ l.*1 ->
  (list_to_map (omap g (l ++ [x])) : gmap string B) =
  match g x with Some y => <[x.1 := y.2]> (list_to_map (omap g l)) | None => list_to_map (omap g l) end.
Proof.
  intros Hg Hx. rewrite omap_app. cbn [omap list_omap]. destruct (g x) as [[k b]|] eqn:E; [|by rewrite app_nil_r].
  pose proof (Hg _ _ E) as Hk. cbn in Hk. subst k. rewrite list_to_map_snoc; [done|].
  intros Hin. apply Hx. by eapply omap_keys.
Qed.

Lemma omap_nodup {A B} (g : string * A -> option (string * B)) (l : list (string * A)) :
  (forall x y, g x = Some y -> y.1 = x.1) -> NoDup l.*1 -> NoDup (omap g l).*1.
Proof.
  intros Hg. induction l as [|x l IH]; cbn; [done|]. intros [Hx Hl]%NoDup_cons.
  destruct (g x) as [y|] eqn:E; [|by apply IH]. cbn. apply NoDup_cons. split; [|by apply IH].
  rewrite (Hg _ _ E). intros Hin. by apply Hx, (omap_keys g).
Qed.

Lemma keys_unique {A} (l : list (string * A)) x y : NoDup l.*1 -> x ∈ l -> y ∈ l -> x.1 = y.1 -> x = y.
Proof.
  intros Hnd [i Hi]%list_elem_of_lookup [j Hj]%list_elem_of_lookup He.
  assert (i = j) as ->; [|congruence]. eapply NoDup_lookup; [exact Hnd| |]; rewrite list_lookup_fmap; [by rewrite Hi|].
  rewrite Hj. cbn. by rewrite He.
Qed.

Lemma map_present {A B} (g : string * A -> option (string * B)) (l : list (string * A)) x :
  (forall x y, g x = Some y -> y.1 = x.1) -> NoDup l.*1 -> x ∈ l ->
  (list_to_map (omap g l) : gmap string B) !! x.1 = snd <$> g x.
Proof.
  intros Hg Hnd Hx. destruct (g x) as [[k b]|] eqn:E.
  - pose proof (Hg _ _ E) as Hk. cbn in Hk. subst k. apply elem_of_list_to_map_1; [by apply omap_nodup|].
    apply list_elem_of_omap. eauto.
  - apply not_elem_of_list_to_map_1. intros (y & Hy & (z & Hz & Hgz)%list_elem_of_omap)%list_elem_of_fmap.
    rewrite (Hg _ _ Hgz) in Hy. rewrite (keys_unique l x z) in E by done. congruence.
Qed.

Lemma map_absent {A B} (g : string * A -> option (string * B)) (l : list (string * A)) k :
  (forall x y, g x = Some y -> y.1 = x.1) -> k ∉ l.*1 -> (list_to_map (omap g l) : gmap string B) !! k = None.
Proof. intros Hg Hk. apply not_elem_of_list_to_map_1. intros Hin. apply Hk. by eapply omap_keys. Qed.

(** The validated data as maps built from the fields. *)
Lemma validate_fields_maps reg cs messages data fs :
  NoDup fs.*1 ->
  validate_fields builtinRules reg cs messages data fs =
  mkValidated (list_to_map (omap (passed reg cs messages data) fs))
    (list_to_map (omap (message_of reg cs messages data) fs)) (list_to_map (omap (rule_of reg cs messages data) fs)).
Proof.
  induction fs as [|x fs IH] using rev_ind; [done|]. rewrite fmap_app. intros (Hnd & Hx & _)%NoDup_app.
  assert (Hnot : x.1 ∉ fs.*1) by (intros Hin; apply (Hx _ Hin); left).
  unfold validate_fields in *. rewrite fold_left_app, IH by done. cbn [fold_left].
  rewrite !map_snoc by (try done; first [apply passed_key|apply message_key|apply rule_key]).
  set (vd := mkValidated _ _ _).
  assert (He : vd_errors vd !! x.1 = None) by (apply map_absent; [apply message_key|done]).
  assert (Hr : vd_rules vd !! x.1 = None) by (apply map_absent; [apply rule_key|done]).
  destruct x as [field ps]. cbn [fst] in *. unfold validateFieldRules, passed, message_of, rule_of, outcome. cbn [fst snd].
  destruct (rulesContainNullable ps && isNullableEmpty (getFieldValue data field)); [done|].
  destruct (first_failure _ _ _ _ _ _ _ _) as [[e rule]|]; cbn [mbind option_bind fst snd].
  - unfold addError. subst vd. cbn [vd_data vd_errors vd_rules] in *. rewrite lookup_insert_eq, He, Hr. done.
  - rewrite He. done.
Qed.

(** ** Resolution depends on what each name resolves to only *)

Section Ext.
Variables (reg : list (string * RuleHandler)) (cs cs' : carried).
Hypothesis same : forall name, assoc name cs = assoc name cs'.

Lemma resolve_ext name : resolve reg cs name = resolve reg cs' name.
Proof. unfold Validation.resolve. by rewrite same. Qed.

Lemma first_failure_ext messages field v ps data :
  first_failure builtinRules reg cs messages field v ps data = first_failure builtinRules reg cs' messages field v ps data.
Proof.
  induction ps as [|p ps IH]; [done|]. cbn. unfold validateField. rewrite resolve_ext.
  destruct (resolve reg cs' (pr_name p)); [|done]. by rewrite IH.
Qed.

Lemma outcome_ext messages data f : outcome reg cs messages data f = outcome reg cs' messages data f.
Proof. unfold outcome. by rewrite first_failure_ext. Qed.

Lemma validate_fields_ext messages data fs :
  NoDup fs.*1 ->
  validate_fields builtinRules reg cs messages data fs = validate_fields builtinRules reg cs' messages data fs.
Proof.
  intros Hnd. rewrite !validate_fields_maps by done.
  f_equal; f_equal; apply list_omap_ext, Forall2_same_length_lookup; (split; [done|]);
    intros i x y Hx Hy; rewrite Hx in Hy; simplify_eq;
    unfold passed, message_of, rule_of; by rewrite outcome_ext.
Qed.
End Ext.

(** ** Normalisation *)

(** A rule value normalisation takes, apart from the name it may share. *)
Definition usable (r : ValidationRule) : Prop :=
  rv_nil r = false /\ rv_check r = None /\ rv_name r <> "" /\
  match rv_handler r with
  | None => rv_carries r = false
  | Some _ => isReservedRuleName builtinRules (rv_name r) = false
  end.

Definition carries_name (name : string) (r : ValidationRule) : Prop := is_Some (rv_handler r) /\ rv_name r = name.
#[local] Instance carries_name_dec name r : Decision (carries_name name r).
Proof. unfold carries_name. apply _. Defined.

(** The rule values of a set that carry a handler under a name. *)
Definition carriers (name : string) (R : list ValidationRule) : list ValidationRule := filter (carries_name name) R.

Definition to_carried (r : ValidationRule) : option carriedRule := h ← rv_handler r; Some (mkCarried h r).

(** One rule value declares the name, if it is not the only one. *)
Definition agree (l : list ValidationRule) : Prop :=
  (List.length l <= 1)%nat \/ exists i, Forall (fun r => rv_id r = Some i) l.

Definition admissible (R : list ValidationRule) : Prop := Forall usable R /\ forall name, agree (carriers name R).

(** What a rule does to the carried handlers, without the positions the errors
    name. *)
Definition step_carried (cs : carried) (r : ValidationRule) : option carried :=
  match normalize_rule builtinRules cs "" 0 r with Ok (cs, _) => Some cs | Err _ => None end.

Fixpoint run_carried (cs : carried) (R : list ValidationRule) : option carried :=
  match R with [] => Some cs | r :: R => cs ← step_carried cs r; run_carried cs R end.

Lemma run_carried_app cs R R' : run_carried cs (R ++ R') = (cs ← run_carried cs R; run_carried cs R').
Proof.
  revert cs. induction R as [|r R IH]; intros cs; [done|]. cbn. destruct (step_carried cs r); [apply IH|done].
Qed.

Lemma normalize_rule_ok cs field i r x :
  normalize_rule builtinRules cs field i r = Ok x <-> step_carried cs r = Some x.1 /\ x.2 = parse r.
Proof.
  unfold step_carried, normalize_rule, carry, parse. destruct x as [cs' p]. cbn [fst snd].
  destruct (rv_nil r); [naive_solver|]. destruct (rv_check r); [naive_solver|].
  destruct (String.eqb (rv_name r) ""); [naive_solver|].
  destruct (rv_handler r); [|destruct (rv_carries r); naive_solver].
  destruct (isReservedRuleName _ _); [naive_solver|].
  destruct (assoc _ _); [destruct (sameRuleValue _ _)|]; naive_solver.
Qed.

Lemma normalize_field_ok cs field i rs x :
  normalize_field builtinRules cs field i rs = Ok x <-> run_carried cs rs = Some x.1 /\ x.2 = parse <$> rs.
Proof.
  revert cs i x. induction rs as [|r rs IH]; intros cs i [cs' ps]; cbn [normalize_field run_carried fst snd].
  - naive_solver.
  - destruct (normalize_rule builtinRules cs field i r) as [[cs1 p]|e] eqn:E; cbn [res_bind].
    + apply normalize_rule_ok in E as [Es Ep]. cbn [fst snd] in Es, Ep. subst p. rewrite Es. cbn [mbind option_bind].
      destruct (normalize_field builtinRules cs1 field (S i) rs) as [[cs2 ps2]|e] eqn:E2; cbn [res_bind].
      * apply IH in E2 as [Es2 Ep2]. cbn [fst snd] in Es2, Ep2. subst ps2. rewrite Es2. cbn. naive_solver.
      * split; [done|]. intros [Hr Hp]. assert (Hc : normalize_field builtinRules cs1 field (S i) rs = Ok (cs', parse <$> rs))
          by (apply IH; done). congruence.
    + split; [done|]. intros [Hr _]. destruct (step_carried cs r) as [cs1|] eqn:Es; [|done].
      assert (Hc : normalize_rule builtinRules cs field i r = Ok (cs1, parse r)) by (by apply normalize_rule_ok). congruence.
Qed.

Definition rules_of (rs : rule_set) : list ValidationRule := rs ≫= snd.
Definition parse_fields (rs : rule_set) : list (string * list parsedRule) :=
  (fun f : string * list ValidationRule => (f.1, parse <$> f.2)) <$> rs.

Lemma normalize_from_ok n rs x :
  normalize_from builtinRules n rs = Ok x <->
  run_carried (custom n) (rules_of rs) = Some (custom x) /\ fields x = fields n ++ parse_fields rs.
Proof.
  revert n. induction rs as [|[field frs] rs IH]; intros [fs cs]; cbn [normalize_from rules_of parse_fields custom fields].
  - destruct x. cbn. rewrite app_nil_r. naive_solver.
  - unfold rules_of. cbn [mbind list_bind snd]. rewrite run_carried_app.
    destruct (normalize_field builtinRules cs field 0 frs) as [[cs1 ps]|e] eqn:E; cbn [res_bind].
    + apply normalize_field_ok in E as [Es Ep]. cbn [fst snd] in Es, Ep. subst ps. rewrite Es.
      cbn [mbind option_bind]. rewrite IH. cbn [custom fields].
      unfold parse_fields. cbn. by rewrite <- app_assoc.
    + split; [done|]. intros [Hr _]. destruct (run_carried cs frs) as [cs1|] eqn:Es; [|done].
      assert (Hc : normalize_field builtinRules cs field 0 frs = Ok (cs1, parse <$> frs)) by (by apply normalize_field_ok).
      congruence.
Qed.

(** *** The carried handlers of a list of rule values *)

Lemma carriers_snoc name R r :
  carriers name (R ++ [r]) = carriers name R ++ (if decide (carries_name name r) then [r] else []).
Proof. unfold carriers. rewrite filter_app. cbn. by case_decide. Qed.

Lemma same_iff a b : sameRuleValue a b = true <-> exists i, rv_id a = Some i /\ rv_id b = Some i.
Proof.
  unfold sameRuleValue. destruct (rv_id a) as [i|], (rv_id b) as [j|]; try naive_solver.
  rewrite Nat.eqb_eq. naive_solver.
Qed.

Lemma agree_snoc r0 l r :
  agree ((r0 :: l) ++ [r]) <-> agree (r0 :: l) /\ sameRuleValue r0 r = true.
Proof.
  rewrite same_iff. unfold agree. split.
  - intros [Hl|[i Hi]]; [rewrite length_app in Hl; cbn in Hl; lia|].
    apply Forall_app in Hi as [Hi Hr]. inversion Hi as [|? ? Hr0 ?]; inversion Hr as [|? ? Hr1 ?]; subst. naive_solver.
  - intros [[Hl|[i Hi]] (j & Hj & Hr)]; right.
    + destruct l; [|cbn in Hl; lia]. exists j. repeat constructor; done.
    + inversion Hi as [|? ? Hi0 ?]; subst. exists i. apply Forall_app. split; [done|]. repeat constructor. congruence.
Qed.

(** Adding a rule to the handlers carried so far. *)
Lemma step_carried_spec cs R r :
  (forall name, assoc name cs = r ← head (carriers name R); to_carried r) ->
  match step_carried cs r with
  | Some cs' => usable r /\ (forall name, carries_name name r -> agree (carriers name R) -> agree (carriers name (R ++ [r]))) /\
      forall name, assoc name cs' = r ← head (carriers name (R ++ [r])); to_carried r
  | None => usable r -> exists name, ~ agree (carriers name (R ++ [r]))
  end.
Proof.
  intros Hcs. unfold step_carried, normalize_rule, usable, carry.
  destruct (rv_nil r) eqn:En; [naive_solver|]. destruct (rv_check r) eqn:Ec; [naive_solver|].
  destruct (String.eqb_spec (rv_name r) "") as [|Hne]; [naive_solver|].
  destruct (rv_handler r) as [h|] eqn:Eh.
  - destruct (isReservedRuleName builtinRules (rv_name r)) eqn:Er; [naive_solver|].
    assert (Hc : forall name, carries_name name r <-> name = rv_name r).
    { intros name. unfold carries_name. rewrite Eh. naive_solver. }
    assert (Hother : forall name, name <> rv_name r -> carriers name (R ++ [r]) = carriers name R).
    { intros name Hn. rewrite carriers_snoc, decide_False by (by rewrite Hc). by rewrite app_nil_r. }
    assert (Hself : carriers (rv_name r) (R ++ [r]) = carriers (rv_name r) R ++ [r])
      by (by rewrite carriers_snoc, decide_True by by apply Hc).
    rewrite Hcs. destruct (carriers (rv_name r) R) as [|r0 l] eqn:El; cbn [head mbind option_bind].
    + split; [done|]. split.
      * intros name ->%Hc _. rewrite Hself. left. done.
      * intros name. cbn [assoc]. destruct (String.eqb_spec name (rv_name r)) as [->|Hn].
        -- rewrite Hself. cbn. unfold to_carried. by rewrite Eh.
        -- by rewrite Hother, Hcs.
    + assert (Hr0 : exists h0, rv_handler r0 = Some h0).
      { assert (Hin : r0 ∈ carriers (rv_name r) R) by (rewrite El; left).
        apply list_elem_of_filter in Hin as [[[h0 Hh0] _] _]. eauto. }
      destruct Hr0 as [h0 Hh0]. unfold to_carried at 1. rewrite Hh0. cbn [mbind option_bind cr_source].
      destruct (sameRuleValue r0 r) eqn:Es; cbn [res_bind].
      * split; [done|]. split.
        -- intros name ->%Hc Ha. rewrite Hself, El in *. by apply agree_snoc.
        -- intros name. rewrite Hcs. destruct (String.eqb_spec name (rv_name r)) as [->|Hn]; [|by rewrite Hother].
           rewrite Hself, El. done.
      * intros _. exists (rv_name r). rewrite Hself. intros [_ Hs]%agree_snoc. congruence.
  - assert (Hother : forall name, carriers name (R ++ [r]) = carriers name R).
    { intros name. rewrite carriers_snoc, decide_False, app_nil_r; [done|]. unfold carries_name. rewrite Eh. intros [[? [=]] _]. }
    destruct (rv_carries r) eqn:Ek; [naive_solver|]. split; [done|]. split; [by intros name _; rewrite Hother|].
    intros name. by rewrite Hother, Hcs.
Qed.

Lemma run_carried_spec R :
  match run_carried [] R with
  | Some cs => admissible R /\ forall name, assoc name cs = r ← head (carriers name R); to_carried r
  | None => ~ admissible R
  end.
Proof.
  induction R as [|r R IH] using rev_ind.
  - split; [|done]. split; [done|]. intros name. left. cbn. lia.
  - rewrite run_carried_app. destruct (run_carried [] R) as [cs|]; cbn [mbind option_bind run_carried].
    + destruct IH as [[Hu Ha] Hcs]. pose proof (step_carried_spec cs R r Hcs) as Hs.
      destruct (step_carried cs r) as [cs'|]; cbn [mbind option_bind].
      * destruct Hs as (Hr & Hag & Hcs'). split; [|done]. split; [apply Forall_app; split; [done|by apply Forall_singleton]|].
        intros name. destruct (decide (carries_name name r)) as [Hn|Hn]; [by apply Hag|].
        rewrite carriers_snoc, decide_False, app_nil_r by done. apply Ha.
      * intros [Hu' Ha']. apply Forall_app in Hu' as [_ Hr]. inversion Hr; subst.
        destruct Hs as [name Hn]; [done|]. by apply Hn, Ha'.
    + intros [Hu' Ha']. apply IH. split; [by apply Forall_app in Hu' as [? _]|]. intros name.
      specialize (Ha' name). rewrite carriers_snoc in Ha'. case_decide; [|by rewrite app_nil_r in Ha'].
      destruct Ha' as [Hl|[i Hi]].
      * left. rewrite length_app in Hl. lia.
      * right. exists i. by apply Forall_app in Hi as [? _].
Qed.

(** ** Rule sets *)

(** A rule value Go can compare answers the same whenever it is asked. *)
Definition stable_rules (rs : rule_set) : Prop :=
  forall r r' i, r ∈ rules_of rs -> r' ∈ rules_of rs -> rv_id r = Some i -> rv_id r' = Some i -> r = r'.

Definition resolvable (cs : carried) (fs : list (string * list parsedRule)) : Prop :=
  forall f p, f ∈ fs -> p ∈ f.2 -> is_Some (resolve [] cs (pr_name p)).

Lemma unresolved_none cs field ps :
  unresolved_in builtinRules [] cs field ps = None <-> forall p, p ∈ ps -> is_Some (resolve [] cs (pr_name p)).
Proof.
  unfold unresolved_in. destruct (List.find _ ps) as [p|] eqn:E; cbn.
  - split; [done|]. intros Hall. apply List.find_some in E as [Hin Hp]. apply list_elem_of_In in Hin.
    destruct (Hall p Hin) as [h Hh]. by rewrite Hh in Hp.
  - split; [|done]. intros _ p Hin%list_elem_of_In. pose proof (List.find_none _ _ E _ Hin) as Hp. cbn in Hp.
    destruct (resolve [] cs (pr_name p)); [eauto|done].
Qed.

Lemma checkResolvable_none cs fs : checkResolvable builtinRules [] cs fs = None <-> resolvable cs fs.
Proof.
  unfold resolvable. induction fs as [|[field ps] fs IH]; cbn [checkResolvable].
  - split; [|done]. by intros _ f p ?%not_elem_of_nil.
  - destruct (unresolved_in builtinRules [] cs field ps) eqn:E.
    + split; [done|]. intros Hall. enough (Hn : unresolved_in builtinRules [] cs field ps = None) by congruence.
      apply unresolved_none. intros p Hp. apply (Hall (field, ps)); [left|done].
    + pose proof (proj1 (unresolved_none _ _ _) E) as E'. rewrite IH. setoid_rewrite elem_of_cons. naive_solver.
Qed.

(** A rule set that runs, and its outcome. *)
Lemma Validate_ok messages data rs vd :
  Validate builtinRules messages data rs = Ok vd <->
  exists cs m, run_carried [] (rules_of rs) = Some cs /\ resolvable cs (parse_fields rs) /\ toMap data = Ok m /\
    vd = validate_fields builtinRules [] cs messages m (parse_fields rs).
Proof.
  unfold Validate, normalizeRuleSet.
  destruct (normalize_from builtinRules (mkNormalized [] []) rs) as [n|e] eqn:E; cbn [res_bind].
  - apply normalize_from_ok in E as [Hr Hf]. cbn [custom fields] in Hr, Hf. unfold validateNormalized. rewrite Hf. cbn [app].
    destruct (checkResolvable builtinRules [] (custom n) (parse_fields rs)) eqn:Ec.
    + split; [done|]. intros (cs & m & Hcs & Hres & _). rewrite Hr in Hcs. apply Some_inj in Hcs as <-.
      apply checkResolvable_none in Hres. congruence.
    + apply checkResolvable_none in Ec. destruct (toMap data) as [m|e] eqn:Em; cbn [res_bind]; split.
      * intros [= <-]. eauto 6.
      * intros (cs & m' & Hcs & _ & [= <-] & ->). rewrite Hr in Hcs. by apply Some_inj in Hcs as <-.
      * done.
      * by intros (cs & m' & _ & _ & ? & _).
  - split; [done|]. intros (cs & m & Hcs & _).
    assert (Hc : normalize_from builtinRules (mkNormalized [] []) rs = Ok (mkNormalized (parse_fields rs) cs))
      by (by apply normalize_from_ok). congruence.
Qed.

Lemma parse_fields_keys rs : (parse_fields rs).*1 = rs.*1.
Proof. unfold parse_fields. rewrite <- list_fmap_compose. by apply list_fmap_ext. Qed.

(** *** The order of the fields *)

Lemma agree_perm l l' : l ≡ₚ l' -> agree l -> agree l'.
Proof.
  intros Hp [Hl|[i Hi]]; [left; by rewrite <- Hp|right]. exists i. by rewrite <- Hp.
Qed.

Lemma carriers_perm name R R' : R ≡ₚ R' -> carriers name R ≡ₚ carriers name R'.
Proof. unfold carriers. by intros ->. Qed.

Lemma admissible_perm R R' : R ≡ₚ R' -> admissible R -> admissible R'.
Proof.
  intros Hp [Hu Ha]. split; [by rewrite <- Hp|]. intros name. by eapply agree_perm; [apply carriers_perm|].
Qed.

Lemma head_perm l l' :
  l ≡ₚ l' -> agree l -> (forall r r' i, r ∈ l -> r' ∈ l -> rv_id r = Some i -> rv_id r' = Some i -> r = r') ->
  head l = head l'.
Proof.
  intros Hp Ha Hs. destruct l as [|a l], l' as [|b l'].
  - done.
  - by apply Permutation_nil_cons in Hp.
  - symmetry in Hp. by apply Permutation_nil_cons in Hp.
  - cbn. f_equal. assert (Hb : b ∈ a :: l) by (rewrite Hp; left). destruct Ha as [Hl|[i Hi]].
    + destruct l; [|cbn in Hl; lia]. by apply list_elem_of_singleton in Hb.
    + rewrite Forall_forall in Hi. apply (Hs a b i); [left|done|apply Hi; left|by apply Hi].
Qed.

Lemma run_carried_perm rs rs' cs :
  rs ≡ₚ rs' -> stable_rules rs -> run_carried [] (rules_of rs) = Some cs ->
  exists cs', run_carried [] (rules_of rs') = Some cs' /\ forall name, assoc name cs = assoc name cs'.
Proof.
  intros Hp Hs Hr.
  assert (HR : rules_of rs ≡ₚ rules_of rs') by (unfold rules_of; by rewrite Hp).
  pose proof (run_carried_spec (rules_of rs)) as H1. rewrite Hr in H1. destruct H1 as [Ha Hcs].
  pose proof (run_carried_spec (rules_of rs')) as H2.
  destruct (run_carried [] (rules_of rs')) as [cs'|]; [|by destruct H2; eapply admissible_perm].
  destruct H2 as [_ Hcs']. exists cs'. split; [done|]. intros name. rewrite Hcs, Hcs'.
  rewrite (head_perm _ _ (carriers_perm name _ _ HR)); [done|apply Ha|].
  intros r r' i [_ Hin]%list_elem_of_filter [_ Hin']%list_elem_of_filter. by apply Hs.
Qed.

Lemma validate_fields_perm cs messages data fs fs' :
  NoDup fs.*1 -> fs ≡ₚ fs' ->
  validate_fields builtinRules [] cs messages data fs = validate_fields builtinRules [] cs messages data fs'.
Proof.
  intros Hnd Hp. rewrite !validate_fields_maps by (try done; by rewrite <- Hp).
  assert (Hkeys : forall {B} (g : string * list parsedRule -> option (string * B)),
    (forall x y, g x = Some y -> y.1 = x.1) -> (list_to_map (omap g fs) : gmap string B) = list_to_map (omap g fs')).
  { intros B g Hg. apply list_to_map_proper; [by apply omap_nodup|by rewrite Hp]. }
  f_equal; apply Hkeys; [apply passed_key|apply message_key|apply rule_key].
Qed.

Lemma Validate_perm messages data rs rs' vd :
  NoDup rs.*1 -> rs ≡ₚ rs' -> stable_rules rs ->
  Validate builtinRules messages data rs = Ok vd -> Validate builtinRules messages data rs' = Ok vd.
Proof.
  intros Hnd Hp Hs (cs & m & Hr & Hres & Hm & ->)%Validate_ok. apply Validate_ok.
  destruct (run_carried_perm _ _ _ Hp Hs Hr) as (cs' & Hr' & Hext). exists cs', m.
  assert (Hf : parse_fields rs ≡ₚ parse_fields rs') by (unfold parse_fields; by rewrite Hp).
  split_and!; [done| |done|].
  - intros f p Hin Hp'. rewrite <- (resolve_ext [] cs cs' Hext). apply (Hres f); [by rewrite Hf|done].
  - rewrite <- (validate_fields_ext [] cs cs' Hext) by (by rewrite <- Hf, parse_fields_keys).
    apply validate_fields_perm; [by rewrite parse_fields_keys|done].
Qed.

(** *** What each field came to *)

(** A rule that lets the value pass, where [run] gives the handler a name runs. *)
Definition passes (run : string -> option RuleHandler) (data : data_map) (field : string) (v : value)
  (r : ValidationRule) : Prop :=
  exists h, run (rv_name r) = Some h /\ h field v (rv_params r) (Some data) = None.

Lemma first_failure_none cs messages field v frs data :
  (forall r, r ∈ frs -> is_Some (resolve [] cs (rv_name r))) ->
  first_failure builtinRules [] cs messages field v (parse <$> frs) (Some data) = None ->
  forall r, r ∈ frs -> passes (resolve [] cs) data field v r.
Proof.
  intros Hres. induction frs as [|r frs IH]; cbn; [by intros _ r ?%not_elem_of_nil|].
  unfold validateField. cbn. destruct (Hres r) as [h Hh]; [left|]. rewrite Hh.
  destruct (h field v (rv_params r) (Some data)) eqn:E; cbn; [done|]. intros Hf r' [->|Hin]%elem_of_cons.
  - by exists h.
  - apply IH; [|done|done]. intros q Hq. apply Hres. by right.
Qed.

Lemma first_failure_some cs messages field v frs data msg rule :
  (forall r, r ∈ frs -> is_Some (resolve [] cs (rv_name r))) ->
  first_failure builtinRules [] cs messages field v (parse <$> frs) (Some data) = Some (msg, rule) ->
  exists pre r post h e, frs = pre ++ r :: post /\ (forall q, q ∈ pre -> passes (resolve [] cs) data field v q) /\
    resolve [] cs (rv_name r) = Some h /\ h field v (rv_params r) (Some data) = Some e /\
    msg = default e (messages field (rv_name r)) /\ rule = rv_name r.
Proof.
  intros Hres. induction frs as [|r frs IH]; cbn; [done|].
  unfold validateField. cbn. destruct (Hres r) as [h Hh]; [left|]. rewrite Hh.
  destruct (h field v (rv_params r) (Some data)) as [e|] eqn:E; cbn.
  - intros [= <- <-]. exists [], r, frs, h, e. split_and!; try done. by intros q ?%not_elem_of_nil.
  - intros Hf. destruct IH as (pre & q & post & h' & e & -> & Hpre & Hq); [|done|].
    + intros q Hq. apply Hres. by right.
    + exists (r :: pre), q, post, h', e. split_and!; [done| |apply Hq..].
      intros x [->|Hx]%elem_of_cons; [by exists h|by apply Hpre].
Qed.

Lemma builtin_resolves rs cs name h :
  run_carried [] (rules_of rs) = Some cs -> assoc name builtinRules = Some h -> resolve [] cs name = Some h.
Proof.
  intros Hr Hb. pose proof (run_carried_spec (rules_of rs)) as Hs. rewrite Hr in Hs. destruct Hs as [[Hu _] Hcs].
  unfold Validation.resolve. rewrite Hcs. destruct (head (carriers name (rules_of rs))) as [r|] eqn:Eh; cbn; [|done].
  assert (Hin : r ∈ carriers name (rules_of rs)) by (destruct (carriers _ _); [done|]; injection Eh as <-; left).
  apply list_elem_of_filter in Hin as [[[h' Hh'] Hn] Hin]. rewrite Forall_forall in Hu.
  destruct (Hu r Hin) as (_ & _ & _ & Hres). rewrite Hh' in Hres.
  unfold isReservedRuleName, is_builtin in Hres. rewrite Hn, Hb in Hres. done.
Qed.

(** A name that is not built in runs the handler of a rule value of the set
    that has it, and of every such value where rule values are stable. *)
Lemma carried_resolves rs cs name h :
  run_carried [] (rules_of rs) = Some cs -> resolve [] cs name = Some h ->
  assoc name builtinRules = Some h \/ exists r, r ∈ rules_of rs /\ rv_name r = name /\ rv_handler r = Some h.
Proof.
  intros Hr. pose proof (run_carried_spec (rules_of rs)) as Hs. rewrite Hr in Hs. destruct Hs as [_ Hcs].
  unfold Validation.resolve. rewrite Hcs. destruct (head (carriers name (rules_of rs))) as [r|] eqn:Eh; cbn; [|by left].
  assert (Hin : r ∈ carriers name (rules_of rs)) by (destruct (carriers _ _); [done|]; injection Eh as <-; left).
  apply list_elem_of_filter in Hin as [[[h' Hh'] Hn] Hin]. unfold to_carried. rewrite Hh'. cbn.
  intros [= <-]. right. eauto.
Qed.

Lemma own_handler_resolves rs cs r h :
  run_carried [] (rules_of rs) = Some cs -> stable_rules rs -> r ∈ rules_of rs -> rv_handler r = Some h ->
  resolve [] cs (rv_name r) = Some h.
Proof.
  intros Hr Hst Hin Hh. pose proof (run_carried_spec (rules_of rs)) as Hs. rewrite Hr in Hs.
  destruct Hs as [[_ Hag] Hcs]. unfold Validation.resolve. rewrite Hcs.
  assert (Hc : r ∈ carriers (rv_name r) (rules_of rs)).
  { apply list_elem_of_filter. split; [|done]. split; [by rewrite Hh|done]. }
  destruct (Hag (rv_name r)) as [Hl|[i Hi]]; destruct (carriers (rv_name r) (rules_of rs)) as [|r0 l] eqn:El;
    try (by apply not_elem_of_nil in Hc).
  - destruct l; [|cbn in Hl; lia]. apply list_elem_of_singleton in Hc as <-. cbn. unfold to_carried. by rewrite Hh.
  - assert (r0 = r) as ->; [|cbn; unfold to_carried; by rewrite Hh].
    assert (Hr0 : r0 ∈ carriers (rv_name r) (rules_of rs)) by (rewrite El; left).
    apply list_elem_of_filter in Hr0 as [_ Hr0]. rewrite Forall_forall in Hi.
    apply (Hst r0 r i); [done|done|apply Hi; left|by apply Hi].
Qed.

(** What the validated data says of a field with the rules [frs]. *)
Definition accounted (run : string -> option RuleHandler) messages data (vd : ValidatedData) (field : string) (frs : list ValidationRule) : Prop :=
  let v := getFieldValue data field in
  (vd_data vd !! field = Some v /\ vd_errors vd !! field = None /\
     (rulesContainNullable (parse <$> frs) = true /\ isNullableEmpty v = true \/
      forall r, r ∈ frs -> passes run data field v r)) \/
  (vd_data vd !! field = None /\
   exists pre r post h e, frs = pre ++ r :: post /\ (forall q, q ∈ pre -> passes run data field v q) /\
     run (rv_name r) = Some h /\ h field v (rv_params r) (Some data) = Some e /\
     vd_errors vd !! field = Some [default e (messages field (rv_name r) : option string)] /\
     vd_rules vd !! field = Some [rv_name r]).

Lemma accounted_for cs messages data rs field frs :
  NoDup rs.*1 -> resolvable cs (parse_fields rs) -> (field, frs) ∈ rs ->
  accounted (resolve [] cs) messages data (validate_fields builtinRules [] cs messages data (parse_fields rs)) field frs.
Proof.
  intros Hnd Hres Hin. rewrite validate_fields_maps by (by rewrite parse_fields_keys).
  assert (Hf : (field, parse <$> frs) ∈ parse_fields rs) by (apply list_elem_of_fmap; by exists (field, frs)).
  assert (Hr : forall r, r ∈ frs -> is_Some (resolve [] cs (rv_name r))).
  { intros r Hr. apply (Hres _ (parse r) Hf). apply list_elem_of_fmap. eauto. }
  assert (Hnd' : NoDup (parse_fields rs).*1) by (by rewrite parse_fields_keys).
  unfold accounted. cbn [vd_data vd_errors vd_rules]. rewrite <- (eq_refl : (field, parse <$> frs).1 = field) at 2.
  pose proof (map_present (passed [] cs messages data) _ _ (passed_key _ _ _ _) Hnd' Hf) as H1.
  pose proof (map_present (message_of [] cs messages data) _ _ (message_key _ _ _ _) Hnd' Hf) as H2.
  pose proof (map_present (rule_of [] cs messages data) _ _ (rule_key _ _ _ _) Hnd' Hf) as H3.
  cbn [fst] in *. rewrite H1, H2, H3. unfold passed, message_of, rule_of, outcome. cbn [fst snd].
  destruct (rulesContainNullable (parse <$> frs)) eqn:En; cbn [andb];
    [destruct (isNullableEmpty (getFieldValue data field)) eqn:Ee; [left; cbn; by eauto|]|].
  all: destruct (first_failure _ _ _ _ _ _ _ _) as [[msg rule]|] eqn:E; cbn [mbind option_bind fmap option_fmap option_map fst snd].
  all: try (left; split_and!; [done|done|right; by eapply first_failure_none]).
  all: right; split; [done|]; apply first_failure_some in E as (pre & r & post & h & e & Hfrs & Hpre & Hh & He & -> & ->); [|done];
    by exists pre, r, post, h, e.
Qed.
End Spec.

(** C37: the outcome of a rule set does not depend on the order in which its
    fields are visited: any two orders both refuse the rule set or both give
    the same validated data, messages and failed rules. *)
Theorem outcome_is_order_free builtins messages data rs rs' :
  NoDup rs.*1 -> rs ≡ₚ rs' -> stable_rules rs ->
  match Validate builtins messages data rs, Validate builtins messages data rs' with
  | Ok vd, Ok vd' => vd = vd'
  | Err _, Err _ => True
  | _, _ => False
  end.
Proof.
  intros Hnd Hp Hs. destruct (Validate builtins messages data rs) as [vd|e] eqn:E.
  - by rewrite (Validate_perm _ _ _ _ _ _ Hnd Hp Hs E).
  - destruct (Validate builtins messages data rs') as [vd'|e'] eqn:E'; [|done].
    assert (Hc : Validate builtins messages data rs = Ok vd'); [|congruence].
    apply (Validate_perm builtins messages data rs' rs); [by rewrite <- Hp|done| |done].
    intros r r' i Hin Hin'. apply Hs; unfold rules_of in *; by rewrite Hp.
Qed.

(** C36: when a rule set runs, the validated data holds exactly the fields of
    the rule set, with the input's values, that failed no rule: each rule of
    such a field let the value pass (or the field is nullable and empty), and
    each other field carries one message, that of its first failing rule, or
    the override for it.  A built-in name runs its built-in handler, which no
    rule value can replace; any other name runs the handler of a rule value of
    the set with that name, and, where a rule value answers the same whenever it
    is asked, a rule that carries a handler runs its own. *)
Theorem validated_data_passed_every_rule builtins messages data rs vd :
  NoDup rs.*1 -> Validate builtins messages data rs = Ok vd ->
  exists run m, toMap data = Ok m /\
    (forall name h, assoc name builtins = Some h -> run name = Some h) /\
    (forall name h, run name = Some h ->
       assoc name builtins = Some h \/ exists r, r ∈ rules_of rs /\ rv_name r = name /\ rv_handler r = Some h) /\
    (stable_rules rs -> forall r h, r ∈ rules_of rs -> rv_handler r = Some h -> run (rv_name r) = Some h) /\
    (forall field, field ∉ rs.*1 -> vd_data vd !! field = None /\ vd_errors vd !! field = None) /\
    (forall field frs, (field, frs) ∈ rs -> accounted run messages m vd field frs).
Proof.
  intros Hnd (cs & m & Hr & Hres & Hm & ->)%Validate_ok. exists (resolve builtins [] cs), m. split_and!; [done|..].
  - intros name h. by eapply builtin_resolves.
  - intros name h. by eapply carried_resolves.
  - intros Hst r h. by eapply own_handler_resolves.
  - intros field Hf. rewrite validate_fields_maps by (by rewrite parse_fields_keys). cbn [vd_data vd_errors].
    split; apply map_absent; try (rewrite parse_fields_keys; done); [apply passed_key|apply message_key].
  - intros field frs. by apply accounted_for.
Qed.

(** ** Witnesses and findings *)

Definition no_parsers (name : string) : RuleHandler := fun _ _ _ _ => None.
Definition standard : list (string * RuleHandler) :=
  builtinRules (fun _ => "") (fun _ => None) (fun _ => "") (fun s => s)
    (fun r => (65 <=? r)%Z && (r <=? 90)%Z) (fun r => (97 <=? r)%Z && (r <=? 122)%Z)
    (fun r => (48 <=? r)%Z && (r <=? 57)%Z) (fun r => (r =? 33)%Z) (fun r => (r =? 43)%Z) no_parsers.
Definition no_messages : string -> string -> option string := fun _ _ => None.
Definition simple (name : string) (params : list string) : ValidationRule := mkRule None false None name params None false.

Definition form_data : data_map := [("name", VString "Ada"); ("age", VString "7"); ("note", VString "")].
Definition form : input := MapData form_data.

(** A rule of the application's own. *)
Definition not_root : RuleHandler := fun field v _ _ =>
  match v with VString "root" => Some ("The " +:+ field +:+ " is taken.") | _ => None end.
Definition form_rules : rule_set :=
  [("name", [simple "required" []; simple "alpha" []; mkRule None false None "not_root" [] (Some not_root) true]);
   ("age", [simple "integer" []; simple "min" ["2"]]);
   ("note", [simple "nullable" []; simple "min" ["3"]])].

Definition form_outcome : ValidatedData :=
  match Validate standard no_messages form form_rules with Ok vd => vd | Err _ => NewValidatedData end.

Lemma form_runs : Validate standard no_messages form form_rules = Ok form_outcome.
Proof. vm_compute. reflexivity. Qed.

Lemma form_fields : NoDup form_rules.*1.
Proof. apply (bool_decide_unpack _). vm_compute. exact I. Qed.

(** The age, of one character, is too short a string. *)
Lemma validated_data_passed_every_rule_witness :
  vd_errors form_outcome !! "age" = Some ["The age field must be at least 2 characters."] /\
  exists run, (forall name h, assoc name standard = Some h -> run name = Some h) /\
    accounted run no_messages form_data form_outcome "age" [simple "integer" []; simple "min" ["2"]].
Proof.
  split; [vm_compute; reflexivity|].
  destruct (validated_data_passed_every_rule standard no_messages form form_rules form_outcome form_fields form_runs)
    as (run & m & Hm & Hb & _ & _ & _ & Hacc).
  exists run. split; [exact Hb|]. apply Ok_inj in Hm. rewrite Hm. apply Hacc. right. left.
Defined.

Lemma outcome_is_order_free_witness :
  Validate standard no_messages form (rev form_rules) = Ok form_outcome.
Proof.
  pose proof (outcome_is_order_free standard no_messages form form_rules (rev form_rules) form_fields
    (Permutation_rev _)) as H.
  rewrite form_runs in H. destruct (Validate standard no_messages form (rev form_rules)) as [vd|e].
  - rewrite H; [reflexivity|]. intros r r' i Hr Hr' Hi. exfalso.
    unfold rules_of, form_rules in Hr. cbn in Hr.
    repeat (apply elem_of_cons in Hr as [->|Hr]; [discriminate Hi|]). by apply not_elem_of_nil in Hr.
  - exfalso. apply H. intros r r' i Hr Hr' Hi. exfalso.
    unfold rules_of, form_rules in Hr. cbn in Hr.
    repeat (apply elem_of_cons in Hr as [->|Hr]; [discriminate Hi|]). by apply not_elem_of_nil in Hr.
Defined.

(** [confirmed] on a nested field looks for its sibling at the top of the
    input, not beside it. *)
Lemma nested_confirmation_never_matches :
  vd_errors <$> (match Validate standard no_messages
      (MapData [("user", VMap [("pw", VString "x"); ("pw_confirmation", VString "x")])])
      [("user.pw", [simple "confirmed" []])] with Ok vd => Some vd | Err _ => None end)
  = Some {[ "user.pw" := ["The user.pw confirmation does not match."] ]}.
Proof. vm_compute. reflexivity. Qed.

(** [between] counts the characters of a string unless it reads as a number. *)
Lemma between_reads_digits_as_a_number :
  BetweenRule "pin" (VString "1234") ["3"; "5"] None = Some "The pin field must be between 3 and 5." /\
  BetweenRule "pin" (VString "4") ["3"; "5"] None = None /\
  MinRule "pin" (VString "4") ["3"] None = Some "The pin field must be at least 3 characters." /\
  BetweenRule "tags" (VStrings ["a"; "b"]) ["1"; "3"] None = Some "The tags field type is not supported for the between rule.".
Proof. vm_compute. split_and!; reflexivity. Qed.

(** The comment of [IPv6Rule] says an IPv4-mapped address is still accepted. *)
Lemma mapped_addresses_are_not_ipv6 :
  IPv6Rule "ip" (VString "::ffff:1.2.3.4") [] None = Some "The ip field must be a valid IPv6 address.".
Proof. vm_compute. reflexivity. Qed.

(** The flags of [password] can only ask for what is asked for anyway. *)
Lemma password_flags_change_nothing params : requireMixed (floors_of params) && requireNum (floors_of params)
  && requireSymbol (floors_of params) = true.
Proof.
  assert (Hread : forall ps f, requireMixed f && requireNum f && requireSymbol f = true ->
    let g := fold_left read_param ps f in requireMixed g && requireNum g && requireSymbol g = true).
  { induction ps as [|p ps IH]; intros f Hf; [done|]. cbn [fold_left]. apply IH. unfold read_param.
    repeat case_match; cbn in *; rewrite ?andb_true_r in *; try done;
      repeat match goal with H : _ && _ = true |- _ => apply andb_true_iff in H as [? ?] end;
      repeat (apply andb_true_iff; split); done. }
  destruct params as [|p [|q params]]; [done| |].
  - cbn [floors_of]. destruct (positive p); [done|]. by apply (Hread [p]).
  - by apply (Hread (p :: q :: params)).
Qed.

(** A ULID is upper-cased before it is matched, and the long s upper-cases to
    an S: a value of other bytes passes. *)
Lemma ulid_accepts_a_long_s :
  ULIDRule "id" (VString ("01ARZ3NDEKTSV4RRFFQ69G5FA" +:+ String (ascii_of_nat 197) (String (ascii_of_nat 191) ""))) [] None = None.
Proof. vm_compute. reflexivity. Qed.
